(* ===== verification/_CoqProject ===== *)
-Q . S2P
Prelude.v
JsMap.v
Utf8.v
JsObject.v
JsString.v
PathMatcher.v
Router.v
Body.v
Wire.v
Adaptive.v
Pool.v
Response.v
Layout.v
Decode.v
HeaderTemplates.v
ResponseBuilders.v
Packing.v
RouteWire.v
Ops.v
LruCache.v
Loader.v
LoaderSpec.v
RequestId.v
Metrics.v
WsFrame.v
Trace.v
JsonPacked.v
Handler.v
HandlerLogic.v
HandlerSpec.v
IngressMetrics.v
Options.v
StateErr.v
FastIngress.v
AsyncIngress.v
Routes.v
RoutesSpec.v
NodeServer.v
Server.v
FfiBuffer.v
FfiCodecs.v
CookieSign.v
Compress.v
PackedVerdicts.v
PackedParsers.v
Client.v
FormText.v
Sse.v
SseStream.v
Pipeline.v
TaskOp.v
Task.v
TaskSpec.v
TaskLive.v
