(* ===== verification/Prelude.v ===== *)
(** * Castrum: the TypeScript core, modelled and verified

    Castrum is an HTTP ingress library: a Rust core parses, validates, rate
    limits and answers requests, and the TypeScript layer around it packs
    requests, drives the core over one of three transports (C-ABI components,
    C-ABI frame, N-API frame), decodes its verdicts, builds responses, recycles
    buffers, batches scalar calls and keeps metrics.  This development models that
    TypeScript layer (paths below are under src/).

    ** The program's parts

    A request enters [createIngressHandler().run] (ingress/handlers.ts).  The handler
    picks headers and packs a frame (ingress/packing/), borrows an output buffer from
    a pool (shared/buffer-pool.ts), calls the native core, decodes the output header
    and sections (ingress/decode/), and lets a route callback build a response from
    pre-baked header templates (ingress/headers/, ingress/response/), either by copy
    or as a stream that keeps the pooled buffer (shared/response.ts).  Hooks feed
    a metrics registry (ingress/metrics.ts, shared/metrics.ts).  Besides the request
    path, the loader (loader/) coalesces scalar native calls of one tick into packed
    batches (rust-ffi/batch, shared/packed/wire.ts) behind an LRU cache and an
    adaptive cost model (shared/adaptive.ts).

    ** Files

    - Prelude: errors, the [result] monad, bytes, little-endian integers, DataView
      and typed-array access with the exceptions they throw, list lemmas, tactics.
    - JsMap, JsObject, JsString: the insertion-ordered Map, the plain object literal
      with its prototype, string methods, percent-decoding and JSON escaping.
    - PathMatcher: ingress/path-matcher.ts with the regular expressions it generates.
      Router: buildRouteHandlers (ingress/server.ts), ingress/server-error.ts and
      ingress/router.ts.  Body: ingress/body.ts and abort.ts.
    - Utf8: runtime/codec.ts and shared/bytes.ts.
    - Wire: shared/packed/wire.ts.
    - Adaptive: shared/adaptive.ts and loader/cost.ts, on binary64 floats.
    - Pool: shared/buffer-pool.ts.  Response: shared/response.ts.
    - Layout: ingress/constants.ts, status.ts, errors.ts and the helpers of shared.ts.
    - HeaderTemplates: ingress/headers/ (HSTS, security, CORS, both template builders).
      ResponseBuilders: ingress/response/ and headers/memoized-headers.ts.
    - Decode: ingress/decode/.  Packing: ingress/packing/ without route-wire.ts.
    - RouteWire: ingress/packing/route-wire.ts and ingress/native-route.ts.
    - Ops: loader/ops.ts and rust-ffi/batch/build.ts.  LruCache: loader/batch.ts.
    - Loader: loader/index.ts, state.ts, batch.ts, types.ts; LoaderSpec: its theorems.
    - RequestId: shared/request-id.ts.  Metrics: shared/metrics.ts.
    - Handler: ingress/handlers.ts; HandlerLogic: the rules for reasoning about
      [run]; HandlerSpec: its theorems.  IngressMetrics: ingress/metrics.ts.
    - Options: ingress/options.ts.  FastIngress: ingress/fast.ts and createIngressSync
      (ingress/sync.ts).  AsyncIngress: createIngress and ingress/context.ts.
    - Routes: ingress/routes/ over a handler interface; RoutesSpec: its theorems.
    - NodeServer: ingress/server-node.ts.  Server: the rest of ingress/server.ts, and
      ingress/health.ts.
    - StateErr: the state and exception monad of FastIngress, AsyncIngress, Routes and
      NodeServer, with its simulation and postcondition rules.
    - WsFrame, Trace: the WebSocket frame codec and the byte percent-decoder of
      baseline/tasks/, and shared/trace.ts.
    - JsonPacked: rust-ffi/scalar/json-packed.ts over the emitter of rust/ffi/json.rs.
    - TaskOp: task/op.ts and the native argument and ring layouts; Task:
      task/runtime.ts over rust/task/; TaskSpec: its invariant; TaskLive: its theorems.
    - FfiBuffer: native/ffi/build/util.ts and the scratch of native/ffi/build.ts, with the
      two conventions a native keeps about its output buffer.  FfiCodecs:
      native/ffi/build/codecs.ts, and the hex, percent and regular-expression codecs of
      rust/.  CookieSign: the signed cookies of rust/crypto/cookie_sign.rs up to
      rust-ffi/scalar/crypto.ts and factories.ts.  Compress:
      native/ffi/build/compress.ts over rust/payload/compress.rs.
    - PackedVerdicts: media types, accept-encoding lists and multipart bodies from the
      writers of rust/ffi/http.rs and rust/http/multipart.rs to the readers of
      rust-ffi/scalar/http.ts and payload.ts.
    - PackedParsers: rust/util/bytes.rs (form decoding, cookie pairs),
      rust/http/query_parser.rs, cookie_parser.rs, and shared/packed/parsers.ts over them;
      FormText: the same on strings, against [decodeURIComponent].
    - Sse: the event-stream encoder of rust/payload/sse.rs up to rust-ffi/scalar/payload.ts,
      and that of baseline/tasks/streaming.ts.  SseStream: integration/streaming.ts over
      the platform's stream controller, and a browser's reader of event streams.
    - Pipeline: integration/pipeline.ts over the handler interface, and the WebSocket
      handshake of integration/websocket.ts.
    - Client: the MIME caches, HMAC signers and thread pool of rust-ffi/context.ts,
      options.ts and client.ts, with rust/http/mime_lookup.rs and rust/util/threadpool.rs.

    ** Conventions

    A JavaScript integer is a [Z], its truncations written out, and [round_double] where
    the code adds doubles that may pass 2^53; measured times and
    averages are primitive floats.  Bytes and UTF-16 code units are [Z] lists.  An
    exception is [Throw e] of the [result] type.  Objects that the code mutates and
    shares (pool handles, dispatch contexts, metric families, promises) live in heaps
    and are referred to by index, so aliasing is that of the program.  Microtasks,
    stream callbacks and timers are explicit steps, and theorems quantify over their
    sequences.

    The native core is a parameter everywhere: [Handler.Natives] is stateful and free
    to throw, and no theorem about the handler assumes anything of it.  Where the code
    relies on the core (the batch layouts in Ops, the needed-size convention in
    RouteWire, the output layout in Decode), the contract is a named hypothesis that
    restates the Rust side's documented behaviour, and a witness instantiates it.

    ** Theorem groups

    - Wire formats (Utf8, Wire, RouteWire, Packing, Decode): packers and readers are
      inverse to each other and total or failing exactly where stated, cached fast
      paths equal a declarative reference, sections stay inside buffers.
    - Resources (Pool, Response, HandlerSpec, RouteWire): each buffer is free or held
      once, each handle released at most once, the pool refines an exclusive
      allocator, and over every sequence of requests, throwing hooks and callbacks
      included, and of events on delivered bodies the handler gives back every buffer
      that no delivered zero-copy body owns; a pulled body reads as the copy until a
      request is given its buffer.
    - The loader (Ops, LruCache, Loader, LoaderSpec): each op's bulk paths read one native
      batch function back exactly, the cache is an LRU map, and every load is settled
      under every interleaving, with the single call's result wherever batch and single
      call agree (a Bun builtin need not: gzip).
    - Routing (PathMatcher, Router): the generated expressions match segment by segment,
      the most specific route wins, and each request reaches the handler its route
      spec promises.
    - Body reads (Body): over every interleaving of any number of reads with their
      transports, clients and the clock, a read returns the whole body within the
      guard or fails for its stated reason, deadlines are enforced and nothing leaks.
    - Responses (HeaderTemplates, ResponseBuilders): the caches of the builders never
      show, the attacker-keyed one is bounded, security options merge as documented.
    - Accounting (RequestId, Metrics, IngressMetrics): unique ids, bounded series,
      exact histogram tallies, exactly-once in-flight accounting.
    - Ingress variants (FastIngress, AsyncIngress): the reused buffer, packer and result
      object never show; each asynchronous request ends in one context, told once.
    - Route factories (Routes, RoutesSpec), against the laws of a handler interface that
      the response builders satisfy: a JSON write answers 200 only to validated JSON,
      an echo is inert, a responder sees accepted requests only.
    - Adapters (NodeServer, Server): each request is answered, or reported and masked, or
      reported and dropped, as its response determines; static bodies are read once;
      nothing can be injected in a handshake; a shutdown stops each handle in order.
    - Codecs (WsFrame, Trace, JsonPacked): frames, trace contexts and packed JSON
      documents round trip; a __proto__ member does not, nor, under Node, a leading
      byte-order mark.
    - Tasks (TaskOp, TaskSpec, TaskLive): over every interleaving with the worker
      threads in which shutdown is only called with no task in flight, results reach their own callers and stay readable, nothing is stranded,
      the runtime's own steps terminate, and no worker touches released memory; and
      a history with another shutdown in which that fails.
    - The Bun surface (FfiBuffer, FfiCodecs, CookieSign, Compress): reused scratch and
      uninitialised buffers never show, the growing loop ends after two calls, codecs
      round trip, strings with a NUL are never judged by their prefix, and each method
      equals its addon counterpart except where stated: empty results read as
      failures, and a short buffer makes verifyCookieInto accept any signature.
    - Packed parsers (PackedVerdicts, PackedParsers, FormText): verdicts, parts and pairs
      reach the caller as the native side meant them whichever buffer carries them, the
      reported sizes are true, and query parsing on text is what JavaScript's own
      decoder gives.
    - Event streams and integrations (Sse, SseStream, Pipeline): both bindings encode an
      event exactly, and as the JavaScript encoder does; a browser reads back one message
      per event; how a response ends for every interleaving of its source and reader; the
      pipeline answers for itself or through the renderer on an accepted request only; a
      handshake names the first protocol of the server's that the client asks for.
    - The client's state (Client): type lookups are the native ones whatever the caches
      hold, for ASCII extensions, and the caches are bounded; signers do not show unless a
      key is overwritten in place; the pool is set up once, by its first use.
    - Flaws of the code are stated as theorems too: aliasing of a pulled chunk, late
      releases of recycled handles, loads stranded by a throwing key function, object
      keys inherited from [Object.prototype], rest patterns
      that lose their anchor, HSTS ignored on one path, unanswered preflights, error
      objects served as bodies, a pre-warm that warms nothing.

    ** Fuel and bounds

    Loops over buffers recurse on the item count or on a list; the pattern parser has
    one unit of fuel per character and is proved never to run out.  Where a loop has fuel
    (the loader's microtask queue, UTF-8 decoding) the fuel is the length of the input
    or a measure proved sufficient: [LoaderSpec.load_resolves] states that the queue
    drains, and the decoders consume at least one byte per step.  [FfiBuffer.grow_loop] has
    the room between the first capacity and the bound, and more changes nothing.  The
    form decoder has one unit per input byte.  The pool's bounds
    (16 prefilled buffers, 4 MiB), the cache bounds and the series cap are the code's
    constants.

    ** Not modelled

    What a host does with a socket, a signal or a timer (Bun.serve, node:http) is a step
    or an argument, not a model.  Symbol tables, library discovery and the
    handle wrappers of native/ and rust-ffi/: one call of a native function each.  Logging and
    environment access (shared/log.ts, env.ts).  Runtime detection (runtime/, of which only
    the table of Bun builtins is modelled, in Ops),
    benchmarks, scripts and the loader helpers of integration/batch.ts.  Of the Rust core only the
    code the Bun surface needs for its contracts is modelled; its parsers, hashes and
    compressors are parameters.
*)

From stdpp Require Export list gmap strings.
From Stdlib Require Export ZArith Lia.

#[global] Open Scope Z_scope.

(** ** Numbers

    A JavaScript number that holds an integer is a [Z]; the operators that
    truncate ([>>>], [&], typed-array stores) are written out. *)

Definition U8 : Z := 256.
Definition U16 : Z := 65536.
Definition U32 : Z := 4294967296.

(** [x >>> 0]: reinterpretation as an unsigned 32-bit integer. *)
Definition to_u32 (x : Z) : Z := x mod U32.

(** The double nearest to an integer that is not negative, ties to even: what a sum or
    a conversion gives whose exact result is [z]. *)
Definition round_double (z : Z) : Z :=
  let e := Z.log2 z - 52 in
  if decide (e ≤ 0) then z
  else
    let ulp := 2 ^ e in
    let q := z / ulp in
    let r := z mod ulp in
    (if decide (2 * r < ulp) then q
     else if decide (ulp < 2 * r) then q + 1
     else if Z.even q then q else q + 1) * ulp.

Definition U53 : Z := 9007199254740992.

Lemma round_double_exact (z : Z) : z < U53 → round_double z = z.
Proof.
  intros Hz. unfold round_double. rewrite decide_True; [done|].
  enough (Z.log2 z < 53) by lia.
  destruct (decide (0 < z)) as [Hp|]; [|rewrite Z.log2_nonpos by lia; lia].
  apply Z.log2_lt_pow2; [done|]. exact Hz.
Qed.

Example round_double_ties : round_double (U53 + 1) = U53 ∧ round_double (U53 + 3) = U53 + 4.
Proof. split; vm_compute; reflexivity. Qed.

(** ** Errors and the error monad *)

(** What the code throws, as the constructors of [Error] it uses. *)
Inductive js_error :=
  | RangeError (msg : string)
  | TypeError (msg : string)
  | JsError (name : string) (msg : string).

Inductive result (A : Type) :=
  | Ok (a : A)
  | Throw (e : js_error).
Arguments Ok {A} a.
Arguments Throw {A} e.

#[export] Instance js_error_eq_dec : EqDecision js_error.
Proof. solve_decision. Defined.
#[export] Instance result_eq_dec `{EqDecision A} : EqDecision (result A).
Proof. solve_decision. Defined.

#[export] Instance result_ret : MRet result := @Ok.
#[export] Instance result_bind : MBind result :=
  λ A B f m, match m with Ok a => f a | Throw e => Throw e end.
#[export] Instance result_fmap : FMap result :=
  λ A B f m, match m with Ok a => Ok (f a) | Throw e => Throw e end.

(** [try { m } finally { .. }] and [try { m } catch { .. }] only need to know
    whether [m] threw. *)
Definition is_ok {A} (m : result A) : bool :=
  match m with Ok _ => true | Throw _ => false end.

(** Run a guarded statement: [if (!c) throw e]. *)
Definition guard_ok (c : bool) (e : js_error) : result unit :=
  if c then Ok tt else Throw e.

Lemma bind_Ok {A B} (f : A → result B) (m : result A) (b : B) :
  m ≫= f = Ok b ↔ ∃ a, m = Ok a ∧ f a = Ok b.
Proof. destruct m; naive_solver. Qed.

Lemma bind_ret {A B} (f : A → result B) (a : A) : Ok a ≫= f = f a.
Proof. done. Qed.

(** ** Byte arrays

    A [Uint8Array] is the list of its elements; [zlen] is [byteLength]. *)

Definition zlen {A} (l : list A) : Z := Z.of_nat (length l).

Definition is_byte (z : Z) : Prop := 0 ≤ z < 256.
Definition bytes_ok (l : list Z) : Prop := Forall is_byte l.

Lemma zlen_nonneg {A} (l : list A) : 0 ≤ zlen l.
Proof. unfold zlen. lia. Qed.
Lemma zlen_nil {A} : zlen (@nil A) = 0.
Proof. done. Qed.
Lemma zlen_cons {A} (x : A) l : zlen (x :: l) = 1 + zlen l.
Proof. unfold zlen. simpl. lia. Qed.
Lemma zlen_app {A} (k l : list A) : zlen (k ++ l) = zlen k + zlen l.
Proof. unfold zlen. rewrite length_app. lia. Qed.
Lemma zlen_fmap {A B} (f : A → B) l : zlen (f <$> l) = zlen l.
Proof. unfold zlen. by rewrite length_fmap. Qed.
Lemma zlen_replicate {A} n (x : A) : zlen (replicate n x) = Z.of_nat n.
Proof. unfold zlen. by rewrite length_replicate. Qed.
Lemma zlen_0 {A} (l : list A) : zlen l = 0 → l = [].
Proof. destruct l; [done|]. rewrite zlen_cons. pose proof (zlen_nonneg l). lia. Qed.
Lemma zlen_take {A} n (l : list A) :
  0 ≤ n ≤ zlen l → zlen (take (Z.to_nat n) l) = n.
Proof. unfold zlen. rewrite length_take. lia. Qed.
Lemma zlen_drop {A} n (l : list A) :
  0 ≤ n ≤ zlen l → zlen (drop (Z.to_nat n) l) = zlen l - n.
Proof. unfold zlen. rewrite length_drop. lia. Qed.

Lemma zlen_drop_length {A B} (k : list B) (l : list A) :
  zlen k ≤ zlen l → zlen (drop (length k) l) = zlen l - zlen k.
Proof. unfold zlen. rewrite length_drop. lia. Qed.

#[export] Instance zlen_Permutation {A} : Proper (Permutation ==> eq) (@zlen A).
Proof. intros l k E. unfold zlen. by rewrite E. Qed.

Create HintDb zlen.
Create Rewrite HintDb zlen.
#[export] Hint Rewrite @zlen_nil @zlen_cons @zlen_app @zlen_fmap @zlen_replicate : zlen.
#[export] Hint Resolve zlen_nonneg : zlen.

(** Normalise lengths and add the non-negativity facts [lia] needs. *)
Ltac zlen_facts :=
  repeat match goal with
  | |- context [zlen ?l] =>
      lazymatch goal with
      | _ : 0 ≤ zlen l |- _ => fail
      | _ => pose proof (zlen_nonneg l)
      end
  | _ : context [zlen ?l] |- _ =>
      lazymatch goal with
      | _ : 0 ≤ zlen l |- _ => fail
      | _ => pose proof (zlen_nonneg l)
      end
  end.
Ltac zlia := autorewrite with zlen in *; zlen_facts; lia.

(** Decide the guards of the model that the context settles. *)
Ltac guards :=
  repeat match goal with
  | |- context [decide ?P] =>
      first [ rewrite (decide_True (P := P)) by (repeat split; zlia)
            | rewrite (decide_False (P := P)) by (intros ?; destruct_and?; zlia) ]
  end.

(** [Array.prototype.pop]: the last element and the rest. *)
Definition pop {A} (l : list A) : option (A * list A) :=
  match last l with
  | Some x => Some (x, take (length l - 1) l)
  | None => None
  end.

Lemma pop_snoc {A} (l : list A) (x : A) : pop (l ++ [x]) = Some (x, l).
Proof.
  unfold pop. rewrite last_snoc, length_app. simpl.
  replace (length l + 1 - 1)%nat with (length l) by lia. by rewrite take_app_length.
Qed.

Lemma pop_Some {A} (l k : list A) (x : A) : pop l = Some (x, k) → l = k ++ [x].
Proof. destruct l using rev_ind; [done|]. rewrite pop_snoc. by intros [= -> ->]. Qed.

Lemma pop_None {A} (l : list A) : pop l = None → l = [].
Proof. destruct l using rev_ind; [done|]. by rewrite pop_snoc. Qed.

(** [new Uint8Array(n)]. *)
Definition new_u8 (n : Z) : list Z := replicate (Z.to_nat n) 0.

(** [b.subarray(s, e)] and [b.slice(s, e)] agree as values: relative indices
    are clamped into the array, a negative one counts from the end. *)
Definition rel_index (n i : Z) : Z :=
  if decide (i < 0) then Z.max 0 (n + i) else Z.min i n.
Definition subarray {A} (b : list A) (s e : Z) : list A :=
  let n := zlen b in
  let s' := rel_index n s in
  let e' := rel_index n e in
  take (Z.to_nat (e' - s')) (drop (Z.to_nat s') b).

(** Overwrite [src] at [off]: what [TypedArray.set] does to the elements. *)
Definition splice {A} (b : list A) (off : Z) (src : list A) : list A :=
  take (Z.to_nat off) b ++ src ++ drop (Z.to_nat off + length src) b.

(** [dst.set(src, off)]. *)
Definition ta_set (dst src : list Z) (off : Z) : result (list Z) :=
  if decide (0 ≤ off ∧ off + zlen src ≤ zlen dst)
  then Ok (splice dst off src)
  else Throw (RangeError "offset is out of bounds").

(** ** Little-endian integers *)

Fixpoint le_bytes (n : nat) (z : Z) : list Z :=
  match n with
  | O => []
  | S n' => z mod 256 :: le_bytes n' (z / 256)
  end.

Fixpoint le_val (l : list Z) : Z :=
  match l with
  | [] => 0
  | b :: t => b + 256 * le_val t
  end.

(** [DataView.get*(off, true)] / [DataView.set*(off, v, true)] for an
    [n]-byte unsigned integer; a store keeps the low [8 * n] bits. *)
Definition dv_get (n : nat) (b : list Z) (off : Z) : result Z :=
  if decide (0 ≤ off ∧ off + Z.of_nat n ≤ zlen b)
  then Ok (le_val (take n (drop (Z.to_nat off) b)))
  else Throw (RangeError "Out of bounds access").

Definition dv_set (n : nat) (b : list Z) (off v : Z) : result (list Z) :=
  if decide (0 ≤ off ∧ off + Z.of_nat n ≤ zlen b)
  then Ok (splice b off (le_bytes n v))
  else Throw (RangeError "Out of bounds access").

Lemma length_le_bytes n z : length (le_bytes n z) = n.
Proof. revert z. induction n; intros z; simpl; auto. Qed.
Lemma zlen_le_bytes n z : zlen (le_bytes n z) = Z.of_nat n.
Proof. unfold zlen. by rewrite length_le_bytes. Qed.
#[export] Hint Rewrite zlen_le_bytes : zlen.

Lemma le_bytes_ok n z : bytes_ok (le_bytes n z).
Proof.
  revert z. induction n as [|n IH]; intros z; [constructor|].
  constructor; [apply Z.mod_pos_bound; lia|apply IH].
Qed.

Lemma le_val_le_bytes n z : le_val (le_bytes n z) = z mod 256 ^ Z.of_nat n.
Proof.
  revert z. induction n as [|n IH]; intros z.
  { simpl. by rewrite Z.mod_1_r. }
  cbn [le_bytes le_val]. rewrite IH, Nat2Z.inj_succ, Z.pow_succ_r by lia.
  rewrite Z.rem_mul_r by lia. lia.
Qed.

Lemma le_val_small n z : 0 ≤ z < 256 ^ Z.of_nat n → le_val (le_bytes n z) = z.
Proof. intros. rewrite le_val_le_bytes. by apply Z.mod_small. Qed.

(** Bytes put side by side. *)
Lemma lor_shift x y n : 0 ≤ n → 0 ≤ x < 2 ^ n → Z.lor x (Z.shiftl y n) = x + y * 2 ^ n.
Proof.
  intros Hn Hx. rewrite <-(Z.shiftl_mul_pow2 y n Hn), <-Z.add_lor_land.
  enough (Z.land x (Z.shiftl y n) = 0) as -> by lia.
  apply Z.bits_inj'. intros i Hi. rewrite Z.land_spec, Z.bits_0. destruct (decide (i < n)).
  - rewrite Z.shiftl_spec_low by done. apply andb_false_r.
  - rewrite <-(Z.mod_small x (2 ^ n) Hx), Z.mod_pow2_bits_high by lia. done.
Qed.

Lemma le_val_bound l : bytes_ok l → 0 ≤ le_val l < 256 ^ zlen l.
Proof.
  induction 1 as [|b l [Hb1 Hb2] Hl IH]; [simpl; unfold zlen; simpl; lia|].
  cbn [le_val]. rewrite zlen_cons, Z.add_comm, Z.pow_add_r by (auto with zlen; lia).
  change (256 ^ 1) with 256. lia.
Qed.

Lemma le_bytes_le_val l : bytes_ok l → le_bytes (length l) (le_val l) = l.
Proof.
  induction 1 as [|b l [Hb1 Hb2] Hl IH]; [done|].
  cbn [le_val length le_bytes]. f_equal.
  - rewrite (Z.mul_comm 256), Z.mod_add by lia. by apply Z.mod_small.
  - rewrite (Z.mul_comm 256), Z.div_add by lia.
    by rewrite (Z.div_small b), Z.add_0_l by lia.
Qed.

(** ** Lists read and written at offsets *)

Lemma drop_zlen_app {A} (pre post : list A) :
  drop (Z.to_nat (zlen pre)) (pre ++ post) = post.
Proof. unfold zlen. rewrite Nat2Z.id. by rewrite drop_app_length. Qed.
Lemma take_zlen_app {A} (pre post : list A) :
  take (Z.to_nat (zlen pre)) (pre ++ post) = pre.
Proof. unfold zlen. rewrite Nat2Z.id. by rewrite take_app_length. Qed.

Lemma subarray_app {A} (pre mid post : list A) s e :
  s = zlen pre → e = zlen pre + zlen mid →
  subarray (pre ++ mid ++ post) s e = mid.
Proof.
  intros -> ->. unfold subarray, rel_index. rewrite !zlen_app. guards.
  rewrite !Z.min_l by zlia. rewrite drop_zlen_app.
  replace (zlen pre + zlen mid - zlen pre) with (zlen mid) by lia.
  apply take_zlen_app.
Qed.

Lemma subarray_prefix {A} (mid post : list A) :
  subarray (mid ++ post) 0 (zlen mid) = mid.
Proof. apply (subarray_app [] mid post); autorewrite with zlen; lia. Qed.

Lemma zlen_subarray {A} (b : list A) s e :
  0 ≤ s ≤ e → e ≤ zlen b → zlen (subarray b s e) = e - s.
Proof.
  intros ??. unfold subarray, rel_index. guards. rewrite !Z.min_l by lia.
  rewrite zlen_take; [lia|]. rewrite zlen_drop; lia.
Qed.

Lemma splice_hole {A} (pre hole src post : list A) off :
  off = zlen pre → length hole = length src →
  splice (pre ++ hole ++ post) off src = pre ++ src ++ post.
Proof.
  intros -> Hlen. unfold splice. rewrite take_zlen_app. do 2 f_equal.
  unfold zlen. rewrite Nat2Z.id, <-Hlen, app_assoc, <-length_app.
  by rewrite drop_app_length.
Qed.

(** A write at the frontier of a buffer consumes the bytes after it. *)
Lemma splice_frontier {A} (pre rest src : list A) off :
  off = zlen pre → zlen src ≤ zlen rest →
  splice (pre ++ rest) off src = pre ++ src ++ drop (length src) rest.
Proof.
  intros -> Hle. rewrite <-(take_drop (length src) rest) at 1.
  apply splice_hole; [done|]. rewrite length_take. unfold zlen in Hle. lia.
Qed.

Lemma zlen_splice {A} (b src : list A) off :
  0 ≤ off → off + zlen src ≤ zlen b → zlen (splice b off src) = zlen b.
Proof.
  intros ??. unfold splice. rewrite !zlen_app, zlen_take by (zlen_facts; lia).
  unfold zlen in *. rewrite length_drop. lia.
Qed.

Lemma ta_set_frontier (pre rest src : list Z) off :
  off = zlen pre → zlen src ≤ zlen rest →
  ta_set (pre ++ rest) src off = Ok (pre ++ src ++ drop (length src) rest).
Proof.
  intros -> Hle. unfold ta_set. guards. by rewrite splice_frontier.
Qed.

Lemma dv_set_frontier n (pre rest : list Z) off v :
  off = zlen pre → Z.of_nat n ≤ zlen rest →
  dv_set n (pre ++ rest) off v = Ok (pre ++ le_bytes n v ++ drop n rest).
Proof.
  intros -> Hle. unfold dv_set. guards.
  by rewrite splice_frontier, length_le_bytes by (try rewrite zlen_le_bytes; done).
Qed.

Lemma dv_get_app n (pre post : list Z) off v :
  off = zlen pre → 0 ≤ v < 256 ^ Z.of_nat n →
  dv_get n (pre ++ le_bytes n v ++ post) off = Ok v.
Proof.
  intros -> Hv. unfold dv_get. guards. rewrite drop_zlen_app.
  rewrite take_app_length' by (by rewrite length_le_bytes).
  by rewrite le_val_small.
Qed.

Lemma dv_get_total n (b : list Z) off :
  0 ≤ off → off + Z.of_nat n ≤ zlen b → ∃ v, dv_get n b off = Ok v.
Proof. intros. unfold dv_get. guards. eauto. Qed.

Lemma bytes_ok_app k l : bytes_ok (k ++ l) ↔ bytes_ok k ∧ bytes_ok l.
Proof. apply Forall_app. Qed.
Lemma bytes_ok_take n l : bytes_ok l → bytes_ok (take n l).
Proof. apply Forall_take. Qed.
Lemma bytes_ok_drop n l : bytes_ok l → bytes_ok (drop n l).
Proof. apply Forall_drop. Qed.

Lemma dv_get_bound n b off v :
  bytes_ok b → dv_get n b off = Ok v → 0 ≤ v < 256 ^ Z.of_nat n.
Proof.
  intros Hb. unfold dv_get. case_decide as Hg; [|done]. intros [= <-].
  pose proof (le_val_bound (take n (drop (Z.to_nat off) b))
                (bytes_ok_take _ _ (bytes_ok_drop _ _ Hb))) as Hv.
  replace (zlen (take n (drop (Z.to_nat off) b))) with (Z.of_nat n) in Hv; [done|].
  unfold zlen in *. rewrite length_take, length_drop. lia.
Qed.

Create HintDb castrum.
#[export] Hint Resolve le_bytes_ok bytes_ok_take bytes_ok_drop : castrum.
