(* ===== verification/JsMap.v ===== *)
(** JavaScript's insertion-ordered [Map].

    A [Map] is the list of its entries in iteration order: [set] keeps the
    position of an existing key and appends a new one, [delete] removes the
    entry, and [keys().next().value] is the oldest key.  The caches, the
    metrics registry, the coalescer and the task runtime all rely on this
    order, so it is kept (a finite map would forget it); [get] is related to
    the list by the lemmas below and the well-formedness predicate [wf] says
    that keys are distinct. *)

From S2P Require Import Prelude.

Section jsmap.
Context {K V : Type} `{EqDecision K}.
Implicit Types (m : list (K * V)) (k : K) (v : V).

(** [map.get(k)]; [None] is [undefined]. *)
Fixpoint mget (k : K) (m : list (K * V)) : option V :=
  match m with
  | [] => None
  | (k', v) :: m' => if decide (k = k') then Some v else mget k m'
  end.

(** [map.has(k)]. *)
Definition mhas (k : K) (m : list (K * V)) : bool :=
  match mget k m with Some _ => true | None => false end.

(** [map.set(k, v)]. *)
Fixpoint mset (k : K) (v : V) (m : list (K * V)) : list (K * V) :=
  match m with
  | [] => [(k, v)]
  | (k', v') :: m' =>
      if decide (k = k') then (k, v) :: m' else (k', v') :: mset k v m'
  end.

(** [map.delete(k)]. *)
Fixpoint mdel (k : K) (m : list (K * V)) : list (K * V) :=
  match m with
  | [] => []
  | (k', v') :: m' => if decide (k = k') then m' else (k', v') :: mdel k m'
  end.

(** [map.size], [map.keys()] and [map.keys().next().value]. *)
Definition msize (m : list (K * V)) : Z := zlen m.
Definition mkeys (m : list (K * V)) : list K := m.*1.
Definition moldest (m : list (K * V)) : option K := head (mkeys m).

Definition wf (m : list (K * V)) : Prop := NoDup (mkeys m).

Lemma mget_None k m : mget k m = None ↔ k ∉ mkeys m.
Proof.
  induction m as [|[k' v'] m IH]; simpl; [set_solver|].
  case_decide; set_solver.
Qed.

Lemma mget_Some_elem k v m : mget k m = Some v → (k, v) ∈ m.
Proof.
  induction m as [|[k' v'] m IH]; simpl; [done|].
  case_decide; simplify_eq; intros; simplify_eq; set_solver.
Qed.

Lemma mget_elem k v m : wf m → (k, v) ∈ m → mget k m = Some v.
Proof.
  unfold wf. induction m as [|[k' v'] m IH]; simpl; [set_solver|].
  rewrite NoDup_cons. intros [Hnin Hnd] Hin. case_decide as Heq.
  - subst k'. apply elem_of_cons in Hin as [?|Hin]; [by simplify_eq|].
    exfalso. apply Hnin. by apply (list_elem_of_fmap_2 fst _ (k, v)).
  - apply elem_of_cons in Hin as [?|Hin]; [by simplify_eq|]. auto.
Qed.

Lemma mget_mset k k' v m :
  mget k (mset k' v m) = if decide (k = k') then Some v else mget k m.
Proof.
  induction m as [|[k'' v''] m IH]; simpl; repeat case_decide; simplify_eq; auto;
    simpl; repeat case_decide; simplify_eq; auto.
Qed.
Lemma mget_mset_eq k v m : mget k (mset k v m) = Some v.
Proof. rewrite mget_mset. by case_decide. Qed.
Lemma mget_mset_ne k k' v m : k ≠ k' → mget k (mset k' v m) = mget k m.
Proof. intros. rewrite mget_mset. by case_decide. Qed.

Lemma mset_new k v m : k ∉ mkeys m → mset k v m = m ++ [(k, v)].
Proof.
  induction m as [|[k' v'] m IH]; simpl; [done|]. intros Hk.
  case_decide; [set_solver|]. rewrite IH; set_solver.
Qed.

Lemma mkeys_mset_old k v m : k ∈ mkeys m → mkeys (mset k v m) = mkeys m.
Proof.
  unfold mkeys. induction m as [|[k' v'] m IH]; simpl; [set_solver|]. intros Hk.
  case_decide as Hd; simpl; [by subst|]. f_equal. apply IH. set_solver.
Qed.

Lemma mkeys_mset_new k v m : k ∉ mkeys m → mkeys (mset k v m) = mkeys m ++ [k].
Proof. intros. rewrite mset_new by done. unfold mkeys. by rewrite fmap_app. Qed.

Lemma wf_mset k v m : wf m → wf (mset k v m).
Proof.
  unfold wf. intros Hwf. destruct (decide (k ∈ mkeys m)).
  - by rewrite mkeys_mset_old.
  - rewrite mkeys_mset_new by done. apply NoDup_app. set_solver by auto using NoDup_singleton.
Qed.

Lemma mkeys_mdel_sub k m x : x ∈ mkeys (mdel k m) → x ∈ mkeys m.
Proof.
  induction m as [|[k' v'] m IH]; simpl; [done|].
  case_decide; simpl; rewrite ?elem_of_cons; naive_solver.
Qed.

Lemma wf_mdel k m : wf m → wf (mdel k m).
Proof.
  unfold wf. induction m as [|[k' v'] m IH]; simpl; [done|].
  rewrite NoDup_cons. intros [Hnin Hnd]. case_decide; [done|]. simpl.
  rewrite NoDup_cons. split; [|auto]. intros Hin. apply Hnin.
  by eapply mkeys_mdel_sub.
Qed.

Lemma mget_mdel_ne k k' m : k ≠ k' → mget k (mdel k' m) = mget k m.
Proof.
  intros. induction m as [|[k'' v''] m IH]; simpl; [done|].
  repeat case_decide; simplify_eq; simpl; repeat case_decide; simplify_eq; auto.
Qed.
Lemma mget_mdel_eq k m : wf m → mget k (mdel k m) = None.
Proof.
  unfold wf. induction m as [|[k' v'] m IH]; simpl; [done|].
  rewrite NoDup_cons. intros [Hnin Hnd]. case_decide as Hd.
  - subst. by apply mget_None.
  - simpl. case_decide; [done|]. auto.
Qed.

Lemma mdel_id k m : k ∉ mkeys m → mdel k m = m.
Proof.
  induction m as [|[k' v'] m IH]; simpl; [done|]. intros Hk.
  case_decide; [set_solver|]. f_equal. apply IH. set_solver.
Qed.

Lemma msize_mset_new k v m : k ∉ mkeys m → msize (mset k v m) = msize m + 1.
Proof. intros. unfold msize. rewrite mset_new by done. zlia. Qed.
Lemma msize_mset_old k v m : k ∈ mkeys m → msize (mset k v m) = msize m.
Proof.
  intros Hk. unfold msize, zlen. rewrite <-!(length_fmap fst).
  fold (mkeys (mset k v m)) (mkeys m). by rewrite mkeys_mset_old.
Qed.
Lemma msize_mdel_in k m : k ∈ mkeys m → msize (mdel k m) = msize m - 1.
Proof.
  unfold msize. induction m as [|[k' v'] m IH]; simpl; [set_solver|]. intros Hk.
  case_decide as Hd; rewrite ?zlen_cons; [lia|].
  rewrite IH; [lia|]. set_solver.
Qed.
Lemma msize_nonneg m : 0 ≤ msize m.
Proof. apply zlen_nonneg. Qed.

Lemma mdel_head k v m : mdel k ((k, v) :: m) = m.
Proof. simpl. by rewrite decide_True. Qed.
Lemma moldest_elem k m : moldest m = Some k → k ∈ mkeys m.
Proof. unfold moldest. destruct m as [|[] ?]; simpl; [done|]. set_solver. Qed.
Lemma moldest_None m : moldest m = None ↔ m = [].
Proof. unfold moldest. destruct m as [|[] ?]; naive_solver. Qed.

(** [map.delete(k); map.set(k, v)]: the entry moves to the end. *)
Lemma mset_mdel k v m : wf m → mset k v (mdel k m) = mdel k m ++ [(k, v)].
Proof. intros. apply mset_new, mget_None. by apply mget_mdel_eq. Qed.

(** Deleting the oldest keys one after the other drops a prefix. *)
Lemma mdel_prefix (l m : list (K * V)) :
  wf (l ++ m) → foldl (λ acc k, mdel k acc) (l ++ m) l.*1 = m.
Proof.
  unfold wf, mkeys. induction l as [|[k v] l IH]; simpl; [done|].
  rewrite NoDup_cons. intros [Hnin Hnd]. rewrite decide_True by done. by apply IH.
Qed.

Lemma Forall_mset (P : K * V → Prop) k v m : Forall P m → P (k, v) → Forall P (mset k v m).
Proof.
  induction 1 as [|[k' v'] m Hp Hm IH]; intros Hk; simpl; [by constructor|].
  case_decide; constructor; auto.
Qed.
Lemma Forall_mdel (P : K * V → Prop) k m : Forall P m → Forall P (mdel k m).
Proof.
  induction 1 as [|[k' v'] m Hp Hm IH]; simpl; [done|]. case_decide; [done|by constructor].
Qed.

Lemma wf_app_r (l m : list (K * V)) : wf (l ++ m) → wf m.
Proof. unfold wf, mkeys. rewrite fmap_app, NoDup_app. naive_solver. Qed.
Lemma wf_drop n (m : list (K * V)) : wf m → wf (drop n m).
Proof. intros Hm. apply (wf_app_r (take n m)). by rewrite take_drop. Qed.
End jsmap.

#[export] Hint Resolve wf_mset wf_mdel wf_drop : castrum.
