(* ===== verification/Utf8.v ===== *)
(** The UTF-8 codec (src/runtime/codec.ts, re-exported by src/shared/codec.ts
    and src/shared/bytes.ts).

    A JavaScript string is the list of its UTF-16 code units.  [TextEncoder]
    replaces lone surrogates by U+FFFD and writes the scalar values in UTF-8;
    the decoder is the WHATWG replacement-mode state machine.  On top of them
    sit the functions of the repository: the Node and Bun forms of
    [encodeUtf8Into], and the ranged decode with its ASCII fast path. *)

From S2P Require Import Prelude.
From Stdlib Require Import Ascii.

(** A literal of the source, as code units. *)
Fixpoint js (s : string) : list Z :=
  match s with
  | EmptyString => []
  | String a s' => Z.of_nat (nat_of_ascii a) :: js s'
  end.

Definition is_unit (u : Z) : Prop := 0 ≤ u < 65536.
Definition is_high (u : Z) : bool := bool_decide (0xD800 ≤ u ≤ 0xDBFF).
Definition is_low (u : Z) : bool := bool_decide (0xDC00 ≤ u ≤ 0xDFFF).
Definition is_scalar (c : Z) : Prop := 0 ≤ c < 0xD800 ∨ 0xE000 ≤ c ≤ 0x10FFFF.
Definition REPLACEMENT : Z := 0xFFFD.

(** ** Encoding *)

(** The scalar values of a string; a lone surrogate becomes U+FFFD. *)
Fixpoint scalars (s : list Z) : list Z :=
  match s with
  | [] => []
  | u :: s' =>
      if is_high u then
        match s' with
        | l :: s'' =>
            if is_low l
            then 0x10000 + (u - 0xD800) * 0x400 + (l - 0xDC00) :: scalars s''
            else REPLACEMENT :: scalars s'
        | [] => [REPLACEMENT]
        end
      else if is_low u then REPLACEMENT :: scalars s'
      else u :: scalars s'
  end.

Definition utf8_of_scalar (c : Z) : list Z :=
  if decide (c < 0x80) then [c]
  else if decide (c < 0x800) then [0xC0 + c / 64; 0x80 + c mod 64]
  else if decide (c < 0x10000) then
    [0xE0 + c / 4096; 0x80 + c / 64 mod 64; 0x80 + c mod 64]
  else
    [0xF0 + c / 262144; 0x80 + c / 4096 mod 64; 0x80 + c / 64 mod 64; 0x80 + c mod 64].

(** [encodeUtf8(s)] (src/runtime/codec.ts, both runtimes: [TextEncoder]). *)
Definition encodeUtf8 (s : list Z) : list Z := scalars s ≫= utf8_of_scalar.

(** The longest run of whole characters that fits into [room] bytes: what
    [TextEncoder.encodeInto] and [Buffer.write] store. *)
Fixpoint fit_scalars (cs : list Z) (room : Z) : list Z :=
  match cs with
  | [] => []
  | c :: cs' =>
      if decide (zlen (utf8_of_scalar c) ≤ room)
      then utf8_of_scalar c ++ fit_scalars cs' (room - zlen (utf8_of_scalar c))
      else []
  end.
Definition encode_fit (s : list Z) (room : Z) : list Z := fit_scalars (scalars s) room.

(** A [Uint8Array] as a window of its backing [ArrayBuffer]. *)
Record view := View { backing : list Z; byteOffset : Z; byteLength : Z }.
Definition view_ok (v : view) : Prop :=
  0 ≤ byteOffset v ∧ 0 ≤ byteLength v ∧ byteOffset v + byteLength v ≤ zlen (backing v).
Definition view_bytes (v : view) : list Z :=
  subarray (backing v) (byteOffset v) (byteOffset v + byteLength v).

(** [Buffer.write(s, pos, 'utf8')] on a window of [b] that ends at [lim]. *)
Definition buffer_write (b : list Z) (s : list Z) (pos lim : Z) : Z * list Z :=
  let w := encode_fit s (lim - pos) in (zlen w, splice b pos w).

(** [encodeUtf8Into(s, dest, offset)] under Node: [encodeInto] on
    [dest.subarray(offset)].  Returns the bytes written and the new backing. *)
Definition nodeEncodeUtf8Into (s : list Z) (dest : view) (offset : Z) : Z * list Z :=
  let start := byteOffset dest + Z.min offset (byteLength dest) in
  buffer_write (backing dest) s start (byteOffset dest + byteLength dest).

(** [bunEncodeUtf8Into]: the cached view spans the whole backing buffer, so a
    destination that is not a suffix of it is bounded by [subarray]. *)
Definition bunEncodeUtf8Into (s : list Z) (dest : view) (offset : Z) : Z * list Z :=
  let start := byteOffset dest + offset in
  if decide (byteOffset dest + byteLength dest ≠ zlen (backing dest)) then
    buffer_write (backing dest) s start (start + byteLength dest - offset)
  else
    buffer_write (backing dest) s start (zlen (backing dest)).

(** ** Decoding (WHATWG, replacement mode) *)

(** A pending sequence: code point so far, continuation bytes still needed,
    and the bounds of the next one. *)
Definition pending := option (Z * Z * Z * Z).

(** A byte read in the initial state: what it emits and the state after it. *)
Definition dec_start (b : Z) : list Z * pending :=
  if decide (b < 0x80) then ([b], None)
  else if decide (0xC2 ≤ b ≤ 0xDF) then ([], Some (b - 0xC0, 1, 0x80, 0xBF))
  else if decide (b = 0xE0) then ([], Some (b - 0xE0, 2, 0xA0, 0xBF))
  else if decide (b = 0xED) then ([], Some (b - 0xE0, 2, 0x80, 0x9F))
  else if decide (0xE0 ≤ b ≤ 0xEF) then ([], Some (b - 0xE0, 2, 0x80, 0xBF))
  else if decide (b = 0xF0) then ([], Some (b - 0xF0, 3, 0x90, 0xBF))
  else if decide (b = 0xF4) then ([], Some (b - 0xF0, 3, 0x80, 0x8F))
  else if decide (0xF0 ≤ b ≤ 0xF4) then ([], Some (b - 0xF0, 3, 0x80, 0xBF))
  else ([REPLACEMENT], None).

Fixpoint dec_run (st : pending) (bs : list Z) : list Z :=
  match bs with
  | [] => match st with None => [] | Some _ => [REPLACEMENT] end
  | b :: bs' =>
      match st with
      | None => let '(out, st') := dec_start b in out ++ dec_run st' bs'
      | Some (cp, need, lo, hi) =>
          if decide (lo ≤ b ≤ hi) then
            let cp' := cp * 64 + (b - 0x80) in
            if decide (need = 1) then cp' :: dec_run None bs'
            else dec_run (Some (cp', need - 1, 0x80, 0xBF)) bs'
          else
            let '(out, st') := dec_start b in REPLACEMENT :: out ++ dec_run st' bs'
      end
  end.

Definition units_of_scalar (c : Z) : list Z :=
  if decide (c < 0x10000) then [c]
  else [0xD800 + (c - 0x10000) / 0x400; 0xDC00 + (c - 0x10000) mod 0x400].

(** [Buffer.toString('utf8')] and Bun's [CString]: no byte-order-mark removal. *)
Definition utf8_toString (bs : list Z) : list Z := dec_run None bs ≫= units_of_scalar.

(** [decodeUtf8] under Node: [TextDecoder] drops a leading byte-order mark. *)
Definition nodeDecodeUtf8 (bs : list Z) : list Z :=
  match bs with
  | 0xEF :: 0xBB :: 0xBF :: bs' => utf8_toString bs'
  | _ => utf8_toString bs
  end.

(** [decodeUtf8] under Bun. *)
Definition bunDecodeUtf8 (bs : list Z) : list Z :=
  if decide (zlen bs = 0) then [] else utf8_toString bs.

(** [decodeUtf8Range(bytes, start, end)]: latin1 when no byte of the range is
    above 0x7F ([bytes[i] ?? 0]), a UTF-8 decode of the range otherwise. *)
Definition decodeUtf8Range (bytes : list Z) (start end_ : Z) : list Z :=
  let range := subarray bytes start end_ in
  if existsb (λ b, bool_decide (0x80 ≤ b)) range then utf8_toString range else range.

(** [String.prototype.toWellFormed], the reference for round trips. *)
Definition toWellFormed (s : list Z) : list Z := scalars s ≫= units_of_scalar.

(** [hasNul(s)] (src/shared/bytes.ts). *)
Definition hasNul (s : list Z) : bool := bool_decide (0 ∈ s).

(** ** Facts *)

Ltac zdm := Z.div_mod_to_equations; lia.

Lemma scalars_ok s : Forall is_unit s → Forall is_scalar (scalars s).
Proof.
  remember (length s) as n eqn:Hn. revert s Hn.
  induction (lt_wf n) as [n _ IH]. intros s -> Hs.
  destruct s as [|u s]; simpl; [constructor|].
  inversion_clear Hs as [|? ? Hu Hs']. unfold is_unit in Hu.
  assert (Forall is_scalar (scalars s)) by (eapply IH; [|done|done]; simpl; lia).
  unfold is_high, is_low, is_scalar, REPLACEMENT in *.
  case_bool_decide; [destruct s as [|l s]|]; [repeat constructor; lia| |].
  - inversion_clear Hs' as [|? ? Hl Hs]. case_bool_decide.
    + constructor; [lia|]. eapply IH; [|done|done]. simpl. lia.
    + constructor; [lia|done].
  - case_bool_decide; constructor; try done; lia.
Qed.

(** Decoding one lead byte. *)
Lemma dec_lead b out st bs :
  dec_start b = (out, st) → dec_run None (b :: bs) = out ++ dec_run st bs.
Proof. intros Hb. cbn. by rewrite Hb. Qed.

(** Decoding one continuation byte in range. *)
Lemma dec_cont cp need lo hi b bs :
  lo ≤ b ≤ hi → 1 ≤ need →
  dec_run (Some (cp, need, lo, hi)) (b :: bs) =
    if decide (need = 1) then cp * 64 + (b - 0x80) :: dec_run None bs
    else dec_run (Some (cp * 64 + (b - 0x80), need - 1, 0x80, 0xBF)) bs.
Proof. intros ??. cbn. by rewrite decide_True. Qed.

Lemma dec_scalar2 c bs :
  0x80 ≤ c < 0x800 →
  dec_run None (0xC0 + c / 64 :: 0x80 + c mod 64 :: bs) = c :: dec_run None bs.
Proof.
  intros Hc.
  rewrite (dec_lead _ [] (Some (c / 64, 1, 0x80, 0xBF))).
  - cbn [app]. rewrite dec_cont by zdm. rewrite decide_True by done. f_equal. zdm.
  - unfold dec_start. rewrite decide_False by zdm. rewrite decide_True by zdm.
    repeat f_equal; zdm.
Qed.

Lemma dec_scalar3 c bs :
  0x800 ≤ c < 0xD800 ∨ 0xE000 ≤ c < 0x10000 →
  dec_run None (0xE0 + c / 4096 :: 0x80 + c / 64 mod 64 :: 0x80 + c mod 64 :: bs) =
    c :: dec_run None bs.
Proof.
  intros Hc.
  set (lo := if decide (c / 4096 = 0) then 0xA0 else 0x80).
  set (hi := if decide (c / 4096 = 13) then 0x9F else 0xBF).
  rewrite (dec_lead _ [] (Some (c / 4096, 2, lo, hi))).
  - cbn [app]. rewrite dec_cont; [|unfold lo, hi; repeat case_decide; zdm|lia].
    rewrite decide_False by lia. rewrite dec_cont by zdm.
    rewrite decide_True by lia. f_equal. zdm.
  - unfold dec_start, lo, hi. repeat case_decide; try (exfalso; zdm);
      repeat f_equal; zdm.
Qed.

Lemma dec_scalar4 c bs :
  0x10000 ≤ c ≤ 0x10FFFF →
  dec_run None (0xF0 + c / 262144 :: 0x80 + c / 4096 mod 64 ::
                0x80 + c / 64 mod 64 :: 0x80 + c mod 64 :: bs) =
    c :: dec_run None bs.
Proof.
  intros Hc.
  set (lo := if decide (c / 262144 = 0) then 0x90 else 0x80).
  set (hi := if decide (c / 262144 = 4) then 0x8F else 0xBF).
  rewrite (dec_lead _ [] (Some (c / 262144, 3, lo, hi))).
  - cbn [app]. rewrite dec_cont; [|unfold lo, hi; repeat case_decide; zdm|lia].
    do 2 (rewrite decide_False by lia; rewrite dec_cont by zdm).
    rewrite decide_True by lia. f_equal. zdm.
  - unfold dec_start, lo, hi. repeat case_decide; try (exfalso; zdm);
      repeat f_equal; zdm.
Qed.

Lemma dec_scalar c bs :
  is_scalar c → dec_run None (utf8_of_scalar c ++ bs) = c :: dec_run None bs.
Proof.
  unfold is_scalar, utf8_of_scalar. intros Hc.
  repeat case_decide; cbn [app].
  - rewrite (dec_lead _ [c] None); [done|]. unfold dec_start. by rewrite decide_True.
  - apply dec_scalar2. lia.
  - apply dec_scalar3. lia.
  - apply dec_scalar4. lia.
Qed.

Lemma dec_scalars cs :
  Forall is_scalar cs → dec_run None (cs ≫= utf8_of_scalar) = cs.
Proof.
  induction 1 as [|c cs Hc Hcs IH]; [done|].
  cbn [mbind list_bind]. rewrite dec_scalar by done. by f_equal.
Qed.

(** Decoding what was encoded gives the string with lone surrogates replaced. *)
Lemma utf8_toString_encode s :
  Forall is_unit s → utf8_toString (encodeUtf8 s) = toWellFormed s.
Proof.
  intros Hs. unfold utf8_toString, encodeUtf8, toWellFormed.
  by rewrite dec_scalars by (by apply scalars_ok).
Qed.

Lemma toWellFormed_cons_bmp u s :
  is_high u = false → is_low u = false → is_unit u →
  toWellFormed (u :: s) = u :: toWellFormed s.
Proof.
  unfold toWellFormed, is_unit. intros Hh Hl Hu. cbn [scalars]. rewrite Hh, Hl.
  cbn. unfold units_of_scalar. by rewrite decide_True by lia.
Qed.

(** Text without surrogates (in particular Latin-1 and ASCII) is well formed. *)
Lemma toWellFormed_bmp s :
  Forall (λ u, 0 ≤ u < 0xD800) s → toWellFormed s = s.
Proof.
  induction 1 as [|u s Hu Hs IH]; [done|].
  rewrite toWellFormed_cons_bmp, IH; [done|..];
    unfold is_high, is_low, is_unit; try case_bool_decide; try done; lia.
Qed.

Lemma utf8_of_scalar_ok c : is_scalar c → bytes_ok (utf8_of_scalar c).
Proof.
  unfold is_scalar, utf8_of_scalar, bytes_ok, is_byte. intros Hc.
  repeat case_decide; repeat constructor; zdm.
Qed.

Lemma encodeUtf8_ok s : Forall is_unit s → bytes_ok (encodeUtf8 s).
Proof.
  intros Hs. apply scalars_ok in Hs. unfold encodeUtf8.
  induction Hs as [|c cs Hc Hcs IH]; [constructor|].
  cbn. apply bytes_ok_app. auto using utf8_of_scalar_ok.
Qed.

(** The capacity the packers reserve: three bytes per code unit. *)
Lemma encodeUtf8_len3 s : Forall is_unit s → zlen (encodeUtf8 s) ≤ 3 * zlen s.
Proof.
  unfold encodeUtf8. remember (length s) as n eqn:Hn. revert s Hn.
  induction (lt_wf n) as [n _ IH]. intros s -> Hs.
  destruct s as [|u s]; [done|]. inversion_clear Hs as [|? ? Hu Hs'].
  pose proof (IH (length s) ltac:(simpl; lia) s eq_refl Hs') as IHs.
  unfold is_unit in Hu. cbn [scalars]. unfold is_high, is_low.
  case_bool_decide; [destruct s as [|l s]|].
  - done.
  - inversion_clear Hs' as [|? ? Hl Hs]. case_bool_decide.
    + pose proof (IH (length s) ltac:(simpl; lia) s eq_refl Hs) as IHs2.
      cbn [mbind list_bind]. unfold utf8_of_scalar at 1. repeat case_decide; zlia.
    + cbn [mbind list_bind]. unfold utf8_of_scalar at 1, REPLACEMENT.
      repeat case_decide; zlia.
  - case_bool_decide; cbn [mbind list_bind]; unfold utf8_of_scalar at 1, REPLACEMENT;
      repeat case_decide; zlia.
Qed.

(** Latin-1 text, which is what HTTP header values are, needs at most two. *)
Lemma encodeUtf8_len2 s :
  Forall (λ u, 0 ≤ u < 256) s → zlen (encodeUtf8 s) ≤ 2 * zlen s.
Proof.
  unfold encodeUtf8. induction 1 as [|u s Hu Hs IH]; [done|].
  cbn [scalars]. unfold is_high, is_low. rewrite !bool_decide_eq_false_2 by lia.
  cbn [mbind list_bind]. unfold utf8_of_scalar at 1. repeat case_decide; zlia.
Qed.

Lemma fit_scalars_all cs room :
  zlen (cs ≫= utf8_of_scalar) ≤ room → fit_scalars cs room = cs ≫= utf8_of_scalar.
Proof.
  revert room. induction cs as [|c cs IH]; intros room; [done|].
  cbn [mbind list_bind fit_scalars]. intros Hr. rewrite decide_True by zlia.
  f_equal. apply IH. zlia.
Qed.

Lemma encode_fit_all s room :
  zlen (encodeUtf8 s) ≤ room → encode_fit s room = encodeUtf8 s.
Proof. apply fit_scalars_all. Qed.

Lemma fit_scalars_len cs room : 0 ≤ room → zlen (fit_scalars cs room) ≤ room.
Proof.
  revert room. induction cs as [|c cs IH]; intros room ?; [done|].
  cbn [fit_scalars]. case_decide; [|done].
  pose proof (IH (room - zlen (utf8_of_scalar c)) ltac:(lia)). zlia.
Qed.

Lemma dec_run_ascii bs :
  Forall (λ b, 0 ≤ b < 0x80) bs → utf8_toString bs = bs.
Proof.
  unfold utf8_toString. induction 1 as [|b bs Hb Hbs IH]; [done|].
  rewrite (dec_lead _ [b] None).
  - cbn [app mbind list_bind]. rewrite IH. unfold units_of_scalar.
    by rewrite decide_True by lia.
  - unfold dec_start. by rewrite decide_True by lia.
Qed.

(** ** Correctness of the codec *)

(** The three encoders and the ranged decoder against their references. *)
Lemma js_latin s : Forall (λ u, 0 ≤ u < 256) (js s).
Proof.
  induction s as [|a s IH]; simpl; constructor; auto.
  pose proof (nat_ascii_bounded a). lia.
Qed.
Lemma js_unit s : Forall is_unit (js s).
Proof. eapply Forall_impl; [apply js_latin|]. unfold is_unit. simpl. lia. Qed.
#[export] Hint Resolve js_unit scalars_ok encodeUtf8_ok : castrum.

Lemma nodeDecodeUtf8_plain bs :
  (∀ bs', bs ≠ 0xEF :: 0xBB :: 0xBF :: bs') → nodeDecodeUtf8 bs = utf8_toString bs.
Proof.
  intros Hb. unfold nodeDecodeUtf8.
  repeat (case_match; try done); subst; exfalso; by eapply Hb.
Qed.

Lemma bom_scalar s bs :
  Forall is_unit s → encodeUtf8 s = 0xEF :: 0xBB :: 0xBF :: bs →
  head (scalars s) = Some 0xFEFF.
Proof.
  intros Hs Henc. apply scalars_ok in Hs. unfold encodeUtf8 in Henc.
  pose proof (dec_scalars _ Hs) as Hdec. rewrite Henc in Hdec.
  change (0xEF :: 0xBB :: 0xBF :: bs) with (utf8_of_scalar 0xFEFF ++ bs) in Hdec.
  rewrite dec_scalar in Hdec by (unfold is_scalar; lia). by rewrite <-Hdec.
Qed.

(** Encoding a JavaScript string and decoding it again gives the string
    with its lone surrogates replaced by U+FFFD, on Bun always and on Node for
    every string that does not start with a byte-order mark. *)
Theorem codec_roundtrip s :
  Forall is_unit s →
  bunDecodeUtf8 (encodeUtf8 s) = toWellFormed s ∧
  (head (scalars s) ≠ Some 0xFEFF → nodeDecodeUtf8 (encodeUtf8 s) = toWellFormed s).
Proof.
  intros Hs. split.
  - unfold bunDecodeUtf8. case_decide as Hl; [|by apply utf8_toString_encode].
    rewrite <-utf8_toString_encode by done. by rewrite (zlen_0 _ Hl).
  - intros Hbom. rewrite nodeDecodeUtf8_plain; [by apply utf8_toString_encode|].
    intros bs Henc. by eapply Hbom, bom_scalar.
Qed.

Lemma codec_roundtrip_witness :
  bunDecodeUtf8 (encodeUtf8 (js "caf" ++ [0xE9; 0x20AC; 0xD83D; 0xDE00; 0xD800])) =
    js "caf" ++ [0xE9; 0x20AC; 0xD83D; 0xDE00; 0xFFFD].
Proof.
  rewrite (proj1 (codec_roundtrip (js "caf" ++ [0xE9; 0x20AC; 0xD83D; 0xDE00; 0xD800])
    ltac:(repeat constructor; unfold is_unit; lia))).
  vm_compute. reflexivity.
Defined.

Lemma splice_outside {A} (b w : list A) pos lim :
  0 ≤ pos → pos + zlen w ≤ lim → lim ≤ zlen b →
  take (Z.to_nat pos) (splice b pos w) = take (Z.to_nat pos) b ∧
  drop (Z.to_nat lim) (splice b pos w) = drop (Z.to_nat lim) b.
Proof.
  intros ???. unfold splice. unfold zlen in *. split.
  - rewrite take_app_le by (rewrite length_take; lia).
    by rewrite take_take, Nat.min_id.
  - rewrite app_assoc, drop_app_ge by (rewrite length_app, length_take; lia).
    rewrite drop_drop. f_equal. rewrite length_app, length_take. lia.
Qed.

(** The Bun and the Node form of [encodeUtf8Into] write the same bytes and
    report the same count for every destination window and offset inside it,
    and neither touches a byte of the backing buffer outside the window. *)
Theorem encodeUtf8Into_agree s dest offset :
  view_ok dest → 0 ≤ offset ≤ byteLength dest →
  bunEncodeUtf8Into s dest offset = nodeEncodeUtf8Into s dest offset ∧
  let b' := (nodeEncodeUtf8Into s dest offset).2 in
  take (Z.to_nat (byteOffset dest + offset)) b' =
    take (Z.to_nat (byteOffset dest + offset)) (backing dest) ∧
  drop (Z.to_nat (byteOffset dest + byteLength dest)) b' =
    drop (Z.to_nat (byteOffset dest + byteLength dest)) (backing dest).
Proof.
  intros (Hv1 & Hv2 & Hv3) Ho.
  unfold bunEncodeUtf8Into, nodeEncodeUtf8Into, buffer_write.
  rewrite Z.min_l by lia. split.
  - case_decide as Hd; repeat f_equal; lia.
  - simpl. apply splice_outside; [lia| |lia].
    match goal with |- context [encode_fit s ?r] =>
      pose proof (fit_scalars_len (scalars s) r ltac:(lia)) end.
    unfold encode_fit. lia.
Qed.

Lemma encodeUtf8Into_agree_witness :
  bunEncodeUtf8Into (js "h" ++ [0xE9]) (View [9; 9; 9; 9; 9; 9] 1 4) 1 =
    (3, [9; 9; 104; 195; 169; 9]).
Proof.
  rewrite (proj1 (encodeUtf8Into_agree (js "h" ++ [0xE9]) (View [9; 9; 9; 9; 9; 9] 1 4) 1
    ltac:(vm_compute; intuition congruence) ltac:(simpl; lia))).
  vm_compute. reflexivity.
Defined.

(** The ASCII fast path of the ranged decoder is invisible: for every
    buffer and range inside it the result is the UTF-8 decoding of the range. *)
Theorem decodeUtf8Range_spec bytes start end_ :
  bytes_ok bytes → 0 ≤ start ≤ end_ → end_ ≤ zlen bytes →
  decodeUtf8Range bytes start end_ = utf8_toString (subarray bytes start end_).
Proof.
  intros Hb ??. unfold decodeUtf8Range.
  destruct (existsb _ _) eqn:He; [done|]. symmetry. apply dec_run_ascii.
  assert (bytes_ok (subarray bytes start end_)) as Hr
    by (unfold subarray; auto with castrum).
  apply Forall_forall. intros b Hin.
  pose proof (proj1 (Forall_forall _ _) Hr b Hin) as Hb'. unfold is_byte in Hb'.
  assert (bool_decide (0x80 ≤ b) = false) as Hlt%bool_decide_eq_false; [|lia].
  apply not_true_is_false. intros Ht. apply not_true_iff_false in He. apply He.
  apply existsb_exists. exists b. split; [by apply list_elem_of_In|done].
Qed.

Lemma decodeUtf8Range_spec_witness :
  decodeUtf8Range [0; 104; 105; 195; 169; 0] 1 5 = js "hi" ++ [0xE9].
Proof.
  rewrite (decodeUtf8Range_spec [0; 104; 105; 195; 169; 0] 1 5
    ltac:(repeat constructor; lia) ltac:(lia) ltac:(vm_compute; congruence)).
  vm_compute. reflexivity.
Defined.
