(* ===== verification/JsObject.v ===== *)
(** Plain JavaScript objects used as dictionaries.

    The packed decoders fold name/value pairs into an object literal [{}]
    (src/shared/packed/wire.ts).  Reading [out[key]] on such an object walks
    the prototype chain, and assigning [out['__proto__']] runs the setter of
    [Object.prototype]; both are kept here, because they decide what the code
    does on keys such as [constructor]. *)

From S2P Require Import Prelude.
From S2P Require Import JsMap.
From S2P Require Import Utf8.

(** Values the code stores or meets: strings, arrays of values, numbers (the
    [length] of an inherited array) and the inherited members of the built-in
    prototypes, which stay opaque. *)
Inductive jsval :=
  | JStr (s : list Z)
  | JArr (l : list jsval)
  | JNum (n : Z)
  | JInherited (name : list Z).

(** The own properties in insertion order, and the prototype: [None] is
    [Object.prototype], [Some a] an array installed through [__proto__]. *)
Record jsobj := Obj { own : list (list Z * jsval); proto : option (list jsval) }.

Definition empty_obj : jsobj := Obj [] None.

Definition PROTO : list Z := js "__proto__".

(** The members of [Object.prototype]. *)
Definition object_proto_names : list (list Z) := js <$>
  ["constructor"; "__defineGetter__"; "__defineSetter__"; "hasOwnProperty";
   "__lookupGetter__"; "__lookupSetter__"; "isPrototypeOf";
   "propertyIsEnumerable"; "toString"; "valueOf"; "__proto__"; "toLocaleString"]%string.

(** The members of [Array.prototype] that [Object.prototype] does not have. *)
Definition array_proto_names : list (list Z) := js <$>
  ["at"; "concat"; "copyWithin"; "fill"; "find"; "findIndex"; "findLast";
   "findLastIndex"; "lastIndexOf"; "pop"; "push"; "reverse"; "shift";
   "unshift"; "slice"; "sort"; "splice"; "includes"; "indexOf"; "join";
   "keys"; "entries"; "values"; "forEach"; "filter"; "flat"; "flatMap"; "map";
   "every"; "some"; "reduce"; "reduceRight"; "toReversed"; "toSorted";
   "toSpliced"; "with"]%string.

(** A canonical array index, as the property key of an array element. *)
Definition digit (u : Z) : option Z :=
  if decide (48 ≤ u ≤ 57) then Some (u - 48) else None.
Fixpoint digits_val (acc : Z) (s : list Z) : option Z :=
  match s with
  | [] => Some acc
  | u :: s' => match digit u with Some d => digits_val (acc * 10 + d) s' | None => None end
  end.
Definition array_index (s : list Z) : option Z :=
  match s with
  | [] => None
  | [48] => Some 0
  | 48 :: _ => None
  | _ => digits_val 0 s
  end.

(** What the prototype chain answers for [key]. *)
Definition inherited (p : option (list jsval)) (key : list Z) : option jsval :=
  match p with
  | None => if decide (key ∈ object_proto_names) then Some (JInherited key) else None
  | Some arr =>
      if decide (key = PROTO) then Some (JArr arr)
      else if decide (key = js "length") then Some (JNum (zlen arr))
      else
        match array_index key with
        | Some i => if decide (i < zlen arr) then arr !! Z.to_nat i else None
        | None =>
            if decide (key ∈ array_proto_names ++ object_proto_names)
            then Some (JInherited key) else None
        end
  end.

(** [o[key]] ([None] is [undefined]). *)
Definition obj_get (o : jsobj) (key : list Z) : option jsval :=
  match mget key (own o) with
  | Some v => Some v
  | None => inherited (proto o) key
  end.

(** [o[key] = v]: the [__proto__] accessor takes objects (arrays here) and
    ignores primitives; every other key becomes an own property. *)
Definition obj_set (o : jsobj) (key : list Z) (v : jsval) : jsobj :=
  if decide (key = PROTO) then
    match v with
    | JArr l => Obj (own o) (Some l)
    | _ => o
    end
  else Obj (mset key v (own o)) (proto o).

(** [existing.push(v)] where [existing] is the array read from [o[key]]. *)
Definition obj_push (o : jsobj) (key : list Z) (l : list jsval) (v : jsval) : jsobj :=
  match mget key (own o) with
  | Some _ => Obj (mset key (JArr (l ++ [v])) (own o)) (proto o)
  | None => Obj (own o) (Some (l ++ [v]))
  end.

(** A key no prototype answers for while [__proto__] is not assigned. *)
Definition plain_key (key : list Z) : Prop := key ∉ object_proto_names.

Lemma plain_not_proto key : plain_key key → key ≠ PROTO.
Proof. intros Hk ->. apply Hk. vm_compute. set_solver. Qed.

Lemma obj_get_plain own_ key :
  plain_key key → obj_get (Obj own_ None) key = mget key own_.
Proof.
  intros Hk. unfold obj_get. simpl. destruct (mget key own_); [done|].
  by rewrite decide_False.
Qed.

Lemma obj_set_plain own_ p key v :
  plain_key key → obj_set (Obj own_ p) key v = Obj (mset key v own_) p.
Proof. intros Hk. unfold obj_set. by rewrite decide_False by auto using plain_not_proto. Qed.
