(* ===== verification/JsString.v ===== *)
(** String methods of the JavaScript standard library that the ingress modules
    use: [join], [split], [startsWith], [includes] and [decodeURIComponent], on
    strings as lists of UTF-16 code units. *)

From stdpp Require Import pretty.
From S2P Require Import Prelude.
From S2P Require Import Utf8.

(** [l.join(sep)]. *)
Fixpoint join (sep : list Z) (l : list (list Z)) : list Z :=
  match l with
  | [] => []
  | [x] => x
  | x :: l' => x ++ sep ++ join sep l'
  end.

(** [s.split(c)] for a separator of one unit: never empty. *)
Fixpoint split (c : Z) (s : list Z) : list (list Z) :=
  match s with
  | [] => [[]]
  | x :: s' =>
      if decide (x = c) then [] :: split c s'
      else match split c s' with
           | seg :: segs => (x :: seg) :: segs
           | [] => [[x]]
           end
  end.

(** The rest of [s] after the prefix [p], when [s.startsWith(p)]. *)
Fixpoint strip (p s : list Z) : option (list Z) :=
  match p, s with
  | [], _ => Some s
  | x :: p', y :: s' => if decide (x = y) then strip p' s' else None
  | _ :: _, [] => None
  end.

(** [s.indexOf(c) !== -1] for one unit. *)
Definition includes (c : Z) (s : list Z) : bool := bool_decide (c ∈ s).

Definition hex_val (u : Z) : option Z :=
  if decide (48 ≤ u ≤ 57) then Some (u - 48)
  else if decide (65 ≤ u ≤ 70) then Some (u - 55)
  else if decide (97 ≤ u ≤ 102) then Some (u - 87)
  else None.

(** One octet [b] of an escape sequence, in the decoder state [st]: the units it
    completes and the next state; [None] is a [URIError]. *)
Definition uri_octet (st : pending) (b : Z) : option (list Z * pending) :=
  match st with
  | None =>
      match dec_start b with
      | (_, Some p) => Some ([], Some p)
      | (out, None) => if decide (b < 0x80) then Some (out, None) else None
      end
  | Some (cp, need, lo, hi) =>
      if decide (lo ≤ b ≤ hi) then
        let cp' := cp * 64 + (b - 0x80) in
        Some (if decide (need = 1) then (units_of_scalar cp', None)
              else ([], Some (cp', need - 1, 0x80, 0xBF)))
      else None
  end.

Fixpoint dec_uri (st : pending) (s : list Z) : option (list Z) :=
  match s with
  | [] => match st with None => Some [] | Some _ => None end
  | c :: s' =>
      if decide (c = 37) then
        match s' with
        | h :: l :: s'' =>
            match hex_val h, hex_val l with
            | Some a, Some b =>
                match uri_octet st (a * 16 + b) with
                | Some (out, st') => (out ++.) <$> dec_uri st' s''
                | None => None
                end
            | _, _ => None
            end
        | _ => None
        end
      else match st with None => (c ::.) <$> dec_uri None s' | Some _ => None end
  end.

(** [decodeURIComponent(s)]. *)
Definition decodeURIComponent (s : list Z) : result (list Z) :=
  match dec_uri None s with
  | Some r => Ok r
  | None => Throw (JsError "URIError" "URI malformed")
  end.

(** [String(n)] for an integer. *)
Definition dec (n : Z) : list Z := js (pretty n).

(** [s.toLowerCase()] on ASCII letters. *)
Definition toLowerCase (s : list Z) : list Z :=
  (λ u, if decide (65 ≤ u ≤ 90) then u + 32 else u) <$> s.

(** ** Lemmas *)

Lemma strip_app p s : strip p (p ++ s) = Some s.
Proof. induction p as [|x p IH]; [done|]. cbn. by rewrite decide_True. Qed.

Lemma strip_Some p s r : strip p s = Some r → s = p ++ r.
Proof.
  revert s. induction p as [|x p IH]; intros s; [by intros [= ->]|].
  destruct s as [|y s]; [done|]. cbn. case_decide; [|done].
  intros Hs. subst. by rewrite (IH s).
Qed.

Lemma split_nonempty c s : split c s ≠ [].
Proof. destruct s as [|x s]; cbn; [done|]. case_decide; [done|]. by destruct (split c s). Qed.

Lemma split_cons_ne c x s :
  x ≠ c → ∃ seg segs, split c s = seg :: segs ∧ split c (x :: s) = (x :: seg) :: segs.
Proof.
  intros Hx. destruct (split c s) as [|seg segs] eqn:E; [by apply split_nonempty in E|].
  exists seg, segs. split; [done|]. cbn. by rewrite decide_False, E.
Qed.

(** A prefix without the separator goes whole into the first piece. *)
Lemma split_app_free c p s seg segs :
  c ∉ p → split c s = seg :: segs → split c (p ++ s) = (p ++ seg) :: segs.
Proof.
  intros Hp Hs. induction p as [|x p IH]; [done|]. cbn.
  rewrite not_elem_of_cons in Hp. destruct Hp as [Hx Hp].
  rewrite decide_False by congruence. by rewrite (IH Hp).
Qed.

Lemma split_free c p : c ∉ p → split c p = [p].
Proof. intros Hp. rewrite <-(app_nil_r p) at 1. rewrite (split_app_free c p [] [] []); [by rewrite app_nil_r|done..]. Qed.

Lemma split_sep c s : split c (c :: s) = [] :: split c s.
Proof. cbn. by rewrite decide_True. Qed.

(** The first piece is followed by the separator or by nothing. *)
Lemma split_first c s :
  ∃ p, c ∉ p ∧ (s = p ∧ split c s = [p] ∨
                ∃ r, s = p ++ c :: r ∧ split c s = p :: split c r).
Proof.
  induction s as [|x s (p & Hp & H)].
  - exists []. split; [set_solver|]. by left.
  - destruct (decide (x = c)) as [->|Hx].
    + exists []. split; [set_solver|]. right. exists s. split; [done|]. apply split_sep.
    + exists (x :: p). split; [set_solver|]. cbn. rewrite decide_False by done.
      destruct H as [[-> E]|(r & -> & E)]; rewrite E; [by left|].
      right. by exists r.
Qed.

Lemma join_split c s : join [c] (split c s) = s.
Proof.
  induction s as [|x s IH]; [done|]. cbn. case_decide as Hx.
  - subst. pose proof (split_nonempty c s). destruct (split c s) eqn:E; [done|].
    cbn in *. by f_equal.
  - pose proof (split_nonempty c s). destruct (split c s) as [|seg segs]; [done|].
    destruct segs; cbn in *; by f_equal.
Qed.

Lemma split_no_sep c s seg : seg ∈ split c s → c ∉ seg.
Proof.
  revert seg. induction s as [|x s IH]; intros seg; cbn.
  - rewrite list_elem_of_singleton. intros ->. set_solver.
  - case_decide as Hx; [rewrite elem_of_cons; intros [->|Hs]; [set_solver|auto]|].
    pose proof (split_nonempty c s). destruct (split c s) as [|p ps]; [done|].
    rewrite elem_of_cons. intros [->|Hs].
    + rewrite not_elem_of_cons. split; [congruence|]. apply IH. set_solver.
    + apply IH. set_solver.
Qed.

(** ** [JSON.stringify] of a string *)

Definition hex_digit (n : Z) : Z := if decide (n < 10) then 48 + n else 87 + n.

Definition json_escape_u (u : Z) : list Z :=
  js "\u" ++ [hex_digit (u / 4096 mod 16); hex_digit (u / 256 mod 16);
              hex_digit (u / 16 mod 16); hex_digit (u mod 16)].

Definition json_unit (u : Z) : list Z :=
  if decide (u = 34 ∨ u = 92) then [92; u]
  else if decide (u = 8) then js "\b"
  else if decide (u = 12) then js "\f"
  else if decide (u = 10) then js "\n"
  else if decide (u = 13) then js "\r"
  else if decide (u = 9) then js "\t"
  else if decide (u < 32) then json_escape_u u
  else [u].

(** The body of the string literal; lone surrogates are escaped. *)
Fixpoint json_units (s : list Z) : list Z :=
  match s with
  | [] => []
  | u :: s' =>
      if is_high u then
        match s' with
        | l :: s'' => if is_low l then u :: l :: json_units s'' else json_escape_u u ++ json_units s'
        | [] => json_escape_u u
        end
      else if is_low u then json_escape_u u ++ json_units s'
      else json_unit u ++ json_units s'
  end.

Definition json_string (s : list Z) : list Z := [34] ++ json_units s ++ [34].

(** ** Trimming *)

(** White space and line terminators, as [String.prototype.trim] sees them. *)
Definition js_space (u : Z) : bool :=
  bool_decide (u ∈ [9; 10; 11; 12; 13; 32; 160; 0x1680; 0x2028; 0x2029; 0x202f; 0x205f; 0x3000; 0xfeff]) ||
  bool_decide (0x2000 ≤ u ≤ 0x200a).

Fixpoint trim_left (s : list Z) : list Z :=
  match s with
  | [] => []
  | u :: s' => if js_space u then trim_left s' else s
  end.
Definition trim (s : list Z) : list Z := reverse (trim_left (reverse (trim_left s))).

Lemma trim_left_bare s : (∀ u, head s = Some u → js_space u = false) → trim_left s = s.
Proof. destruct s as [|u s]; [done|]. simpl. intros Hs. by rewrite (Hs u). Qed.

(** A string without space at either end is its own trim. *)
Lemma trim_bare s :
  (∀ u, head s = Some u → js_space u = false) → (∀ u, last s = Some u → js_space u = false) →
  trim s = s.
Proof.
  intros Hh Hl. unfold trim. rewrite (trim_left_bare s Hh), (trim_left_bare (reverse s)).
  - apply reverse_involutive.
  - intros u. rewrite head_reverse. apply Hl.
Qed.
