(* ===== verification/PathMatcher.v ===== *)
(** The `:param` / `*` path matcher (src/ingress/path-matcher.ts).

    The code turns every dynamic route into the source text of a regular
    expression.  The text, the parsing of that text (the fragment of the
    ECMAScript syntax it falls in) and the backtracking match with greedy groups are
    all modelled, so that the escaping of literal segments and the missing anchor
    of rest patterns are the code's.  The specification is segment by segment. *)

From Stdlib Require Import Sorted.
From S2P Require Import Prelude.
From S2P Require Import JsMap.
From S2P Require Import Utf8.
From S2P Require Import JsObject.
From S2P Require Import JsString.

Definition SLASH : Z := 47.

(** ** Regular expressions of the generated fragment

    All of them start with [^], so a match is tried at index 0 only. *)

Inductive renode :=
  | Chr (c : Z)          (* c *)
  | OptChr (c : Z)       (* c? *)
  | GroupAny             (* (.* ) *)
  | GroupSeg             (* ([^/]+) *)
  | EndAnchor.           (* $ *)

(** The characters of the class [[.*+?^${}()|[\]\\]]. *)
Definition SYNTAX : list Z := js ".*+?^${}()|[]\".

Definition parse_chr (c : Z) (s : list Z) : renode * list Z :=
  match strip (js "?") s with Some r => (OptChr c, r) | None => (Chr c, s) end.

(** One term of the source text. *)
Definition parse_node (s : list Z) : option (renode * list Z) :=
  match strip (js "(.*)") s with
  | Some r => Some (GroupAny, r)
  | None =>
  match strip (js "([^/]+)") s with
  | Some r => Some (GroupSeg, r)
  | None =>
  match s with
  | [] => None
  | c :: s' =>
      if decide (c = 92) then
        match s' with
        | x :: s'' => if decide (x ∈ SYNTAX) then Some (parse_chr x s'') else None
        | [] => None
        end
      else if decide (c = 36) then Some (EndAnchor, s')
      else if decide (c ∈ SYNTAX) then None
      else Some (parse_chr c s')
  end end end.

Fixpoint parse_nodes (fuel : nat) (s : list Z) : option (list renode) :=
  match s, fuel with
  | [], _ => Some []
  | _, O => None
  | _, S fuel => '(n, r) ← parse_node s; (n ::.) <$> parse_nodes fuel r
  end.

(** [new RegExp(source)]. *)
Definition RegExp (source : list Z) : result (list renode) :=
  match strip (js "^") source with
  | Some s =>
      match parse_nodes (length s) s with
      | Some re => Ok re
      | None => Throw (JsError "SyntaxError" "Invalid regular expression")
      end
  | None => Throw (JsError "SyntaxError" "Invalid regular expression")
  end.

(** What [.] does not match. *)
Definition line_terminator (c : Z) : bool :=
  bool_decide (c = 10 ∨ c = 13 ∨ c = 0x2028 ∨ c = 0x2029).

(** A greedy run of units that satisfy [ok], longest first; [k] is the rest of
    the match, given the units taken and the input after them. *)
Fixpoint greedy {R} (ok : Z → bool) (k : list Z → list Z → option R)
    (cap s : list Z) : option R :=
  match s with
  | c :: s' =>
      if ok c then
        match greedy ok k (cap ++ [c]) s' with
        | Some r => Some r
        | None => k cap s
        end
      else k cap s
  | [] => k cap []
  end.

(** [re.exec(s)]: the captures of the first match in backtracking order. *)
Fixpoint exec (re : list renode) (s : list Z) : option (list (list Z)) :=
  match re with
  | [] => Some []
  | Chr c :: re' =>
      match s with
      | x :: s' => if decide (x = c) then exec re' s' else None
      | [] => None
      end
  | OptChr c :: re' =>
      match s with
      | x :: s' =>
          if decide (x = c) then
            match exec re' s' with Some r => Some r | None => exec re' s end
          else exec re' s
      | [] => exec re' []
      end
  | EndAnchor :: re' => match s with [] => exec re' [] | _ :: _ => None end
  | GroupAny :: re' =>
      greedy (λ c, negb (line_terminator c)) (λ cap r, (cap ::.) <$> exec re' r) [] s
  | GroupSeg :: re' =>
      match s with
      | c :: s' =>
          if decide (c = SLASH) then None
          else greedy (λ c, bool_decide (c ≠ SLASH)) (λ cap r, (cap ::.) <$> exec re' r) [c] s'
      | [] => None
      end
  end.

(** ** The matcher *)

Section matcher.
Context {M : Type}.

Record CompiledDynamicPattern := {
  re : list renode;
  paramNames : list (list Z);
  rest : bool;
  methods : M;
  staticSegments : Z
}.

(** [seg.replace(/[.*+?^${}()|[\]\\]/g, '\\$&')]. *)
Definition escape (seg : list Z) : list Z :=
  seg ≫= λ c, if decide (c ∈ SYNTAX) then [92; c] else [c].

(** What the [map] callback closes over. *)
Record scan := Scan { s_names : list (list Z); s_rest : bool; s_static : Z }.

(** [parts.map((seg) => ...)]: one segment's source. *)
Definition seg_source (st : scan) (seg : list Z) : list Z * scan :=
  if decide (seg = js "*") then
    (js "(.*)", Scan (s_names st) true (s_static st))
  else match strip (js ":") seg with
  | Some name => (js "([^/]+)", Scan (s_names st ++ [name]) (s_rest st) (s_static st))
  | None => (escape seg, Scan (s_names st) (s_rest st) (s_static st + 1))
  end.

Fixpoint map_segs (st : scan) (parts : list (list Z)) : list (list Z) * scan :=
  match parts with
  | [] => ([], st)
  | seg :: parts' =>
      let '(src, st1) := seg_source st seg in
      let '(srcs, st2) := map_segs st1 parts' in
      (src :: srcs, st2)
  end.

(** [path.split('/').filter((s) => s.length > 0)]. *)
Definition parts_of (path : list Z) : list (list Z) :=
  filter (λ s, 0 < zlen s) (split SLASH path).

Definition pattern_source (path : list Z) : list Z * scan :=
  let '(srcs, st) := map_segs (Scan [] false 0) (parts_of path) in
  (js "^/" ++ join [SLASH] srcs ++ (if s_rest st then [] else js "/?$"), st).

Definition compile_pattern (path : list Z) (m : M) : result CompiledDynamicPattern :=
  let '(source, st) := pattern_source path in
  r ← RegExp source;
  Ok {| re := r; paramNames := s_names st; rest := s_rest st; methods := m;
        staticSegments := s_static st |}.

(** The comparator of [dynamic.sort]. *)
Definition cmp (a b : CompiledDynamicPattern) : Z :=
  let d := staticSegments b - staticSegments a in
  if decide (d ≠ 0) then d else zlen (paramNames a) - zlen (paramNames b).

(** [Array.prototype.sort]: stable. *)
Fixpoint sort_insert (x : CompiledDynamicPattern) (l : list CompiledDynamicPattern) :=
  match l with
  | [] => [x]
  | y :: l' => if decide (cmp x y ≤ 0) then x :: y :: l' else y :: sort_insert x l'
  end.
Fixpoint sort (l : list CompiledDynamicPattern) : list CompiledDynamicPattern :=
  match l with [] => [] | x :: l' => sort_insert x (sort l') end.

Definition is_dynamic (path : list Z) : bool := includes 58 path || includes 42 path.

(** The loop over [Object.entries(routes)]. *)
Fixpoint scan_routes (routes : list (list Z * M))
    (exact : list (list Z * M)) (dynamic : list CompiledDynamicPattern)
    : result (list (list Z * M) * list CompiledDynamicPattern) :=
  match routes with
  | [] => Ok (exact, dynamic)
  | (path, m) :: routes' =>
      if is_dynamic path then
        d ← compile_pattern path m;
        scan_routes routes' exact (dynamic ++ [d])
      else scan_routes routes' (mset path m exact) dynamic
  end.

Definition safeDecode (value : list Z) : list Z :=
  match decodeURIComponent value with Ok s => s | Throw _ => value end.

(** [params[d.paramNames[i] ?? ''] = safeDecode(raw)] for i = 0, 1, ...;
    [caps] are [m[1]], [m[2]], ... *)
Fixpoint set_params (params : jsobj) (names caps : list (list Z)) : jsobj :=
  match names, caps with
  | n :: names', raw :: caps' =>
      set_params (obj_set params n (JStr (safeDecode raw))) names' caps'
  | _, _ => params
  end.

Definition params_of (d : CompiledDynamicPattern) (caps : list (list Z)) : jsobj :=
  let params := set_params empty_obj (paramNames d) caps in
  if rest d then
    match caps !! length (paramNames d) with
    | Some restRaw => obj_set params (js "*") (JStr (safeDecode restRaw))
    | None => params
    end
  else params.

(** [for (const d of dynamic) ...]: the first pattern that matches. *)
Fixpoint first_match (dynamic : list CompiledDynamicPattern) (pathname : list Z)
    : option (M * jsobj) :=
  match dynamic with
  | [] => None
  | d :: dynamic' =>
      match exec (re d) pathname with
      | Some caps => Some (methods d, params_of d caps)
      | None => first_match dynamic' pathname
      end
  end.

(** The closure [buildPathMatcher] returns holds its two tables. *)
Record PathMatcher := { exact : list (list Z * M); dynamic : list CompiledDynamicPattern }.

Definition buildPathMatcher (routes : list (list Z * M)) : result PathMatcher :=
  '(ex, dyn) ← scan_routes routes [] [];
  Ok {| exact := ex; dynamic := sort dyn |}.

Definition match_path (pm : PathMatcher) (pathname : list Z) : option (M * jsobj) :=
  match mget pathname (exact pm) with
  | Some m => Some (m, empty_obj)
  | None => first_match (dynamic pm) pathname
  end.
End matcher.
Arguments CompiledDynamicPattern : clear implicits.
Arguments PathMatcher : clear implicits.

(** ** Specification: matching segment by segment *)

Inductive pseg := PLit (l : list Z) | PParam (name : list Z) | PRest.

#[export] Instance pseg_eq_dec : EqDecision pseg.
Proof. solve_decision. Defined.

Definition seg_of (seg : list Z) : pseg :=
  if decide (seg = js "*") then PRest
  else match strip (js ":") seg with Some n => PParam n | None => PLit seg end.

Definition has_rest (ps : list pseg) : bool := bool_decide (PRest ∈ ps).
Definition names_of (ps : list pseg) : list (list Z) :=
  omap (λ p, match p with PParam n => Some n | _ => None end) ps.
Definition is_lit (p : pseg) : bool := match p with PLit _ => true | _ => false end.
Definition static_of (ps : list pseg) : Z := zlen (List.filter is_lit ps).

(** The captured segments when the pieces of the path match the pattern; a
    trailing empty piece (a trailing slash) is allowed, [*] takes what is left. *)
Fixpoint ref_match (ps : list pseg) (segs : list (list Z)) : option (list (list Z)) :=
  match ps, segs with
  | [], [] | [], [[]] => Some []
  | [PRest], _ :: _ => Some [join [SLASH] segs]
  | PLit l :: ps', s :: segs' => if decide (s = l) then ref_match ps' segs' else None
  | PParam _ :: ps', s :: segs' =>
      if decide (s = []) then None else (s ::.) <$> ref_match ps' segs'
  | _, _ => None
  end.

Definition ref_path (ps : list pseg) (pathname : list Z) : option (list (list Z)) :=
  match strip [SLASH] pathname with
  | Some s => ref_match ps (split SLASH s)
  | None => None
  end.

Definition pattern_of (path : list Z) : list pseg := seg_of <$> parts_of path.

(** A [*] is the last segment. *)
Fixpoint rest_last (ps : list pseg) : Prop :=
  match ps with
  | [] | [_] => True
  | p :: ps' => p ≠ PRest ∧ rest_last ps'
  end.

#[export] Instance rest_last_dec ps : Decision (rest_last ps).
Proof.
  induction ps as [|p [|p' ps] IH]; cbn; [by left|by left|].
  apply and_dec; [apply not_dec, decide_rel; apply _|exact IH].
Defined.

(** ** The generated source parses to the intended expression *)

Definition seg_nodes (seg : list Z) : list renode :=
  match seg_of seg with
  | PRest => [GroupAny]
  | PParam _ => [GroupSeg]
  | PLit l => Chr <$> l
  end.
Definition closing (r : bool) : list renode := if r then [] else [OptChr SLASH; EndAnchor].
Fixpoint body_nodes (parts : list (list Z)) (tail : list renode) : list renode :=
  match parts with
  | [] => tail
  | [p] => seg_nodes p ++ tail
  | p :: ps => seg_nodes p ++ Chr SLASH :: body_nodes ps tail
  end.

Definition parses (s : list Z) (ns : list renode) : Prop :=
  ∀ fuel, (length s ≤ fuel)%nat → parse_nodes fuel s = Some ns.

Lemma parses_nil : parses [] [].
Proof. by intros []. Qed.

Lemma parses_step s n r ns :
  parse_node s = Some (n, r) → (length r < length s)%nat → parses r ns → parses s (n :: ns).
Proof.
  intros Hn Hl Hr fuel Hf. destruct s as [|c s]; [done|].
  destruct fuel as [|fuel]; [cbn in Hf; lia|]. cbn [parse_nodes].
  rewrite Hn. cbn [mbind option_bind]. by rewrite Hr by (cbn in *; lia).
Qed.

Definition unquantified (s : list Z) : Prop := strip (js "?") s = None.

Lemma parse_chr_plain c s : unquantified s → parse_chr c s = (Chr c, s).
Proof. intros Hs. unfold parse_chr. by rewrite Hs. Qed.

Lemma unquantified_cons c s : c ≠ 63 → unquantified (c :: s).
Proof. intros Hc. unfold unquantified. change (js "?") with [63]. cbn. by rewrite decide_False by done. Qed.

Lemma unquantified_escape l s : l ≠ [] → unquantified (escape l ++ s).
Proof.
  intros Hl. destruct l as [|c l]; [done|]. unfold escape. cbn -[SYNTAX].
  case_decide as Hc; apply unquantified_cons; [done|].
  intros ->. apply Hc. vm_compute. set_solver.
Qed.

Lemma parses_group seg s ns :
  seg_of seg = PRest ∨ (∃ n, seg_of seg = PParam n) → parses s ns →
  parses ((seg_source (Scan [] false 0) seg).1 ++ s) (seg_nodes seg ++ ns).
Proof.
  unfold seg_nodes, seg_of, seg_source. intros H Hs.
  case_decide; [|destruct (strip (js ":") seg); [|by destruct H as [|[? ?]]]];
    (eapply parses_step; [reflexivity|cbn; lia|done]).
Qed.

Lemma parses_lit l s ns :
  unquantified s → parses s ns → parses (escape l ++ s) ((Chr <$> l) ++ ns).
Proof.
  intros Hq Hs. induction l as [|c l IH]; [done|].
  assert (Hq' : unquantified (escape l ++ s)).
  { destruct l as [|d l]; [done|]. by apply unquantified_escape. }
  change (escape (c :: l) ++ s) with
    (((if decide (c ∈ SYNTAX) then [92; c] else [c]) ++ escape l) ++ s).
  rewrite <-app_assoc. cbn [fmap list_fmap app].
  case_decide as Hc.
  - eapply parses_step; [|shelve|exact IH].
    change (parse_node _) with
      (if decide (c ∈ SYNTAX) then Some (parse_chr c (escape l ++ s)) else None).
    rewrite decide_True by done. by rewrite parse_chr_plain.
    Unshelve. cbn. rewrite !length_app. lia.
  - assert (c ≠ 40 ∧ c ≠ 92 ∧ c ≠ 36) as (?&?&?).
    { split_and!; intros ->; apply Hc; vm_compute; set_solver. }
    eapply parses_step; [|shelve|exact IH]. unfold parse_node.
    change (js "(.*)") with (40 :: js ".*)"). change (js "([^/]+)") with (40 :: js "[^/]+)").
    cbn [strip app]. rewrite !(decide_False (P := 40 = c)) by congruence.
    rewrite !decide_False by done. by rewrite parse_chr_plain.
    Unshelve. cbn. lia.
Qed.

Lemma parses_closing (r : bool) : parses (if r then [] else js "/?$") (closing r).
Proof.
  destruct r; [apply parses_nil|].
  eapply (parses_step _ _ (js "$")); [done|cbn; lia|].
  by eapply (parses_step _ EndAnchor (@nil Z)); [|cbn; lia|apply parses_nil].
Qed.

Definition seg_src (seg : list Z) : list Z := (seg_source (Scan [] false 0) seg).1.

Lemma seg_src_lit seg l : seg_of seg = PLit l → l = seg ∧ seg_src seg = escape seg.
Proof.
  unfold seg_of, seg_src, seg_source. case_decide; [done|].
  destruct (strip (js ":") seg); [done|]. by intros [= <-].
Qed.

Lemma parses_seg seg s ns :
  unquantified s → parses s ns → parses (seg_src seg ++ s) (seg_nodes seg ++ ns).
Proof.
  intros Hq Hs. destruct (seg_of seg) as [l|n|] eqn:E.
  - destruct (seg_src_lit _ _ E) as [-> ->]. unfold seg_nodes. rewrite E. by apply parses_lit.
  - apply parses_group; [right; by exists n|done].
  - apply parses_group; [by left|done].
Qed.

Lemma seg_src_unquantified seg s : seg ≠ [] → unquantified (seg_src seg ++ s).
Proof.
  intros Hseg. unfold seg_src, seg_source.
  case_decide; [done|]. destruct (strip (js ":") seg); [done|]. by apply unquantified_escape.
Qed.

Lemma parses_body parts s ns :
  Forall (λ p, p ≠ []) parts → unquantified s → parses s ns →
  parses (join [SLASH] (seg_src <$> parts) ++ s) (body_nodes parts ns).
Proof.
  intros Hne Hq Hs. induction parts as [|p [|p' parts] IH]; [done|by apply parses_seg|].
  inversion Hne as [|? ? Hp Hps]; subst.
  change (join [SLASH] (seg_src <$> p :: p' :: parts))
    with (seg_src p ++ [SLASH] ++ join [SLASH] (seg_src <$> p' :: parts)).
  rewrite <-!app_assoc. apply (parses_seg p (SLASH :: _) (Chr SLASH :: _)); [done|].
  eapply parses_step; [|shelve|exact (IH Hps)].
  change (parse_node _) with
    (Some (parse_chr SLASH (join [SLASH] (seg_src <$> p' :: parts) ++ s))).
  rewrite parse_chr_plain; [done|].
  inversion Hps as [|? ? Hp' _]; subst. destruct parts as [|p'' parts].
  - by apply seg_src_unquantified.
  - change (join [SLASH] (seg_src <$> p' :: p'' :: parts))
      with (seg_src p' ++ [SLASH] ++ join [SLASH] (seg_src <$> p'' :: parts)).
    rewrite <-app_assoc. by apply seg_src_unquantified.
  Unshelve. cbn -[join seg_src]. lia.
Qed.

Lemma seg_source_spec st seg :
  seg_source st seg =
    (seg_src seg,
     Scan (s_names st ++ names_of [seg_of seg]) (s_rest st || has_rest [seg_of seg])
          (s_static st + static_of [seg_of seg])).
Proof.
  destruct st as [ns r n]. unfold seg_src, seg_source, seg_of. cbn [s_names s_rest s_static].
  case_decide; [|destruct (strip (js ":") seg)]; unfold names_of, has_rest, static_of; cbn;
    rewrite ?app_nil_r, ?orb_true_r, ?orb_false_r, ?Z.add_0_r; done.
Qed.

Lemma has_rest_cons p ps : has_rest (p :: ps) = has_rest [p] || has_rest ps.
Proof.
  unfold has_rest. destruct (bool_decide_reflect (PRest ∈ ps));
    [rewrite orb_true_r|rewrite orb_false_r]; [apply bool_decide_eq_true; set_solver|].
  apply bool_decide_ext. set_solver.
Qed.

Lemma static_of_cons p ps : static_of (p :: ps) = static_of [p] + static_of ps.
Proof. unfold static_of. cbn. destruct (is_lit p); autorewrite with zlen; lia. Qed.

Lemma names_of_cons p ps : names_of (p :: ps) = names_of [p] ++ names_of ps.
Proof. by destruct p. Qed.

Lemma map_segs_spec st parts :
  map_segs st parts =
    (seg_src <$> parts,
     let ps := seg_of <$> parts in
     Scan (s_names st ++ names_of ps) (s_rest st || has_rest ps) (s_static st + static_of ps)).
Proof.
  revert st. induction parts as [|seg parts IH]; intros st.
  - destruct st. cbn. by rewrite app_nil_r, orb_false_r, Z.add_0_r.
  - cbn [map_segs]. rewrite seg_source_spec, IH. cbn [s_names s_rest s_static fmap list_fmap].
    cbv zeta. set (ps := seg_of <$> parts).
    rewrite (names_of_cons _ ps), (has_rest_cons _ ps), (static_of_cons _ ps).
    by rewrite <-app_assoc, <-orb_assoc, Z.add_assoc.
Qed.

Definition nodes_of (path : list Z) : list renode :=
  Chr SLASH :: body_nodes (parts_of path) (closing (has_rest (pattern_of path))).

Lemma parts_nonempty path : Forall (λ p, p ≠ []) (parts_of path).
Proof.
  apply Forall_forall. intros p [Hp _]%list_elem_of_filter ->. by vm_compute in Hp.
Qed.

Lemma parts_no_slash path p : p ∈ parts_of path → SLASH ∉ p.
Proof. intros [_ Hp]%list_elem_of_filter. by eapply split_no_sep. Qed.

(** Escaping is right: the source is always a valid expression of the fragment,
    and every literal unit stands for itself. *)
Lemma RegExp_pattern path :
  parts_of path ≠ [] → RegExp (pattern_source path).1 = Ok (nodes_of path).
Proof.
  intros Hne. unfold pattern_source. rewrite map_segs_spec. cbn [fst s_rest orb].
  fold (pattern_of path). unfold RegExp.
  change (js "^/" ++ ?x) with (js "^" ++ SLASH :: x). rewrite strip_app.
  assert (parses (SLASH :: join [SLASH] (seg_src <$> parts_of path) ++
      (if has_rest (pattern_of path) then [] else js "/?$")) (nodes_of path)) as ->; [|done|done].
  pose proof (parts_nonempty path) as Hall. unfold nodes_of.
  set (tl := if has_rest _ then _ else _).
  assert (Hq : unquantified tl) by (unfold tl; by destruct (has_rest _)).
  eapply parses_step; [|shelve|apply parses_body; [done|exact Hq|apply parses_closing]].
  change (parse_node _) with
    (Some (parse_chr SLASH (join [SLASH] (seg_src <$> parts_of path) ++ tl))).
  rewrite parse_chr_plain; [done|].
  destruct (parts_of path) as [|p [|p' ps]]; [done| |].
  - inversion Hall; subst. by apply seg_src_unquantified.
  - change (join [SLASH] (seg_src <$> p :: p' :: ps))
      with (seg_src p ++ [SLASH] ++ join [SLASH] (seg_src <$> p' :: ps)).
    inversion Hall; subst. rewrite <-app_assoc. by apply seg_src_unquantified.
  Unshelve. cbn -[join seg_src]. lia.
Qed.

(** ** The match is the segment-wise one *)

Lemma greedy_run {R} (ok : Z → bool) (k : list Z → list Z → option R) cap p r :
  Forall (λ c, ok c = true) p →
  (∀ c r', r = c :: r' → ok c = false) →
  (∀ p1 p2, p = p1 ++ p2 → p2 ≠ [] → k (cap ++ p1) (p2 ++ r) = None) →
  greedy ok k cap (p ++ r) = k (cap ++ p) r.
Proof.
  revert cap. induction p as [|c p IH]; intros cap Hok Hr Hk.
  - rewrite app_nil_r. destruct r as [|c r]; [done|]. cbn. by rewrite (Hr c r).
  - inversion Hok as [|? ? Hc Hp]; subst. cbn [app greedy]. rewrite Hc.
    rewrite IH; [|done|done|].
    + rewrite <-app_assoc. cbn [app]. destruct (k (cap ++ c :: p) r) eqn:E; [done|].
      specialize (Hk [] (c :: p) eq_refl). rewrite app_nil_r in Hk. by apply Hk.
    + intros p1 p2 -> Hp2. rewrite <-app_assoc. by apply (Hk (c :: p1) p2).
Qed.

(** The expression [K] after a segment continues with the pattern [ps]: it fails
    unless the segment ends where [K] starts. *)
Definition continues (K : list renode) (ps : list pseg) (P : list Z → Prop) : Prop :=
  exec K [] = ref_match ps [] ∧
  (∀ r, P r → exec K (SLASH :: r) = ref_match ps (split SLASH r)) ∧
  (∀ c r, c ≠ SLASH → exec K (c :: r) = None).

Lemma exec_lit l K s :
  exec ((Chr <$> l) ++ K) s = match strip l s with Some r => exec K r | None => None end.
Proof.
  revert s. induction l as [|c l IH]; intros s; [done|]. destruct s as [|x s]; [done|].
  cbn. destruct (decide (x = c)) as [->|Hx]; [by rewrite decide_True by done|].
  by rewrite decide_False by done.
Qed.

Definition suffix_closed (P : list Z → Prop) : Prop := ∀ p r, P (p ++ r) → P r.

Lemma match_lit l K ps P s :
  SLASH ∉ l → continues K ps P → suffix_closed P → P s →
  exec ((Chr <$> l) ++ K) s = ref_match (PLit l :: ps) (split SLASH s).
Proof.
  intros Hl (K0 & K1 & K2) HP Hs. rewrite exec_lit.
  destruct (split_first SLASH s) as (p & Hp & [[-> E]|(r & -> & E)]); rewrite E; cbn [ref_match].
  - destruct (strip l p) as [r|] eqn:Er.
    + apply strip_Some in Er as ->. destruct r as [|c r].
      * rewrite app_nil_r, decide_True by done. done.
      * rewrite decide_False, K2; [done|set_solver|]. intros E'. apply (f_equal length) in E'.
        rewrite length_app in E'. cbn in E'. lia.
    + rewrite decide_False; [done|]. intros ->. rewrite <-(app_nil_r l) in Er at 2.
      by rewrite strip_app in Er.
  - destruct (decide (p = l)) as [->|Hne].
    { rewrite strip_app. apply K1. apply (HP (l ++ [SLASH])). by rewrite <-app_assoc. }
    destruct (strip l (p ++ SLASH :: r)) as [r'|] eqn:Er; [|done].
    apply strip_Some in Er. destruct r' as [|c r']; [rewrite app_nil_r in Er; set_solver|].
    apply K2. intros ->. apply Hne.
    assert (E' : split SLASH (p ++ SLASH :: r) = p :: split SLASH r).
    { rewrite (split_app_free _ _ _ [] (split SLASH r)); [by rewrite app_nil_r|done|apply split_sep]. }
    rewrite Er, (split_app_free _ _ _ [] (split SLASH r')), app_nil_r in E';
      [|done|apply split_sep]. by injection E'.
Qed.

Lemma match_param n K ps P s :
  continues K ps P → suffix_closed P → P s →
  exec (GroupSeg :: K) s = ref_match (PParam n :: ps) (split SLASH s).
Proof.
  intros (K0 & K1 & K2) HP Hs.
  assert (Hrun : ∀ c p r, c ≠ SLASH → SLASH ∉ p → (r = [] ∨ ∃ r', r = SLASH :: r') →
    exec (GroupSeg :: K) (c :: p ++ r) = ((c :: p) ::.) <$> exec K r).
  { intros c p r Hc Hp Hr. cbn [exec]. rewrite decide_False by done.
    rewrite greedy_run; [done|..].
    - apply Forall_forall. intros x Hx. apply bool_decide_eq_true. set_solver.
    - intros x r' ->. apply bool_decide_eq_false. destruct Hr as [|[? [= ->]]]; naive_solver.
    - intros p1 [|x p2] -> ?; [done|]. cbn [app]. rewrite K2; [done|set_solver]. }
  destruct (split_first SLASH s) as (p & Hp & [[-> E]|(r & -> & E)]); rewrite E; cbn [ref_match].
  - destruct p as [|c p]; [done|]. rewrite decide_False by done.
    rewrite <-(app_nil_r p) at 1. rewrite Hrun; [by rewrite K0|set_solver..|by left].
  - destruct p as [|c p]; [done|]. rewrite decide_False by done. cbn [app].
    rewrite Hrun; [|set_solver..|right; by exists r].
    rewrite K1; [done|]. apply (HP ((c :: p) ++ [SLASH])). by rewrite <-app_assoc.
Qed.

Lemma greedy_all {R} (ok : Z → bool) (k : list Z → list Z → option R) cap s :
  Forall (λ c, ok c = true) s → is_Some (k (cap ++ s) []) →
  greedy ok k cap s = k (cap ++ s) [].
Proof.
  intros Hs. revert cap. induction Hs as [|c s Hc Hs IH]; intros cap Hk.
  - by rewrite app_nil_r.
  - cbn. rewrite Hc, IH, <-app_assoc by (by rewrite <-app_assoc). cbn [app].
    by destruct Hk as [r ->].
Qed.

Lemma match_rest s :
  Forall (λ c, line_terminator c = false) s →
  exec [GroupAny] s = ref_match [PRest] (split SLASH s).
Proof.
  intros Hs. transitivity (Some [s]).
  - cbn. rewrite greedy_all; [done| |done].
    eapply Forall_impl; [exact Hs|]. intros c Hc. cbn in *. by rewrite Hc.
  - pose proof (join_split SLASH s) as Hj. pose proof (split_nonempty SLASH s).
    destruct (split SLASH s); [done|]. cbn [ref_match]. by rewrite Hj.
Qed.

Lemma continues_closing P : continues (closing false) [] P.
Proof.
  split_and!; [done| |].
  - intros r _. destruct r as [|c r]; [done|]. cbn.
    pose proof (split_nonempty SLASH r). by destruct (decide (c = SLASH)); destruct (split SLASH r) as [|[|? ?] [|? ?]].
  - intros c r Hc. cbn. by rewrite decide_False.
Qed.

Definition plain_text (s : list Z) : Prop := Forall (λ c, line_terminator c = false) s.

Lemma plain_text_suffix : suffix_closed plain_text.
Proof. intros p r [_ Hr]%Forall_app. exact Hr. Qed.

Lemma seg_nodes_match p K ps s :
  SLASH ∉ p → seg_of p ≠ PRest → continues K ps plain_text → plain_text s →
  exec (seg_nodes p ++ K) s = ref_match (seg_of p :: ps) (split SLASH s).
Proof.
  intros Hp Hr HK Hs. pose proof plain_text_suffix as Hc. unfold seg_nodes.
  destruct (seg_of p) as [l|n|] eqn:E; [|by eapply match_param|done].
  destruct (seg_src_lit _ _ E) as [-> _]. by eapply match_lit.
Qed.

Lemma body_match parts s :
  parts ≠ [] → Forall (λ p, SLASH ∉ p) parts → rest_last (seg_of <$> parts) → plain_text s →
  exec (body_nodes parts (closing (has_rest (seg_of <$> parts)))) s =
    ref_match (seg_of <$> parts) (split SLASH s).
Proof.
  intros Hne Hsl Hl. revert s. induction parts as [|p [|p' ps] IH]; intros s Hs; [done| |];
    inversion Hsl as [|? ? Hp Hps]; subst.
  - cbn [fmap list_fmap body_nodes]. destruct (decide (seg_of p = PRest)) as [E|E].
    + unfold seg_nodes. rewrite E. by apply match_rest.
    + assert (has_rest [seg_of p] = false) as ->
        by (apply bool_decide_eq_false; set_solver).
      apply seg_nodes_match; auto using continues_closing.
  - destruct Hl as [Hr Hl]. specialize (IH ltac:(done) Hps Hl).
    change (seg_of <$> p :: p' :: ps) with (seg_of p :: (seg_of <$> p' :: ps)).
    assert (has_rest (seg_of p :: (seg_of <$> p' :: ps)) = has_rest (seg_of <$> p' :: ps)) as ->.
    { rewrite has_rest_cons. assert (has_rest [seg_of p] = false) as ->; [|done].
      apply bool_decide_eq_false. set_solver. }
    apply seg_nodes_match; [done..| |done]. split_and!.
    + cbn. by destruct (seg_of p'), (seg_of <$> ps).
    + intros r Hr'. cbn [exec]. rewrite decide_True by done. by apply IH.
    + intros c r Hc. cbn [exec]. by rewrite decide_False.
Qed.

(** Patterns whose [*], if any, comes last. *)
Definition canonical (path : list Z) : Prop := rest_last (pattern_of path).

Lemma nodes_match path pathname :
  parts_of path ≠ [] → canonical path → plain_text pathname →
  exec (nodes_of path) pathname = ref_path (pattern_of path) pathname.
Proof.
  intros Hne Hc Hs. unfold nodes_of, ref_path. destruct pathname as [|c s]; [done|].
  cbn [exec strip]. destruct (decide (c = SLASH)) as [->|Hx]; [|by rewrite decide_False by congruence].
  rewrite decide_True by done. apply body_match; [done| |done|by inversion Hs].
  apply Forall_forall, parts_no_slash.
Qed.

(** ** The order of the patterns *)

Section order.
Context {M : Type}.
Implicit Types (x y d : CompiledDynamicPattern M) (l : list (CompiledDynamicPattern M)).

Lemma cmp_le x y :
  cmp x y ≤ 0 ↔ staticSegments y < staticSegments x ∨
                staticSegments x = staticSegments y ∧ zlen (paramNames x) ≤ zlen (paramNames y).
Proof. unfold cmp. case_decide; lia. Qed.

Lemma cmp_lt x y :
  cmp x y < 0 ↔ staticSegments y < staticSegments x ∨
                staticSegments x = staticSegments y ∧ zlen (paramNames x) < zlen (paramNames y).
Proof. unfold cmp. case_decide; lia. Qed.

Definition ordered : list (CompiledDynamicPattern M) → Prop :=
  StronglySorted (λ x y, cmp x y ≤ 0).

Lemma elem_sort_insert x l y : y ∈ sort_insert x l ↔ y = x ∨ y ∈ l.
Proof. induction l as [|z l IH]; cbn; [|case_decide]; set_solver. Qed.

Lemma elem_sort l y : y ∈ sort l ↔ y ∈ l.
Proof. induction l as [|x l IH]; [done|]. cbn. rewrite elem_sort_insert. set_solver. Qed.

Lemma ordered_insert x l : ordered l → ordered (sort_insert x l).
Proof.
  induction 1 as [|y l Hl IH Hy]; cbn; [repeat constructor|].
  rewrite Forall_forall in Hy. case_decide as Hc.
  - constructor; [by constructor; [|apply Forall_forall]|].
    apply Forall_cons. split; [done|]. apply Forall_forall. intros z Hz.
    specialize (Hy z Hz). cbn in *. rewrite !cmp_le in *. lia.
  - constructor; [done|]. apply Forall_forall. intros z [->|Hz]%elem_sort_insert; [|auto].
    rewrite !cmp_le in *. lia.
Qed.

Lemma ordered_sort l : ordered (sort l).
Proof. induction l; [constructor|]. by apply ordered_insert. Qed.

Variable hit : CompiledDynamicPattern M → bool.

Lemma find_insert x l :
  ordered l →
  List.find hit (sort_insert x l) =
    if hit x then
      match List.find hit l with
      | Some y => if decide (cmp x y ≤ 0) then Some x else Some y
      | None => Some x
      end
    else List.find hit l.
Proof.
  induction 1 as [|y l Hl IH Hy]; cbn; [done|].
  rewrite Forall_forall in Hy. case_decide as Hc; cbn.
  - destruct (hit x); [|done]. destruct (hit y); [by rewrite decide_True|].
    destruct (List.find hit l) as [z|] eqn:E; [|done].
    apply find_some in E as [Hz%list_elem_of_In _]. specialize (Hy z Hz). cbn in Hy.
    rewrite decide_True; [done|]. rewrite !cmp_le in *. lia.
  - rewrite IH. destruct (hit y); [|done]. destruct (hit x); [|done]. by rewrite decide_False.
Qed.

(** [d] is the first hit of highest rank. *)
Definition best_of l d : Prop :=
  ∃ l1 l2, l = l1 ++ d :: l2 ∧ hit d = true ∧
    (∀ y, y ∈ l1 → hit y = true → cmp d y < 0) ∧
    (∀ y, y ∈ l2 → hit y = true → cmp d y ≤ 0).

Lemma find_sort_None l :
  List.find hit (sort l) = None → ∀ y, y ∈ l → hit y = false.
Proof.
  intros E y Hy. eapply find_none; [exact E|]. by apply list_elem_of_In, elem_sort.
Qed.

Lemma find_sort_best l d : List.find hit (sort l) = Some d → best_of l d.
Proof.
  revert d. induction l as [|x l IH]; intros d; [done|]. cbn [sort].
  rewrite find_insert by apply ordered_sort. destruct (hit x) eqn:Hx.
  - destruct (List.find hit (sort l)) as [y|] eqn:E.
    + destruct (IH y eq_refl) as (l1 & l2 & -> & Hy & H1 & H2).
      case_decide as Hc; intros [= <-].
      * exists [], (l1 ++ y :: l2). split_and!; [done|done|set_solver|].
        intros z Hz Hhz. apply elem_of_app in Hz as [Hz|[->|Hz]%elem_of_cons]; [|done|].
        -- specialize (H1 z Hz Hhz). rewrite cmp_lt in H1. rewrite cmp_le in Hc |- *. lia.
        -- specialize (H2 z Hz Hhz). rewrite cmp_le in Hc, H2 |- *. lia.
      * exists (x :: l1), l2. split_and!; [done|done| |done].
        intros z [->|Hz]%elem_of_cons Hhz; [|auto]. rewrite cmp_le in Hc. rewrite cmp_lt. lia.
    + intros [= <-]. exists [], l. split_and!; [done|done|set_solver|].
      intros z Hz Hhz. by rewrite (find_sort_None l E z Hz) in Hhz.
  - intros E. destruct (IH d E) as (l1 & l2 & -> & Hd & H1 & H2).
    exists (x :: l1), l2. split_and!; [done|done| |done].
    intros z [->|Hz]%elem_of_cons Hhz; [congruence|auto].
Qed.
End order.

(** ** Building the tables *)

Lemma split_has c x s : x ∈ s → x ≠ c → ∃ seg, seg ∈ split c s ∧ x ∈ seg.
Proof.
  intros Hx Hc. induction s as [|y s IH]; [by apply elem_of_nil in Hx|].
  cbn. apply elem_of_cons in Hx as [<-|Hx].
  - rewrite decide_False by done. pose proof (split_nonempty c s).
    destruct (split c s) as [|seg segs]; [done|]. exists (x :: seg). set_solver.
  - destruct (IH Hx) as (seg & Hs & Hxs). case_decide; [exists seg; set_solver|].
    destruct (split c s) as [|seg0 segs]; [set_solver|].
    apply elem_of_cons in Hs as [->|Hs]; [exists (y :: seg0); set_solver|exists seg; set_solver].
Qed.

Lemma dynamic_parts path : is_dynamic path = true → parts_of path ≠ [].
Proof.
  intros Hd. assert (∃ x, x ∈ path ∧ x ≠ SLASH) as (x & Hx & Hs).
  { unfold is_dynamic, includes in Hd.
    apply orb_true_iff in Hd as [Hd|Hd]; apply bool_decide_eq_true in Hd; by eexists. }
  destruct (split_has _ _ _ Hx Hs) as (seg & Hseg & Hxs).
  assert (seg ∈ parts_of path) as Hp; [|by intros E; rewrite E in Hp; apply elem_of_nil in Hp].
  apply list_elem_of_filter. split; [|done].
  destruct seg; [by apply elem_of_nil in Hxs|]. zlia.
Qed.

Section tables.
Context {M : Type}.
Implicit Types (routes : list (list Z * M)) (m : M).

Definition compiled_of (r : list Z * M) : CompiledDynamicPattern M :=
  let ps := pattern_of r.1 in
  {| re := nodes_of r.1; paramNames := names_of ps; rest := has_rest ps; methods := r.2;
     staticSegments := static_of ps |}.

Lemma compile_pattern_ok path m :
  parts_of path ≠ [] → compile_pattern path m = Ok (compiled_of (path, m)).
Proof.
  intros Hne. pose proof (RegExp_pattern path Hne) as HR. unfold compile_pattern.
  destruct (pattern_source path) as [src st] eqn:E. cbn [fst] in HR. rewrite HR.
  unfold pattern_source in E. rewrite map_segs_spec in E. injection E as <- <-. done.
Qed.

Definition dynamic_of routes := filter (λ r, is_dynamic r.1 = true) routes.
Definition static_routes routes := filter (λ r, is_dynamic r.1 = false) routes.

Lemma scan_routes_ok routes ex dyn :
  NoDup (ex.*1 ++ routes.*1) →
  scan_routes routes ex dyn =
    Ok (ex ++ static_routes routes, dyn ++ (compiled_of <$> dynamic_of routes)).
Proof.
  revert ex dyn. induction routes as [|[path m] routes IH]; intros ex dyn Hnd.
  - cbn. by rewrite !app_nil_r.
  - cbn [scan_routes]. unfold dynamic_of, static_routes in *. cbn [fmap list_fmap fst] in Hnd.
    rewrite !filter_cons. cbn [fst]. destruct (is_dynamic path) eqn:E.
    + rewrite decide_False, decide_True by done.
      rewrite compile_pattern_ok by by apply dynamic_parts. cbn [mbind result_bind].
      rewrite IH; [by rewrite <-app_assoc|].
      rewrite app_Permutation_comm in Hnd |- *. cbn in Hnd. by inversion Hnd.
    + rewrite decide_True, decide_False by done.
      assert (path ∉ mkeys ex) as Hp.
      { apply NoDup_app in Hnd as (_ & Hnd & _). intros Hp. eapply Hnd; [exact Hp|]. set_solver. }
      rewrite mset_new by done. rewrite IH; [by rewrite <-app_assoc|].
      rewrite fmap_app, <-app_assoc. done.
Qed.

Lemma build_ok routes :
  NoDup routes.*1 →
  buildPathMatcher routes =
    Ok {| exact := static_routes routes; dynamic := sort (compiled_of <$> dynamic_of routes) |}.
Proof. intros Hnd. unfold buildPathMatcher. by rewrite scan_routes_ok. Qed.

Lemma first_match_find (ds : list (CompiledDynamicPattern M)) pathname :
  first_match ds pathname =
    match List.find (λ d, bool_decide (is_Some (exec (re d) pathname))) ds with
    | Some d => (λ caps, (methods d, params_of d caps)) <$> exec (re d) pathname
    | None => None
    end.
Proof.
  induction ds as [|d ds IH]; [done|]. cbn. destruct (exec (re d) pathname) as [caps|] eqn:E.
  - rewrite bool_decide_eq_true_2 by done. by rewrite E.
  - rewrite bool_decide_eq_false_2; [done|]. by intros [? ?].
Qed.
End tables.

(** The parameters of a match. *)
Definition pattern_params (ps : list pseg) (caps : list (list Z)) : jsobj :=
  let params := set_params empty_obj (names_of ps) caps in
  match has_rest ps, caps !! length (names_of ps) with
  | true, Some r => obj_set params (js "*") (JStr (safeDecode r))
  | _, _ => params
  end.

(** More literal segments, or as many and fewer parameters. *)
Definition outranks (p q : list pseg) : Prop :=
  static_of q < static_of p ∨
  static_of p = static_of q ∧ zlen (names_of p) < zlen (names_of q).

Definition accepts (pathname : list Z) (path : list Z) : Prop :=
  is_Some (ref_path (pattern_of path) pathname).

(** The route [r] answers [pathname]: it is the static route of that very path, or
    there is none and [r] is the first declared of the highest-ranked dynamic
    routes that accept it. *)
Definition selected {M} (routes : list (list Z * M)) (pathname : list Z)
    (r : list Z * M) (params : jsobj) : Prop :=
  r ∈ static_routes routes ∧ r.1 = pathname ∧ params = empty_obj ∨
  pathname ∉ (static_routes routes).*1 ∧
  ∃ before after caps,
    dynamic_of routes = before ++ r :: after ∧
    ref_path (pattern_of r.1) pathname = Some caps ∧
    params = pattern_params (pattern_of r.1) caps ∧
    Forall (λ q, accepts pathname q → outranks (pattern_of r.1) (pattern_of q)) before.*1 ∧
    Forall (λ q, accepts pathname q → ¬ outranks (pattern_of q) (pattern_of r.1)) after.*1.

Definition unmatched {M} (routes : list (list Z * M)) (pathname : list Z) : Prop :=
  pathname ∉ (static_routes routes).*1 ∧
  Forall (λ q, ¬ accepts pathname q) (dynamic_of routes).*1.

Definition canonical_table {M} (routes : list (list Z * M)) : Prop :=
  Forall (λ q, is_dynamic q = true → canonical q) routes.*1.

Lemma match_path_spec {M} (routes : list (list Z * M)) pm pathname :
  NoDup routes.*1 → canonical_table routes → plain_text pathname →
  buildPathMatcher routes = Ok pm →
  match match_path pm pathname with
  | Some (m, params) => ∃ path, selected routes pathname (path, m) params
  | None => unmatched routes pathname
  end.
Proof.
  intros Hnd Hcan Hp. rewrite build_ok by done. intros [= <-].
  unfold match_path. cbn [exact dynamic].
  destruct (mget pathname (static_routes routes)) as [m|] eqn:E.
  { exists pathname. left. split; [by apply mget_Some_elem|done]. }
  apply mget_None in E as Hno.
  assert (Hex : ∀ r, r ∈ dynamic_of routes →
    exec (re (compiled_of r)) pathname = ref_path (pattern_of r.1) pathname).
  { intros r [Hd Hr]%list_elem_of_filter. apply nodes_match; [by apply dynamic_parts| |done].
    unfold canonical_table in Hcan. rewrite Forall_forall in Hcan.
    apply Hcan; [by apply list_elem_of_fmap_2|done]. }
  set (hit := λ d : CompiledDynamicPattern M, bool_decide (is_Some (exec (re d) pathname))).
  assert (Hhit : ∀ r, r ∈ dynamic_of routes → accepts pathname r.1 → hit (compiled_of r) = true).
  { intros r Hr Ha. unfold hit. by rewrite bool_decide_eq_true, Hex. }
  rewrite first_match_find. fold hit. destruct (List.find _ _) as [d|] eqn:F.
  - apply find_sort_best in F as (l1 & l2 & Hl & Hd & H1 & H2).
    apply fmap_app_inv in Hl as (b & ar & -> & Hl & Hdyn).
    symmetry in Hl. apply fmap_cons_inv in Hl as ([path m] & a & -> & -> & ->).
    apply bool_decide_eq_true in Hd as [caps Hcaps]. rewrite Hcaps.
    rewrite Hdyn in Hhit. rewrite Hex in Hcaps by (rewrite Hdyn; set_solver).
    cbn [fmap option_fmap option_map].
    exists path. right. split; [done|]. exists b, a, caps. split_and!; [done|done| | |].
    + unfold params_of, pattern_params, compiled_of. cbn [rest paramNames fst].
      by destruct (has_rest (pattern_of path)).
    + apply Forall_fmap, Forall_forall. intros r Hr Ha.
      apply (cmp_lt (compiled_of (path, m)) (compiled_of r)).
      apply H1; [by apply list_elem_of_fmap_2|]. apply Hhit; set_solver.
    + apply Forall_fmap, Forall_forall. intros r Hr Ha Hout.
      apply (cmp_lt (compiled_of r) (compiled_of (path, m))) in Hout.
      assert (cmp (compiled_of (path, m)) (compiled_of r) ≤ 0) as Hle.
      { apply H2; [by apply list_elem_of_fmap_2|]. apply Hhit; set_solver. }
      rewrite cmp_le in Hle. rewrite cmp_lt in Hout. lia.
  - split; [done|]. apply Forall_fmap, Forall_forall. intros r Hr Ha.
    eapply find_sort_None in F; [|by apply list_elem_of_fmap_2].
    by rewrite Hhit in F.
Qed.

(** C7. The matcher always builds, and answers with the static route of that
    very path if there is one; otherwise with the first declared of the
    highest-ranked dynamic routes that accept the pathname segment by segment, and
    its decoded parameters; and with nothing only when no route accepts. *)
Theorem match_most_specific {M} (routes : list (list Z * M)) pathname :
  NoDup routes.*1 → canonical_table routes → plain_text pathname →
  ∃ pm, buildPathMatcher routes = Ok pm ∧
  match match_path pm pathname with
  | Some (m, params) => ∃ path, selected routes pathname (path, m) params
  | None => unmatched routes pathname
  end.
Proof.
  intros Hnd Hcan Hp. eexists. split; [by apply build_ok|].
  apply match_path_spec; auto using build_ok.
Qed.

(** What a table selects depends on its paths only. *)
Lemma selected_Forall2 {A B} (Q : A → B → Prop) (l : list (list Z * A)) (k : list (list Z * B))
    pathname path m params :
  Forall2 (λ a b, a.1 = b.1 ∧ Q a.2 b.2) l k →
  selected k pathname (path, m) params →
  ∃ x, selected l pathname (path, x) params ∧ Q x m.
Proof.
  set (R := λ (a : list Z * A) (b : list Z * B), a.1 = b.1 ∧ Q a.2 b.2).
  intros HR.
  assert (Hf : ∀ d : bool, Forall2 R (filter (λ r, is_dynamic r.1 = d) l)
                                     (filter (λ r, is_dynamic r.1 = d) k)).
  { intros d. induction HR as [|a b l k [Hab HQ] _ IH]; [done|].
    rewrite !filter_cons, Hab. case_decide; [by constructor|done]. }
  assert (Hkeys : ∀ l' k', Forall2 R l' k' → l'.*1 = k'.*1).
  { induction 1 as [|a b l' k' [Hab _] _ IH]; [done|]. cbn. by rewrite Hab, IH. }
  pose proof (Hf true) as Hd. pose proof (Hf false) as Hs. fold (dynamic_of l) (dynamic_of k) in Hd.
  fold (static_routes l) (static_routes k) in Hs.
  intros [(Hin & Hp & Hpar)|(Hno & b & a & caps & Hdyn & Href & Hpar & Hb & Ha)].
  - apply list_elem_of_lookup in Hin as [i Hi].
    destruct (Forall2_lookup_r _ _ _ _ _ Hs Hi) as ([p x] & Hx & Hk & HQ).
    cbn in *. subst. exists x. split; [|done]. left. split; [by eapply list_elem_of_lookup_2|done].
  - rewrite Hdyn in Hd. apply Forall2_app_inv_r in Hd as (b' & a' & Hb' & Hd & Hl).
    inversion Hd as [|[p x] ? a'' ? [Hk HQ] Ha']; subst. cbn in *. subst.
    exists x. split; [|done]. right. rewrite (Hkeys _ _ Hs). split; [done|].
    exists b', a'', caps. by rewrite (Hkeys _ _ Hb'), (Hkeys _ _ Ha').
Qed.

Lemma unmatched_Forall2 {A B} (l : list (list Z * A)) (k : list (list Z * B)) pathname :
  Forall2 (λ a b, a.1 = b.1) l k → unmatched k pathname → unmatched l pathname.
Proof.
  intros HR. assert (Hf : ∀ d : bool, (filter (λ r, is_dynamic r.1 = d) l).*1 =
                                     (filter (λ r, is_dynamic r.1 = d) k).*1).
  { intros d. induction HR as [|a b l k Hab _ IH]; [done|].
    rewrite !filter_cons, Hab. case_decide; [|done]. cbn. by rewrite Hab, IH. }
  unfold unmatched, static_routes, dynamic_of. by rewrite !Hf.
Qed.

(** ** Patterns with a [*] that is not the last segment *)

Lemma greedy_some {R} (ok : Z → bool) (k : list Z → list Z → option R) cap p r :
  Forall (λ c, ok c = true) p → is_Some (k (cap ++ p) r) → is_Some (greedy ok k cap (p ++ r)).
Proof.
  intros Hp. revert cap. induction Hp as [|c p Hc Hp IH]; intros cap Hk.
  - rewrite app_nil_r in Hk. destruct r as [|c r]; [done|]. cbn [app greedy].
    destruct (ok c); [|done]. by destruct (greedy ok k (cap ++ [c]) r).
  - cbn [app greedy]. rewrite Hc. specialize (IH (cap ++ [c])).
    rewrite <-app_assoc in IH. by destruct (IH Hk) as [? ->].
Qed.

Lemma greedy_none {R} (ok : Z → bool) (k : list Z → list Z → option R) cap r :
  (∀ q1 q2, r = q1 ++ q2 → k (cap ++ q1) q2 = None) → greedy ok k cap r = None.
Proof.
  revert cap. induction r as [|c r IH]; intros cap Hk; cbn.
  - specialize (Hk [] [] eq_refl). by rewrite app_nil_r in Hk.
  - assert (k cap (c :: r) = None) as Hc
      by (specialize (Hk [] (c :: r) eq_refl); by rewrite app_nil_r in Hk).
    destruct (ok c); [|done]. rewrite IH; [done|].
    intros q1 q2 ->. rewrite <-app_assoc. by apply (Hk (c :: q1) q2).
Qed.

Lemma greedy_stop {R} (ok : Z → bool) (k : list Z → list Z → option R) cap p c r v :
  Forall (λ c, ok c = true) p → k (cap ++ p) (c :: r) = Some v →
  (∀ q1 q2, r = q1 ++ q2 → k (cap ++ p ++ c :: q1) q2 = None) →
  greedy ok k cap (p ++ c :: r) = Some v.
Proof.
  intros Hp. revert cap. induction Hp as [|x p Hx Hp IH]; intros cap Hk Hno; cbn [app greedy].
  - rewrite app_nil_r in Hk. destruct (ok c); [|done]. rewrite greedy_none; [done|].
    intros q1 q2 ->. rewrite <-app_assoc. by apply Hno.
  - rewrite Hx. rewrite IH; [done|by rewrite <-app_assoc|].
    intros q1 q2 ->. rewrite <-app_assoc. by apply Hno.
Qed.

Lemma exec_seg y : y ≠ [] → SLASH ∉ y → exec [GroupSeg] y = Some [y].
Proof.
  intros Hy Hs. destruct y as [|c y]; [done|]. cbn [exec].
  rewrite decide_False by set_solver. rewrite greedy_all; [done| |done].
  apply Forall_forall. intros z Hz. apply bool_decide_eq_true. set_solver.
Qed.

Lemma exec_chr c re s : exec (Chr c :: re) (c :: s) = exec re s.
Proof. cbn [exec]. by rewrite decide_True. Qed.

Lemma exec_any re s :
  exec (GroupAny :: re) s =
    greedy (λ c, negb (line_terminator c)) (λ cap r, (cap ::.) <$> exec re r) [] s.
Proof. done. Qed.

Lemma plain_text_any x :
  plain_text x → Forall (λ c, negb (line_terminator c) = true) x.
Proof. intros Hx. eapply Forall_impl; [exact Hx|]. by intros c ->. Qed.

(** A [*] followed by other segments breaks both promises of the matcher: the
    expression loses its end anchor, so [/*/edit] answers any path that merely goes
    on after [/edit], and the captures are read in the wrong order, so [/*/:id] gives
    the parameter [id] what the [*] took and the other way round. *)
Theorem rest_not_last {M} (m : M) (x y more : list Z) :
  plain_text x →
  (∃ pm, buildPathMatcher [(js "/*/edit", m)] = Ok pm ∧
         is_Some (match_path pm (js "/" ++ x ++ js "/edit" ++ more))) ∧
  (SLASH ∉ x → SLASH ∉ y → y ≠ [] →
   ∃ pm params, buildPathMatcher [(js "/*/:id", m)] = Ok pm ∧
     match_path pm (js "/" ++ x ++ js "/" ++ y) = Some (m, params) ∧
     mget (js "id") (own params) = Some (JStr (safeDecode x)) ∧
     mget (js "*") (own params) = Some (JStr (safeDecode y))).
Proof.
  intros Hx. apply plain_text_any in Hx as Hany. split.
  - eexists. split; [vm_compute; reflexivity|]. unfold match_path.
    cbn [exact dynamic mget first_match re].
    change (js "/" ++ ?s) with (47 :: s). rewrite exec_chr, exec_any.
    match goal with |- context [greedy ?ok ?k [] ?s] => assert (is_Some (greedy ok k [] s)) as [? ->] end;
      [|done]. by apply greedy_some.
  - intros Hsx Hsy Hy. eexists _, _. split; [vm_compute; reflexivity|].
    unfold match_path. cbn [exact dynamic mget first_match re].
    change (js "/" ++ ?s) with (47 :: s). change (js "/" ++ y) with (47 :: y).
    rewrite exec_chr, exec_any, (greedy_stop _ _ _ _ _ _ [x; y]); [|done| |].
    + split; [reflexivity|]. by split.
    + by rewrite exec_chr, exec_seg.
    + intros q1 q2 ->. destruct q2 as [|d q2]; [done|]. cbn [exec]. rewrite decide_False; [done|].
      intros ->. apply Hsy. set_solver.
Qed.

Definition sample_routes : list (list Z * Z) :=
  [(js "/a/:id", 1); (js "/a/x", 2); (js "/:k/x/*", 3); (js "/a/*", 4)].

Lemma match_most_specific_witness :
  (pm ← buildPathMatcher sample_routes; Ok (match_path pm (js "/a/x/y"))) =
    Ok (Some (4, Obj [(js "*", JStr (js "x/y"))] None)) ∧
  ∃ pm, buildPathMatcher sample_routes = Ok pm ∧
    match match_path pm (js "/a/x/y") with
    | Some (m, params) => ∃ path, selected sample_routes (js "/a/x/y") (path, m) params
    | None => unmatched sample_routes (js "/a/x/y")
    end.
Proof.
  split; [by vm_compute|].
  apply (match_most_specific sample_routes (js "/a/x/y")).
  - by apply (bool_decide_unpack _); vm_compute.
  - apply Forall_forall. intros path Hin _.
    repeat (apply elem_of_cons in Hin as [->|Hin];
      [by apply (bool_decide_unpack _); vm_compute|]). by apply elem_of_nil in Hin.
  - by repeat constructor.
Defined.

Lemma rest_not_last_witness :
  (∃ pm, buildPathMatcher [(js "/*/edit", tt)] = Ok pm ∧
         is_Some (match_path pm (js "/" ++ js "a" ++ js "/edit" ++ js "or"))) ∧
  ∃ pm params, buildPathMatcher [(js "/*/:id", tt)] = Ok pm ∧
     match_path pm (js "/" ++ js "a" ++ js "/" ++ js "b") = Some (tt, params) ∧
     mget (js "id") (own params) = Some (JStr (safeDecode (js "a"))) ∧
     mget (js "*") (own params) = Some (JStr (safeDecode (js "b"))).
Proof.
  destruct (rest_not_last tt (js "a") (js "b") (js "or")) as [H1 H2]; [by repeat constructor|].
  split; [exact H1|]. apply H2; [by apply (bool_decide_unpack _); vm_compute..|done].
Defined.
