(* ===== verification/Router.v ===== *)
(** The route table and the router: [buildRouteHandlers] (src/ingress/server.ts),
    the fault containment of user handlers (src/ingress/server-error.ts) and
    [createIngressRouter] (src/ingress/router.ts).

    What a handler does with a request belongs to other files; here a handler is
    the closure the code builds (which factory, over which compiled ingress, with
    which options), and the result is which closure answers which request. *)

From S2P Require Import Prelude.
From S2P Require Import JsMap.
From S2P Require Import Utf8.
From S2P Require Import JsObject.
From S2P Require Import JsString.
From S2P Require Import PathMatcher.

Definition GET := js "GET".
Definition HEAD := js "HEAD".
Definition POST := js "POST".
Definition PUT := js "PUT".
Definition PATCH := js "PATCH".
Definition DELETE := js "DELETE".
Definition OPTIONS := js "OPTIONS".

Section router.
(** A compiled ingress, user functions, responses, responders, native plans and
    compiled native routes, ingress options; [compile] is [createIngressHandler]
    and [createNativeRoute] the constructor of the native route stack: both throw
    on bad options. *)
Context {H F R U P N O : Type}.
Variable compile : O → result H.
Variable createNativeRoute : P → result N.

(** ** server.ts *)

Record BakedHandlerOptions := {
  o_maxBodyBytes : option Z;
  o_bodyTimeoutMs : option Z
}.

Inductive StaticRoute := StResponse (r : R) | StFactory (f : F).
Inductive ReadRoute := ReadIngress (h : H) | ReadRaw (f : F).

Record Responder := {
  r_ingress : H; r_handler : U; r_methods : option (list (list Z));
  r_terminalStyle : option bool; r_readBody : option bool
}.
Record NativeSpec := {
  n_plan : P; n_handler : U; n_methods : option (list (list Z)); n_readBody : option bool
}.

Record BakedRoute := Route {
  static : option StaticRoute;
  read : option ReadRoute;
  write : option H;
  echo : option H;
  cookies : option H;
  delete_ : option H;
  responder : option Responder;
  native : option NativeSpec;
  maxBodyBytes : option Z;
  bodyTimeoutMs : option Z
}.

(** The closures of the route factories; the first four constructors after
    [FOptions] are wrapped by [guardRouteHandler]. *)
Inductive handler :=
  | FRead (h : H) (o : BakedHandlerOptions)
  | FHead (h : H) (o : BakedHandlerOptions)
  | FWrite (h fallback : H) (o : BakedHandlerOptions)
  | FEcho (h : H) (o : BakedHandlerOptions)
  | FDelete (h : H) (o : BakedHandlerOptions)
  | FOptions (h : H) (o : BakedHandlerOptions)
  | GuardedRaw (f : F)
  | GuardedStatic (f : F)
  | GuardedResponder (r : Responder) (o : BakedHandlerOptions)
  | GuardedNative (n : N) (s : NativeSpec) (o : BakedHandlerOptions).

(** A property of a [methods] object: a function, or a bare [Response]. *)
Inductive mvalue := MFun (f : handler) | MResponse (r : R).

Definition Methods := list (list Z * mvalue).

Definition or_else {A} (a b : option A) : option A :=
  match a with Some _ => a | None => b end.

(** [if (x) methods[k] = v(x)]. *)
Definition set_if {A} (x : option A) (ks : list (list Z)) (v : A → mvalue) (ms : Methods)
    : Methods :=
  match x with
  | Some a => foldl (λ ms k, mset k (v a) ms) ms ks
  | None => ms
  end.

Definition has_static (spec : BakedRoute) : bool := bool_decide (is_Some (static spec)).

(** [(ms ?? ['GET']).filter((m) => !(hasStatic && m === 'GET'))]. *)
Definition wired_methods (spec : BakedRoute) (ms : option (list (list Z))) : list (list Z) :=
  filter (λ m, ¬ (has_static spec = true ∧ m = GET)) (default [GET] ms).

Definition primary (spec : BakedRoute) : option H :=
  or_else (delete_ spec)
    (or_else (match static spec, read spec with None, Some (ReadIngress h) => Some h | _, _ => None end)
      (or_else (match static spec with None => cookies spec | Some _ => None end)
        (or_else (write spec) (echo spec)))).

(** The body of the loop over the routes. *)
Definition route_methods (fallback : option H) (spec : BakedRoute) : result Methods :=
  let routeOpts := {| o_maxBodyBytes := maxBodyBytes spec; o_bodyTimeoutMs := bodyTimeoutMs spec |} in
  let ms :=
    match static spec with
    | Some (StFactory f) => mset GET (MFun (GuardedStatic f)) []
    | Some (StResponse r) => mset GET (MResponse r) []
    | None =>
        match read spec with
        | Some (ReadRaw f) => mset GET (MFun (GuardedRaw f)) []
        | Some (ReadIngress h) =>
            mset HEAD (MFun (FHead h routeOpts)) (mset GET (MFun (FRead h routeOpts)) [])
        | None => []
        end
    end in
  let ms := set_if (write spec) [POST; PUT; PATCH]
    (λ h, MFun (FWrite h (default h fallback) routeOpts)) ms in
  let ms := set_if (echo spec) [POST] (λ h, MFun (FEcho h routeOpts)) ms in
  let ms := set_if (if has_static spec then None else cookies spec) [GET]
    (λ h, MFun (FRead h routeOpts)) ms in
  let ms := set_if (delete_ spec) [DELETE] (λ h, MFun (FDelete h routeOpts)) ms in
  let ms :=
    match responder spec with
    | Some r =>
        foldl (λ ms k, mset k (MFun (GuardedResponder r routeOpts)) ms) ms
          (wired_methods spec (r_methods r))
    | None => ms
    end in
  ms ← match native spec with
       | Some n =>
           let nativeMethods := wired_methods spec (n_methods n) in
           if decide (0 < zlen nativeMethods) then
             nr ← createNativeRoute (n_plan n);
             Ok (foldl (λ ms k, mset k (MFun (GuardedNative nr n routeOpts)) ms) ms nativeMethods)
           else Ok ms
       | None => Ok ms
       end;
  Ok (set_if (primary spec) [OPTIONS] (λ h, MFun (FOptions h routeOpts)) ms).

Fixpoint buildRouteHandlers (fallback : option H) (routes : list (list Z * BakedRoute))
    : result (list (list Z * Methods)) :=
  match routes with
  | [] => Ok []
  | (path, spec) :: routes' =>
      ms ← route_methods fallback spec;
      rest ← buildRouteHandlers fallback routes';
      Ok ((path, ms) :: rest)
  end.

(** ** router.ts: compiling the table *)

Record RouterRouteSpec := {
  s_options : option O;
  (** [options.rateLimit.limit], when it is a number. *)
  s_limit : option Z;
  s_read : bool; s_write : bool; s_echo : bool; s_cookies : bool; s_delete : bool;
  s_responder : option (U * option (list (list Z)) * option bool);
  s_native : option NativeSpec;
  s_terminalStyle : option bool;
  s_static : option StaticRoute;
  s_raw : option F;
  s_maxBodyBytes : option Z;
  s_bodyTimeoutMs : option Z
}.

Definition RATE_LIMIT_U32_MAX : Z := 4294967295.

(** One iteration: the route, the ingress compiled for it if any, and whether
    [warnRateLimitWithoutGetIp] ran. *)
Definition compile_route (default_options : O) (style : option bool) (getIp : bool)
    (spec : RouterRouteSpec) : result (BakedRoute * option H * bool) :=
  let mb := s_maxBodyBytes spec in
  let bt := s_bodyTimeoutMs spec in
  match s_static spec with
  | Some s => Ok (Route (Some s) None None None None None None None mb bt, None, false)
  | None =>
  match s_raw spec with
  | Some f => Ok (Route None (Some (ReadRaw f)) None None None None None None None None, None, false)
  | None =>
  match s_native spec with
  | Some n => Ok (Route None None None None None None None (Some n) mb bt, None, false)
  | None =>
      h ← compile (default default_options (s_options spec));
      let warn := match s_limit spec with
                  | Some l => bool_decide (0 < l ∧ l ≠ RATE_LIMIT_U32_MAX) && negb getIp
                  | None => false
                  end in
      match s_responder spec with
      | Some (u, ms, rb) =>
          let r := {| r_ingress := h; r_handler := u; r_methods := ms;
                      r_terminalStyle := or_else (s_terminalStyle spec) style;
                      r_readBody := rb |} in
          Ok (Route None None None None None None (Some r) None mb bt, Some h, warn)
      | None =>
          let on (b : bool) := if b then Some h else None in
          Ok (Route None (ReadIngress <$> on (s_read spec)) (on (s_write spec))
                (on (s_echo spec)) (on (s_cookies spec)) (on (s_delete spec)) None None mb bt,
              Some h, warn)
      end
  end end end.

Fixpoint compile_routes (default_options : O) (style : option bool) (getIp : bool)
    (routes : list (list Z * RouterRouteSpec))
    : result (list (list Z * BakedRoute) * list (list Z * H) * nat) :=
  match routes with
  | [] => Ok ([], [], 0%nat)
  | (path, spec) :: routes' =>
      '(b, h, w) ← compile_route default_options style getIp spec;
      '(bs, hs, ws) ← compile_routes default_options style getIp routes';
      Ok ((path, b) :: bs,
          match h with Some h => (path, h) :: hs | None => hs end,
          ((if w : bool then 1 else 0) + ws)%nat)
  end.

Record IngressRouter := {
  routeHandlers : list (list Z * H);
  routes : list (list Z * Methods);
  matcher : PathMatcher Methods
}.

Definition createIngressRouter (default_options : O) (style : option bool) (getIp : bool)
    (table : list (list Z * RouterRouteSpec)) : result IngressRouter :=
  '(baked, compiled, _) ← compile_routes default_options style getIp table;
  rs ← buildRouteHandlers None baked;
  m ← buildPathMatcher rs;
  Ok {| routeHandlers := compiled; routes := rs; matcher := m |}.

(** ** router.ts: fetch *)

(** What [fetch] does with a request: answers by itself, calls a handler with the
    params, clones a static response, or calls a function that the methods
    object inherits from [Object.prototype]. *)
Inductive dispatch :=
  | Answer (status : Z)
  | Call (f : handler) (params : jsobj)
  | Clone (r : R)
  | CallInherited (name : list Z).

(** [methods[name]]: an own property, else a member of [Object.prototype], all
    functions but [__proto__], which is an object. *)
Inductive mlookup := Own (v : mvalue) | InheritedFunction | Other.
Definition method_get (ms : Methods) (name : list Z) : mlookup :=
  match mget name ms with
  | Some v => Own v
  | None =>
      if decide (name ∈ object_proto_names) then
        if decide (name = PROTO) then Other else InheritedFunction
      else Other
  end.

(** [pathname] is [None] when [new URL(req.url)] throws. *)
Definition fetch (router : IngressRouter) (pathname : option (list Z)) (method : list Z)
    : dispatch :=
  match pathname with
  | None => Answer 400
  | Some pathname =>
      match match_path (matcher router) pathname with
      | None => Answer 404
      | Some (methods, params) =>
          match method_get methods method with
          | Own (MFun f) => Call f params
          | InheritedFunction => CallInherited method
          | Own (MResponse r) => Clone r
          | Other =>
              match method_get methods OPTIONS with
              | Own (MFun f) => if decide (method = OPTIONS) then Call f params else Answer 405
              | _ => Answer 405
              end
          end
      end
  end.
End router.

(** ** server-error.ts: fault containment *)

Section guard.
(** Requests, and responses; [internal] is the masked 500 that
    [createServerErrorHandler] builds ([ERROR_BODIES.internal]). *)
Context {Req Resp : Type}.
Variable internal : Resp.

(** What a handler returns: a response, or a promise with its eventual outcome. *)
Inductive outcome := Now (r : Resp) | Later (p : result Resp).

Definition message (e : js_error) : list Z :=
  match e with
  | RangeError m | TypeError m | JsError _ m => js m
  end.

(** [JSON.stringify({ level, msg, error })]. *)
Definition json_field (k v : list Z) : list Z := json_string k ++ [58] ++ json_string v.
Definition log_line (e : js_error) : list Z :=
  [123] ++ join [44] [json_field (js "level") (js "error");
                      json_field (js "msg") (js "unhandled_handler_error");
                      json_field (js "error") (message e)] ++ [125].

(** The hooks; both may throw. *)
Record ServerErrorOptions := {
  onError : option (js_error → option Req → result unit);
  logger : option (list Z → result unit)
}.

(** The calls that reach a hook. *)
Inductive hook_call := CalledOnError (e : js_error) (req : option Req) | CalledLogger (line : list Z).

(** [try { hook(x) } catch {}]. *)
Definition contained (m : result unit) : unit := match m with Ok _ | Throw _ => tt end.

Definition createServerErrorHandler (opts : ServerErrorOptions) (e : js_error)
    (req : option Req) : Resp * list hook_call :=
  let on := match onError opts with
            | Some f => let _ := contained (f e req) in [CalledOnError e req]
            | None => []
            end in
  let log := match logger opts with
             | Some f =>
                 let line := log_line e in
                 let _ := contained (f line) in [CalledLogger line]
             | None => []
             end in
  (internal, on ++ log).

Definition guardRouteHandler (opts : ServerErrorOptions) (handler : Req → result outcome)
    (req : Req) : outcome * list hook_call :=
  match handler req with
  | Ok (Later (Throw e)) =>
      let '(r, calls) := createServerErrorHandler opts e (Some req) in (Later (Ok r), calls)
  | Ok out => (out, [])
  | Throw e =>
      let '(r, calls) := createServerErrorHandler opts e (Some req) in (Now r, calls)
  end.

(** A guarded handler neither throws nor rejects; an error only shows to the hooks. *)
Lemma guard_contains opts handler req :
  match guardRouteHandler opts handler req with
  | (Later (Throw _), _) => False
  | (out, calls) => handler req = Ok out ∧ calls = [] ∨
      (out = Now internal ∨ out = Later (Ok internal)) ∧
      ∃ e, calls = (createServerErrorHandler opts e (Some req)).2 ∧
           (handler req = Throw e ∨ handler req = Ok (Later (Throw e)))
  end.
Proof.
  unfold guardRouteHandler.
  destruct (handler req) as [[r|[r|e]]|e]; [by left..| |];
    (destruct (createServerErrorHandler opts e (Some req)) as [r calls] eqn:E;
     assert (r = internal) as -> by (by injection E));
    right; (split; [auto|]); exists e; rewrite E; auto.
Qed.
End guard.

(** ** What a route spec promises, method by method *)

Section promise.
Context {H F R U P N O : Type}.
Variable compile : O → result H.
Variable createNativeRoute : P → result N.
Variable default_options : O.
Notation spec := (@RouterRouteSpec F R U P O).
Notation value := (@mvalue H F R U P N).

Definition opts_of (s : spec) : BakedHandlerOptions :=
  {| o_maxBodyBytes := s_maxBodyBytes s; o_bodyTimeoutMs := s_bodyTimeoutMs s |}.

Definition when (b : bool) (v : value) : option value := if b then Some v else None.

(** The handler of method [m] for a route that has its own compiled ingress [h]. *)
Definition pipeline_method (s : spec) (h : H) (m : list Z) : option value :=
  let o := opts_of s in
  if decide (m = GET) then when (s_read s || s_cookies s) (MFun (FRead h o))
  else if decide (m = HEAD) then when (s_read s) (MFun (FHead h o))
  else if decide (m = POST) then
    or_else (when (s_echo s) (MFun (FEcho h o))) (when (s_write s) (MFun (FWrite h h o)))
  else if decide (m = PUT ∨ m = PATCH) then when (s_write s) (MFun (FWrite h h o))
  else if decide (m = DELETE) then when (s_delete s) (MFun (FDelete h o))
  else if decide (m = OPTIONS) then
    when (s_delete s || s_read s || s_cookies s || s_write s || s_echo s) (MFun (FOptions h o))
  else None.

(** A [static], [raw], [native] or [responder] spec owns the whole route, in this
    order; any other wires its own ingress. *)
Definition promised (style : option bool) (s : spec) (m : list Z) (v : option value) : Prop :=
  match s_static s, s_raw s, s_native s with
  | Some (StFactory f), _, _ => v = when (bool_decide (m = GET)) (MFun (GuardedStatic f))
  | Some (StResponse r), _, _ => v = when (bool_decide (m = GET)) (MResponse r)
  | None, Some f, _ => v = when (bool_decide (m = GET)) (MFun (GuardedRaw f))
  | None, None, Some n =>
      if decide (m ∈ default [GET] (n_methods n)) then
        ∃ nr, createNativeRoute (n_plan n) = Ok nr ∧ v = Some (MFun (GuardedNative nr n (opts_of s)))
      else v = None
  | None, None, None =>
      ∃ h, compile (default default_options (s_options s)) = Ok h ∧
      match s_responder s with
      | Some (u, ms, rb) =>
          v = when (bool_decide (m ∈ default [GET] ms))
                (MFun (GuardedResponder
                  {| r_ingress := h; r_handler := u; r_methods := ms;
                     r_terminalStyle := or_else (s_terminalStyle s) style; r_readBody := rb |}
                  (opts_of s)))
      | None => v = pipeline_method s h m
      end
  end.

Lemma mget_foldl_mset (v : value) ks (ms : list (list Z * value)) m :
  mget m (foldl (λ ms k, mset k v ms) ms ks) = if decide (m ∈ ks) then Some v else mget m ms.
Proof.
  revert ms. induction ks as [|k ks IH]; intros ms; cbn [foldl]; [done|].
  rewrite IH, mget_mset. destruct (decide (m ∈ ks)) as [Hm|Hm].
  - by rewrite decide_True by set_solver.
  - destruct (decide (m = k)) as [->|Hk]; [by rewrite decide_True by set_solver|].
    by rewrite decide_False by set_solver.
Qed.

Lemma mget_set_if {A} (x : option A) ks (v : A → value) ms m :
  mget m (set_if x ks v ms) =
    match x with Some a => if decide (m ∈ ks) then Some (v a) else mget m ms | None => mget m ms end.
Proof. destruct x; [apply mget_foldl_mset|done]. Qed.

Lemma filter_id {A} (Q : A → Prop) `{∀ x, Decision (Q x)} (l : list A) : (∀ x, Q x) → filter Q l = l.
Proof. intros HQ. induction l as [|x l IH]; [done|]. by rewrite filter_cons_True, IH. Qed.

Lemma wired_all (b : @BakedRoute H F R U P) ms :
  static b = None → wired_methods b ms = default [GET] ms.
Proof.
  intros Hs. apply filter_id. intros m [Hh _]. unfold has_static in Hh.
  rewrite Hs in Hh. apply bool_decide_eq_true in Hh. by destruct Hh.
Qed.

Definition KNOWN : list (list Z) := [GET; HEAD; POST; PUT; PATCH; DELETE; OPTIONS].

Lemma pipeline_methods (s : spec) (h : H) m ms :
  let on (b : bool) := if b then Some h else None in
  route_methods createNativeRoute None
    (Route None (ReadIngress <$> on (s_read s)) (on (s_write s)) (on (s_echo s))
       (on (s_cookies s)) (on (s_delete s)) None None (s_maxBodyBytes s) (s_bodyTimeoutMs s))
    = Ok ms →
  mget m ms = pipeline_method s h m.
Proof.
  intros on [= <-].
  destruct (decide (m ∈ KNOWN)) as [Hk|Hk].
  - unfold pipeline_method, on, opts_of. clear on.
    destruct (s_read s), (s_write s), (s_echo s), (s_cookies s), (s_delete s);
      repeat (apply elem_of_cons in Hk as [->|Hk]; [vm_compute; reflexivity|]);
      by apply elem_of_nil in Hk.
  - transitivity (@None value).
    + apply mget_None. intros Hm. apply Hk.
      assert (Forall (λ k, k ∈ KNOWN) (mkeys
        (default [] (match route_methods (F := F) (R := R) (U := U) createNativeRoute None
          (Route None (ReadIngress <$> on (s_read s)) (on (s_write s)) (on (s_echo s))
            (on (s_cookies s)) (on (s_delete s)) None None (s_maxBodyBytes s) (s_bodyTimeoutMs s))
          with Ok ms => Some ms | Throw _ => None end)))) as Hall; [|by eapply Forall_forall in Hall].
      unfold on. destruct (s_read s), (s_write s), (s_echo s), (s_cookies s), (s_delete s);
        by apply (bool_decide_unpack _); vm_compute.
    + unfold KNOWN in Hk. rewrite !not_elem_of_cons in Hk.
      destruct Hk as (?&?&?&?&?&?&?&_). unfold pipeline_method.
      rewrite !(decide_False (P := m = _)) by done.
      by rewrite (decide_False (P := m = PUT ∨ m = PATCH)) by naive_solver.
Qed.

Lemma route_promised style getIp (s : spec) b h w ms m :
  compile_route compile default_options style getIp s = Ok (b, h, w) →
  route_methods createNativeRoute None b = Ok ms →
  promised style s m (mget m ms).
Proof.
  unfold compile_route, promised. destruct (s_static s) as [[r|f]|] eqn:Es.
  { intros [= <- <- <-] [= <-]. cbn. case_decide; case_bool_decide; naive_solver. }
  { intros [= <- <- <-] [= <-]. cbn. case_decide; case_bool_decide; naive_solver. }
  destruct (s_raw s) as [f|] eqn:Er.
  { intros [= <- <- <-] [= <-]. cbn. case_decide; case_bool_decide; naive_solver. }
  destruct (s_native s) as [n|] eqn:En.
  { intros [= <- <- <-]. unfold route_methods. cbn -[decide mget foldl wired_methods GET default]. rewrite wired_all by done.
    destruct (decide (0 < zlen (default [GET] (n_methods n)))) as [Hpos|Hpos].
    - destruct (createNativeRoute (n_plan n)) as [nr|]; [|done]. cbn -[decide mget foldl GET default].
      intros [= <-]. rewrite mget_foldl_mset. case_decide; [by exists nr|done].
    - intros [= <-]. rewrite decide_False; [done|].
      destruct (default [GET] (n_methods n)); [apply not_elem_of_nil|]. zlia. }
  intros (h0 & Hc & Hb)%bind_Ok Hms. exists h0. split; [done|].
  destruct (s_responder s) as [[[u mt] rb]|]; injection Hb as <- _ _; [|by apply pipeline_methods].
  revert Hms. unfold route_methods. cbn -[decide mget foldl wired_methods GET default].
  rewrite wired_all by done. intros [= <-]. rewrite mget_foldl_mset.
  case_decide; case_bool_decide; naive_solver.
Qed.

(** The router's tables correspond entry by entry to the caller's. *)
Lemma compile_routes_ok style getIp (table : list (list Z * spec)) baked hs n :
  compile_routes compile default_options style getIp table = Ok (baked, hs, n) →
  Forall2 (λ a b, a.1 = b.1 ∧
    ∃ h w, compile_route compile default_options style getIp a.2 = Ok (b.2, h, w)) table baked.
Proof.
  revert baked hs n. induction table as [|[path s] table IH]; intros baked hs n.
  - intros [= <- _ _]. constructor.
  - cbn [compile_routes]. intros ([[b h] w] & Hb & ([[bs hs'] ws] & Hr & [= <- _ _])%bind_Ok)%bind_Ok.
    constructor; [|by eapply IH]. cbn. eauto.
Qed.

Lemma buildRouteHandlers_ok fallback baked rs :
  buildRouteHandlers (N := N) createNativeRoute fallback baked = Ok rs →
  Forall2 (λ a b, a.1 = b.1 ∧ route_methods createNativeRoute fallback a.2 = Ok b.2)
    (baked : list (list Z * @BakedRoute H F R U P)) rs.
Proof.
  revert rs. induction baked as [|[path b] baked IH]; intros rs.
  - intros [= <-]. constructor.
  - cbn [buildRouteHandlers]. intros (ms & Hms & (rest & Hr & [= <-])%bind_Ok)%bind_Ok.
    constructor; [done|by apply IH].
Qed.

(** What the router owes a request: [pathname] is [None] for a URL that does not
    parse. *)
Definition served style (table : list (list Z * spec)) (pathname : option (list Z)) (m : list Z)
    (d : @dispatch H F R U P N) : Prop :=
  match pathname with
  | None => d = Answer 400
  | Some pathname =>
      match d with
      | Answer status =>
          status = 404 ∧ unmatched table pathname ∨
          status = 405 ∧ (∃ path s params,
            selected table pathname (path, s) params ∧ promised style s m None) ∧
            (m ∈ object_proto_names → m = PROTO)
      | Call f params => ∃ path s,
          selected table pathname (path, s) params ∧ promised style s m (Some (MFun f))
      | Clone r => ∃ path s params,
          selected table pathname (path, s) params ∧ promised style s m (Some (MResponse r))
      | CallInherited n =>
          n = m ∧ m ∈ object_proto_names ∧ m ≠ PROTO ∧
          ∃ path s params, selected table pathname (path, s) params ∧ promised style s m None
      end
  end.

(** The [OPTIONS] test after a miss changes nothing. *)
Lemma dispatch_miss (ms : @Methods H F R U P N) m params :
  mget m ms = None →
  (match method_get ms OPTIONS with
   | Own (MFun f) => if decide (m = OPTIONS) then Call f params else Answer 405
   | _ => Answer 405
   end : @dispatch H F R U P N) = Answer 405.
Proof.
  intros E. unfold method_get. destruct (decide (m = OPTIONS)) as [->|Ho].
  - rewrite E. by rewrite decide_False by (vm_compute; set_solver).
  - by repeat case_match.
Qed.

(** C6. Whatever the route table and the method, the router answers a request with
    the handler that the spec of the selected route promises for its method, called
    with that route's parameters: 400 for a URL that does not parse, 404 only when
    no route accepts the path, 405 when the selected route promises nothing for the
    method, with one exception: a method that names a member of
    [Object.prototype] (other than [__proto__]) and that the route does not promise
    calls that inherited function as if it were a handler.  The table's keys are
    distinct (they are those of an object), no dynamic pattern has a [*] before its
    last segment, and the pathname has no line terminator (none has that [new URL]
    gives). *)
Theorem router_serves style getIp (table : list (list Z * spec)) router pathname m :
  NoDup table.*1 → canonical_table table → from_option plain_text True pathname →
  createIngressRouter compile createNativeRoute default_options style getIp table = Ok router →
  served style table pathname m (fetch router pathname m).
Proof.
  intros Hnd Hcan Hp Hr. unfold createIngressRouter in Hr.
  apply bind_Ok in Hr as ([[baked hs] n] & Hb & (rs & Hrs & (pm & Hpm & [= <-])%bind_Ok)%bind_Ok).
  apply compile_routes_ok in Hb. apply buildRouteHandlers_ok in Hrs.
  destruct pathname as [pathname|]; [|done]. cbn [from_option] in Hp.
  assert (Hall : Forall2 (λ a b, a.1 = b.1 ∧
    ∀ m, promised style a.2 m (mget m b.2)) table rs).
  { clear -Hb Hrs. revert rs Hrs. induction Hb as [|a b l k [Hab (h & w & Hc)] _ IH]; intros rs Hrs;
      inversion Hrs as [|? ms ? rs' [Hk Hms] Hrs']; subst; constructor; [|by apply IH].
    split; [by rewrite Hab|]. intros m. by eapply route_promised. }
  assert (Hkeys : rs.*1 = table.*1).
  { clear -Hall. induction Hall as [|a b l k [Hab _] _ IH]; [done|]. cbn. by rewrite IH, Hab. }
  pose proof (match_path_spec rs pm pathname) as Hmatch. unfold canonical_table in *.
  rewrite Hkeys in Hmatch. specialize (Hmatch Hnd Hcan Hp Hpm).
  unfold served, fetch. cbn [matcher].
  destruct (match_path pm pathname) as [[ms params]|].
  - destruct Hmatch as [path Hsel].
    destruct (selected_Forall2 (λ s ms, ∀ m, promised style s m (mget m ms)) _ _ _ _ _ _ Hall Hsel)
      as (s & Hs & Hpr).
    specialize (Hpr m) as Hprm.
    unfold method_get at 1. destruct (mget m ms) as [[f|r]|] eqn:E; [by eauto..|].
    destruct (decide (m ∈ object_proto_names)) as [Hin|Hin]; [destruct (decide (m = PROTO)) as [Hq|Hq]|].
    + rewrite dispatch_miss by done. right. eauto 10.
    + eauto 10.
    + rewrite dispatch_miss by done. right. split; [done|]. split; [eauto|done].
  - left. split; [done|]. eapply unmatched_Forall2; [|exact Hmatch].
    eapply Forall2_impl; [exact Hall|]. by intros a b [? _].
Qed.

(** Two gaps of the dispatch, on a route whose responder does not list the
    method: a preflight is answered 405, though the route has a compiled ingress
    with its CORS policy, and a request method that names a member of
    [Object.prototype] calls that member as if it were a handler. *)
Theorem responder_route_gaps style getIp path (s : spec) u mt rb router :
  s_static s = None → s_raw s = None → s_native s = None → s_responder s = Some (u, mt, rb) →
  is_dynamic path = false →
  createIngressRouter compile createNativeRoute default_options style getIp [(path, s)] = Ok router →
  is_Some (mget path (routeHandlers router)) ∧
  (OPTIONS ∉ default [GET] mt → fetch router (Some path) OPTIONS = Answer 405) ∧
  (∀ m, m ∈ object_proto_names → m ≠ PROTO → m ∉ default [GET] mt →
     fetch router (Some path) m = CallInherited m).
Proof.
  intros Es Er En Eu Hd Hr. unfold createIngressRouter in Hr. cbn [compile_routes] in Hr.
  apply bind_Ok in Hr as ([[baked hs] n] & Hb & (rs & Hrs & (pm & Hpm & [= <-])%bind_Ok)%bind_Ok).
  apply bind_Ok in Hb as ([[b h] w] & Hb & [= <- <- _]). cbn in Hrs.
  apply bind_Ok in Hrs as (ms & Hms & [= <-]).
  pose proof (λ m, route_promised style getIp s b h w ms m Hb Hms) as Hpr.
  unfold compile_route in Hb. rewrite Es, Er, En in Hb.
  apply bind_Ok in Hb as (h0 & Hc & Hb). rewrite Eu in Hb. injection Hb as _ <- _.
  assert (Hget : ∀ m, m ∉ default [GET] mt → mget m ms = None).
  { intros m Hm. specialize (Hpr m). unfold promised in Hpr. rewrite Es, Er, En in Hpr.
    destruct Hpr as (h1 & _ & Hpr). rewrite Eu in Hpr. rewrite Hpr.
    by rewrite bool_decide_eq_false_2. }
  cbn in Hpm. rewrite Hd in Hpm. injection Hpm as <-.
  assert (Hmatch : match_path {| exact := [(path, ms)]; dynamic := [] |} path = Some (ms, empty_obj)).
  { unfold match_path. cbn [exact mget]. by rewrite decide_True. }
  split_and!.
  - cbn. rewrite decide_True by done. by eexists.
  - intros Ho. unfold fetch. cbn [matcher]. rewrite Hmatch. unfold method_get.
    rewrite (Hget OPTIONS Ho). rewrite decide_False by (vm_compute; set_solver). done.
  - intros m Hm Hp Hn. unfold fetch. cbn [matcher]. rewrite Hmatch. unfold method_get.
    rewrite (Hget m Hn). by rewrite decide_True, decide_False.
Qed.
End promise.

(** ** Witnesses *)

Definition plain_spec : @RouterRouteSpec Z Z Z Z Z :=
  {| s_options := None; s_limit := None; s_read := false; s_write := false; s_echo := false;
     s_cookies := false; s_delete := false; s_responder := None; s_native := None;
     s_terminalStyle := None; s_static := None; s_raw := None; s_maxBodyBytes := None;
     s_bodyTimeoutMs := None |}.
Definition read_write_spec : @RouterRouteSpec Z Z Z Z Z :=
  {| s_options := Some 7; s_limit := None; s_read := true; s_write := true; s_echo := false;
     s_cookies := false; s_delete := false; s_responder := None; s_native := None;
     s_terminalStyle := None; s_static := None; s_raw := None; s_maxBodyBytes := Some 100;
     s_bodyTimeoutMs := None |}.
Definition responder_spec : @RouterRouteSpec Z Z Z Z Z :=
  {| s_options := Some 8; s_limit := None; s_read := false; s_write := false; s_echo := false;
     s_cookies := false; s_delete := false; s_responder := Some (5, None, None); s_native := None;
     s_terminalStyle := None; s_static := None; s_raw := None; s_maxBodyBytes := None;
     s_bodyTimeoutMs := None |}.
Definition sample_table : list (list Z * @RouterRouteSpec Z Z Z Z Z) :=
  [(js "/users/:id", read_write_spec); (js "/me", responder_spec)].

Definition sample_router : result (@IngressRouter Z Z Z Z Z Z) :=
  createIngressRouter (λ o, Ok (o * 10)) Ok 0 None false sample_table.

Lemma router_serves_witness :
  ∃ router, sample_router = Ok router ∧
    fetch router (Some (js "/users/3")) PUT =
      Call (FWrite 70 70 {| o_maxBodyBytes := Some 100; o_bodyTimeoutMs := None |})
           (Obj [(js "id", JStr (js "3"))] None) ∧
    fetch router (Some (js "/me")) DELETE = Answer 405 ∧
    fetch router (Some (js "/me")) (js "constructor") = CallInherited (js "constructor") ∧
    ∀ m, served (λ o, Ok (o * 10)) Ok 0 None sample_table (Some (js "/users/3")) m
           (fetch router (Some (js "/users/3")) m).
Proof.
  eexists. split; [reflexivity|]. split; [by vm_compute|]. split; [by vm_compute|].
  split; [by vm_compute|]. intros m.
  eapply router_serves with (getIp := false).
  - by apply (bool_decide_unpack _); vm_compute.
  - repeat (apply Forall_cons; split; [intros _; by apply (bool_decide_unpack _); vm_compute|]).
    apply Forall_nil. done.
  - by repeat constructor.
  - reflexivity.
Defined.

Lemma responder_route_gaps_witness :
  ∃ router, createIngressRouter (λ o : Z, Ok (o * 10)) (@Ok Z) 0 None false
              [(js "/me", responder_spec)] = Ok router ∧
    is_Some (mget (js "/me") (routeHandlers router)) ∧
    fetch router (Some (js "/me")) OPTIONS = Answer 405 ∧
    fetch router (Some (js "/me")) (js "constructor") = CallInherited (js "constructor").
Proof.
  eexists. split; [reflexivity|].
  destruct (responder_route_gaps (λ o : Z, Ok (o * 10)) (@Ok Z) 0 None false (js "/me")
    responder_spec 5 None None _ eq_refl eq_refl eq_refl eq_refl eq_refl eq_refl) as (H1 & H2 & H3).
  split; [exact H1|].
  split; [apply H2|apply H3]; by apply (bool_decide_unpack _); vm_compute.
Defined.
