(* ===== verification/Body.v ===== *)
(** Request-body reading (src/ingress/body.ts, src/ingress/abort.ts): the size
    guard, the shared deadline watchdog and the abort races, for any number of
    reads in flight.

    An async read is the state it has between two resumptions.  The host (the
    transport that settles the read promise, the client that aborts, the clock and the
    interval timer) moves in steps of its own, and a continuation that became ready
    runs as a separate step, so theorems hold for every interleaving. *)

From Stdlib Require Import QArith.
From S2P Require Import Prelude.
From S2P Require Import Utf8.
Open Scope Z_scope.

(** ** Data *)

(** The errors of the module by [err.code]; [Other] is one of the transport. *)
Inductive body_error := TooLarge | TimedOut | Aborted | Other (e : js_error).

Definition ABORT_CODE : list Z := js "REQUEST_ABORTED".
Definition err_code (e : body_error) : option (list Z) :=
  match e with
  | TooLarge => Some (js "BODY_TOO_LARGE")
  | TimedOut => Some (js "REQUEST_TIMEOUT")
  | Aborted => Some ABORT_CODE
  | Other _ => None
  end.

Definition isAbortError (e : body_error) : bool := bool_decide (err_code e = Some ABORT_CODE).

(** What [Bun.peek(req.bytes())] gives: the promise if it is pending, else its
    value or, for a rejected promise, the error object itself. *)
Inductive peeked := PeekPending | PeekValue (b : list Z) | PeekError (e : js_error).

(** A value returned as the body: bytes, or an error object taken for bytes. *)
Inductive body_value := VBytes (b : list Z) | VErrorObject (e : js_error).

(** [v.byteLength > maxBytes]: [undefined > n] is false. *)
Definition longer_than (v : body_value) (maxBytes : Z) : bool :=
  match v with VBytes b => bool_decide (maxBytes < zlen b) | VErrorObject _ => false end.

Record Request := {
  q_content_length : option (list Z);
  q_signal : option bool;       (* [req.signal?.aborted] *)
  q_bytes_fn : bool;            (* [typeof req.bytes === 'function'] *)
  q_peek : peeked;
  q_has_body : bool             (* [req.body !== null] *)
}.

(** A [WatchdogEntry]; [rejected] tells whether its promise was rejected. *)
Record WatchdogEntry := Entry { deadlineWall : Z; settled : bool; rejected : bool }.

(** What won a race. *)
Inductive won_by :=
  | WonValue (b : list Z)             (* the whole body, declared path *)
  | WonChunk (c : option (list Z))    (* [{ done: false, value }] *)
  | WonDone
  | WonError (e : body_error).

Inductive phase :=
  | AwaitBody                                     (* await raceRead(bytes, guards) *)
  | AwaitChunk (chunks : list (list Z)) (total : Z) (* await raceRead(reader.read(), guards) *)
  | AwaitCancel (e : body_error)                  (* await reader.cancel() *)
  | Finished (r : body_value + body_error).

(** The arguments of a read and when it started. *)
Record read_cfg := {
  maxBytes : Z; guard : bool; deadline : Z; started : Z; declaredLen : option Q
}.

(** A read; [got], [ended] and [failed] record what the transport supplied. *)
Record read := Read {
  cfg : read_cfg;
  ph : phase;
  won : option won_by;            (* the race is decided, the continuation not run *)
  entry : option WatchdogEntry;
  signal : option bool;
  listening : bool;               (* an abort listener is registered *)
  abort_rejected : bool;
  reading : bool;                 (* the read promise is pending *)
  got : list (list Z);
  ended : bool;
  failed : option js_error
}.

Record state := State {
  clock : Z;
  inflight : list nat;            (* the watchdog's Set, as indices of reads *)
  timer : bool;                   (* its interval runs *)
  reads : list read
}.

Definition empty_state : state := State 0 [] false [].

Definition put (i : nat) (r : read) (s : state) : state :=
  State (clock s) (inflight s) (timer s) (<[i := r]> (reads s)).

(** ** The watchdog *)

(** [track(entry)]. *)
Definition track (i : nat) (s : state) : state :=
  State (clock s) (inflight s ++ [i]) true (reads s).

(** [inflight.delete(entry)] and [if (inflight.size === 0) clearInterval]. *)
Definition drop_entry (i : nat) (s : state) : state :=
  let l := filter (λ j, j ≠ i) (inflight s) in
  State (clock s) l (timer s && bool_decide (l ≠ [])) (reads s).

(** A promise of the race settles: the first one decides it. *)
Definition decide_race (w : won_by) (r : read) : read :=
  match won r with
  | Some _ => r
  | None => Read (cfg r) (ph r) (Some w) (entry r) (signal r) (listening r) (abort_rejected r)
              (reading r) (got r) (ended r) (failed r)
  end.

Definition set_entry (e : option WatchdogEntry) (r : read) : read :=
  Read (cfg r) (ph r) (won r) e (signal r) (listening r) (abort_rejected r) (reading r) (got r)
    (ended r) (failed r).

(** The body of the loop of [sweep] for one entry. *)
Definition sweep_one (now : Z) (r : read) : read * bool :=
  match entry r with
  | Some e =>
      if settled e then (r, false)
      else if decide (deadlineWall e ≤ now) then
        (decide_race (WonError TimedOut) (set_entry (Some (Entry (deadlineWall e) true true)) r), false)
      else (r, true)
  | None => (r, true)
  end.

(** [for (const entry of inflight)]. *)
Fixpoint sweep_entries (l : list nat) (s : state) : state :=
  match l with
  | [] => s
  | i :: l' =>
      match reads s !! i with
      | Some r =>
          let '(r', keep) := sweep_one (clock s) r in
          let s := put i r' s in
          sweep_entries l' (if keep then s else
            State (clock s) (filter (λ j, j ≠ i) (inflight s)) (timer s) (reads s))
      | None => sweep_entries l' s
      end
  end.

Definition sweep (s : state) : state :=
  let s := sweep_entries (inflight s) s in
  State (clock s) (inflight s) (timer s && bool_decide (inflight s ≠ [])) (reads s).

(** ** Starting a read *)

Section body.
(** [Number(s)] when it is finite, and whether the runtime is Bun. *)
Variable Number : list Z → option Q.
Variable isBun : bool.

(** [peekBufferedBody]: [None] is [false]. *)
Definition peekBufferedBody (q : Request) : option peeked :=
  if negb (q_bytes_fn q) then None
  else if negb isBun then Some PeekPending
  else Some (q_peek q).

Definition done_read (c : read_cfg) (q : Request) (res : body_value + body_error)
    (got : list (list Z)) (ended : bool) (failed : option js_error) : read :=
  Read c (Finished res) None None (q_signal q) false false false got ended failed.

(** [createAbortGuard(req.signal)] and, with a deadline, [createDeadline]; then the
    first [raceRead]. *)
Definition racing_read (c : read_cfg) (q : Request) (p : phase) : read :=
  let aborted := bool_decide (q_signal q = Some true) in
  Read c p (if aborted then Some (WonError Aborted) else None)
    (if decide (0 < deadline c) then Some (Entry (started c + deadline c) false false) else None)
    (q_signal q) (bool_decide (q_signal q = Some false)) aborted true [] false None.

(** The synchronous part of [readBodyWithLimit]; the flag tells whether an entry is
    to be tracked. *)
Definition start_read (now : Z) (q : Request) (maxBytes : Z) (guard : bool)
    (timeoutMs : option Z) : read * bool :=
  let deadline := match timeoutMs with Some t => if decide (0 < t) then t else 0 | None => 0 end in
  let declared := h ← q_content_length q; Number h in
  let c := {| maxBytes := maxBytes; guard := guard; deadline := deadline; started := now;
              declaredLen := declared |} in
  if decide (q_signal q = Some true) then (done_read c q (inr Aborted) [] false None, false)
  else
    match declared with
    | Some declaredLen =>
        if guard && negb (Qle_bool declaredLen (inject_Z maxBytes)) then
          (done_read c q (inr TooLarge) [] false None, false)
        else
          let finish v got failed :=
            if guard && longer_than v maxBytes then (done_read c q (inr TooLarge) got true failed, false)
            else (done_read c q (inl v) got true failed, false) in
          match peekBufferedBody q with
          | Some (PeekValue b) => finish (VBytes b) [b] None
          | Some (PeekError e) => finish (VErrorObject e) [] (Some e)
          | Some PeekPending | None => (racing_read c q AwaitBody, bool_decide (0 < deadline))
          end
    | None =>
        if negb (q_has_body q) then (done_read c q (inl (VBytes [])) [] true None, false)
        else (racing_read c q (AwaitChunk [] 0), bool_decide (0 < deadline))
    end.

(** [readBodyWithLimit(req, ...)] up to its first [await]. *)
Definition readBodyWithLimit (q : Request) (maxBytes : Z) (guard : bool) (timeoutMs : option Z)
    (s : state) : state :=
  let '(r, tracked) := start_read (clock s) q maxBytes guard timeoutMs in
  let i := length (reads s) in
  let s := State (clock s) (inflight s) (timer s) (reads s ++ [r]) in
  if tracked then track i s else s.

(** [readRequestBodyOnce]. *)
Definition readRequestBodyOnce (q : Request) (maxBytes : Z) (guard : bool) (timeoutMs : option Z)
    (s : state) : state :=
  if negb (q_has_body q) then
    let c := {| maxBytes := maxBytes; guard := guard; deadline := 0; started := clock s;
                declaredLen := None |} in
    State (clock s) (inflight s) (timer s) (reads s ++ [done_read c q (inl (VBytes [])) [] true None])
  else readBodyWithLimit q maxBytes guard timeoutMs s.

(** ** Continuations *)

(** [concatUint8Arrays(chunks, total)]. *)
Definition concatUint8Arrays (chunks : list (list Z)) : list Z :=
  match chunks with
  | [] => []
  | [c] => c
  | _ => foldl (λ out c, out ++ c) [] chunks
  end.

(** The [finally] block's [dl?.cancel(); abort?.cancel()], and the phase after it. *)
Definition leave (p : phase) (r : read) : read :=
  Read (cfg r) p None
    ((λ e, Entry (deadlineWall e) true (rejected e)) <$> entry r)
    (signal r) false (abort_rejected r) (reading r) (got r) (ended r) (failed r).

(** How the read promise settles. *)
Inductive supplied := SBody (b : list Z) | SChunk (c : option (list Z)) | SDone | SFail (e : js_error).

(** The read promise of [r] settles; [None] when this cannot happen. *)
Definition supply (o : supplied) (r : read) : option read :=
  if negb (reading r) then None
  else
    let after w got ended failed :=
      Some (decide_race w (Read (cfg r) (ph r) (won r) (entry r) (signal r) (listening r)
        (abort_rejected r) false got ended failed)) in
    match ph r, o with
    | AwaitBody, SBody b => after (WonValue b) (got r ++ [b]) true (failed r)
    | AwaitChunk _ _, SChunk (Some v) => after (WonChunk (Some v)) (got r ++ [v]) (ended r) (failed r)
    | AwaitChunk _ _, SChunk None => after (WonChunk None) (got r) (ended r) (failed r)
    | AwaitChunk _ _, SDone => after WonDone (got r) true (failed r)
    | (AwaitBody | AwaitChunk _ _), SFail e =>
        after (WonError (Other e)) (got r) (ended r) (Some e)
    | _, _ => None
    end.

(** The guards of a new race in their order: the deadline, then the abort. *)
Definition guards_decide (r : read) : read :=
  let timed := match entry r with Some e => rejected e | None => false end in
  let r := if timed then decide_race (WonError TimedOut) r else r in
  if abort_rejected r then decide_race (WonError Aborted) r else r.

(** [raceRead(reader.read(), guards)] again.  The read comes first among the racers:
    if its promise is settled at once ([ready]: a queued chunk, the end or an error of
    the stream), it wins; otherwise a guard that was rejected meanwhile does. *)
Definition race_again (p : phase) (ready : option supplied) (r : read) : read :=
  let r0 := Read (cfg r) p None (entry r) (signal r) (listening r) (abort_rejected r) true (got r)
              (ended r) (failed r) in
  guards_decide (default r0 (o ← ready; supply o r0)).

(** The code after an [await raceRead(...)] up to the next one, and whether the
    [finally] block ran; [ready] is what a further read of the stream finds. *)
Definition resume_read (ready : option supplied) (r : read) : read * bool :=
  let c := cfg r in
  match ph r, won r with
  | AwaitBody, Some (WonValue b) =>
      (leave (Finished
        (if decide (signal r = Some true) then inr Aborted
         else if guard c && longer_than (VBytes b) (maxBytes c) then inr TooLarge
         else inl (VBytes b))) r, true)
  | AwaitBody, Some (WonError e) => (leave (Finished (inr e)) r, true)
  | AwaitChunk chunks total, Some WonDone =>
      (leave (Finished (inl (VBytes (concatUint8Arrays chunks)))) r, true)
  | AwaitChunk chunks total, Some (WonChunk None) => (race_again (AwaitChunk chunks total) ready r, false)
  | AwaitChunk chunks total, Some (WonChunk (Some v)) =>
      let total := total + zlen v in
      if guard c && bool_decide (maxBytes c < total) then (leave (AwaitCancel TooLarge) r, true)
      else (race_again (AwaitChunk (chunks ++ [v]) total) ready r, false)
  | AwaitChunk _ _, Some (WonError e) => (leave (AwaitCancel e) r, true)
  | _, _ => (r, false)
  end.

Definition resume (i : nat) (ready : option supplied) (s : state) : state :=
  match reads s !! i with
  | Some r =>
      let '(r', finally) := resume_read ready r in
      let s := put i r' s in
      if finally then drop_entry i s else s
  | None => s
  end.

(** ** Steps *)

(** The client disconnects: the signal aborts and the listener, if still there,
    rejects and removes itself. *)
Definition client_abort (r : read) : option read :=
  match signal r with
  | Some false =>
      let r' := Read (cfg r) (ph r) (won r) (entry r) (Some true) false
                  (abort_rejected r || listening r) (reading r) (got r) (ended r) (failed r) in
      Some (if listening r then decide_race (WonError Aborted) r' else r')
  | _ => None
  end.

Inductive event :=
  | Start (q : Request) (maxBytes : Z) (guard : bool) (timeoutMs : option Z)
  | StartOnce (q : Request) (maxBytes : Z) (guard : bool) (timeoutMs : option Z)
  | Supply (i : nat) (o : supplied)
  | ClientAbort (i : nat)
  | Elapse (ms : Z)
  | Sweep
  | Resume (i : nat) (ready : option supplied)
  | Cancelled (i : nat).

Definition step (s : state) (e : event) : option state :=
  match e with
  | Start q m g t => Some (readBodyWithLimit q m g t s)
  | StartOnce q m g t => Some (readRequestBodyOnce q m g t s)
  | Supply i o => r ← reads s !! i; r' ← supply o r; Some (put i r' s)
  | ClientAbort i => r ← reads s !! i; r' ← client_abort r; Some (put i r' s)
  | Elapse ms =>
      if decide (0 ≤ ms) then Some (State (clock s + ms) (inflight s) (timer s) (reads s)) else None
  | Sweep => if timer s then Some (sweep s) else None
  | Resume i ready =>
      r ← reads s !! i;
      match won r with Some _ => Some (resume i ready s) | None => None end
  | Cancelled i =>
      r ← reads s !! i;
      match ph r with
      | AwaitCancel e =>
          Some (put i (Read (cfg r) (Finished (inr e)) (won r) (entry r) (signal r) (listening r)
                  (abort_rejected r) (reading r) (got r) (ended r) (failed r)) s)
      | _ => None
      end
  end.

(** States reachable by any sequence of steps. *)
Inductive reach : state → Prop :=
  | reach_init : reach empty_state
  | reach_step s e s' : reach s → step s e = Some s' → reach s'.
End body.

(** ** What a read promises *)

(** Why a read may fail, given its arguments, its signal and what the transport
    supplied. *)
Definition reason (now : Z) (c : read_cfg) (sg : option bool) (g : list (list Z))
    (fl : option js_error) (e : body_error) : Prop :=
  match e with
  | TooLarge => guard c = true ∧
      ((∃ q, declaredLen c = Some q ∧ Qlt (inject_Z (maxBytes c)) q) ∨
       maxBytes c < zlen (mjoin g))
  | TimedOut => 0 < deadline c ∧ started c + deadline c ≤ now
  | Aborted => sg = Some true
  | Other x => fl = Some x
  end.
Definition reason_of (now : Z) (r : read) : body_error → Prop :=
  reason now (cfg r) (signal r) (got r) (failed r).

(** The errors of the two guards. *)
Definition guard_error (e : body_error) : Prop :=
  match e with TimedOut | Aborted => True | _ => False end.

(** A finished read: the whole body as supplied and within the guard, or an error
    with its reason; an error object only where the transport had failed. *)
Definition outcome_ok (now : Z) (r : read) (res : body_value + body_error) : Prop :=
  match res with
  | inl (VBytes b) =>
      ended r = true ∧ b = mjoin (got r) ∧ (guard (cfg r) = true → zlen b ≤ Z.max 0 (maxBytes (cfg r)))
  | inl (VErrorObject e) => failed r = Some e
  | inr e => reason_of now r e
  end.

Definition racing (r : read) : bool :=
  match ph r with AwaitBody | AwaitChunk _ _ => true | _ => false end.

(** The bytes a read keeps. *)
Definition held (r : read) : list Z :=
  match ph r with AwaitChunk chunks _ => mjoin chunks | _ => [] end.

(** The chunk that won the race, if the race was won by one. *)
Definition pending_chunk (r : read) : list (list Z) :=
  match won r with Some (WonChunk (Some v)) => [v] | _ => [] end.

Definition entry_ok (now : Z) (r : read) : Prop :=
  if racing r then
    match entry r with
    | None => deadline (cfg r) = 0
    | Some e => 0 < deadline (cfg r) ∧ deadlineWall e = started (cfg r) + deadline (cfg r) ∧
        settled e = rejected e ∧ (rejected e = true → deadlineWall e ≤ now ∧ is_Some (won r))
    end
  else match entry r with None => True | Some e => settled e = true end.

Definition listener_ok (r : read) : Prop :=
  if racing r then
    listening r = bool_decide (signal r = Some false) ∧
    (abort_rejected r = true → signal r = Some true) ∧
    (signal r = Some true → abort_rejected r = true ∧ is_Some (won r))
  else listening r = false.

Definition phase_ok (now : Z) (r : read) : Prop :=
  match ph r with
  | AwaitBody =>
      match won r with
      | None => reading r = true ∧ got r = []
      | Some (WonValue b) => reading r = false ∧ got r = [b] ∧ ended r = true
      | Some (WonError e) => reason_of now r e ∧ (reading r = true → guard_error e ∧ got r = [])
      | _ => False
      end
  | AwaitChunk chunks total =>
      total = zlen (mjoin chunks) ∧ (guard (cfg r) = true → total ≤ Z.max 0 (maxBytes (cfg r))) ∧
      (∃ l, got r = chunks ++ l ∧ (reading r = true → l = []) ∧
        match won r with
        | None => l = []
        | Some (WonChunk (Some v)) => l = [v]
        | Some (WonChunk None) => l = [] ∧ reading r = false
        | Some WonDone => l = [] ∧ reading r = false ∧ ended r = true
        | Some (WonError e) => reason_of now r e ∧ (reading r = true → guard_error e)
        | Some (WonValue _) => False
        end) ∧
      (won r = None → reading r = true)
  | AwaitCancel e => reason_of now r e
  | Finished res => outcome_ok now r res
  end.

Record read_ok (now : Z) (r : read) : Prop := {
  ok_entry : entry_ok now r;
  ok_listener : listener_ok r;
  ok_phase : phase_ok now r
}.

(** An entry the watchdog must sweep. *)
Definition pending_entry (r : read) : bool :=
  match entry r with Some e => negb (settled e) | None => false end.

Record Inv (s : state) : Prop := {
  inv_nodup : NoDup (inflight s);
  inv_timer : timer s = bool_decide (inflight s ≠ []);
  inv_inflight : ∀ i, i ∈ inflight s ↔ ∃ r, reads s !! i = Some r ∧ pending_entry r = true;
  inv_reads : ∀ i r, reads s !! i = Some r → read_ok (clock s) r
}.

(** ** Preservation, read by read *)

Lemma reason_later now now' c sg g fl e :
  now ≤ now' → reason now c sg g fl e → reason now' c sg g fl e.
Proof. destruct e; cbn; try done. lia. Qed.

Lemma read_ok_later now now' r : now ≤ now' → read_ok now r → read_ok now' r.
Proof.
  intros Hn [He Hl Hp]. split; [|done|].
  - revert He. unfold entry_ok. destruct (racing r), (entry r); naive_solver lia.
  - revert Hp. unfold phase_ok, reason_of. pose proof (reason_later now now') as H.
    destruct (ph r) as [|chunks total|e|[[b|x]|e]]; cbn; [|  |by apply H|done|done|by apply H].
    + destruct (won r) as [[]|]; try done. intros [? ?]. split; [by apply H|done].
    + intros (? & ? & (l & ? & ? & Hw) & ?). split_and!; [done..| |done]. exists l.
      split_and!; [done..|]. destruct (won r) as [[]|]; try done.
      destruct Hw. split; [by apply H|done].
Qed.

Lemma mjoin_snoc {A} (l : list (list A)) x : mjoin (l ++ [x]) = mjoin l ++ x.
Proof. rewrite join_app. cbn. by rewrite app_nil_r. Qed.

Lemma reason_more now c sg g x fl e :
  reason now c sg g fl e → reason now c sg (g ++ x) fl e.
Proof.
  destruct e; cbn; try done. intros [Hg [Hq|Hl]]; split; auto. right.
  rewrite join_app. zlia.
Qed.

Lemma guard_reason now c sg g g' fl fl' e :
  guard_error e → reason now c sg g fl e → reason now c sg g' fl' e.
Proof. by destruct e. Qed.

Lemma entry_ok_won now r r' :
  cfg r' = cfg r → racing r' = racing r → entry r' = entry r →
  (is_Some (won r) → is_Some (won r')) → entry_ok now r → entry_ok now r'.
Proof.
  intros Hc Hr He Hw. unfold entry_ok. rewrite Hr, He, Hc.
  destruct (racing r), (entry r); try done. intros (? & ? & ? & H). naive_solver.
Qed.

Lemma listener_ok_won r r' :
  racing r' = racing r → signal r' = signal r → listening r' = listening r →
  abort_rejected r' = abort_rejected r →
  (is_Some (won r) → is_Some (won r')) → listener_ok r → listener_ok r'.
Proof.
  intros Hr Hs Hl Ha Hw. unfold listener_ok. rewrite Hr, Hs, Hl, Ha.
  destruct (racing r); [|done]. naive_solver.
Qed.

Lemma supply_ok now o r r' :
  read_ok now r → supply o r = Some r' → read_ok now r' ∧ entry r' = entry r.
Proof.
  intros [He Hl Hp] Hs. destruct r as [c p w en sg li ar rd g ed fl].
  unfold supply in Hs. cbn in Hs. destruct rd; [|done]. cbn in Hs.
  destruct p as [|chunks total|e|res], o as [b|v| |x]; try (destruct v as [v|]); try done;
    injection Hs as <-;
    (split; [split|by destruct w];
      [revert He; apply entry_ok_won|revert Hl; apply listener_ok_won|];
      try (by destruct w)).
  all: unfold phase_ok, reason_of in *; cbn in *.
  - destruct w as [[b'|v'| |e']|]; cbn; [by destruct Hp|done|done| |by destruct Hp as [_ ->]].
    destruct Hp as [Hp Hg]; destruct Hg; [done|]. split; [by eapply guard_reason|done].
  - destruct w as [[b'|v'| |e']|]; cbn; [by destruct Hp|done|done| |by destruct Hp as [_ ->]].
    destruct Hp as [Hp Hg]; destruct Hg; [done|]. split; [by eapply guard_reason|done].
  - destruct Hp as (Ht & Hm & (l & -> & Hl' & Hw) & Hr). rewrite (Hl' eq_refl), app_nil_r in *.
    destruct w as [[b'|[v'|]| |e']|]; cbn; try done; try (by destruct Hw as (? & ? & ?) || by destruct Hw);
      (split; [done|split; [done|split; [|done]]]); exists [v]; rewrite ?app_nil_r; (split; [done|split; [done|]]); try done.
    destruct Hw as [Hw Hg]. split; [|done]. eapply guard_reason; [by apply Hg|exact Hw].
  - destruct Hp as (Ht & Hm & (l & -> & Hl' & Hw) & Hr). rewrite (Hl' eq_refl), app_nil_r in *.
    destruct w as [[b'|[v'|]| |e']|]; cbn; try done; try (by destruct Hw as (? & ? & ?) || by destruct Hw);
      (split; [done|split; [done|split; [|done]]]); exists []; rewrite ?app_nil_r; (split; [done|split; [done|]]); try done.
    destruct Hw as [Hw Hg]. split; [|done]. eapply guard_reason; [by apply Hg|exact Hw].
  - destruct Hp as (Ht & Hm & (l & -> & Hl' & Hw) & Hr). rewrite (Hl' eq_refl), app_nil_r in *.
    destruct w as [[b'|[v'|]| |e']|]; cbn; try done; try (by destruct Hw as (? & ? & ?) || by destruct Hw);
      (split; [done|split; [done|split; [|done]]]); exists []; rewrite ?app_nil_r; (split; [done|split; [done|]]); try done.
    destruct Hw as [Hw Hg]. split; [|done]. eapply guard_reason; [by apply Hg|exact Hw].
  - destruct Hp as (Ht & Hm & (l & -> & Hl' & Hw) & Hr). rewrite (Hl' eq_refl), app_nil_r in *.
    destruct w as [[b'|[v'|]| |e']|]; cbn; try done; try (by destruct Hw as (? & ? & ?) || by destruct Hw);
      (split; [done|split; [done|split; [|done]]]); exists []; rewrite ?app_nil_r; (split; [done|split; [done|]]); try done.
    destruct Hw as [Hw Hg]. split; [|done]. eapply guard_reason; [by apply Hg|exact Hw].
Qed.

Lemma client_abort_ok now r r' :
  read_ok now r → client_abort r = Some r' → read_ok now r' ∧ entry r' = entry r.
Proof.
  intros [He Hl Hp] Hs. destruct r as [c p w en sg li ar rd g ed fl].
  unfold client_abort in Hs. cbn in Hs. destruct sg as [[]|]; try done. injection Hs as <-.
  unfold entry_ok, listener_ok, phase_ok, reason_of, racing in *. cbn in *.
  assert (Hre : ∀ e, reason now c (Some false) g fl e → reason now c (Some true) g fl e) by by intros [].
  split; [|by destruct li, w].
  destruct p as [|chunks total|e|res].
  - destruct Hl as (-> & Hl1 & Hl2). cbn.
    split; cbn; unfold entry_ok, listener_ok, phase_ok, reason_of; cbn.
    + destruct w; cbn; [exact He|]. destruct en; naive_solver.
    + rewrite orb_true_r. destruct w; cbn; naive_solver.
    + destruct w as [[b|v| |e]|]; cbn; [done..| |].
      * destruct Hp as [Hr Hg]. split; [auto|done].
      * destruct Hp as [-> ->]. done.
  - destruct Hl as (-> & Hl1 & Hl2). cbn.
    split; cbn; unfold entry_ok, listener_ok, phase_ok, reason_of; cbn.
    + destruct w; cbn; [exact He|]. destruct en; naive_solver.
    + rewrite orb_true_r. destruct w; cbn; naive_solver.
    + destruct Hp as (Ht & Hm & (l & Hgot & Hl' & Hw) & Hr).
      destruct w as [[b|[v|]| |e]|]; cbn; (split; [done|split; [done|split; [|done]]]); exists l;
        (split; [done|split; [done|]]); try done.
      destruct Hw as [Hw Hg]. split; [auto|done].
  - subst li. cbn. split; cbn; unfold entry_ok, listener_ok, phase_ok, reason_of; cbn; auto.
  - subst li. cbn. split; cbn; unfold entry_ok, listener_ok, phase_ok, reason_of; cbn; auto.
    destruct res as [[b|x]|e]; [done..|]. unfold outcome_ok, reason_of in *. cbn in *. auto.
Qed.

Lemma sweep_one_ok now r :
  read_ok now r → pending_entry r = true →
  read_ok now (sweep_one now r).1 ∧ pending_entry (sweep_one now r).1 = (sweep_one now r).2.
Proof.
  intros [He Hl Hp] Hpe. destruct r as [c p w en sg li ar rd g ed fl].
  unfold pending_entry, sweep_one in *. cbn in *. destruct en as [[wall st rj]|]; [|done].
  cbn in *. destruct st; [done|]. case_decide as Hw; [|done]. cbn.
  unfold entry_ok, listener_ok, phase_ok, reason_of, racing in *. cbn in *.
  destruct p as [|chunks total|e|res]; [| |done..].
  - destruct He as (Hd & -> & <- & _). split; [|by destruct w]. split.
    + by destruct w.
    + destruct w; cbn; naive_solver.
    + destruct w as [[b|v| |e]|]; cbn; [done..|]. unfold phase_ok, reason_of. cbn. naive_solver.
  - destruct He as (Hd & -> & <- & _). split; [|by destruct w]. split.
    + by destruct w.
    + destruct w; cbn; naive_solver.
    + destruct w as [[b|v| |e]|]; cbn; [done..|]. unfold phase_ok, reason_of. cbn.
      destruct Hp as (Ht & Hm & (l & Hgot & Hl' & Hw') & Hr).
      split; [done|split; [done|split; [|done]]]. by exists l.
Qed.

Lemma concat_foldl (acc : list Z) chunks : foldl (λ out c, out ++ c) acc chunks = acc ++ mjoin chunks.
Proof.
  revert acc. induction chunks as [|c chunks IH]; intros acc; cbn; [by rewrite app_nil_r|].
  by rewrite IH, app_assoc.
Qed.

Lemma concatUint8Arrays_join chunks : concatUint8Arrays chunks = mjoin chunks.
Proof.
  destruct chunks as [|c [|d chunks]]; [done|cbn; by rewrite app_nil_r|].
  unfold concatUint8Arrays. by rewrite concat_foldl.
Qed.

Lemma leave_ok now p r :
  racing (leave p r) = false → phase_ok now (leave p r) →
  read_ok now (leave p r) ∧ pending_entry (leave p r) = false.
Proof.
  intros Hr Hp. split; [split; [| |done]|].
  - unfold entry_ok. rewrite Hr. cbn. by destruct (entry r).
  - unfold listener_ok. by rewrite Hr.
  - unfold pending_entry. cbn. by destruct (entry r).
Qed.

Lemma supply_chunk o r r' chunks total :
  ph r = AwaitChunk chunks total → won r = None → got r = chunks → supply o r = Some r' →
  cfg r' = cfg r ∧ entry r' = entry r ∧ signal r' = signal r ∧ listening r' = listening r ∧
  abort_rejected r' = abort_rejected r ∧ ph r' = ph r ∧ is_Some (won r') ∧ reading r' = false ∧
  ∃ l, got r' = chunks ++ l ∧
    match won r' with
    | Some (WonChunk (Some v)) => l = [v]
    | Some (WonChunk None) => l = []
    | Some WonDone => l = [] ∧ ended r' = true
    | Some (WonError e) => ∀ now, reason_of now r' e
    | _ => False
    end.
Proof.
  intros Hp Hw Hg Hs. destruct r as [c p w en sg li ar rd g ed fl]. cbn in *. subst.
  unfold supply in Hs. cbn in Hs. destruct rd; [|done]. cbn in Hs.
  destruct o as [b|[v|]| |x]; try done; injection Hs as <-; cbn; split_and!; try done;
    first [by exists [v]|exists []; by rewrite app_nil_r].
Qed.

(** After the guards: the entry, the listener and the race agree again. *)
Lemma guards_decide_ok now r chunks total l :
  ph r = AwaitChunk chunks total →
  match entry r with
  | None => deadline (cfg r) = 0
  | Some e => 0 < deadline (cfg r) ∧ deadlineWall e = started (cfg r) + deadline (cfg r) ∧
      settled e = rejected e ∧ (rejected e = true → deadlineWall e ≤ now)
  end →
  listening r = bool_decide (signal r = Some false) →
  (abort_rejected r = true ↔ signal r = Some true) →
  total = zlen (mjoin chunks) → (guard (cfg r) = true → total ≤ Z.max 0 (maxBytes (cfg r))) →
  got r = chunks ++ l → (reading r = true → l = []) → (reading r = false → is_Some (won r)) →
  match won r with
  | None => l = []
  | Some (WonChunk (Some v)) => l = [v]
  | Some (WonChunk None) => l = [] ∧ reading r = false
  | Some WonDone => l = [] ∧ reading r = false ∧ ended r = true
  | Some (WonError e) => reason_of now r e ∧ (reading r = true → guard_error e)
  | Some (WonValue _) => False
  end →
  read_ok now (guards_decide r).
Proof.
  intros Hph He Hl Ha Ht Hm Hg Hrd Hrd' Hw. destruct r as [c p w en sg li ar rd g ed fl]. cbn in *. subst p.
  assert (Hto : match en with Some e => rejected e | None => false end = true →
    0 < deadline c ∧ started c + deadline c ≤ now).
  { destruct en as [e|]; [|done]. intros Hj. destruct He as (? & Hd & _ & Hn). specialize (Hn Hj). lia. }
  unfold guards_decide. cbn.
  destruct w as [w|].
  - assert (read_ok now (Read c (AwaitChunk chunks total) (Some w) en sg li ar rd g ed fl)) as Hok.
    { split; [| |].
      - unfold entry_ok. cbn. destruct en; naive_solver.
      - unfold listener_ok. cbn. naive_solver.
      - unfold phase_ok. cbn. split_and!; [done..|by exists l|done]. }
    destruct (match en with Some e => rejected e | None => false end), ar; exact Hok.
  - destruct rd; [|by destruct (Hrd' eq_refl)]. specialize (Hrd eq_refl). subst l. clear Hrd' Hw.
    rewrite app_nil_r in Hg. subst g.
    destruct (match en with Some e => rejected e | None => false end) eqn:Ej; cbn.
    + assert (read_ok now (Read c (AwaitChunk chunks total) (Some (WonError TimedOut)) en sg li ar true chunks ed fl)) as Hok.
      { split; [| |].
        - unfold entry_ok. cbn. destruct en; naive_solver.
        - unfold listener_ok. cbn. naive_solver.
        - unfold phase_ok, reason_of. cbn. split_and!; [done..| |done]. exists []. rewrite app_nil_r.
          split_and!; [done..|by apply Hto|by apply Hto|done]. }
      destruct ar; exact Hok.
    + destruct ar; cbn.
      * split; [| |].
        -- unfold entry_ok. cbn. destruct en; naive_solver.
        -- unfold listener_ok. cbn. naive_solver.
        -- unfold phase_ok, reason_of. cbn. split_and!; [done..| |done]. exists []. rewrite app_nil_r.
           split_and!; [done..|by apply Ha|done].
      * split; [| |].
        -- unfold entry_ok. cbn. destruct en as [e|]; [|done]. cbn in Ej. rewrite Ej in *. naive_solver.
        -- unfold listener_ok. cbn. naive_solver.
        -- unfold phase_ok. cbn. split_and!; [done..| |done]. exists []. by rewrite app_nil_r.
Qed.

Lemma race_again_ok now ready r chunks chunks' total total' :
  ph r = AwaitChunk chunks' total' → entry_ok now r → listener_ok r →
  got r = chunks → total = zlen (mjoin chunks) → (guard (cfg r) = true → total ≤ Z.max 0 (maxBytes (cfg r))) →
  read_ok now (race_again (AwaitChunk chunks total) ready r).
Proof.
  intros Hph He Hl Hg Ht Hm. unfold race_again.
  set (r0 := Read (cfg r) (AwaitChunk chunks total) _ _ _ _ _ _ _ _ _).
  unfold entry_ok, listener_ok, racing in *. rewrite Hph in *.
  assert (He' : match entry r with
    | None => deadline (cfg r) = 0
    | Some e => 0 < deadline (cfg r) ∧ deadlineWall e = started (cfg r) + deadline (cfg r) ∧
        settled e = rejected e ∧ (rejected e = true → deadlineWall e ≤ now)
    end) by (destruct (entry r); naive_solver).
  destruct Hl as (Hl & Ha1 & Ha2).
  assert (Ha : abort_rejected r = true ↔ signal r = Some true) by naive_solver.
  destruct (o ← ready; supply o r0) as [r1|] eqn:Hs; cbn [default from_option].
  - destruct ready as [o|]; [|done]. cbn in Hs.
    destruct (supply_chunk o r0 r1 chunks total eq_refl eq_refl Hg Hs)
      as (Ec & Ee & Es & Eli & Ea & Ep & Hw & Hrd & l & Hl' & Hwin).
    apply (guards_decide_ok now r1 chunks total l); rewrite ?Ec, ?Ee, ?Es, ?Eli, ?Ea, ?Hrd; try done.
    destruct (won r1) as [[b|[v|]| |e]|]; naive_solver.
  - apply (guards_decide_ok now r0 chunks total []); cbn; rewrite ?app_nil_r; try done.
Qed.

Lemma pending_race_again p ready r : pending_entry (race_again p ready r) = pending_entry r.
Proof.
  assert (Hd : ∀ w x, pending_entry (decide_race w x) = pending_entry x)
    by (intros w x; unfold decide_race, pending_entry; by destruct (won x)).
  unfold race_again, guards_decide. repeat case_match; rewrite ?Hd.
  all: unfold pending_entry; destruct ready as [o|]; cbn; [|done]; unfold supply; cbn.
  all: destruct p, o as [b|[v|]| |x]; done.
Qed.

Lemma resume_read_ok now ready r :
  read_ok now r →
  read_ok now (resume_read ready r).1 ∧
  pending_entry (resume_read ready r).1 = negb (resume_read ready r).2 && pending_entry r.
Proof.
  intros [He Hl Hp]. unfold resume_read. unfold phase_ok, reason_of in Hp.
  destruct (ph r) as [|chunks total|e|res] eqn:Hph; cbn.
  - destruct (won r) as [[b|v| |e]|] eqn:Hw; [| done|done| |]; cbn.
    + destruct Hp as (Hrd & Hg & Hed). apply leave_ok; [done|]. unfold phase_ok. cbn.
      case_decide as Hs; [done|]. destruct (guard (cfg r)) eqn:Hgd; cbn.
      * case_bool_decide as Hlen; cbn; unfold reason_of; cbn; rewrite Hg; cbn; rewrite app_nil_r.
        -- auto.
        -- split_and!; [done|done|lia].
      * rewrite Hg. cbn. rewrite app_nil_r, Hgd. done.
    + destruct Hp as [Hp _]. by apply leave_ok.
    + split; [|done]. split; [done..|]. unfold phase_ok. by rewrite Hph, Hw.
  - destruct Hp as (Ht & Hm & (l & Hg & Hl' & Hwin) & Hr).
    destruct (won r) as [[b|[v|]| |e]|] eqn:Hw; [done| | | | |]; cbn.
    + subst l. destruct (guard (cfg r) && bool_decide (maxBytes (cfg r) < total + zlen v)) eqn:Hc; cbn.
      * apply andb_true_iff in Hc as [Hgd Hlen%bool_decide_eq_true]. apply leave_ok; [done|].
        unfold phase_ok, reason_of. cbn. split; [done|]. right. rewrite Hg, mjoin_snoc. zlia.
      * split; [|apply pending_race_again]. eapply race_again_ok; [done..| |].
        -- rewrite mjoin_snoc. zlia.
        -- intros Hgd. rewrite Hgd in Hc. cbn in Hc. apply bool_decide_eq_false in Hc. lia.
    + split; [|apply pending_race_again]. destruct Hwin as [-> _]. rewrite app_nil_r in Hg.
      by eapply race_again_ok.
    + destruct Hwin as (-> & _ & Hed). rewrite app_nil_r in Hg. apply leave_ok; [done|].
      unfold phase_ok. cbn. rewrite concatUint8Arrays_join, Hg. split_and!; [done|done|].
      intros Hgd. rewrite <-Ht. auto.
    + destruct Hwin as [Hwin _]. by apply leave_ok.
    + split; [|done]. split; [done..|]. unfold phase_ok. rewrite Hph, Hw. eauto 10.
  - split; [|by destruct (won r)]. destruct (won r) as [[]|]; (split; [done..|unfold phase_ok; by rewrite Hph]).
  - split; [|by destruct (won r)]. destruct (won r) as [[]|]; (split; [done..|unfold phase_ok; by rewrite Hph]).
Qed.

(** ** Preservation by the steps *)

Section steps.
Variable Number : list Z → option Q.
Variable isBun : bool.

Lemma done_read_ok now c q res g ed fl :
  outcome_ok now (done_read c q res g ed fl) res → read_ok now (done_read c q res g ed fl).
Proof. by split. Qed.

Lemma racing_read_ok now c q p :
  started c = now → 0 ≤ deadline c → q_signal q ≠ Some true → p = AwaitBody ∨ p = AwaitChunk [] 0 →
  read_ok now (racing_read c q p) ∧ pending_entry (racing_read c q p) = bool_decide (0 < deadline c).
Proof.
  intros <- Hd Hs Hp. unfold racing_read. rewrite (bool_decide_eq_false_2 (q_signal q = Some true)) by done.
  split; [split|].
  - unfold entry_ok, racing. cbn. destruct Hp as [->| ->]; case_decide; cbn; naive_solver lia.
  - unfold listener_ok, racing. cbn. by destruct Hp as [->| ->].
  - unfold phase_ok. cbn. destruct Hp as [->| ->]; [done|]. split; [done|split; [intros _; apply Z.le_max_l|split; [|done]]].
    by exists [].
  - unfold pending_entry. cbn. case_decide; by case_bool_decide.
Qed.

Lemma start_read_ok now q m g t :
  let '(r, tracked) := start_read Number isBun now q m g t in
  read_ok now r ∧ pending_entry r = tracked.
Proof.
  unfold start_read. set (dl := match t with Some _ => _ | None => _ end).
  assert (0 ≤ dl) as Hdl by (subst dl; destruct t; [case_decide|]; lia).
  set (declared := mbind _ _). set (c := {| maxBytes := m |}).
  destruct (decide (q_signal q = Some true)) as [Hs|Hs].
  { split; [|done]. by apply done_read_ok. }
  destruct declared as [len|] eqn:Hlen.
  - destruct (g && negb (Qle_bool len (inject_Z m))) eqn:Hg.
    { split; [|done]. apply done_read_ok. apply andb_true_iff in Hg as [-> Hq%negb_true_iff].
      split; [done|]. left. exists len. split; [done|]. cbn. apply Qnot_le_lt.
      intros Hle%Qle_bool_iff. congruence. }
    assert (Hrace : read_ok now (racing_read c q AwaitBody) ∧
                    pending_entry (racing_read c q AwaitBody) = bool_decide (0 < dl))
      by (apply racing_read_ok; auto).
    assert (Hfin : ∀ v got fl,
      (outcome_ok now (done_read c q (inl v) got true fl) (inl v) ∨ g && longer_than v m = true) →
      match v with VBytes b => got = [b] | VErrorObject _ => True end →
      let '(r, tracked) := if g && longer_than v m
        then (done_read c q (inr TooLarge) got true fl, false)
        else (done_read c q (inl v) got true fl, false) in
      read_ok now r ∧ pending_entry r = tracked).
    { intros v got fl Hv Hgot. destruct (g && longer_than v m) eqn:Hl.
      - split; [|done]. apply done_read_ok. apply andb_true_iff in Hl as [-> Hl]. split; [done|].
        right. destruct v as [b|e]; [|done]. subst. cbn in *. apply bool_decide_eq_true in Hl.
        by rewrite app_nil_r.
      - split; [|done]. apply done_read_ok. by destruct Hv. }
    destruct (peekBufferedBody isBun q) as [[|b|e]|]; [exact Hrace| | |exact Hrace].
    + apply Hfin; [|done]. destruct (g && longer_than (VBytes b) m) eqn:Hl; [by right|left].
      split; [done|]. split; [cbn; by rewrite app_nil_r|]. cbn. intros ->. cbn in Hl.
      apply bool_decide_eq_false in Hl. lia.
    + by apply Hfin; [left|].
  - destruct (q_has_body q); cbn [negb].
    + apply racing_read_ok; auto.
    + split; [|done]. apply done_read_ok. split_and!; [done|done|intros _; apply Z.le_max_l].
Qed.

(** The invariant without the timer. *)
Record Inv0 (s : state) : Prop := {
  inv0_nodup : NoDup (inflight s);
  inv0_inflight : ∀ i, i ∈ inflight s ↔ ∃ r, reads s !! i = Some r ∧ pending_entry r = true;
  inv0_reads : ∀ i r, reads s !! i = Some r → read_ok (clock s) r
}.

Lemma Inv_split s : Inv s ↔ Inv0 s ∧ timer s = bool_decide (inflight s ≠ []).
Proof. split; [intros []; split; [by split|done]|intros [[] ?]; by split]. Qed.

Lemma update_inv i r r' s l t :
  Inv0 s → reads s !! i = Some r → read_ok (clock s) r' →
  NoDup l → (∀ j, j ∈ l ↔ if decide (j = i) then pending_entry r' = true else j ∈ inflight s) →
  Inv0 (State (clock s) l t (<[i := r']> (reads s))).
Proof.
  intros [Hnd Hin Hrd] Hi Hok Hl Hmem. pose proof (lookup_lt_Some _ _ _ Hi) as Hlt.
  split; cbn; [done| |].
  - intros j. rewrite Hmem. case_decide as Hj.
    + subst. rewrite list_lookup_insert_eq by done. naive_solver.
    + by rewrite list_lookup_insert_ne, Hin by done.
  - intros j x [(-> & -> & _)|[_ Hj]]%list_lookup_insert_Some; [done|by eapply Hrd].
Qed.

Lemma put_inv i r r' s :
  Inv0 s → reads s !! i = Some r → read_ok (clock s) r' → pending_entry r' = pending_entry r →
  Inv0 (put i r' s).
Proof.
  intros HI Hi Hok Hp. eapply update_inv; [done..|apply HI|]. intros j.
  case_decide as Hj; [|done]. subst. rewrite (inv0_inflight s HI), Hp. naive_solver.
Qed.

Lemma put_drop_inv i r r' s t :
  Inv0 s → reads s !! i = Some r → read_ok (clock s) r' → pending_entry r' = false →
  Inv0 (State (clock s) (filter (λ j, j ≠ i) (inflight s)) t (<[i := r']> (reads s))).
Proof.
  intros HI Hi Hok Hp. eapply update_inv; [done..|apply NoDup_filter, HI|].
  intros j. rewrite list_elem_of_filter. case_decide; subst; [rewrite Hp|]; naive_solver.
Qed.

(** What a sweep leaves behind: no entry past its deadline. *)
Definition swept (now : Z) (r : read) : Prop :=
  ∀ e, entry r = Some e → settled e = false → now < deadlineWall e.

Lemma sweep_one_swept now r : swept now (sweep_one now r).1.
Proof.
  unfold swept, sweep_one. intros e'. destruct (entry r) as [e|] eqn:E; cbn; [|by rewrite E].
  destruct (settled e) eqn:Hs; cbn; [rewrite E; intros [= <-]; congruence|]. case_decide as Hd; cbn.
  - unfold decide_race. cbn. by destruct (won r); cbn; intros [= <-].
  - rewrite E. intros [= <-] _. lia.
Qed.

Lemma sweep_entries_inv l s :
  Inv0 s → NoDup l → l ⊆ inflight s →
  let s' := sweep_entries l s in
  Inv0 s' ∧ clock s' = clock s ∧ timer s' = timer s ∧ inflight s' ⊆ inflight s ∧
  length (reads s') = length (reads s) ∧
  (∀ i, i ∉ l → reads s' !! i = reads s !! i) ∧
  (∀ i r, i ∈ l → reads s !! i = Some r → reads s' !! i = Some (sweep_one (clock s) r).1).
Proof.
  revert s. induction l as [|i l IH]; intros s HI Hnd Hsub; [split_and!; (done || set_solver)|].
  apply NoDup_cons in Hnd as [Hil Hnd].
  assert (i ∈ inflight s) as Hi by set_solver.
  apply (inv0_inflight s HI) in Hi as (r & Hr & Hp).
  pose proof (sweep_one_ok (clock s) r (inv0_reads s HI i r Hr) Hp) as [Hok Hkeep].
  cbn [sweep_entries]. rewrite Hr. destruct (sweep_one (clock s) r) as [r' keep] eqn:Hsw. cbn in *.
  set (s1 := if keep then _ else _).
  assert (Hs1 : Inv0 s1 ∧ clock s1 = clock s ∧ timer s1 = timer s ∧
                reads s1 = <[i := r']> (reads s) ∧ inflight s1 ⊆ inflight s ∧ l ⊆ inflight s1).
  { unfold s1. destruct keep; cbn.
    - split_and!; try done; [by eapply put_inv; [..|rewrite Hkeep, Hp]|set_solver].
    - split_and!; try done; [by eapply put_drop_inv|intros j Hj%list_elem_of_filter; naive_solver|].
      intros j Hj. apply list_elem_of_filter. split; [by intros ->|set_solver]. }
  destruct Hs1 as (HI1 & Hc1 & Ht1 & Hr1 & Hi1 & Hl1).
  destruct (IH s1 HI1 Hnd Hl1) as (HI' & Hc & Ht & Hi' & Hlen & Hother & Hswept).
  rewrite Hr1, Hc1 in *. split_and!; [done|by rewrite Hc|by rewrite Ht|set_solver|by rewrite Hlen, length_insert| |].
  - intros j Hj. rewrite Hother by set_solver. rewrite list_lookup_insert_ne by set_solver. done.
  - intros j x [->|Hj]%elem_of_cons Hx.
    + rewrite Hother by done. assert (x = r) as -> by congruence.
      rewrite list_lookup_insert_eq by (by eapply lookup_lt_Some). by rewrite Hsw.
    + apply Hswept; [done|]. rewrite list_lookup_insert_ne; [done|]. by intros ->.
Qed.

Lemma add_inv r s t :
  Inv0 s → read_ok (clock s) r →
  Inv0 (State (clock s) (inflight s ++ (if pending_entry r then [length (reads s)] else [])) t
          (reads s ++ [r])).
Proof.
  intros HI Hok. assert (Hnew : length (reads s) ∉ inflight s).
  { intros (r0 & Hr & _)%(inv0_inflight s HI). apply lookup_lt_Some in Hr. lia. }
  split; cbn.
  - apply NoDup_app. split; [apply HI|]. destruct (pending_entry r); [|by split; [set_solver|constructor]].
    split; [set_solver|]. apply NoDup_singleton.
  - intros i. rewrite elem_of_app, (inv0_inflight s HI). split.
    + intros [(r0 & Hr & Hp)|Hi]; [exists r0; split; [by apply lookup_app_l_Some|done]|].
      destruct (pending_entry r) eqn:Hp; [|by apply elem_of_nil in Hi].
      apply list_elem_of_singleton in Hi as ->. exists r. by rewrite lookup_app_r, Nat.sub_diag.
    + intros (r0 & Hr & Hp). apply lookup_snoc_Some in Hr as [[_ Hr]|[-> <-]]; [left; eauto|].
      right. rewrite Hp. set_solver.
  - intros i r0 Hr. apply lookup_snoc_Some in Hr as [[_ Hr]|[-> <-]]; [by eapply HI|done].
Qed.

Lemma start_inv q m g t s : Inv s → Inv (readBodyWithLimit Number isBun q m g t s).
Proof.
  rewrite !Inv_split. intros [HI Ht]. unfold readBodyWithLimit.
  pose proof (start_read_ok (clock s) q m g t) as Hst.
  destruct (start_read Number isBun (clock s) q m g t) as [r tracked]. destruct Hst as [Hok Hp].
  pose proof (add_inv r s (if tracked then true else timer s) HI Hok) as HA. rewrite Hp in HA.
  destruct tracked; cbn in *.
  - split; [exact HA|]. symmetry. apply bool_decide_eq_true. by destruct (inflight s).
  - rewrite app_nil_r in HA. done.
Qed.

Lemma reader_step_inv s e s' : Inv s → step Number isBun s e = Some s' → Inv s'.
Proof.
  intros HIs Hs. destruct e as [q m g t|q m g t|i o|i|ms| |i ready|i]; cbn in Hs.
  - injection Hs as <-. by apply start_inv.
  - injection Hs as <-. unfold readRequestBodyOnce. destruct (q_has_body q); cbn; [by apply start_inv|].
    apply Inv_split in HIs as [HI Ht]. apply Inv_split.
    pose proof (add_inv (done_read {| maxBytes := m; guard := g; deadline := 0; started := clock s;
      declaredLen := None |} q (inl (VBytes [])) [] true None) s (timer s) HI) as HA.
    cbn in HA. rewrite app_nil_r in HA. split; [|done]. apply HA, done_read_ok.
    split_and!; [done|done|intros _; apply Z.le_max_l].
  - apply Inv_split in HIs as [HI Ht]. apply Inv_split.
    destruct (reads s !! i) as [r|] eqn:Hr; [|done]. cbn in Hs.
    destruct (supply o r) as [r'|] eqn:Hsup; [|done]. injection Hs as <-.
    destruct (supply_ok _ _ _ _ (inv0_reads s HI i r Hr) Hsup) as [Hok He].
    split; [|done]. eapply put_inv; [done..|]. unfold pending_entry. by rewrite He.
  - apply Inv_split in HIs as [HI Ht]. apply Inv_split.
    destruct (reads s !! i) as [r|] eqn:Hr; [|done]. cbn in Hs.
    destruct (client_abort r) as [r'|] eqn:Hab; [|done]. injection Hs as <-.
    destruct (client_abort_ok _ _ _ (inv0_reads s HI i r Hr) Hab) as [Hok He].
    split; [|done]. eapply put_inv; [done..|]. unfold pending_entry. by rewrite He.
  - case_decide; [|done]. injection Hs as <-. destruct HIs as [H1 H2 H3 H4]. split; cbn; [done..|].
    intros i r Hr. eapply read_ok_later; [|by eapply H4]. lia.
  - destruct (timer s) eqn:E; [|done]. injection Hs as <-. apply Inv_split in HIs as [HI Ht].
    apply Inv_split. unfold sweep.
    destruct (sweep_entries_inv (inflight s) s HI (inv0_nodup s HI) ltac:(done))
      as (HI' & Hc & Ht' & Hsub & _). split.
    + destruct HI' as [H1 H2 H3]. by split.
    + cbn. by rewrite Ht', E.
  - destruct (reads s !! i) as [r|] eqn:Hr; [|done]. cbn in Hs. destruct (won r) as [w|]; [|done].
    injection Hs as <-. apply Inv_split in HIs as [HI Ht]. apply Inv_split. unfold resume. rewrite Hr.
    destruct (resume_read_ok _ ready _ (inv0_reads s HI i r Hr)) as [Hok Hp].
    destruct (resume_read ready r) as [r' [|]]; cbn in *.
    + split; [by apply (put_drop_inv i r r' s)|]. unfold drop_entry. cbn. rewrite Ht.
      case_bool_decide as Hl; [by rewrite andb_true_l|]. cbn. symmetry. apply bool_decide_eq_false.
      intros Hne. apply Hne. by rewrite Hl.
    + split; [by eapply put_inv|done].
  - apply Inv_split in HIs as [HI Ht]. apply Inv_split.
    destruct (reads s !! i) as [r|] eqn:Hr; [|done]. cbn in Hs.
    destruct (ph r) eqn:Hph; try done. injection Hs as <-.
    pose proof (inv0_reads s HI i r Hr) as [He Hl Hp].
    split; [|done]. eapply put_inv; [done..| |done].
    unfold entry_ok, listener_ok, phase_ok, racing in *. rewrite Hph in *. by split.
Qed.

Lemma reach_ok s : reach Number isBun s → Inv s.
Proof.
  induction 1 as [|s e s' _ IH Hs]; [|by eapply reader_step_inv].
  split; cbn; [constructor|done| |by intros i].
  intros i. split; [intros Hi; by apply elem_of_nil in Hi|intros (r & Hr & _); done].
Qed.

(** An error object is returned only where [Bun.peek] handed one out: on Bun, for
    a body with a usable declared length within the guard, before any race. *)
Definition object_ok (r : read) : Prop :=
  ∀ e, ph r = Finished (inl (VErrorObject e)) →
    isBun = true ∧ is_Some (declaredLen (cfg r)) ∧ entry r = None ∧ got r = [].

Lemma start_object_ok now q m g t : object_ok (start_read Number isBun now q m g t).1.
Proof.
  unfold start_read, object_ok, peekBufferedBody. intros e. case_decide; [done|].
  destruct (h ← q_content_length q; Number h) as [d|].
  - repeat case_match; try done; cbn; intros [= <-]; try done; split_and!; try done.
    all: match goal with H : negb isBun = false |- _ => by destruct isBun end.
  - by destruct (negb _).
Qed.

Lemma ph_decide w r : ph (decide_race w r) = ph r.
Proof. unfold decide_race. by destruct (won r). Qed.

Lemma ph_supply o r r' : supply o r = Some r' → ph r' = ph r ∧ racing r = true.
Proof.
  unfold supply, racing. destruct (negb _); [done|].
  destruct (ph r) eqn:E, o as [b|[v|]| |x]; try done; intros [= <-]; rewrite ph_decide; by cbn; rewrite ?E.
Qed.

Lemma ph_guards_decide r : ph (guards_decide r) = ph r.
Proof. unfold guards_decide. by repeat case_match; rewrite ?ph_decide. Qed.

Lemma ph_race_again p ready r : ph (race_again p ready r) = p.
Proof.
  unfold race_again. rewrite ph_guards_decide. set (r0 := Read _ _ _ _ _ _ _ _ _ _ _).
  change p with (ph r0). destruct ready as [o|]; [|done]. cbn [mbind option_bind].
  destruct (supply o r0) as [r'|] eqn:Hs; [|done]. by destruct (ph_supply _ _ _ Hs).
Qed.

Lemma resume_object_ok ready r : object_ok r → object_ok (resume_read ready r).1.
Proof.
  intros Ho. unfold resume_read. destruct (ph r) as [|chunks total|e|res], (won r) as [[b|[v|]| |x]|];
    try exact Ho; cbn; try by intros ? ?.
  - intros x. cbn. by repeat case_match.
  - destruct (_ && _); cbn; [by intros ? ?|]. intros e. by rewrite ph_race_again.
  - intros e. by rewrite ph_race_again.
Qed.

Lemma sweep_object_ok l s i r :
  (∀ i r, reads s !! i = Some r → object_ok r) → reads (sweep_entries l s) !! i = Some r → object_ok r.
Proof.
  revert s. induction l as [|j l IH]; intros s Ho; [by apply Ho|]. cbn [sweep_entries].
  destruct (reads s !! j) as [x|] eqn:Hx; [|by apply IH].
  destruct (sweep_one (clock s) x) as [x' keep] eqn:Hs. intros Hr. eapply IH; [|exact Hr].
  assert (Hx' : object_ok x').
  { unfold sweep_one in Hs. specialize (Ho j x Hx). destruct (entry x) as [en|] eqn:He; [|naive_solver].
    repeat case_match; simplify_eq; try done.
    intros e. rewrite ph_decide. cbn. intros Hp. destruct (Ho e Hp) as (_ & _ & Hn & _). congruence. }
  intros k y. destruct keep; cbn; (destruct (decide (k = j)) as [->|Hk];
    [rewrite list_lookup_insert_eq by (by eapply lookup_lt_Some); by intros [= <-]
    |rewrite list_lookup_insert_ne by done; apply Ho]).
Qed.

Lemma put_object_ok i x s :
  (∀ i r, reads s !! i = Some r → object_ok r) → object_ok x →
  ∀ j r, reads (put i x s) !! j = Some r → object_ok r.
Proof.
  intros Ho Hx j r. cbn. destruct (decide (j = i)) as [->|Hj].
  - destruct (decide (i < length (reads s))%nat) as [Hi|Hi].
    + rewrite list_lookup_insert_eq by done. by intros [= <-].
    + rewrite list_insert_ge by lia. apply Ho.
  - rewrite list_lookup_insert_ne by done. apply Ho.
Qed.

Lemma snoc_object_ok (l : list read) x :
  (∀ (i : nat) r, l !! i = Some r → object_ok r) → object_ok x →
  ∀ (i : nat) r, (l ++ [x]) !! i = Some r → object_ok r.
Proof. intros Ho Hx i r Hr. apply lookup_snoc_Some in Hr as [[_ Hr]|[_ <-]]; eauto. Qed.

Lemma start_objects q m g t s :
  (∀ i r, reads s !! i = Some r → object_ok r) →
  ∀ i r, reads (readBodyWithLimit Number isBun q m g t s) !! i = Some r → object_ok r.
Proof.
  intros Ho i r. unfold readBodyWithLimit. pose proof (start_object_ok (clock s) q m g t) as Hx.
  destruct (start_read Number isBun (clock s) q m g t) as [x tr]. destruct tr; cbn; by apply snoc_object_ok.
Qed.

Lemma reach_objects s : reach Number isBun s → ∀ i r, reads s !! i = Some r → object_ok r.
Proof.
  induction 1 as [|s e s' _ IH Hs]; [done|].
  destruct e as [q m g t|q m g t|i o|i|ms| |i ready|i]; cbn in Hs.
  - injection Hs as <-. by apply start_objects.
  - injection Hs as <-. unfold readRequestBodyOnce. destruct (negb _); [|by apply start_objects].
    cbn. by apply snoc_object_ok; [|intros e].
  - destruct (reads s !! i) as [x|] eqn:Hx; [|done]. cbn in Hs.
    destruct (supply o x) as [x'|] eqn:Hsu; [|done]. injection Hs as <-. apply put_object_ok; [done|].
    apply ph_supply in Hsu as [Hp Hr]. intros e. rewrite Hp. unfold racing in Hr. intros E. by rewrite E in Hr.
  - destruct (reads s !! i) as [x|] eqn:Hx; [|done]. cbn in Hs. unfold client_abort in Hs.
    destruct (signal x) as [[]|]; try done. injection Hs as <-. apply put_object_ok; [done|].
    specialize (IH i x Hx). destruct (listening x), (won x) eqn:Hw; intros e;
      unfold decide_race; cbn; rewrite ?Hw; cbn; apply IH.
  - case_decide; [|done]. by injection Hs as <-.
  - destruct (timer s); [|done]. injection Hs as <-. intros i r Hr. by eapply (sweep_object_ok (inflight s) s).
  - destruct (reads s !! i) as [x|] eqn:Hx; [|done]. cbn in Hs. destruct (won x); [|done].
    injection Hs as <-. unfold resume. rewrite Hx. pose proof (resume_object_ok ready x (IH i x Hx)) as Hok.
    destruct (resume_read ready x) as [x' [|]]; cbn -[put]; by apply put_object_ok.
  - destruct (reads s !! i) as [x|] eqn:Hx; [|done]. cbn in Hs. destruct (ph x) eqn:Hp; try done.
    injection Hs as <-. by apply put_object_ok.
Qed.

(** C5. However the transport, the client, the clock and the other reads interleave
    (a chunk that is ready beats a guard that was rejected meanwhile), a read that
    returns bytes returns the whole body, byte for byte and never more than the
    guard allows, no read ever holds more than the guard allows, and a read fails
    only for the reason its error code states.  The one other outcome is the error
    object that [Bun.peek] takes out of a rejected read: it is returned in place of
    the bytes, only on Bun, only for a declared length, only where the transport
    had failed with it and nothing was read. *)
Theorem body_reads_correct s i r :
  reach Number isBun s → reads s !! i = Some r →
  (∀ b, ph r = Finished (inl (VBytes b)) →
     ended r = true ∧ b = mjoin (got r) ∧ (guard (cfg r) = true → zlen b ≤ Z.max 0 (maxBytes (cfg r)))) ∧
  (∀ e, ph r = Finished (inr e) → reason_of (clock s) r e) ∧
  (∀ e, ph r = Finished (inl (VErrorObject e)) →
     failed r = Some e ∧ isBun = true ∧ is_Some (declaredLen (cfg r)) ∧ got r = []) ∧
  (guard (cfg r) = true → zlen (held r) ≤ Z.max 0 (maxBytes (cfg r))).
Proof.
  intros Hreach Hr. pose proof (reach_objects s Hreach i r Hr) as Hobj.
  apply reach_ok in Hreach as HI. destruct (inv_reads s HI i r Hr) as [_ _ Hp].
  unfold phase_ok, held in *. split_and!.
  - intros b Hph. by rewrite Hph in Hp.
  - intros e Hph. by rewrite Hph in Hp.
  - intros e Hph. destruct (Hobj e Hph) as (Hb & Hd & _ & Hg). by rewrite Hph in Hp.
  - intros Hg. destruct (ph r) as [|chunks total|e|res]; try apply Z.le_max_l.
    destruct Hp as (-> & Hm & _). by apply Hm.
Qed.

(** The shared watchdog tracks exactly the reads with a deadline that still race
    and were not timed out, its interval runs exactly while there is one, and a read
    that no longer races has no entry and no abort listener left. *)
Theorem watchdog_exact s :
  reach Number isBun s →
  (timer s = true ↔ inflight s ≠ []) ∧ NoDup (inflight s) ∧
  (∀ i, i ∈ inflight s ↔ ∃ r, reads s !! i = Some r ∧ racing r = true ∧ 0 < deadline (cfg r) ∧
     entry r = Some (Entry (started (cfg r) + deadline (cfg r)) false false)) ∧
  (∀ i r, reads s !! i = Some r → racing r = false → i ∉ inflight s ∧ listening r = false).
Proof.
  intros HI%reach_ok. destruct HI as [Hnd Ht Hin Hrd].
  assert (Hiff : ∀ i r, reads s !! i = Some r → pending_entry r = true ↔
    racing r = true ∧ 0 < deadline (cfg r) ∧
    entry r = Some (Entry (started (cfg r) + deadline (cfg r)) false false)).
  { intros i r Hr. destruct (Hrd i r Hr) as [He _ _]. unfold entry_ok, pending_entry in *.
    destruct (entry r) as [[wall st rj]|] eqn:E; [|naive_solver]. cbn in *.
    destruct (racing r), st; naive_solver. }
  split_and!; [|done| |].
  - rewrite Ht. apply bool_decide_eq_true.
  - intros i. rewrite Hin. split; intros (r & Hr & Hp); exists r; split; try done; by eapply Hiff.
  - intros i r Hr Hrac. destruct (Hrd i r Hr) as [_ Hl _]. unfold listener_ok in Hl.
    rewrite Hrac in Hl. split; [|done]. rewrite Hin. intros (r' & Hr' & Hp).
    assert (r' = r) as -> by congruence. apply (Hiff i r Hr) in Hp. destruct Hp. congruence.
Qed.

(** No read outlives its deadline unnoticed: while an undecided read is past its
    deadline the interval is running, the next sweep rejects it, and its continuation
    then leaves the race with REQUEST_TIMEOUT. *)
Theorem deadline_enforced s i r ready :
  reach Number isBun s → reads s !! i = Some r → racing r = true → won r = None →
  0 < deadline (cfg r) → started (cfg r) + deadline (cfg r) ≤ clock s →
  ∃ s1 s2 r2, step Number isBun s Sweep = Some s1 ∧ step Number isBun s1 (Resume i ready) = Some s2 ∧
    reads s2 !! i = Some r2 ∧ i ∉ inflight s2 ∧
    (ph r2 = Finished (inr TimedOut) ∨ ph r2 = AwaitCancel TimedOut).
Proof.
  intros HI%reach_ok Hr Hrac Hw Hd Hpast. apply Inv_split in HI as [HI Ht].
  destruct (inv0_reads s HI i r Hr) as [He _ _]. unfold entry_ok in He. rewrite Hrac in He.
  destruct (entry r) as [[wall st rj]|] eqn:E; [|lia]. cbn in He. destruct He as (_ & -> & -> & Hrj).
  destruct rj; [destruct (Hrj eq_refl) as [_ [? ?]]; congruence|].
  assert (Hin : i ∈ inflight s).
  { apply (inv0_inflight s HI). exists r. split; [done|]. unfold pending_entry. by rewrite E. }
  assert (Ht' : timer s = true) by (rewrite Ht; apply bool_decide_eq_true; intros El; rewrite El in Hin; by apply elem_of_nil in Hin).
  destruct (sweep_entries_inv (inflight s) s HI (inv0_nodup s HI) ltac:(done))
    as (_ & _ & _ & _ & _ & _ & Hsw). specialize (Hsw i r Hin Hr).
  unfold sweep_one in Hsw. rewrite E in Hsw. cbn [settled deadlineWall] in Hsw.
  rewrite decide_True in Hsw by done. cbn [fst] in Hsw. unfold decide_race in Hsw. cbn in Hsw.
  rewrite Hw in Hsw. cbn [step]. rewrite Ht'.
  exists (sweep s). cbn [step].
  assert (Hsw' : reads (sweep s) !! i = reads (sweep_entries (inflight s) s) !! i) by done.
  rewrite Hsw in Hsw'. unfold resume. rewrite Hsw'. unfold racing in Hrac. cbn [mbind option_bind won].
  pose proof (lookup_lt_Some _ _ _ Hsw') as Hlt.
  destruct (ph r) as [|chunks total|e|res]; try done; cbn; eexists _, _;
    (split; [done|]); (split; [done|]); cbn; (split; [by rewrite list_lookup_insert_eq|]);
    (split; [|auto]); by intros [? _]%list_elem_of_filter.
Qed.

(** On Bun a declared body whose read has already failed is returned as if it had
    been read: the error object takes the place of the bytes and passes the guard. *)
Theorem peeked_error_is_returned s q h len m g t e :
  isBun = true → q_signal q ≠ Some true → q_bytes_fn q = true → q_peek q = PeekError e →
  q_content_length q = Some h → Number h = Some len → Qle len (inject_Z m) →
  ∃ s' r, step Number isBun s (Start q m g t) = Some s' ∧
    reads s' !! length (reads s) = Some r ∧ ph r = Finished (inl (VErrorObject e)).
Proof.
  intros Hb Hs Hf Hp Hh Hn Hle. cbn [step]. unfold readBodyWithLimit, start_read.
  rewrite decide_False by done. rewrite Hh. cbn [mbind option_bind]. rewrite Hn.
  apply Qle_bool_iff in Hle. rewrite Hle, andb_false_r. cbn [negb].
  unfold peekBufferedBody. rewrite Hf, Hb, Hp. cbn. rewrite andb_false_r.
  eexists _, _. split; [done|]. cbn. by rewrite lookup_app_r, Nat.sub_diag.
Qed.
End steps.

(** ** Witnesses *)

(** Decimal digits only, and not empty: enough for the examples. *)
Fixpoint digits (acc : Z) (s : list Z) : option Q :=
  match s with
  | [] => Some (inject_Z acc)
  | u :: s' => if decide (48 ≤ u ≤ 57) then digits (acc * 10 + (u - 48)) s' else None
  end.

Definition chunked : Request :=
  {| q_content_length := None; q_signal := Some false; q_bytes_fn := true; q_peek := PeekPending;
     q_has_body := true |}.
Definition failed_upload : Request :=
  {| q_content_length := Some (js "5"); q_signal := Some false; q_bytes_fn := true;
     q_peek := PeekError (TypeError "Body already used"); q_has_body := true |}.

Definition run (es : list event) : option state :=
  foldl (λ s e, s ← s; step (digits 0) true s e) (Some empty_state) es.

Lemma run_reach es s : run es = Some s → reach (digits 0) true s.
Proof.
  revert s. induction es as [|e es IH] using rev_ind; intros s.
  - intros [= <-]. apply reach_init.
  - unfold run. rewrite foldl_app. cbn. fold (run es).
    destruct (run es) as [s0|] eqn:E; [|done]. cbn. intros Hs. eapply reach_step; [by apply IH|done].
Qed.

Definition upload : list event :=
  [Start chunked 4 true (Some 1000); Supply 0 (SChunk (Some [1; 2])); Resume 0 None;
   Supply 0 (SChunk (Some [3])); Resume 0 None; Supply 0 SDone; Resume 0 None].

Lemma body_reads_correct_witness :
  ∃ s r, run upload = Some s ∧ reads s !! 0%nat = Some r ∧
    ph r = Finished (inl (VBytes [1; 2; 3])) ∧
    (∀ b, ph r = Finished (inl (VBytes b)) →
       ended r = true ∧ b = mjoin (got r) ∧
       (guard (cfg r) = true → zlen b ≤ Z.max 0 (maxBytes (cfg r)))) ∧
    (∀ e, ph r = Finished (inr e) → reason_of (clock s) r e) ∧
    (∀ e, ph r = Finished (inl (VErrorObject e)) →
       failed r = Some e ∧ true = true ∧ is_Some (declaredLen (cfg r)) ∧ got r = []) ∧
    (guard (cfg r) = true → zlen (held r) ≤ Z.max 0 (maxBytes (cfg r))).
Proof.
  eexists _, _. split; [vm_compute; reflexivity|]. split; [reflexivity|]. split; [reflexivity|].
  eapply (body_reads_correct (digits 0) true _ 0%nat); [|reflexivity].
  by apply (run_reach upload).
Defined.

(** A read whose next chunks are always ready outruns its deadline: the sweep has
    rejected the deadline, and the read still goes on and returns its body. *)
Theorem ready_chunks_outrun_deadline :
  ∃ s r, run [Start chunked 8 true (Some 1000); Supply 0 (SChunk (Some [1])); Elapse 5000; Sweep;
              Resume 0 (Some (SChunk (Some [2]))); Resume 0 (Some SDone); Resume 0 None] = Some s ∧
    reads s !! 0%nat = Some r ∧ ph r = Finished (inl (VBytes [1; 2])) ∧
    started (cfg r) + deadline (cfg r) < clock s ∧ rejected <$> entry r = Some true.
Proof. eexists _, _. split; [vm_compute; reflexivity|]. by split_and!. Qed.

Lemma watchdog_exact_witness :
  ∃ s, run (take 3 upload) = Some s ∧ inflight s = [0%nat] ∧
    ((timer s = true ↔ inflight s ≠ []) ∧ NoDup (inflight s) ∧
     (∀ i, i ∈ inflight s ↔ ∃ r, reads s !! i = Some r ∧ racing r = true ∧ 0 < deadline (cfg r) ∧
        entry r = Some (Entry (started (cfg r) + deadline (cfg r)) false false)) ∧
     (∀ i r, reads s !! i = Some r → racing r = false → i ∉ inflight s ∧ listening r = false)).
Proof.
  eexists _. split; [vm_compute; reflexivity|]. split; [reflexivity|].
  apply (watchdog_exact (digits 0) true). by apply (run_reach (take 3 upload)).
Defined.

Lemma deadline_enforced_witness :
  ∃ s r, run (take 3 upload ++ [Elapse 1250]) = Some s ∧ reads s !! 0%nat = Some r ∧
    ∃ s1 s2 r2, step (digits 0) true s Sweep = Some s1 ∧
      step (digits 0) true s1 (Resume 0 None) = Some s2 ∧
      reads s2 !! 0%nat = Some r2 ∧ 0%nat ∉ inflight s2 ∧
      (ph r2 = Finished (inr TimedOut) ∨ ph r2 = AwaitCancel TimedOut).
Proof.
  eexists _, _. split; [vm_compute; reflexivity|]. split; [reflexivity|].
  eapply (deadline_enforced (digits 0) true _ 0); [|reflexivity|reflexivity|reflexivity|..]; [|done|done].
  by apply (run_reach (take 3 upload ++ [Elapse 1250])).
Defined.

Lemma peeked_error_is_returned_witness :
  ∃ s' r, step (digits 0) true empty_state (Start failed_upload 10 true None) = Some s' ∧
    reads s' !! 0%nat = Some r ∧
    ph r = Finished (inl (VErrorObject (TypeError "Body already used"))).
Proof.
  by eapply (peeked_error_is_returned (digits 0) true empty_state failed_upload (js "5") 5 10 true None).
Defined.
