(* ===== verification/Wire.v ===== *)
(** The packed wire format (src/shared/packed/wire.ts).

    Length-prefixed little-endian layouts shared by the batch, loader and
    native layers: the unpackers with their bounds checks, the packers, the
    reusable pack scratch, and the fold of pairs into an object.  Each loop is
    translated as the source writes it (offset arithmetic on a buffer); the
    [layout_*] functions below are the declarative layouts the theorems relate
    them to. *)

From S2P Require Import Prelude.
From S2P Require Import JsMap.
From S2P Require Import Utf8.
From S2P Require Import JsObject.

(** The runtime's string decoder, as the clients of the codec see it: a string
    that needs no repair and has no byte-order mark survives the round trip. *)
Definition text_ok (s : list Z) : Prop :=
  Forall is_unit s ∧ toWellFormed s = s ∧ head (scalars s) ≠ Some 0xFEFF.

Class Codec := {
  decodeUtf8 : list Z → list Z;
  decode_encode : ∀ s, text_ok s → decodeUtf8 (encodeUtf8 s) = s;
}.

Definition bun_codec : Codec.
Proof.
  refine {| decodeUtf8 := bunDecodeUtf8 |}. intros s (Hu & Hw & Hb).
  unfold bunDecodeUtf8. pose proof (utf8_toString_encode s Hu) as Hd.
  case_decide as Hz; [|congruence]. rewrite (zlen_0 _ Hz) in Hd. by rewrite <-Hw, <-Hd.
Defined.

Definition node_codec : Codec.
Proof.
  refine {| decodeUtf8 := nodeDecodeUtf8 |}. intros s (Hu & Hw & Hb).
  rewrite nodeDecodeUtf8_plain.
  - by rewrite utf8_toString_encode, Hw.
  - intros bs Henc. by eapply Hb, bom_scalar.
Defined.

(** ** Readers *)

Definition readU32 (b : list Z) (offset : Z) : result Z :=
  if decide (offset + 4 > zlen b)
  then Throw (RangeError "packed buffer: truncated u32")
  else dv_get 4 b offset.

Definition readSlice (b : list Z) (offset len : Z) : result (list Z) :=
  if decide (len < 0 ∨ offset + len > zlen b)
  then Throw (RangeError "packed buffer: truncated bytes")
  else Ok (subarray b offset (offset + len)).

Definition unpackU32Array (b : list Z) : result (list Z) :=
  if decide (zlen b < 4) then Ok []
  else
    count ← readU32 b 0;
    if decide (count > (zlen b - 4) / 4)
    then Throw (RangeError "packed buffer: invalid u32 count")
    else mapM (λ i, readU32 b (4 + i * 4)) (seqZ 0 count).

Definition unpackBitset (b : list Z) : result (list Z) :=
  if decide (zlen b < 4) then Ok []
  else
    count ← readU32 b 0;
    let expectedBytes := (count + 7) / 8 in
    if decide (zlen b < 4 + expectedBytes)
    then Throw (RangeError "packed buffer: truncated bitset")
    else
      let bits := subarray b 4 (zlen b) in
      Ok ((λ i,
             let byte := default 0 (bits !! Z.to_nat (Z.shiftr i 3)) in
             Z.land (Z.shiftr byte (Z.land i 7)) 1) <$> seqZ 0 count).

(** [getBigInt64]: the unsigned value reinterpreted in two's complement. *)
Definition to_i64 (v : Z) : Z :=
  if decide (v < 9223372036854775808) then v else v - 18446744073709551616.

Definition unpackI64ArrayAsBigInt (b : list Z) : result (list Z) :=
  if decide (zlen b < 4) then Ok []
  else
    count ← readU32 b 0;
    if decide (count > (zlen b - 4) / 8)
    then Throw (RangeError "packed buffer: invalid i64 count")
    else mapM (λ i, to_i64 <$> dv_get 8 b (4 + i * 8)) (seqZ 0 count).

Definition unpackU64ArrayAsBigInt (b : list Z) : result (list Z) :=
  if decide (zlen b < 4) then Ok []
  else
    count ← readU32 b 0;
    if decide (count > (zlen b - 4) / 8)
    then Throw (RangeError "packed buffer: invalid i64 count")
    else mapM (λ i, dv_get 8 b (4 + i * 8)) (seqZ 0 count).

(** The item loop of [unpackByteResults]. *)
Fixpoint read_items (n : nat) (b : list Z) (offset : Z) : result (list (list Z)) :=
  match n with
  | O => Ok []
  | S n' =>
      len ← readU32 b offset;
      slice ← readSlice b (offset + 4) len;
      rest ← read_items n' b (offset + 4 + len);
      Ok (slice :: rest)
  end.

Definition unpackByteResults (b : list Z) : result (list (list Z)) :=
  if decide (zlen b < 4) then Ok []
  else count ← readU32 b 0; read_items (Z.to_nat count) b 4.

Record MultipartPart := {
  name : list Z;
  filename : option (list Z);
  contentType : option (list Z);
  data : list Z;
}.

(** [b[offset] ?? 0]. *)
Definition byte_or_0 (b : list Z) (offset : Z) : Z := default 0 (b !! Z.to_nat offset).

Section decoders.
Context `{Codec}.

Fixpoint read_parts (n : nat) (b : list Z) (offset : Z) : result (list MultipartPart) :=
  match n with
  | O => Ok []
  | S n' =>
      nameLen ← readU32 b offset;
      let offset := offset + 4 in
      nameB ← readSlice b offset nameLen;
      let offset := offset + nameLen in
      let hasFilename := byte_or_0 b offset in
      let offset := offset + 1 in
      filenameLen ← readU32 b offset;
      let offset := offset + 4 in
      filenameBytes ← readSlice b offset filenameLen;
      let offset := offset + filenameLen in
      let hasCt := byte_or_0 b offset in
      let offset := offset + 1 in
      ctLen ← readU32 b offset;
      let offset := offset + 4 in
      ctBytes ← readSlice b offset ctLen;
      let offset := offset + ctLen in
      dataLen ← readU32 b offset;
      let offset := offset + 4 in
      dataB ← readSlice b offset dataLen;
      let offset := offset + dataLen in
      rest ← read_parts n' b offset;
      Ok ({| name := decodeUtf8 nameB;
             filename := if decide (hasFilename = 0) then None
                         else Some (decodeUtf8 filenameBytes);
             contentType := if decide (hasCt = 0) then None
                            else Some (decodeUtf8 ctBytes);
             data := dataB |} :: rest)
  end.

Definition readMultipartPartsPacked (b : list Z) : result (list MultipartPart) :=
  if decide (zlen b < 4) then Ok []
  else count ← readU32 b 0; read_parts (Z.to_nat count) b 4.

Fixpoint read_part_lists (n : nat) (b : list Z) (offset : Z)
    : result (list (list MultipartPart)) :=
  match n with
  | O => Ok []
  | S n' =>
      partsLen ← readU32 b offset;
      partsBytes ← readSlice b (offset + 4) partsLen;
      parts ← readMultipartPartsPacked partsBytes;
      rest ← read_part_lists n' b (offset + 4 + partsLen);
      Ok (parts :: rest)
  end.

Definition unpackMultipartParts (b : list Z) : result (list (list MultipartPart)) :=
  if decide (zlen b < 4) then Ok []
  else itemCount ← readU32 b 0; read_part_lists (Z.to_nat itemCount) b 4.

(** The pair loop of [readPairsPacked] and the header loop of
    [readHttpPacked]: the decoded pairs and the offset after them. *)
Fixpoint read_pairs (n : nat) (b : list Z) (offset : Z)
    : result (list (list Z * list Z)) :=
  match n with
  | O => Ok []
  | S n' =>
      keyLen ← readU32 b offset;
      keyBytes ← readSlice b (offset + 4) keyLen;
      valueLen ← readU32 b (offset + 4 + keyLen);
      valueBytes ← readSlice b (offset + 4 + keyLen + 4) valueLen;
      rest ← read_pairs n' b (offset + 4 + keyLen + 4 + valueLen);
      Ok ((decodeUtf8 keyBytes, decodeUtf8 valueBytes) :: rest)
  end.

Definition readPairsPacked (b : list Z) : result (list (list Z * list Z)) :=
  if decide (zlen b < 4) then Ok []
  else
    count ← readU32 b 0;
    if decide (count = 0) then Ok [] else read_pairs (Z.to_nat count) b 4.

Record ParsedHttpRequestPacked := {
  method : list Z;
  path : list Z;
  version : list Z;
  headers : jsobj;
}.

(** One length-prefixed string and the offset after it. *)
Definition read_string (b : list Z) (offset : Z) : result (list Z * Z) :=
  len ← readU32 b offset;
  s ← readSlice b (offset + 4) len;
  Ok (decodeUtf8 s, offset + 4 + len).

(** [headers[name] = value] for each header in turn. *)
Definition headers_object (ps : list (list Z * list Z)) : jsobj :=
  foldl (λ o p, obj_set o p.1 (JStr p.2)) empty_obj ps.

Definition readHttpPacked (b : list Z) : result ParsedHttpRequestPacked :=
  '(method_, o1) ← read_string b 0;
  '(path_, o2) ← read_string b o1;
  '(version_, o3) ← read_string b o2;
  headerCount ← readU32 b o3;
  hs ← read_pairs (Z.to_nat headerCount) b (o3 + 4);
  Ok {| method := method_; path := path_; version := version_;
        headers := headers_object hs |}.
End decoders.

(** [pairsToObject]: the first occurrence stores the string, the second turns
    it into an array, later ones push. *)
Definition pairs_step (out : jsobj) (p : list Z * list Z) : jsobj :=
  let '(key, value) := p in
  match obj_get out key with
  | None => obj_set out key (JStr value)
  | Some (JArr existing) => obj_push out key existing (JStr value)
  | Some existing => obj_set out key (JArr [existing; JStr value])
  end.
Definition pairsToObject (pairs : list (list Z * list Z)) : jsobj :=
  foldl pairs_step empty_obj pairs.

(** ** Packers *)

Definition packedTotal (items : list (list Z)) : Z :=
  foldl (λ total item, total + (4 + zlen item)) 4 items.

Fixpoint write_items (items : list (list Z)) (target : list Z) (pos : Z) : result (list Z) :=
  match items with
  | [] => Ok target
  | item :: items' =>
      t1 ← dv_set 4 target pos (zlen item);
      t2 ← ta_set t1 item (pos + 4);
      write_items items' t2 (pos + 4 + zlen item)
  end.

(** [writePack(items, target, offset)]: the end offset and the new target. *)
Definition writePack (items : list (list Z)) (target : list Z) (offset : Z)
    : result (Z * list Z) :=
  let end_ := offset + packedTotal items in
  if decide (end_ > zlen target)
  then Throw (RangeError "packed buffer: target too small")
  else
    t1 ← dv_set 4 target offset (zlen items);
    t2 ← write_items items t1 (offset + 4);
    Ok (end_, t2).

Definition packBatch (items : list (list Z)) : result (list Z) :=
  snd <$> writePack items (new_u8 (packedTotal items)) 0.

Fixpoint write_pairs (ps : list (list Z * list Z)) (out : list Z) (offset : Z)
    : result (list Z) :=
  match ps with
  | [] => Ok out
  | (key, value) :: ps' =>
      o1 ← dv_set 4 out offset (zlen key);
      o2 ← ta_set o1 key (offset + 4);
      o3 ← dv_set 4 o2 (offset + 4 + zlen key) (zlen value);
      o4 ← ta_set o3 value (offset + 4 + zlen key + 4);
      write_pairs ps' o4 (offset + 4 + zlen key + 4 + zlen value)
  end.

Definition packPairs (pairs : list (list Z * list Z)) : result (list Z) :=
  let encoded := (λ p, (encodeUtf8 p.1, encodeUtf8 p.2)) <$> pairs in
  let total := foldl (λ t p, t + (8 + zlen p.1 + zlen p.2)) 4 encoded in
  let out := new_u8 total in
  o1 ← dv_set 4 out 0 (zlen encoded);
  write_pairs encoded o1 4.

(** ** The reusable pack scratch

    [packScratchFree] is a stack of buffers.  [grow] is the doubling loop
    [while (size < min) size *= 2]; its fuel is the bit length of [min]. *)
Fixpoint grow (fuel : nat) (size min : Z) : Z :=
  match fuel with
  | O => size
  | S fuel' => if decide (size < min) then grow fuel' (size * 2) min else size
  end.

Definition acquirePackScratch (free : list (list Z)) (min : Z) : list Z * list (list Z) :=
  let '(buf, free') := default ([], free) (pop free) in
  if decide (zlen buf < min) then
    let size := grow (Z.to_nat (Z.log2_up min)) (Z.max 256 (zlen buf * 2)) min in
    (new_u8 size, free')
  else (buf, free').

Definition releasePackScratch (free : list (list Z)) (buf : list Z) : list (list Z) :=
  free ++ [buf].

(** [withPackScratch(items, fn)]: [fn] is the synchronous consumer; the second
    component is the free list afterwards, restored whether [fn] threw or not. *)
Definition withPackScratch {T} (items : list (list Z)) (fn : list Z → result T)
    (free : list (list Z)) : result T * list (list Z) :=
  let '(buf, free') := acquirePackScratch free (packedTotal items) in
  match writePack items buf 0 with
  | Throw e => (Throw e, free')
  | Ok (end_, buf') =>
      (fn (subarray buf' 0 end_), releasePackScratch free' buf')
  end.

Definition withPackScratch2 {T} (a b : list (list Z)) (fn : list Z → list Z → result T)
    (free : list (list Z)) : result T * list (list Z) :=
  let '(bufA, free1) := acquirePackScratch free (packedTotal a) in
  let '(bufB, free2) := acquirePackScratch free1 (packedTotal b) in
  match writePack a bufA 0 with
  | Throw e => (Throw e, free2)
  | Ok (endA, bufA') =>
      match writePack b bufB 0 with
      | Throw e => (Throw e, free2)
      | Ok (endB, bufB') =>
          (fn (subarray bufA' 0 endA) (subarray bufB' 0 endB),
           releasePackScratch (releasePackScratch free2 bufA') bufB')
      end
  end.

(** ** Layouts *)

Definition layout_item (i : list Z) : list Z := le_bytes 4 (zlen i) ++ i.
Definition layout_items (items : list (list Z)) : list Z := items ≫= layout_item.
Definition layout_batch (items : list (list Z)) : list Z :=
  le_bytes 4 (zlen items) ++ layout_items items.
Definition layout_pairs (ps : list (list Z * list Z)) : list Z :=
  ps ≫= λ p, layout_item p.1 ++ layout_item p.2.

(** A list whose length fits the u32 prefix. *)
Definition fits {A} (l : list A) : Prop := zlen l < U32.

Lemma layout_items_cons i items :
  layout_items (i :: items) = le_bytes 4 (zlen i) ++ i ++ layout_items items.
Proof.
  unfold layout_items, layout_item. cbn [mbind list_bind].
  by rewrite <-!(assoc_L (++)).
Qed.
Lemma layout_pairs_cons k v ps :
  layout_pairs ((k, v) :: ps) =
    le_bytes 4 (zlen k) ++ k ++ le_bytes 4 (zlen v) ++ v ++ layout_pairs ps.
Proof.
  unfold layout_pairs, layout_item. cbn [mbind list_bind fst snd].
  by rewrite <-!(assoc_L (++)).
Qed.

Lemma pow256_4 : 256 ^ Z.of_nat 4 = U32.
Proof. done. Qed.

Lemma readU32_app pre post off v :
  off = zlen pre → 0 ≤ v < U32 → readU32 (pre ++ le_bytes 4 v ++ post) off = Ok v.
Proof.
  intros -> Hv. unfold readU32. guards. by apply dv_get_app.
Qed.

Lemma readU32_head post v : 0 ≤ v < U32 → readU32 (le_bytes 4 v ++ post) 0 = Ok v.
Proof. intros. by apply (readU32_app []). Qed.

Lemma readSlice_app pre s post off len :
  off = zlen pre → len = zlen s → readSlice (pre ++ s ++ post) off len = Ok s.
Proof.
  intros -> ->. unfold readSlice. guards. f_equal. by apply subarray_app.
Qed.

Lemma readU32_inv pre rest off v :
  off = zlen pre → bytes_ok rest → readU32 (pre ++ rest) off = Ok v →
  0 ≤ v < U32 ∧ ∃ rest', rest = le_bytes 4 v ++ rest'.
Proof.
  intros -> Hb. unfold readU32. case_decide as Hg; [done|].
  unfold dv_get. rewrite decide_True by zlia. rewrite drop_zlen_app. intros [= <-].
  assert (length (take 4 rest) = 4%nat) as Hl
    by (rewrite length_take; unfold zlen in Hg; rewrite length_app in Hg; lia).
  pose proof (le_val_bound _ (bytes_ok_take 4 _ Hb)) as Hv.
  unfold zlen in Hv. rewrite Hl in Hv. split; [done|].
  exists (drop 4 rest). rewrite <-Hl at 1.
  rewrite le_bytes_le_val by auto with castrum. by rewrite take_drop.
Qed.

Lemma readSlice_inv pre rest off len s :
  off = zlen pre → readSlice (pre ++ rest) off len = Ok s →
  zlen s = len ∧ ∃ rest', rest = s ++ rest'.
Proof.
  intros ->. unfold readSlice. case_decide as Hg; [done|]. intros [= <-].
  assert (0 ≤ len ∧ len ≤ zlen rest) as [? ?] by (autorewrite with zlen in Hg; lia).
  rewrite zlen_subarray by zlia. split; [lia|].
  exists (drop (Z.to_nat len) rest).
  rewrite <-(take_drop (Z.to_nat len) rest) at 1 2.
  f_equal. symmetry. apply subarray_app; [done|]. rewrite zlen_take; lia.
Qed.

(** Reading at the frontier of a prefix, one field at a time. *)
Ltac frontier pre := rewrite ?(app_assoc pre); zlia.

Lemma read_items_layout items pre post off :
  off = zlen pre → Forall fits items →
  read_items (length items) (pre ++ layout_items items ++ post) off = Ok items.
Proof.
  intros -> Hf. revert pre. induction Hf as [|i items Hi Hf IH]; intros pre; [done|].
  cbn [read_items length]. rewrite layout_items_cons, <-!app_assoc.
  unfold fits in Hi. pose proof (zlen_nonneg i).
  rewrite readU32_app by (try done; lia). cbn [mbind result_bind].
  rewrite (app_assoc pre), readSlice_app by zlia. cbn [mbind result_bind].
  rewrite (app_assoc _ i). replace (zlen pre + 4 + zlen i)
    with (zlen ((pre ++ le_bytes 4 (zlen i)) ++ i)) by zlia.
  by rewrite IH.
Qed.

Lemma read_items_inv n pre rest off out :
  off = zlen pre → bytes_ok rest → read_items n (pre ++ rest) off = Ok out →
  length out = n ∧ Forall fits out ∧ ∃ post, rest = layout_items out ++ post.
Proof.
  intros ->. revert pre rest out. induction n as [|n IH]; intros pre rest out Hb.
  { intros [= <-]. split_and!; [done|constructor|by exists rest]. }
  cbn [read_items]. rewrite bind_Ok. intros (len & Hlen & Hr).
  apply readU32_inv in Hlen as [Hl [r1 ->]]; [|done|done].
  apply bytes_ok_app in Hb as [_ Hb]. rewrite app_assoc in Hr.
  apply bind_Ok in Hr as (s & Hs & Hr).
  apply readSlice_inv in Hs as [Hsl [r2 ->]]; [|zlia].
  apply bytes_ok_app in Hb as [_ Hb]. rewrite app_assoc in Hr.
  apply bind_Ok in Hr as (rest & Hrest & [= <-]).
  replace (zlen pre + 4 + len) with (zlen ((pre ++ le_bytes 4 len) ++ s)) in Hrest by zlia.
  apply IH in Hrest as (Hn & Hf & post & ->); [|done].
  split_and!; [by rewrite <-Hn|constructor; [unfold fits; lia|done]|].
  exists post. by rewrite layout_items_cons, Hsl, <-!app_assoc.
Qed.

Lemma packedTotal_layout items : packedTotal items = zlen (layout_batch items).
Proof.
  assert (∀ t, foldl (λ total item, total + (4 + zlen item)) t items =
               t + zlen (layout_items items)) as Hfold.
  { induction items as [|i items IH]; intros t; cbn [foldl]; [unfold zlen; simpl; lia|].
    rewrite IH, layout_items_cons. zlia. }
  unfold packedTotal, layout_batch. rewrite Hfold. zlia.
Qed.

Lemma write_items_frontier items pre rest pos :
  pos = zlen pre → zlen (layout_items items) ≤ zlen rest →
  write_items items (pre ++ rest) pos =
    Ok (pre ++ layout_items items ++ drop (length (layout_items items)) rest).
Proof.
  intros ->. revert pre rest. induction items as [|i items IH]; intros pre rest Hle; [done|].
  rewrite layout_items_cons in *. cbn [write_items].
  rewrite dv_set_frontier by zlia. cbn [mbind result_bind].
  rewrite app_assoc.
  assert (zlen (drop 4 rest) = zlen rest - 4) as Hd by (apply (zlen_drop 4); zlia).
  rewrite ta_set_frontier by zlia. cbn [mbind result_bind].
  rewrite app_assoc. replace (zlen pre + 4 + zlen i)
    with (zlen ((pre ++ le_bytes 4 (zlen i)) ++ i)) by zlia.
  rewrite IH.
  - f_equal. rewrite <-!app_assoc. do 4 f_equal. rewrite !drop_drop. f_equal.
    rewrite !length_app, length_le_bytes. lia.
  - rewrite zlen_drop_length; zlia.
Qed.

Lemma zlen_new_u8 n : 0 ≤ n → zlen (new_u8 n) = n.
Proof. intros. unfold new_u8. rewrite zlen_replicate. lia. Qed.

Lemma packedTotal_pos items : 4 ≤ packedTotal items.
Proof. rewrite packedTotal_layout. unfold layout_batch. zlia. Qed.

Lemma writePack_ok items target offset :
  0 ≤ offset → offset + packedTotal items ≤ zlen target →
  writePack items target offset =
    Ok (offset + packedTotal items, splice target offset (layout_batch items)).
Proof.
  intros Ho Hle. unfold writePack. rewrite decide_False by lia.
  rewrite packedTotal_layout in *. unfold layout_batch in *.
  rewrite <-(take_drop (Z.to_nat offset) target).
  assert (zlen (take (Z.to_nat offset) target) = offset) as Hp by (apply zlen_take; zlia).
  assert (zlen (drop (Z.to_nat offset) target) = zlen target - offset) as Hr
    by (apply zlen_drop; zlia).
  set (pre := take _ _) in *. set (rest := drop _ _) in *. clearbody pre rest.
  rewrite dv_set_frontier by zlia. cbn [mbind result_bind]. rewrite app_assoc.
  assert (zlen (drop 4 rest) = zlen rest - 4) as Hd by (apply (zlen_drop 4); zlia).
  rewrite write_items_frontier by zlia. cbn [mbind result_bind]. do 2 f_equal.
  rewrite splice_frontier by zlia. rewrite <-!(assoc_L (++)), drop_drop.
  by do 4 f_equal.
Qed.

Lemma splice_all {A} (b src : list A) : zlen b = zlen src → splice b 0 src = src.
Proof.
  intros Hl. unfold splice. simpl. rewrite drop_ge by (unfold zlen in Hl; lia).
  by rewrite app_nil_r.
Qed.

Lemma packBatch_layout items : packBatch items = Ok (layout_batch items).
Proof.
  unfold packBatch. pose proof (packedTotal_pos items).
  rewrite writePack_ok by (rewrite ?zlen_new_u8; lia). simpl.
  by rewrite splice_all by (rewrite zlen_new_u8, packedTotal_layout by lia; done).
Qed.

Lemma unpackByteResults_layout items post :
  fits items → Forall fits items →
  unpackByteResults (layout_batch items ++ post) = Ok items.
Proof.
  intros Hf Hfs. unfold unpackByteResults, layout_batch. rewrite <-(assoc_L (++)).
  rewrite decide_False by zlia. pose proof (zlen_nonneg items).
  rewrite readU32_head by (unfold fits in Hf; lia). cbn [mbind result_bind].
  unfold zlen at 1. rewrite Nat2Z.id. apply read_items_layout; [by rewrite zlen_le_bytes|done].
Qed.

Lemma unpackByteResults_inv b out :
  bytes_ok b → 4 ≤ zlen b → unpackByteResults b = Ok out →
  fits out ∧ Forall fits out ∧ ∃ post, b = layout_batch out ++ post.
Proof.
  intros Hb Hl. unfold unpackByteResults. rewrite decide_False by lia.
  rewrite bind_Ok. intros (count & Hc & Hr).
  apply (readU32_inv []) in Hc as [Hc [rest ->]]; [|done|done].
  apply bytes_ok_app in Hb as [_ Hb].
  apply read_items_inv in Hr as (Hn & Hfs & post & ->); [|by rewrite zlen_le_bytes|done].
  assert (zlen out = count) as Hz by (unfold zlen; lia).
  split_and!; [unfold fits; lia|done|]. exists post.
  unfold layout_batch. by rewrite Hz, <-(assoc_L (++)).
Qed.

(** [packBatch] always succeeds, and unpacking its buffer gives back the
    items, for every batch whose lengths fit their u32 prefixes. *)
Theorem packBatch_roundtrip items :
  fits items → Forall fits items →
  ∃ b, packBatch items = Ok b ∧ zlen b = packedTotal items ∧
       unpackByteResults b = Ok items.
Proof.
  intros Hf Hfs. exists (layout_batch items). split_and!.
  - apply packBatch_layout.
  - by rewrite packedTotal_layout.
  - rewrite <-(app_nil_r (layout_batch items)). by apply unpackByteResults_layout.
Qed.

Lemma packBatch_roundtrip_witness :
  ∃ b, packBatch [js "ab"; []; js "xyz"] = Ok b ∧ zlen b = 21 ∧
       unpackByteResults b = Ok [js "ab"; []; js "xyz"].
Proof.
  apply (packBatch_roundtrip [js "ab"; []; js "xyz"]); [done|].
  repeat constructor.
Defined.

(** The item decoder accepts exactly the buffers that start with the layout
    of their result: no slice is read outside the buffer, nothing is skipped,
    and trailing bytes are ignored. *)
Theorem unpackByteResults_exact b out :
  bytes_ok b → 4 ≤ zlen b →
  unpackByteResults b = Ok out ↔
    fits out ∧ Forall fits out ∧ ∃ post, b = layout_batch out ++ post.
Proof.
  intros Hb Hl. split; [by apply unpackByteResults_inv|].
  intros (Hf & Hfs & post & ->). by apply unpackByteResults_layout.
Qed.

Lemma unpackByteResults_exact_witness :
  unpackByteResults [1; 0; 0; 0; 2; 0; 0; 0; 7; 8; 99] = Ok [[7; 8]].
Proof.
  apply (unpackByteResults_exact [1; 0; 0; 0; 2; 0; 0; 0; 7; 8; 99] [[7; 8]]);
    [repeat constructor; lia|vm_compute; congruence|].
  split_and!; [done|repeat constructor|]. by exists [99].
Defined.

(** [writePack] throws exactly when the packed batch does not fit after
    [offset]; otherwise it returns the end offset, stores the batch layout at
    [offset] and leaves every other byte of the target unchanged. *)
Theorem writePack_spec items target offset :
  0 ≤ offset →
  writePack items target offset =
    if decide (offset + packedTotal items > zlen target)
    then Throw (RangeError "packed buffer: target too small")
    else Ok (offset + packedTotal items, splice target offset (layout_batch items)).
Proof.
  intros Ho. case_decide as Hd; [|apply writePack_ok; lia].
  unfold writePack. by rewrite decide_True.
Qed.

Lemma writePack_spec_witness :
  writePack [[5; 6]] [9; 0; 0; 0; 0; 0; 0; 0; 0; 0; 0; 9] 1 =
    Ok (11, [9; 1; 0; 0; 0; 2; 0; 0; 0; 5; 6; 9]).
Proof.
  rewrite (writePack_spec [[5; 6]] [9; 0; 0; 0; 0; 0; 0; 0; 0; 0; 0; 9] 1 ltac:(lia)).
  vm_compute. reflexivity.
Defined.

(** ** Bitsets and integer arrays *)

Lemma le_val_testbit l i :
  bytes_ok l → 0 ≤ i →
  Z.testbit (le_val l) i = Z.testbit (default 0 (l !! Z.to_nat (i / 8))) (i mod 8).
Proof.
  intros Hl. revert i. induction Hl as [|b l Hb Hl IH]; intros i Hi.
  { cbn. by rewrite !Z.bits_0. }
  unfold is_byte in Hb. cbn [le_val]. destruct (decide (i < 8)) as [Hlt|Hge].
  - rewrite Z.div_small, Z.mod_small by lia. simpl.
    rewrite <-(Z.mod_pow2_bits_low _ 8 i) by lia. f_equal. change (2 ^ 8) with 256.
    rewrite (Z.mul_comm 256), Z.mod_add by lia. by apply Z.mod_small.
  - assert (1 ≤ i / 8) by (apply Z.div_le_lower_bound; lia).
    replace (Z.to_nat (i / 8)) with (S (Z.to_nat ((i - 8) / 8))).
    + cbn [lookup list_lookup]. replace (i mod 8) with ((i - 8) mod 8).
      * rewrite <-IH by lia. replace i with ((i - 8) + 8) at 1 by lia.
        rewrite <-Z.div_pow2_bits by lia. f_equal. change (2 ^ 8) with 256.
        rewrite (Z.mul_comm 256), Z.div_add by lia. rewrite (Z.div_small b); lia.
      * Z.div_mod_to_equations. lia.
    + Z.div_mod_to_equations. lia.
Qed.

Lemma bit_of_byte byte i :
  0 ≤ i → Z.land (Z.shiftr byte (Z.land i 7)) 1 = Z.b2z (Z.testbit byte (i mod 8)).
Proof.
  intros Hi. change 7 with (Z.ones 3). change 1 with (Z.ones 1).
  rewrite !Z.land_ones by lia. change (2 ^ 1) with 2. change (2 ^ 3) with 8.
  rewrite <-Z.bit0_mod, Z.shiftr_spec by lia. by rewrite Z.add_0_l.
Qed.

Lemma unpackBitset_layout count bits :
  0 ≤ count < U32 → bytes_ok bits →
  unpackBitset (le_bytes 4 count ++ bits) =
    if decide (zlen bits < (count + 7) / 8)
    then Throw (RangeError "packed buffer: truncated bitset")
    else Ok ((λ i, Z.b2z (Z.testbit (le_val bits) i)) <$> seqZ 0 count).
Proof.
  intros Hc Hb. unfold unpackBitset. rewrite decide_False by zlia.
  rewrite readU32_head by done. cbn [mbind result_bind].
  replace (subarray (le_bytes 4 count ++ bits) 4 (zlen (le_bytes 4 count ++ bits))) with bits.
  - rewrite zlen_app, zlen_le_bytes. repeat case_decide; try lia; [done|].
    f_equal. apply list_fmap_ext. intros j i Hi. apply lookup_seqZ in Hi as [-> Hj].
    rewrite (Z.shiftr_div_pow2 (0 + Z.of_nat j) 3) by lia. change (2 ^ 3) with 8.
    rewrite bit_of_byte by lia. by rewrite le_val_testbit by (done || lia).
  - symmetry. rewrite <-(app_nil_r bits) at 1.
    apply subarray_app; by autorewrite with zlen.
Qed.

(** [unpackBitset] decodes item [i] from bit [i] of the little-endian
    integer formed by the bytes after the count, for every buffer long enough
    for its count, and throws on every shorter one. *)
Theorem unpackBitset_spec count bits :
  0 ≤ count < U32 → bytes_ok bits →
  unpackBitset (le_bytes 4 count ++ bits) =
    if decide (zlen bits < (count + 7) / 8)
    then Throw (RangeError "packed buffer: truncated bitset")
    else Ok ((λ i, Z.b2z (Z.testbit (le_val bits) i)) <$> seqZ 0 count).
Proof. apply unpackBitset_layout. Qed.

Lemma unpackBitset_spec_witness :
  unpackBitset (le_bytes 4 10 ++ [0xA5; 3]) = Ok [1; 0; 1; 0; 0; 1; 0; 1; 1; 1].
Proof.
  rewrite (unpackBitset_spec 10 [0xA5; 3] ltac:(unfold U32; lia)
             ltac:(repeat constructor; lia)).
  vm_compute. reflexivity.
Defined.

Lemma mapM_Ok {A B} (f : A → result B) (g : A → B) (l : list A) :
  (∀ x, x ∈ l → f x = Ok (g x)) → mapM f l = Ok (g <$> l).
Proof.
  induction l as [|x l IH]; intros Hf; [done|].
  cbn [mapM]. rewrite Hf by set_solver. cbn [mbind result_bind].
  rewrite IH by set_solver. done.
Qed.

(** The [i]-th fixed-width field of a packed array. *)
Lemma dv_get_nth n pre (vs : list Z) post i v :
  vs !! i = Some v → Forall (λ v, 0 ≤ v < 256 ^ Z.of_nat n) vs →
  dv_get n (pre ++ (vs ≫= le_bytes n) ++ post) (zlen pre + Z.of_nat i * Z.of_nat n) = Ok v.
Proof.
  revert pre i. induction vs as [|w vs IH]; intros pre i Hi Hvs; [done|].
  inversion_clear Hvs as [|? ? Hw Hvs']. cbn [mbind list_bind]. rewrite <-(assoc_L (++)).
  destruct i as [|i]; simpl in Hi.
  - simplify_eq. apply dv_get_app; [lia|done].
  - rewrite (assoc_L (++) pre).
    replace (zlen pre + Z.of_nat (S i) * Z.of_nat n)
      with (zlen (pre ++ le_bytes n w) + Z.of_nat i * Z.of_nat n) by zlia.
    by apply IH.
Qed.

Lemma zlen_fields n (vs : list Z) : zlen (vs ≫= le_bytes n) = zlen vs * Z.of_nat n.
Proof. induction vs as [|v vs IH]; [done|]. cbn [mbind list_bind]. zlia. Qed.

Lemma seqZ_lookup_total (vs : list Z) (f : Z → Z) :
  (∀ i v, vs !! i = Some v → f (Z.of_nat i) = v) → f <$> seqZ 0 (zlen vs) = vs.
Proof.
  intros Hf. apply list_eq. intros i. rewrite list_lookup_fmap.
  destruct (decide (i < length vs)%nat) as [Hi|Hi].
  - destruct (lookup_lt_is_Some_2 vs i Hi) as [v Hv]. rewrite Hv.
    rewrite lookup_seqZ_lt by (unfold zlen; lia). simpl.
    by rewrite Z.add_0_l, (Hf i v Hv).
  - rewrite lookup_seqZ_ge by (unfold zlen; lia). simpl. by rewrite lookup_ge_None_2 by lia.
Qed.

Lemma to_i64_wrap v : -2 ^ 63 ≤ v < 2 ^ 63 → to_i64 (v mod 2 ^ 64) = v.
Proof.
  intros Hv. unfold to_i64. destruct (decide (0 ≤ v)).
  - rewrite Z.mod_small by lia. by rewrite decide_True by lia.
  - replace (v mod 2 ^ 64) with (v + 2 ^ 64).
    + rewrite decide_False by lia. lia.
    + rewrite <-(Z.mod_add v 1) by lia. rewrite Z.mod_small; lia.
Qed.

Lemma le_bytes_mod n v : le_bytes n (v mod 256 ^ Z.of_nat n) = le_bytes n v.
Proof.
  rewrite <-le_val_le_bytes. rewrite <-(length_le_bytes n v) at 1.
  apply le_bytes_le_val, le_bytes_ok.
Qed.

(** A packed array of [u64]s passes the count guard, and each field reads back. *)
Definition packed64 (count : Z) (ws post : list Z) : list Z :=
  le_bytes 4 count ++ (ws ≫= le_bytes 8) ++ post.

Lemma packed64_guard ws post :
  ¬ zlen (packed64 (zlen ws) ws post) < 4 ∧
  ¬ zlen ws > (zlen (packed64 (zlen ws) ws post) - 4) / 8.
Proof.
  unfold packed64. rewrite !zlen_app, zlen_fields, zlen_le_bytes. zlen_facts.
  split; [lia|]. Z.div_mod_to_equations. lia.
Qed.

Lemma packed64_count ws post :
  fits ws → readU32 (packed64 (zlen ws) ws post) 0 = Ok (zlen ws).
Proof. intros Hf. unfold packed64, fits in *. apply readU32_head. zlia. Qed.

Lemma packed64_get ws post x :
  Forall (λ v, 0 ≤ v < 2 ^ 64) ws → x ∈ seqZ 0 (zlen ws) →
  dv_get 8 (packed64 (zlen ws) ws post) (4 + x * 8) = Ok (default 0 (ws !! Z.to_nat x)).
Proof.
  intros Hws [Hx1 Hx2]%elem_of_seqZ.
  destruct (lookup_lt_is_Some_2 ws (Z.to_nat x)) as [w Hlw]; [unfold zlen in *; lia|].
  rewrite Hlw. replace (4 + x * 8)
    with (zlen (le_bytes 4 (zlen ws)) + Z.of_nat (Z.to_nat x) * Z.of_nat 8)
    by (rewrite zlen_le_bytes; lia).
  by apply dv_get_nth.
Qed.

Lemma packed64_wrap count vs post :
  packed64 count vs post = packed64 count ((λ v, v mod 2 ^ 64) <$> vs) post.
Proof.
  unfold packed64. do 2 f_equal. induction vs as [|v vs IH]; [done|].
  cbn [mbind list_bind fmap list_fmap]. f_equal; [|done].
  symmetry. apply (le_bytes_mod 8).
Qed.

(** Reading the [i]-th [u32] of a packed array. *)
Lemma packed32_get vs post x :
  Forall (λ v, 0 ≤ v < U32) vs → x ∈ seqZ 0 (zlen vs) →
  dv_get 4 (le_bytes 4 (zlen vs) ++ (vs ≫= le_bytes 4) ++ post) (4 + x * 4) =
    Ok (default 0 (vs !! Z.to_nat x)).
Proof.
  intros Hvs [Hx1 Hx2]%elem_of_seqZ.
  destruct (lookup_lt_is_Some_2 vs (Z.to_nat x)) as [w Hlw]; [unfold zlen in *; lia|].
  rewrite Hlw. replace (4 + x * 4)
    with (zlen (le_bytes 4 (zlen vs)) + Z.of_nat (Z.to_nat x) * Z.of_nat 4)
    by (rewrite zlen_le_bytes; lia).
  apply dv_get_nth; [done|]. by rewrite pow256_4.
Qed.

Lemma unpackU32_layout vs post :
  fits vs → Forall (λ v, 0 ≤ v < U32) vs →
  unpackU32Array (le_bytes 4 (zlen vs) ++ (vs ≫= le_bytes 4) ++ post) = Ok vs.
Proof.
  intros Hf Hvs. unfold fits in Hf. unfold unpackU32Array.
  assert (Hz : zlen (le_bytes 4 (zlen vs) ++ (vs ≫= le_bytes 4) ++ post)
             = 4 + zlen vs * 4 + zlen post)
    by (rewrite !zlen_app, zlen_fields, zlen_le_bytes; lia).
  rewrite decide_False by (rewrite Hz; zlia).
  rewrite readU32_head by (zlen_facts; lia). cbn [mbind result_bind].
  rewrite decide_False by (rewrite Hz; zlen_facts; Z.div_mod_to_equations; lia).
  rewrite (mapM_Ok _ (λ x, default 0 (vs !! Z.to_nat x))).
  - f_equal. apply seqZ_lookup_total. intros i v Hi. by rewrite Nat2Z.id, Hi.
  - intros x Hx. unfold readU32. apply elem_of_seqZ in Hx as Hx'.
    rewrite decide_False by (rewrite Hz; zlen_facts; lia). by apply packed32_get.
Qed.

Lemma unpackU64_layout vs post :
  fits vs → Forall (λ v, 0 ≤ v < 2 ^ 64) vs →
  unpackU64ArrayAsBigInt (packed64 (zlen vs) vs post) = Ok vs.
Proof.
  intros Hf Hvs. unfold fits in Hf. unfold unpackU64ArrayAsBigInt.
  destruct (packed64_guard vs post) as [Hg1 Hg2]. rewrite decide_False by done.
  rewrite packed64_count by (unfold fits; zlia). cbn [mbind result_bind].
  rewrite decide_False by done.
  rewrite (mapM_Ok _ (λ x, default 0 (vs !! Z.to_nat x))).
  - f_equal. apply seqZ_lookup_total. intros i v Hi. by rewrite Nat2Z.id, Hi.
  - intros x Hx. by apply packed64_get.
Qed.

Lemma unpackI64_layout vs post :
  fits vs → Forall (λ v, -2 ^ 63 ≤ v < 2 ^ 63) vs →
  unpackI64ArrayAsBigInt (packed64 (zlen vs) vs post) = Ok vs.
Proof.
  intros Hf Hvs. unfold fits in Hf. rewrite packed64_wrap.
  set (ws := (λ v, v mod 2 ^ 64) <$> vs).
  assert (zlen vs = zlen ws) as Hw by (symmetry; apply zlen_fmap).
  assert (Forall (λ v, 0 ≤ v < 2 ^ 64) ws) as Hws
    by (apply Forall_fmap, Forall_true; intros v; by apply Z.mod_pos_bound).
  rewrite Hw. unfold unpackI64ArrayAsBigInt.
  destruct (packed64_guard ws post) as [Hg1 Hg2]. rewrite decide_False by done.
  rewrite packed64_count by (unfold fits; zlia). cbn [mbind result_bind].
  rewrite decide_False by done.
  rewrite (mapM_Ok _ (λ x, to_i64 (default 0 (ws !! Z.to_nat x)))).
  - f_equal. rewrite <-Hw. apply seqZ_lookup_total. intros i v Hi. rewrite Nat2Z.id.
    unfold ws. rewrite list_lookup_fmap, Hi. apply to_i64_wrap.
    by eapply (proj1 (Forall_lookup _ _) Hvs).
  - intros x Hx. by rewrite packed64_get.
Qed.

(** The signed and the unsigned 64-bit unpackers recover every array from
    its packed form: [i64] values from their two's complement encoding, [u64]
    values verbatim. *)
Theorem unpack64_roundtrip (vs : list Z) post :
  fits vs →
  (Forall (λ v, -2 ^ 63 ≤ v < 2 ^ 63) vs →
   unpackI64ArrayAsBigInt (packed64 (zlen vs) vs post) = Ok vs) ∧
  (Forall (λ v, 0 ≤ v < 2 ^ 64) vs →
   unpackU64ArrayAsBigInt (packed64 (zlen vs) vs post) = Ok vs).
Proof. auto using unpackI64_layout, unpackU64_layout. Qed.

Lemma unpack64_roundtrip_witness :
  unpackI64ArrayAsBigInt (packed64 2 [-5; 7] [1]) = Ok [-5; 7].
Proof.
  apply (proj1 (unpack64_roundtrip [-5; 7] [1] ltac:(done))). repeat constructor; lia.
Defined.

(** ** String pairs *)

Lemma write_pairs_frontier ps pre rest off :
  off = zlen pre → zlen (layout_pairs ps) ≤ zlen rest →
  write_pairs ps (pre ++ rest) off =
    Ok (pre ++ layout_pairs ps ++ drop (length (layout_pairs ps)) rest).
Proof.
  intros ->. revert pre rest.
  induction ps as [|[k v] ps IH]; intros pre rest Hle; [done|].
  rewrite layout_pairs_cons in *. cbn [write_pairs].
  assert (zlen (drop 4 rest) = zlen rest - 4) as H1 by (apply (zlen_drop 4); zlia).
  assert (zlen (drop (length k) (drop 4 rest)) = zlen rest - 4 - zlen k) as H2
    by (rewrite zlen_drop_length, H1 by zlia; done).
  assert (zlen (drop 4 (drop (length k) (drop 4 rest))) = zlen rest - 8 - zlen k) as H3
    by (rewrite (zlen_drop 4) by zlia; lia).
  rewrite dv_set_frontier by zlia. cbn [mbind result_bind]. rewrite (assoc_L (++)).
  rewrite ta_set_frontier by zlia. cbn [mbind result_bind]. rewrite (assoc_L (++)).
  rewrite dv_set_frontier by zlia. cbn [mbind result_bind]. rewrite (assoc_L (++)).
  rewrite ta_set_frontier by zlia. cbn [mbind result_bind]. rewrite (assoc_L (++)).
  replace (zlen pre + 4 + zlen k + 4 + zlen v)
    with (zlen ((((pre ++ le_bytes 4 (zlen k)) ++ k) ++ le_bytes 4 (zlen v)) ++ v)) by zlia.
  rewrite IH by (rewrite zlen_drop_length; zlia).
  f_equal. rewrite <-!(assoc_L (++)). do 6 f_equal. rewrite !drop_drop. f_equal.
  rewrite !length_app, !length_le_bytes. lia.
Qed.

Lemma read_pairs_layout `{Codec} ps pre post off :
  off = zlen pre → Forall (λ p, fits p.1 ∧ fits p.2) ps →
  read_pairs (length ps) (pre ++ layout_pairs ps ++ post) off =
    Ok ((λ p, (decodeUtf8 p.1, decodeUtf8 p.2)) <$> ps).
Proof.
  intros -> Hf. revert pre.
  induction Hf as [|[k v] ps [Hk Hv] Hf IH]; intros pre; [done|].
  simpl in Hk, Hv. unfold fits in Hk, Hv. cbn [read_pairs length].
  rewrite layout_pairs_cons, <-!(assoc_L (++)).
  rewrite readU32_app by zlia. cbn [mbind result_bind]. rewrite (assoc_L (++) pre).
  rewrite readSlice_app by zlia. cbn [mbind result_bind]. rewrite (assoc_L (++) _ k).
  rewrite readU32_app by zlia. cbn [mbind result_bind].
  rewrite (assoc_L (++) _ (le_bytes 4 (zlen v))).
  rewrite readSlice_app by zlia. cbn [mbind result_bind]. rewrite (assoc_L (++) _ v).
  replace (zlen pre + 4 + zlen k + 4 + zlen v)
    with (zlen ((((pre ++ le_bytes 4 (zlen k)) ++ k) ++ le_bytes 4 (zlen v)) ++ v)) by zlia.
  by rewrite IH.
Qed.

(** The UTF-8 bytes of a list of string pairs. *)
Definition encode_pairs (ps : list (list Z * list Z)) : list (list Z * list Z) :=
  (λ p, (encodeUtf8 p.1, encodeUtf8 p.2)) <$> ps.

Lemma packPairs_layout ps :
  packPairs ps = Ok (le_bytes 4 (zlen ps) ++ layout_pairs (encode_pairs ps)).
Proof.
  unfold packPairs. fold (encode_pairs ps). set (enc := encode_pairs ps).
  assert (∀ t, foldl (λ t p, t + (8 + zlen p.1 + zlen p.2)) t enc =
               t + zlen (layout_pairs enc)) as Hfold.
  { induction enc as [|[k v] enc IH]; intros t; cbn [foldl]; [unfold zlen; simpl; lia|].
    rewrite IH, layout_pairs_cons. simpl. zlia. }
  rewrite Hfold. set (n := 4 + zlen (layout_pairs enc)).
  assert (zlen (new_u8 n) = n) as Hn by (apply zlen_new_u8; unfold n; zlia).
  rewrite (dv_set_frontier 4 [] (new_u8 n)) by (unfold n in *; zlia).
  cbn [mbind result_bind app].
  assert (zlen (drop 4 (new_u8 n)) = zlen (layout_pairs enc)) as Hd
    by (rewrite (zlen_drop 4) by (unfold n in *; zlia); unfold n in *; lia).
  rewrite write_pairs_frontier by (rewrite ?zlen_le_bytes, ?Hd; lia).
  rewrite (drop_ge _ (length (layout_pairs enc))) by (unfold zlen in Hd; lia).
  unfold enc at 1, encode_pairs at 1. by rewrite app_nil_r, zlen_fmap.
Qed.

Definition pair_text_ok (p : list Z * list Z) : Prop :=
  text_ok p.1 ∧ text_ok p.2 ∧ fits (encodeUtf8 p.1) ∧ fits (encodeUtf8 p.2).

Lemma decode_encode_pairs `{Codec} ps :
  Forall pair_text_ok ps →
  (λ p, (decodeUtf8 p.1, decodeUtf8 p.2)) <$> encode_pairs ps = ps.
Proof.
  induction 1 as [|[k v] ps (Hk & Hv & _) Hps IH]; [done|].
  unfold encode_pairs in *. cbn [fmap list_fmap fst snd] in *.
  rewrite !decode_encode by done. by f_equal.
Qed.

(** Packing string pairs and reading them back with either runtime's
    decoder gives the pairs unchanged, for well-formed strings that do not
    start with a byte-order mark and whose encodings fit a u32 length. *)
Theorem packPairs_roundtrip `{Codec} ps :
  fits ps → Forall pair_text_ok ps →
  ∃ b, packPairs ps = Ok b ∧ readPairsPacked b = Ok ps.
Proof.
  intros Hf Hps. rewrite packPairs_layout. eexists. split; [done|].
  unfold readPairsPacked. rewrite decide_False by zlia.
  unfold fits in Hf. rewrite readU32_head by zlia. cbn [mbind result_bind].
  case_decide as Hz; [by rewrite (zlen_0 _ Hz)|].
  rewrite <-(app_nil_r (layout_pairs _)).
  unfold zlen at 1. rewrite Nat2Z.id.
  replace (length ps) with (length (encode_pairs ps)) by apply length_fmap.
  rewrite read_pairs_layout; [by rewrite decode_encode_pairs|by rewrite zlen_le_bytes|].
  apply Forall_fmap. eapply Forall_impl; [done|]. unfold pair_text_ok. naive_solver.
Qed.

Lemma packPairs_roundtrip_witness :
  ∃ b, packPairs [(js "a", js "1"); (js "b", [0xE9; 0x20AC])] = Ok b ∧
       @readPairsPacked node_codec b = Ok [(js "a", js "1"); (js "b", [0xE9; 0x20AC])].
Proof.
  apply (@packPairs_roundtrip node_codec [(js "a", js "1"); (js "b", [0xE9; 0x20AC])]);
    [done|].
  repeat constructor; simpl; unfold is_unit; try lia; vm_compute; congruence.
Defined.

(** ** The scratch pool *)

Lemma grow_ge fuel size min :
  0 < size → min ≤ size * 2 ^ Z.of_nat fuel → min ≤ grow fuel size min.
Proof.
  revert size. induction fuel as [|fuel IH]; intros size Hs Hm; cbn [grow].
  { by rewrite Z.mul_1_r in Hm. }
  case_decide; [|lia]. apply IH; [lia|].
  rewrite Nat2Z.inj_succ, Z.pow_succ_r in Hm by lia. lia.
Qed.

Lemma acquirePackScratch_size free min buf free' :
  acquirePackScratch free min = (buf, free') → min ≤ zlen buf.
Proof.
  unfold acquirePackScratch. destruct (default _ (pop free)) as [buf0 free0].
  case_decide as Hd; intros [= <- <-]; [|lia]. pose proof (zlen_nonneg buf0).
  match goal with |- context [grow ?f ?s min] =>
    pose proof (grow_ge f s min ltac:(lia)) as Hg; set (g := grow f s min) in * end.
  assert (min ≤ g) as Hm.
  { apply Hg. rewrite Z2Nat.id by apply Z.log2_up_nonneg.
    assert (min ≤ 2 ^ Z.log2_up min) as Hp.
    { destruct (decide (min ≤ 1)); [rewrite Z.log2_up_eqn0 by lia; lia|].
      apply Z.log2_up_spec. lia. }
    nia. }
  rewrite zlen_new_u8; lia.
Qed.

Lemma acquirePackScratch_free free min buf free' :
  acquirePackScratch free min = (buf, free') → length free' = (length free - 1)%nat.
Proof.
  unfold acquirePackScratch, pop. destruct free as [|b0 free0] using rev_ind.
  { simpl. case_decide; intros [= <- <-]; done. }
  rewrite last_snoc. simpl. case_decide; intros [= <- <-];
    rewrite length_take, !length_app; simpl; lia.
Qed.

Lemma write_scratch items buf :
  packedTotal items ≤ zlen buf →
  ∃ buf', writePack items buf 0 = Ok (packedTotal items, buf') ∧
          subarray buf' 0 (packedTotal items) = layout_batch items.
Proof.
  intros Hl. rewrite writePack_ok by lia. eexists. split; [done|].
  unfold splice. change (take (Z.to_nat 0) buf) with (@nil Z). cbn [app].
  rewrite packedTotal_layout. apply subarray_prefix.
Qed.

Lemma withPackScratch_layout {T} items (fn : list Z → result T) free :
  (withPackScratch items fn free).1 = fn (layout_batch items) ∧
  length (withPackScratch items fn free).2 = Nat.max 1 (length free).
Proof.
  unfold withPackScratch. destruct (acquirePackScratch _ _) as [buf free'] eqn:Ha.
  pose proof (acquirePackScratch_size _ _ _ _ Ha) as Hs.
  pose proof (acquirePackScratch_free _ _ _ _ Ha) as Hf.
  destruct (write_scratch items buf Hs) as (buf' & -> & Hsub). simpl.
  rewrite Hsub. split; [done|]. unfold releasePackScratch. rewrite length_app. simpl. lia.
Qed.

(** [withPackScratch] hands its consumer exactly the packed batch, whatever
    the recycled buffer contained and however small it was; packing never
    throws, and the buffer returns to the free list even when the consumer
    throws, so the list holds [max 1 n] buffers afterwards. *)
Theorem withPackScratch_spec {T} items (fn : list Z → result T) free :
  (withPackScratch items fn free).1 = fn (layout_batch items) ∧
  length (withPackScratch items fn free).2 = Nat.max 1 (length free).
Proof. apply withPackScratch_layout. Qed.

(** The paired form packs both lists into two distinct buffers: the
    consumer sees both packed batches, and both buffers are returned. *)
Theorem withPackScratch2_spec {T} a b (fn : list Z → list Z → result T) free :
  (withPackScratch2 a b fn free).1 = fn (layout_batch a) (layout_batch b) ∧
  length (withPackScratch2 a b fn free).2 = Nat.max 2 (length free).
Proof.
  unfold withPackScratch2. destruct (acquirePackScratch free _) as [bufA free1] eqn:Ha.
  destruct (acquirePackScratch free1 _) as [bufB free2] eqn:Hb.
  pose proof (acquirePackScratch_free _ _ _ _ Ha) as Hfa.
  pose proof (acquirePackScratch_free _ _ _ _ Hb) as Hfb.
  destruct (write_scratch a bufA (acquirePackScratch_size _ _ _ _ Ha)) as (bufA' & -> & Hsa).
  destruct (write_scratch b bufB (acquirePackScratch_size _ _ _ _ Hb)) as (bufB' & -> & Hsb).
  simpl. rewrite Hsa, Hsb. split; [done|]. unfold releasePackScratch.
  rewrite !length_app. simpl. lia.
Qed.

(** ** Folding pairs into an object *)

(** The values of [key], in order, and their representation in the object. *)
Definition values_of (key : list Z) (ps : list (list Z * list Z)) : list (list Z) :=
  (filter (λ p, p.1 = key) ps).*2.
Definition collected (vs : list (list Z)) : option jsval :=
  match vs with
  | [] => None
  | [v] => Some (JStr v)
  | _ => Some (JArr (JStr <$> vs))
  end.
(** The keys in order of their first occurrence. *)
Definition first_keys (ps : list (list Z * list Z)) : list (list Z) :=
  foldl (λ acc p, if decide (p.1 ∈ acc) then acc else acc ++ [p.1]) [] ps.

Lemma values_of_snoc key ps k v :
  values_of key (ps ++ [(k, v)]) =
    values_of key ps ++ (if decide (k = key) then [v] else []).
Proof.
  unfold values_of. rewrite filter_app, fmap_app. f_equal.
  rewrite filter_cons, filter_nil. simpl. by case_decide.
Qed.

Lemma values_of_nil key ps : values_of key ps = [] ↔ key ∉ ps.*1.
Proof.
  unfold values_of. induction ps as [|[k v] ps IH]; [simpl; set_solver|].
  rewrite filter_cons. simpl. case_decide; simpl; set_solver.
Qed.

Lemma collected_snoc vs v :
  collected (vs ++ [v]) =
    match collected vs with
    | None => Some (JStr v)
    | Some (JArr l) => Some (JArr (l ++ [JStr v]))
    | Some x => Some (JArr [x; JStr v])
    end.
Proof. destruct vs as [|a [|b vs]]; simpl; [done..|]. by rewrite fmap_app. Qed.

Lemma pairs_step_plain m k v vs :
  plain_key k → mget k m = collected vs →
  ∃ x, collected (vs ++ [v]) = Some x ∧
       pairs_step (Obj m None) (k, v) = Obj (mset k x m) None.
Proof.
  intros Hk Hm. rewrite collected_snoc. unfold pairs_step.
  rewrite obj_get_plain, Hm by done. destruct (collected vs) as [[]|] eqn:Hc;
    eexists; (split; [reflexivity|]); try by rewrite obj_set_plain.
  unfold obj_push. simpl. by rewrite Hm.
Qed.

Lemma pairsToObject_plain ps :
  Forall (λ p, plain_key p.1) ps →
  ∃ m, pairsToObject ps = Obj m None ∧ mkeys m = first_keys ps ∧
       ∀ key, mget key m = collected (values_of key ps).
Proof.
  induction ps as [|[k v] ps IH] using rev_ind; intros Hps; [by exists []|].
  apply Forall_app in Hps as [Hps Hk]. inversion_clear Hk as [|? ? Hk' _].
  simpl in Hk'. rename Hk' into Hk. destruct (IH Hps) as (m & Hm & Hkeys & Hget).
  destruct (pairs_step_plain m k v _ Hk (Hget k)) as (x & Hx & Hstep).
  exists (mset k x m). unfold pairsToObject, first_keys in *.
  rewrite !foldl_snoc, Hm, Hstep, <-Hkeys. simpl. split_and!; [done| |].
  - case_decide; [by apply mkeys_mset_old|by apply mkeys_mset_new].
  - intros key. rewrite values_of_snoc, mget_mset. repeat case_decide; simplify_eq; auto.
    by rewrite app_nil_r.
Qed.

(** Folding pairs into an object groups them by name: for keys that are not
    members of [Object.prototype], a name that occurs once maps to its value, a
    repeated name to the array of all its values in order, an absent one to
    [undefined], and the keys are enumerated in order of first occurrence. *)
Theorem pairsToObject_groups ps key :
  Forall (λ p, plain_key p.1) ps → plain_key key →
  obj_get (pairsToObject ps) key = collected (values_of key ps) ∧
  mkeys (own (pairsToObject ps)) = first_keys ps.
Proof.
  intros Hps Hk. destruct (pairsToObject_plain ps Hps) as (m & -> & Hkeys & Hget).
  by rewrite obj_get_plain, Hget.
Qed.

Lemma pairsToObject_groups_witness :
  obj_get (pairsToObject [(js "a", js "1"); (js "b", js "2"); (js "a", js "3")]) (js "a") =
    Some (JArr [JStr (js "1"); JStr (js "3")]).
Proof.
  rewrite (proj1 (pairsToObject_groups
    [(js "a", js "1"); (js "b", js "2"); (js "a", js "3")] (js "a")
    ltac:(repeat constructor; vm_compute; set_solver) ltac:(vm_compute; set_solver))).
  vm_compute. reflexivity.
Defined.

(** A single pair whose name is an inherited member of [Object.prototype]
    (a query [?constructor=x]) does not map to its value: the object gets an
    array of the inherited member and the value, and for [__proto__] the
    result has no own key at all but that array as its prototype. *)
Theorem pairsToObject_inherited key value :
  key ∈ object_proto_names →
  pairsToObject [(key, value)] =
    if decide (key = PROTO)
    then Obj [] (Some [JInherited key; JStr value])
    else Obj [(key, JArr [JInherited key; JStr value])] None.
Proof.
  intros Hk. unfold pairsToObject. cbn [foldl]. unfold pairs_step, obj_get. simpl.
  rewrite (decide_True (P := key ∈ object_proto_names)) by done. unfold obj_set.
  by case_decide.
Qed.

Lemma pairsToObject_inherited_witness :
  pairsToObject [(js "constructor", js "x")] =
    Obj [(js "constructor", JArr [JInherited (js "constructor"); JStr (js "x")])] None.
Proof.
  rewrite (pairsToObject_inherited (js "constructor") (js "x")
             ltac:(vm_compute; set_solver)).
  vm_compute. reflexivity.
Defined.
