(* ===== verification/Adaptive.v ===== *)
(** Numbers that the code keeps as IEEE doubles, and the two estimators built
    on them: [AdaptiveEstimate] (src/shared/adaptive.ts) and the loader's cost
    model (src/loader/cost.ts).

    Averages, timings and their comparisons are primitive binary64 floats, so
    NaN, infinities and rounding are those of the program.  Item counts and
    batch thresholds are integers. *)
From Stdlib Require Import Floats FloatLemmas.
From S2P Require Import Prelude.

(** ** Comparison of doubles *)

Definition fzero : float := 0%float.

(** [Math.max] with its NaN and signed-zero rules. *)
Definition js_max (a b : float) : float :=
  if PrimFloat.is_nan a then a else if PrimFloat.is_nan b then b
  else if PrimFloat.ltb a b then b else if PrimFloat.ltb b a then a
  else if PrimFloat.get_sign a then b else a.

Lemma SFcompare_refl (x : spec_float) : SFcompare x x ≠ Some Lt.
Proof.
  destruct x as [[]|[]| |[] m e]; simpl; try done;
    rewrite Z.compare_refl, ?Pos.compare_cont_refl; done.
Qed.

Lemma ltb_irrefl (a : float) : PrimFloat.ltb a a = false.
Proof.
  rewrite ltb_spec. unfold SFltb. pose proof (SFcompare_refl (Prim2SF a)).
  by destruct (SFcompare _ _) as [[]|].
Qed.

(** ** AdaptiveEstimate *)

Module Estimate.

Record AdaptiveEstimate := Estimate {
  alpha : float; min : float; max : float; initial : float; value : float }.

(** The constructor: [options.alpha ?? 0.25] and so on.  Only [alpha] is
    validated. *)
Definition newAdaptiveEstimate (o_alpha o_initial o_min o_max : option float)
    : result AdaptiveEstimate :=
  let alpha := default 0.25%float o_alpha in
  if negb (PrimFloat.is_finite alpha) || PrimFloat.leb alpha fzero || PrimFloat.ltb 1%float alpha
  then Throw (RangeError "AdaptiveEstimate: alpha must be in (0,1]")
  else
    let initial := default fzero o_initial in
    Ok (Estimate alpha (js_max fzero (default fzero o_min))
          (default PrimFloat.infinity o_max) initial initial).

Definition sample (e : AdaptiveEstimate) (x : float) : AdaptiveEstimate :=
  let v := if PrimFloat.eqb (value e) fzero then x
           else PrimFloat.add (PrimFloat.mul (value e) (PrimFloat.sub 1 (alpha e)))
                              (PrimFloat.mul x (alpha e)) in
  Estimate (alpha e) (min e) (max e) (initial e)
    (if PrimFloat.ltb v (min e) then min e
     else if PrimFloat.ltb (max e) v then max e else v).

Definition estimate (e : AdaptiveEstimate) : float := value e.

Definition reset (e : AdaptiveEstimate) : AdaptiveEstimate :=
  Estimate (alpha e) (min e) (max e) (initial e) (initial e).

(** What the doc comment of [estimate] promises: neither bound is exceeded. *)
Definition in_bounds (e : AdaptiveEstimate) : Prop :=
  PrimFloat.ltb (estimate e) (min e) = false ∧ PrimFloat.ltb (max e) (estimate e) = false.

Definition sample_all (e : AdaptiveEstimate) (xs : list float) : AdaptiveEstimate :=
  foldl sample e xs.

Lemma sample_bounds (e : AdaptiveEstimate) (x : float) :
  PrimFloat.ltb (max e) (min e) = false → in_bounds (sample e x).
Proof.
  intros Hmm. unfold in_bounds, sample, estimate; simpl.
  repeat case_match; rewrite ?ltb_irrefl; auto.
Qed.

Lemma sample_all_bounds_fixed (e : AdaptiveEstimate) (xs : list float) :
  min (sample_all e xs) = min e ∧ max (sample_all e xs) = max e.
Proof. revert e. induction xs as [|x xs IH]; intros e; [done|]. apply (IH (sample e x)). Qed.

(** After at least one sample the estimate of an [AdaptiveEstimate] lies
    within its bounds, whatever the samples are (NaN and infinities included)
    and whatever its starting value was. *)
Theorem estimate_bounded (e : AdaptiveEstimate) (xs : list float) (x : float) :
  PrimFloat.ltb (max e) (min e) = false → in_bounds (sample_all e (xs ++ [x])).
Proof.
  intros H. unfold sample_all. rewrite foldl_app. simpl. apply sample_bounds.
  fold (sample_all e xs).
  destruct (sample_all_bounds_fixed e xs) as [-> ->]. exact H.
Qed.

Lemma estimate_bounded_witness :
  in_bounds (sample_all (Estimate 0.25 16 64 0 0) ([PrimFloat.nan] ++ [1e300%float])).
Proof. apply (estimate_bounded (Estimate 0.25 16 64 0 0) [PrimFloat.nan] 1e300%float). reflexivity. Defined.

(** Before the first sample, and again after a [reset], the estimate is the
    unclamped [initial]: the constructor accepts a minimum of 16 with the
    default initial value, and then reads 0. *)
Theorem estimate_initial_unclamped :
  ∃ e, newAdaptiveEstimate None None (Some 16%float) None = Ok e ∧
       ¬ in_bounds e ∧ ∀ xs, ¬ in_bounds (reset (sample_all e xs)).
Proof.
  eexists. split; [reflexivity|]. split; [by intros [H _]; vm_compute in H|].
  intros xs [H _]. unfold reset, estimate in H. simpl in H.
  destruct (sample_all_bounds_fixed (Estimate 0.25 (js_max fzero 16%float) PrimFloat.infinity fzero fzero) xs)
    as [Hm _]. simpl in *. rewrite Hm in H.
  assert (Hi : ∀ e ys, initial (sample_all e ys) = initial e).
  { intros e ys. revert e. induction ys as [|y ys IH]; intros e; [done|].
    apply (IH (sample e y)). }
  rewrite Hi in H. vm_compute in H. done.
Qed.

End Estimate.

(** ** The loader's cost model *)

Module Cost.

Record LoaderCostModel := CostModel {
  adaptive : bool; batchMin : Z;
  scalarPerItemNs : float; batchPerItemNs : float; samples : Z }.

Definition MIN_BATCH_MIN : Z := 2.
Definition MAX_BATCH_MIN : Z := 8.
Definition EWMA_ALPHA : float := 0.3%float.

Definition clampBatchMin (v : Z) : Z := Z.max MIN_BATCH_MIN (Z.min MAX_BATCH_MIN v).

(** [options.adaptive !== false], [options.batchMin ?? 2]. *)
Definition createCostModel (o_adaptive : option bool) (o_batchMin : option Z) : LoaderCostModel :=
  CostModel (default true o_adaptive) (clampBatchMin (default MIN_BATCH_MIN o_batchMin))
    fzero fzero 0.

Definition ewma (prev next : float) : float :=
  if PrimFloat.eqb prev fzero then next
  else PrimFloat.add (PrimFloat.mul prev (PrimFloat.sub 1 EWMA_ALPHA)) (PrimFloat.mul next EWMA_ALPHA).

Definition decide_batch (m : LoaderCostModel) (n : Z) : bool :=
  if decide (n ≤ 1) then false else bool_decide (batchMin m ≤ n).

(** Item counts are far below 2^53, where the conversion is exact. *)
Definition float_of_Z (z : Z) : float := PrimFloat.of_uint63 (Uint63.of_Z z).

Definition perItem (n : Z) (elapsedNs : float) : float :=
  if decide (0 < n) then PrimFloat.div elapsedNs (float_of_Z n) else elapsedNs.

Definition recordScalar (m : LoaderCostModel) (n : Z) (elapsedNs : float) : LoaderCostModel :=
  let p := perItem n elapsedNs in
  CostModel (adaptive m)
    (if adaptive m && bool_decide (2 ≤ n) && PrimFloat.ltb fzero (batchPerItemNs m)
        && PrimFloat.ltb p (PrimFloat.mul (batchPerItemNs m) 0.8%float)
     then clampBatchMin (batchMin m + 1) else batchMin m)
    (ewma (scalarPerItemNs m) p) (batchPerItemNs m) (samples m + 1).

Definition recordBatch (m : LoaderCostModel) (n : Z) (elapsedNs : float) : LoaderCostModel :=
  let p := perItem n elapsedNs in
  CostModel (adaptive m)
    (if adaptive m && PrimFloat.ltb fzero (scalarPerItemNs m) then
       if PrimFloat.ltb (PrimFloat.mul (scalarPerItemNs m) 1.2%float) p
       then clampBatchMin (batchMin m + 1)
       else if PrimFloat.ltb p (PrimFloat.mul (scalarPerItemNs m) 0.8%float)
       then clampBatchMin (batchMin m - 1) else batchMin m
     else batchMin m)
    (scalarPerItemNs m) (ewma (batchPerItemNs m) p) (samples m + 1).

(** One measured dispatch, whichever path it took. *)
Inductive dispatch := Scalar (n : Z) (ns : float) | Batch (n : Z) (ns : float).

Definition cost_step (m : LoaderCostModel) (d : dispatch) : LoaderCostModel :=
  match d with Scalar n ns => recordScalar m n ns | Batch n ns => recordBatch m n ns end.

Definition cost_ok (m : LoaderCostModel) : Prop := MIN_BATCH_MIN ≤ batchMin m ≤ MAX_BATCH_MIN.

Lemma clampBatchMin_ok (v : Z) : MIN_BATCH_MIN ≤ clampBatchMin v ≤ MAX_BATCH_MIN.
Proof. unfold clampBatchMin, MIN_BATCH_MIN, MAX_BATCH_MIN. lia. Qed.

Lemma cost_step_ok (m : LoaderCostModel) (d : dispatch) :
  cost_ok m → cost_ok (cost_step m d) ∧ Z.abs (batchMin (cost_step m d) - batchMin m) ≤ 1.
Proof.
  unfold cost_ok. intros H. destruct d; simpl; repeat case_match;
    unfold clampBatchMin, MIN_BATCH_MIN, MAX_BATCH_MIN in *; lia.
Qed.

Lemma cost_run_ok (ds : list dispatch) (m : LoaderCostModel) :
  cost_ok m → cost_ok (foldl cost_step m ds).
Proof. revert m. induction ds; simpl; intros; [done|]. by apply IHds, cost_step_ok. Qed.

(** A batch whose per-item time beats the learned scalar time by the code's
    margin. *)
Definition batch_wins (m : LoaderCostModel) (d : dispatch) : Prop :=
  match d with
  | Batch n ns =>
      PrimFloat.ltb (PrimFloat.mul (scalarPerItemNs m) 1.2%float) (perItem n ns) = false ∧
      PrimFloat.ltb (perItem n ns) (PrimFloat.mul (scalarPerItemNs m) 0.8%float) = true
  | Scalar _ _ => False
  end.

Definition batch_loses (m : LoaderCostModel) (d : dispatch) : Prop :=
  match d with
  | Batch n ns => PrimFloat.ltb (PrimFloat.mul (scalarPerItemNs m) 1.2%float) (perItem n ns) = true
  | Scalar _ _ => False
  end.

Definition learning (m : LoaderCostModel) : Prop :=
  adaptive m = true ∧ PrimFloat.ltb fzero (scalarPerItemNs m) = true.

Lemma cost_step_wins (m : LoaderCostModel) (d : dispatch) :
  learning m → cost_ok m → batch_wins m d →
  batchMin (cost_step m d) = Z.max MIN_BATCH_MIN (batchMin m - 1) ∧
  scalarPerItemNs (cost_step m d) = scalarPerItemNs m ∧ adaptive (cost_step m d) = adaptive m.
Proof.
  intros [Ha Hs] Hok Hw. destruct d as [|n ns]; [done|]. destruct Hw as [H1 H2].
  unfold cost_ok, MIN_BATCH_MIN, MAX_BATCH_MIN in Hok.
  simpl. rewrite Ha, Hs, H1, H2; simpl. unfold clampBatchMin, MIN_BATCH_MIN, MAX_BATCH_MIN.
  split; [lia|done].
Qed.

Lemma cost_step_loses (m : LoaderCostModel) (d : dispatch) :
  learning m → cost_ok m → batch_loses m d →
  batchMin (cost_step m d) = Z.min MAX_BATCH_MIN (batchMin m + 1) ∧
  scalarPerItemNs (cost_step m d) = scalarPerItemNs m ∧ adaptive (cost_step m d) = adaptive m.
Proof.
  intros [Ha Hs] Hok Hw. destruct d as [|n ns]; [done|]. simpl in Hw.
  unfold cost_ok, MIN_BATCH_MIN, MAX_BATCH_MIN in Hok.
  simpl. rewrite Ha, Hs, Hw; simpl. unfold clampBatchMin, MIN_BATCH_MIN, MAX_BATCH_MIN.
  split; [lia|done].
Qed.

Lemma batch_wins_eq (m m' : LoaderCostModel) (d : dispatch) :
  scalarPerItemNs m' = scalarPerItemNs m → batch_wins m d → batch_wins m' d.
Proof. intros E. unfold batch_wins. by rewrite E. Qed.

Lemma batch_loses_eq (m m' : LoaderCostModel) (d : dispatch) :
  scalarPerItemNs m' = scalarPerItemNs m → batch_loses m d → batch_loses m' d.
Proof. intros E. unfold batch_loses. by rewrite E. Qed.

Lemma cost_run_wins (ds : list dispatch) (m : LoaderCostModel) :
  learning m → cost_ok m → Forall (batch_wins m) ds →
  batchMin (foldl cost_step m ds) = Z.max MIN_BATCH_MIN (batchMin m - zlen ds).
Proof.
  revert m. induction ds as [|d ds IH]; intros m Hl Hok Hall; simpl.
  - unfold cost_ok, MIN_BATCH_MIN, zlen in *. simpl. lia.
  - inversion Hall as [|?? Hd Hds]; subst.
    destruct (cost_step_wins m d Hl Hok Hd) as (Hb & Hs & Ha).
    rewrite IH, Hb.
    + rewrite zlen_cons. pose proof (zlen_nonneg ds). lia.
    + unfold learning in *. by rewrite Ha, Hs.
    + by apply cost_step_ok.
    + eapply Forall_impl; [exact Hds|]. intros d' Hd'. by apply (batch_wins_eq m).
Qed.

Lemma cost_run_loses (ds : list dispatch) (m : LoaderCostModel) :
  learning m → cost_ok m → Forall (batch_loses m) ds →
  batchMin (foldl cost_step m ds) = Z.min MAX_BATCH_MIN (batchMin m + zlen ds).
Proof.
  revert m. induction ds as [|d ds IH]; intros m Hl Hok Hall; simpl.
  - unfold cost_ok, MAX_BATCH_MIN, zlen in *. simpl. lia.
  - inversion Hall as [|?? Hd Hds]; subst.
    destruct (cost_step_loses m d Hl Hok Hd) as (Hb & Hs & Ha).
    rewrite IH, Hb.
    + rewrite zlen_cons. pose proof (zlen_nonneg ds). lia.
    + unfold learning in *. by rewrite Ha, Hs.
    + by apply cost_step_ok.
    + eapply Forall_impl; [exact Hds|]. intros d' Hd'. by apply (batch_loses_eq m).
Qed.

(** The learned threshold of the cost model stays in [2, 8] over every
    sequence of measurements; so a single item always takes the scalar path and
    a bulk of eight or more always the batch path. *)
Theorem cost_model_bounds (oa : option bool) (ob : option Z) (ds : list dispatch) :
  let m := foldl cost_step (createCostModel oa ob) ds in
  MIN_BATCH_MIN ≤ batchMin m ≤ MAX_BATCH_MIN ∧
  (∀ n, n ≤ 1 → decide_batch m n = false) ∧
  (∀ n, MAX_BATCH_MIN ≤ n → decide_batch m n = true).
Proof.
  intros m. assert (Hm : cost_ok m) by (apply cost_run_ok, clampBatchMin_ok).
  clearbody m.
  split; [exact Hm|]. unfold decide_batch. unfold cost_ok, MIN_BATCH_MIN, MAX_BATCH_MIN in *.
  split; intros n Hn; case_decide; try done; try lia. apply bool_decide_eq_true_2. lia.
Qed.

Lemma cost_model_bounds_witness :
  decide_batch (foldl cost_step (createCostModel None (Some 99)) [Scalar 4 100%float]) 8 = true.
Proof. apply (cost_model_bounds None (Some 99) [Scalar 4 100%float]). unfold MAX_BATCH_MIN. lia. Defined.

(** The model adapts in both directions: six measured batches in a row that
    lose against the learned scalar cost raise the threshold to its maximum, and
    six that win by the margin lower it to 2, from wherever it was. *)
Theorem cost_model_adapts (m : LoaderCostModel) (ds : list dispatch) :
  learning m → cost_ok m → 6 ≤ zlen ds →
  (Forall (batch_loses m) ds → batchMin (foldl cost_step m ds) = MAX_BATCH_MIN) ∧
  (Forall (batch_wins m) ds → batchMin (foldl cost_step m ds) = MIN_BATCH_MIN).
Proof.
  intros Hl Hok Hn. pose proof Hok as Hb. unfold cost_ok in Hb.
  split; intros H; [rewrite cost_run_loses by done|rewrite cost_run_wins by done];
    unfold MIN_BATCH_MIN, MAX_BATCH_MIN in *; lia.
Qed.

Lemma cost_model_adapts_witness :
  batchMin (foldl cost_step (recordScalar (createCostModel None None) 4 400%float)
              (replicate 6 (Batch 2 2000%float))) = MAX_BATCH_MIN.
Proof.
  apply (cost_model_adapts (recordScalar (createCostModel None None) 4 400%float)
           (replicate 6 (Batch 2 2000%float))).
  - split; reflexivity.
  - unfold cost_ok. vm_compute. split; discriminate.
  - vm_compute. discriminate.
  - apply Forall_replicate. reflexivity.
Defined.

End Cost.
