(* ===== verification/Pool.v ===== *)
(** The pool of reusable output buffers (src/shared/buffer-pool.ts).

    A buffer is an allocation, so it carries an identity beside its size; a
    handle is a mutable object that the pool recycles, so handles live in a
    heap and are referred to by index.  The state of the pool is the source's
    fields plus that heap and the counter that numbers allocations. *)
From Stdlib Require Import Floats.
From S2P Require Import Prelude.
From S2P Require Import Adaptive.

(** ** What the pool needs of its size estimate *)

Class Estimator := {
  est_state : Type;
  est_sample : est_state → Z → est_state;
  (** [Math.ceil(this.estimate.estimate)] *)
  est_presize : est_state → Z;
}.

(** [Math.ceil] of a finite double; the estimate is finite because it averages
    request sizes, which are integers below 2^53. *)
Definition ceil (x : float) : Z :=
  match Prim2SF x with
  | S754_finite s m e =>
      let v := (if s then -1 else 1) * Zpos m in
      if decide (0 ≤ e) then Z.shiftl v e else - ((- v) / 2 ^ (- e))
  | _ => 0
  end.

#[export] Instance adaptive_estimator : Estimator := {|
  est_state := Estimate.AdaptiveEstimate;
  est_sample e n := Estimate.sample e (Cost.float_of_Z n);
  est_presize e := ceil (Estimate.estimate e);
|}.

(** ** Buffers, handles, the pool *)

Record Uint8Array_ := Buf { buf_id : nat; buf_size : Z }.

Record PooledBufferHandle := Handle { buffer : Uint8Array_; released : bool }.

#[export] Instance buf_eq_dec : EqDecision Uint8Array_.
Proof. solve_decision. Defined.

(** [free.pop()], then [free[i] = last] when [i] is still in range. *)
Definition swap_remove {A} (i : nat) (l : list A) : list A :=
  match pop l with
  | Some (x, l') => if decide (i < length l')%nat then <[i := x]> l' else l'
  | None => l
  end.

(** Index of the first element that no later one beats strictly: the scan for
    the largest and for the smallest free buffer. *)
Fixpoint arg_best {A} (better : A → A → bool) (l : list A) (i best_i : nat) (best : A) : nat :=
  match l with
  | [] => best_i
  | x :: l => if better x best then arg_best better l (S i) i x
              else arg_best better l (S i) best_i best
  end.

Definition largest_index (l : list Uint8Array_) : nat :=
  match l with
  | [] => 0
  | b :: l => arg_best (λ x y, bool_decide (buf_size y < buf_size x)) l 1 0 b
  end.

Definition smallest_index (l : list Uint8Array_) : nat :=
  match l with
  | [] => 0
  | b :: l => arg_best (λ x y, bool_decide (buf_size x < buf_size y)) l 1 0 b
  end.

(** ** Removal by swapping and the extremum scans *)

Lemma swap_remove_perm {A} (i : nat) (l : list A) (x : A) :
  l !! i = Some x → l ≡ₚ x :: swap_remove i l.
Proof.
  intros Hi. unfold swap_remove. destruct l as [|y k _] using rev_ind; [done|].
  rewrite pop_snoc. case_decide as Hk.
  - rewrite lookup_app_l in Hi by done.
    rewrite insert_take_drop by done. rewrite <-(take_drop_middle k i x Hi) at 1. solve_Permutation.
  - apply lookup_lt_Some in Hi as Hl. rewrite length_app in Hl. simpl in Hl.
    assert (i = length k) as -> by lia.
    rewrite lookup_app_r, Nat.sub_diag in Hi by lia. injection Hi as ->. solve_Permutation.
Qed.

Lemma arg_best_spec {A} (f : A → Z) (l pre : list A) (best_i : nat) (best : A) :
  pre !! best_i = Some best → (∀ x, x ∈ pre → f x ≤ f best) →
  let j := arg_best (λ x y, bool_decide (f y < f x)) l (length pre) best_i best in
  ∃ b, (pre ++ l) !! j = Some b ∧ ∀ x, x ∈ pre ++ l → f x ≤ f b.
Proof.
  revert pre best_i best. induction l as [|y l IH]; intros pre bi b Hb Hmax; simpl.
  - exists b. rewrite app_nil_r. done.
  - assert (Hpre : ∀ q, q ∈ pre ++ [y] → f q ≤ Z.max (f b) (f y)).
    { intros q [Hq| ->%list_elem_of_singleton]%elem_of_app; [apply Hmax in Hq|]; lia. }
    assert (Hlen : S (length pre) = length (pre ++ [y])) by (rewrite length_app; simpl; lia).
    rewrite (cons_middle y pre l), app_assoc, Hlen. case_bool_decide as Hc.
    + apply IH; [by rewrite lookup_app_r, Nat.sub_diag by done|].
      intros q Hq. apply Hpre in Hq. lia.
    + apply IH; [by apply lookup_app_l_Some|]. intros q Hq. apply Hpre in Hq. lia.
Qed.

Lemma largest_index_spec (l : list Uint8Array_) :
  l ≠ [] → ∃ b, l !! largest_index l = Some b ∧ ∀ x, x ∈ l → buf_size x ≤ buf_size b.
Proof.
  destruct l as [|b l]; [done|]. intros _.
  apply (arg_best_spec buf_size l [b] 0 b); [done|]. by intros x ->%list_elem_of_singleton.
Qed.

Lemma smallest_index_spec (l : list Uint8Array_) :
  l ≠ [] → ∃ b, l !! smallest_index l = Some b ∧ ∀ x, x ∈ l → buf_size b ≤ buf_size x.
Proof.
  destruct l as [|b l]; [done|]. intros _.
  destruct (arg_best_spec (λ x, - buf_size x) l [b] 0 b) as (m & Hm & Hmin); [done| |].
  { by intros x ->%list_elem_of_singleton. }
  exists m. split.
  - rewrite <-Hm. simpl. f_equal. unfold smallest_index.
    assert (E : ∀ k i j c, arg_best (λ x y, bool_decide (buf_size x < buf_size y)) k i j c =
                           arg_best (λ x y, bool_decide (- buf_size y < - buf_size x)) k i j c).
    { induction k as [|y k IH]; intros i j c; simpl; [done|].
      rewrite (bool_decide_ext (- buf_size c < - buf_size y) (buf_size y < buf_size c)) by lia.
      by rewrite !IH. }
    apply E.
  - intros x Hx. apply Hmin in Hx. lia.
Qed.

Section pool.
Context `{Estimator}.

Record BufferPool := Pool {
  free : list Uint8Array_;
  freeHandles : list nat;
  initialSize : Z; maxBuffers : Z; maxInFlight : Z; maxHandles : Z;
  size_estimate : option est_state;
  created : Z; inFlight : Z;
  (** the heap of handle objects, and the next allocation's identity *)
  handles : list PooledBufferHandle;
  nextBuf : nat;
}.

(** The constructor.  [estimate] is [Some] when [options.adaptive] is set; the
    options are given with their defaults filled in, [prefillBytes] absent when
    undefined. *)
Definition newBufferPool (o_initialSize o_maxBuffers o_maxInFlight o_prefill : Z)
    (o_prefillBytes : option Z) (o_estimate : option est_state) : BufferPool :=
  let initialSize := Z.max 1 o_initialSize in
  let maxBuffers := Z.max 1 o_maxBuffers in
  let maxInFlight := Z.max 0 o_maxInFlight in
  let cap := Z.min (Z.max 0 o_prefill) (maxBuffers - 1) in
  let prefill := match o_prefillBytes with
                 | Some b => Z.min cap (Z.max 0 (b / initialSize))
                 | None => cap
                 end in
  let ids := seq 0 (S (Z.to_nat prefill)) in
  Pool ((λ i, Buf i initialSize) <$> ids) [] initialSize maxBuffers maxInFlight
    (maxBuffers + Z.max 1 maxInFlight) o_estimate (1 + prefill) 0 [] (length ids).

Definition freeCount (p : BufferPool) : Z := zlen (free p).
Definition createdCount (p : BufferPool) : Z := created p.

Definition shrink (p : BufferPool) : BufferPool :=
  Pool [] (freeHandles p) (initialSize p) (maxBuffers p) (maxInFlight p) (maxHandles p)
    (size_estimate p) (created p) (inFlight p) (handles p) (nextBuf p).

Definition nextSize (p : BufferPool) (minSize : Z) : Z :=
  let floor := match size_estimate p with
               | Some e => Z.max (initialSize p) (est_presize e)
               | None => initialSize p
               end in
  Z.max floor minSize.

Definition set_free (p : BufferPool) (l : list Uint8Array_) : BufferPool :=
  Pool l (freeHandles p) (initialSize p) (maxBuffers p) (maxInFlight p) (maxHandles p)
    (size_estimate p) (created p) (inFlight p) (handles p) (nextBuf p).

(** [this.created++; return new Uint8Array(target)] *)
Definition allocate (p : BufferPool) (target : Z) : Uint8Array_ * BufferPool :=
  (Buf (nextBuf p) target,
   Pool (free p) (freeHandles p) (initialSize p) (maxBuffers p) (maxInFlight p) (maxHandles p)
     (size_estimate p) (created p + 1) (inFlight p) (handles p) (S (nextBuf p))).

Definition learn (p : BufferPool) (minSize : Z) : BufferPool :=
  Pool (free p) (freeHandles p) (initialSize p) (maxBuffers p) (maxInFlight p) (maxHandles p)
    ((λ e, est_sample e minSize) <$> size_estimate p)
    (created p) (inFlight p) (handles p) (nextBuf p).

Definition take_buffer (p : BufferPool) (minSize : Z) : Uint8Array_ * BufferPool :=
  let p := learn p minSize in
  match list_find (λ b, minSize ≤ buf_size b) (free p) with
  | Some (i, candidate) => (candidate, set_free p (swap_remove i (free p)))
  | None =>
      let target := nextSize p minSize in
      allocate (set_free p (swap_remove (largest_index (free p)) (free p))) target
  end.

Definition acquire (p : BufferPool) (minSize : Z) : result (nat * BufferPool) :=
  if decide (0 < maxInFlight p ∧ maxInFlight p ≤ inFlight p)
  then Throw (RangeError "BufferPool: maxInFlight exceeded")
  else
    let '(b, p) := take_buffer p (Z.max 0 minSize) in
    let put hs fh := Pool (free p) fh (initialSize p) (maxBuffers p) (maxInFlight p)
                       (maxHandles p) (size_estimate p) (created p) (inFlight p + 1) hs (nextBuf p) in
    match pop (freeHandles p) with
    | Some (h, fh) => Ok (h, put (<[h := Handle b false]> (handles p)) fh)
    | None => Ok (length (handles p), put (handles p ++ [Handle b false]) (freeHandles p))
    end.

Definition releaseBuffer (p : BufferPool) (b : Uint8Array_) : list Uint8Array_ :=
  (if decide (maxBuffers p ≤ zlen (free p))
   then swap_remove (smallest_index (free p)) (free p) else free p) ++ [b].

Definition returnHandle (p : BufferPool) (h : nat) (b : Uint8Array_) : BufferPool :=
  Pool (releaseBuffer p b)
    (if decide (zlen (freeHandles p) < maxHandles p) then freeHandles p ++ [h] else freeHandles p)
    (initialSize p) (maxBuffers p) (maxInFlight p) (maxHandles p) (size_estimate p)
    (created p) (inFlight p - 1) (handles p) (nextBuf p).

Definition set_handles (p : BufferPool) (hs : list PooledBufferHandle) : BufferPool :=
  Pool (free p) (freeHandles p) (initialSize p) (maxBuffers p) (maxInFlight p) (maxHandles p)
    (size_estimate p) (created p) (inFlight p) hs (nextBuf p).

(** [handle.release()] on the handle object [h]. *)
Definition release (p : BufferPool) (h : nat) : BufferPool :=
  match handles p !! h with
  | Some (Handle b false) =>
      returnHandle (set_handles p (<[h := Handle b true]> (handles p))) h b
  | _ => p
  end.

(** ** Calls on the pool *)

Inductive pool_op := Acquire (minSize : Z) | Release (h : nat) | Shrink.

Definition pool_step (p : BufferPool) (o : pool_op) : BufferPool :=
  match o with
  | Acquire n => match acquire p n with Ok (_, p') => p' | Throw _ => p end
  | Release h => release p h
  | Shrink => shrink p
  end.

(** ** Invariant *)

Definition live_buffer (h : PooledBufferHandle) : option Uint8Array_ :=
  if released h then None else Some (buffer h).

Definition live_buffers (p : BufferPool) : list Uint8Array_ := omap live_buffer (handles p).

Record pool_inv (p : BufferPool) : Prop := {
  inv_cfg : 1 ≤ maxBuffers p ∧ 1 ≤ maxHandles p ∧ 1 ≤ initialSize p;
  inv_free : zlen (free p) ≤ maxBuffers p;
  inv_freeHandles : zlen (freeHandles p) ≤ maxHandles p;
  inv_inFlight : inFlight p = zlen (live_buffers p);
  inv_cap : 0 < maxInFlight p → inFlight p ≤ maxInFlight p;
  inv_recycled : NoDup (freeHandles p) ∧
    ∀ h, h ∈ freeHandles p → ∃ b, handles p !! h = Some (Handle b true);
  inv_distinct : NoDup (buf_id <$> free p ++ live_buffers p);
  inv_fresh : ∀ b, b ∈ free p ++ live_buffers p → (buf_id b < nextBuf p)%nat ∧ initialSize p ≤ buf_size b;
  inv_created : created p = Z.of_nat (nextBuf p);
}.


(** ** Preservation *)

Lemma live_insert_dead (hs : list PooledBufferHandle) (h : nat) (b0 b : Uint8Array_) :
  hs !! h = Some (Handle b0 true) →
  omap live_buffer (<[h := Handle b false]> hs) ≡ₚ b :: omap live_buffer hs.
Proof.
  intros Hh. apply lookup_lt_Some in Hh as Hl. rewrite insert_take_drop by done.
  rewrite <-(take_drop_middle hs h _ Hh) at 3. rewrite !omap_app. simpl. solve_Permutation.
Qed.

Lemma live_insert_live (hs : list PooledBufferHandle) (h : nat) (b : Uint8Array_) :
  hs !! h = Some (Handle b false) →
  omap live_buffer hs ≡ₚ b :: omap live_buffer (<[h := Handle b true]> hs).
Proof.
  intros Hh. apply lookup_lt_Some in Hh as Hl. rewrite insert_take_drop by done.
  rewrite <-(take_drop_middle hs h _ Hh) at 1. rewrite !omap_app. simpl. solve_Permutation.
Qed.

(** What one call of [take] does to the buffers. *)
Lemma take_buffer_spec (p : BufferPool) (n : Z) :
  let '(b, p') := take_buffer p n in
  n ≤ buf_size b ∧
  (free p ≡ₚ b :: free p' ∧ nextBuf p' = nextBuf p ∧ created p' = created p ∨
   b = Buf (nextBuf p) (nextSize (learn p n) n) ∧
     (∀ x, x ∈ free p → buf_size x < n) ∧
     nextBuf p' = S (nextBuf p) ∧ created p' = created p + 1 ∧
     (free p = [] ∧ free p' = [] ∨
      ∃ g, free p ≡ₚ g :: free p' ∧ ∀ x, x ∈ free p → buf_size x ≤ buf_size g)) ∧
  freeHandles p' = freeHandles p ∧ handles p' = handles p ∧ inFlight p' = inFlight p ∧
  maxBuffers p' = maxBuffers p ∧ maxHandles p' = maxHandles p ∧
  maxInFlight p' = maxInFlight p ∧ initialSize p' = initialSize p.
Proof.
  unfold take_buffer. simpl. destruct (list_find _ (free p)) as [[i b]|] eqn:E; simpl.
  - apply list_find_Some in E as (Hi & Hb & _).
    split; [done|]. split; [left|done]. split; [by apply swap_remove_perm|done].
  - rewrite list_find_None, Forall_forall in E.
    split; [unfold nextSize; lia|]. split; [right|done].
    split; [done|]. split; [intros x Hx; apply E in Hx; lia|]. split; [done|]. split; [done|].
    destruct (decide (free p = [])) as [E0|Hne]; [left; by rewrite E0|right].
    destruct (largest_index_spec (free p) Hne) as (g & Hg & Hmax).
    exists g. split; [by apply swap_remove_perm|done].
Qed.


(** What a successful [acquire] does: a free handle object now holds the
    buffer that [take] chose, and nothing else of the heap changed. *)
Lemma acquire_spec_raw (p p' : BufferPool) (n : Z) (h : nat) :
  pool_inv p → acquire p n = Ok (h, p') →
  ∃ b q, take_buffer p (Z.max 0 n) = (b, q) ∧ free p' = free q ∧ nextBuf p' = nextBuf q ∧
    created p' = created q ∧ inFlight p' = inFlight p + 1 ∧
    maxBuffers p' = maxBuffers p ∧ maxHandles p' = maxHandles p ∧
    maxInFlight p' = maxInFlight p ∧ initialSize p' = initialSize p ∧
    handles p' !! h = Some (Handle b false) ∧
    (∀ k, k ≠ h → (k < length (handles p))%nat → handles p' !! k = handles p !! k) ∧
    (length (handles p) ≤ length (handles p'))%nat ∧
    (∀ b0, handles p !! h ≠ Some (Handle b0 false)) ∧
    live_buffers p' ≡ₚ b :: live_buffers p ∧
    (freeHandles p = freeHandles p' ++ [h] ∨
     freeHandles p = [] ∧ freeHandles p' = [] ∧ h = length (handles p)).
Proof.
  intros Hinv Ha. unfold acquire in Ha. case_decide; [done|].
  pose proof (take_buffer_spec p (Z.max 0 n)) as Ht.
  destruct (take_buffer p (Z.max 0 n)) as [b q]. exists b, q.
  destruct Ht as (_ & _ & Hfh & Hhs & Hin & Hmb & Hmh & Hmi & His).
  destruct (pop (freeHandles q)) as [[h0 fh]|] eqn:Hp; injection Ha as <- <-; simpl.
  - apply pop_Some in Hp. rewrite Hfh in Hp.
    destruct (inv_recycled _ Hinv) as [_ Hrec].
    destruct (Hrec h0) as [b0 Hb0]; [rewrite Hp; set_solver|].
    apply lookup_lt_Some in Hb0 as Hl. unfold live_buffers; simpl. rewrite Hhs, Hin.
    repeat (split; [done|]). split; [by apply list_lookup_insert_eq|].
    split; [intros; by rewrite list_lookup_insert_ne|].
    split; [by rewrite length_insert|]. split; [by rewrite Hb0|].
    split; [by apply (live_insert_dead _ _ b0)|]. by left.
  - apply pop_None in Hp. unfold live_buffers; simpl. rewrite Hp, Hhs, Hin, <-Hfh.
    repeat (split; [done|]). split; [by rewrite lookup_app_r, Nat.sub_diag by lia|].
    split; [intros; by rewrite lookup_app_l|]. split; [rewrite length_app; lia|].
    split; [by rewrite lookup_ge_None_2 by lia|].
    split; [rewrite omap_app; simpl; solve_Permutation|]. right. done.
Qed.

Lemma acquire_inv (p p' : BufferPool) (n : Z) (h : nat) :
  pool_inv p → acquire p n = Ok (h, p') → pool_inv p'.
Proof.
  intros Hinv Ha. destruct (acquire_spec_raw p p' n h Hinv Ha)
    as (b & q & Ht & Hfree & Hnb & Hcr & Hin & Hmb & Hmh & Hmi & His & Hh & Hk & Hlen & Hdead & Hlive & Hfh).
  pose proof (take_buffer_spec p (Z.max 0 n)) as Hts. rewrite Ht in Hts.
  destruct Hts as (Hsz & Hcase & _).
  destruct Hinv as [Hcfg Hf Hfhs Hif Hcap [Hnd Hrec] Hdist Hfresh Hcreated].
  assert (Hnew : NoDup (buf_id <$> free p' ++ live_buffers p') ∧
    (∀ x, x ∈ free p' ++ live_buffers p' → (buf_id x < nextBuf p')%nat ∧ initialSize p ≤ buf_size x) ∧
    zlen (free p') ≤ zlen (free p) ∧ created p' = Z.of_nat (nextBuf p')).
  { rewrite Hfree, Hnb, Hcr, Hlive.
    destruct Hcase as [(Hperm & -> & ->)|(-> & _ & -> & -> & Hrest)].
    - assert (Hall : free p ++ live_buffers p ≡ₚ free q ++ b :: live_buffers p)
        by (rewrite Hperm; solve_Permutation).
      rewrite <-Hall. split; [done|]. split; [intros x; rewrite Hlive, <-Hall; apply Hfresh|].
      split; [|done]. rewrite Hperm. zlia.
    - assert (∃ gs, free p ≡ₚ gs ++ free q) as [gs Hgs].
      { destruct Hrest as [[-> ->]|(g & Hg & _)]; [by exists []|by exists [g]]. }
      assert (Hfq : ∀ x, x ∈ free q ++ live_buffers p →
                    (buf_id x < nextBuf p)%nat ∧ initialSize p ≤ buf_size x).
      { intros x Hx. apply Hfresh. rewrite Hgs. set_solver. }
      rewrite Hgs in Hdist |- *. rewrite <-app_assoc, fmap_app in Hdist.
      apply NoDup_app in Hdist as (_ & _ & Hdist). rewrite <-Permutation_middle.
      split.
      + simpl. constructor; [|done]. intros (x & Hx & Hin')%list_elem_of_fmap.
        destruct (Hfq x); [done|lia].
      + split; [|zlia]. intros x. rewrite Hlive, <-Permutation_middle.
        intros [->|Hx]%elem_of_cons; simpl.
        * split; [lia|]. unfold nextSize. simpl. case_match; lia.
        * destruct (Hfq x) as [? ?]; [done|lia]. }
  destruct Hnew as (Hnd' & Hfr' & Hz & Hcr').
  constructor; rewrite ?Hmb, ?Hmh, ?Hmi, ?His, ?Hin; try done.
  - lia.
  - destruct Hfh as [E|(_ & -> & _)]; [rewrite E in Hfhs; zlia|zlia].
  - rewrite Hlive, Hif. zlia.
  - intros Hm. unfold acquire in Ha. case_decide as Hd; [done|]. lia.
  - destruct Hfh as [E|(_ & E & _)]; [|rewrite E; split; [constructor|set_solver]].
    rewrite E in Hnd, Hrec. apply NoDup_app in Hnd as (Hnd0 & Hdj & _). split; [done|].
    intros k Hin'. destruct (Hrec k) as [b0 Hb0]; [set_solver|]. exists b0.
    rewrite Hk; [done| |by eapply lookup_lt_Some]. intros ->. apply (Hdj h); set_solver.
Qed.

Lemma releaseBuffer_perm (p : BufferPool) (b : Uint8Array_) :
  pool_inv p → ∃ gs, free p ++ [b] ≡ₚ gs ++ releaseBuffer p b ∧
    zlen (releaseBuffer p b) ≤ maxBuffers p ∧
    (∀ g, g ∈ gs → zlen (free p) = maxBuffers p ∧ ∀ x, x ∈ free p → buf_size g ≤ buf_size x) ∧
    zlen gs ≤ 1.
Proof.
  intros [Hcfg Hf _ _ _ _ _ _ _]. unfold releaseBuffer. case_decide as Hd.
  - destruct (smallest_index_spec (free p)) as (g & Hg & Hmin).
    { intros E. rewrite E in Hd. unfold zlen in Hd. simpl in Hd. lia. }
    pose proof (swap_remove_perm _ _ _ Hg) as Hp. exists [g].
    split; [rewrite Hp at 1; solve_Permutation|]. split; [rewrite Hp in Hf; zlia|].
    split; [|done]. intros g' ->%list_elem_of_singleton. split; [lia|done].
  - exists []. split; [done|]. split; [zlia|]. split; [set_solver|done].
Qed.

Lemma release_inv (p : BufferPool) (h : nat) : pool_inv p → pool_inv (release p h).
Proof.
  intros Hinv. unfold release. destruct (handles p !! h) as [[b []]|] eqn:Hh; try done.
  pose proof (live_insert_live _ _ _ Hh) as Hlive. apply lookup_lt_Some in Hh as Hl.
  destruct (releaseBuffer_perm p b Hinv) as (gs & Hperm & Hz & _ & _).
  destruct Hinv as [Hcfg Hf Hfhs Hif Hcap [Hnd Hrec] Hdist Hfresh Hcreated].
  fold (live_buffers p) in Hlive.
  set (L := omap live_buffer (<[h:=Handle b true]> (handles p))) in *.
  assert (Hall : free p ++ live_buffers p ≡ₚ gs ++ (releaseBuffer p b ++ L)).
  { rewrite Hlive, (cons_middle b (free p) L), app_assoc, Hperm. solve_Permutation. }
  constructor; simpl; try done.
  - case_decide; zlia.
  - change (live_buffers _) with L at 1. rewrite Hif, Hlive. unfold L. zlia.
  - intros Hm. specialize (Hcap Hm). lia.
  - assert (Hnin : h ∉ freeHandles p) by (intros Hin; destruct (Hrec h Hin) as [? Hx]; congruence).
    split.
    + case_decide; [|done]. apply NoDup_app. split; [done|]. split; [set_solver|apply NoDup_singleton].
    + intros k Hk. destruct (decide (k = h)) as [->|Hne].
      { exists b. by apply list_lookup_insert_eq. }
      rewrite list_lookup_insert_ne by done. apply Hrec. case_decide; set_solver.
  - change (NoDup (buf_id <$> releaseBuffer p b ++ L)).
    rewrite Hall, fmap_app in Hdist. by apply NoDup_app in Hdist as (_ & _ & ?).
  - intros x Hx. change (x ∈ releaseBuffer p b ++ L) in Hx. apply Hfresh. rewrite Hall. set_solver.
Qed.

Lemma shrink_inv (p : BufferPool) : pool_inv p → pool_inv (shrink p).
Proof.
  intros [Hcfg Hf Hfhs Hif Hcap Hrec Hdist Hfresh Hcreated]. constructor; simpl; try done.
  - unfold zlen. simpl. lia.
  - rewrite fmap_app in Hdist. by apply NoDup_app in Hdist as (_ & _ & ?).
  - intros x Hx. apply Hfresh. change (x ∈ live_buffers p) in Hx. set_solver.
Qed.

Lemma new_inv (i m f pf : Z) (pb : option Z) (e : option est_state) :
  pool_inv (newBufferPool i m f pf pb e).
Proof.
  unfold newBufferPool.
  set (k := match pb with Some _ => _ | None => _ end).
  assert (Hk : 0 ≤ k ≤ Z.max 1 m - 1) by (unfold k; destruct pb; lia). clearbody k.
  remember (seq 0 (S (Z.to_nat k))) as ids eqn:Hids.
  assert (Hlen : length ids = S (Z.to_nat k)) by (by rewrite Hids, length_seq).
  constructor; unfold live_buffers; simpl; rewrite ?app_nil_r; try lia.
  - rewrite zlen_fmap. unfold zlen. lia.
  - unfold zlen. simpl. lia.
  - done.
  - split; [constructor|set_solver].
  - rewrite <-list_fmap_compose. change (buf_id ∘ _) with (id : nat → nat).
    rewrite list_fmap_id, Hids. apply NoDup_seq.
  - intros b (j & -> & Hj)%list_elem_of_fmap. simpl.
    rewrite Hids in Hj. apply elem_of_seq in Hj. lia.
Qed.

Lemma pool_step_inv (p : BufferPool) (o : pool_op) : pool_inv p → pool_inv (pool_step p o).
Proof.
  intros Hinv. destruct o; simpl; eauto using release_inv, shrink_inv.
  destruct (acquire p minSize) as [[h p']|] eqn:E; [by eapply acquire_inv|done].
Qed.

Lemma pool_run_inv (os : list pool_op) (p : BufferPool) :
  pool_inv p → pool_inv (foldl pool_step p os).
Proof. revert p. induction os; simpl; auto using pool_step_inv. Qed.

Lemma pool_step_cfg (p : BufferPool) (o : pool_op) :
  maxBuffers (pool_step p o) = maxBuffers p ∧ maxInFlight (pool_step p o) = maxInFlight p ∧
  maxHandles (pool_step p o) = maxHandles p ∧ initialSize (pool_step p o) = initialSize p.
Proof.
  destruct o; simpl; [|unfold release; by repeat case_match|done].
  unfold acquire. case_decide; [done|].
  pose proof (take_buffer_spec p (Z.max 0 minSize)) as Ht. destruct (take_buffer _ _) as [b q].
  destruct Ht as (_ & _ & _ & _ & _ & ? & ? & ? & ?). by destruct (pop _) as [[]|].
Qed.

Lemma pool_run_cfg (os : list pool_op) (p : BufferPool) :
  maxBuffers (foldl pool_step p os) = maxBuffers p ∧
  maxInFlight (foldl pool_step p os) = maxInFlight p ∧
  maxHandles (foldl pool_step p os) = maxHandles p ∧
  initialSize (foldl pool_step p os) = initialSize p.
Proof.
  revert p. induction os as [|o os IH]; intros p; simpl; [done|].
  destruct (IH (pool_step p o)) as (-> & -> & -> & ->). apply pool_step_cfg.
Qed.

Lemma release_handles (p : BufferPool) (h : nat) (b : Uint8Array_) :
  handles p !! h = Some (Handle b false) →
  handles (release p h) = <[h := Handle b true]> (handles p) ∧ inFlight (release p h) = inFlight p - 1.
Proof. intros Hh. unfold release. by rewrite Hh. Qed.

Lemma live_elem (p : BufferPool) (h : nat) (b : Uint8Array_) :
  handles p !! h = Some (Handle b false) → b ∈ live_buffers p.
Proof.
  intros Hh. apply list_elem_of_omap. exists (Handle b false). split; [|done].
  by eapply list_elem_of_lookup_2.
Qed.

(** ** The pool as an exclusive allocator

    The contract the clients rely on, without handles, free lists or recycling:
    a borrow is a lease on a buffer, leased buffers are distinct, stay the same
    until returned, and are at least as large as was asked for. *)

Inductive lease_op := LAcquire (n : Z) | LReturn (k : nat) | LShrink.

Inductive spec_step (cap : Z) :
    list (option Uint8Array_) → lease_op → list (option Uint8Array_) → Prop :=
| spec_acquire L n b :
    n ≤ buf_size b → (∀ c, Some c ∈ L → buf_id c ≠ buf_id b) →
    ¬ (0 < cap ∧ cap ≤ zlen (omap id L)) →
    spec_step cap L (LAcquire n) (L ++ [Some b])
| spec_refuse L n :
    0 < cap → cap ≤ zlen (omap id L) → spec_step cap L (LAcquire n) L
| spec_return L k : spec_step cap L (LReturn k) (alter (λ _, None) k L)
| spec_shrink L : spec_step cap L LShrink L.

(** A client that keeps one handle per borrow and returns each borrow once;
    [leases] records, per borrow, the handle while it is outstanding. *)
Record client := Client { cpool : BufferPool; leases : list (option nat) }.

Definition client_step (c : client) (o : lease_op) : client :=
  match o with
  | LAcquire n => match acquire (cpool c) n with
                  | Ok (h, p) => Client p (leases c ++ [Some h])
                  | Throw _ => c
                  end
  | LReturn k => match leases c !! k with
                 | Some (Some h) => Client (release (cpool c) h) (<[k := None]> (leases c))
                 | _ => c
                 end
  | LShrink => Client (shrink (cpool c)) (leases c)
  end.

Definition lease_buffer (p : BufferPool) (o : option nat) : option Uint8Array_ :=
  h ← o; buffer <$> handles p !! h.

Definition abs (c : client) : list (option Uint8Array_) :=
  lease_buffer (cpool c) <$> leases c.

Record client_inv (c : client) : Prop := {
  cinv_pool : pool_inv (cpool c);
  cinv_live : ∀ i h, leases c !! i = Some (Some h) →
                ∃ b, handles (cpool c) !! h = Some (Handle b false);
  cinv_inj : ∀ i j h, leases c !! i = Some (Some h) → leases c !! j = Some (Some h) → i = j;
  cinv_count : inFlight (cpool c) = zlen (omap id (leases c));
}.

Lemma abs_outstanding (c : client) :
  client_inv c → zlen (omap id (abs c)) = inFlight (cpool c).
Proof.
  intros [_ Hlive _ ->]. unfold abs. revert Hlive. generalize (leases c) as L.
  induction L as [|[h|] L IH]; intros Hlive; csimpl; [done| |].
  - destruct (Hlive 0%nat h eq_refl) as [b ->]. csimpl. rewrite !zlen_cons, IH; [done|].
    intros i. apply (Hlive (S i)).
  - apply IH. intros i. apply (Hlive (S i)).
Qed.

Lemma client_acquire_sim (c : client) (n : Z) (h : nat) (p : BufferPool) :
  client_inv c → acquire (cpool c) n = Ok (h, p) →
  client_inv (Client p (leases c ++ [Some h])) ∧
  spec_step (maxInFlight (cpool c)) (abs c) (LAcquire n) (abs (Client p (leases c ++ [Some h]))).
Proof.
  intros Hc Ha. pose proof (abs_outstanding c Hc) as Hout. destruct Hc as [Hp Hlive Hinj Hcount].
  pose proof (acquire_inv _ _ _ _ Hp Ha) as Hp'.
  destruct (acquire_spec_raw _ _ _ _ Hp Ha)
    as (b & q & Ht & _ & _ & _ & Hin & _ & _ & _ & _ & Hh & Hk & Hlen & Hdead & Hlv & _).
  assert (Hold : ∀ i h', leases c !! i = Some (Some h') →
      h' ≠ h ∧ handles p !! h' = handles (cpool c) !! h').
  { intros i h' Hi. destruct (Hlive i h' Hi) as [b' Hb']. assert (h' ≠ h) by naive_solver.
    split; [done|]. apply Hk; [done|by eapply lookup_lt_Some]. }
  split.
  - constructor; simpl; [done| | |rewrite omap_app, Hin, Hcount; csimpl; zlia].
    + intros i h' [Hi|[_ Hi]]%lookup_app_Some.
      * destruct (Hold i h' Hi) as [_ ->]. eauto.
      * apply list_lookup_singleton_Some in Hi as [_ [= <-]]. eauto.
    + intros i j h' [Hi|[Hli Hi]]%lookup_app_Some [Hj|[Hlj Hj]]%lookup_app_Some.
      * eauto.
      * apply list_lookup_singleton_Some in Hj as [_ [= <-]]. by destruct (Hold i h Hi).
      * apply list_lookup_singleton_Some in Hi as [_ [= <-]]. by destruct (Hold j h Hj).
      * apply list_lookup_singleton_Some in Hi as [? _], Hj as [? _]. lia.
  - assert (Habs : abs (Client p (leases c ++ [Some h])) = abs c ++ [Some b]).
    { unfold abs. simpl. rewrite fmap_app. simpl. rewrite Hh. f_equal.
      apply list_fmap_ext. intros i [h'|] Hi; [|done]. simpl. by destruct (Hold i h' Hi) as [_ ->]. }
    rewrite Habs. constructor.
    + pose proof (take_buffer_spec (cpool c) (Z.max 0 n)) as Hts. rewrite Ht in Hts. lia.
    + intros c0 (o & Ho & Hin')%list_elem_of_fmap.
      apply list_elem_of_lookup in Hin' as [i Hi]. destruct o as [h'|]; [|done].
      destruct (Hlive i h' Hi) as [b' Hb']. simpl in Ho. rewrite Hb' in Ho. injection Ho as ->.
      pose proof (inv_distinct _ Hp') as Hnd. rewrite Hlv, fmap_app in Hnd.
      apply NoDup_app in Hnd as (_ & _ & Hnd). apply NoDup_cons in Hnd as [Hnd _].
      intros E. apply Hnd. rewrite <-E. apply list_elem_of_fmap_2. by eapply live_elem.
    + rewrite Hout. unfold acquire in Ha. by case_decide.
Qed.

Lemma client_return_sim (c : client) (k h : nat) :
  client_inv c → leases c !! k = Some (Some h) →
  let c' := Client (release (cpool c) h) (<[k := None]> (leases c)) in
  client_inv c' ∧ abs c' = alter (λ _, None) k (abs c).
Proof.
  intros [Hp Hlive Hinj Hcount] Hk. destruct (Hlive k h Hk) as [b Hb].
  destruct (release_handles _ _ _ Hb) as [Hhs Hin].
  assert (Hother : ∀ i h', i ≠ k → leases c !! i = Some (Some h') →
      handles (release (cpool c) h) !! h' = handles (cpool c) !! h').
  { intros i h' Hne Hi. rewrite Hhs. apply list_lookup_insert_ne. intros <-.
    apply Hne. by apply (Hinj i k h). }
  apply lookup_lt_Some in Hk as Hkl. split.
  - constructor; simpl; [by apply release_inv| | |].
    + intros i h' Hi. apply list_lookup_insert_Some in Hi as [(_ & ? & _)|[Hne Hi]]; [done|].
      rewrite (Hother i h') by done. eauto.
    + intros i j h' Hi Hj.
      apply list_lookup_insert_Some in Hi as [(_ & ? & _)|[_ Hi]]; [done|].
      apply list_lookup_insert_Some in Hj as [(_ & ? & _)|[_ Hj]]; [done|]. eauto.
    + rewrite Hin, Hcount. rewrite insert_take_drop by done.
      rewrite <-(take_drop_middle (leases c) k (Some h) Hk) at 1. rewrite !omap_app. csimpl. zlia.
  - unfold abs. simpl. apply list_eq. intros i. rewrite list_lookup_fmap.
    destruct (decide (i = k)) as [->|Hne].
    + rewrite list_lookup_insert_eq, list_lookup_alter_eq, list_lookup_fmap, Hk by done. done.
    + rewrite list_lookup_insert_ne, list_lookup_alter_ne, list_lookup_fmap by done.
      destruct (leases c !! i) as [[h'|]|] eqn:Hi; [|done|done]. simpl. by rewrite (Hother i h').
Qed.

Lemma alter_done (k : nat) (L : list (option Uint8Array_)) :
  (∀ b, L !! k ≠ Some (Some b)) → alter (λ _, None) k L = L.
Proof.
  intros Hk. apply list_eq. intros i. destruct (decide (i = k)) as [->|Hne].
  - rewrite list_lookup_alter_eq. destruct (L !! k) as [[b|]|] eqn:E; [|done|done]. by destruct (Hk b).
  - by rewrite list_lookup_alter_ne.
Qed.

Lemma client_step_sim (c : client) (o : lease_op) :
  client_inv c →
  client_inv (client_step c o) ∧ maxInFlight (cpool (client_step c o)) = maxInFlight (cpool c) ∧
  spec_step (maxInFlight (cpool c)) (abs c) o (abs (client_step c o)).
Proof.
  intros Hc. destruct o as [n|k|]; simpl.
  - destruct (acquire (cpool c) n) as [[h p]|] eqn:E.
    + destruct (client_acquire_sim c n h p Hc E) as [H1 H2].
      destruct (pool_step_cfg (cpool c) (Acquire n)) as (_ & Hm & _). simpl in Hm. rewrite E in Hm.
      split; [done|]. by split.
    + split; [done|]. split; [done|]. unfold acquire in E. case_decide as Hd.
      * pose proof (abs_outstanding c Hc). constructor; lia.
      * destruct (take_buffer _ _) as [? ?]. by destruct (pop _) as [[]|].
  - destruct (leases c !! k) as [[h|]|] eqn:E.
    + destruct (client_return_sim c k h Hc E) as [H1 H2].
      destruct (pool_step_cfg (cpool c) (Release h)) as (_ & Hm & _).
      split; [done|]. split; [done|]. rewrite H2. constructor.
    + split; [done|]. split; [done|]. rewrite <-(alter_done k (abs c)) at 2; [constructor|].
      intros b. unfold abs. by rewrite list_lookup_fmap, E.
    + split; [done|]. split; [done|]. rewrite <-(alter_done k (abs c)) at 2; [constructor|].
      intros b. unfold abs. by rewrite list_lookup_fmap, E.
  - split; [|split; [done|constructor]].
    destruct Hc as [Hp Hlive Hinj Hcount]. constructor; [by apply shrink_inv|done..].
Qed.

(** ** Theorems *)

(** C34. Over every sequence of acquires, releases (repeated and stale ones
    included) and shrinks: the free list respects [maxBuffers], the in-flight
    counter counts the unreleased handles and respects [maxInFlight], recycled
    handle objects stay bounded, every buffer is free or held by one unreleased
    handle and never both, and [createdCount] counts the allocations. *)
Theorem pool_invariant (i m f pf : Z) (pb : option Z) (e : option est_state) (os : list pool_op) :
  let p := foldl pool_step (newBufferPool i m f pf pb e) os in
  freeCount p ≤ Z.max 1 m ∧
  inFlight p = zlen (live_buffers p) ∧ (0 < f → inFlight p ≤ f) ∧
  zlen (freeHandles p) ≤ Z.max 1 m + Z.max 1 f ∧
  NoDup (buf_id <$> free p ++ live_buffers p) ∧
  createdCount p = Z.of_nat (nextBuf p) ∧
  (∀ b, b ∈ free p ++ live_buffers p → (buf_id b < nextBuf p)%nat ∧ Z.max 1 i ≤ buf_size b).
Proof.
  intros p. pose proof (pool_run_inv os _ (new_inv i m f pf pb e)) as Hinv. fold p in Hinv.
  destruct (pool_run_cfg os (newBufferPool i m f pf pb e)) as (Hm & Hf & Hh & Hi).
  fold p in Hm, Hf, Hh, Hi. simpl in *.
  destruct Hinv as [_ H1 H2 H3 H4 _ H6 H7 H8]. rewrite Hm in H1. rewrite Hh in H2.
  rewrite Hf in H4. rewrite Hi in H7. unfold freeCount, createdCount.
  repeat (split; [first [done|lia]|]). done.
Qed.

(** [acquire] fails exactly when the in-flight cap is reached.  Otherwise
    the handle it returns was not in use, holds a buffer of at least the asked
    size that no other unreleased handle and no free slot holds, and every
    handle in use keeps its buffer; a new buffer is allocated only when no free
    one is large enough. *)
Theorem acquire_exclusive (p : BufferPool) (n : Z) :
  pool_inv p →
  if decide (0 < maxInFlight p ∧ maxInFlight p ≤ inFlight p)
  then acquire p n = Throw (RangeError "BufferPool: maxInFlight exceeded")
  else ∃ h b p', acquire p n = Ok (h, p') ∧ handles p' !! h = Some (Handle b false) ∧
    n ≤ buf_size b ∧ (∀ b0, handles p !! h ≠ Some (Handle b0 false)) ∧
    (∀ x, x ∈ free p' ++ live_buffers p → buf_id x ≠ buf_id b) ∧
    (∀ k c, handles p !! k = Some (Handle c false) → handles p' !! k = Some (Handle c false)) ∧
    created p' = created p + (if decide (Exists (λ x, Z.max 0 n ≤ buf_size x) (free p)) then 0 else 1).
Proof.
  intros Hinv. case_decide as Hcap; [by unfold acquire; rewrite decide_True|].
  destruct (acquire p n) as [[h p']|] eqn:Ha; last first.
  { unfold acquire in Ha. rewrite decide_False in Ha by done.
    destruct (take_buffer _ _) as [? ?]. by destruct (pop _) as [[]|]. }
  pose proof (acquire_inv _ _ _ _ Hinv Ha) as Hinv'.
  destruct (acquire_spec_raw _ _ _ _ Hinv Ha)
    as (b & q & Ht & _ & _ & Hcr & _ & _ & _ & _ & _ & Hh & Hk & _ & Hdead & Hlv & _).
  pose proof (take_buffer_spec p (Z.max 0 n)) as Hts. rewrite Ht in Hts.
  destruct Hts as (Hsz & Hcase & _). exists h, b, p'. split; [done|]. split; [done|].
  split; [lia|]. split; [done|]. split; [|split].
  - intros x Hx E. pose proof (inv_distinct _ Hinv') as Hnd.
    rewrite Hlv, <-Permutation_middle in Hnd. apply NoDup_cons in Hnd as [Hnd _]. apply Hnd.
    rewrite <-E. by apply list_elem_of_fmap_2.
  - intros k c Hc. rewrite Hk; [done| |by eapply lookup_lt_Some]. intros ->. by destruct (Hdead c).
  - rewrite Hcr. destruct Hcase as [(Hperm & _ & ->)|(_ & Hno & _ & -> & _)]; case_decide as Hd; try lia.
    + destruct Hd. apply Exists_exists. exists b. split; [rewrite Hperm; set_solver|done].
    + apply Exists_exists in Hd as (x & Hx & Hsx). apply Hno in Hx. lia.
Qed.

(** The first [release] of a checkout puts its buffer back on the free list
    (dropping at most one retained buffer, a smallest one, and only when the
    list is full), ends exactly that checkout, and any further [release] before
    the handle is recycled changes nothing. *)
Theorem release_once (p : BufferPool) (h : nat) (b : Uint8Array_) :
  pool_inv p → handles p !! h = Some (Handle b false) →
  let p' := release p h in
  b ∈ free p' ∧ inFlight p' = inFlight p - 1 ∧
  (∃ gs, free p ++ [b] ≡ₚ gs ++ free p' ∧ zlen gs ≤ 1 ∧
     ∀ g, g ∈ gs → zlen (free p) = maxBuffers p ∧ ∀ x, x ∈ free p → buf_size g ≤ buf_size x) ∧
  (∀ k, k ≠ h → handles p' !! k = handles p !! k) ∧
  release p' h = p'.
Proof.
  intros Hinv Hh p'. destruct (release_handles p h b Hh) as [Hhs Hin].
  assert (Hfree : free p' = releaseBuffer p b) by (unfold p', release; by rewrite Hh).
  rewrite Hfree. split; [unfold releaseBuffer; set_solver|]. split; [done|].
  split; [destruct (releaseBuffer_perm p b Hinv) as (gs & ? & _ & ? & ?); eauto|].
  split; [intros k Hk; unfold p'; rewrite Hhs; by apply list_lookup_insert_ne|].
  unfold release at 1. unfold p' at 1. rewrite Hhs.
  rewrite list_lookup_insert_eq by (by eapply lookup_lt_Some). done.
Qed.

(** C35. A client that returns every borrow at most once sees an exclusive
    allocator: each of its calls is a step of the abstract allocator, in which
    outstanding buffers are pairwise distinct, keep their identity until
    returned and are as large as was asked for; handle recycling, growth and
    eviction are invisible. *)
Theorem pool_refines_allocator (i m f pf : Z) (pb : option Z) (e : option est_state)
    (os : list lease_op) (o : lease_op) :
  let c := foldl client_step (Client (newBufferPool i m f pf pb e) []) os in
  spec_step (Z.max 0 f) (abs c) o (abs (client_step c o)).
Proof.
  assert (Hrun : ∀ os c, client_inv c →
    client_inv (foldl client_step c os) ∧
    maxInFlight (cpool (foldl client_step c os)) = maxInFlight (cpool c)).
  { clear. intros os. induction os as [|o os IH]; intros c Hc; simpl; [done|].
    destruct (client_step_sim c o Hc) as (H1 & H2 & _).
    destruct (IH _ H1) as [? ->]. done. }
  intros c. destruct (Hrun os (Client (newBufferPool i m f pf pb e) [])) as [Hc Hm].
  { constructor; [apply new_inv|done..]. }
  fold c in Hc, Hm. destruct (client_step_sim c o Hc) as (_ & _ & Hs). by rewrite Hm in Hs.
Qed.

End pool.

Definition pool0 : BufferPool := newBufferPool 64 2 0 1 None None.

Lemma acquire_exclusive_witness :
  ∃ h b p', acquire pool0 100 = Ok (h, p') ∧ handles p' !! h = Some (Handle b false) ∧
    100 ≤ buf_size b.
Proof.
  destruct (acquire_exclusive pool0 100 (new_inv 64 2 0 1 None None)) as (h & b & p' & H1 & H2 & H3 & _).
  exists h, b, p'. exact (conj H1 (conj H2 H3)).
Defined.

Lemma release_once_witness :
  let p := pool_step pool0 (Acquire 10) in release (release p 0) 0 = release p 0.
Proof.
  apply (release_once (pool_step pool0 (Acquire 10)) 0 (Buf 0 64)); [|reflexivity].
  apply pool_step_inv, new_inv.
Defined.

(** A [release] that comes after the handle object was recycled is not a
    no-op: with the handle of a finished borrow kept and released again, the
    buffer of the borrow that now uses that handle goes back to the pool, and
    the next [acquire] hands the same buffer out a second time while its first
    holder has not released it. *)
Theorem late_release_aliases :
  ∃ h b p1 p2 p3,
    let pool := newBufferPool 64 1 0 0 None None in
    acquire pool 10 = Ok (h, p1) ∧                       (* borrow A, which A then ends *)
    acquire (release p1 h) 10 = Ok (h, p2) ∧             (* borrow B *)
    acquire (release p2 h) 10 = Ok (h, p3) ∧             (* A releases again; borrow C *)
    handles p2 !! h = Some (Handle b false) ∧            (* B's buffer, *)
    handles p3 !! h = Some (Handle b false) ∧            (* and C's *)
    inFlight p3 = 1.
Proof.
  set (p := Pool [] [] 64 1 0 2 None 1 1 [Handle (Buf 0 64) false] 1).
  exists 0%nat, (Buf 0 64), p, p, p. repeat split; reflexivity.
Qed.
