(* ===== verification/Response.v ===== *)
(** Responses whose body is a view of a pooled buffer
    (src/shared/response.ts, [pooledBodyResponse]).

    The body is a [ReadableStream]; its underlying source is the state machine
    below, one operation per callback.  A callback returns the handle releases
    it performs, so that the machine composes with any pool.  The stream keeps
    the chunks that were enqueued and not yet read, as the platform's stream
    does: with the default queuing strategy it calls [pull] whenever its queue
    is empty, before anybody reads. *)
From S2P Require Import Prelude.
From S2P Require Import Pool.

Record pooled_body := Body {
  body_handle : nat;
  body_bytes : Uint8Array_;      (* the buffer the served slice is a view of *)
  closure_released : bool;       (* the closure's [released] flag *)
  timer_armed : bool;
  queue : list Uint8Array_;      (* chunks enqueued and not yet read *)
  stream_closed : bool;
}.

(** The construction: an empty slice releases at once and has no stream. *)
Definition pooledBodyResponse (h : nat) (bytes : Uint8Array_) (byteLength timeoutMs : Z)
    : option pooled_body * list nat :=
  if decide (byteLength = 0) then (None, [h])
  else (Some (Body h bytes false (bool_decide (0 < timeoutMs)) [] false), []).

(** The closure [release]: clears the timer and releases the handle, once. *)
Definition closure_release (b : pooled_body) : pooled_body * list nat :=
  if closure_released b then (b, [])
  else (Body (body_handle b) (body_bytes b) true false (queue b) (stream_closed b),
        [body_handle b]).

Definition enqueue (b : pooled_body) : pooled_body :=
  Body (body_handle b) (body_bytes b) (closure_released b) (timer_armed b)
    (queue b ++ [body_bytes b]) (stream_closed b).

Definition close (b : pooled_body) : pooled_body :=
  Body (body_handle b) (body_bytes b) (closure_released b) (timer_armed b) (queue b) true.

(** [pull(controller)] *)
Definition pull (b : pooled_body) : pooled_body * list nat :=
  if closure_released b then (close b, []) else closure_release (close (enqueue b)).

(** [cancel()]: the platform drops the queue and closes the stream first. *)
Definition cancel (b : pooled_body) : pooled_body * list nat :=
  closure_release (Body (body_handle b) (body_bytes b) (closure_released b) (timer_armed b) [] true).

(** The abandonment timer's callback. *)
Definition timeout (b : pooled_body) : pooled_body * list nat :=
  if closure_released b then (b, [])
  else let '(b, r) := closure_release b in (close b, r).

(** The consumer takes the next chunk. *)
Definition read (b : pooled_body) : pooled_body :=
  Body (body_handle b) (body_bytes b) (closure_released b) (timer_armed b)
    (tail (queue b)) (stream_closed b).

Inductive body_event := Pull | Cancel | Timeout | Read.

(** The platform calls [pull] only while the stream is open, [cancel] while it
    is open or still has unread chunks, and a timer only while it is armed. *)
Definition body_step (b : pooled_body) (e : body_event) : pooled_body * list nat :=
  match e with
  | Pull => if stream_closed b then (b, []) else pull b
  | Cancel => if stream_closed b && bool_decide (queue b = []) then (b, []) else cancel b
  | Timeout => if timer_armed b then timeout b else (b, [])
  | Read => (read b, [])
  end.

Fixpoint body_run (b : pooled_body) (es : list body_event) : pooled_body * list nat :=
  match es with
  | [] => (b, [])
  | e :: es => let '(b1, r1) := body_step b e in
               let '(b2, r2) := body_run b1 es in (b2, r1 ++ r2)
  end.

(** The events that end the borrow. *)
Definition ends (b : pooled_body) (e : body_event) : bool :=
  match e with Pull | Cancel => true | Timeout => timer_armed b | Read => false end.

Definition body_inv (b : pooled_body) : Prop :=
  (closure_released b = true → timer_armed b = false) ∧
  (closure_released b = false → stream_closed b = false ∧ queue b = []).

Lemma body_step_inv (b : pooled_body) (e : body_event) :
  body_inv b → body_inv (body_step b e).1.
Proof.
  destruct b as [h bs rel t q c]. unfold body_inv, body_step, pull, cancel, timeout, closure_release.
  intros [H1 H2]. destruct e, rel, c, t; simpl in *; try case_bool_decide; simpl in *; naive_solver.
Qed.

(** After the borrow has ended nothing is released any more. *)
Lemma body_run_released (es : list body_event) (b : pooled_body) :
  closure_released b = true →
  (body_run b es).2 = [] ∧ closure_released (body_run b es).1 = true ∧
  (queue b = [] → queue (body_run b es).1 = []).
Proof.
  revert b. induction es as [|e es IH]; intros b Hr; simpl; [done|].
  assert (Hs : (body_step b e).2 = [] ∧ closure_released (body_step b e).1 = true ∧
               (queue b = [] → queue (body_step b e).1 = [])).
  { destruct b as [h bs rel t q c]. simpl in Hr. subst rel.
    unfold body_step, pull, cancel, timeout, closure_release.
    destruct e, c, t; simpl; try case_bool_decide; simpl; split; try done; split; try done;
      by intros ->. }
  destruct (body_step b e) as [b1 r1]. simpl in Hs. destruct Hs as (-> & H1 & H2).
  destruct (IH b1 H1) as (E & ? & ?). destruct (body_run b1 es) as [b2 r2].
  simpl in *. rewrite E. naive_solver.
Qed.

Lemma body_step_ends (b : pooled_body) (e : body_event) :
  body_inv b → closure_released b = false →
  if ends b e
  then (body_step b e).2 = [body_handle b] ∧ closure_released (body_step b e).1 = true ∧
       (e ≠ Pull → queue (body_step b e).1 = [])
  else (body_step b e).2 = [] ∧ closure_released (body_step b e).1 = false ∧
       body_handle (body_step b e).1 = body_handle b ∧
       timer_armed (body_step b e).1 = timer_armed b.
Proof.
  intros [_ Hi] Hr. destruct (Hi Hr) as [Hc Hq]. destruct b as [h bs rel t q c]. simpl in *. subst.
  destruct e; simpl; unfold body_step, pull, cancel, timeout, closure_release; simpl; try done.
  destruct t; done.
Qed.

(** However pulls, reads, cancellation and the abandonment timer interleave,
    the handle of a pooled body is released at most once: exactly once when the
    stream was pulled or cancelled or an armed timer fired, and not at all
    before. *)
Theorem pooled_body_releases_once (h : nat) (bytes : Uint8Array_) (len timeoutMs : Z)
    (es : list body_event) :
  match pooledBodyResponse h bytes len timeoutMs with
  | (None, rs) => rs = [h]
  | (Some b, rs) =>
      rs = [] ∧ (body_run b es).2 = (if existsb (ends b) es then [h] else [])
  end.
Proof.
  unfold pooledBodyResponse. case_decide; [done|]. split; [done|].
  set (b := Body _ _ _ _ _ _).
  assert (Hgen : ∀ b, body_inv b → closure_released b = false →
    (body_run b es).2 = if existsb (ends b) es then [body_handle b] else []).
  { clear. induction es as [|e es IH]; intros b Hi Hr; simpl; [done|].
    pose proof (body_step_ends b e Hi Hr) as Hs. pose proof (body_step_inv b e Hi) as Hi'.
    destruct (body_step b e) as [b1 r1]. simpl in *. destruct (ends b e); simpl.
    - destruct Hs as (-> & H1 & _). destruct (body_run_released es b1 H1) as [E _].
      destruct (body_run b1 es). simpl in *. by rewrite E.
    - destruct Hs as (-> & H1 & <- & Ht). specialize (IH b1 Hi' H1).
      destruct (body_run b1 es) as [b2 r2]. simpl in *. rewrite IH.
      assert (E : ∀ l, existsb (ends b1) l = existsb (ends b) l).
      { intros l; induction l as [|x l IHl]; simpl; [reflexivity|]. rewrite IHl. f_equal. destruct x; simpl; congruence. }
      by rewrite E. }
  apply (Hgen b); [|done]. split; [done|]. done.
Qed.

(** A body that was cancelled or timed out before it was pulled never
    serves its bytes: its queue is empty at that moment and stays empty over
    every later pull and read. *)
Theorem abandoned_body_serves_nothing (b : pooled_body) (e : body_event) (es : list body_event) :
  body_inv b → closure_released b = false → e ≠ Pull → ends b e = true →
  queue (body_run b (e :: es)).1 = [].
Proof.
  intros Hi Hr He Hends. pose proof (body_step_ends b e Hi Hr) as Hs. rewrite Hends in Hs.
  destruct Hs as (_ & H1 & H2). simpl. destruct (body_step b e) as [b1 r1]. simpl in *.
  destruct (body_run_released es b1 H1) as (_ & _ & H3). destruct (body_run b1 es). simpl in *. auto.
Qed.

Lemma abandoned_body_serves_nothing_witness :
  queue (body_run (Body 0 (Buf 0 64) false true [] false) (Timeout :: [Pull; Read; Pull])).1 = [].
Proof.
  apply (abandoned_body_serves_nothing (Body 0 (Buf 0 64) false true [] false) Timeout [Pull; Read; Pull]).
  - by split.
  - reflexivity.
  - discriminate.
  - reflexivity.
Defined.

(** Being pulled is not being consumed: [pull] releases the handle in the
    same call that enqueues the slice, so the next request's [acquire] gets the
    very buffer that an unread chunk of the first response is a view of. *)
Theorem pulled_chunk_aliases_next_request :
  ∃ h p1 b body,
    acquire (newBufferPool 64 16 0 0 None None) 10 = Ok (h, p1) ∧
    handles p1 !! h = Some (Handle b false) ∧
    pooledBodyResponse h b 10 0 = (Some body, []) ∧
    (let '(body', rs) := body_run body [Pull] in
     ∃ p2, acquire (foldl release p1 rs) 10 = Ok (h, p2) ∧
           handles p2 !! h = Some (Handle b false) ∧      (* the second request's buffer *)
           queue body' = [b]).                            (* the first response's unread chunk *)
Proof.
  exists 0%nat. eexists. exists (Buf 0 64). eexists.
  split; [reflexivity|]. split; [reflexivity|]. split; [reflexivity|].
  simpl. eexists. split; [reflexivity|]. done.
Qed.
