(* ===== verification/Layout.v ===== *)
(** Numeric contracts of the ingress pipeline: the binary layout shared with the
    native core (src/ingress/constants.ts, values from rust/ingress/output.rs),
    status normalisation (src/ingress/status.ts), error names and messages
    (src/ingress/errors.ts) and the option helpers of src/ingress/shared.ts. *)
From S2P Require Import Prelude.
From S2P Require Import Utf8.

(** ** Layout constants *)

Definition OUT_VERDICT : Z := 0.
Definition OUT_ERROR_CODE : Z := 1.
Definition OUT_STATUS : Z := 2.
Definition OUT_FLAGS : Z := 4.
Definition OUT_RATE_LIMIT : Z := 8.
Definition OUT_RATE_REMAINING : Z := 12.
Definition OUT_RATE_RESET : Z := 16.
Definition OUT_RETRY_AFTER : Z := 24.
Definition OUT_COOKIES_JSON_LEN : Z := 32.
Definition OUT_QUERY_JSON_LEN : Z := 36.
Definition OUT_HEADER_VARIANT : Z := 40.
Definition OUT_BODY_JSON_LEN : Z := 44.
Definition OUT_DATA_START : Z := 48.
Definition FLAG_HAS_COOKIES : Z := 1.
Definition FLAG_HAS_QUERY : Z := 2.
Definition FLAG_BODY_VALID_JSON : Z := 4.
Definition FLAG_SCHEMA_VALID : Z := 8.
Definition FLAG_CORS_ALLOWED : Z := 16.
Definition FLAG_IS_PREFLIGHT : Z := 32.
Definition FLAG_RATE_LIMITED : Z := 64.
Definition FLAG_HTTPS : Z := 128.
Definition FLAG_TRUSTED_PROXY : Z := 256.
Definition FLAG_BODY_TRUNCATED : Z := 512.
Definition HV_JSON : Z := 1.
Definition HV_CORS_SIMPLE : Z := 2.
Definition HV_CORS_PREFLIGHT : Z := 4.
Definition HV_RATE_ACTIVE : Z := 8.
Definition HV_RATE_LIMITED : Z := 16.
Definition HV_COUNT : Z := 32.
Definition ERR_CODE_NONE : Z := 0.
Definition ERR_CODE_CORS_PREFLIGHT : Z := 1.
Definition ERR_CODE_RATE_LIMITED : Z := 2.
Definition ERR_CODE_BODY_TOO_LARGE : Z := 3.
Definition ERR_CODE_INVALID_JSON : Z := 4.
Definition ERR_CODE_SCHEMA_VALIDATION : Z := 5.
Definition ERR_CODE_BAD_REQUEST : Z := 6.
Definition ERR_CODE_REQUEST_TOO_LARGE : Z := 7.
Definition ERR_CODE_INTERNAL : Z := 8.

(** JS-only: the body reader timed out. *)
Definition ERR_CODE_REQUEST_TIMEOUT : Z := -1.

(** The slots of the native layout blob, in the order of [SLOT]. *)
Definition SLOT : list (string * Z) := [
  ("OUT_VERDICT", 0);
  ("OUT_ERROR_CODE", 1);
  ("OUT_STATUS", 2);
  ("OUT_FLAGS", 3);
  ("OUT_RATE_LIMIT", 4);
  ("OUT_RATE_REMAINING", 5);
  ("OUT_RATE_RESET", 6);
  ("OUT_RETRY_AFTER", 7);
  ("OUT_COOKIES_JSON_LEN", 8);
  ("OUT_QUERY_JSON_LEN", 9);
  ("OUT_HEADER_VARIANT", 10);
  ("OUT_BODY_JSON_LEN", 11);
  ("OUT_DATA_START", 12);
  ("FLAG_HAS_COOKIES", 13);
  ("FLAG_HAS_QUERY", 14);
  ("FLAG_BODY_VALID_JSON", 15);
  ("FLAG_SCHEMA_VALID", 16);
  ("FLAG_CORS_ALLOWED", 17);
  ("FLAG_IS_PREFLIGHT", 18);
  ("FLAG_RATE_LIMITED", 19);
  ("FLAG_HTTPS", 20);
  ("FLAG_TRUSTED_PROXY", 21);
  ("FLAG_BODY_TRUNCATED", 22);
  ("HV_JSON", 23);
  ("HV_CORS_SIMPLE", 24);
  ("HV_CORS_PREFLIGHT", 25);
  ("HV_RATE_ACTIVE", 26);
  ("HV_RATE_LIMITED", 27);
  ("HV_COUNT", 28);
  ("ERR_NONE", 29);
  ("ERR_CORS_PREFLIGHT", 30);
  ("ERR_RATE_LIMITED", 31);
  ("ERR_BODY_TOO_LARGE", 32);
  ("ERR_INVALID_JSON", 33);
  ("ERR_SCHEMA_VALIDATION", 34);
  ("ERR_BAD_REQUEST", 35);
  ("ERR_REQUEST_TOO_LARGE", 36);
  ("ERR_INTERNAL", 37)].

(** The [IngressLayout] struct the native side writes (rust/ffi/ingress.rs),
    field by field. *)
Definition IngressLayout : list Z := [
  OUT_VERDICT; OUT_ERROR_CODE; OUT_STATUS; OUT_FLAGS; OUT_RATE_LIMIT; OUT_RATE_REMAINING;
  OUT_RATE_RESET; OUT_RETRY_AFTER; OUT_COOKIES_JSON_LEN; OUT_QUERY_JSON_LEN;
  OUT_HEADER_VARIANT; OUT_BODY_JSON_LEN; OUT_DATA_START; FLAG_HAS_COOKIES; FLAG_HAS_QUERY;
  FLAG_BODY_VALID_JSON; FLAG_SCHEMA_VALID; FLAG_CORS_ALLOWED; FLAG_IS_PREFLIGHT;
  FLAG_RATE_LIMITED; FLAG_HTTPS; FLAG_TRUSTED_PROXY; FLAG_BODY_TRUNCATED; HV_JSON;
  HV_CORS_SIMPLE; HV_CORS_PREFLIGHT; HV_RATE_ACTIVE; HV_RATE_LIMITED; HV_COUNT; ERR_CODE_NONE;
  ERR_CODE_CORS_PREFLIGHT; ERR_CODE_RATE_LIMITED; ERR_CODE_BODY_TOO_LARGE;
  ERR_CODE_INVALID_JSON; ERR_CODE_SCHEMA_VALIDATION; ERR_CODE_BAD_REQUEST;
  ERR_CODE_REQUEST_TOO_LARGE; ERR_CODE_INTERNAL].

(** [castrum_ingress_layout]: 38 little-endian words. *)
Definition ingressLayout : list Z := IngressLayout ≫= le_bytes 4.

(** [readLayoutViaFfi]: one [getUint32] per key. *)
Definition readLayoutViaFfi (buf : list Z) : result (list (string * Z)) :=
  mapM (λ '(key, slot), v ← dv_get 4 buf (slot * 4); Ok (key, v)) SLOT.

(** [readLayoutViaNapi]: the addon exports each constant under its own name. *)
Definition readLayoutViaNapi (addon : string → Z) : list (string * Z) :=
  (λ '(key, _), (key, addon ("INGRESS_" +:+ key))) <$> SLOT.

(** The table the exported constants are projections of. *)
Definition L : list (string * Z) := [
  ("OUT_VERDICT", OUT_VERDICT);
  ("OUT_ERROR_CODE", OUT_ERROR_CODE);
  ("OUT_STATUS", OUT_STATUS);
  ("OUT_FLAGS", OUT_FLAGS);
  ("OUT_RATE_LIMIT", OUT_RATE_LIMIT);
  ("OUT_RATE_REMAINING", OUT_RATE_REMAINING);
  ("OUT_RATE_RESET", OUT_RATE_RESET);
  ("OUT_RETRY_AFTER", OUT_RETRY_AFTER);
  ("OUT_COOKIES_JSON_LEN", OUT_COOKIES_JSON_LEN);
  ("OUT_QUERY_JSON_LEN", OUT_QUERY_JSON_LEN);
  ("OUT_HEADER_VARIANT", OUT_HEADER_VARIANT);
  ("OUT_BODY_JSON_LEN", OUT_BODY_JSON_LEN);
  ("OUT_DATA_START", OUT_DATA_START);
  ("FLAG_HAS_COOKIES", FLAG_HAS_COOKIES);
  ("FLAG_HAS_QUERY", FLAG_HAS_QUERY);
  ("FLAG_BODY_VALID_JSON", FLAG_BODY_VALID_JSON);
  ("FLAG_SCHEMA_VALID", FLAG_SCHEMA_VALID);
  ("FLAG_CORS_ALLOWED", FLAG_CORS_ALLOWED);
  ("FLAG_IS_PREFLIGHT", FLAG_IS_PREFLIGHT);
  ("FLAG_RATE_LIMITED", FLAG_RATE_LIMITED);
  ("FLAG_HTTPS", FLAG_HTTPS);
  ("FLAG_TRUSTED_PROXY", FLAG_TRUSTED_PROXY);
  ("FLAG_BODY_TRUNCATED", FLAG_BODY_TRUNCATED);
  ("HV_JSON", HV_JSON);
  ("HV_CORS_SIMPLE", HV_CORS_SIMPLE);
  ("HV_CORS_PREFLIGHT", HV_CORS_PREFLIGHT);
  ("HV_RATE_ACTIVE", HV_RATE_ACTIVE);
  ("HV_RATE_LIMITED", HV_RATE_LIMITED);
  ("HV_COUNT", HV_COUNT);
  ("ERR_NONE", ERR_CODE_NONE);
  ("ERR_CORS_PREFLIGHT", ERR_CODE_CORS_PREFLIGHT);
  ("ERR_RATE_LIMITED", ERR_CODE_RATE_LIMITED);
  ("ERR_BODY_TOO_LARGE", ERR_CODE_BODY_TOO_LARGE);
  ("ERR_INVALID_JSON", ERR_CODE_INVALID_JSON);
  ("ERR_SCHEMA_VALIDATION", ERR_CODE_SCHEMA_VALIDATION);
  ("ERR_BAD_REQUEST", ERR_CODE_BAD_REQUEST);
  ("ERR_REQUEST_TOO_LARGE", ERR_CODE_REQUEST_TOO_LARGE);
  ("ERR_INTERNAL", ERR_CODE_INTERNAL)].

(** ** Status *)

Definition isValidResponseStatus (status : Z) : bool :=
  bool_decide (status = 101) || bool_decide (200 ≤ status ≤ 599).

Definition statusForErrorCode (errorCode : Z) (isPreflightAllowed : bool) : Z :=
  if isPreflightAllowed then 204
  else if decide (errorCode = ERR_CODE_CORS_PREFLIGHT) then 403
  else if decide (errorCode = ERR_CODE_RATE_LIMITED) then 429
  else if decide (errorCode = ERR_CODE_BODY_TOO_LARGE) then 413
  else if decide (errorCode = ERR_CODE_INVALID_JSON) then 400
  else if decide (errorCode = ERR_CODE_SCHEMA_VALIDATION) then 422
  else if decide (errorCode = ERR_CODE_BAD_REQUEST) then 400
  else if decide (errorCode = ERR_CODE_REQUEST_TOO_LARGE) then 431
  else if decide (errorCode = ERR_CODE_REQUEST_TIMEOUT) then 408
  else 500.

Definition normalizeResponseStatus (status errorCode : Z) (isPreflightAllowed : bool) : Z :=
  if isValidResponseStatus status then status else statusForErrorCode errorCode isPreflightAllowed.

Definition safeTerminalStatus (status errorCode : Z) (isPreflight corsAllowed : bool) : Z :=
  if isPreflight && corsAllowed then 204
  else
    let s := normalizeResponseStatus status errorCode false in
    if decide (400 ≤ s) then s
    else if decide (errorCode ≠ ERR_CODE_NONE) then statusForErrorCode errorCode false
    else 500.

(** ** Names, messages, bodies *)

Definition errorCodeName (code : Z) : string :=
  if decide (code = ERR_CODE_NONE) then "none"
  else if decide (code = ERR_CODE_CORS_PREFLIGHT) then "cors_preflight"
  else if decide (code = ERR_CODE_RATE_LIMITED) then "rate_limited"
  else if decide (code = ERR_CODE_BODY_TOO_LARGE) then "body_too_large"
  else if decide (code = ERR_CODE_INVALID_JSON) then "invalid_json"
  else if decide (code = ERR_CODE_SCHEMA_VALIDATION) then "schema_validation"
  else if decide (code = ERR_CODE_BAD_REQUEST) then "bad_request"
  else if decide (code = ERR_CODE_REQUEST_TOO_LARGE) then "request_too_large"
  else if decide (code = ERR_CODE_REQUEST_TIMEOUT) then "request_timeout"
  else if decide (code = ERR_CODE_INTERNAL) then "internal"
  else "unknown".

Definition errorMessage (status code : Z) : string :=
  if decide (code = ERR_CODE_CORS_PREFLIGHT) then "CORS preflight rejected"
  else if decide (code = ERR_CODE_RATE_LIMITED) then "Too many requests"
  else if decide (code = ERR_CODE_BODY_TOO_LARGE) then "Request body too large"
  else if decide (code = ERR_CODE_INVALID_JSON) then "Invalid JSON body"
  else if decide (code = ERR_CODE_SCHEMA_VALIDATION) then "JSON schema validation failed"
  else if decide (code = ERR_CODE_BAD_REQUEST) then "Bad request"
  else if decide (code = ERR_CODE_REQUEST_TOO_LARGE) then "Request too large"
  else if decide (code = ERR_CODE_REQUEST_TIMEOUT) then "Request body read timed out"
  else if decide (code = ERR_CODE_INTERNAL) then "Internal server error"
  else if decide (500 ≤ status) then "Internal server error" else "Request rejected".

(** ** Option helpers *)

Definition MAX_OUTPUT_BUFFER_SIZE : Z := 64 * 1024 * 1024.

(** A JS number as an option may carry it: NaN and the infinities, or a finite
    value of which only the floor matters here. *)
Inductive js_number := NaN | PosInf | NegInf | Finite (floor : Z).

Definition clampIngressBufferSize (size : js_number) (min : Z) : js_number :=
  match size with
  | NaN => NaN                          (* Math.max and Math.min propagate NaN *)
  | PosInf => Finite MAX_OUTPUT_BUFFER_SIZE
  | NegInf => Finite (Z.min MAX_OUTPUT_BUFFER_SIZE min)
  | Finite n => Finite (Z.min MAX_OUTPUT_BUFFER_SIZE (Z.max min n))
  end.

(** [Math.ceil(ms / 1000)] on whole milliseconds. *)
Definition secondsFromMs (ms : Z) : Z := - ((- ms) / 1000).

Definition METHOD_KIND : list (string * Z) :=
  [("GET", 0); ("HEAD", 1); ("POST", 2); ("PUT", 3); ("PATCH", 4); ("DELETE", 5); ("OPTIONS", 6)].
Definition METHOD_KIND_UNKNOWN : Z := 7.

Record HeaderPlan := Plan { cookie : bool; cors : bool; proxy : bool; proto : bool }.

Record trust_options := TrustOptions {
  o_parseCookies : option bool; o_cors : bool; (* [cors != null] *)
  o_trustProxy : option bool; o_trustedProxies_enabled : option bool; o_https : option bool }.

Definition is_true (o : option bool) : bool := bool_decide (o = Some true).

Definition buildHeaderPlan (o : trust_options) : HeaderPlan :=
  let trust := is_true (o_trustProxy o) || is_true (o_trustedProxies_enabled o) in
  Plan (is_true (o_parseCookies o)) (o_cors o) trust
    (trust && bool_decide (o_https o = None)).

(** ** Theorems *)

Lemma statusForErrorCode_range (code : Z) : 400 ≤ statusForErrorCode code false ≤ 500.
Proof. unfold statusForErrorCode. repeat case_decide; lia. Qed.

(** The layout table is the same whichever transport reads it: the words of
    the native blob, and the addon's named exports, give every constant its
    value. *)
Theorem layout_transports_agree (addon : string → Z) :
  (∀ key v, (key, v) ∈ L → addon ("INGRESS_" +:+ key) = v) →
  readLayoutViaFfi ingressLayout = Ok L ∧ readLayoutViaNapi addon = L.
Proof.
  intros Ha. split; [vm_compute; reflexivity|].
  transitivity ((λ '(key, _), (key, addon ("INGRESS_" +:+ key))) <$> L); [reflexivity|].
  rewrite <-(list_fmap_id L) at 2. apply list_fmap_ext. intros i [key v] Hi. simpl.
  f_equal. apply Ha. by eapply list_elem_of_lookup_2.
Qed.

(** The addon's exports as a function. *)
Definition addon0 (name : string) : Z :=
  match list_find (λ kv : string * Z, "INGRESS_" +:+ kv.1 = name) L with
  | Some (_, (_, v)) => v
  | None => 0
  end.

Lemma layout_transports_agree_witness : readLayoutViaNapi addon0 = L.
Proof.
  apply (layout_transports_agree addon0). intros key v H.
  assert (Hall : Forall (λ kv : string * Z, addon0 ("INGRESS_" +:+ kv.1) = kv.2) L).
  { unfold L. repeat (apply Forall_cons; split; [vm_compute; reflexivity|]). apply Forall_nil; done. }
  rewrite Forall_forall in Hall. exact (Hall _ H).
Defined.

(** The status of a terminal response is 204 for a permitted preflight and
    otherwise always a client or server error, whatever raw status and error
    code the native core produced. *)
Theorem safeTerminalStatus_range (status errorCode : Z) (isPreflight corsAllowed : bool) :
  let s := safeTerminalStatus status errorCode isPreflight corsAllowed in
  if isPreflight && corsAllowed then s = 204 else 400 ≤ s ≤ 599.
Proof.
  unfold safeTerminalStatus. destruct (isPreflight && corsAllowed); [done|].
  pose proof (statusForErrorCode_range errorCode).
  unfold normalizeResponseStatus, isValidResponseStatus.
  repeat case_bool_decide; simpl; repeat case_decide; lia.
Qed.

(** Every finite or infinite size is clamped into the allowed range, but NaN
    passes through unchanged. *)
Theorem clampIngressBufferSize_nan (min : Z) :
  min ≤ MAX_OUTPUT_BUFFER_SIZE →
  (∀ size, size ≠ NaN → ∃ n, clampIngressBufferSize size min = Finite n ∧
     min ≤ n ≤ MAX_OUTPUT_BUFFER_SIZE) ∧
  clampIngressBufferSize NaN min = NaN.
Proof.
  intros Hm. split; [|done]. intros [| | |n] Hn; [done|..]; simpl; eexists; (split; [done|lia]).
Qed.

Lemma clampIngressBufferSize_nan_witness : clampIngressBufferSize NaN OUT_DATA_START = NaN.
Proof. apply (clampIngressBufferSize_nan OUT_DATA_START). vm_compute. discriminate. Defined.
