(* ===== verification/Decode.v ===== *)
(** Decoding of the native core's output buffer: the bounds-checked section
    layout (src/ingress/decode/packed-sections.ts), the shared decoder state
    (result-base.ts) and the two decoders over it (fast-result.ts,
    baked-result.ts), against the header writer of the native core
    (rust/ingress/output.rs, [write_output_header]). *)
From S2P Require Import Prelude.
From S2P Require Import Utf8.
From S2P Require Import JsObject.
From S2P Require Import Wire.
From S2P Require Import Layout.

(** ** Sections *)

Record PackedSectionLayout := {
  safeCookiesLen : Z; queryStart : Z; safeQueryLen : Z;
  bodyJsonStart : Z; safeBodyJsonLen : Z; truncated : bool }.

Definition sectionLayout (bufLen cookiesLen queryLen bodyLen : Z) : PackedSectionLayout :=
  let safeCookiesLen :=
    if decide (0 < cookiesLen ∧ OUT_DATA_START + cookiesLen ≤ bufLen) then cookiesLen else 0 in
  let queryStart := OUT_DATA_START + safeCookiesLen in
  let safeQueryLen :=
    if decide (0 < queryLen ∧ queryStart + queryLen ≤ bufLen) then queryLen else 0 in
  let bodyJsonStart := queryStart + safeQueryLen in
  let safeBodyJsonLen :=
    if decide (0 < bodyLen ∧ bodyJsonStart + bodyLen ≤ bufLen) then bodyLen else 0 in
  {| safeCookiesLen := safeCookiesLen; queryStart := queryStart; safeQueryLen := safeQueryLen;
     bodyJsonStart := bodyJsonStart; safeBodyJsonLen := safeBodyJsonLen;
     truncated := bool_decide (safeCookiesLen ≠ cookiesLen ∨ safeQueryLen ≠ queryLen ∨
                               safeBodyJsonLen ≠ bodyLen) |}.

(** ** Decoder state *)

Record IngressResultBase := Base {
  verdict : Z; errorCode : Z; status : Z; headerVariant : Z;
  rateRemaining : Z; rateResetMs : Z; retryAfterMs : Z;
  terminal : bool; ok : bool; isPreflight : bool; corsAllowed : bool; rateLimited : bool;
  trustedProxy : bool; bodyValidJson : bool; schemaValid : bool; bodyTruncated : bool;
  body : list Z;
  _buf : list Z; _len : Z; _bodyJsonStart : Z; _bodyJsonLen : Z;
  _cookiesBuf : option (list Z); _queryBuf : option (list Z);
  _cookiesDecoded : option (list Z); _queryDecoded : option (list Z) }.

(** [resetShared], which is also the initial state of the fields. *)
Definition resetShared : IngressResultBase :=
  Base 0 0 0 0 0 0 0 true false false false false false false false false
    [] [] 0 OUT_DATA_START 0 None None None None.

Definition updateOkTerminal (verdict status : Z) : bool * bool :=
  (bool_decide (verdict ≠ 0 ∨ 400 ≤ status),
   bool_decide (verdict = 0 ∧ 200 ≤ status < 400)).

(** [setRateWindow]: each 64-bit field is the sum of two doubles, rounded when it is not
    below 2^53 (the product with 2^32 is exact). *)
Definition setRateWindow (rateLimit : Z) (rateLimited : bool) (view : list Z) : result (Z * Z) :=
  if bool_decide (0 < rateLimit) || rateLimited then
    resetLo ← dv_get 4 view OUT_RATE_RESET;
    resetHi ← dv_get 4 view (OUT_RATE_RESET + 4);
    retryLo ← dv_get 4 view OUT_RETRY_AFTER;
    retryHi ← dv_get 4 view (OUT_RETRY_AFTER + 4);
    Ok (round_double (resetLo + resetHi * 4294967296), round_double (retryLo + retryHi * 4294967296))
  else Ok (0, 0).

Record sections := Sections { sec_cookies : option (list Z); sec_query : option (list Z) }.

Definition setSections (buf : list Z) (l : PackedSectionLayout) : sections :=
  Sections
    (if decide (0 < safeCookiesLen l)
     then Some (subarray buf OUT_DATA_START (OUT_DATA_START + safeCookiesLen l)) else None)
    (if decide (0 < safeQueryLen l)
     then Some (subarray buf (queryStart l) (queryStart l + safeQueryLen l)) else None).

Definition hasFlag (flags flag : Z) : bool := bool_decide (Z.land flags flag ≠ 0).

(** [bodyJsonSlice] *)
Definition bodyJsonSlice (r : IngressResultBase) : list Z :=
  if decide (_bodyJsonLen r = 0) then []
  else
    let end_ := _bodyJsonStart r + _bodyJsonLen r in
    if decide (_len r < end_) then [] else subarray (_buf r) (_bodyJsonStart r) end_.

(** [BakedIngressResult.bodyJson(copy)]: the copying form slices the buffer
    itself, the other one returns the view; as bytes they are to agree. *)
Definition bodyJson (r : IngressResultBase) (copy : bool) : list Z :=
  if copy then
    if decide (_bodyJsonLen r = 0) then []
    else
      let end_ := _bodyJsonStart r + _bodyJsonLen r in
      if decide (_len r < end_) then [] else subarray (_buf r) (_bodyJsonStart r) end_
  else bodyJsonSlice r.

Section lazy.
Context `{Codec}.

(** The lazily decoded sections: the string and the state with it cached. *)
Definition set_cookiesDecoded (r : IngressResultBase) (s : list Z) : IngressResultBase :=
  Base (verdict r) (errorCode r) (status r) (headerVariant r) (rateRemaining r) (rateResetMs r)
    (retryAfterMs r) (terminal r) (ok r) (isPreflight r) (corsAllowed r) (rateLimited r)
    (trustedProxy r) (bodyValidJson r) (schemaValid r) (bodyTruncated r) (body r) (_buf r) (_len r)
    (_bodyJsonStart r) (_bodyJsonLen r) (_cookiesBuf r) (_queryBuf r) (Some s) (_queryDecoded r).

Definition set_queryDecoded (r : IngressResultBase) (s : list Z) : IngressResultBase :=
  Base (verdict r) (errorCode r) (status r) (headerVariant r) (rateRemaining r) (rateResetMs r)
    (retryAfterMs r) (terminal r) (ok r) (isPreflight r) (corsAllowed r) (rateLimited r)
    (trustedProxy r) (bodyValidJson r) (schemaValid r) (bodyTruncated r) (body r) (_buf r) (_len r)
    (_bodyJsonStart r) (_bodyJsonLen r) (_cookiesBuf r) (_queryBuf r) (_cookiesDecoded r) (Some s).

Definition cookiesJson (r : IngressResultBase) : list Z * IngressResultBase :=
  match _cookiesDecoded r, _cookiesBuf r with
  | Some s, _ => (s, r)
  | None, Some b => let s := decodeUtf8 b in (s, set_cookiesDecoded r s)
  | None, None => (js "{}", r)
  end.

Definition queryJson (r : IngressResultBase) : list Z * IngressResultBase :=
  match _queryDecoded r, _queryBuf r with
  | Some s, _ => (s, r)
  | None, Some b => let s := decodeUtf8 b in (s, set_queryDecoded r s)
  | None, None => (js "{}", r)
  end.

End lazy.

(** ** The pre-baked decoder *)

Definition baked_invalidate : IngressResultBase := resetShared.

Definition baked_setInternalError : IngressResultBase :=
  Base 1 ERR_CODE_INTERNAL 500 HV_JSON 0 0 0 true false false false false false false false false
    [] [] 0 OUT_DATA_START 0 None None None None.

(** [refresh(buf, body, view, len)]; [view] covers [buf]. *)
Definition baked_refresh (buf body : list Z) (len : Z) : result IngressResultBase :=
  if decide (len < OUT_DATA_START) then Ok baked_setInternalError
  else
    h0 ← dv_get 4 buf OUT_VERDICT;
    flags ← dv_get 4 buf OUT_FLAGS;
    h2 ← dv_get 4 buf OUT_RATE_LIMIT;
    h3 ← dv_get 4 buf OUT_RATE_REMAINING;
    cookiesLenRaw ← dv_get 4 buf OUT_COOKIES_JSON_LEN;
    queryLenRaw ← dv_get 4 buf OUT_QUERY_JSON_LEN;
    headerVariant ← dv_get 1 buf OUT_HEADER_VARIANT;
    bodyJsonLenRaw ← dv_get 4 buf OUT_BODY_JSON_LEN;
    let layout := sectionLayout len cookiesLenRaw queryLenRaw bodyJsonLenRaw in
    let '(v, e, s) :=
      if decide (h0 = 0 ∧ flags = 0) then (1, ERR_CODE_INTERNAL, 500)
      else
        let rawStatus := Z.land (Z.shiftr h0 16) 0xffff in
        (Z.land h0 0xff, Z.land (Z.shiftr h0 8) 0xff,
         if isValidResponseStatus rawStatus then rawStatus else 500) in
    w ← setRateWindow h2 (hasFlag flags FLAG_RATE_LIMITED) buf;
    let secs := setSections buf layout in
    let '(t, o) := updateOkTerminal v s in
    Ok (Base v e s headerVariant h3 w.1 w.2 t o
          (hasFlag flags FLAG_IS_PREFLIGHT) (hasFlag flags FLAG_CORS_ALLOWED)
          (hasFlag flags FLAG_RATE_LIMITED) (hasFlag flags FLAG_TRUSTED_PROXY)
          (hasFlag flags FLAG_BODY_VALID_JSON) (hasFlag flags FLAG_SCHEMA_VALID)
          (hasFlag flags FLAG_BODY_TRUNCATED || truncated layout)
          body buf len (bodyJsonStart layout) (safeBodyJsonLen layout)
          (sec_cookies secs) (sec_query secs) None None).

(** ** The fast decoder *)

Record FastIngressResult := Fast {
  base : IngressResultBase;
  flags : Z; https : bool; hasCookies : bool; hasQuery : bool; rateLimit : Z;
  requestId : list Z }.

(** [invalidate], which is also the initial state. *)
Definition fast_invalidate (rid : list Z) : FastIngressResult :=
  Fast (Base 1 ERR_CODE_INTERNAL 500 0 0 0 0 true false false false false false false false false
          [] [] 0 OUT_DATA_START 0 None None None None) 0 false false false 0 rid.

Definition fast_setInternalError (rid : list Z) : FastIngressResult := fast_invalidate rid.

Definition fast_refresh (buf body rid : list Z) : result FastIngressResult :=
  if decide (zlen buf < OUT_DATA_START) then Ok (fast_setInternalError rid)
  else
    rawVerdict ← dv_get 1 buf OUT_VERDICT;
    rawErrorCode ← dv_get 1 buf OUT_ERROR_CODE;
    rawStatus ← dv_get 2 buf OUT_STATUS;
    flags ← dv_get 4 buf OUT_FLAGS;
    rateLimit ← dv_get 4 buf OUT_RATE_LIMIT;
    rateRemaining ← dv_get 4 buf OUT_RATE_REMAINING;
    cookiesJsonLen ← dv_get 4 buf OUT_COOKIES_JSON_LEN;
    queryJsonLen ← dv_get 4 buf OUT_QUERY_JSON_LEN;
    headerVariant ← dv_get 1 buf OUT_HEADER_VARIANT;
    bodyJsonLen ← dv_get 4 buf OUT_BODY_JSON_LEN;
    let preflightAllowed := hasFlag flags FLAG_IS_PREFLIGHT && hasFlag flags FLAG_CORS_ALLOWED in
    let normalizedStatus := normalizeResponseStatus rawStatus rawErrorCode preflightAllowed in
    let '(v, e, s) :=
      if decide (rawVerdict = 0 ∧ rawErrorCode = 0 ∧ rawStatus = 0 ∧ flags = 0)
      then (1, ERR_CODE_INTERNAL, 500) else (rawVerdict, rawErrorCode, normalizedStatus) in
    w ← setRateWindow rateLimit (hasFlag flags FLAG_RATE_LIMITED) buf;
    let '(t, o) := updateOkTerminal v s in
    let layout := sectionLayout (zlen buf) cookiesJsonLen queryJsonLen bodyJsonLen in
    let secs := setSections buf layout in
    Ok (Fast
      (Base v e s headerVariant rateRemaining w.1 w.2 t o
          (hasFlag flags FLAG_IS_PREFLIGHT) (hasFlag flags FLAG_CORS_ALLOWED)
          (hasFlag flags FLAG_RATE_LIMITED) (hasFlag flags FLAG_TRUSTED_PROXY)
          (hasFlag flags FLAG_BODY_VALID_JSON) (hasFlag flags FLAG_SCHEMA_VALID)
          (hasFlag flags FLAG_BODY_TRUNCATED || truncated layout)
          body buf (zlen buf) (bodyJsonStart layout) bodyJsonLen
          (sec_cookies secs) (sec_query secs) None None)
      flags (hasFlag flags FLAG_HTTPS) (hasFlag flags FLAG_HAS_COOKIES)
      (hasFlag flags FLAG_HAS_QUERY) rateLimit rid).

(** ** The native header writer *)

Record HeaderFields := Fields {
  hf_verdict : Z; hf_error_code : Z; hf_status : Z; hf_flags : Z;
  hf_limit : Z; hf_remaining : Z; hf_reset_ms : Z; hf_retry_after_ms : Z;
  hf_cookies_json_len : Z; hf_query_json_len : Z; hf_header_variant : Z; hf_body_json_len : Z }.

Definition native_status (status : Z) : Z :=
  if decide (200 ≤ status ≤ 599) then status else 500.

(** [write_output_header]: the stores in program order, and the total length. *)
Definition write_output_header (out : list Z) (f : HeaderFields) : result (list Z * Z) :=
  out ← dv_set 1 out OUT_VERDICT (hf_verdict f);
  out ← dv_set 1 out OUT_ERROR_CODE (hf_error_code f);
  out ← dv_set 2 out OUT_STATUS (native_status (hf_status f));
  out ← dv_set 4 out OUT_FLAGS (hf_flags f);
  out ← dv_set 4 out OUT_RATE_LIMIT (hf_limit f);
  out ← dv_set 4 out OUT_RATE_REMAINING (hf_remaining f);
  out ← dv_set 8 out OUT_RATE_RESET (hf_reset_ms f);
  out ← dv_set 8 out OUT_RETRY_AFTER (hf_retry_after_ms f);
  out ← dv_set 4 out OUT_COOKIES_JSON_LEN (hf_cookies_json_len f);
  out ← dv_set 4 out OUT_QUERY_JSON_LEN (hf_query_json_len f);
  out ← dv_set 1 out OUT_HEADER_VARIANT (hf_header_variant f);
  out ← dv_set 1 out (OUT_HEADER_VARIANT + 1) 0;
  out ← dv_set 1 out (OUT_HEADER_VARIANT + 2) 0;
  out ← dv_set 1 out (OUT_HEADER_VARIANT + 3) 0;
  out ← dv_set 4 out OUT_BODY_JSON_LEN (hf_body_json_len f);
  Ok (out, OUT_DATA_START + hf_cookies_json_len f + hf_query_json_len f + hf_body_json_len f).

(** ** The written header *)

Definition header_bytes (f : HeaderFields) : list Z :=
  le_bytes 1 (hf_verdict f) ++ le_bytes 1 (hf_error_code f) ++
  le_bytes 2 (native_status (hf_status f)) ++ le_bytes 4 (hf_flags f) ++
  le_bytes 4 (hf_limit f) ++ le_bytes 4 (hf_remaining f) ++
  le_bytes 8 (hf_reset_ms f) ++ le_bytes 8 (hf_retry_after_ms f) ++
  le_bytes 4 (hf_cookies_json_len f) ++ le_bytes 4 (hf_query_json_len f) ++
  le_bytes 1 (hf_header_variant f) ++ [0; 0; 0] ++ le_bytes 4 (hf_body_json_len f).

Record fields_ok (f : HeaderFields) : Prop := {
  ok_verdict : 0 ≤ hf_verdict f < 256; ok_error : 0 ≤ hf_error_code f < 256;
  ok_flags : 0 ≤ hf_flags f < U32; ok_limit : 0 ≤ hf_limit f < U32;
  ok_remaining : 0 ≤ hf_remaining f < U32;
  ok_reset : 0 ≤ hf_reset_ms f < U32 * U32; ok_retry : 0 ≤ hf_retry_after_ms f < U32 * U32;
  ok_cookies : 0 ≤ hf_cookies_json_len f < U32; ok_query : 0 ≤ hf_query_json_len f < U32;
  ok_variant : 0 ≤ hf_header_variant f < 256; ok_body : 0 ≤ hf_body_json_len f < U32 }.

Lemma native_status_range (s : Z) : 200 ≤ native_status s ≤ 599.
Proof. unfold native_status. case_decide; lia. Qed.

Lemma write_output_header_spec (out : list Z) (f : HeaderFields) :
  OUT_DATA_START ≤ zlen out →
  write_output_header out f =
  Ok (header_bytes f ++ drop 48 out,
      OUT_DATA_START + hf_cookies_json_len f + hf_query_json_len f + hf_body_json_len f).
Proof.
  unfold OUT_DATA_START. intros Hlen. unfold write_output_header.
  change out with ([] ++ out) at 1.
  do 15 (rewrite dv_set_frontier by first
      [ rewrite ?zlen_app, ?zlen_le_bytes; reflexivity
      | unfold zlen in *; rewrite ?length_drop; lia ];
    rewrite bind_ret; cbv beta; rewrite app_assoc).
  rewrite !drop_drop. unfold header_bytes. do 2 f_equal.
Qed.

Lemma dv_get_at (n : nat) (b : list Z) (off v : Z) :
  take n (drop (Z.to_nat off) b) = le_bytes n v →
  0 ≤ off → off + Z.of_nat n ≤ zlen b → 0 ≤ v < 256 ^ Z.of_nat n → dv_get n b off = Ok v.
Proof. intros E ? ? Hv. unfold dv_get. guards. by rewrite E, le_val_small. Qed.

Lemma zlen_header (f : HeaderFields) (rest : list Z) :
  zlen (header_bytes f ++ rest) = OUT_DATA_START + zlen rest.
Proof.
  rewrite zlen_app. unfold header_bytes. rewrite !zlen_app, !zlen_le_bytes. reflexivity.
Qed.

Definition h0_word (f : HeaderFields) : Z :=
  hf_verdict f + 256 * hf_error_code f + 65536 * native_status (hf_status f).

Lemma h0_bytes (f : HeaderFields) :
  fields_ok f →
  le_bytes 4 (h0_word f) =
  le_bytes 1 (hf_verdict f) ++ le_bytes 1 (hf_error_code f) ++ le_bytes 2 (native_status (hf_status f)).
Proof.
  intros [Hv He _ _ _ _ _ _ _ _ _]. pose proof (native_status_range (hf_status f)) as Hs.
  unfold h0_word. revert Hs. generalize (native_status (hf_status f)) as s. intros s Hs.
  cbn [le_bytes app].
  repeat (apply (f_equal2 cons); [Z.to_euclidean_division_equations; lia|]). done.
Qed.

Lemma h0_fields (f : HeaderFields) :
  fields_ok f →
  0 ≤ h0_word f < U32 ∧ h0_word f ≠ 0 ∧ Z.land (h0_word f) 0xff = hf_verdict f ∧
  Z.land (Z.shiftr (h0_word f) 8) 0xff = hf_error_code f ∧
  Z.land (Z.shiftr (h0_word f) 16) 0xffff = native_status (hf_status f).
Proof.
  intros [Hv He _ _ _ _ _ _ _ _ _]. pose proof (native_status_range (hf_status f)) as Hs.
  unfold h0_word, U32. revert Hs. generalize (native_status (hf_status f)) as s. intros s Hs.
  change 0xff with (Z.ones 8). change 0xffff with (Z.ones 16).
  rewrite !Z.land_ones, !Z.shiftr_div_pow2 by lia.
  change (2 ^ 8) with 256. change (2 ^ 16) with 65536.
  repeat split; try lia; Z.to_euclidean_division_equations; lia.
Qed.

Lemma u64_halves (x : Z) :
  0 ≤ x < U32 * U32 → le_bytes 8 x = le_bytes 4 (x mod U32) ++ le_bytes 4 (x / U32) ∧
  x mod U32 + x / U32 * 4294967296 = x ∧ 0 ≤ x mod U32 < U32 ∧ 0 ≤ x / U32 < U32.
Proof.
  unfold U32. intros Hx. split.
  - change 4294967296 with (256 ^ Z.of_nat 4) at 1. rewrite le_bytes_mod.
    change 8%nat with (4 + 4)%nat. cbn [Nat.add le_bytes app]. rewrite !Z.div_div by lia. done.
  - pose proof (Z.div_mod x 4294967296). pose proof (Z.mod_pos_bound x 4294967296).
    split; [lia|]. split; [lia|]. split; [apply Z.div_pos; lia|apply Z.div_lt_upper_bound; lia].
Qed.

Lemma pow256_1 : 256 ^ Z.of_nat 1 = 256. Proof. reflexivity. Qed.
Lemma pow256_2 : 256 ^ Z.of_nat 2 = 65536. Proof. reflexivity. Qed.

(** Every read of the decoders on a written header. *)
Lemma header_reads (f : HeaderFields) (rest : list Z) :
  fields_ok f →
  let b := header_bytes f ++ rest in
  dv_get 4 b OUT_VERDICT = Ok (h0_word f) ∧
  dv_get 1 b OUT_VERDICT = Ok (hf_verdict f) ∧
  dv_get 1 b OUT_ERROR_CODE = Ok (hf_error_code f) ∧
  dv_get 2 b OUT_STATUS = Ok (native_status (hf_status f)) ∧
  dv_get 4 b OUT_FLAGS = Ok (hf_flags f) ∧
  dv_get 4 b OUT_RATE_LIMIT = Ok (hf_limit f) ∧
  dv_get 4 b OUT_RATE_REMAINING = Ok (hf_remaining f) ∧
  dv_get 4 b OUT_COOKIES_JSON_LEN = Ok (hf_cookies_json_len f) ∧
  dv_get 4 b OUT_QUERY_JSON_LEN = Ok (hf_query_json_len f) ∧
  dv_get 1 b OUT_HEADER_VARIANT = Ok (hf_header_variant f) ∧
  dv_get 4 b OUT_BODY_JSON_LEN = Ok (hf_body_json_len f).
Proof.
  intros Hf b. pose proof (zlen_header f rest) as Hz. pose proof (zlen_nonneg rest).
  pose proof (h0_fields f Hf) as (Hh & _). pose proof (h0_bytes f Hf) as Hb.
  pose proof (native_status_range (hf_status f)). destruct Hf. unfold U32 in *.
  assert (R : ∀ n off v, take n (drop (Z.to_nat off) b) = le_bytes n v →
            0 ≤ off ∧ off + Z.of_nat n ≤ 48 ∧ 0 ≤ v < 256 ^ Z.of_nat n → dv_get n b off = Ok v).
  { intros n off v E (? & ? & ?). apply dv_get_at; try done. unfold b, OUT_DATA_START in *. lia. }
  repeat split; apply R; try reflexivity; try (rewrite ?pow256_1, ?pow256_2, ?pow256_4; unfold U32, OUT_VERDICT,
    OUT_ERROR_CODE, OUT_STATUS, OUT_FLAGS, OUT_RATE_LIMIT, OUT_RATE_REMAINING,
    OUT_COOKIES_JSON_LEN, OUT_QUERY_JSON_LEN, OUT_HEADER_VARIANT, OUT_BODY_JSON_LEN; lia).
  rewrite Hb. reflexivity.
Qed.

Lemma header_rate_window (f : HeaderFields) (rest : list Z) (l : Z) (limited : bool) :
  fields_ok f →
  setRateWindow l limited (header_bytes f ++ rest) =
  Ok (if bool_decide (0 < l) || limited then (round_double (hf_reset_ms f), round_double (hf_retry_after_ms f)) else (0, 0)).
Proof.
  intros Hf. unfold setRateWindow. destruct (_ || _); [|done].
  pose proof (zlen_header f rest) as Hz. pose proof (zlen_nonneg rest).
  destruct (u64_halves _ (ok_reset _ Hf)) as (E1 & S1 & B1 & C1).
  destruct (u64_halves _ (ok_retry _ Hf)) as (E2 & S2 & B2 & C2).
  assert (R : ∀ off v, take 4 (drop (Z.to_nat off) (header_bytes f ++ rest)) = le_bytes 4 v →
            0 ≤ off ∧ off + 4 ≤ 48 ∧ 0 ≤ v < U32 → dv_get 4 (header_bytes f ++ rest) off = Ok v).
  { intros off v E (? & ? & ?). apply dv_get_at; [done|lia| |by rewrite pow256_4].
    unfold OUT_DATA_START in *. lia. }
  unfold header_bytes in R |- *. rewrite E1, E2 in R |- *.
  rewrite (R OUT_RATE_RESET (hf_reset_ms f mod U32)) by (unfold OUT_RATE_RESET; done || lia).
  rewrite bind_ret, (R (OUT_RATE_RESET + 4) (hf_reset_ms f / U32)) by (unfold OUT_RATE_RESET; done || lia).
  rewrite bind_ret, (R OUT_RETRY_AFTER (hf_retry_after_ms f mod U32)) by (unfold OUT_RETRY_AFTER; done || lia).
  rewrite bind_ret, (R (OUT_RETRY_AFTER + 4) (hf_retry_after_ms f / U32)) by (unfold OUT_RETRY_AFTER; done || lia).
  rewrite bind_ret, S1, S2. done.
Qed.

(** ** Sections of a written buffer *)

Lemma sectionLayout_exact (bufLen c q b : Z) :
  0 ≤ c → 0 ≤ q → 0 ≤ b → OUT_DATA_START + c + q + b ≤ bufLen →
  sectionLayout bufLen c q b =
  {| safeCookiesLen := c; queryStart := OUT_DATA_START + c; safeQueryLen := q;
     bodyJsonStart := OUT_DATA_START + c + q; safeBodyJsonLen := b; truncated := false |}.
Proof.
  intros Hc Hq Hb Hle. unfold sectionLayout.
  assert (E : ∀ start n, 0 ≤ n → start + n ≤ bufLen →
             (if decide (0 < n ∧ start + n ≤ bufLen) then n else 0) = n)
    by (intros; case_decide; lia).
  rewrite (E OUT_DATA_START c), (E (OUT_DATA_START + c) q), (E (OUT_DATA_START + c + q) b) by lia.
  f_equal. apply bool_decide_eq_false_2. lia.
Qed.

Definition nonempty (s : list Z) : option (list Z) := if decide (0 < zlen s) then Some s else None.

Lemma setSections_exact (f : HeaderFields) (cookies query rest : list Z) (n t : _) :
  setSections (header_bytes f ++ cookies ++ query ++ rest)
    {| safeCookiesLen := zlen cookies; queryStart := OUT_DATA_START + zlen cookies;
       safeQueryLen := zlen query; bodyJsonStart := OUT_DATA_START + zlen cookies + zlen query;
       safeBodyJsonLen := n; truncated := t |} =
  Sections (nonempty cookies) (nonempty query).
Proof.
  pose proof (zlen_header f []) as Hh. rewrite app_nil_r, zlen_nil, Z.add_0_r in Hh.
  unfold setSections, nonempty.
  cbn [safeCookiesLen queryStart safeQueryLen bodyJsonStart safeBodyJsonLen].
  rewrite (subarray_app (header_bytes f) cookies (query ++ rest)) by lia.
  rewrite (app_assoc (header_bytes f) cookies).
  rewrite (subarray_app (header_bytes f ++ cookies) query rest) by zlia. done.
Qed.

(** What both decoders expose. *)
Definition observed (r : IngressResultBase) :=
  ((verdict r, errorCode r, status r, headerVariant r),
   (rateRemaining r, rateResetMs r, retryAfterMs r, (terminal r, ok r)),
   (isPreflight r, corsAllowed r, rateLimited r, trustedProxy r),
   (bodyValidJson r, schemaValid r, bodyTruncated r),
   (body r, _cookiesBuf r, _queryBuf r, bodyJsonSlice r)).

(** What the native core meant; a 64-bit field is read as the double nearest to it. *)
Definition meant (f : HeaderFields) (req cookies query bodyj : list Z) :=
  let has := hasFlag (hf_flags f) in
  ((hf_verdict f, hf_error_code f, native_status (hf_status f), hf_header_variant f),
   (hf_remaining f,
    if bool_decide (0 < hf_limit f) || has FLAG_RATE_LIMITED then round_double (hf_reset_ms f) else 0,
    if bool_decide (0 < hf_limit f) || has FLAG_RATE_LIMITED then round_double (hf_retry_after_ms f) else 0,
    (bool_decide (hf_verdict f ≠ 0 ∨ 400 ≤ native_status (hf_status f)),
     bool_decide (hf_verdict f = 0 ∧ native_status (hf_status f) < 400))),
   (has FLAG_IS_PREFLIGHT, has FLAG_CORS_ALLOWED, has FLAG_RATE_LIMITED, has FLAG_TRUSTED_PROXY),
   (has FLAG_BODY_VALID_JSON, has FLAG_SCHEMA_VALID, has FLAG_BODY_TRUNCATED),
   (req, nonempty cookies, nonempty query, bodyj)).

Lemma body_section (f : HeaderFields) (cookies query bodyj rest : list Z) (r : IngressResultBase) :
  _buf r = header_bytes f ++ cookies ++ query ++ bodyj ++ rest →
  _bodyJsonStart r = OUT_DATA_START + zlen cookies + zlen query →
  _bodyJsonLen r = zlen bodyj →
  _len r = OUT_DATA_START + zlen cookies + zlen query + zlen bodyj →
  bodyJsonSlice r = bodyj ∧ bodyJson r true = bodyj.
Proof.
  intros Hb Hs Hl Hn. pose proof (zlen_header f []) as Hh. rewrite app_nil_r, zlen_nil, Z.add_0_r in Hh.
  unfold bodyJson, bodyJsonSlice. rewrite Hl, Hs, Hn, Hb.
  destruct (decide (zlen bodyj = 0)) as [E|]; [by rewrite (zlen_0 _ E)|].
  rewrite decide_False by lia.
  rewrite (app_assoc (header_bytes f)), (app_assoc _ query).
  rewrite (subarray_app ((header_bytes f ++ cookies) ++ query) bodyj rest) by zlia. done.
Qed.

Lemma native_terminal (f : HeaderFields) :
  bool_decide (hf_verdict f = 0 ∧ 200 ≤ native_status (hf_status f) < 400) =
  bool_decide (hf_verdict f = 0 ∧ native_status (hf_status f) < 400).
Proof. apply bool_decide_ext. pose proof (native_status_range (hf_status f)). lia. Qed.

Lemma native_status_valid (f : HeaderFields) :
  isValidResponseStatus (native_status (hf_status f)) = true.
Proof.
  unfold isValidResponseStatus. pose proof (native_status_range (hf_status f)).
  rewrite (bool_decide_eq_true_2 (200 ≤ _ ≤ 599)) by lia. apply orb_true_r.
Qed.

Section written.
Variables (f : HeaderFields) (req cookies query bodyj rest : list Z).
Hypothesis Hf : fields_ok f.
Hypothesis Hc : hf_cookies_json_len f = zlen cookies.
Hypothesis Hq : hf_query_json_len f = zlen query.
Hypothesis Hb : hf_body_json_len f = zlen bodyj.

Let buf := header_bytes f ++ cookies ++ query ++ bodyj ++ rest.
Let written := OUT_DATA_START + zlen cookies + zlen query + zlen bodyj.

Lemma baked_written :
  ∃ r, baked_refresh buf req written = Ok r ∧ observed r = meant f req cookies query bodyj ∧
       bodyJson r true = bodyj.
Proof.
  destruct (header_reads f (cookies ++ query ++ bodyj ++ rest) Hf)
    as (R0 & _ & _ & _ & R1 & R2 & R3 & R4 & R5 & R6 & R7).
  destruct (h0_fields f Hf) as (_ & Hn0 & E1 & E2 & E3).
  unfold baked_refresh, buf. rewrite decide_False by (unfold written; zlia).
  rewrite R0, bind_ret, R1, bind_ret, R2, bind_ret, R3, bind_ret, R4, bind_ret, R5, bind_ret,
    R6, bind_ret, R7, bind_ret. clear R0 R1 R2 R3 R4 R5 R6 R7.
  rewrite decide_False by naive_solver. rewrite E1, E2, E3, native_status_valid.
  rewrite header_rate_window by done. rewrite bind_ret, Hc, Hq, Hb.
  rewrite sectionLayout_exact by (unfold written; zlia). rewrite setSections_exact.
  unfold updateOkTerminal. rewrite native_terminal. eexists. split; [reflexivity|].
  match goal with |- observed ?r = _ ∧ _ =>
    destruct (body_section f cookies query bodyj rest r) as [B1 B2]; [done..|] end.
  split; [|done]. unfold observed. rewrite B1. unfold meant. simpl.
  rewrite orb_false_r. by destruct (_ || _).
Qed.

Lemma fast_written (rid : list Z) :
  rest = [] →
  ∃ r, fast_refresh buf req rid = Ok r ∧ observed (base r) = meant f req cookies query bodyj ∧
       flags r = hf_flags f ∧ rateLimit r = hf_limit f ∧ requestId r = rid.
Proof.
  intros Hrest.
  assert (Hlen : zlen buf = written).
  { unfold buf, written. rewrite zlen_header, Hrest, app_nil_r. zlia. }
  destruct (header_reads f (cookies ++ query ++ bodyj ++ rest) Hf)
    as (_ & R0 & R1 & R2 & R3 & R4 & R5 & R6 & R7 & R8 & R9).
  pose proof (native_status_range (hf_status f)).
  unfold fast_refresh. rewrite Hlen, decide_False by (unfold written; zlia). unfold buf.
  rewrite R0, bind_ret, R1, bind_ret, R2, bind_ret, R3, bind_ret, R4, bind_ret, R5, bind_ret,
    R6, bind_ret, R7, bind_ret, R8, bind_ret, R9, bind_ret. clear R0 R1 R2 R3 R4 R5 R6 R7 R8 R9.
  rewrite decide_False by lia. unfold normalizeResponseStatus. rewrite native_status_valid.
  rewrite header_rate_window by done. rewrite bind_ret, Hc, Hq, Hb.
  rewrite sectionLayout_exact by (unfold written; zlia). rewrite setSections_exact.
  unfold updateOkTerminal. rewrite native_terminal. eexists. split; [reflexivity|].
  match goal with |- observed (base ?r) = _ ∧ _ =>
    destruct (body_section f cookies query bodyj rest (base r)) as [B1 B2]; [done..|] end.
  split; [|done]. unfold observed. rewrite B1. unfold meant. simpl.
  rewrite orb_false_r. by destruct (_ || _).
Qed.

End written.

(** ** Theorems *)

(** Whatever section lengths a buffer declares, the computed sections lie
    one after another inside the buffer; [truncated] is false exactly when the
    declared sections fit, and then they are the declared ones. *)
Theorem sectionLayout_safe (bufLen c q b : Z) :
  OUT_DATA_START ≤ bufLen → 0 ≤ c → 0 ≤ q → 0 ≤ b →
  let l := sectionLayout bufLen c q b in
  0 ≤ safeCookiesLen l ∧ queryStart l = OUT_DATA_START + safeCookiesLen l ∧
  0 ≤ safeQueryLen l ∧ bodyJsonStart l = queryStart l + safeQueryLen l ∧
  0 ≤ safeBodyJsonLen l ∧ bodyJsonStart l + safeBodyJsonLen l ≤ bufLen ∧
  (truncated l = false ↔ OUT_DATA_START + c + q + b ≤ bufLen) ∧
  (truncated l = false →
     safeCookiesLen l = c ∧ safeQueryLen l = q ∧ safeBodyJsonLen l = b).
Proof.
  intros Hl Hc Hq Hb l. subst l. unfold sectionLayout. simpl.
  repeat case_decide; (do 6 (split; [lia|]); split;
    [rewrite bool_decide_eq_false; lia|rewrite bool_decide_eq_false; lia]).
Qed.

Lemma sectionLayout_safe_witness : truncated (sectionLayout 60 5 4 9) = true.
Proof.
  destruct (truncated (sectionLayout 60 5 4 9)) eqn:E; [done|]. exfalso.
  destruct (sectionLayout_safe 60 5 4 9) as (_ & _ & _ & _ & _ & _ & Hfit & _);
    unfold OUT_DATA_START in *; [lia..|]. apply Hfit in E. lia.
Defined.

(** C38. Both decoders recover exactly what the native core wrote: on an output
    buffer holding a header and its three sections, in a pooled buffer with
    stale bytes behind, the pre-baked decoder (given the whole buffer and the
    written length) and the fast one (given the written prefix) expose the same
    verdict, status, flags, rate window, sections and body; each 64-bit field of the
    rate window, which counts only under a budget or a limit, is the double nearest to
    what was written, hence itself below 2^53. *)
Theorem native_output_decoded (hole cookies query bodyj stale req rid : list Z) (f : HeaderFields) :
  fields_ok f → zlen hole = OUT_DATA_START →
  hf_cookies_json_len f = zlen cookies → hf_query_json_len f = zlen query →
  hf_body_json_len f = zlen bodyj →
  ∃ out written r fr,
    write_output_header (hole ++ cookies ++ query ++ bodyj ++ stale) f = Ok (out, written) ∧
    baked_refresh out req written = Ok r ∧
    fast_refresh (subarray out 0 written) req rid = Ok fr ∧
    observed r = meant f req cookies query bodyj ∧
    observed (base fr) = observed r ∧ bodyJson r true = bodyj ∧ requestId fr = rid ∧
    (0 < hf_limit f → hf_reset_ms f < U53 → hf_retry_after_ms f < U53 →
     rateResetMs r = hf_reset_ms f ∧ retryAfterMs r = hf_retry_after_ms f).
Proof.
  intros Hf Hh Hc Hq Hb. rewrite write_output_header_spec by zlia.
  assert (Hd : drop 48 (hole ++ cookies ++ query ++ bodyj ++ stale) =
               cookies ++ query ++ bodyj ++ stale).
  { replace 48%nat with (length hole); [apply drop_app_length|].
    unfold zlen, OUT_DATA_START in Hh. lia. }
  rewrite Hd, Hc, Hq, Hb.
  destruct (baked_written f req cookies query bodyj stale Hf Hc Hq Hb) as (r & Hr & Ho & Hbj).
  destruct (fast_written f req cookies query bodyj [] Hf Hc Hq Hb rid eq_refl)
    as (fr & Hfr & Hfo & _ & _ & Hrid).
  assert (Hsub : subarray (header_bytes f ++ cookies ++ query ++ bodyj ++ stale) 0
            (OUT_DATA_START + zlen cookies + zlen query + zlen bodyj) =
          header_bytes f ++ cookies ++ query ++ bodyj ++ []).
  { rewrite app_nil_r. set (X := header_bytes f ++ cookies ++ query ++ bodyj).
    assert (E : header_bytes f ++ cookies ++ query ++ bodyj ++ stale = X ++ stale)
      by (unfold X; by rewrite <-!app_assoc).
    assert (Hz : OUT_DATA_START + zlen cookies + zlen query + zlen bodyj = zlen X)
      by (unfold X; rewrite zlen_header; zlia).
    rewrite E, Hz. apply subarray_prefix. }
  do 2 eexists. exists r, fr. rewrite Hsub. rewrite Hfo, Ho. do 7 (split; [done|]). intros Hl H1 H2.
  unfold observed, meant in Ho. rewrite (bool_decide_eq_true_2 _ Hl), !round_double_exact in Ho by done.
  by injection Ho.
Qed.

Definition fields0 : HeaderFields := Fields 0 0 200 0x57 100 99 1700000000123 0 2 0 9 3.

Lemma native_output_decoded_witness :
  ∃ out written r fr,
    write_output_header (replicate 48 7 ++ [123; 125] ++ [] ++ [49; 50; 51] ++ [9; 9]) fields0 = Ok (out, written) ∧
    baked_refresh out [] written = Ok r ∧ fast_refresh (subarray out 0 written) [] [] = Ok fr ∧
    bodyJson r true = [49; 50; 51] ∧ rateResetMs r = 1700000000123.
Proof.
  destruct (native_output_decoded (replicate 48 7) [123; 125] [] [49; 50; 51] [9; 9] [] [] fields0)
    as (out & written & r & fr & H1 & H2 & H3 & _ & _ & H4 & _ & H5); try reflexivity.
  - split; unfold U32; simpl; lia.
  - exists out, written, r, fr. refine (conj H1 (conj H2 (conj H3 (conj H4 (proj1 (H5 _ _ _)))))); reflexivity.
Defined.
