(* ===== verification/HeaderTemplates.v ===== *)
(** Response header templates (src/ingress/headers/): the security options and HSTS,
    the pre-baked templates of the handler path and the templates of the fast
    path with their per-request part.

    A header list is a list of pairs; a [Headers] object is a map from lower-cased
    names to values, where a second [append] joins the values with a comma.  Names
    and values are assumed legal. *)

From S2P Require Import Prelude.
From S2P Require Import JsMap.
From S2P Require Import Utf8.
From S2P Require Import JsString.
From S2P Require Import Layout.
From S2P Require Import Decode.

Definition header : Type := list Z * list Z.

(** ** The [Headers] object *)

Definition Headers := gmap (list Z) (list Z).

Definition h_append (h : Headers) (e : header) : Headers :=
  let n := toLowerCase e.1 in
  <[n := match h !! n with Some v => v ++ js ", " ++ e.2 | None => e.2 end]> h.
Definition h_set (n v : list Z) (h : Headers) : Headers := <[toLowerCase n := v]> h.

(** [new Headers(entries)]. *)
Definition new_Headers (entries : list header) : Headers := foldl h_append ∅ entries.

(** ** hsts.ts *)

Record SecurityHeadersOptions := {
  contentSecurityPolicy : option (list Z);
  hsts : option bool;
  hstsMaxAge : option Z;
  hstsIncludeSubdomains : option bool;
  hstsPreload : option bool;
  frameOptions : option (list Z);
  nosniff : option bool;
  referrerPolicy : option (list Z);
  coep : option (list Z);
  coop : option (list Z);
  corp : option (list Z);
  xssProtection : option (list Z)
}.

Definition no_security : SecurityHeadersOptions :=
  {| contentSecurityPolicy := None; hsts := None; hstsMaxAge := None;
     hstsIncludeSubdomains := None; hstsPreload := None; frameOptions := None; nosniff := None;
     referrerPolicy := None; coep := None; coop := None; corp := None; xssProtection := None |}.

Definition buildHstsValue (sec : SecurityHeadersOptions) : option (list Z) :=
  let wantHsts :=
    bool_decide (hsts sec = Some true) || bool_decide (hstsMaxAge sec ≠ None) ||
    bool_decide (hstsIncludeSubdomains sec = Some true) || bool_decide (hstsPreload sec = Some true) in
  if negb wantHsts then None
  else
    let maxAge := default 31536000 (hstsMaxAge sec) in
    Some (js "max-age=" ++ dec maxAge ++
          (if bool_decide (hstsIncludeSubdomains sec = Some true) then js "; includeSubDomains" else []) ++
          (if bool_decide (hstsPreload sec = Some true) then js "; preload" else [])).

(** [if (s) pairs.push([name, s])]: the empty string is falsy. *)
Definition push_if (name : list Z) (s : option (list Z)) : list header :=
  match s with Some v => if decide (v = []) then [] else [(name, v)] | None => [] end.

Definition STS : list Z := js "strict-transport-security".

Definition buildSecurityPairs (security : option SecurityHeadersOptions) (https : option bool)
    (enabled : bool) : list header :=
  if negb enabled then []
  else
    let sec := default no_security security in
    (if decide (nosniff sec = Some false) then [] else [(js "x-content-type-options", js "nosniff")]) ++
    [(js "x-frame-options", default (js "DENY") (frameOptions sec))] ++
    [(js "referrer-policy", default (js "no-referrer") (referrerPolicy sec))] ++
    push_if (js "x-xss-protection") (xssProtection sec) ++
    push_if (js "content-security-policy") (contentSecurityPolicy sec) ++
    push_if (js "cross-origin-embedder-policy") (coep sec) ++
    push_if (js "cross-origin-opener-policy") (coop sec) ++
    push_if (js "cross-origin-resource-policy") (corp sec) ++
    match buildHstsValue sec with
    | Some v => if decide (https = Some true) then [(STS, v)] else []
    | None => []
    end.

(** ** security.ts *)

Definition set_all (l : list header) (m : list header) : list header :=
  foldl (λ m e, mset e.1 e.2 m) m l.

Definition buildBakedSecurityEntries (security : option SecurityHeadersOptions)
    (https : option bool) (raw : option (list header)) : list header :=
  let structured := match security with
                    | None => []
                    | Some _ => buildSecurityPairs security https true
                    end in
  match raw with
  | None | Some [] => structured
  | Some raw => set_all (prod_map toLowerCase id <$> raw) (set_all structured [])
  end.

(** ** cors.ts *)

Record CorsOptions := {
  allowOrigin : option (list (list Z));
  allowMethods : option (list (list Z));
  allowHeaders : option (list (list Z));
  exposeHeaders : option (list (list Z));
  allowCredentials : option bool;
  maxAge : option Z
}.

Record CorsStaticStrings := {
  allowMethodsJoined : list Z;
  allowHeadersJoined : list Z;
  exposeHeadersJoined : list Z;
  maxAgeString : option (list Z);
  isWildcard : bool;
  credentials : bool
}.

(** [l?.length ? l.join(', ') : other]. *)
Definition join_or (l : option (list (list Z))) (other : list Z) : list Z :=
  match l with Some (x :: l') => join (js ", ") (x :: l') | _ => other end.

Definition buildCorsStaticStrings (cors : option CorsOptions) : option CorsStaticStrings :=
  c ← cors;
  Some {| allowMethodsJoined := join_or (allowMethods c) (js "GET, HEAD, POST");
          allowHeadersJoined := join_or (allowHeaders c) [];
          exposeHeadersJoined := join_or (exposeHeaders c) [];
          maxAgeString := dec <$> maxAge c;
          isWildcard := match allowOrigin c with
                        | None | Some [] => true
                        | Some l => bool_decide (js "*" ∈ l)
                        end;
          credentials := bool_decide (allowCredentials c = Some true) |}.

(** ** baked-templates.ts *)

Record BakedTemplateParams := {
  securityEntries : list header;
  b_allowCredentials : bool;      (* [cors?.allowCredentials] *)
  corsAllowMethods : list Z;
  corsAllowHeaders : list Z;
  corsExposeHeaders : list Z;
  corsMaxAge : list Z;
  rateLimitStr : list Z
}.

(** [(variant & bit) !== 0]. *)
Definition has_bit (variant bit : Z) : bool := negb (bool_decide (Z.land variant bit = 0)).

Definition when_ (b : bool) (l : list header) : list header := if b then l else [].

Definition CREDENTIALS : header := (js "access-control-allow-credentials", js "true").
Definition EXPOSE : list Z := js "access-control-expose-headers".
Definition ALLOW_METHODS : list Z := js "access-control-allow-methods".
Definition ALLOW_HEADERS : list Z := js "access-control-allow-headers".
Definition MAX_AGE : list Z := js "access-control-max-age".
Definition ALLOW_ORIGIN : list Z := js "access-control-allow-origin".
Definition VARY : list Z := js "vary".

Definition baked_regular (p : BakedTemplateParams) (variant : Z) : list header :=
  securityEntries p ++
  when_ (has_bit variant HV_JSON) [(js "content-type", js "application/json")] ++
  when_ (has_bit variant HV_CORS_SIMPLE)
    ([(VARY, js "Origin")] ++
     when_ (b_allowCredentials p) [CREDENTIALS] ++
     when_ (bool_decide (0 < zlen (corsExposeHeaders p))) [(EXPOSE, corsExposeHeaders p)]) ++
  when_ (has_bit variant HV_CORS_PREFLIGHT)
    ([(VARY, js "Origin, Access-Control-Request-Method, Access-Control-Request-Headers")] ++
     when_ (b_allowCredentials p) [CREDENTIALS] ++
     [(ALLOW_METHODS, corsAllowMethods p); (ALLOW_HEADERS, corsAllowHeaders p);
      (MAX_AGE, corsMaxAge p)]) ++
  when_ (has_bit variant HV_RATE_ACTIVE) [(js "ratelimit-limit", rateLimitStr p)].

Definition NO_STORE : header := (js "cache-control", js "no-store").

(** The two 32-entry tables. *)
Definition buildBakedHeaderTemplates (p : BakedTemplateParams)
    : list (list header) * list (list header) :=
  let regular := baked_regular p <$> (Z.of_nat <$> seq 0 32) in
  (regular, (λ t, t ++ [NO_STORE]) <$> regular).

(** ** fast-templates.ts *)

Record HeaderTemplate := {
  entries : list header;
  needsOriginEcho : bool;
  needsRateDynamic : bool;
  needsRetryAfter : bool;
  needsDynamicHsts : bool
}.

Record FastOptions := {
  f_cors : option CorsOptions;
  f_security : option SecurityHeadersOptions;
  f_https : option bool;
  f_enableSecurityHeaders : option bool;
  f_limit : option Z                     (* [options.rateLimit?.limit] *)
}.

(** The pairs of a policy, [[]] without one. *)
Definition cors_pairs (c : option CorsStaticStrings) (f : CorsStaticStrings → list header)
    : list header := match c with Some c => f c | None => [] end.

Definition header_template (o : FastOptions) (variant : Z) : HeaderTemplate :=
  let sec := default no_security (f_security o) in
  let securityEnabled := negb (bool_decide (f_enableSecurityHeaders o = Some false)) in
  let corsStatic := buildCorsStaticStrings (f_cors o) in
  let hstsIsDynamic := bool_decide (f_https o = None) && bool_decide (buildHstsValue sec ≠ None) in
  let isCorsSimple := has_bit variant HV_CORS_SIMPLE in
  let isCorsPreflight := has_bit variant HV_CORS_PREFLIGHT in
  let isRateActive := has_bit variant HV_RATE_ACTIVE in
  {| entries :=
       when_ securityEnabled (buildSecurityPairs (Some sec) (f_https o) securityEnabled) ++
       cors_pairs corsStatic (λ c,
         [(VARY, js "Origin")] ++
         when_ (negb (isWildcard c))
           [(VARY, js "Access-Control-Request-Method"); (VARY, js "Access-Control-Request-Headers")]) ++
       when_ (isCorsSimple || isCorsPreflight) (cors_pairs corsStatic (λ c,
         when_ (credentials c) [CREDENTIALS] ++ push_if EXPOSE (Some (exposeHeadersJoined c)))) ++
       when_ isCorsPreflight (cors_pairs corsStatic (λ c,
         [(ALLOW_METHODS, allowMethodsJoined c)] ++
         push_if ALLOW_HEADERS (Some (allowHeadersJoined c)) ++ push_if MAX_AGE (maxAgeString c))) ++
       when_ isRateActive
         (match f_limit o with
          | Some l => if decide (0 < l) then [(js "x-ratelimit-limit", dec l)] else []
          | None => []
          end);
     needsOriginEcho := isCorsSimple || isCorsPreflight;
     needsRateDynamic := isRateActive;
     needsRetryAfter := has_bit variant HV_RATE_LIMITED;
     needsDynamicHsts := hstsIsDynamic |}.

Definition buildHeaderTemplates (o : FastOptions) : list HeaderTemplate :=
  header_template o <$> (Z.of_nat <$> seq 0 (Z.to_nat HV_COUNT)).

Record ResponseBuildContext := {
  templates : list HeaderTemplate;
  corsStatic : option CorsStaticStrings;
  hstsValue : option (list Z)
}.

Definition buildResponseContext (o : FastOptions) : ResponseBuildContext :=
  {| templates := buildHeaderTemplates o;
     corsStatic := buildCorsStaticStrings (f_cors o);
     hstsValue := buildHstsValue (default no_security (f_security o)) |}.

Definition EMPTY_HEADER_TEMPLATE : HeaderTemplate :=
  {| entries := []; needsOriginEcho := false; needsRateDynamic := false; needsRetryAfter := false;
     needsDynamicHsts := false |}.

(** [a ?? b] on table entries. *)
Definition template_at (ctx : ResponseBuildContext) (variant : Z) : HeaderTemplate :=
  match templates ctx !! Z.to_nat (Z.land variant 31) with
  | Some t => t
  | None => default EMPTY_HEADER_TEMPLATE (templates ctx !! 0%nat)
  end.

(** [headersForResult]; [origin] is [req.headers.get('origin')]. *)
Definition headersForResult (ctx : ResponseBuildContext) (r : FastIngressResult)
    (origin : option (list Z)) (requestId : list Z) : Headers :=
  let b := base r in
  let template := template_at ctx (headerVariant b) in
  let h := new_Headers (entries template) in
  let h := if decide (requestId = []) then h else h_set (js "x-request-id") requestId h in
  let h :=
    match corsStatic ctx, origin with
    | Some c, Some o =>
        if needsOriginEcho template && corsAllowed b && bool_decide (o ≠ []) then
          h_set ALLOW_ORIGIN (if isWildcard c && negb (credentials c) then js "*" else o) h
        else h
    | _, _ => h
    end in
  let h :=
    if needsRateDynamic template then
      let h := h_set (js "x-ratelimit-remaining") (dec (Z.max 0 (rateRemaining b))) h in
      if decide (0 < rateResetMs b) then
        h_set (js "x-ratelimit-reset") (dec (secondsFromMs (rateResetMs b))) h
      else h
    else h in
  let h :=
    if needsRetryAfter template && bool_decide (0 < retryAfterMs b) then
      h_set (js "retry-after") (dec (Z.max 1 (secondsFromMs (retryAfterMs b)))) h
    else h in
  match hstsValue ctx with
  | Some v => if needsDynamicHsts template && https r then h_set STS v h else h
  | None => h
  end.

(** ** The merge of security options and raw pairs *)

(** The value of the last pair named [n]. *)
Definition last_value (n : list Z) (l : list header) : option (list Z) := mget n (reverse l).

Lemma last_value_snoc n l e :
  last_value n (l ++ [e]) = if decide (n = e.1) then Some e.2 else last_value n l.
Proof. unfold last_value. rewrite reverse_snoc. by destruct e. Qed.

Lemma set_all_lookup n l m :
  mget n (set_all l m) = match last_value n l with Some v => Some v | None => mget n m end.
Proof.
  induction l as [|e l IH] using rev_ind; [done|].
  unfold set_all in *. rewrite foldl_app, last_value_snoc. cbn. rewrite mget_mset.
  by case_decide.
Qed.

Lemma set_all_wf l m : wf m → wf (set_all l m).
Proof. revert m. induction l as [|e l IH]; intros m Hm; [done|]. by apply IH, wf_mset. Qed.

Lemma mget_perm n (l k : list header) : NoDup l.*1 → l ≡ₚ k → mget n l = mget n k.
Proof.
  intros Hnd Hp. destruct (mget n k) as [v|] eqn:E.
  - apply mget_elem; [exact Hnd|]. rewrite Hp. by apply mget_Some_elem.
  - apply mget_None in E. apply mget_None. unfold mkeys in *. by rewrite Hp.
Qed.

Lemma last_value_unique n l : NoDup l.*1 → last_value n l = mget n l.
Proof. intros Hnd. symmetry. apply mget_perm; [done|]. symmetry. apply reverse_Permutation. Qed.

Definition SECURITY_NAMES : list (list Z) :=
  [js "x-content-type-options"; js "x-frame-options"; js "referrer-policy"; js "x-xss-protection";
   js "content-security-policy"; js "cross-origin-embedder-policy"; js "cross-origin-opener-policy";
   js "cross-origin-resource-policy"].

Lemma push_if_names n s : (push_if n s).*1 `sublist_of` [n].
Proof.
  destruct s as [v|]; cbn; [case_decide|]; cbn; [apply sublist_nil_l|done|apply sublist_nil_l].
Qed.

Lemma security_names sec h en :
  (buildSecurityPairs sec h en).*1 `sublist_of`
    SECURITY_NAMES ++ (if decide (h = Some true) then [STS] else []).
Proof.
  destruct en; [|apply sublist_nil_l]. unfold buildSecurityPairs. cbn [negb].
  rewrite !fmap_app. unfold SECURITY_NAMES. cbn [app].
  apply (sublist_app _ [_]); [case_decide; [apply sublist_nil_l|done]|].
  apply (sublist_app _ [_]); [done|]. apply (sublist_app _ [_]); [done|].
  do 5 (apply (sublist_app _ [_]); [apply push_if_names|]).
  destruct (buildHstsValue _); case_decide; (done || apply sublist_nil_l).
Qed.

Lemma security_names_NoDup sec h en : NoDup (buildSecurityPairs sec h en).*1.
Proof.
  eapply sublist_NoDup; [|apply security_names].
  case_decide; by apply (bool_decide_unpack _); vm_compute.
Qed.

Definition structured_pairs (security : option SecurityHeadersOptions) (h : option bool)
    : list header :=
  match security with None => [] | Some _ => buildSecurityPairs security h true end.

Lemma merge_ok security h raw n :
  let entries := buildBakedSecurityEntries security h raw in
  NoDup entries.*1 ∧
  mget n entries =
    match last_value n (prod_map toLowerCase id <$> default [] raw) with
    | Some v => Some v
    | None => mget n (structured_pairs security h)
    end.
Proof.
  assert (Hnd : NoDup (structured_pairs security h).*1)
    by (destruct security; [apply security_names_NoDup|constructor]).
  unfold buildBakedSecurityEntries. fold (structured_pairs security h).
  destruct raw as [[|e raw]|]; [done| |done].
  cbn zeta. set (l := prod_map toLowerCase id <$> default [] (Some (e :: raw))).
  change (prod_map toLowerCase id <$> e :: raw) with l.
  split; [apply set_all_wf, set_all_wf; constructor|].
  rewrite !set_all_lookup, (last_value_unique n (structured_pairs _ _)) by done.
  destruct (last_value n l); [done|]. by destruct (mget n (structured_pairs security h)).
Qed.

(** The security headers of the handler path: no name occurs twice, a raw pair
    wins over the structured option of its name in any letter case, the last raw pair
    over earlier ones, and every other structured header is kept. *)
Theorem security_merge security h raw n :
  let entries := buildBakedSecurityEntries security h raw in
  NoDup entries.*1 ∧
  mget n entries =
    match last_value n (prod_map toLowerCase id <$> default [] raw) with
    | Some v => Some v
    | None => mget n (structured_pairs security h)
    end.
Proof. apply merge_ok. Qed.

(** ** HSTS on the two paths *)

Lemma template_at_context o v :
  template_at (buildResponseContext o) v = header_template o (Z.land v 31).
Proof.
  assert (0 ≤ Z.land v 31 < 32).
  { change 31 with (Z.ones 5). rewrite Z.land_ones by lia. apply Z.mod_pos_bound. lia. }
  unfold template_at, buildResponseContext, buildHeaderTemplates. cbn [templates].
  change (Z.to_nat HV_COUNT) with 32%nat. rewrite !list_lookup_fmap, lookup_seq_lt by lia.
  cbn [fmap option_fmap option_map]. rewrite Nat.add_0_l. by rewrite Z2Nat.id by lia.
Qed.

(** With [https] left open, HSTS options take effect on the fast path, for each
    request that came over HTTPS, and never on the handler path, whatever the
    variant and the request. *)
Theorem hsts_paths_diverge o r origin rid v p raw variant :
  f_https o = None → buildHstsValue (default no_security (f_security o)) = Some v →
  https r = true →
  securityEntries p = buildBakedSecurityEntries (f_security o) (f_https o) raw →
  STS ∉ (toLowerCase ∘ fst) <$> default [] raw →
  headersForResult (buildResponseContext o) r origin rid !! STS = Some v ∧
  STS ∉ (baked_regular p variant).*1.
Proof.
  intros Ho Hv Hr Hp Hraw. split.
  - unfold headersForResult. rewrite template_at_context. cbn [hstsValue buildResponseContext].
    rewrite Hv, Hr. unfold header_template. cbn [needsDynamicHsts]. rewrite Ho, Hv.
    rewrite (bool_decide_eq_true_2 (None = None)), (bool_decide_eq_true_2 (Some v ≠ None)) by done.
    cbn [andb]. unfold h_set at 1. change (toLowerCase STS) with STS. apply lookup_insert_eq.
  - assert (Hsec : STS ∉ (securityEntries p).*1).
    { rewrite Hp, Ho. change ((securityEntries p).*1) with (mkeys (securityEntries p)). apply mget_None.
      destruct (merge_ok (f_security o) None raw STS) as [_ ->].
      assert (last_value STS (prod_map toLowerCase id <$> default [] raw) = None) as ->.
      { apply mget_None. unfold mkeys. rewrite fmap_reverse, elem_of_reverse, <-list_fmap_compose.
        exact Hraw. }
      apply mget_None. unfold mkeys, structured_pairs. destruct (f_security o); [|apply not_elem_of_nil].
      intros Hin. eapply elem_of_sublist in Hin; [|apply security_names]. revert Hin.
      by apply (bool_decide_unpack _); vm_compute. }
    unfold baked_regular. rewrite !fmap_app, !not_elem_of_app. split; [exact Hsec|].
    destruct (has_bit variant HV_JSON), (has_bit variant HV_CORS_SIMPLE),
      (has_bit variant HV_CORS_PREFLIGHT), (has_bit variant HV_RATE_ACTIVE),
      (b_allowCredentials p), (bool_decide (0 < zlen (corsExposeHeaders p)));
      split_and!; by apply (bool_decide_unpack _); vm_compute.
Qed.

Definition hsts_options : SecurityHeadersOptions :=
  {| contentSecurityPolicy := None; hsts := Some true; hstsMaxAge := None;
     hstsIncludeSubdomains := None; hstsPreload := None; frameOptions := None; nosniff := None;
     referrerPolicy := None; coep := None; coop := None; corp := None; xssProtection := None |}.

Definition hsts_fast : FastOptions :=
  {| f_cors := None; f_security := Some hsts_options; f_https := None;
     f_enableSecurityHeaders := None; f_limit := None |}.

Definition hsts_baked : BakedTemplateParams :=
  {| securityEntries := buildBakedSecurityEntries (Some hsts_options) None None;
     b_allowCredentials := false; corsAllowMethods := []; corsAllowHeaders := [];
     corsExposeHeaders := []; corsMaxAge := []; rateLimitStr := [] |}.

Lemma hsts_paths_diverge_witness :
  let r := Fast resetShared 0 true false false 0 [] in
  headersForResult (buildResponseContext hsts_fast) r None [] !! STS = Some (js "max-age=31536000") ∧
  STS ∉ (baked_regular hsts_baked HV_JSON).*1.
Proof.
  intros r. apply (hsts_paths_diverge hsts_fast r None [] (js "max-age=31536000") hsts_baked None HV_JSON).
  - reflexivity.
  - by vm_compute.
  - reflexivity.
  - reflexivity.
  - apply not_elem_of_nil.
Defined.
