(* ===== verification/ResponseBuilders.v ===== *)
(** Response builders (src/ingress/response/): the terminal response of the fast
    path, the pre-encoded error bodies and the builders of the handler path with
    their per-origin cache and their memoized [Headers].

    The memo is keyed by the identity of an array, so header arrays live in a heap
    and are handed around by address; addresses 0-31 are the regular templates,
    32-63 the terminal ones.  [zeroCopyResponse] is in Handler. *)

From S2P Require Import Prelude.
From S2P Require Import JsMap.
From S2P Require Import Utf8.
From S2P Require Import JsObject.
From S2P Require Import JsString.
From S2P Require Import Layout.
From S2P Require Import Decode.
From S2P Require Import HeaderTemplates.

(** A body: bytes, or the string form of a member of [Object.prototype] (what
    [new Response(f)] serves for a function). *)
Inductive resp_body := BNull | BBytes (b : list Z) | BInherited (name : list Z).

Record HttpResponse := { r_status : Z; r_headers : Headers; r_body : resp_body }.

(** ** terminal.ts *)

Definition json_member (k v : list Z) : list Z := json_string k ++ [58] ++ v.
Definition json_object (ms : list (list Z)) : list Z := [123] ++ join [44] ms ++ [125].

(** [JSON.stringify({ error: { code, status, message, requestId } })]; an undefined
    request id is left out. *)
Definition terminal_payload (status errorCode : Z) (requestId : list Z) : list Z :=
  json_object [json_member (js "error") (json_object
    ([json_member (js "code") (json_string (js (errorCodeName errorCode)));
      json_member (js "status") (dec status);
      json_member (js "message") (json_string (js (errorMessage status errorCode)))] ++
     (if decide (requestId = []) then [] else [json_member (js "requestId") (json_string requestId)])))].

Definition buildTerminalResponse (ctx : ResponseBuildContext) (r : FastIngressResult)
    (origin : option (list Z)) (requestId : list Z) : option HttpResponse :=
  let b := base r in
  if negb (terminal b) then None
  else
    let headers := headersForResult ctx r origin requestId in
    if isPreflight b && corsAllowed b then
      Some {| r_status := 204; r_headers := headers; r_body := BNull |}
    else
      let status := safeTerminalStatus (status b) (errorCode b) (isPreflight b) (corsAllowed b) in
      let headers := h_set (js "content-type") (js "application/json; charset=utf-8") headers in
      let headers := h_set (js "cache-control") (js "no-store") headers in
      Some {| r_status := status; r_headers := headers;
              r_body := BBytes (encodeUtf8 (terminal_payload status (errorCode b) requestId)) |}.

(** ** error-bodies.ts *)

Definition staticErrorBody (code message : string) : list Z :=
  encodeUtf8 (js "{" ++ json_string (js "ok") ++ js ":false," ++ json_string (js "error") ++
    js ":{" ++ json_string (js "code") ++ js ":" ++ [34] ++ js code ++ [34] ++ js "," ++
    json_string (js "message") ++ js ":" ++ [34] ++ js message ++ [34] ++ js "}}").

Definition ERROR_BODIES : list (list Z * list Z) :=
  prod_map js id <$>
  [("not_found", staticErrorBody "not_found" "Not found");
   ("unsupported_media_type",
      staticErrorBody "unsupported_media_type" "Content-Type must be application/json");
   ("body_too_large", staticErrorBody "body_too_large" "Request body is too large");
   ("request_timeout", staticErrorBody "request_timeout" "Request body read timed out");
   ("invalid_json", staticErrorBody "invalid_json" "Invalid JSON body");
   ("schema_validation_failed",
      staticErrorBody "schema_validation_failed" "Request body failed schema validation");
   ("cors_preflight_not_allowed",
      staticErrorBody "cors_preflight_not_allowed" "CORS preflight not allowed");
   ("bad_request", staticErrorBody "bad_request" "Bad request");
   ("request_too_large", staticErrorBody "request_too_large" "Request too large");
   ("rate_limited", staticErrorBody "rate_limited" "Too Many Requests");
   ("internal", staticErrorBody "internal_error" "Internal server error")]%string.

(** [ERROR_BODIES[code]]: an object literal, so [Object.prototype] answers too. *)
Definition error_body (code : list Z) : option resp_body :=
  match mget code ERROR_BODIES with
  | Some b => Some (BBytes b)
  | None => if decide (code ∈ object_proto_names) then Some (BInherited code) else None
  end.

Definition body_named (name : string) : option (list Z) := mget (js name) ERROR_BODIES.

(** [ERROR_CODE_BODIES[errorCode]]. *)
Definition ERROR_CODE_BODIES (errorCode : Z) : option (list Z) :=
  if decide (errorCode = ERR_CODE_CORS_PREFLIGHT) then body_named "cors_preflight_not_allowed"
  else if decide (errorCode = ERR_CODE_RATE_LIMITED) then body_named "rate_limited"
  else if decide (errorCode = ERR_CODE_BODY_TOO_LARGE) then body_named "body_too_large"
  else if decide (errorCode = ERR_CODE_INVALID_JSON) then body_named "invalid_json"
  else if decide (errorCode = ERR_CODE_SCHEMA_VALIDATION) then body_named "schema_validation_failed"
  else if decide (errorCode = ERR_CODE_BAD_REQUEST) then body_named "bad_request"
  else if decide (errorCode = ERR_CODE_REQUEST_TOO_LARGE) then body_named "request_too_large"
  else if decide (errorCode = ERR_CODE_INTERNAL) then body_named "internal"
  else None.

Definition RATE_LIMIT_BODY_PREFIX : list Z :=
  encodeUtf8 (js "{" ++ json_string (js "ok") ++ js ":false," ++ json_string (js "error") ++
    js ":{" ++ json_string (js "code") ++ js ":" ++ json_string (js "rate_limited") ++ js "," ++
    json_string (js "message") ++ js ":" ++ json_string (js "Too Many Requests") ++ js "," ++
    json_string (js "retry_after_ms") ++ js ":").
Definition RATE_LIMIT_BODY_SUFFIX : list Z := encodeUtf8 (js "}}").

(** [rateLimitedBody]: three [set]s into a fresh array. *)
Definition rateLimitedBody (retryAfterMs : Z) : result (list Z) :=
  let digits := encodeUtf8 (dec (Z.max 0 retryAfterMs)) in
  let out := new_u8 (zlen RATE_LIMIT_BODY_PREFIX + zlen digits + zlen RATE_LIMIT_BODY_SUFFIX) in
  out ← ta_set out RATE_LIMIT_BODY_PREFIX 0;
  out ← ta_set out digits (zlen RATE_LIMIT_BODY_PREFIX);
  ta_set out RATE_LIMIT_BODY_SUFFIX (zlen RATE_LIMIT_BODY_PREFIX + zlen digits).

(** ** baked-response.ts *)

Definition ORIGIN_HEADER_CACHE_MAX : Z := 64.

Record bstate := BState {
  arrays : list (list header);              (* the arrays, by address *)
  originHeaderCache : list (list Z * nat);  (* the Map *)
  memo : list (nat * Headers)               (* the WeakMap CACHE *)
}.

(** [createIngressHandler] with these templates, before any request. *)
Definition init_state (p : BakedTemplateParams) : bstate :=
  let '(regular, terminal) := buildBakedHeaderTemplates p in
  BState (regular ++ terminal) [] [].

Definition alloc (l : list header) (s : bstate) : nat * bstate :=
  (length (arrays s), BState (arrays s ++ [l]) (originHeaderCache s) (memo s)).

Definition array_at (a : nat) (s : bstate) : list header := default [] (arrays s !! a).

(** [memoizedHeaders(entries)]. *)
Definition memoizedHeaders (a : nat) (s : bstate) : Headers * bstate :=
  match mget a (memo s) with
  | Some h => (h, s)
  | None =>
      let built := new_Headers (array_at a s) in
      (built, BState (arrays s) (originHeaderCache s) (mset a built (memo s)))
  end.

Definition headerTemplates (variant : Z) : nat := Z.to_nat (Z.land variant 31).
Definition terminalTemplates (variant : Z) : nat := (32 + Z.to_nat (Z.land variant 31))%nat.

Definition origin_key (variant : Z) (origin : list Z) : list Z :=
  dec (Z.land variant 31) ++ [0] ++ origin.

Definition originBaseEntries (variant : Z) (origin : list Z) (s : bstate) : nat * bstate :=
  let key := origin_key variant origin in
  match mget key (originHeaderCache s) with
  | Some cached => (cached, s)
  | None =>
      let '(a, s) := alloc (array_at (headerTemplates variant) s ++ [(ALLOW_ORIGIN, origin)]) s in
      let cache :=
        if decide (ORIGIN_HEADER_CACHE_MAX ≤ msize (originHeaderCache s)) then
          match moldest (originHeaderCache s) with
          | Some oldest => mdel oldest (originHeaderCache s)
          | None => originHeaderCache s
          end
        else originHeaderCache s in
      (a, BState (arrays s) (mset key a cache) (memo s))
  end.

Section builders.
Variable emitRequestIdHeader : bool.

Definition needs_request_id (rid : option (list Z)) : option (list Z) :=
  if emitRequestIdHeader then rid else None.
Definition needs_origin (variant : Z) (origin : option (list Z)) : option (list Z) :=
  if has_bit variant HV_CORS_SIMPLE || has_bit variant HV_CORS_PREFLIGHT then origin else None.

Definition successHeaders (variant : Z) (requestIdHeader origin : option (list Z))
    (rateRemaining rateResetSecs : option Z) (s : bstate) : Headers * bstate :=
  let needsRate := has_bit variant HV_RATE_ACTIVE in
  let '(a, s) := match needs_origin variant origin with
                 | Some o => originBaseEntries variant o s
                 | None => (headerTemplates variant, s)
                 end in
  let '(base, s) := memoizedHeaders a s in
  match needs_request_id requestIdHeader, needsRate with
  | None, false => (base, s)
  | rid, _ =>
      let h := match rid with Some r => h_set (js "x-request-id") r base | None => base end in
      let h := if needsRate then
                 h_set (js "ratelimit-reset") (dec (default 0 rateResetSecs))
                   (h_set (js "ratelimit-remaining") (dec (default 0 rateRemaining)) h)
               else h in
      (h, s)
  end.

Definition opt_header (name : list Z) (v : option (list Z)) : list header :=
  match v with Some v => [(name, v)] | None => [] end.

(** The pairs appended after the template. *)
Definition extras (variant : Z) (requestIdHeader origin : option (list Z))
    (rateRemaining rateResetSecs retryAfterSecs : option Z) : list header :=
  opt_header (js "x-request-id") (needs_request_id requestIdHeader) ++
  opt_header ALLOW_ORIGIN (needs_origin variant origin) ++
  when_ (has_bit variant HV_RATE_ACTIVE)
    [(js "ratelimit-remaining", dec (default 0 rateRemaining));
     (js "ratelimit-reset", dec (default 0 rateResetSecs))] ++
  when_ (has_bit variant HV_RATE_LIMITED) [(js "retry-after", dec (default 0 retryAfterSecs))].

Definition responseHeaders (variant : Z) (requestIdHeader origin : option (list Z))
    (rateRemaining rateResetSecs retryAfterSecs : option Z) (s : bstate) : nat * bstate :=
  let needsRate := has_bit variant HV_RATE_ACTIVE in
  let needsRetry := has_bit variant HV_RATE_LIMITED in
  match needs_request_id requestIdHeader, needs_origin variant origin, needsRate || needsRetry with
  | None, None, false => (headerTemplates variant, s)
  | None, Some o, false => originBaseEntries variant o s
  | _, _, _ =>
      alloc (array_at (headerTemplates variant) s ++
             extras variant requestIdHeader origin rateRemaining rateResetSecs retryAfterSecs) s
  end.

(** [x > 0 ? secondsFromMs(x) : undefined]. *)
Definition secs_if_positive (ms : Z) : option Z :=
  if decide (0 < ms) then Some (secondsFromMs ms) else None.

(** The rate arguments the builders take from a result. *)
Definition rate_args (r : option IngressResultBase) : option Z * option Z * option Z :=
  match r with
  | Some r => (Some (rateRemaining r), secs_if_positive (rateResetMs r),
               secs_if_positive (retryAfterMs r))
  | None => (None, None, None)
  end.

Definition terminalHeaders (variant : Z) (rid origin : option (list Z))
    (r : option IngressResultBase) (s : bstate) : nat * bstate :=
  let v := Z.lor variant HV_JSON in
  let '(remaining, reset_, retry) := rate_args r in
  match needs_request_id rid, needs_origin v origin,
        has_bit v HV_RATE_ACTIVE || has_bit v HV_RATE_LIMITED with
  | None, None, false => (terminalTemplates v, s)
  | _, _, _ =>
      let '(a, s) := responseHeaders v rid origin remaining reset_ retry s in
      alloc (array_at a s ++ [NO_STORE]) s
  end.

(** [new Response(body, { status, headers: memoizedHeaders(entries) })]. *)
Definition respond (status : Z) (body : resp_body) (built : nat * bstate) : HttpResponse * bstate :=
  let '(h, s) := memoizedHeaders built.1 built.2 in
  ({| r_status := status; r_headers := h; r_body := body |}, s).

Definition terminalResponse (r : IngressResultBase) (rid origin : option (list Z)) (s : bstate)
    : result (option HttpResponse * bstate) :=
  if negb (terminal r) then Ok (None, s)
  else if isPreflight r && corsAllowed r then
    let '(remaining, reset_, retry) := rate_args (Some r) in
    let '(resp, s) := respond 204 BNull
      (responseHeaders (headerVariant r) rid origin remaining reset_ retry s) in
    Ok (Some resp, s)
  else
    let status := safeTerminalStatus (status r) (errorCode r) (isPreflight r) (corsAllowed r) in
    body ← (if decide (errorCode r = ERR_CODE_RATE_LIMITED) then rateLimitedBody (retryAfterMs r)
            else Ok (match ERROR_CODE_BODIES (errorCode r) with
                     | Some b => b
                     | None => default [] (body_named "internal")
                     end));
    let '(resp, s) := respond status (BBytes body)
      (terminalHeaders (headerVariant r) rid origin (Some r) s) in
    Ok (Some resp, s).

(** [JSON.stringify({ ok: false, error: { code, message } })]. *)
Definition error_payload (code message : list Z) : list Z :=
  json_object [json_member (js "ok") (js "false");
    json_member (js "error") (json_object
      [json_member (js "code") (json_string code); json_member (js "message") (json_string message)])].

Definition errorResponse (r : option IngressResultBase) (status : Z) (code message : list Z)
    (rid origin : option (list Z)) (s : bstate) : HttpResponse * bstate :=
  let body := match error_body code with
              | Some b => b
              | None => BBytes (encodeUtf8 (error_payload code message))
              end in
  let variant := match r with Some r => headerVariant r | None => HV_JSON end in
  respond status body (terminalHeaders variant rid origin r s).

Definition internalErrorResponse (r : option IngressResultBase) (rid origin : option (list Z))
    (s : bstate) : HttpResponse * bstate :=
  let body := match body_named "internal" with Some b => BBytes b | None => BNull end in
  let variant := match r with Some r => headerVariant r | None => HV_JSON end in
  respond 500 body (terminalHeaders variant rid origin r s).

Definition withContentType (a : nat) (contentType : list Z) (s : bstate) : nat * bstate :=
  alloc (array_at a s ++ [(js "content-type", contentType)]) s.

(** [prewarmOriginHeaders(responseHeaders, origins, variant)]. *)
Fixpoint prewarmOriginHeaders (origins : list (list Z)) (variant : Z) (s : bstate) : bstate :=
  match origins with
  | [] => s
  | o :: origins' =>
      let '(a, s) := responseHeaders variant None (Some o) None None None s in
      prewarmOriginHeaders origins' variant (memoizedHeaders a s).2
  end.
End builders.

(** ** Reference: the headers of a response, without caches *)

Definition ref_entries (p : BakedTemplateParams) (variant : Z) : list header :=
  baked_regular p (Z.land variant 31).

Section reference.
Variable p : BakedTemplateParams.
Variable emit : bool.

Definition ref_success (variant : Z) (rid origin : option (list Z)) (remaining reset_ : option Z)
    : Headers :=
  let h := new_Headers (ref_entries p variant ++ opt_header ALLOW_ORIGIN (needs_origin variant origin)) in
  let h := match needs_request_id emit rid with
           | Some r => h_set (js "x-request-id") r h
           | None => h
           end in
  if has_bit variant HV_RATE_ACTIVE then
    h_set (js "ratelimit-reset") (dec (default 0 reset_))
      (h_set (js "ratelimit-remaining") (dec (default 0 remaining)) h)
  else h.

Definition ref_response (variant : Z) (rid origin : option (list Z))
    (remaining reset_ retry : option Z) : list header :=
  ref_entries p variant ++ extras emit variant rid origin remaining reset_ retry.

Definition ref_terminal (variant : Z) (rid origin : option (list Z)) (r : option IngressResultBase)
    : list header :=
  let '(remaining, reset_, retry) := rate_args r in
  ref_response (Z.lor variant HV_JSON) rid origin remaining reset_ retry ++ [NO_STORE].

Definition variant_of (r : option IngressResultBase) : Z :=
  match r with Some r => headerVariant r | None => HV_JSON end.

Definition ref_rate_body (retryAfterMs : Z) : list Z :=
  RATE_LIMIT_BODY_PREFIX ++ encodeUtf8 (dec (Z.max 0 retryAfterMs)) ++ RATE_LIMIT_BODY_SUFFIX.

Definition ref_terminal_response (r : IngressResultBase) (rid origin : option (list Z))
    : option HttpResponse :=
  if negb (terminal r) then None
  else if isPreflight r && corsAllowed r then
    let '(remaining, reset_, retry) := rate_args (Some r) in
    Some {| r_status := 204; r_body := BNull;
            r_headers := new_Headers
              (ref_response (headerVariant r) rid origin remaining reset_ retry) |}
  else
    Some {| r_status := safeTerminalStatus (status r) (errorCode r) (isPreflight r) (corsAllowed r);
            r_headers := new_Headers (ref_terminal (headerVariant r) rid origin (Some r));
            r_body := BBytes
              (if decide (errorCode r = ERR_CODE_RATE_LIMITED) then ref_rate_body (retryAfterMs r)
               else match ERROR_CODE_BODIES (errorCode r) with
                    | Some b => b
                    | None => default [] (body_named "internal")
                    end) |}.

(** ** Operations of the builders *)

Inductive op :=
  | OpSuccess (variant : Z) (rid origin : option (list Z)) (remaining reset_ : option Z)
  | OpResponse (variant : Z) (rid origin : option (list Z)) (remaining reset_ retry : option Z)
      (contentType : option (list Z))
  | OpTerminalHeaders (variant : Z) (rid origin : option (list Z)) (r : option IngressResultBase)
  | OpTerminal (r : IngressResultBase) (rid origin : option (list Z))
  | OpError (r : option IngressResultBase) (status : Z) (code message : list Z)
      (rid origin : option (list Z))
  | OpInternal (r : option IngressResultBase) (rid origin : option (list Z))
  | OpPrewarm (origins : list (list Z)) (variant : Z).

Inductive out := OHeaders (h : Headers) | OEntries (l : list header) | OResponse (r : option HttpResponse) | ONone.

Definition run_op (o : op) (s : bstate) : result (out * bstate) :=
  match o with
  | OpSuccess v rid origin rem reset_ =>
      let '(h, s) := successHeaders emit v rid origin rem reset_ s in Ok (OHeaders h, s)
  | OpResponse v rid origin rem reset_ retry ct =>
      let '(a, s) := responseHeaders emit v rid origin rem reset_ retry s in
      match ct with
      | Some ct => let '(a, s) := withContentType a ct s in Ok (OEntries (array_at a s), s)
      | None => Ok (OEntries (array_at a s), s)
      end
  | OpTerminalHeaders v rid origin r =>
      let '(a, s) := terminalHeaders emit v rid origin r s in Ok (OEntries (array_at a s), s)
  | OpTerminal r rid origin =>
      '(x, s) ← terminalResponse emit r rid origin s; Ok (OResponse x, s)
  | OpError r st code msg rid origin =>
      let '(x, s) := errorResponse emit r st code msg rid origin s in Ok (OResponse (Some x), s)
  | OpInternal r rid origin =>
      let '(x, s) := internalErrorResponse emit r rid origin s in Ok (OResponse (Some x), s)
  | OpPrewarm origins v => Ok (ONone, prewarmOriginHeaders emit origins v s)
  end.

Definition ref_op (o : op) : out :=
  match o with
  | OpSuccess v rid origin rem reset_ => OHeaders (ref_success v rid origin rem reset_)
  | OpResponse v rid origin rem reset_ retry ct =>
      OEntries (ref_response v rid origin rem reset_ retry ++ opt_header (js "content-type") ct)
  | OpTerminalHeaders v rid origin r => OEntries (ref_terminal v rid origin r)
  | OpTerminal r rid origin => OResponse (ref_terminal_response r rid origin)
  | OpError r st code msg rid origin =>
      OResponse (Some {| r_status := st;
        r_headers := new_Headers (ref_terminal (variant_of r) rid origin r);
        r_body := match error_body code with
                  | Some b => b
                  | None => BBytes (encodeUtf8 (error_payload code msg))
                  end |})
  | OpInternal r rid origin =>
      OResponse (Some {| r_status := 500;
        r_headers := new_Headers (ref_terminal (variant_of r) rid origin r);
        r_body := BBytes (default [] (body_named "internal")) |})
  | OpPrewarm _ _ => ONone
  end.

Inductive reach : bstate → Prop :=
  | reach_init : reach (init_state p)
  | reach_op s o x s' : reach s → run_op o s = Ok (x, s') → reach s'.

(** ** The invariant of the caches *)

Record Inv (s : bstate) : Prop := {
  inv_regular : ∀ v, arrays s !! headerTemplates v = Some (ref_entries p v);
  inv_terminal : ∀ v, arrays s !! terminalTemplates v = Some (ref_entries p v ++ [NO_STORE]);
  inv_cache : ∀ v origin a, mget (origin_key v origin) (originHeaderCache s) = Some a →
    arrays s !! a = Some (ref_entries p v ++ [(ALLOW_ORIGIN, origin)]);
  inv_wf : wf (originHeaderCache s);
  inv_bound : msize (originHeaderCache s) ≤ ORIGIN_HEADER_CACHE_MAX;
  inv_memo : ∀ a h, mget a (memo s) = Some h → ∃ l, arrays s !! a = Some l ∧ h = new_Headers l
}.

Lemma land31_bound v : 0 ≤ Z.land v 31 < 32.
Proof.
  change 31 with (Z.ones 5). rewrite Z.land_ones by lia. apply Z.mod_pos_bound. lia.
Qed.

Lemma dec_small_no_nul n : 0 ≤ n < 32 → 0 ∉ dec n.
Proof.
  intros Hn. assert (Hall : Forall (λ k : nat, 0 ∉ dec (Z.of_nat k)) (seq 0 32))
    by (apply (bool_decide_unpack _); vm_compute; reflexivity).
  rewrite Forall_forall in Hall. specialize (Hall (Z.to_nat n)).
  rewrite Z2Nat.id in Hall by lia. apply Hall, elem_of_seq. lia.
Qed.

Lemma dec_small_inj n m : 0 ≤ n < 32 → 0 ≤ m < 32 → dec n = dec m → n = m.
Proof.
  intros Hn Hm E. assert (Hall : NoDup ((λ k : nat, dec (Z.of_nat k)) <$> seq 0 32))
    by (apply (bool_decide_unpack _); vm_compute; reflexivity).
  assert (Z.to_nat n = Z.to_nat m); [|lia].
  eapply (NoDup_lookup _ (Z.to_nat n) (Z.to_nat m) (dec n)); [exact Hall|..];
    rewrite list_lookup_fmap, lookup_seq_lt, ?Z2Nat.id by lia; cbn [fmap option_fmap option_map];
    rewrite Nat.add_0_l, Z2Nat.id by lia; congruence.
Qed.

Lemma origin_key_inj v o v' o' :
  origin_key v o = origin_key v' o' → Z.land v 31 = Z.land v' 31 ∧ o = o'.
Proof.
  unfold origin_key. intros E. apply (f_equal (split 0)) in E as E'.
  pose proof (dec_small_no_nul _ (land31_bound v)). pose proof (dec_small_no_nul _ (land31_bound v')).
  rewrite !(split_app_free 0 _ ([0] ++ _) [] (split 0 _)) in E' by (done || apply split_sep).
  rewrite !app_nil_r in E'. injection E' as Ed _.
  apply dec_small_inj in Ed; [|apply land31_bound..]. rewrite Ed in E. split; [done|].
  by apply app_inv_head in E as [= ->].
Qed.

Lemma ref_entries_land v v' : Z.land v 31 = Z.land v' 31 → ref_entries p v = ref_entries p v'.
Proof. unfold ref_entries. by intros ->. Qed.

Lemma array_at_Some a l s : arrays s !! a = Some l → array_at a s = l.
Proof. unfold array_at. by intros ->. Qed.

Lemma init_inv : Inv (init_state p).
Proof.
  unfold init_state, buildBakedHeaderTemplates. split; cbn [arrays originHeaderCache memo].
  - intros v. pose proof (land31_bound v). unfold headerTemplates.
    rewrite lookup_app_l by (rewrite !length_fmap, length_seq; lia).
    rewrite !list_lookup_fmap, lookup_seq_lt by lia. cbn. by rewrite Z2Nat.id by lia.
  - intros v. pose proof (land31_bound v). unfold terminalTemplates.
    rewrite lookup_app_r; rewrite !length_fmap, length_seq; [|lia].
    rewrite !list_lookup_fmap, lookup_seq_lt by lia.
    replace (32 + Z.to_nat (Z.land v 31) - 32)%nat with (Z.to_nat (Z.land v 31)) by lia.
    cbn. by rewrite Z2Nat.id by lia.
  - done.
  - constructor.
  - done.
  - done.
Qed.
(** What a builder of an entry array returns: an array with these entries. *)
Definition yields (l : list header) (x : nat * bstate) : Prop :=
  Inv x.2 ∧ arrays x.2 !! x.1 = Some l.

Lemma alloc_yields l s : Inv s → yields l (alloc l s).
Proof.
  intros [H1 H2 H3 H4 H5 H6]. split; [|cbn; by rewrite lookup_app_r, Nat.sub_diag].
  split; cbn; [| | |done|done|].
  - intros v. apply lookup_app_l_Some, H1.
  - intros v. apply lookup_app_l_Some, H2.
  - intros v o a Ha. apply lookup_app_l_Some. by apply H3.
  - intros a h Ha. destruct (H6 a h Ha) as (l' & Hl & ->). exists l'. split; [|done].
    by apply lookup_app_l_Some.
Qed.

Lemma memoized_ok l a s :
  yields l (a, s) → (memoizedHeaders a s).1 = new_Headers l ∧ Inv (memoizedHeaders a s).2.
Proof.
  intros [HI Ha]. cbn in *. unfold memoizedHeaders. destruct (mget a (memo s)) as [h|] eqn:E; cbn.
  - destruct (inv_memo s HI a h E) as (l' & Hl & ->). split; [congruence|done].
  - rewrite (array_at_Some _ _ _ Ha). split; [done|]. destruct HI as [H1 H2 H3 H4 H5 H6].
    split; cbn; try done. intros b h. rewrite mget_mset. case_decide as Hb; [|by apply H6].
    intros [= <-]. subst. eauto.
Qed.

Lemma origin_yields v o s :
  Inv s → yields (ref_entries p v ++ [(ALLOW_ORIGIN, o)]) (originBaseEntries v o s).
Proof.
  intros HI. unfold originBaseEntries. destruct (mget _ _) as [a|] eqn:E.
  { split; [done|]. cbn. by apply (inv_cache s HI). }
  rewrite (array_at_Some _ _ _ (inv_regular s HI v)).
  set (l := ref_entries p v ++ [(ALLOW_ORIGIN, o)]).
  destruct (alloc_yields l s HI) as [HI' Ha]. destruct (alloc l s) as [a s'] eqn:Hal.
  assert (originHeaderCache s = originHeaderCache s') as Hc by (unfold alloc in Hal; by injection Hal as <- <-).
  rewrite Hc in *. clear Hc. cbn in HI', Ha. split; [|done]. cbn.
  set (cache := if decide _ then _ else _).
  assert (Hcache : wf cache ∧ msize cache < ORIGIN_HEADER_CACHE_MAX ∧
            (∀ k b, mget k cache = Some b → mget k (originHeaderCache s') = Some b) ∧
            mget (origin_key v o) cache = None).
  { unfold cache. pose proof (inv_wf s' HI') as Hwf. pose proof (inv_bound s' HI') as Hb.
    case_decide as Hfull; [|split_and!; [done|lia|done|done]].
    destruct (moldest (originHeaderCache s')) as [k0|] eqn:Ho.
    - apply moldest_elem in Ho as Hin. split_and!.
      + by apply wf_mdel.
      + rewrite msize_mdel_in by done. lia.
      + intros k b Hk. destruct (decide (k = k0)) as [->|Hne]; [by rewrite mget_mdel_eq in Hk|].
        by rewrite mget_mdel_ne in Hk.
      + destruct (decide (origin_key v o = k0)) as [->|Hne]; [by apply mget_mdel_eq|].
        by rewrite mget_mdel_ne.
    - apply moldest_None in Ho. rewrite Ho in Hfull. vm_compute in Hfull. done. }
  destruct Hcache as (Hwf & Hsz & Hsub & Hnew). destruct HI' as [H1 H2 H3 H4 H5 H6].
  split; cbn; [done|done| | | |done].
  - intros v' o' b. rewrite mget_mset. case_decide as Hk.
    + intros [= <-]. apply origin_key_inj in Hk as [Hv ->]. rewrite Ha. unfold l.
      by rewrite (ref_entries_land v' v).
    + intros Hb. apply H3, Hsub, Hb.
  - by apply wf_mset.
  - rewrite msize_mset_new; [lia|]. by apply mget_None.
Qed.

Lemma response_yields v rid origin rem reset_ retry s :
  Inv s → yields (ref_response v rid origin rem reset_ retry)
                 (responseHeaders emit v rid origin rem reset_ retry s).
Proof.
  intros HI. unfold responseHeaders, ref_response, extras.
  pose proof (inv_regular s HI v) as Hreg. rewrite (array_at_Some _ _ _ Hreg).
  destruct (needs_request_id emit rid) as [r|], (needs_origin v origin) as [o|],
    (has_bit v HV_RATE_ACTIVE), (has_bit v HV_RATE_LIMITED); cbn [orb];
    try (by apply alloc_yields).
  - by apply origin_yields.
  - split; [done|]. cbn. by rewrite app_nil_r.
Qed.

Lemma terminal_yields v rid origin r s :
  Inv s → yields (ref_terminal v rid origin r) (terminalHeaders emit v rid origin r s).
Proof.
  intros HI. unfold terminalHeaders, ref_terminal. destruct (rate_args r) as [[rem rs] rt].
  pose proof (response_yields (Z.lor v HV_JSON) rid origin rem rs rt s HI) as Hr.
  destruct (responseHeaders _ _ _ _ _ _ _ _) as [a s1]. destruct Hr as [HI1 Ha]. cbn in HI1, Ha.
  rewrite (array_at_Some _ _ _ Ha).
  pose proof (alloc_yields (ref_response (Z.lor v HV_JSON) rid origin rem rs rt ++ [NO_STORE]) s1 HI1) as Hal.
  destruct (needs_request_id emit rid) as [x|] eqn:Hrid, (needs_origin (Z.lor v HV_JSON) origin) as [o|] eqn:Ho,
    (has_bit (Z.lor v HV_JSON) HV_RATE_ACTIVE) eqn:Ha1, (has_bit (Z.lor v HV_JSON) HV_RATE_LIMITED) eqn:Hl;
    cbn [orb]; try exact Hal.
  split; [done|]. cbn [fst snd]. rewrite (inv_terminal s HI). unfold ref_response, extras.
  rewrite Hrid, Ho, Ha1, Hl. cbn [opt_header when_ app]. by rewrite app_nil_r.
Qed.

Lemma respond_ok st b l x :
  yields l x → respond st b x = ({| r_status := st; r_headers := new_Headers l; r_body := b |},
                                  (memoizedHeaders x.1 x.2).2) ∧ Inv (memoizedHeaders x.1 x.2).2.
Proof.
  destruct x as [a s]. intros Hy. destruct (memoized_ok l a s Hy) as [Hh HI]. unfold respond. cbn.
  destruct (memoizedHeaders a s) as [h s']. cbn in *. by subst.
Qed.

Lemma success_ok v rid origin rem rs s :
  Inv s → (successHeaders emit v rid origin rem rs s).1 = ref_success v rid origin rem rs ∧
          Inv (successHeaders emit v rid origin rem rs s).2.
Proof.
  intros HI. unfold successHeaders, ref_success.
  set (l := ref_entries p v ++ opt_header ALLOW_ORIGIN (needs_origin v origin)).
  assert (Hy : yields l (match needs_origin v origin with
                         | Some o => originBaseEntries v o s
                         | None => (headerTemplates v, s) end)).
  { unfold l. destruct (needs_origin v origin) as [o|]; cbn [opt_header]; [by apply origin_yields|].
    rewrite app_nil_r. split; [done|]. apply (inv_regular s HI). }
  destruct (match needs_origin v origin with Some _ => _ | None => _ end) as [a s1].
  destruct (memoized_ok l a s1 Hy) as [Hh HI1]. destruct (memoizedHeaders a s1) as [h s2].
  cbn in Hh, HI1. subst h. by destruct (needs_request_id emit rid), (has_bit v HV_RATE_ACTIVE).
Qed.

Lemma three_sets (P d S : list Z) :
  (out ← ta_set (new_u8 (zlen P + zlen d + zlen S)) P 0;
   out ← ta_set out d (zlen P);
   ta_set out S (zlen P + zlen d)) = Ok (P ++ d ++ S).
Proof.
  set (out := new_u8 _).
  assert (Hout : zlen out = zlen P + zlen d + zlen S) by (unfold out, new_u8; zlia).
  pose proof (ta_set_frontier [] out P 0 eq_refl) as E1. cbn [app] in E1.
  rewrite E1 by zlia. cbn [mbind result_bind].
  rewrite (ta_set_frontier P) by (done || (unfold zlen in *; rewrite length_drop; lia)).
  cbn [mbind result_bind]. rewrite (app_assoc P).
  rewrite (ta_set_frontier (P ++ d)) by (unfold zlen in *; rewrite ?length_app, ?length_drop; lia).
  f_equal. rewrite (drop_ge _ (length S)) by (unfold zlen in *; rewrite !length_drop; lia).
  by rewrite app_nil_r, <-app_assoc.
Qed.

Lemma rateLimitedBody_ok ms : rateLimitedBody ms = Ok (ref_rate_body ms).
Proof. apply three_sets. Qed.

Lemma prewarm_inv origins v s : Inv s → Inv (prewarmOriginHeaders emit origins v s).
Proof.
  revert s. induction origins as [|o origins IH]; intros s HI; [done|]. cbn.
  pose proof (response_yields v None (Some o) None None None s HI) as Hy.
  destruct (responseHeaders _ _ _ _ _ _ _ _) as [a s1]. apply IH. by eapply memoized_ok.
Qed.

Lemma run_op_ok o s : Inv s → ∃ s', run_op o s = Ok (ref_op o, s') ∧ Inv s'.
Proof.
  intros HI. destruct o as [v rid og rem rs|v rid og rem rs rt ct|v rid og r|r rid og
    |r st code msg rid og|r rid og|origins v]; cbn [run_op ref_op].
  - destruct (success_ok v rid og rem rs s HI) as [Hh HI'].
    destruct (successHeaders _ _ _ _ _ _ _) as [h s']. cbn in *. subst. eauto.
  - pose proof (response_yields v rid og rem rs rt s HI) as Hy.
    destruct (responseHeaders _ _ _ _ _ _ _ _) as [a s1]. destruct Hy as [HI1 Ha]. cbn in HI1, Ha.
    rewrite (array_at_Some _ _ _ Ha). destruct ct as [ct|]; cbn [opt_header].
    + unfold withContentType. rewrite (array_at_Some _ _ _ Ha).
      pose proof (alloc_yields (ref_response v rid og rem rs rt ++ [(js "content-type", ct)]) s1 HI1) as Hy.
      destruct (alloc _ s1) as [a' s2]. destruct Hy as [HI2 Ha']. cbn in HI2, Ha'.
      rewrite (array_at_Some _ _ _ Ha'). eauto.
    + rewrite app_nil_r. eauto.
  - pose proof (terminal_yields v rid og r s HI) as Hy.
    destruct (terminalHeaders _ _ _ _ _ _) as [a s1]. destruct Hy as [HI1 Ha]. cbn in HI1, Ha.
    rewrite (array_at_Some _ _ _ Ha). eauto.
  - unfold terminalResponse, ref_terminal_response. destruct (terminal r); cbn [negb]; [|eauto].
    destruct (isPreflight r && corsAllowed r).
    + destruct (rate_args (Some r)) as [[rem rs] rt].
      destruct (respond_ok 204 BNull _ _ (response_yields (headerVariant r) rid og rem rs rt s HI))
        as [-> HI']. eauto.
    + set (body := if decide _ then rateLimitedBody _ else _).
      set (bytes := if decide _ then ref_rate_body _ else _).
      assert (body = Ok bytes) as -> by
        (unfold body, bytes; case_decide; [apply rateLimitedBody_ok|done]).
      cbn [mbind result_bind].
      destruct (respond_ok (safeTerminalStatus (status r) (errorCode r) (isPreflight r) (corsAllowed r))
        (BBytes bytes) _ _ (terminal_yields (headerVariant r) rid og (Some r) s HI)) as [-> HI']. eauto.
  - unfold errorResponse. fold (variant_of r). set (b := match error_body code with Some _ => _ | _ => _ end).
    destruct (respond_ok st b _ _ (terminal_yields (variant_of r) rid og r s HI)) as [-> HI']. eauto.
  - unfold internalErrorResponse. fold (variant_of r).
    destruct (body_named "internal") as [b|] eqn:Eb; [|by vm_compute in Eb]. clear Eb.
    change (default [] (Some b)) with b.
    destruct (respond_ok 500 (BBytes b) _ _ (terminal_yields (variant_of r) rid og r s HI)) as [-> HI'].
    eauto.
  - eexists. split; [done|]. by apply prewarm_inv.
Qed.

Lemma builders_reach_inv s : reach s → Inv s.
Proof.
  induction 1 as [|s o x s' _ IH Ho]; [apply init_inv|].
  destruct (run_op_ok o s IH) as (s1 & Hs & HI). rewrite Hs in Ho. by injection Ho as <- <-.
Qed.

(** C9. The caches of the builders are invisible: after any sequence of builder calls,
    with any origins, every builder answers, with exactly the headers, status and
    body of the cache-free reference, and the cache that clients can fill with
    origins keeps at most 64 entries. *)
Theorem builders_transparent s o :
  reach s →
  ∃ s', run_op o s = Ok (ref_op o, s') ∧ msize (originHeaderCache s') ≤ ORIGIN_HEADER_CACHE_MAX.
Proof.
  intros HI%builders_reach_inv. destruct (run_op_ok o s HI) as (s' & Hs & HI').
  exists s'. split; [done|]. apply (inv_bound s' HI').
Qed.

(** With rate limiting on, pre-warming the configured origins leaves the origin
    cache as it was: every first request of an origin still misses it. *)
Theorem prewarm_misses_rate_variant origins v s :
  has_bit v HV_RATE_ACTIVE = true →
  originHeaderCache (prewarmOriginHeaders emit origins v s) = originHeaderCache s.
Proof.
  intros Hv. revert s. induction origins as [|o origins IH]; intros s; [done|]. cbn.
  unfold responseHeaders. rewrite Hv. cbn [orb].
  assert (needs_request_id emit None = None) as -> by (unfold needs_request_id; by destruct emit).
  destruct (needs_origin v (Some o)); cbn; rewrite IH; unfold memoizedHeaders; cbn; by destruct (mget _ _).
Qed.
End reference.

Definition sample_params : BakedTemplateParams :=
  {| securityEntries := [(js "x-frame-options", js "DENY")]; b_allowCredentials := true;
     corsAllowMethods := js "GET"; corsAllowHeaders := []; corsExposeHeaders := [];
     corsMaxAge := js "600"; rateLimitStr := js "100" |}.

Definition sample_op : op := OpResponse (HV_JSON + HV_CORS_SIMPLE) None (Some (js "https://a.example"))
  None None None (Some (js "text/plain")).

Lemma builders_transparent_witness :
  ∃ s', run_op true sample_op (init_state sample_params) = Ok (ref_op sample_params true sample_op, s') ∧
    msize (originHeaderCache s') ≤ ORIGIN_HEADER_CACHE_MAX.
Proof. apply builders_transparent. apply reach_init. Defined.

Lemma prewarm_misses_rate_variant_witness :
  originHeaderCache (prewarmOriginHeaders true [js "https://a.example"]
    (HV_JSON + HV_CORS_SIMPLE + HV_RATE_ACTIVE) (init_state sample_params)) = [] ∧
  originHeaderCache (prewarmOriginHeaders true [js "https://a.example"]
    (HV_JSON + HV_CORS_SIMPLE) (init_state sample_params)) ≠ [].
Proof.
  split; [|by vm_compute].
  apply (prewarm_misses_rate_variant true). by vm_compute.
Defined.
