(* ===== verification/Packing.v ===== *)
(** Packing of a request for the native core: the growable frame packer
    (src/ingress/packing/input-packer.ts), header selection and header-block
    packing (select-headers.ts, header-packing.ts, scratch.ts), the cached fast
    paths of the pre-baked pipeline (gather-raw-headers.ts), and the native
    side's reader and builder of the same frame (rust/ingress/packed.rs). *)
From S2P Require Import Prelude.
From S2P Require Import JsMap.
From S2P Require Import Utf8.
From S2P Require Import JsObject.
From S2P Require Import Wire.
From S2P Require Import Layout.

(** ** The frame packer

    [view] and [bufView] are views of a particular allocation; an allocation
    number tells whether they still see the current buffer or a discarded one. *)
Module Packer.

Record IngressInputPacker := Packer {
  buf : list Z; buf_alloc : nat; view_alloc : nat; bufView : option nat; pos : Z }.

Definition newIngressInputPacker (initialSize : Z) : IngressInputPacker :=
  Packer (new_u8 (Z.max 1024 initialSize)) 0 0 None 0.

Definition set_pos (p : IngressInputPacker) (n : Z) : IngressInputPacker :=
  Packer (buf p) (buf_alloc p) (view_alloc p) (bufView p) n.

Definition set_buf (p : IngressInputPacker) (b : list Z) : IngressInputPacker :=
  Packer b (buf_alloc p) (view_alloc p) (bufView p) (pos p).

(** [while (nextSize < needed) nextSize *= 2], from twice the current size. *)
Definition ensure (p : IngressInputPacker) (additional : Z) : result IngressInputPacker :=
  let needed := pos p + additional in
  if decide (needed ≤ zlen (buf p)) then Ok p
  else
    let nextSize := grow (Z.to_nat (Z.log2_up needed)) (zlen (buf p) * 2) needed in
    next ← ta_set (new_u8 nextSize) (subarray (buf p) 0 (pos p)) 0;
    Ok (Packer next (S (buf_alloc p)) (S (buf_alloc p)) None (pos p)).

Definition writeU8 (p : IngressInputPacker) (value : Z) : result IngressInputPacker :=
  p ← ensure p 1;
  b ← dv_set 1 (buf p) (pos p) (Z.land value 0xff);
  Ok (set_pos (set_buf p b) (pos p + 1)).

(** [this.view.setUint32(at, v, true)]: a stale view writes into a discarded
    buffer. *)
Definition view_setUint32 (p : IngressInputPacker) (at_ v : Z) : result IngressInputPacker :=
  if decide (view_alloc p = buf_alloc p)
  then b ← dv_set 4 (buf p) at_ v; Ok (set_buf p b)
  else Ok p.

Definition writeLenPrefixed (p : IngressInputPacker) (bytes : list Z) : result IngressInputPacker :=
  p ← ensure p (4 + zlen bytes);
  p ← view_setUint32 p (pos p) (zlen bytes);
  let p := set_pos p (pos p + 4) in
  b ← ta_set (buf p) bytes (pos p);
  Ok (set_pos (set_buf p b) (pos p + zlen bytes)).

Definition writeStringLenPrefixed (p : IngressInputPacker) (value : list Z) : result IngressInputPacker :=
  p ← ensure p (4 + zlen value * 3);
  let valueLenPos := pos p in
  let p := set_pos p (pos p + 4) in
  let g := default (buf_alloc p) (bufView p) in
  let p := Packer (buf p) (buf_alloc p) (view_alloc p) (Some g) (pos p) in
  let '(written, b) := buffer_write (buf p) value (pos p) (zlen (buf p)) in
  let p := if decide (g = buf_alloc p) then set_buf p b else p in
  p ← view_setUint32 p valueLenPos written;
  Ok (set_pos p (pos p + written)).

Definition EMPTY_IP_BYTES : list Z := encodeUtf8 (js "0.0.0.0").

Definition result_view (p : IngressInputPacker) : list Z * IngressInputPacker :=
  (subarray (buf p) 0 (pos p), p).

Definition pack (p : IngressInputPacker) (methodKind : Z) (urlBytes ipBytes requestIdBytes headers : list Z)
    : result (list Z * IngressInputPacker) :=
  p ← writeU8 (set_pos p 0) methodKind;
  p ← writeLenPrefixed p urlBytes;
  p ← writeLenPrefixed p ipBytes;
  p ← writeLenPrefixed p requestIdBytes;
  p ← writeLenPrefixed p headers;
  Ok (result_view p).

(** [if (ip && ip.length > 0) ... else ...]; likewise for the request id. *)
Definition write_ip (p : IngressInputPacker) (ip : option (list Z)) : result IngressInputPacker :=
  match ip with
  | Some (u :: s) => writeStringLenPrefixed p (u :: s)
  | _ => writeLenPrefixed p EMPTY_IP_BYTES
  end.

Definition packFromStrings (p : IngressInputPacker) (methodKind : Z) (url : list Z)
    (ip requestId : option (list Z)) (headers : list Z) : result (list Z * IngressInputPacker) :=
  p ← writeU8 (set_pos p 0) methodKind;
  p ← writeStringLenPrefixed p url;
  p ← write_ip p ip;
  p ← match requestId with
      | Some (u :: s) => writeStringLenPrefixed p (u :: s)
      | _ => writeLenPrefixed p []
      end;
  p ← writeLenPrefixed p headers;
  Ok (result_view p).

Definition packParts (p : IngressInputPacker) (methodKind : Z) (url : list Z)
    (ip : option (list Z)) (requestId headers : list Z) : result (list Z * IngressInputPacker) :=
  p ← writeU8 (set_pos p 0) methodKind;
  p ← writeStringLenPrefixed p url;
  p ← write_ip p ip;
  p ← writeLenPrefixed p requestId;
  p ← writeLenPrefixed p headers;
  Ok (result_view p).

(** ** The frame it is to produce *)

Definition frame (methodKind : Z) (url ip rid headers : list Z) : list Z :=
  [Z.land methodKind 0xff] ++ layout_item url ++ layout_item ip ++ layout_item rid ++ layout_item headers.

Definition ip_bytes (ip : option (list Z)) : list Z :=
  match ip with Some (u :: s) => encodeUtf8 (u :: s) | _ => EMPTY_IP_BYTES end.

Record packer_ok (p : IngressInputPacker) : Prop := {
  pk_size : 1024 ≤ zlen (buf p);
  pk_pos : 0 ≤ pos p ≤ zlen (buf p);
  pk_view : view_alloc p = buf_alloc p;
  pk_bufView : bufView p = None ∨ bufView p = Some (buf_alloc p) }.

Definition packed (p : IngressInputPacker) : list Z := take (Z.to_nat (pos p)) (buf p).

(** A write step appends [bs] to what has been packed, whatever the buffer held
    behind it. *)
Definition appends (p : IngressInputPacker) (m : result IngressInputPacker) (bs : list Z) : Prop :=
  ∃ p', m = Ok p' ∧ packer_ok p' ∧ packed p' = packed p ++ bs.

Lemma new_ok (n : Z) : packer_ok (newIngressInputPacker n).
Proof.
  constructor; simpl; try done; [| |by left]; unfold new_u8; rewrite zlen_replicate; lia.
Qed.

Lemma reset_ok (p : IngressInputPacker) : packer_ok p → packer_ok (set_pos p 0) ∧ packed (set_pos p 0) = [].
Proof. intros [? ? ? ?]. split; [constructor; simpl; try done; zlia|done]. Qed.

Lemma packed_split (p : IngressInputPacker) :
  packer_ok p → ∃ rest, buf p = packed p ++ rest ∧ pos p = zlen (packed p) ∧
                        zlen rest = zlen (buf p) - pos p.
Proof.
  intros [_ Hp _ _]. exists (drop (Z.to_nat (pos p)) (buf p)). unfold packed.
  rewrite take_drop, zlen_take, zlen_drop by lia. done.
Qed.

Lemma packed_app (p : IngressInputPacker) (a rest : list Z) :
  buf p = a ++ rest → pos p = zlen a → packed p = a.
Proof. intros Hb Hp. unfold packed. rewrite Hb, Hp. apply take_zlen_app. Qed.

Lemma grow_log (size needed : Z) : 0 < size → needed ≤ grow (Z.to_nat (Z.log2_up needed)) size needed.
Proof.
  intros Hs. apply grow_ge; [done|]. rewrite Z2Nat.id by apply Z.log2_up_nonneg.
  destruct (decide (needed ≤ 1)) as [Hn|Hn]; [pose proof (Z.pow_pos_nonneg 2 (Z.log2_up needed)); pose proof (Z.log2_up_nonneg needed); nia|].
  pose proof (Z.log2_up_spec needed). nia.
Qed.

Lemma ensure_spec (p : IngressInputPacker) (n : Z) :
  packer_ok p → 0 ≤ n →
  ∃ p', ensure p n = Ok p' ∧ packer_ok p' ∧ packed p' = packed p ∧ pos p' = pos p ∧
        pos p' + n ≤ zlen (buf p').
Proof.
  intros Hok Hn. pose proof Hok as [Hs Hp Hv Hb]. unfold ensure. case_decide as Hc.
  { exists p. done. }
  set (g := grow _ _ _). assert (Hg : pos p + n ≤ g) by (apply grow_log; lia).
  destruct (packed_split p Hok) as (rest & Hbuf & Hpos & _).
  assert (Hsub : subarray (buf p) 0 (pos p) = packed p).
  { rewrite Hbuf, Hpos. apply subarray_prefix. }
  assert (Hz : zlen (new_u8 g) = g) by (unfold new_u8; rewrite zlen_replicate; lia).
  rewrite Hsub. change (new_u8 g) with ([] ++ new_u8 g).
  rewrite ta_set_frontier, bind_ret by (rewrite ?Hz; zlia || lia).
  eexists. split; [done|].
  assert (Hzn : zlen ([] ++ packed p ++ drop (length (packed p)) (new_u8 g)) = g).
  { simpl. rewrite zlen_app, zlen_drop_length by (rewrite Hz; lia). rewrite Hz. lia. }
  split; [constructor; simpl in *; auto; lia|]. simpl in *.
  split; [|split; [done|lia]]. by eapply packed_app.
Qed.

(** Writing at the frontier, once there is room. *)
Lemma dv_set_room (p : IngressInputPacker) (n : nat) (v : Z) :
  packer_ok p → pos p + Z.of_nat n ≤ zlen (buf p) →
  ∃ b, dv_set n (buf p) (pos p) v = Ok b ∧ zlen b = zlen (buf p) ∧
       ∃ rest, b = (packed p ++ le_bytes n v) ++ rest.
Proof.
  intros Hok Hr. destruct (packed_split p Hok) as (rest & Hbuf & Hpos & Hz).
  assert (E : dv_set n (buf p) (pos p) v = Ok (packed p ++ le_bytes n v ++ drop n rest))
    by (rewrite Hbuf; apply dv_set_frontier; lia).
  rewrite E. eexists. split; [done|]. rewrite zlen_app, zlen_app, zlen_le_bytes. split.
  - rewrite Hpos in Hz. rewrite <-(length_le_bytes n v) at 2.
    rewrite zlen_drop_length by (rewrite zlen_le_bytes; lia). rewrite zlen_le_bytes. lia.
  - rewrite app_assoc. eauto.
Qed.

Lemma ta_set_room (p : IngressInputPacker) (bs : list Z) :
  packer_ok p → pos p + zlen bs ≤ zlen (buf p) →
  ∃ b, ta_set (buf p) bs (pos p) = Ok b ∧ zlen b = zlen (buf p) ∧
       ∃ rest, b = (packed p ++ bs) ++ rest.
Proof.
  intros Hok Hr. destruct (packed_split p Hok) as (rest & Hbuf & Hpos & Hz).
  assert (E : ta_set (buf p) bs (pos p) = Ok (packed p ++ bs ++ drop (length bs) rest))
    by (rewrite Hbuf; apply ta_set_frontier; lia).
  rewrite E. eexists. split; [done|]. rewrite zlen_app, zlen_app, zlen_drop_length by lia.
  split; [lia|]. rewrite app_assoc. eauto.
Qed.

(** Advancing over bytes already in place. *)
Lemma advance (p : IngressInputPacker) (b pre bs rest : list Z) (bv : option nat) :
  packer_ok p → bv = None ∨ bv = Some (buf_alloc p) →
  b = (pre ++ bs) ++ rest → zlen b = zlen (buf p) → pre = packed p →
  let p' := Packer b (buf_alloc p) (view_alloc p) bv (pos p + zlen bs) in
  packer_ok p' ∧ packed p' = packed p ++ bs.
Proof.
  intros Hok Hbv Hb Hz -> p'. destruct (packed_split p Hok) as (r & _ & Hpos & _).
  pose proof Hok as [Hs Hp Hv _]. split.
  - constructor; simpl; try done; [lia|]. rewrite Hb in Hz |- *. zlia.
  - apply (packed_app _ _ rest); [done|]. simpl. rewrite zlen_app. lia.
Qed.

Lemma writeU8_appends (p : IngressInputPacker) (v : Z) :
  packer_ok p → appends p (writeU8 p v) [Z.land v 0xff].
Proof.
  intros Hok. unfold appends, writeU8.
  destruct (ensure_spec p 1 Hok) as (p1 & -> & Hok1 & Hpk & _ & Hroom); [lia|]. rewrite bind_ret.
  destruct (dv_set_room p1 1 (Z.land v 0xff) Hok1) as (b & -> & Hz & rest & Hb); [lia|].
  rewrite bind_ret. rewrite <-Hpk.
  destruct (advance p1 b _ (le_bytes 1 (Z.land v 0xff)) rest (bufView p1) Hok1 (pk_bufView _ Hok1) Hb Hz eq_refl)
    as [H1 H2]. eexists. split; [done|]. split; [exact H1|].
  assert (E : le_bytes 1 (Z.land v 0xff) = [Z.land v 0xff]).
  { cbn [le_bytes]. change 0xff with (Z.ones 8). rewrite Z.land_ones by lia.
    rewrite Z.mod_mod by lia. done. }
  rewrite E in H2. exact H2.
Qed.

Lemma writeLenPrefixed_appends (p : IngressInputPacker) (bytes : list Z) :
  packer_ok p → appends p (writeLenPrefixed p bytes) (layout_item bytes).
Proof.
  intros Hok. unfold appends, writeLenPrefixed.
  destruct (ensure_spec p (4 + zlen bytes) Hok) as (p1 & -> & Hok1 & Hpk & _ & Hroom); [zlia|].
  rewrite bind_ret. unfold view_setUint32. rewrite decide_True by apply Hok1.
  destruct (dv_set_room p1 4 (zlen bytes) Hok1) as (b & -> & Hz & rest & Hb); [zlia|].
  rewrite !bind_ret. rewrite <-Hpk.
  destruct (advance p1 b _ (le_bytes 4 (zlen bytes)) rest (bufView p1) Hok1 (pk_bufView _ Hok1) Hb Hz eq_refl)
    as [H1 H2]. rewrite zlen_le_bytes in H1, H2. change (Z.of_nat 4) with 4 in H1, H2.
  set (p2 := Packer b (buf_alloc p1) (view_alloc p1) (bufView p1) (pos p1 + 4)) in *.
  change (set_pos (set_buf p1 b) (pos (set_buf p1 b) + 4)) with p2.
  destruct (ta_set_room p2 bytes H1) as (b2 & E2 & Hz2 & rest2 & Hb2).
  { unfold p2. simpl. rewrite Hz. lia. }
  change (pos (set_buf p1 b)) with (pos p1). cbv zeta. fold p2. rewrite E2, bind_ret.
  destruct (advance p2 b2 _ bytes rest2 (bufView p1) H1 (pk_bufView _ Hok1) Hb2 Hz2 eq_refl) as [H3 H4].
  eexists. split; [done|]. split; [exact H3|]. rewrite H2 in H4. rewrite <-app_assoc in H4. exact H4.
Qed.

Lemma writeStringLenPrefixed_appends (p : IngressInputPacker) (value : list Z) :
  packer_ok p → Forall is_unit value →
  appends p (writeStringLenPrefixed p value) (layout_item (encodeUtf8 value)).
Proof.
  intros Hok Hu. unfold appends, writeStringLenPrefixed.
  destruct (ensure_spec p (4 + zlen value * 3) Hok) as (p1 & -> & Hok1 & Hpk & _ & Hroom); [zlia|].
  rewrite bind_ret. pose proof (encodeUtf8_len3 value Hu) as Hlen.
  pose proof (zlen_nonneg value).
  pose proof (pk_view _ Hok1) as Hview.
  assert (Hg : default (buf_alloc p1) (bufView p1) = buf_alloc p1)
    by (by destruct (pk_bufView _ Hok1) as [-> | ->]).
  simpl. rewrite Hg. rewrite decide_True by done.
  destruct (packed_split p1 Hok1) as (rest & Hbuf & Hpos & Hzr).
  set (w := encodeUtf8 value) in *.
  assert (Hfit : encode_fit value (zlen (buf p1) - (pos p1 + 4)) = w)
    by (apply encode_fit_all; unfold w in *; lia).
  unfold view_setUint32, set_buf. simpl. rewrite Hfit, decide_True by done.
  assert (Hs : splice (buf p1) (pos p1 + 4) w =
               packed p1 ++ (take 4 rest ++ w) ++ drop (length w) (drop 4 rest)).
  { rewrite Hbuf at 1. rewrite <-(take_drop 4 rest) at 1. rewrite app_assoc.
    assert (H4 : zlen (take 4 rest) = 4) by (apply (zlen_take 4); lia).
    rewrite splice_frontier.
    - by rewrite <-!app_assoc.
    - rewrite zlen_app, H4. lia.
    - rewrite (zlen_drop 4) by lia. lia. }
  rewrite Hs. rewrite dv_set_frontier, bind_ret by (rewrite ?zlen_app, ?(zlen_take 4) by lia; zlia).
  set (b := packed p1 ++ le_bytes 4 (zlen w) ++ _).
  assert (Hb : b = (packed p1 ++ layout_item w) ++ drop (length w) (drop 4 rest)).
  { unfold b, layout_item. rewrite <-!app_assoc. do 2 f_equal.
    rewrite drop_app_length'; [done|].
    rewrite length_take. unfold zlen in *. lia. }
  assert (Hz : zlen b = zlen (buf p1)).
  { rewrite Hb. unfold layout_item. rewrite !zlen_app, zlen_le_bytes.
    rewrite zlen_drop_length by (rewrite (zlen_drop 4) by lia; lia). rewrite (zlen_drop 4) by lia. lia. }
  destruct (advance p1 b _ (layout_item w) _ (Some (buf_alloc p1)) Hok1 (or_intror eq_refl) Hb Hz eq_refl)
    as [H1 H2].
  unfold layout_item in H1, H2 at 1. rewrite zlen_app, zlen_le_bytes in H1, H2.
  eexists. split; [done|]. rewrite <-Hpk. unfold set_pos; simpl.
  replace (pos p1 + 4 + zlen w) with (pos p1 + (Z.of_nat 4 + zlen w)) by lia. done.
Qed.

(** Composition: each pack runs its writes one after another. *)
Lemma appends_bind (p : IngressInputPacker) (m : result IngressInputPacker)
    (k : IngressInputPacker → result (list Z * IngressInputPacker)) (a out : list Z) :
  appends p m a →
  (∀ p', packer_ok p' → packed p' = packed p ++ a →
     ∃ p'', k p' = Ok (out, p'') ∧ packer_ok p'') →
  ∃ p'', m ≫= k = Ok (out, p'') ∧ packer_ok p''.
Proof. intros (p' & -> & Hok & Hpk) Hk. rewrite bind_ret. auto. Qed.

Lemma result_view_spec (p : IngressInputPacker) :
  packer_ok p → result_view p = (packed p, p).
Proof.
  intros Hok. destruct (packed_split p Hok) as (rest & Hb & Hp & _).
  unfold result_view. by rewrite Hb at 1; rewrite Hp, subarray_prefix.
Qed.

Lemma finish (p : IngressInputPacker) (out : list Z) :
  packer_ok p → packed p = out → ∃ p'', Ok (result_view p) = Ok (out, p'') ∧ packer_ok p''.
Proof. intros Hok <-. exists p. by rewrite result_view_spec. Qed.

Lemma write_ip_appends (p : IngressInputPacker) (ip : option (list Z)) :
  packer_ok p → Forall is_unit (default [] ip) →
  appends p (write_ip p ip) (layout_item (ip_bytes ip)).
Proof.
  intros Hok Hu. destruct ip as [[|u s]|]; simpl;
    auto using writeLenPrefixed_appends, writeStringLenPrefixed_appends.
Qed.

Ltac pack_steps :=
  repeat (eapply appends_bind;
    [first [ apply writeU8_appends | apply writeLenPrefixed_appends
           | apply writeStringLenPrefixed_appends | apply write_ip_appends ]; assumption
    |cbv beta; intros ? ? ?]);
  apply finish; [assumption|].

Lemma pack_frame (p : IngressInputPacker) (k : Z) (url ip rid headers : list Z) :
  packer_ok p →
  ∃ p', pack p k url ip rid headers = Ok (frame k url ip rid headers, p') ∧ packer_ok p'.
Proof.
  intros [Hok H0]%reset_ok. unfold pack. pack_steps. unfold frame.
  repeat match goal with E : packed _ = _ |- _ => rewrite E; clear E end.
  by rewrite <-!app_assoc.
Qed.

Lemma packParts_frame (p : IngressInputPacker) (k : Z) (url : list Z) (ip : option (list Z))
    (rid headers : list Z) :
  packer_ok p → Forall is_unit url → Forall is_unit (default [] ip) →
  ∃ p', packParts p k url ip rid headers =
          Ok (frame k (encodeUtf8 url) (ip_bytes ip) rid headers, p') ∧ packer_ok p'.
Proof.
  intros [Hok H0]%reset_ok ? ?. unfold packParts. pack_steps. unfold frame.
  repeat match goal with E : packed _ = _ |- _ => rewrite E; clear E end.
  by rewrite <-!app_assoc.
Qed.

Lemma packFromStrings_frame (p : IngressInputPacker) (k : Z) (url : list Z)
    (ip rid : option (list Z)) (headers : list Z) :
  packer_ok p → Forall is_unit url → Forall is_unit (default [] ip) →
  Forall is_unit (default [] rid) →
  ∃ p', packFromStrings p k url ip rid headers =
          Ok (frame k (encodeUtf8 url) (ip_bytes ip) (encodeUtf8 (default [] rid)) headers, p') ∧
        packer_ok p'.
Proof.
  intros [Hok H0]%reset_ok ? ? Hr. unfold packFromStrings.
  eapply appends_bind; [by apply writeU8_appends|intros ? ? ?].
  eapply appends_bind; [by apply writeStringLenPrefixed_appends|intros ? ? ?].
  eapply appends_bind; [by apply write_ip_appends|intros ? ? ?].
  eapply (appends_bind _ _ _ (layout_item (encodeUtf8 (default [] rid)))).
  { destruct rid as [[|u s]|]; simpl in *;
      [by apply writeLenPrefixed_appends|by apply writeStringLenPrefixed_appends
      |by apply writeLenPrefixed_appends]. }
  intros ? ? ?. pack_steps. unfold frame.
  repeat match goal with E : packed _ = _ |- _ => rewrite E; clear E end.
  by rewrite <-!app_assoc.
Qed.

End Packer.

(** ** Header selection *)
Module Select.

Definition MAX_COOKIE_HEADER_BYTES : Z := 8192.
Definition MAX_SMALL_HEADER_BYTES : Z := 2048.
Definition MAX_XFF_HEADER_BYTES : Z := 8192.

Definition HDR_COOKIE : list Z := encodeUtf8 (js "cookie").
Definition HDR_ORIGIN : list Z := encodeUtf8 (js "origin").
Definition HDR_ACRM : list Z := encodeUtf8 (js "access-control-request-method").
Definition HDR_ACRH : list Z := encodeUtf8 (js "access-control-request-headers").
Definition HDR_XFF : list Z := encodeUtf8 (js "x-forwarded-for").
Definition HDR_XRI : list Z := encodeUtf8 (js "x-real-ip").
Definition HDR_XFP : list Z := encodeUtf8 (js "x-forwarded-proto").

Definition OPTIONS : Z := 6.  (* METHOD_KIND.OPTIONS *)

(** [if (v !== null && v.length <= max) visit(name, v)] *)
Definition visit (name : list Z) (max : Z) (v : option (list Z)) : list (list Z * list Z) :=
  match v with
  | Some s => if decide (zlen s ≤ max) then [(name, s)] else []
  | None => []
  end.

(** The headers visited, in order.  [h] is [req.headers.get]; the two prefetched
    values are absent when undefined. *)
Definition forEachSelectedHeader (h : string → option (list Z)) (plan : HeaderPlan) (methodKind : Z)
    (originValue cookieValue : option (option (list Z))) : list (list Z * list Z) :=
  (if cookie plan
   then visit HDR_COOKIE MAX_COOKIE_HEADER_BYTES (default (h "cookie") cookieValue) else []) ++
  (if cors plan then
     visit HDR_ORIGIN MAX_SMALL_HEADER_BYTES (default (h "origin") originValue) ++
     (if decide (methodKind = OPTIONS) then
        visit HDR_ACRM MAX_SMALL_HEADER_BYTES (h "access-control-request-method") ++
        visit HDR_ACRH MAX_SMALL_HEADER_BYTES (h "access-control-request-headers")
      else [])
   else []) ++
  (if proxy plan then
     visit HDR_XFF MAX_XFF_HEADER_BYTES (h "x-forwarded-for") ++
     visit HDR_XRI MAX_SMALL_HEADER_BYTES (h "x-real-ip")
   else []) ++
  (if proto plan then visit HDR_XFP MAX_SMALL_HEADER_BYTES (h "x-forwarded-proto") else []).

(** ** Header blocks *)

(** Returns the new position and the (possibly grown) buffer. *)
Definition writeHeaderPair (buf : list Z) (pos : Z) (name value : list Z) : result (Z * list Z) :=
  let needed := 2 + zlen name + 4 + zlen value * 3 in
  buf ← (if decide (pos + needed > zlen buf)
         then ta_set (new_u8 (Z.max (zlen buf * 2) (pos + needed))) (subarray buf 0 pos) 0
         else Ok buf);
  buf ← dv_set 2 buf pos (zlen name);
  buf ← ta_set buf name (pos + 2);
  let pos := pos + (2 + zlen name) in
  let valueLenPos := pos in
  let pos := pos + 4 in
  let '(written, buf) := bunEncodeUtf8Into value (View buf 0 (zlen buf)) pos in
  buf ← dv_set 4 buf valueLenPos written;
  Ok (pos + written, buf).

Fixpoint write_pairs (buf : list Z) (pos : Z) (ps : list (list Z * list Z)) : result (Z * list Z) :=
  match ps with
  | [] => Ok (pos, buf)
  | (name, value) :: ps =>
      '(pos, buf) ← writeHeaderPair buf pos name value;
      write_pairs buf pos ps
  end.

Definition HEADER_BUF_SIZE : Z := 8192.

(** The ring of scratch buffers: how many exist and whose turn it is; the
    result is the slot handed out. *)
Definition MAX_CACHED : Z := 256.
Record scratch_ring := Ring { tls_length : Z; tlsIdx : Z }.
Definition getHeaderBuf (r : scratch_ring) : Z * scratch_ring :=
  let next := (tlsIdx r + 1) mod MAX_CACHED in
  if decide (tlsIdx r < tls_length r) then (tlsIdx r, Ring (tls_length r) next)
  else (tls_length r, Ring (tls_length r + 1) next).

(** [packHeaders] with the scratch buffer it was handed, stale bytes and all. *)
Definition packHeaders (scratch : list Z) (h : string → option (list Z)) (plan : HeaderPlan)
    (methodKind : Z) : result (list Z) :=
  let ps := forEachSelectedHeader h plan methodKind None None in
  '(pos, buf) ← write_pairs scratch 2 ps;
  buf ← dv_set 2 buf 0 (zlen ps);
  Ok (subarray buf 0 pos).

Definition EMPTY_HEADERS_BLOCK : list Z := [0; 0].
Definition ORIGIN_CACHE_MAX : Z := 8.

Definition cachedOriginBlock (scratch : list Z) (cache : list (list Z * list Z)) (origin : list Z)
    : result (list Z * list (list Z * list Z)) :=
  match mget origin cache with
  | Some hit => Ok (hit, cache)
  | None =>
      '(pos, buf) ← writeHeaderPair scratch 2 HDR_ORIGIN origin;
      buf ← dv_set 2 buf 0 1;
      let block := subarray buf 0 pos in
      let cache := if decide (ORIGIN_CACHE_MAX ≤ msize cache) then
                     match moldest cache with Some k => mdel k cache | None => cache end
                   else cache in
      Ok (block, mset origin block cache)
  end.

Definition gatherRawHeadersPacked (scratch : list Z) (cache : list (list Z * list Z))
    (h : string → option (list Z)) (plan : HeaderPlan) (methodKind : Z)
    (originValue : option (option (list Z))) : result (list Z * list (list Z * list Z)) :=
  let originBlock (_ : unit) :=
    match default (h "origin") originValue with
    | None => Ok (EMPTY_HEADERS_BLOCK, cache)
    | Some origin =>
        if decide (MAX_SMALL_HEADER_BYTES < zlen origin) then Ok (EMPTY_HEADERS_BLOCK, cache)
        else cachedOriginBlock scratch cache origin
    end in
  let general (preFetchedCookie : option (option (list Z))) :=
    let ps := forEachSelectedHeader h plan methodKind originValue preFetchedCookie in
    '(pos, buf) ← write_pairs scratch 2 ps;
    if decide (ps = []) then Ok (EMPTY_HEADERS_BLOCK, cache)
    else
      buf ← dv_set 2 buf 0 (zlen ps);
      Ok (subarray buf 0 pos, cache) in
  if negb (cookie plan) && negb (cors plan) && negb (proxy plan) && negb (proto plan)
  then Ok (EMPTY_HEADERS_BLOCK, cache)
  else
    let nonPreflight := bool_decide (methodKind ≠ OPTIONS) in
    if cors plan && negb (cookie plan) && negb (proxy plan) && negb (proto plan) && nonPreflight
    then originBlock ()
    else if cors plan && cookie plan && negb (proxy plan) && negb (proto plan) && nonPreflight
    then match h "cookie" with
         | None => originBlock ()
         | Some c => general (Some (Some c))
         end
    else general None.

Fixpoint prewarmOriginBlocks (scratch : list Z) (cache : list (list Z * list Z))
    (origins : list (list Z)) : result (list (list Z * list Z)) :=
  match origins with
  | [] => Ok cache
  | origin :: origins =>
      if decide (0 < zlen origin ∧ zlen origin ≤ MAX_SMALL_HEADER_BYTES ∧ 42 ∉ origin)
      then '(_, cache) ← cachedOriginBlock scratch cache origin;
           prewarmOriginBlocks scratch cache origins
      else prewarmOriginBlocks scratch cache origins
  end.

(** ** What a block is *)

Definition hdr_pair (p : list Z * list Z) : list Z :=
  le_bytes 2 (zlen p.1) ++ p.1 ++ layout_item (encodeUtf8 p.2).
Definition block (ps : list (list Z * list Z)) : list Z :=
  le_bytes 2 (zlen ps) ++ (ps ≫= hdr_pair).

Definition pair_ok (p : list Z * list Z) : Prop := Forall is_unit p.2.

Lemma writeHeaderPair_spec (pre rest name value : list Z) :
  Forall is_unit value →
  ∃ rest', writeHeaderPair (pre ++ rest) (zlen pre) name value =
    Ok (zlen (pre ++ hdr_pair (name, value)), (pre ++ hdr_pair (name, value)) ++ rest').
Proof.
  intros Hu. pose proof (encodeUtf8_len3 value Hu) as Hlen. unfold writeHeaderPair.
  set (needed := 2 + zlen name + 4 + zlen value * 3).
  assert (∃ r, (if decide (zlen pre + needed > zlen (pre ++ rest))
         then ta_set (new_u8 (Z.max (zlen (pre ++ rest) * 2) (zlen pre + needed)))
                (subarray (pre ++ rest) 0 (zlen pre)) 0
         else Ok (pre ++ rest)) = Ok (pre ++ r) ∧ needed ≤ zlen r) as (r & -> & Hr).
  { case_decide as Hc; [|exists rest; split; [done|rewrite zlen_app in Hc; lia]].
    rewrite subarray_prefix. set (g := Z.max _ _).
    assert (Hg : zlen (new_u8 g) = g) by (unfold new_u8; rewrite zlen_replicate; zlia).
    change (new_u8 g) with ([] ++ new_u8 g).
    rewrite ta_set_frontier by (rewrite ?Hg; unfold g, needed; zlia).
    eexists. split; [done|]. rewrite zlen_drop_length by (rewrite Hg; unfold g, needed; zlia).
    rewrite Hg. unfold g. lia. }
  rewrite bind_ret. unfold needed in Hr. set (w := encodeUtf8 value) in *.
  rewrite dv_set_frontier, bind_ret by zlia.
  rewrite (app_assoc pre). rewrite ta_set_frontier, bind_ret;
    [|rewrite zlen_app, zlen_le_bytes; lia|rewrite (zlen_drop 2) by zlia; zlia].
  rewrite (app_assoc (pre ++ le_bytes 2 _)).
  set (pre2 := (pre ++ le_bytes 2 (zlen name)) ++ name).
  assert (Hp2 : zlen pre + (2 + zlen name) = zlen pre2) by (unfold pre2; rewrite !zlen_app, zlen_le_bytes; lia).
  rewrite Hp2. set (r2 := drop (length name) (drop 2 r)).
  assert (Hr2 : 4 + zlen value * 3 ≤ zlen r2).
  { unfold r2. rewrite zlen_drop_length by (rewrite (zlen_drop 2) by zlia; zlia).
    rewrite (zlen_drop 2) by zlia. zlia. }
  unfold bunEncodeUtf8Into. simpl. rewrite decide_False by lia. unfold buffer_write.
  rewrite encode_fit_all by (fold w; zlia). fold w.
  rewrite <-(take_drop 4 r2). rewrite (app_assoc pre2).
  assert (H4 : zlen (take 4 r2) = 4) by (apply (zlen_take 4); zlia).
  rewrite splice_frontier; [|rewrite zlen_app, H4; lia|rewrite (zlen_drop 4) by zlia; zlia].
  rewrite <-(app_assoc pre2). rewrite dv_set_frontier, bind_ret; [|done|rewrite zlen_app, H4; zlia].
  rewrite drop_app_length' by (unfold zlen in H4; lia).
  exists (drop (length w) (drop 4 r2)). f_equal. unfold hdr_pair, layout_item. cbn [fst snd]. fold w.
  f_equal.
  - unfold pre2. rewrite !zlen_app, !zlen_le_bytes. lia.
  - unfold pre2. by rewrite <-!app_assoc.
Qed.

Lemma write_pairs_spec (ps : list (list Z * list Z)) (pre rest : list Z) :
  Forall pair_ok ps →
  ∃ rest', write_pairs (pre ++ rest) (zlen pre) ps =
    Ok (zlen (pre ++ (ps ≫= hdr_pair)), (pre ++ (ps ≫= hdr_pair)) ++ rest').
Proof.
  revert pre rest. induction ps as [|[name value] ps IH]; intros pre rest Hps.
  - exists rest. simpl. by rewrite app_nil_r.
  - inversion Hps as [|?? Hp Hps']; subst. cbn [write_pairs].
    destruct (writeHeaderPair_spec pre rest name value Hp) as (r1 & ->). rewrite bind_ret.
    destruct (IH (pre ++ hdr_pair (name, value)) r1 Hps') as (r2 & ->).
    exists r2. cbn [mbind list_bind]. by rewrite <-!app_assoc.
Qed.

(** Count word in front, then the pairs. *)
Lemma block_written (scratch : list Z) (ps : list (list Z * list Z)) :
  2 ≤ zlen scratch → Forall pair_ok ps →
  ∃ pos buf, write_pairs scratch 2 ps = Ok (pos, buf) ∧
    (b ← dv_set 2 buf 0 (zlen ps); Ok (subarray b 0 pos)) = Ok (block ps).
Proof.
  intros Hs Hps. rewrite <-(take_drop 2 scratch).
  assert (H2 : zlen (take 2 scratch) = 2) by (apply (zlen_take 2); lia).
  destruct (write_pairs_spec ps (take 2 scratch) (drop 2 scratch) Hps) as (r & Hw).
  rewrite H2 in Hw. do 2 eexists. split; [exact Hw|].
  rewrite <-app_assoc.
  pose proof (dv_set_frontier 2 [] (take 2 scratch ++ (ps ≫= hdr_pair) ++ r) 0 (zlen ps) eq_refl) as Hd.
  rewrite !app_nil_l in Hd. rewrite Hd, bind_ret by (rewrite !zlen_app, H2; zlia).
  rewrite drop_app_length' by (unfold zlen in H2; lia).
  f_equal. unfold block. rewrite (app_assoc (le_bytes 2 _)).
  assert (E : zlen (take 2 scratch ++ (ps ≫= hdr_pair)) = zlen (le_bytes 2 (zlen ps) ++ (ps ≫= hdr_pair)))
    by (rewrite !zlen_app, H2, zlen_le_bytes; done).
  rewrite E. apply subarray_prefix.
Qed.

(** ** The origin cache *)

Record cache_ok (c : list (list Z * list Z)) : Prop := {
  cache_wf : wf c;
  cache_bound : msize c ≤ ORIGIN_CACHE_MAX;
  cache_blocks : ∀ o b, (o, b) ∈ c → b = block [(HDR_ORIGIN, o)] }.

Lemma elem_of_mdel {V} (k : list Z) (m : list (list Z * V)) (x : list Z * V) :
  x ∈ mdel k m → x ∈ m.
Proof.
  induction m as [|[k' v'] m IH]; [done|]. simpl. case_decide; [set_solver|].
  intros [->|?]%elem_of_cons; set_solver.
Qed.

Lemma cachedOriginBlock_spec (scratch : list Z) (c : list (list Z * list Z)) (origin : list Z) :
  2 ≤ zlen scratch → cache_ok c → Forall is_unit origin →
  ∃ c', cachedOriginBlock scratch c origin = Ok (block [(HDR_ORIGIN, origin)], c') ∧ cache_ok c' ∧
        mget origin c' = Some (block [(HDR_ORIGIN, origin)]).
Proof.
  intros Hs Hc Hu. pose proof Hc as [Hwf Hb Hall]. unfold cachedOriginBlock.
  destruct (mget origin c) as [hit|] eqn:Hg.
  { apply mget_Some_elem in Hg as Hin. apply Hall in Hin as ->. exists c. done. }
  destruct (block_written scratch [(HDR_ORIGIN, origin)] Hs) as (pos & buf & Hw & Hbl).
  { by apply Forall_singleton. }
  cbn [write_pairs] in Hw.
  destruct (writeHeaderPair scratch 2 HDR_ORIGIN origin) as [[pos1 buf1]|]; [|done].
  rewrite bind_ret in Hw. injection Hw as -> ->. rewrite bind_ret. cbv beta iota.
  change (zlen [(HDR_ORIGIN, origin)]) with 1 in Hbl.
  destruct (dv_set 2 buf 0 1) as [b2|]; [|done]. rewrite bind_ret in Hbl. rewrite bind_ret.
  injection Hbl as Hbl. rewrite Hbl.
  set (c1 := if decide (ORIGIN_CACHE_MAX ≤ msize c) then _ else _).
  assert (Hc1 : wf c1 ∧ msize c1 < ORIGIN_CACHE_MAX ∧ mget origin c1 = None ∧
                ∀ x, x ∈ c1 → x ∈ c).
  { unfold c1. case_decide as Hm; [|split; [done|split; [lia|done]]].
    destruct (moldest c) as [k|] eqn:Hk.
    - apply moldest_elem in Hk as Hkin. split; [by apply wf_mdel|].
      split; [rewrite msize_mdel_in by done; unfold ORIGIN_CACHE_MAX in *; lia|].
      split; [|intros x; apply elem_of_mdel].
      apply mget_None. intros Hx%mkeys_mdel_sub. by apply mget_None in Hg.
    - apply moldest_None in Hk. subst c. unfold msize, zlen, ORIGIN_CACHE_MAX in Hm. simpl in Hm. lia. }
  destruct Hc1 as (Hwf1 & Hb1 & Hg1 & Hsub). eexists. split; [done|].
  split; [|apply mget_mset_eq]. constructor.
  - by apply wf_mset.
  - rewrite msize_mset_new by (by apply mget_None). lia.
  - intros o b. rewrite mset_new by (by apply mget_None).
    rewrite elem_of_app, list_elem_of_singleton. intros [Hin|[= -> ->]]; [|done]. eauto.
Qed.

Lemma selected_ok (h : string → option (list Z)) (plan : HeaderPlan) (k : Z)
    (o c : option (option (list Z))) :
  (∀ n s, h n = Some s → Forall is_unit s) →
  (∀ s, o = Some (Some s) → Forall is_unit s) → (∀ s, c = Some (Some s) → Forall is_unit s) →
  Forall pair_ok (forEachSelectedHeader h plan k o c).
Proof.
  intros Hh Ho Hc.
  assert (V : ∀ name max v, (∀ s, v = Some s → Forall is_unit s) → Forall pair_ok (visit name max v)).
  { intros name max [s|] Hv; [|constructor]. simpl. case_decide; [|constructor].
    apply Forall_singleton. by apply Hv. }
  assert (D : ∀ n x, (∀ s, x = Some (Some s) → Forall is_unit s) →
             ∀ s, default (h n) x = Some s → Forall is_unit s).
  { intros n [[t|]|] Hx s; simpl; [intros [= ->]; by apply Hx|done|apply Hh]. }
  unfold forEachSelectedHeader.
  repeat first [ apply Forall_app; split | case_decide | apply Forall_nil; done
               | apply V; by apply D | apply V; intros; by eapply Hh | case_match ].
Qed.

(** The origin alone. *)
Lemma select_origin_only (h : string → option (list Z)) (plan : HeaderPlan) (k : Z)
    (o c : option (option (list Z))) :
  cors plan = true → proxy plan = false → proto plan = false → k ≠ OPTIONS →
  (cookie plan = true → default (h "cookie") c = None) →
  forEachSelectedHeader h plan k o c =
  visit HDR_ORIGIN MAX_SMALL_HEADER_BYTES (default (h "origin") o).
Proof.
  intros Hc Hp Hpr Hk Hck. unfold forEachSelectedHeader. rewrite Hc, Hp, Hpr.
  rewrite decide_False by done. rewrite !app_nil_r.
  destruct (cookie plan); [by rewrite Hck|done].
Qed.

(** C37. The packed header block of the pre-baked path is always the reference
    block of the selected headers (count word, then each name and UTF-8 value
    with its length), whichever of the empty, cached-origin, cookie-free or
    general paths is taken and whatever the scratch buffer and the cache hold;
    and the cache stays within its bound with one correct block per origin. *)
Theorem gather_is_reference (scratch : list Z) (cache : list (list Z * list Z))
    (h : string → option (list Z)) (plan : HeaderPlan) (k : Z) (o : option (option (list Z))) :
  2 ≤ zlen scratch → cache_ok cache →
  (∀ n s, h n = Some s → Forall is_unit s) → (∀ s, o = Some (Some s) → Forall is_unit s) →
  ∃ cache', gatherRawHeadersPacked scratch cache h plan k o =
    Ok (block (forEachSelectedHeader h plan k o None), cache') ∧ cache_ok cache'.
Proof.
  intros Hs Hc Hh Ho.
  assert (Horigin : ∀ cv, cors plan = true → proxy plan = false → proto plan = false → k ≠ OPTIONS →
    (cookie plan = true → default (h "cookie") cv = None) →
    ∃ cache', match default (h "origin") o with
      | None => Ok (EMPTY_HEADERS_BLOCK, cache)
      | Some origin =>
        if decide (MAX_SMALL_HEADER_BYTES < zlen origin) then Ok (EMPTY_HEADERS_BLOCK, cache)
        else cachedOriginBlock scratch cache origin
      end = Ok (block (forEachSelectedHeader h plan k o cv), cache') ∧ cache_ok cache').
  { intros cv ? ? ? ? ?. rewrite select_origin_only by done.
    assert (Hu : ∀ s, default (h "origin") o = Some s → Forall is_unit s).
    { destruct o as [[t|]|]; simpl; [intros s [= ->]; by apply Ho|done|apply Hh]. }
    destruct (default (h "origin") o) as [origin|]; [|by exists cache]. simpl.
    repeat case_decide; try lia; [by exists cache|].
    destruct (cachedOriginBlock_spec scratch cache origin Hs Hc (Hu _ eq_refl)) as (c' & ? & ? & _).
    by exists c'. }
  assert (Hgeneral : ∀ cv, (∀ s, cv = Some (Some s) → Forall is_unit s) →
    ∃ cache', ('(pos, buf) ← write_pairs scratch 2 (forEachSelectedHeader h plan k o cv);
       if decide (forEachSelectedHeader h plan k o cv = []) then Ok (EMPTY_HEADERS_BLOCK, cache)
       else buf ← dv_set 2 buf 0 (zlen (forEachSelectedHeader h plan k o cv));
            Ok (subarray buf 0 pos, cache)) =
      Ok (block (forEachSelectedHeader h plan k o cv), cache') ∧ cache_ok cache').
  { intros cv Hcv. exists cache. split; [|done].
    destruct (block_written scratch (forEachSelectedHeader h plan k o cv) Hs) as (pos & buf & -> & Hb);
      [by apply selected_ok|]. rewrite bind_ret. cbv beta iota.
    case_decide as E; [by rewrite E|].
    destruct (dv_set 2 buf 0 _) as [b|]; [|done]. rewrite bind_ret in Hb. rewrite bind_ret. by injection Hb as ->. }
  unfold gatherRawHeadersPacked. destruct (cookie plan) eqn:E1, (cors plan) eqn:E2,
    (proxy plan) eqn:E3, (proto plan) eqn:E4; simpl; try by apply Hgeneral.
  - destruct (bool_decide (k ≠ OPTIONS)) eqn:Ek; [|by apply Hgeneral].
    apply bool_decide_eq_true in Ek. destruct (h "cookie") as [c|] eqn:Eck.
    + destruct (Hgeneral (Some (Some c))) as (c' & H1 & H2); [intros s [= <-]; by eapply Hh|].
      exists c'. split; [|done]. rewrite H1.
      unfold forEachSelectedHeader. simpl. by rewrite Eck.
    + by apply (Horigin None).
  - destruct (bool_decide (k ≠ OPTIONS)) eqn:Ek; [|by apply Hgeneral].
    apply bool_decide_eq_true in Ek. by apply (Horigin None).
  - exists cache. unfold forEachSelectedHeader. rewrite E1, E2, E3, E4. done.
Qed.

Definition headers0 (n : string) : option (list Z) :=
  if decide (n = "origin") then Some (js "https://a.example") else None.

Lemma gather_is_reference_witness :
  ∃ cache', gatherRawHeadersPacked (replicate 64 7) [] headers0 (Plan true true false false) 0 None =
    Ok (block [(HDR_ORIGIN, js "https://a.example")], cache') ∧ cache_ok cache'.
Proof.
  apply (gather_is_reference (replicate 64 7) [] headers0 (Plan true true false false) 0 None).
  - vm_compute. discriminate.
  - constructor; [constructor|vm_compute; discriminate|intros o b H; inversion H].
  - intros n s. unfold headers0. case_decide; [|done]. intros [= <-]. apply (js_unit "https://a.example").
  - done.
Defined.

(** The size guards are enough: with header values of one byte per
    character, as HTTP delivers them, the whole block stays below the native
    core's limit of 65536 bytes. *)
Theorem block_below_native_limit (h : string → option (list Z)) (plan : HeaderPlan) (k : Z) :
  (∀ n s, h n = Some s → Forall (λ u, 0 ≤ u < 256) s) →
  zlen (block (forEachSelectedHeader h plan k None None)) ≤ 65536.
Proof.
  intros Hh.
  assert (V : ∀ name max n, 0 ≤ max →
    zlen (visit name max (h n) ≫= hdr_pair) ≤ 6 + zlen name + 2 * max).
  { intros name max n Hmax. destruct (h n) as [s|] eqn:E; simpl; [|zlia].
    case_decide; [|simpl; zlia]. cbn [mbind list_bind]. rewrite app_nil_r.
    unfold hdr_pair, layout_item. cbn [fst snd]. rewrite !zlen_app, !zlen_le_bytes.
    pose proof (encodeUtf8_len2 s (Hh n s E)). lia. }
  assert (N : ∀ (b : bool) l m, 0 ≤ m → zlen (l ≫= hdr_pair) ≤ m →
                zlen ((if b then l else []) ≫= hdr_pair) ≤ m).
  { intros [] l m ? ?; [done|]. simpl. zlia. }
  unfold block, forEachSelectedHeader. simpl default.
  rewrite zlen_app, zlen_le_bytes, !bind_app, !zlen_app.
  unfold MAX_COOKIE_HEADER_BYTES, MAX_SMALL_HEADER_BYTES, MAX_XFF_HEADER_BYTES in *.
  pose proof (V HDR_COOKIE 8192 "cookie" ltac:(lia)) as B1.
  apply (N (cookie plan)) in B1; [|zlia].
  pose proof (V HDR_ORIGIN 2048 "origin" ltac:(lia)) as B2.
  pose proof (V HDR_ACRM 2048 "access-control-request-method" ltac:(lia)) as B3.
  pose proof (V HDR_ACRH 2048 "access-control-request-headers" ltac:(lia)) as B4.
  pose proof (V HDR_XFF 8192 "x-forwarded-for" ltac:(lia)) as B5.
  pose proof (V HDR_XRI 2048 "x-real-ip" ltac:(lia)) as B6.
  pose proof (V HDR_XFP 2048 "x-forwarded-proto" ltac:(lia)) as B7.
  change (zlen HDR_COOKIE) with 6 in B1. change (zlen HDR_ORIGIN) with 6 in B2.
  change (zlen HDR_ACRM) with 29 in B3. change (zlen HDR_ACRH) with 30 in B4.
  change (zlen HDR_XFF) with 15 in B5. change (zlen HDR_XRI) with 9 in B6.
  change (zlen HDR_XFP) with 17 in B7.
  destruct (cors plan), (proxy plan), (proto plan); try case_decide;
    rewrite ?bind_app, ?zlen_app; simpl zlen in *; zlia.
Qed.

Lemma block_below_native_limit_witness :
  zlen (block (forEachSelectedHeader headers0 (Plan true true true true) 6 None None)) ≤ 65536.
Proof.
  apply (block_below_native_limit headers0 (Plan true true true true) 6).
  intros n s. unfold headers0. case_decide; [|done]. intros [= <-]. vm_compute.
  repeat constructor; discriminate.
Defined.

End Select.

(** ** The native side of the frame (rust/ingress/packed.rs, pipeline.rs) *)
Module Native.
Import Packer Select.

(** [read_u32_at] and [read_section]: the value and the position after it. *)
Definition read_u32_at (input : list Z) (pos : Z) : option (Z * Z) :=
  if decide (zlen input < pos + 4) then None
  else match dv_get 4 input pos with Ok v => Some (v, pos + 4) | Throw _ => None end.

Definition read_section (input : list Z) (pos max : Z) : option (list Z * Z) :=
  match read_u32_at input pos with
  | None => None
  | Some (len, pos) =>
      if decide (max < len) then None
      else if decide (zlen input < pos + len) then None
      else Some (subarray input pos (pos + len), pos + len)
  end.

(** [handle_packed]'s reading of a frame: the terminal status on the first
    section that does not read, else the components. *)
Definition read_frame (max_url max_headers : Z) (input : list Z)
    : Z + (Z * list Z * list Z * list Z * list Z) :=
  let mk := byte_or_0 input 0 in
  match read_section input 1 max_url with
  | None => inl 414
  | Some (url, pos) =>
      match read_section input pos 128 with
      | None => inl 400
      | Some (ip, pos) =>
          match read_section input pos 128 with
          | None => inl 400
          | Some (rid, pos) =>
              match read_section input pos max_headers with
              | None => inl 431
              | Some (headers, _) => inr (mk, url, ip, rid, headers)
              end
          end
      end
  end.

(** [build_packed_input_sync] on already encoded header pairs. *)
Definition build_packed_input_sync (method_kind : Z) (url ip rid : list Z)
    (headers : list (list Z * list Z)) : list Z :=
  let headers_section := le_bytes 2 (zlen headers) ++
    (headers ≫= λ '(name, value),
       le_bytes 2 (zlen name) ++ name ++ le_bytes 4 (zlen value) ++ value) in
  [method_kind] ++ le_bytes 4 (zlen url) ++ url ++ le_bytes 4 (zlen ip) ++ ip ++
  le_bytes 4 (zlen rid) ++ rid ++ le_bytes 4 (zlen headers_section) ++ headers_section.

Lemma read_section_layout (pre item post : list Z) (max : Z) :
  zlen item ≤ max → fits item →
  read_section (pre ++ layout_item item ++ post) (zlen pre) max =
  Some (item, zlen (pre ++ layout_item item)).
Proof.
  unfold fits. intros Hm Hf. unfold read_section, read_u32_at, layout_item.
  rewrite <-app_assoc. rewrite decide_False by (rewrite !zlen_app, zlen_le_bytes; zlia).
  rewrite dv_get_app by (rewrite ?pow256_4; zlia).
  rewrite decide_False by lia. rewrite decide_False by (rewrite !zlen_app, zlen_le_bytes; zlia).
  rewrite (app_assoc pre (le_bytes 4 _)).
  rewrite (subarray_app (pre ++ le_bytes 4 (zlen item)) item post); rewrite ?zlen_app, ?zlen_le_bytes; try lia.
  do 2 f_equal. lia.
Qed.

Lemma block_native (ps : list (list Z * list Z)) :
  block ps = le_bytes 2 (zlen ps) ++
    (((λ p, (p.1, encodeUtf8 p.2)) <$> ps) ≫= λ '(name, value),
       le_bytes 2 (zlen name) ++ name ++ le_bytes 4 (zlen value) ++ value).
Proof.
  unfold block. f_equal. induction ps as [|[n v] ps IH]; [done|].
  rewrite fmap_cons, !bind_cons, IH. f_equal.
Qed.

(** C36. The three packing methods build byte for byte the frame the native core
    builds from the same components, from any state of the reused packer: after
    any number of earlier requests, growths and stale bytes included. *)
Theorem packer_builds_native_frame (p : IngressInputPacker) (k : Z) (url : list Z)
    (ip : option (list Z)) (rid : list Z) (ps : list (list Z * list Z)) :
  packer_ok p → 0 ≤ k < 256 → Forall is_unit url → Forall is_unit (default [] ip) →
  Forall is_unit rid →
  let f := build_packed_input_sync k (encodeUtf8 url) (ip_bytes ip) (encodeUtf8 rid)
             ((λ p, (p.1, encodeUtf8 p.2)) <$> ps) in
  (∃ p', packParts p k url ip (encodeUtf8 rid) (block ps) = Ok (f, p') ∧ packer_ok p') ∧
  (∃ p', packFromStrings p k url ip (Some rid) (block ps) = Ok (f, p') ∧ packer_ok p') ∧
  (∃ p', pack p k (encodeUtf8 url) (ip_bytes ip) (encodeUtf8 rid) (block ps) = Ok (f, p') ∧ packer_ok p').
Proof.
  intros Hok Hk Hu Hi Hr f.
  assert (Ef : f = frame k (encodeUtf8 url) (ip_bytes ip) (encodeUtf8 rid) (block ps)).
  { unfold f, build_packed_input_sync, frame. cbv zeta. rewrite zlen_fmap, <-block_native. unfold layout_item.
    change 0xff with (Z.ones 8). rewrite Z.land_ones, Z.mod_small by (change (2 ^ 8) with 256; lia).
    by rewrite <-!app_assoc. }
  rewrite Ef. split; [by apply packParts_frame|]. split; [|by apply pack_frame].
  by apply packFromStrings_frame.
Qed.

Lemma packer_builds_native_frame_witness :
  ∃ p', packParts (newIngressInputPacker 0) 2 (js "/a") None (encodeUtf8 (js "id")) (block []) =
        Ok (build_packed_input_sync 2 (encodeUtf8 (js "/a")) (ip_bytes None) (encodeUtf8 (js "id")) [], p') ∧
        packer_ok p'.
Proof.
  apply (packer_builds_native_frame (newIngressInputPacker 0) 2 (js "/a") None (js "id") []).
  - apply new_ok.
  - lia.
  - apply (js_unit "/a").
  - constructor.
  - apply (js_unit "id").
Defined.

Lemma read_frame_frame (k : Z) (url ip rid headers : list Z) (max_url max_headers : Z) :
  0 ≤ k < 256 → fits url → fits headers → max_url < U32 → max_headers < U32 →
  zlen ip ≤ 128 → zlen rid ≤ 128 →
  read_frame max_url max_headers (frame k url ip rid headers) =
  if decide (max_url < zlen url) then inl 414
  else if decide (max_headers < zlen headers) then inl 431
  else inr (k, url, ip, rid, headers).
Proof.
  intros Hk Hfu Hfh Hmu Hmh Hi Hr. unfold frame, read_frame.
  assert (Hfi : fits ip) by (unfold fits, U32; lia). assert (Hfr : fits rid) by (unfold fits, U32; lia).
  assert (Ek : Z.land k 0xff = k).
  { change 0xff with (Z.ones 8). rewrite Z.land_ones, Z.mod_small by (change (2 ^ 8) with 256; lia). done. }
  rewrite Ek. change (byte_or_0 ([k] ++ _) 0) with k.
  assert (Hover : ∀ pre item post max, max < zlen item → fits item →
    read_section (pre ++ layout_item item ++ post) (zlen pre) max = None).
  { intros pre item post max Hm Hf. unfold fits in Hf. unfold read_section, read_u32_at, layout_item.
    rewrite <-app_assoc. rewrite decide_False by (rewrite !zlen_app, zlen_le_bytes; zlia).
    rewrite dv_get_app by (rewrite ?pow256_4; zlia). by rewrite decide_True. }
  change 1 with (zlen [k]) at 1. case_decide as Hdu; [by rewrite Hover|].
  rewrite read_section_layout by (lia || done). rewrite (app_assoc [k]).
  rewrite read_section_layout by done. rewrite (app_assoc ([k] ++ _)).
  rewrite read_section_layout by done. rewrite (app_assoc (([k] ++ _) ++ _)).
  rewrite <-(app_nil_r (layout_item headers)).
  case_decide as Hdh; [by rewrite Hover|]. rewrite read_section_layout by (lia || done). done.
Qed.

(** The native reader gets back every component of a frame the packer built
    whose sections respect its limits; a URL over the limit is answered with 414
    and an oversized header block with 431. *)
Theorem native_reads_frame (p p' : IngressInputPacker) (k : Z) (url : list Z) (ip : option (list Z))
    (rid headers f : list Z) (max_url max_headers : Z) :
  packer_ok p → 0 ≤ k < 256 → Forall is_unit url → Forall is_unit (default [] ip) →
  fits (encodeUtf8 url) → fits headers → max_url < U32 → max_headers < U32 →
  zlen (ip_bytes ip) ≤ 128 → zlen rid ≤ 128 →
  packParts p k url ip rid headers = Ok (f, p') →
  read_frame max_url max_headers f =
  if decide (max_url < zlen (encodeUtf8 url)) then inl 414
  else if decide (max_headers < zlen headers) then inl 431
  else inr (k, encodeUtf8 url, ip_bytes ip, rid, headers).
Proof.
  intros Hok Hk Hu Hi ??????. destruct (packParts_frame p k url ip rid headers) as (q & -> & _); try done.
  intros [= <- _]. by apply read_frame_frame.
Qed.

Lemma native_reads_frame_witness :
  match packParts (newIngressInputPacker 0) 2 (js "/a") None [50] [0; 0] with
  | Ok (f, _) => read_frame 65536 65536 f = inr (2, js "/a", js "0.0.0.0", [50], [0; 0])
  | Throw _ => False
  end.
Proof.
  destruct (packParts (newIngressInputPacker 0) 2 (js "/a") None [50] [0; 0]) as [[f p']|e] eqn:E.
  - rewrite (native_reads_frame (newIngressInputPacker 0) p' 2 (js "/a") None [50] [0; 0] f 65536 65536
      (new_ok 0) ltac:(lia) (js_unit "/a") (Forall_nil_2 _) ltac:(reflexivity) ltac:(reflexivity)
      ltac:(reflexivity) ltac:(reflexivity) ltac:(discriminate) ltac:(discriminate) E).
    vm_compute. reflexivity.
  - vm_compute in E. discriminate.
Defined.

End Native.
