(* ===== verification/RouteWire.v ===== *)
(** The per-route native stack: descriptor, frame and result wire
    (src/ingress/packing/route-wire.ts) and the compiled route with its growing
    output buffer and its handle (src/ingress/native-route.ts).  The native
    calls are parameters; what the code relies on is the needed-size
    convention, stated as [needed_size]. *)
From S2P Require Import Prelude.
From S2P Require Import Utf8.
From S2P Require Import JsObject.
From S2P Require Import Wire.

(** ** Writing at a moving position *)

Definition cursor : Type := list Z * Z.

Definition put (n : nat) (v : Z) (c : cursor) : result cursor :=
  b ← dv_set n c.1 c.2 v; Ok (b, c.2 + Z.of_nat n).
Definition put_bytes (bs : list Z) (c : cursor) : result cursor :=
  b ← ta_set c.1 bs c.2; Ok (b, c.2 + zlen bs).

Definition at_frontier (pre rest : list Z) : cursor := (pre ++ rest, zlen pre).

Lemma put_frontier (n : nat) (v : Z) (pre rest : list Z) :
  Z.of_nat n ≤ zlen rest →
  put n v (at_frontier pre rest) = Ok (at_frontier (pre ++ le_bytes n v) (drop n rest)).
Proof.
  intros Hr. unfold put, at_frontier. simpl. rewrite dv_set_frontier by done. simpl.
  by rewrite zlen_app, zlen_le_bytes, <-app_assoc.
Qed.

Lemma put_bytes_frontier (bs pre rest : list Z) :
  zlen bs ≤ zlen rest →
  put_bytes bs (at_frontier pre rest) = Ok (at_frontier (pre ++ bs) (drop (length bs) rest)).
Proof.
  intros Hr. unfold put_bytes, at_frontier. simpl. rewrite ta_set_frontier by done. simpl.
  by rewrite zlen_app, <-app_assoc.
Qed.

(** ** Descriptor *)

Definition ROUTE_DESC_MAGIC : Z := 0x524f5554.
Definition ROUTE_DESC_VERSION : Z := 3.

Inductive ROUTE_STAGE :=
| S_parseQuery | S_parseCookies | S_validateQuery | S_validateCookies | S_validateBody | S_requireJsonBody.
Definition stage_tag (s : ROUTE_STAGE) : Z :=
  match s with
  | S_parseQuery => 0 | S_parseCookies => 1 | S_validateQuery => 2
  | S_validateCookies => 3 | S_validateBody => 4 | S_requireJsonBody => 5
  end.
Definition ROUTE_PART_body : Z := 3.
Definition ROUTE_FRAME_FLAG_HAS_BODY : Z := 1.

Record RouteWireLimits := Limits {
  maxBodyBytes : Z; maxQueryBytes : Z; maxCookieBytes : Z; maxPairs : Z }.
Record RouteWireSchema := Schema { part : Z; schema_bytes : list Z }.

Fixpoint put_all {A} (f : A → cursor → result cursor) (l : list A) (c : cursor) : result cursor :=
  match l with [] => Ok c | x :: l => c ← f x c; put_all f l c end.

Definition put_schema (s : RouteWireSchema) (c : cursor) : result cursor :=
  c ← put 1 (part s) c; c ← put 4 (zlen (schema_bytes s)) c; put_bytes (schema_bytes s) c.

Definition encodeRouteDescriptor (pipeline : list ROUTE_STAGE) (schemas : list RouteWireSchema)
    (limits : RouteWireLimits) : result (list Z) :=
  let total := foldl (λ t s, t + (1 + 4 + zlen (schema_bytes s))) (8 + 16 + 4 + zlen pipeline + 4) schemas in
  c ← put 4 ROUTE_DESC_MAGIC (new_u8 total, 0);
  c ← put 4 ROUTE_DESC_VERSION c;
  c ← put_all (put 4) [maxBodyBytes limits; maxQueryBytes limits; maxCookieBytes limits; maxPairs limits] c;
  c ← put 4 (zlen pipeline) c;
  c ← put_all (λ s, put 1 (stage_tag s)) pipeline c;
  c ← put 4 (zlen schemas) c;
  c ← put_all put_schema schemas c;
  Ok c.1.

(** ** Request frame *)

Definition packRouteFrame (query cookie : list Z) (body : option (list Z)) : result (list Z) :=
  let q := encodeUtf8 query in
  let c := encodeUtf8 cookie in
  let b := default [] body in
  let hasBody := bool_decide (0 < zlen b) in
  let total := 4 + 4 + zlen q + 4 + zlen c + (if hasBody then 4 + zlen b else 0) in
  k ← put 4 (if hasBody then ROUTE_FRAME_FLAG_HAS_BODY else 0) (new_u8 total, 0);
  k ← put 4 (zlen q) k;
  k ← put_bytes q k;
  k ← put 4 (zlen c) k;
  k ← put_bytes c k;
  if hasBody then k ← put 4 (zlen b) k; k ← put_bytes b k; Ok k.1 else Ok k.1.

(** ** Result *)

Section result_wire.
Context `{Codec}.

Record RouteWireResult := RouteResult {
  flags : Z; errorCode : Z;
  query : list (list Z * list Z); cookie : list (list Z * list Z) }.

(** The pair loop: [subarray] clamps, so a length past the end shortens the
    string instead of failing; a count or length word past the end throws. *)
Fixpoint read_wire_pairs (n : nat) (buf : list Z) (pos : Z) : result (list (list Z * list Z) * Z) :=
  match n with
  | O => Ok ([], pos)
  | S n =>
      nameLen ← dv_get 4 buf pos;
      let pos := pos + 4 in
      let name := decodeUtf8 (subarray buf pos (pos + nameLen)) in
      let pos := pos + nameLen in
      valueLen ← dv_get 4 buf pos;
      let pos := pos + 4 in
      let value := decodeUtf8 (subarray buf pos (pos + valueLen)) in
      let pos := pos + valueLen in
      '(rest, pos) ← read_wire_pairs n buf pos;
      Ok ((name, value) :: rest, pos)
  end.

Definition readPairs (buf : list Z) (pos : Z) : result (list (list Z * list Z) * Z) :=
  count ← dv_get 4 buf pos;
  read_wire_pairs (Z.to_nat count) buf (pos + 4).

Definition decodeRouteResult (buf : list Z) (opt_query opt_cookie : bool) : result RouteWireResult :=
  flags ← dv_get 4 buf 0;
  errorCode ← dv_get 4 buf 4;
  '(q, pos) ← (if opt_query then readPairs buf 8 else Ok ([], 8));
  '(c, pos) ← (if opt_cookie then readPairs buf pos else Ok ([], pos));
  Ok (RouteResult flags errorCode q c).

(** ** The compiled route *)

Record NativeRoutePlan := Plan {
  p_parseQuery : bool; p_parseCookies : bool; p_requireJsonBody : bool; p_validateBody : bool;
  p_schema : option (list Z);
  p_maxBodyBytes : option Z; p_maxQueryBytes : option Z; p_maxCookieBytes : option Z;
  p_maxPairs : option Z }.

Definition route_limits (p : NativeRoutePlan) : RouteWireLimits :=
  Limits (default (2 * 1024 * 1024) (p_maxBodyBytes p)) (default 8192 (p_maxQueryBytes p))
    (default 8192 (p_maxCookieBytes p)) (default 0 (p_maxPairs p)).

Definition route_stages (p : NativeRoutePlan) : list ROUTE_STAGE :=
  (if p_parseQuery p then [S_parseQuery] else []) ++
  (if p_parseCookies p then [S_parseCookies] else []) ++
  (if p_validateBody p then [S_validateBody] else []) ++
  (if p_requireJsonBody p then [S_requireJsonBody] else []).

Definition route_schemas (p : NativeRoutePlan) : list RouteWireSchema :=
  match p_validateBody p, p_schema p with
  | true, Some b => [Schema ROUTE_PART_body b]
  | _, _ => []
  end.

(** The native surface.  A compile returns a handle, 0 when it failed; a run
    returns the count it reports and the buffer it filled, or throws; a log of
    the handles freed stands for [routeDestroy]'s effect. *)
Class RouteNative := {
  has_ffi : bool;
  routeCompile : list Z → Z;
  napiCompile : list Z → option Z;
  routeRun : Z → list Z → list Z → result (Z * list Z);
  napiRun : Z → list Z → list Z → result (Z * list Z) }.

Context `{RouteNative}.

Record NativeRoute := Route {
  r_parseQuery : bool; r_parseCookies : bool;
  ffiHandle : Z; napiRoute : option Z; out : list Z; freed : list Z }.

Definition createNativeRoute (p : NativeRoutePlan) : result NativeRoute :=
  descriptor ← encodeRouteDescriptor (route_stages p) (route_schemas p) (route_limits p);
  let h := if has_ffi then routeCompile descriptor else 0 in
  let napi := if negb has_ffi || bool_decide (h = 0) then napiCompile descriptor else None in
  Ok (Route (p_parseQuery p) (p_parseCookies p) h napi (new_u8 256) []).

Definition set_out (r : NativeRoute) (o : list Z) : NativeRoute :=
  Route (r_parseQuery r) (r_parseCookies r) (ffiHandle r) (napiRoute r) o (freed r).

(** Run, and once more on a buffer of the reported size. *)
Definition run_growing (run : list Z → result (Z * list Z)) (out : list Z) : result (Z * list Z) :=
  '(written, out1) ← run out;
  if decide (zlen out1 < written) then
    '(written, out2) ← run (new_u8 written);
    if decide (zlen out2 < written)
    then Throw (JsError "Error" "native route: output still too small after grow")
    else Ok (written, out2)
  else Ok (written, out1).

Definition runFrame (r : NativeRoute) (frame : list Z) : result (RouteWireResult * NativeRoute) :=
  if decide (ffiHandle r = 0 ∧ napiRoute r = None)
  then Throw (JsError "Error" "native route: already destroyed")
  else
    '(written, o) ←
      (if decide (ffiHandle r ≠ 0 ∧ has_ffi = true) then run_growing (routeRun (ffiHandle r) frame) (out r)
       else match napiRoute r with
            | Some n => run_growing (napiRun n frame) (out r)
            | None => Throw (JsError "Error" "native route: no active transport")
            end);
    res ← decodeRouteResult (subarray o 0 written) (r_parseQuery r) (r_parseCookies r);
    Ok (res, set_out r o).

Definition route_run (r : NativeRoute) (q c : list Z) (body : option (list Z))
    : result (RouteWireResult * NativeRoute) :=
  frame ← packRouteFrame q c body; runFrame r frame.

Definition destroy (r : NativeRoute) : NativeRoute :=
  let freed1 := if decide (ffiHandle r ≠ 0 ∧ has_ffi = true) then freed r ++ [ffiHandle r] else freed r in
  let h1 := if decide (ffiHandle r ≠ 0 ∧ has_ffi = true) then 0 else ffiHandle r in
  let freed2 := match napiRoute r with Some n => freed1 ++ [n] | None => freed1 end in
  Route (r_parseQuery r) (r_parseCookies r) h1 None (out r) freed2.

(** ** Layouts *)

Definition layout_descriptor (stages : list ROUTE_STAGE) (schemas : list RouteWireSchema)
    (l : RouteWireLimits) : list Z :=
  le_bytes 4 ROUTE_DESC_MAGIC ++ le_bytes 4 ROUTE_DESC_VERSION ++
  ([maxBodyBytes l; maxQueryBytes l; maxCookieBytes l; maxPairs l] ≫= le_bytes 4) ++
  le_bytes 4 (zlen stages) ++ (stages ≫= λ s, le_bytes 1 (stage_tag s)) ++
  le_bytes 4 (zlen schemas) ++
  (schemas ≫= λ s, le_bytes 1 (part s) ++ layout_item (schema_bytes s)).

Definition layout_frame (q c : list Z) (body : option (list Z)) : list Z :=
  let b := default [] body in
  le_bytes 4 (if bool_decide (0 < zlen b) then ROUTE_FRAME_FLAG_HAS_BODY else 0) ++
  layout_item (encodeUtf8 q) ++ layout_item (encodeUtf8 c) ++
  (if bool_decide (0 < zlen b) then layout_item b else []).

Definition layout_section (on : bool) (ps : list (list Z * list Z)) : list Z :=
  if on then le_bytes 4 (zlen ps) ++ layout_pairs (encode_pairs ps) else [].

Definition layout_result (flags err : Z) (oq oc : bool) (q c : list (list Z * list Z)) : list Z :=
  le_bytes 4 flags ++ le_bytes 4 err ++ layout_section oq q ++ layout_section oc c.

Lemma put_all_frontier {A} (f : A → cursor → result cursor) (g : A → list Z) (l : list A) (pre rest : list Z) :
  (∀ x pre rest, x ∈ l → zlen (g x) ≤ zlen rest →
     f x (at_frontier pre rest) = Ok (at_frontier (pre ++ g x) (drop (length (g x)) rest))) →
  zlen (l ≫= g) ≤ zlen rest →
  put_all f l (at_frontier pre rest) =
  Ok (at_frontier (pre ++ (l ≫= g)) (drop (length (l ≫= g)) rest)).
Proof.
  intros Hf. revert pre rest. induction l as [|x l IH]; intros pre rest Hle.
  { cbn. by rewrite app_nil_r. }
  rewrite bind_cons in *. rewrite zlen_app in Hle. cbn [put_all].
  rewrite Hf, bind_ret by (set_solver || zlia).
  rewrite IH; [|intros; apply Hf; [set_solver|done]|rewrite zlen_drop_length by zlia; zlia].
  by rewrite <-app_assoc, length_app, drop_drop.
Qed.

Lemma put_schema_frontier (s : RouteWireSchema) (pre rest : list Z) :
  zlen (le_bytes 1 (part s) ++ layout_item (schema_bytes s)) ≤ zlen rest →
  put_schema s (at_frontier pre rest) =
  Ok (at_frontier (pre ++ le_bytes 1 (part s) ++ layout_item (schema_bytes s))
       (drop (length (le_bytes 1 (part s) ++ layout_item (schema_bytes s))) rest)).
Proof.
  unfold layout_item. rewrite !zlen_app, !zlen_le_bytes. intros Hle. unfold put_schema.
  rewrite put_frontier, bind_ret by zlia.
  rewrite put_frontier, bind_ret by (unfold zlen in *; rewrite !length_drop; lia).
  rewrite put_bytes_frontier by (unfold zlen in *; rewrite !length_drop; lia).
  rewrite !drop_drop, <-!app_assoc, !length_app, !length_le_bytes. do 3 f_equal.
Qed.

(** The writer's room, in terms of what it has written so far. *)
Lemma finish_cursor (pre rest : list Z) :
  zlen rest = 0 → (at_frontier pre rest).1 = pre.
Proof. intros Hr. apply zlen_0 in Hr as ->. apply app_nil_r. Qed.

Lemma sum_schemas (schemas : list RouteWireSchema) (n : Z) :
  foldl (λ t s, t + (1 + 4 + zlen (schema_bytes s))) n schemas =
  n + zlen (schemas ≫= λ s, le_bytes 1 (part s) ++ layout_item (schema_bytes s)).
Proof.
  revert n. induction schemas as [|s l IH]; intros n; [cbn; zlia|].
  cbn [foldl]. rewrite IH, bind_cons. unfold layout_item at 2.
  rewrite !zlen_app, !zlen_le_bytes. lia.
Qed.

Lemma zlen_stages (stages : list ROUTE_STAGE) :
  zlen (stages ≫= λ s, le_bytes 1 (stage_tag s)) = zlen stages.
Proof. induction stages as [|s l IH]; [done|]. rewrite bind_cons, zlen_app, IH, zlen_cons. done. Qed.

Ltac room :=
  unfold zlen in *;
  repeat (rewrite length_drop || rewrite length_app || rewrite length_le_bytes);
  cbn [length]; lia.

Lemma encodeRouteDescriptor_layout (stages : list ROUTE_STAGE) (schemas : list RouteWireSchema)
    (l : RouteWireLimits) :
  encodeRouteDescriptor stages schemas l = Ok (layout_descriptor stages schemas l).
Proof.
  unfold encodeRouteDescriptor. rewrite sum_schemas.
  set (G := λ s, le_bytes 1 (part s) ++ layout_item (schema_bytes s)).
  set (n := 8 + 16 + 4 + zlen stages + 4 + zlen (schemas ≫= G)).
  assert (Hn : zlen (new_u8 n) = n) by (unfold new_u8, n; rewrite zlen_replicate; zlia).
  pose proof (zlen_nonneg stages). pose proof (zlen_nonneg (schemas ≫= G)).
  change (new_u8 n, 0) with (at_frontier [] (new_u8 n)).
  revert Hn. generalize (new_u8 n) as r0. intros r0 Hn. unfold n in Hn. clear n.
  rewrite put_frontier, bind_ret by lia. rewrite put_frontier, bind_ret by room.
  rewrite (put_all_frontier _ (le_bytes 4)), bind_ret;
    [|intros; rewrite put_frontier by (rewrite zlen_le_bytes in *; lia); by rewrite length_le_bytes
     |cbn [mbind list_bind]; room].
  rewrite put_frontier, bind_ret by (cbn [mbind list_bind]; room).
  rewrite (put_all_frontier _ (λ s, le_bytes 1 (stage_tag s))), bind_ret;
    [|intros; rewrite put_frontier by (rewrite zlen_le_bytes in *; lia); by rewrite length_le_bytes
     |rewrite zlen_stages; cbn [mbind list_bind]; room].
  pose proof (zlen_stages stages) as Hst.
  rewrite put_frontier, bind_ret by (cbn [mbind list_bind] in *; room).
  rewrite (put_all_frontier _ G), bind_ret;
    [|intros; by apply put_schema_frontier|cbn [mbind list_bind] in *; room].
  rewrite finish_cursor by (cbn [mbind list_bind] in *; room).
  unfold layout_descriptor. by rewrite <-!app_assoc.
Qed.

Lemma packRouteFrame_layout (q c : list Z) (body : option (list Z)) :
  packRouteFrame q c body = Ok (layout_frame q c body).
Proof.
  unfold packRouteFrame, layout_frame, layout_item. set (b := default [] body).
  set (Q := encodeUtf8 q). set (C := encodeUtf8 c).
  pose proof (zlen_nonneg Q). pose proof (zlen_nonneg C). pose proof (zlen_nonneg b).
  set (n := 4 + 4 + zlen Q + 4 + zlen C + _).
  assert (Hn : zlen (new_u8 n) = n)
    by (unfold new_u8, n; rewrite zlen_replicate; case_bool_decide; lia).
  change (new_u8 n, 0) with (at_frontier [] (new_u8 n)).
  revert Hn. generalize (new_u8 n) as r0. intros r0 Hn. unfold n in Hn. clear n.
  case_bool_decide as Hb; (rewrite put_frontier, bind_ret by lia);
    (rewrite put_frontier, bind_ret by room); (rewrite put_bytes_frontier, bind_ret by room);
    (rewrite put_frontier, bind_ret by room); (rewrite put_bytes_frontier, bind_ret by room).
  - rewrite put_frontier, bind_ret by room. rewrite put_bytes_frontier, bind_ret by room.
    rewrite finish_cursor by room. by rewrite <-!app_assoc.
  - rewrite finish_cursor by room. by rewrite app_nil_r, <-!app_assoc.
Qed.

(** ** Reading a result back *)

Lemma read_wire_pairs_layout (ps : list (list Z * list Z)) (pre post : list Z) :
  Forall (λ p, fits p.1 ∧ fits p.2) ps →
  read_wire_pairs (length ps) (pre ++ layout_pairs ps ++ post) (zlen pre) =
  Ok ((λ p, (decodeUtf8 p.1, decodeUtf8 p.2)) <$> ps, zlen (pre ++ layout_pairs ps)).
Proof.
  intros Hf. revert pre. induction Hf as [|[k v] ps [Hk Hv] Hf IH]; intros pre.
  { cbn. by rewrite app_nil_r. }
  cbn [fst snd] in *. unfold fits in Hk, Hv. cbn [read_wire_pairs length].
  rewrite layout_pairs_cons. unfold layout_item. rewrite <-!app_assoc.
  rewrite dv_get_app, bind_ret by (rewrite ?pow256_4; zlia).
  rewrite (app_assoc pre). rewrite (subarray_app _ k) by (rewrite zlen_app, zlen_le_bytes; lia).
  rewrite (app_assoc (pre ++ _) k).
  rewrite dv_get_app, bind_ret by (rewrite ?pow256_4, ?zlen_app, ?zlen_le_bytes; zlia).
  rewrite (app_assoc ((pre ++ _) ++ k)).
  rewrite (subarray_app _ v) by (rewrite !zlen_app, !zlen_le_bytes; lia).
  rewrite (app_assoc (((pre ++ _) ++ k) ++ _)).
  replace (zlen pre + 4 + zlen k + 4 + zlen v)
    with (zlen ((((pre ++ le_bytes 4 (zlen k)) ++ k) ++ le_bytes 4 (zlen v)) ++ v))
    by (rewrite !zlen_app, !zlen_le_bytes; lia).
  rewrite IH. rewrite bind_ret. cbn [fmap list_fmap fst snd]. rewrite <-!app_assoc. done.
Qed.

Lemma readPairs_layout (ps : list (list Z * list Z)) (pre post : list Z) :
  fits ps → Forall pair_text_ok ps →
  readPairs (pre ++ layout_section true ps ++ post) (zlen pre) =
  Ok (ps, zlen (pre ++ layout_section true ps)).
Proof.
  unfold fits. intros Hn Hps. unfold readPairs, layout_section. rewrite <-app_assoc.
  rewrite dv_get_app, bind_ret by (rewrite ?pow256_4; zlia). rewrite (app_assoc pre).
  replace (zlen pre + 4) with (zlen (pre ++ le_bytes 4 (zlen ps))) by (rewrite zlen_app, zlen_le_bytes; lia).
  replace (Z.to_nat (zlen ps)) with (length (encode_pairs ps))
    by (unfold encode_pairs, zlen; rewrite length_fmap; lia).
  rewrite read_wire_pairs_layout.
  - rewrite decode_encode_pairs by done. by rewrite <-app_assoc.
  - unfold encode_pairs. apply Forall_fmap. eapply Forall_impl; [exact Hps|].
    intros p (_ & _ & ? & ?). done.
Qed.

(** What the code relies on: a run reports the size it needs; it fills the
    buffer when it fits and leaves the length alone. *)
Definition needed_size (run : list Z → result (Z * list Z)) (res : list Z) : Prop :=
  ∀ buf, ∃ buf', run buf = Ok (zlen res, buf') ∧ zlen buf' = zlen buf ∧
    (zlen res ≤ zlen buf → ∃ rest, buf' = res ++ rest).

Lemma run_growing_result (run : list Z → result (Z * list Z)) (res out : list Z) :
  needed_size run res →
  ∃ o, run_growing run out = Ok (zlen res, o) ∧ (∃ rest, o = res ++ rest).
Proof.
  intros Hrun. unfold run_growing. destruct (Hrun out) as (o1 & -> & Hl & Hfit). rewrite bind_ret.
  cbv beta iota. case_decide as Hd; [|exists o1; split; [done|apply Hfit; lia]].
  destruct (Hrun (new_u8 (zlen res))) as (o2 & -> & Hl2 & Hfit2). rewrite bind_ret. cbv beta iota.
  assert (Hz : zlen (new_u8 (zlen res)) = zlen res)
    by (unfold new_u8; rewrite zlen_replicate; zlia).
  rewrite decide_False by lia. exists o2. split; [done|apply Hfit2; lia].
Qed.

(** ** Theorems *)

(** Encoding a plan and a request never fails and yields the documented
    layouts: the descriptor (magic, version, limits, stages, schemas) and the
    frame, whose flag word and body section appear exactly for a non-empty
    body. *)
Theorem route_wire_layout (stages : list ROUTE_STAGE) (schemas : list RouteWireSchema)
    (l : RouteWireLimits) (q c : list Z) (body : option (list Z)) :
  encodeRouteDescriptor stages schemas l = Ok (layout_descriptor stages schemas l) ∧
  packRouteFrame q c body = Ok (layout_frame q c body).
Proof. split; [apply encodeRouteDescriptor_layout|apply packRouteFrame_layout]. Qed.

(** A live route returns the decoded verdict of the native run whatever the
    size of its reused output buffer, growing it at most once: when the native
    side answers the packed frame with a result wire for the plan's sections,
    [run] returns exactly its flags, error code and pairs. *)
Theorem route_run_decodes (r : NativeRoute) (q c : list Z) (body : option (list Z))
    (fl err : Z) (qs cs : list (list Z * list Z)) :
  ffiHandle r ≠ 0 ∧ has_ffi = true ∨ ffiHandle r = 0 ∧ napiRoute r ≠ None →
  (∀ run, run = routeRun (ffiHandle r) ∨ (∃ n, napiRoute r = Some n ∧ run = napiRun n) →
     needed_size (run (layout_frame q c body))
       (layout_result fl err (r_parseQuery r) (r_parseCookies r) qs cs)) →
  0 ≤ fl < U32 → 0 ≤ err < U32 → fits qs → fits cs →
  Forall pair_text_ok qs → Forall pair_text_ok cs →
  ∃ o, route_run r q c body =
    Ok (RouteResult fl err (if r_parseQuery r then qs else []) (if r_parseCookies r then cs else []),
        set_out r o).
Proof.
  intros Hlive Hrun Hfl Herr Hq Hc Hqs Hcs. unfold route_run. rewrite packRouteFrame_layout, bind_ret.
  unfold runFrame. rewrite decide_False by naive_solver.
  set (res := layout_result _ _ _ _ _ _) in *.
  assert (∃ o, (if decide (ffiHandle r ≠ 0 ∧ has_ffi = true)
       then run_growing (routeRun (ffiHandle r) (layout_frame q c body)) (out r)
       else match napiRoute r with
            | Some n => run_growing (napiRun n (layout_frame q c body)) (out r)
            | None => Throw (JsError "Error" "native route: no active transport")
            end) = Ok (zlen res, o) ∧ ∃ rest, o = res ++ rest) as (o & -> & rest & ->).
  { case_decide as Hd; [apply run_growing_result, Hrun; by left|].
    destruct (napiRoute r) as [n|]; [|naive_solver].
    apply run_growing_result, Hrun. right. by exists n. }
  rewrite bind_ret. cbv beta iota. rewrite subarray_prefix.
  assert (Hdec : decodeRouteResult res (r_parseQuery r) (r_parseCookies r) =
    Ok (RouteResult fl err (if r_parseQuery r then qs else []) (if r_parseCookies r then cs else []))).
  { unfold decodeRouteResult, res, layout_result. unfold U32 in *.
    pose proof (dv_get_app 4 [] (le_bytes 4 err ++ layout_section (r_parseQuery r) qs ++
      layout_section (r_parseCookies r) cs) 0 fl eq_refl) as R1. rewrite app_nil_l in R1.
    rewrite R1, bind_ret by (rewrite pow256_4; unfold U32; lia).
    rewrite dv_get_app, bind_ret by first [reflexivity | rewrite pow256_4; unfold U32; lia].
    rewrite app_assoc. set (hd := le_bytes 4 fl ++ le_bytes 4 err).
    change 8 with (zlen hd). destruct (r_parseQuery r).
    - rewrite readPairs_layout, bind_ret by done. cbv beta iota. destruct (r_parseCookies r).
      + rewrite app_assoc. rewrite <-(app_nil_r (layout_section true cs)) at 1.
        rewrite readPairs_layout, bind_ret by done. done.
      + by rewrite bind_ret.
    - rewrite bind_ret. cbv beta iota. cbn [layout_section app]. destruct (r_parseCookies r).
      + rewrite <-(app_nil_r (layout_section true cs)) at 1.
        rewrite readPairs_layout, bind_ret by done. done.
      + by rewrite bind_ret. }
  rewrite Hdec, bind_ret. eauto.
Qed.

(** [destroy] frees each native handle the route owns exactly once, however
    often it is called, and every run after it throws without reaching the
    native side. *)
Theorem route_destroy_once (p : NativeRoutePlan) (r : NativeRoute) (frame : list Z) :
  createNativeRoute p = Ok r →
  let r' := destroy r in
  destroy r' = r' ∧
  freed r' = (if decide (ffiHandle r = 0) then [] else [ffiHandle r]) ++
             (match napiRoute r with Some n => [n] | None => [] end) ∧
  runFrame r' frame = Throw (JsError "Error" "native route: already destroyed").
Proof.
  unfold createNativeRoute. rewrite encodeRouteDescriptor_layout, bind_ret.
  intros [= <-]. cbv zeta. set (d := layout_descriptor _ _ _).
  unfold destroy, runFrame; simpl.
  destruct has_ffi eqn:Ef; simpl; [|destruct (napiCompile d); by split_and!].
  destruct (decide (routeCompile d = 0)) as [E|E].
  - rewrite (bool_decide_eq_true_2 _ E), E. simpl. destruct (napiCompile d); by split_and!.
  - rewrite (bool_decide_eq_false_2 _ E). split_and!; repeat case_decide; naive_solver.
Qed.

End result_wire.

(** A native side that answers every frame with flags 1, no error and no
    pairs, and hands out handle 7. *)
Definition answer (buf : list Z) : list Z :=
  if decide (16 ≤ zlen buf) then (le_bytes 4 1 ++ le_bytes 4 0 ++ le_bytes 4 0 ++ le_bytes 4 0) ++ drop 16 buf
  else buf.
Definition native0 : RouteNative := {|
  has_ffi := true; routeCompile _ := 7; napiCompile _ := None;
  routeRun _ _ buf := Ok (16, answer buf); napiRun _ _ buf := Ok (16, answer buf) |}.

Lemma route_run_decodes_witness :
  ∃ o, @route_run bun_codec native0 (Route true true 7 None [] []) (js "a=1") (js "") None =
       Ok (RouteResult 1 0 [] [], set_out (Route true true 7 None [] []) o).
Proof.
  apply (@route_run_decodes bun_codec native0 (Route true true 7 None [] []) (js "a=1") (js "") None 1 0 [] []).
  - left. done.
  - intros run Hrun buf. assert (Hr : ∀ f, run f buf = Ok (16, answer buf)).
    { destruct Hrun as [->|(n & Hn & ->)]; [done|discriminate]. }
    rewrite Hr. exists (answer buf). split; [done|]. unfold answer. case_decide as Hd.
    + split; [rewrite zlen_app, (zlen_drop 16) by lia; change (zlen (_ ++ _)) with 16; lia|]. eauto.
    + split; [done|]. intros H. exfalso. apply Hd. exact H.
  - unfold U32. lia.
  - unfold U32. lia.
  - unfold fits, U32. simpl. zlia.
  - unfold fits, U32. simpl. zlia.
  - constructor.
  - constructor.
Defined.

Definition plan0 : NativeRoutePlan := Plan true false false false None None None None None.
Definition route0 : NativeRoute := Route true false 7 None (new_u8 256) [].

Lemma route_destroy_once_witness :
  @createNativeRoute native0 plan0 = Ok route0 ∧ freed (@destroy native0 route0) = [7].
Proof.
  assert (E : @createNativeRoute native0 plan0 = Ok route0) by (vm_compute; reflexivity).
  split; [exact E|]. exact (proj1 (proj2 (@route_destroy_once bun_codec native0 plan0 route0 [] E))).
Defined.
