(* ===== verification/Ops.v ===== *)
(** The loader's op registry (src/loader/ops.ts) and the packed batch calls
    behind it (src/rust-ffi/batch/build.ts, src/shared/packed/schema.ts).

    The native addon is a parameter: [native] is the native branch of a scalar
    client method, [addon] the packed batch functions (bytes in, bytes out),
    [addon_into] their variants that write into a caller's buffer.  So are
    Bun's own functions behind the adapter of src/runtime/builtins.ts ([bun],
    absent on Node).  The scalar client [rust] is defined from them: under Bun
    the ops of [BUILTIN_OPS] are delegated, and nothing says that a builtin
    answers the bytes the native batch answers (gzip headers differ).  What the
    loader relies on is the contract [NativeOk], about the batches alone: a
    packed batch answers, in the layout of its kind, what the same batch
    function answers for each item by itself.  The registry theorem checks the
    wiring of every coalescible op: scalar call, packed call, reader and output
    size belong together. *)

From S2P Require Import Prelude.
From S2P Require Import JsMap.
From S2P Require Import Utf8.
From S2P Require Import Wire.

(** Results of native calls, and their arguments after the packed buffer. *)
Inductive value :=
  | VUndefined | VNull | VBool (b : bool) | VNum (z : Z) | VBig (z : Z)
  | VStr (s : list Z) | VBytes (b : list Z).

Inductive arg :=
  | AUndefined | ANull | ABool (b : bool) | ANum (z : Z) | AStr (s : list Z)
  | ABytes (b : list Z) | ABytesList (bs : list (list Z))
  | AObject (id : nat)          (* a validator handle or an options object *)
  | AJson (text : list Z).      (* [JSON.parse] of the text *)

#[export] Instance value_eq_dec : EqDecision value.
Proof. solve_decision. Defined.

(** Bulk results: the typed arrays of [rust.batch.*]. *)
Inductive bulk :=
  | BU8 (l : list Z) | BU32 (l : list Z) | BI64 (l : list Z) | BU64 (l : list Z)
  | BArr (l : list value) | BParts (l : list (list MultipartPart)).

Inductive LoaderResultKind := BOOLEAN | NUMBER | BIGINT | BYTES.

(** [args[k]], [a ?? null] and [a ?? undefined]. *)
Definition arg_at (args : list arg) (k : nat) : arg := default AUndefined (args !! k).
Definition or_null (a : arg) : arg := match a with AUndefined => ANull | _ => a end.
Definition or_undefined (a : arg) : arg := match a with ANull => AUndefined | _ => a end.
Definition arg_items (a : arg) : list (list Z) :=
  match a with ABytesList bs => bs | _ => [] end.
Definition arg_bytes (a : arg) : list Z := match a with ABytes b => b | _ => [] end.

Record LoaderFastSpec := Fast {
  f_batch : list Z → list Z → result (list Z);   (* packed, output ↦ output after *)
  f_element : list Z → Z → result value;
  f_outSize : Z → Z;
}.

(** A bulk call also threads the pack scratch's free list. *)
Definition batch_call : Type := list (list Z) → result bulk * list (list Z).

Record LoaderOpSpec := Spec {
  kind : LoaderResultKind;
  unsigned : bool;
  pairedRest : list nat;
  scalar : list Z → list arg → result value;
  batch : list (list Z) → list arg → batch_call;
  element : bulk → Z → value;
  fast : option LoaderFastSpec;
}.

(** ** Element readers *)

Definition at_index (l : list Z) (i : Z) : option Z :=
  if decide (0 ≤ i) then l !! Z.to_nat i else None.

Definition boolElem (b : bulk) (index : Z) : value :=
  match b with
  | BU8 l => VBool (bool_decide (default 0 (at_index l index) = 1))
  | _ => VBool false
  end.
Definition numElem (b : bulk) (index : Z) : value :=
  match b with BU32 l => from_option VNum VUndefined (at_index l index) | _ => VUndefined end.
Definition bigElem (b : bulk) (index : Z) : value :=
  match b with
  | BI64 l | BU64 l => from_option VBig VUndefined (at_index l index)
  | _ => VUndefined
  end.
Definition byteElem (b : bulk) (index : Z) : value :=
  match b with
  | BArr l => if decide (0 ≤ index)
              then default VUndefined (l !! Z.to_nat index) else VUndefined
  | _ => VUndefined
  end.

Definition boolFast (output : list Z) (index : Z) : result value :=
  Ok (VBool (bool_decide
    (Z.land (Z.shiftr (default 0 (at_index output (4 + Z.shiftr index 3))) (Z.land index 7)) 1 = 1))).
Definition bitsetOutSize (count : Z) : Z := 4 + (count + 7) / 8.
Definition u32Fast (output : list Z) (index : Z) : result value :=
  VNum <$> dv_get 4 output (4 + index * 4).
Definition u32OutSize (count : Z) : Z := 4 + count * 4.
Definition i64Fast (output : list Z) (index : Z) : result value :=
  (VBig ∘ to_i64) <$> dv_get 8 output (4 + index * 8).
Definition u64Fast (output : list Z) (index : Z) : result value :=
  VBig <$> dv_get 8 output (4 + index * 8).
Definition i64OutSize (count : Z) : Z := 4 + count * 8.

(** [asBytes]: string results become their UTF-8 bytes. *)
Definition asBytes (v : value) : value :=
  match v with VStr s => VBytes (encodeUtf8 s) | _ => v end.

(** ** The native side *)

Record Natives := {
  bun : option (string → list arg → result value);
  native : string → list arg → result value;
  addon : string → list arg → result (list Z);
  addon_into : string → list Z → list Z → result (list Z);
  validator_validate : nat → list Z → result bool;
  validateBatchPackedBitset : nat → list Z → result (list Z);
  validateBatchPackedCount : nat → list Z → result Z;
  nowSeconds : Z;                  (* [Math.floor(Date.now() / 1000)] *)
}.

(** The delegated ops (src/runtime/builtins.ts). *)
Definition BUILTIN_OPS : list string :=
  ["gzipCompress"; "crc32"; "randomToken"; "hmacSha256"; "xxh3"; "urlEncode"; "urlDecode";
   "base64Encode"; "base64UrlEncode"; "hexEncode"; "httpDate"]%string.

(** [builtins.has(op)]: the registry is empty on Node. *)
Definition builtins_has (N : Natives) (op : string) : bool :=
  match bun N with Some _ => existsb (String.eqb op) BUILTIN_OPS | None => false end.

(** [urlSafe || padding === false], where the base64 builtin declines. *)
Definition arg_truthy (a : arg) : bool :=
  match a with
  | AUndefined | ANull => false
  | ABool b => b
  | ANum z => negb (z =? 0)
  | AStr s => negb (bool_decide (s = []))
  | _ => true
  end.
Definition base64_declines (args : list arg) : bool :=
  arg_truthy (arg_at args 1) || match arg_at args 2 with ABool b => negb b | _ => false end.

(** [rust.<method>(...args)]: the builtin under Bun, the native branch otherwise. *)
Definition rust (N : Natives) (name : string) (args : list arg) : result value :=
  match bun N with
  | Some builtin =>
      if existsb (String.eqb name) BUILTIN_OPS
         && negb (String.eqb name "base64Encode" && base64_declines args)
      then builtin name args else native N name args
  | None => native N name args
  end.
#[global] Arguments rust : simpl never.

Section registry.
Context `{Codec} (N : Natives).

Definition assertNonEmptySecret (secret : arg) (op : string) : result unit :=
  guard_ok (negb (bool_decide (zlen (arg_bytes secret) = 0)))
    (JsError "Error" (op +:+ ": secret must not be empty")).

(** Throwing before the packed call leaves the scratch alone. *)
Definition guarded (g : result unit) (k : batch_call) : batch_call :=
  λ free, match g with Ok _ => k free | Throw e => (Throw e, free) end.

Definition via (name : string) (unpack : list Z → result bulk) (extras : list arg)
    (items : list (list Z)) : batch_call :=
  withPackScratch items (λ packed, addon N name (ABytes packed :: extras) ≫= unpack).

Definition via2 (name : string) (unpack : list Z → result bulk) (extras : list arg)
    (a b : list (list Z)) : batch_call :=
  withPackScratch2 a b (λ packedA packedB,
    addon N name (ABytes packedA :: ABytes packedB :: extras) ≫= unpack).

Definition schemaValidateBatch (validator : nat) (items : list (list Z)) : batch_call :=
  withPackScratch items (λ packed,
    p ← validateBatchPackedBitset N validator packed; BU8 <$> unpackBitset p).

Definition schemaValidateBatchCount (validator : nat) (items : list (list Z))
    : list (list Z) → result Z * list (list Z) :=
  withPackScratch items (λ packed, validateBatchPackedCount N validator packed).

Definition un_bits (p : list Z) : result bulk := BU8 <$> unpackBitset p.
Definition un_u32 (p : list Z) : result bulk := BU32 <$> unpackU32Array p.
Definition un_i64 (p : list Z) : result bulk := BI64 <$> unpackI64ArrayAsBigInt p.
Definition un_u64 (p : list Z) : result bulk := BU64 <$> unpackU64ArrayAsBigInt p.
Definition un_bytes (p : list Z) : result bulk := (λ l, BArr (VBytes <$> l)) <$> unpackByteResults p.
Definition un_parts (p : list Z) : result bulk := BParts <$> unpackMultipartParts p.

(** One method of [buildBatch] as a function of its arguments. *)
Definition on_items (f : list (list Z) → list arg → batch_call) (args : list arg) : batch_call :=
  f (arg_items (arg_at args 0)) (drop 1 args).
Definition plain (name : string) (unpack : list Z → result bulk) : list arg → batch_call :=
  on_items (λ items _, via name unpack [] items).
Definition object_id (a : arg) : nat := match a with AObject i => i | _ => O end.

Definition buildBatch : list (string * (list arg → batch_call)) :=
  [("jsonValid", plain "jsonValidBatchPacked" un_bits);
   ("crc32", plain "crc32BatchPacked" un_u32);
   ("validateEmail", plain "validateEmailBatchPacked" un_bits);
   ("validateUuid", plain "validateUuidBatchPacked" un_bits);
   ("validateIpv4", plain "validateIpv4BatchPacked" un_bits);
   ("validateIpv6", plain "validateIpv6BatchPacked" un_bits);
   ("jsonSumIds", plain "jsonSumBatchPacked" un_i64);
   ("queryParse", plain "queryParseBatchPacked" un_bytes);
   ("cookieParse", plain "cookieParseBatchPacked" un_bytes);
   ("formParse", plain "formParseBatchPacked" un_bytes);
   ("signCookie", on_items (λ items a, via "signCookieBatchPacked" un_bytes [arg_at a 0] items));
   ("verifyCookie", on_items (λ items a, via "verifyCookieBatchPacked" un_bits [arg_at a 0] items));
   ("csrfVerify", on_items (λ items a, via "csrfVerifyBatchPacked" un_bits [arg_at a 0] items));
   ("httpParseRequest", plain "httpParseRequestBatchPacked" un_bytes);
   ("fnv1a64", plain "fnv1A64BatchPacked" un_u64);
   ("etag", on_items (λ items a, via "etagBatchPacked" un_bytes [or_null (arg_at a 0)] items));
   ("urlEncode", plain "urlEncodeBatchPacked" un_bytes);
   ("urlDecode", plain "urlDecodeBatchPacked" un_bytes);
   ("urlDecodeBytes", plain "urlDecodeBytesBatchPacked" un_bytes);
   ("mimeFromExtension", plain "mimeFromExtensionBatchPacked" un_bytes);
   ("wsAcceptKey", plain "wsAcceptKeyBatchPacked" un_bytes);
   ("base64UrlEncode", on_items (λ items _,
      via "base64EncodeBatchPacked" un_bytes [ABool true; ABool false] items));
   ("base64UrlDecode", on_items (λ items _,
      via "base64DecodeBatchPacked" un_bytes [ABool true; ABool false] items));
   ("jsonPatch", on_items (λ docs a,
      via2 "jsonPatchBatchPacked" un_bytes [] docs (arg_items (arg_at a 0))));
   ("hexEncode", plain "hexEncodeBatchPacked" un_bytes);
   ("hexDecode", plain "hexDecodeBatchPacked" un_bytes);
   ("base64Encode", on_items (λ items a,
      via "base64EncodeBatchPacked" un_bytes [or_null (arg_at a 0); or_null (arg_at a 1)] items));
   ("base64Decode", on_items (λ items a,
      via "base64DecodeBatchPacked" un_bytes [or_null (arg_at a 0); or_null (arg_at a 1)] items));
   ("schemaValidate", λ args,
      schemaValidateBatch (object_id (arg_at args 0)) (arg_items (arg_at args 1)));
   ("passwordHash", on_items (λ items a,
      via "passwordHashBatchPacked" un_bytes [arg_at a 0; or_null (arg_at a 1)] items));
   ("aeadEncrypt", λ args,
      via "aeadEncryptBatchPacked" un_bytes
        [arg_at args 0; arg_at args 1; or_null (arg_at args 3)] (arg_items (arg_at args 2)));
   ("aeadDecrypt", λ args,
      via "aeadDecryptBatchPacked" un_bytes
        [arg_at args 0; arg_at args 1; or_null (arg_at args 3)] (arg_items (arg_at args 2)));
   ("gzipCompress", on_items (λ items a,
      via "gzipCompressBatchPacked" un_bytes [or_null (arg_at a 0)] items));
   ("gzipDecompress", on_items (λ items a,
      via "gzipDecompressBatchPacked" un_bytes [or_null (arg_at a 0)] items));
   ("brotliCompress", on_items (λ items a,
      via "brotliCompressBatchPacked" un_bytes [or_null (arg_at a 0)] items));
   ("brotliDecompress", on_items (λ items a,
      via "brotliDecompressBatchPacked" un_bytes [or_null (arg_at a 0)] items));
   ("jwtVerify", on_items (λ items a,
      guarded (assertNonEmptySecret (arg_at a 0) "batch.jwtVerify")
        (via "jwtVerifyBatchPacked" un_bits [arg_at a 0; arg_at a 1] items)));
   ("hmacSha256", on_items (λ items a,
      guarded (assertNonEmptySecret (arg_at a 0) "batch.hmacSha256")
        (via "hmacSha256BatchPacked" un_bytes [arg_at a 0] items)));
   ("hmacSha256Verify", on_items (λ items a,
      guarded (assertNonEmptySecret (arg_at a 1) "batch.hmacSha256Verify")
        (via2 "hmacSha256VerifyBatchPacked" un_bits [arg_at a 1] items (arg_items (arg_at a 0)))));
   ("passwordVerify", on_items (λ items a,
      via2 "passwordVerifyBatchPacked" un_bits [] items (arg_items (arg_at a 0))));
   ("urlResolve", on_items (λ bases a,
      via2 "urlResolveBatchPacked" un_bytes [] bases (arg_items (arg_at a 0))));
   ("templateRender", λ args,
      via "templateRenderBatchPacked" un_bytes [arg_at args 0] (arg_items (arg_at args 1)));
   ("jwtSign", on_items (λ items a,
      guarded (assertNonEmptySecret (arg_at a 0) "batch.jwtSign")
        (via "jwtSignBatchPacked" un_bytes
           [arg_at a 0; or_null (arg_at a 1);
            match or_null (arg_at a 2) with ANull => ANum (nowSeconds N) | t => t end] items)));
   ("sseEncode", on_items (λ items a,
      via "sseEncodeBatchPacked" un_bytes
        [or_null (arg_at a 0); or_null (arg_at a 1); or_null (arg_at a 2)] items));
   ("wsFrameEncode", on_items (λ items a,
      via "wsFrameEncodeBatchPacked" un_bytes [arg_at a 0; arg_at a 1; arg_at a 2] items));
   ("wsFrameDecode", plain "wsFrameDecodeBatchPacked" un_bytes);
   ("multipartParse", on_items (λ items a,
      via "multipartParseBatchPacked" un_parts [arg_at a 0] items))]%string.

(** [rust.batch.<method>(...args)]. *)
Definition rust_batch (method : string) (args : list arg) : batch_call :=
  match mget method buildBatch with
  | Some f => f args
  | None => λ free, (Throw (TypeError (method +:+ " is not a function")), free)
  end.

(** ** The registry *)

Definition fastInto (name : string) : list Z → list Z → result (list Z) := addon_into N name.

(** [(packed, output) => fastInto('fnv1A64BatchPackedInto')(packed, output)]. *)
Definition fnvBatchKeysInto (packed output : list Z) : result (list Z) :=
  fastInto "fnv1A64BatchPackedInto" packed output.

Definition op_fast (k : LoaderResultKind) (u : bool) (scalar_name : string)
    (el : bulk → Z → value) (into : string)
    (fel : list Z → Z → result value) (size : Z → Z) : LoaderOpSpec :=
  Spec k u [] (λ i _, rust N scalar_name [ABytes i])
    (λ items _, rust_batch scalar_name [ABytesList items]) el
    (Some (Fast (fastInto into) fel size)).

(** An op without extra arguments and without a fast path. *)
Definition op_bytes (scalar_name batch_name : string) : LoaderOpSpec :=
  Spec BYTES false [] (λ i _, rust N scalar_name [ABytes i])
    (λ items _, rust_batch batch_name [ABytesList items]) byteElem None.

(** An op that passes [n] extra arguments through after its input. *)
Definition op_rest (k : LoaderResultKind) (el : bulk → Z → value) (n : nat) (name : string)
    : LoaderOpSpec :=
  let extras rest := arg_at rest <$> seq 0 n in
  Spec k false [] (λ i rest, rust N name (ABytes i :: extras rest))
    (λ items rest, rust_batch name (ABytesList items :: extras rest)) el None.

Definition fast_ops : list (string * LoaderOpSpec) :=
  [("crc32", op_fast NUMBER false "crc32" numElem "crc32BatchPackedInto" u32Fast u32OutSize);
   ("fnv1a64", op_fast BIGINT true "fnv1a64" bigElem "fnv1A64BatchPackedInto" u64Fast i64OutSize);
   ("jsonValid", op_fast BOOLEAN false "jsonValid" boolElem "jsonValidBatchPackedInto"
      boolFast bitsetOutSize);
   ("jsonSumIds", op_fast BIGINT false "jsonSumIds" bigElem "jsonSumBatchPackedInto"
      i64Fast i64OutSize);
   ("validateEmail", op_fast BOOLEAN false "validateEmail" boolElem "validateEmailBatchPackedInto"
      boolFast bitsetOutSize);
   ("validateUuid", op_fast BOOLEAN false "validateUuid" boolElem "validateUuidBatchPackedInto"
      boolFast bitsetOutSize);
   ("validateIpv4", op_fast BOOLEAN false "validateIpv4" boolElem "validateIpv4BatchPackedInto"
      boolFast bitsetOutSize);
   ("validateIpv6", op_fast BOOLEAN false "validateIpv6" boolElem "validateIpv6BatchPackedInto"
      boolFast bitsetOutSize)]%string.

Definition byte_ops : list (string * LoaderOpSpec) :=
  [("queryParse", op_bytes "queryParsePacked" "queryParse");
   ("cookieParse", op_bytes "cookieParsePacked" "cookieParse");
   ("formParse", op_bytes "formParsePacked" "formParse");
   ("httpParseRequest", op_bytes "httpParseRequestPacked" "httpParseRequest");
   ("hexEncode", op_bytes "hexEncode" "hexEncode");
   ("hexDecode", op_bytes "hexDecode" "hexDecode");
   ("base64Encode", op_rest BYTES byteElem 2 "base64Encode");
   ("base64Decode", op_rest BYTES byteElem 2 "base64Decode");
   ("base64UrlEncode", op_bytes "base64UrlEncode" "base64UrlEncode");
   ("base64UrlDecode", op_bytes "base64UrlDecode" "base64UrlDecode");
   ("gzipCompress", op_rest BYTES byteElem 1 "gzipCompress");
   ("gzipDecompress", op_bytes "gzipDecompress" "gzipDecompress");
   ("brotliCompress", op_rest BYTES byteElem 1 "brotliCompress");
   ("brotliDecompress", op_bytes "brotliDecompress" "brotliDecompress");
   ("etag", Spec BYTES false []
      (λ i rest, rust N "etag" [ABytes i; or_undefined (arg_at rest 0)])
      (λ items rest, rust_batch "etag" [ABytesList items; arg_at rest 0]) byteElem None);
   ("urlEncode", op_bytes "urlEncode" "urlEncode");
   ("urlDecode", op_bytes "urlDecode" "urlDecode");
   ("urlDecodeBytes", op_bytes "urlDecodeBytes" "urlDecodeBytes");
   ("wsAcceptKey", op_bytes "wsAcceptKey" "wsAcceptKey");
   ("mimeFromExtension", op_bytes "mimeFromExtension" "mimeFromExtension")]%string.

(** [scalar(...) !== null] and [scalar(...) ?? EMPTY_BYTES]. *)
Definition is_valid (v : value) : value :=
  VBool (match v with VNull => false | _ => true end).
Definition or_empty (v : value) : value :=
  match v with VNull | VUndefined => VBytes [] | _ => v end.

(** Ops with required or per-item arguments. *)
Definition arg_ops : list (string * LoaderOpSpec) :=
  [("signCookie", op_rest BYTES byteElem 1 "signCookie");
   ("verifyCookie", Spec BOOLEAN false []
      (λ i rest, is_valid <$> rust N "verifyCookie" [ABytes i; arg_at rest 0])
      (λ items rest, rust_batch "verifyCookie" [ABytesList items; arg_at rest 0]) boolElem None);
   ("csrfVerify", op_rest BOOLEAN boolElem 1 "csrfVerify");
   ("passwordHash", op_rest BYTES byteElem 2 "passwordHash");
   ("passwordVerify", Spec BOOLEAN false [0%nat]
      (λ i rest, rust N "passwordVerify" [ABytes i; arg_at rest 0])
      (λ items rest, rust_batch "passwordVerify" [ABytesList items; arg_at rest 0]) boolElem None);
   ("aeadEncrypt", Spec BYTES false []
      (λ i r, rust N "aeadEncrypt" [arg_at r 0; arg_at r 1; ABytes i; arg_at r 2])
      (λ items r, rust_batch "aeadEncrypt" [arg_at r 0; arg_at r 1; ABytesList items; arg_at r 2])
      byteElem None);
   ("aeadDecrypt", Spec BYTES false []
      (λ i r, or_empty <$> rust N "aeadDecrypt" [arg_at r 0; arg_at r 1; ABytes i; arg_at r 2])
      (λ items r, rust_batch "aeadDecrypt" [arg_at r 0; arg_at r 1; ABytesList items; arg_at r 2])
      byteElem None);
   ("jwtSign", Spec BYTES false []
      (λ i r, rust N "jwtSign" [AJson (decodeUtf8 i); arg_at r 0; arg_at r 1; arg_at r 2])
      (λ items r, rust_batch "jwtSign" [ABytesList items; arg_at r 0; arg_at r 1; arg_at r 2])
      byteElem None);
   ("jwtVerify", Spec BOOLEAN false []
      (λ i r, is_valid <$> rust N "jwtVerify" [ABytes i; arg_at r 0; arg_at r 1])
      (λ items r, rust_batch "jwtVerify"
         [ABytesList items; arg_at r 0;
          match or_null (arg_at r 1) with ANull => ANum (nowSeconds N) | t => t end])
      boolElem None);
   ("jsonPatch", Spec BYTES false [0%nat]
      (λ i r, rust N "jsonPatch" [ABytes i; arg_at r 0])
      (λ items r, rust_batch "jsonPatch" [ABytesList items; arg_at r 0]) byteElem None);
   ("urlResolve", Spec BYTES false [0%nat]
      (λ i r, rust N "urlResolve" [arg_at r 0; ABytes i])
      (λ items r, rust_batch "urlResolve" [arg_at r 0; ABytesList items]) byteElem None);
   ("wsFrameEncode", Spec BYTES false []
      (λ i r, rust N "wsFrameEncode" [arg_at r 0; ABytes i; arg_at r 1; arg_at r 2])
      (λ items r, rust_batch "wsFrameEncode"
         [ABytesList items; arg_at r 0; arg_at r 1; arg_at r 2]) byteElem None);
   ("sseEncode", Spec BYTES false []
      (λ i r, rust N "sseEncodeEvent"
         [or_null (arg_at r 0); ABytes i; or_null (arg_at r 1); or_null (arg_at r 2)])
      (λ items r, rust_batch "sseEncode" [ABytesList items; arg_at r 0; arg_at r 1; arg_at r 2])
      byteElem None);
   ("schemaValidate", Spec BOOLEAN false []
      (λ i r, VBool <$> validator_validate N (object_id (arg_at r 0)) i)
      (λ items r, rust_batch "schemaValidate" [arg_at r 0; ABytesList items]) boolElem None);
   ("hmacSha256", Spec BYTES false []
      (λ i r, rust N "hmacSha256" [arg_at r 0; ABytes i])
      (λ items r, rust_batch "hmacSha256" [ABytesList items; arg_at r 0]) byteElem None);
   ("hmacSha256Verify", Spec BOOLEAN false [1%nat]
      (λ i r, rust N "hmacSha256Verify" [arg_at r 0; ABytes i; arg_at r 1])
      (λ items r, rust_batch "hmacSha256Verify" [ABytesList items; arg_at r 1; arg_at r 0])
      boolElem None)]%string.

Definition LOADER_OPS : list (string * LoaderOpSpec) := fast_ops ++ byte_ops ++ arg_ops.

(** [LOADER_OPS[op]]. *)
Definition op_spec (op : string) : option LoaderOpSpec := mget op LOADER_OPS.

(** ** The scalar loop of [scalarLoopBulk] (src/loader/index.ts) *)

(** Stores into the typed arrays of a bulk result; a number op returns numbers
    (the conversion of strings and arrays to numbers is not needed). *)
Definition truthy (v : value) : bool :=
  match v with
  | VUndefined | VNull => false
  | VBool b => b
  | VNum z | VBig z => bool_decide (z ≠ 0)
  | VStr s => bool_decide (s ≠ [])
  | VBytes _ => true
  end.
Definition store_u32 (v : value) : result Z :=
  match v with
  | VNum z => Ok (to_u32 z)
  | VBool b => Ok (Z.b2z b)
  | VBig _ => Throw (TypeError "Cannot convert a BigInt value to a number")
  | _ => Ok 0
  end.
Definition store_big (u : bool) (v : value) : result Z :=
  match v with
  | VBig z => Ok (if u then z mod 2 ^ 64 else to_i64 (z mod 2 ^ 64))
  | VBool b => Ok (Z.b2z b)
  | _ => Throw (TypeError "Cannot convert to a BigInt")
  end.
Definition store_bytes (v : value) : result value := Ok (asBytes v).

(** [itemRest(i)]: paired ops take the [i]-th companion. *)
Definition itemRest (paired : list nat) (rest : list arg) (i : nat) : list arg :=
  if decide (paired = []) then rest
  else imap (λ idx r, if decide (idx ∈ paired)
                      then from_option ABytes AUndefined (arg_items r !! i) else r) rest.

Definition each_scalar {A} (spec : LoaderOpSpec) (store : value → result A) (rest : list arg)
    (items : list (list Z)) : result (list A) :=
  mapM (λ p : nat * list Z, v ← scalar spec p.2 (itemRest (pairedRest spec) rest p.1); store v)
    (imap pair items).

Definition scalarLoopBulk (spec : LoaderOpSpec) (items : list (list Z)) (rest : list arg)
    : result bulk :=
  match kind spec with
  | BOOLEAN => BU8 <$> each_scalar spec (λ v, Ok (Z.b2z (truthy v))) rest items
  | NUMBER => BU32 <$> each_scalar spec store_u32 rest items
  | BIGINT => (if unsigned spec then BU64 else BI64) <$>
                each_scalar spec (store_big (unsigned spec)) rest items
  | BYTES => BArr <$> each_scalar spec store_bytes rest items
  end.

End registry.

(** ** The contract of the native side

    One row per op that [load] accepts: how the scalar client is called, the
    packed batch function and its extra arguments, its [_into] variant. *)

Record native_row := Row {
  r_op : string; r_kind : LoaderResultKind; r_unsigned : bool;
  r_scalar : string; r_args : list Z → list arg;
  r_packed : string; r_extras : list arg;
  r_into : option string;
}.

Definition just (i : list Z) : list arg := [ABytes i].
Definition fast_row (k : LoaderResultKind) (u : bool) (op packed : string) : native_row :=
  Row op k u op just packed [] (Some (packed +:+ "Into")).
Definition bytes_row (op scalar packed : string) : native_row :=
  Row op BYTES false scalar just packed [] None.

Definition load_rows : list native_row :=
  [fast_row NUMBER false "crc32" "crc32BatchPacked";
   fast_row BIGINT true "fnv1a64" "fnv1A64BatchPacked";
   fast_row BOOLEAN false "jsonValid" "jsonValidBatchPacked";
   fast_row BIGINT false "jsonSumIds" "jsonSumBatchPacked";
   fast_row BOOLEAN false "validateEmail" "validateEmailBatchPacked";
   fast_row BOOLEAN false "validateUuid" "validateUuidBatchPacked";
   fast_row BOOLEAN false "validateIpv4" "validateIpv4BatchPacked";
   fast_row BOOLEAN false "validateIpv6" "validateIpv6BatchPacked";
   bytes_row "queryParse" "queryParsePacked" "queryParseBatchPacked";
   bytes_row "cookieParse" "cookieParsePacked" "cookieParseBatchPacked";
   bytes_row "formParse" "formParsePacked" "formParseBatchPacked";
   bytes_row "httpParseRequest" "httpParseRequestPacked" "httpParseRequestBatchPacked";
   bytes_row "hexEncode" "hexEncode" "hexEncodeBatchPacked";
   bytes_row "hexDecode" "hexDecode" "hexDecodeBatchPacked";
   Row "base64Encode" BYTES false "base64Encode" (λ i, [ABytes i; AUndefined; AUndefined])
     "base64EncodeBatchPacked" [ANull; ANull] None;
   Row "base64Decode" BYTES false "base64Decode" (λ i, [ABytes i; AUndefined; AUndefined])
     "base64DecodeBatchPacked" [ANull; ANull] None;
   Row "base64UrlEncode" BYTES false "base64UrlEncode" just
     "base64EncodeBatchPacked" [ABool true; ABool false] None;
   Row "base64UrlDecode" BYTES false "base64UrlDecode" just
     "base64DecodeBatchPacked" [ABool true; ABool false] None;
   Row "gzipCompress" BYTES false "gzipCompress" (λ i, [ABytes i; AUndefined])
     "gzipCompressBatchPacked" [ANull] None;
   Row "gzipDecompress" BYTES false "gzipDecompress" just "gzipDecompressBatchPacked" [ANull] None;
   Row "brotliCompress" BYTES false "brotliCompress" (λ i, [ABytes i; AUndefined])
     "brotliCompressBatchPacked" [ANull] None;
   Row "brotliDecompress" BYTES false "brotliDecompress" just
     "brotliDecompressBatchPacked" [ANull] None;
   Row "etag" BYTES false "etag" (λ i, [ABytes i; AUndefined]) "etagBatchPacked" [ANull] None;
   bytes_row "urlEncode" "urlEncode" "urlEncodeBatchPacked";
   bytes_row "urlDecode" "urlDecode" "urlDecodeBatchPacked";
   bytes_row "urlDecodeBytes" "urlDecodeBytes" "urlDecodeBytesBatchPacked";
   bytes_row "wsAcceptKey" "wsAcceptKey" "wsAcceptKeyBatchPacked";
   bytes_row "mimeFromExtension" "mimeFromExtension" "mimeFromExtensionBatchPacked";
   Row "sseEncode" BYTES false "sseEncodeEvent" (λ i, [ANull; ABytes i; ANull; ANull])
     "sseEncodeBatchPacked" [ANull; ANull; ANull] None]%string.

(** Values of a kind, and the packed layout of a list of them. *)
Definition value_ok (k : LoaderResultKind) (u : bool) (v : value) : Prop :=
  match k, v with
  | BOOLEAN, VBool _ => True
  | NUMBER, VNum z => 0 ≤ z < U32
  | BIGINT, VBig z => if u then 0 ≤ z < 2 ^ 64 else -2 ^ 63 ≤ z < 2 ^ 63
  | BYTES, VBytes b => fits b
  | _, _ => False
  end.

Definition v_num (v : value) : Z := match v with VNum z | VBig z => z | _ => 0 end.
Definition v_bytes (v : value) : list Z := match v with VBytes b => b | _ => [] end.

(** Bit [i] of the bitset is item [i]. *)
Definition bits_val (bs : list bool) : Z := foldr (λ b acc, Z.b2z b + 2 * acc) 0 bs.

Definition packed_result (k : LoaderResultKind) (vs : list value) : list Z :=
  match k with
  | BOOLEAN => le_bytes 4 (zlen vs) ++
                 le_bytes (Z.to_nat ((zlen vs + 7) / 8)) (bits_val (truthy <$> vs))
  | NUMBER => le_bytes 4 (zlen vs) ++ ((v_num <$> vs) ≫= le_bytes 4)
  | BIGINT => le_bytes 4 (zlen vs) ++ ((v_num <$> vs) ≫= le_bytes 8)
  | BYTES => layout_batch (v_bytes <$> vs)
  end.

Definition row_scalar (N : Natives) (r : native_row) (i : list Z) : result value :=
  asBytes <$> rust N (r_scalar r) (r_args r i).

(** ** Each kind reads back its packed layout *)

Definition bulk_of (k : LoaderResultKind) (u : bool) (vs : list value) : bulk :=
  match k with
  | BOOLEAN => BU8 ((λ v, Z.b2z (truthy v)) <$> vs)
  | NUMBER => BU32 (v_num <$> vs)
  | BIGINT => (if u then BU64 else BI64) (v_num <$> vs)
  | BYTES => BArr vs
  end.

Definition unpack_of `{Codec} (k : LoaderResultKind) (u : bool) : list Z → result bulk :=
  match k with
  | BOOLEAN => un_bits
  | NUMBER => un_u32
  | BIGINT => if u then un_u64 else un_i64
  | BYTES => un_bytes
  end.
Definition element_of (k : LoaderResultKind) : bulk → Z → value :=
  match k with
  | BOOLEAN => boolElem | NUMBER => numElem | BIGINT => bigElem | BYTES => byteElem
  end.
Definition fast_of (k : LoaderResultKind) (u : bool) : list Z → Z → result value :=
  match k with
  | BOOLEAN => boolFast | NUMBER => u32Fast
  | BIGINT => if u then u64Fast else i64Fast
  | BYTES => λ _ _, Ok VUndefined
  end.
Definition size_of (k : LoaderResultKind) : Z → Z :=
  match k with
  | BOOLEAN => bitsetOutSize | NUMBER => u32OutSize | BIGINT => i64OutSize | BYTES => λ _, 0
  end.

(** What the packed batch function of a row answers for one item by itself. *)
Definition row_batch `{Codec} (N : Natives) (r : native_row) (i : list Z) : result value :=
  p ← addon N (r_packed r) (ABytes (layout_batch [i]) :: r_extras r);
  b ← unpack_of (r_kind r) (r_unsigned r) p;
  Ok (element_of (r_kind r) b 0).

(** The contract of a row: scalar and batch answers are values of the kind, and
    a batch over many items answers each as it does alone, also through its
    [Into] variant.  It does not relate the batch to the scalar. *)
Record row_ok `{Codec} (N : Natives) (r : native_row) : Prop := {
  rw_scalar : ∀ i v, row_scalar N r i = Ok v → value_ok (r_kind r) (r_unsigned r) v;
  rw_item : ∀ i v, fits i → row_batch N r i = Ok v → value_ok (r_kind r) (r_unsigned r) v;
  rw_batch : ∀ items vs, fits items → Forall fits items → mapM (row_batch N r) items = Ok vs →
    addon N (r_packed r) (ABytes (layout_batch items) :: r_extras r) =
      Ok (packed_result (r_kind r) vs);
  rw_into : ∀ items vs into out, fits items → Forall fits items →
    mapM (row_batch N r) items = Ok vs → r_into r = Some into →
    zlen (packed_result (r_kind r) vs) ≤ zlen out →
    addon_into N into (layout_batch items) out = Ok (splice out 0 (packed_result (r_kind r) vs));
}.

Definition NativeOk `{Codec} (N : Natives) : Prop := Forall (row_ok N) load_rows.

Lemma testbit_bits_val (bs : list bool) (i : nat) :
  Z.testbit (bits_val bs) (Z.of_nat i) = default false (bs !! i).
Proof.
  revert i. induction bs as [|b bs IH]; intros i; [by rewrite Z.bits_0|].
  cbn [bits_val foldr]. rewrite (Z.add_comm (Z.b2z b)). destruct i as [|i].
  - apply Z.testbit_0_r.
  - rewrite Nat2Z.inj_succ, Z.testbit_succ_r by lia. apply IH.
Qed.

Lemma bits_val_bound (bs : list bool) : 0 ≤ bits_val bs < 2 ^ zlen bs.
Proof.
  induction bs as [|b bs IH]; [done|]. cbn [bits_val foldr]. fold (bits_val bs).
  rewrite zlen_cons, Z.pow_add_r by (zlen_facts; lia). change (2 ^ 1) with 2.
  destruct b; simpl Z.b2z; lia.
Qed.

(** The bits of the bytes written for a bitset. *)
Lemma testbit_bitset (bs : list bool) (n : nat) (i : nat) (b : bool) :
  zlen bs ≤ 8 * Z.of_nat n → bs !! i = Some b →
  Z.testbit (le_val (le_bytes n (bits_val bs))) (Z.of_nat i) = b.
Proof.
  intros Hn Hi. rewrite le_val_le_bytes. apply lookup_lt_Some in Hi as Hlt.
  change 256 with (2 ^ 8). rewrite <-Z.pow_mul_r by lia.
  rewrite Z.mod_pow2_bits_low by (unfold zlen in Hn; lia).
  by rewrite testbit_bits_val, Hi.
Qed.

Lemma at_index_nat (l : list Z) (i : nat) : at_index l (Z.of_nat i) = l !! i.
Proof. unfold at_index. rewrite decide_True by lia. by rewrite Nat2Z.id. Qed.

Lemma number_values (u : bool) (vs : list value) :
  Forall (value_ok NUMBER u) vs → Forall (λ z, 0 ≤ z < U32) (v_num <$> vs).
Proof. intros H. apply Forall_fmap. eapply Forall_impl; [done|]. by intros []. Qed.

Lemma bigint_values (u : bool) (vs : list value) :
  Forall (value_ok BIGINT u) vs →
  Forall (λ z, if u then 0 ≤ z < 2 ^ 64 else -2 ^ 63 ≤ z < 2 ^ 63) (v_num <$> vs).
Proof. intros H. apply Forall_fmap. eapply Forall_impl; [done|]. by intros []. Qed.

Lemma bytes_values (u : bool) (vs : list value) :
  Forall (value_ok BYTES u) vs →
  Forall fits (v_bytes <$> vs) ∧ VBytes <$> (v_bytes <$> vs) = vs.
Proof.
  induction 1 as [|v vs Hv _ [IH1 IH2]]; [done|]. destruct v; try done.
  split; [by constructor|]. csimpl. by rewrite IH2.
Qed.

Lemma fits_fmap {A B} (f : A → B) (l : list A) : fits l → fits (f <$> l).
Proof. unfold fits. by rewrite zlen_fmap. Qed.

(** The bulk unpacker of a kind reads its packed layout. *)
Lemma unpack_packed `{Codec} (k : LoaderResultKind) (u : bool) (vs : list value) :
  fits vs → Forall (value_ok k u) vs →
  unpack_of k u (packed_result k vs) = Ok (bulk_of k u vs).
Proof.
  intros Hf Hvs. pose proof (zlen_nonneg vs) as Hn.
  destruct k; cbn [unpack_of packed_result bulk_of].
  - unfold un_bits. rewrite unpackBitset_layout by (unfold fits in Hf; auto with castrum).
    rewrite zlen_le_bytes, decide_False by (Z.div_mod_to_equations; lia).
    csimpl. do 2 f_equal.
    apply list_eq. intros i. rewrite !list_lookup_fmap.
    destruct (vs !! i) as [v|] eqn:Hi.
    + apply lookup_lt_Some in Hi as Hlt.
      rewrite lookup_seqZ_lt by (unfold zlen; lia). csimpl. rewrite Z.add_0_l. do 2 f_equal.
      apply testbit_bitset; [rewrite zlen_fmap; Z.div_mod_to_equations; lia|].
      by rewrite list_lookup_fmap, Hi.
    + apply lookup_ge_None in Hi. by rewrite lookup_seqZ_ge by (unfold zlen; lia).
  - unfold un_u32. rewrite <-(zlen_fmap v_num vs), <-(app_nil_r (_ ≫= _)).
    rewrite unpackU32_layout; [done|by apply fits_fmap|by eapply number_values].
  - apply bigint_values in Hvs. rewrite <-(zlen_fmap v_num vs), <-(app_nil_r (_ ≫= _)).
    destruct u; [unfold un_u64; pose proof (unpackU64_layout (v_num <$> vs) [] (fits_fmap _ _ Hf) Hvs) as E
                |unfold un_i64; pose proof (unpackI64_layout (v_num <$> vs) [] (fits_fmap _ _ Hf) Hvs) as E];
      unfold packed64 in E; by rewrite E.
  - destruct (bytes_values u vs Hvs) as [Hb E]. unfold un_bytes.
    rewrite <-(app_nil_r (layout_batch _)).
    rewrite unpackByteResults_layout by (try apply fits_fmap; done). simpl. by rewrite E.
Qed.

(** The element readers of a kind read both of its layouts. *)
Lemma element_bulk (k : LoaderResultKind) (u : bool) (vs : list value) (i : nat) (v : value) :
  value_ok k u v → vs !! i = Some v → element_of k (bulk_of k u vs) (Z.of_nat i) = v.
Proof.
  intros Hv Hi. destruct k; simpl.
  - rewrite at_index_nat, list_lookup_fmap, Hi. simpl. destruct v as [| |[]| | | |]; done.
  - rewrite at_index_nat, list_lookup_fmap, Hi. by destruct v.
  - destruct u; simpl; rewrite at_index_nat, list_lookup_fmap, Hi; by destruct v.
  - rewrite decide_True by lia. by rewrite Nat2Z.id, Hi.
Qed.

Lemma zlen_packed (k : LoaderResultKind) (vs : list value) :
  k ≠ BYTES → zlen (packed_result k vs) = size_of k (zlen vs).
Proof.
  pose proof (zlen_nonneg vs).
  destruct k; intros ?; try done; unfold packed_result, size_of;
    rewrite zlen_app, zlen_le_bytes, ?zlen_le_bytes, ?zlen_fields, ?zlen_fmap;
    unfold bitsetOutSize, u32OutSize, i64OutSize.
  - rewrite Z2Nat.id; [lia|]. Z.div_mod_to_equations; lia.
  - lia.
  - lia.
Qed.

Lemma fast_packed (k : LoaderResultKind) (u : bool) (vs : list value) (post : list Z)
    (i : nat) (v : value) :
  k ≠ BYTES → Forall (value_ok k u) vs → vs !! i = Some v →
  fast_of k u (packed_result k vs ++ post) (Z.of_nat i) = Ok v.
Proof.
  intros Hk Hvs Hi. assert (Hv : value_ok k u v) by (by eapply (proj1 (Forall_lookup _ _) Hvs)).
  apply lookup_lt_Some in Hi as Hlt.
  assert (Hin : Z.of_nat i ∈ seqZ 0 (zlen (v_num <$> vs)))
    by (rewrite zlen_fmap; apply elem_of_seqZ; unfold zlen; lia).
  assert (Hg : default 0 ((v_num <$> vs) !! Z.to_nat (Z.of_nat i)) = v_num v)
    by (by rewrite Nat2Z.id, list_lookup_fmap, Hi).
  destruct k; cbn [fast_of packed_result]; [|unfold u32Fast| |done]; rewrite <-?(assoc_L (++)).
  - unfold boolFast. set (bs := truthy <$> vs). set (n := Z.to_nat _).
    replace (default 0 (at_index _ _)) with (default 0 (le_bytes n (bits_val bs) !! Z.to_nat (Z.of_nat i / 8))).
    + rewrite bit_of_byte by lia.
      rewrite <-le_val_testbit by (auto with castrum || lia).
      rewrite (testbit_bitset bs n i (truthy v)).
      * destruct v as [| |[]| | | |]; done.
      * unfold bs, n. rewrite zlen_fmap. pose proof (zlen_nonneg vs).
        rewrite Z2Nat.id; Z.div_mod_to_equations; lia.
      * unfold bs. by rewrite list_lookup_fmap, Hi.
    + rewrite Z.shiftr_div_pow2 by lia. change (2 ^ 3) with 8. unfold at_index.
      assert (0 ≤ Z.of_nat i / 8) by (apply Z.div_pos; lia). rewrite decide_True by lia.
      replace (Z.to_nat (4 + Z.of_nat i / 8)) with (4 + Z.to_nat (Z.of_nat i / 8))%nat by lia.
      rewrite lookup_app_r by (rewrite length_le_bytes; lia). rewrite length_le_bytes.
      replace (4 + Z.to_nat (Z.of_nat i / 8) - 4)%nat with (Z.to_nat (Z.of_nat i / 8)) by lia.
      rewrite lookup_app_l; [done|]. rewrite length_le_bytes. unfold n, zlen.
      apply Z2Nat.inj_lt; Z.div_mod_to_equations; lia.
  - apply number_values in Hvs. rewrite <-(zlen_fmap v_num vs), packed32_get by done.
    rewrite Hg. by destruct v.
  - rewrite <-(zlen_fmap v_num vs). apply bigint_values in Hvs.
    set (ws := (λ z, z mod 2 ^ 64) <$> (v_num <$> vs)).
    assert (E : ∀ c, le_bytes 4 c ++ ((v_num <$> vs) ≫= le_bytes 8) ++ post = packed64 c ws post)
      by (intros c; apply packed64_wrap).
    rewrite E, <-(zlen_fmap (λ z, z mod 2 ^ 64) (v_num <$> vs)). fold ws.
    assert (Hgw : default 0 (ws !! Z.to_nat (Z.of_nat i)) = v_num v mod 2 ^ 64)
      by (unfold ws; by rewrite Nat2Z.id, !list_lookup_fmap, Hi).
    assert (Hws : Forall (λ v, 0 ≤ v < 2 ^ 64) ws)
      by (apply Forall_fmap, Forall_true; intros z; by apply Z.mod_pos_bound).
    assert (Hin' : Z.of_nat i ∈ seqZ 0 (zlen ws)) by (unfold ws; by rewrite zlen_fmap).
    destruct u; [unfold u64Fast|unfold i64Fast]; rewrite packed64_get, Hgw by done; destruct v; try done; csimpl.
    + by rewrite Z.mod_small by done.
    + by rewrite to_i64_wrap by done.
Qed.

(** ** The wiring of the coalescible ops *)

Record implements `{Codec} (N : Natives) (r : native_row) (s : LoaderOpSpec) : Prop := {
  im_kind : kind s = r_kind r;
  im_unsigned : unsigned s = r_unsigned r;
  im_paired : pairedRest s = [];
  im_scalar : ∀ i, scalar s i [] = rust N (r_scalar r) (r_args r i);
  im_batch : ∀ items, batch s items [] =
    via N (r_packed r) (unpack_of (r_kind r) (r_unsigned r)) (r_extras r) items;
  im_element : element s = element_of (r_kind r);
  im_fast : fast s = (λ into, Fast (addon_into N into) (fast_of (r_kind r) (r_unsigned r))
                                (size_of (r_kind r))) <$> r_into r;
  im_bytes : r_kind r = BYTES → r_into r = None;
}.

Lemma rows_wired `{Codec} (N : Natives) :
  Forall (λ r, ∃ s, op_spec N (r_op r) = Some s ∧ implements N r s) load_rows.
Proof.
  repeat constructor; (eexists; split; [reflexivity|split; try reflexivity; discriminate]).
Qed.

Lemma row_wired `{Codec} (N : Natives) (r : native_row) (s : LoaderOpSpec) :
  r ∈ load_rows → op_spec N (r_op r) = Some s → implements N r s.
Proof.
  intros Hr Hs. destruct (proj1 (Forall_forall _ _) (rows_wired N) r Hr) as (s' & Hs' & Hi).
  congruence.
Qed.

(** What the loader needs of an op, whatever it is: the interface the dispatch
    core is verified against.  [scalar1 s i] is the result of a single call,
    [batch1 s i] that of a packed batch of one. *)
Definition scalar1 (s : LoaderOpSpec) (i : list Z) : result value := asBytes <$> scalar s i [].
Definition batch1 (s : LoaderOpSpec) (i : list Z) : result value :=
  b ← (batch s [i] [] []).1; Ok (element s b 0).

(** Every element of a bulk result reads back a list of values. *)
Definition reads_back (s : LoaderOpSpec) (b : bulk) (vs : list value) : Prop :=
  ∀ i v, vs !! i = Some v → element s b (Z.of_nat i) = v.

Record spec_ok (s : LoaderOpSpec) : Prop := {
  so_batch : ∀ items vs free, fits items → Forall fits items → mapM (batch1 s) items = Ok vs →
    ∃ b free', batch s items [] free = (Ok b, free') ∧ reads_back s b vs;
  so_loop : ∀ items vs, mapM (scalar1 s) items = Ok vs →
    ∃ b, scalarLoopBulk s items [] = Ok b ∧ reads_back s b vs;
  so_fast : ∀ f items vs out, fast s = Some f → fits items → Forall fits items →
    mapM (batch1 s) items = Ok vs → f_outSize f (zlen items) ≤ zlen out →
    ∃ out', f_batch f (layout_batch items) out = Ok out' ∧ zlen out' = zlen out ∧
      ∀ i v, vs !! i = Some v → f_element f out' (Z.of_nat i) = Ok v;
}.

(** The values of a list of items have the kind their function gives. *)
Lemma mapM_values {A} (f : list Z → result A) (Q : list Z → Prop) (P : A → Prop)
    (items : list (list Z)) (vs : list A) :
  (∀ i v, Q i → f i = Ok v → P v) → Forall Q items → mapM f items = Ok vs →
  length vs = length items ∧ Forall P vs.
Proof.
  intros Hok HQ. revert vs. induction HQ as [|i items Hi HQ IH]; cbn [mapM]; intros vs.
  { by intros [= <-]. }
  intros (v & Hv & (vs' & Hvs & [= <-])%bind_Ok)%bind_Ok.
  destruct (IH vs' Hvs) as [Hl Hall]. split; [simpl; by f_equal|]. constructor; [by eapply Hok|done].
Qed.

Lemma mapM_ext {A B} (f g : A → result B) (l : list A) :
  (∀ x, f x = g x) → mapM f l = mapM g l.
Proof. intros E. induction l as [|x l IH]; [done|]. cbn [mapM]. by rewrite E, IH. Qed.

Lemma each_scalar_plain {A} (s : LoaderOpSpec) (store : value → result A) (items : list (list Z)) :
  pairedRest s = [] →
  each_scalar s store [] items = mapM (λ i, v ← scalar s i []; store v) items.
Proof.
  intros Hp. unfold each_scalar.
  rewrite (mapM_ext _ (λ p : nat * list Z, v ← scalar s p.2 []; store v))
    by (intros p; unfold itemRest; by rewrite Hp, decide_True).
  assert (E : ∀ f : nat → nat, mapM (λ p : nat * list Z, v ← scalar s p.2 []; store v)
      (imap (λ n, pair (f n)) items) = mapM (λ i, v ← scalar s i []; store v) items).
  { induction items as [|i items IH]; intros f; [done|]. rewrite imap_cons. cbn [mapM].
    by rewrite <-(IH (λ n, f (S n))). }
  apply (E (λ n, n)).
Qed.

(** Storing a well-kinded value never converts it. *)
Lemma each_store {A} (s : LoaderOpSpec) (store : value → result A) (proj : value → A)
    (k : LoaderResultKind) (u : bool) (items : list (list Z)) (vs : list value) :
  (∀ v, value_ok k u (asBytes v) → store v = Ok (proj (asBytes v))) →
  mapM (scalar1 s) items = Ok vs → Forall (value_ok k u) vs →
  mapM (λ i, v ← scalar s i []; store v) items = Ok (proj <$> vs).
Proof.
  intros Hst. revert vs. induction items as [|i items IH]; cbn [mapM]; intros vs.
  { by intros [= <-]. }
  intros (v & Hv & (vs' & Hvs & [= <-])%bind_Ok)%bind_Ok [Hk Hks]%Forall_cons.
  unfold scalar1 in Hv. destruct (scalar s i []) as [w|e]; [|done]. injection Hv as <-.
  simpl. rewrite Hst by done. simpl. by rewrite (IH vs' Hvs Hks).
Qed.

Lemma loop_agrees (N : Natives) `{Codec} (r : native_row) (s : LoaderOpSpec)
    (items : list (list Z)) (vs : list value) :
  implements N r s → mapM (scalar1 s) items = Ok vs →
  Forall (value_ok (r_kind r) (r_unsigned r)) vs →
  scalarLoopBulk s items [] = Ok (bulk_of (r_kind r) (r_unsigned r) vs).
Proof.
  intros Hi Hm Hvs. unfold scalarLoopBulk.
  rewrite (im_kind _ _ _ Hi), (im_unsigned _ _ _ Hi), !each_scalar_plain by apply Hi.
  destruct (r_kind r); simpl.
  - rewrite (each_store s _ (λ v, Z.b2z (truthy v)) BOOLEAN (r_unsigned r) items vs); try done.
    by intros [].
  - rewrite (each_store s _ v_num NUMBER (r_unsigned r) items vs); try done.
    intros []; try done. intros Hz. simpl in *. unfold to_u32. by rewrite Z.mod_small.
  - rewrite (each_store s _ v_num BIGINT (r_unsigned r) items vs); try done.
    intros []; try done. destruct (r_unsigned r); intros Hz; simpl in *;
      [by rewrite Z.mod_small|by rewrite to_i64_wrap].
  - rewrite (each_store s _ (λ v, v) BYTES (r_unsigned r) items vs); try done.
    by rewrite list_fmap_id.
Qed.

Lemma splice_prefix {A} (src out : list A) :
  zlen src ≤ zlen out → splice out 0 src = src ++ drop (length src) out.
Proof. intros Hl. apply (splice_frontier [] out src 0); [done|exact Hl]. Qed.

(** A packed batch of the registry is one call of its native function. *)
Lemma row_batch1 `{Codec} (N : Natives) (r : native_row) (s : LoaderOpSpec) (i : list Z) :
  implements N r s → batch1 s i = row_batch N r i.
Proof.
  intros Hi. unfold batch1, row_batch. rewrite (im_batch _ _ _ Hi), (im_element _ _ _ Hi). unfold via.
  destruct (withPackScratch_layout [i] (λ packed, addon N (r_packed r) (ABytes packed :: r_extras r)
             ≫= unpack_of (r_kind r) (r_unsigned r)) []) as [-> _].
  by destruct (addon N _ _).
Qed.

(** The contract of a row gives the interface of its op. *)
Lemma row_spec_ok `{Codec} (N : Natives) (r : native_row) (s : LoaderOpSpec) :
  row_ok N r → implements N r s → spec_ok s.
Proof.
  intros Hr Hi.
  assert (Hsc : ∀ i, scalar1 s i = row_scalar N r i)
    by (intros i; unfold scalar1, row_scalar; by rewrite (im_scalar _ _ _ Hi)).
  assert (Hba : ∀ i, batch1 s i = row_batch N r i) by (intros i; by apply row_batch1).
  assert (Hrd : ∀ vs, Forall (value_ok (r_kind r) (r_unsigned r)) vs →
    reads_back s (bulk_of (r_kind r) (r_unsigned r) vs) vs).
  { intros vs Hvs i v Hv. rewrite (im_element _ _ _ Hi). apply element_bulk; [|done].
    by eapply (proj1 (Forall_lookup _ _) Hvs). }
  split.
  - intros items vs free Hf Hfs Hm. rewrite (mapM_ext _ _ _ Hba) in Hm.
    destruct (mapM_values _ fits _ items vs (rw_item _ _ Hr) Hfs Hm) as [Hlen Hvs].
    exists (bulk_of (r_kind r) (r_unsigned r) vs), (batch s items [] free).2. split; [|by apply Hrd].
    rewrite (surjective_pairing (batch s items [] free)) at 1. f_equal.
    rewrite (im_batch _ _ _ Hi). unfold via.
    destruct (withPackScratch_layout items (λ packed, addon N (r_packed r) (ABytes packed :: r_extras r)
               ≫= unpack_of (r_kind r) (r_unsigned r)) free) as [-> _].
    rewrite (rw_batch _ _ Hr items vs), bind_ret by done.
    apply unpack_packed; [|done]. unfold fits, zlen in *. by rewrite Hlen.
  - intros items vs Hm.
    assert (Hvs : Forall (value_ok (r_kind r) (r_unsigned r)) vs).
    { rewrite (mapM_ext _ _ _ Hsc) in Hm. apply (mapM_values _ (λ _, True) _ items vs (λ i v _, rw_scalar _ _ Hr i v)); [|done].
      by apply Forall_true. }
    eexists. split; [by eapply loop_agrees|by apply Hrd].
  - intros f items vs out Hfast Hf Hfs Hm Hout. rewrite (mapM_ext _ _ _ Hba) in Hm.
    destruct (mapM_values _ fits _ items vs (rw_item _ _ Hr) Hfs Hm) as [Hlen Hvs].
    rewrite (im_fast _ _ _ Hi) in Hfast. destruct (r_into r) as [into|] eqn:Ei; [|done].
    injection Hfast as <-. simpl in Hout |- *.
    assert (Hk : r_kind r ≠ BYTES) by (intros E; pose proof (im_bytes _ _ _ Hi E); congruence).
    assert (Hz : zlen (packed_result (r_kind r) vs) ≤ zlen out).
    { rewrite zlen_packed by done. replace (zlen vs) with (zlen items); [done|].
      unfold zlen. by rewrite Hlen. }
    exists (splice out 0 (packed_result (r_kind r) vs)).
    split; [by apply (rw_into _ _ Hr items vs)|split; [by apply zlen_splice|]].
    intros i v Hv. rewrite splice_prefix by done. by apply fast_packed.
Qed.

(** ** A concrete native side that meets the contract *)

Definition toy_kind (name : string) : LoaderResultKind :=
  match find (λ r, String.eqb name (r_scalar r) || String.eqb name (r_packed r) ||
                     from_option (String.eqb name) false (r_into r)) load_rows with
  | Some r => r_kind r
  | None => BYTES
  end.

Definition toy_value (k : LoaderResultKind) (i : list Z) : value :=
  match k with
  | BOOLEAN => VBool (Z.even (zlen i))
  | NUMBER => VNum (zlen i mod U32)
  | BIGINT => VBig (zlen i mod 2 ^ 63)
  | BYTES => VBytes (take 4 i)
  end.

Definition toy_item (args : list arg) : list Z :=
  default [] (head (omap (λ a, match a with ABytes b => Some b | _ => None end) args)).

(** Its gzip builtin answers other bytes than the native one, as Bun's does. *)
Definition toy_builtin (name : string) (args : list arg) : result value :=
  Ok (if String.eqb name "gzipCompress" then VBytes [3] else toy_value (toy_kind name) (toy_item args)).

Definition toy_natives : Natives := {|
  bun := Some toy_builtin;
  native := λ name args, Ok (toy_value (toy_kind name) (toy_item args));
  addon := λ name args,
    items ← unpackByteResults (toy_item args);
    Ok (packed_result (toy_kind name) (toy_value (toy_kind name) <$> items));
  addon_into := λ name packed out,
    items ← unpackByteResults packed;
    ta_set out (packed_result (toy_kind name) (toy_value (toy_kind name) <$> items)) 0;
  validator_validate := λ _ i, Ok (Z.even (zlen i));
  validateBatchPackedBitset := λ _ packed, Ok packed;
  validateBatchPackedCount := λ _ _, Ok 0;
  nowSeconds := 0 |}.

Lemma toy_value_ok (k : LoaderResultKind) (u : bool) (i : list Z) : value_ok k u (toy_value k i).
Proof.
  pose proof (Z.mod_pos_bound (zlen i) U32 eq_refl).
  pose proof (Z.mod_pos_bound (zlen i) (2 ^ 63) eq_refl).
  destruct k; simpl; try lia.
  - destruct u; lia.
  - unfold fits, zlen, U32. rewrite length_take. lia.
Qed.

Lemma toy_rows :
  Forall (λ r, toy_kind (r_scalar r) = r_kind r ∧ toy_kind (r_packed r) = r_kind r ∧
            (∀ into, r_into r = Some into → toy_kind into = r_kind r) ∧
            ∀ i, toy_item (r_args r i) = i) load_rows.
Proof.
  repeat constructor; try (vm_compute; reflexivity); intros into [= <-]; vm_compute; reflexivity.
Qed.

Lemma toy_rust (name : string) (args : list arg) :
  rust toy_natives name args =
    Ok (if String.eqb name "gzipCompress" then VBytes [3] else toy_value (toy_kind name) (toy_item args)).
Proof.
  unfold rust. simpl. destruct (String.eqb_spec name "gzipCompress") as [->|Hn]; [done|].
  destruct (_ && _); [|done]. unfold toy_builtin. by destruct (String.eqb_spec name "gzipCompress").
Qed.

(** The toy batch answers each item with its toy value. *)
Lemma toy_batch `{Codec} (r : native_row) (items : list (list Z)) :
  r ∈ load_rows → fits items → Forall fits items →
  addon toy_natives (r_packed r) (ABytes (layout_batch items) :: r_extras r) =
    Ok (packed_result (r_kind r) (toy_value (r_kind r) <$> items)) ∧
  ∀ into out, r_into r = Some into →
    zlen (packed_result (r_kind r) (toy_value (r_kind r) <$> items)) ≤ zlen out →
    addon_into toy_natives into (layout_batch items) out =
      Ok (splice out 0 (packed_result (r_kind r) (toy_value (r_kind r) <$> items))).
Proof.
  intros Hin Hf Hfs. destruct (proj1 (Forall_forall _ _) toy_rows r Hin) as (_ & Hp & Hinto & _).
  assert (Hu : unpackByteResults (layout_batch items) = Ok items)
    by (rewrite <-(app_nil_r (layout_batch items)); by apply unpackByteResults_layout).
  split; [|intros into out Hi Hz]; simpl.
  - unfold toy_item. simpl. by rewrite Hu, Hp.
  - rewrite Hu, bind_ret, (Hinto into Hi). unfold ta_set. by rewrite decide_True by (split; lia).
Qed.

Lemma toy_row_batch `{Codec} (r : native_row) (i : list Z) :
  r ∈ load_rows → fits i → row_batch toy_natives r i = Ok (toy_value (r_kind r) i).
Proof.
  intros Hin Hi. unfold row_batch.
  destruct (toy_batch r [i] Hin ltac:(done) ltac:(by repeat constructor)) as [-> _]. rewrite bind_ret.
  assert (Hv : value_ok (r_kind r) (r_unsigned r) (toy_value (r_kind r) i)) by apply toy_value_ok.
  simpl fmap. rewrite unpack_packed by (done || by repeat constructor). rewrite bind_ret. f_equal.
  by apply (element_bulk _ (r_unsigned r) [toy_value (r_kind r) i] 0).
Qed.

Lemma toy_natives_ok `{Codec} : NativeOk toy_natives.
Proof.
  apply Forall_forall. intros r Hin.
  destruct (proj1 (Forall_forall _ _) toy_rows r Hin) as (Hs & _ & _ & Ha).
  assert (Hm : ∀ items vs, Forall fits items → mapM (row_batch toy_natives r) items = Ok vs →
    vs = toy_value (r_kind r) <$> items).
  { intros items vs Hfs. revert vs. induction Hfs as [|i items Hi Hfs IH]; cbn [mapM]; intros vs.
    { by intros [= <-]. }
    rewrite toy_row_batch, bind_ret by done. intros (vs' & Hvs & [= <-])%bind_Ok.
    by rewrite (IH vs'). }
  split.
  - intros i v. unfold row_scalar. rewrite toy_rust, Ha.
    destruct (String.eqb_spec (r_scalar r) "gzipCompress") as [E|_].
    + rewrite <-Hs, E. by intros [= <-].
    + rewrite Hs. intros [= <-]. pose proof (toy_value_ok (r_kind r) (r_unsigned r) i).
      by destruct (r_kind r).
  - intros i v Hi. rewrite toy_row_batch by done. intros [= <-]. apply toy_value_ok.
  - intros items vs Hf Hfs ->%Hm; [|done]. by apply toy_batch.
  - intros items vs into out Hf Hfs ->%Hm; [|done]. by apply toy_batch.
Qed.

(** The delegated ones among the coalescible ops: on every other one the single
    call is the native branch, on both runtimes. *)
Lemma delegated_rows :
  r_op <$> filter (λ r, Is_true (existsb (String.eqb (r_scalar r)) BUILTIN_OPS)) load_rows =
  ["crc32"; "hexEncode"; "base64Encode"; "base64UrlEncode"; "gzipCompress"; "urlEncode";
   "urlDecode"]%string.
Proof. reflexivity. Qed.

Lemma row_scalar_native (N : Natives) (r : native_row) (i : list Z) :
  builtins_has N (r_scalar r) = false →
  row_scalar N r i = asBytes <$> native N (r_scalar r) (r_args r i).
Proof.
  unfold builtins_has, row_scalar, rust. destruct (bun N); [|done]. by intros ->.
Qed.

(** C2. Every op that [load] coalesces is wired to one native batch function, and
    its three bulk paths read that function back exactly.  On any items the
    function answers by itself, the packed batch over the shared scratch and the
    reusable-buffer path give at every index the value of that item (whatever
    the scratch pool holds, whatever is in the output buffer); the scalar loop
    gives at every index the value of the single call, which is the builtin's
    answer for an op delegated to Bun and the native branch's for any other.  So
    single and bulk agree on an input exactly when the single call and the
    batch of one do. *)
Theorem registry_parity `{Codec} (N : Natives) (r : native_row) :
  r ∈ load_rows → row_ok N r →
  ∃ s, op_spec N (r_op r) = Some s ∧
    (∀ i, scalar1 s i = row_scalar N r i ∧ batch1 s i = row_batch N r i) ∧
    (builtins_has N (r_scalar r) = false →
       ∀ i, scalar1 s i = asBytes <$> native N (r_scalar r) (r_args r i)) ∧
    (∀ items vs, mapM (row_scalar N r) items = Ok vs →
       ∃ b, scalarLoopBulk s items [] = Ok b ∧ reads_back s b vs) ∧
    (∀ items vs, fits items → Forall fits items → mapM (row_batch N r) items = Ok vs →
       (∀ free, ∃ b free', batch s items [] free = (Ok b, free') ∧ reads_back s b vs) ∧
       (∀ f out, fast s = Some f → f_outSize f (zlen items) ≤ zlen out →
          ∃ out', f_batch f (layout_batch items) out = Ok out' ∧ zlen out' = zlen out ∧
            ∀ i v, vs !! i = Some v → f_element f out' (Z.of_nat i) = Ok v)).
Proof.
  intros Hr Hok. destruct (proj1 (Forall_forall _ _) (rows_wired N) r Hr) as (s & Hs & Hi).
  assert (Hsc : ∀ i, scalar1 s i = row_scalar N r i)
    by (intros i; unfold scalar1, row_scalar; by rewrite (im_scalar _ _ _ Hi)).
  assert (Hba : ∀ i, batch1 s i = row_batch N r i) by (intros i; by apply row_batch1).
  pose proof (row_spec_ok N r s Hok Hi) as Hspec. exists s. split_and!; [done|by split| | |].
  - intros Hn i. by rewrite Hsc, row_scalar_native.
  - intros items vs Hm. apply (so_loop s Hspec). by rewrite (mapM_ext _ _ _ Hsc).
  - intros items vs Hf Hfs Hm. rewrite <-(mapM_ext _ _ _ Hba) in Hm.
    split; [intros free; by apply (so_batch s Hspec)|].
    intros f out Hfast Ho. by apply (so_fast s Hspec f items vs out).
Qed.

Lemma registry_parity_witness :
  ∃ s, op_spec (H := bun_codec) toy_natives "validateIpv6" = Some s ∧
    ∃ b free', batch s [[1; 2]; [3]] [] [] = (Ok b, free') ∧
      reads_back s b [VBool true; VBool false].
Proof.
  assert (Hr : fast_row BOOLEAN false "validateIpv6" "validateIpv6BatchPacked" ∈ load_rows)
    by (repeat (apply list_elem_of_here || apply list_elem_of_further)).
  destruct (registry_parity (H := bun_codec) toy_natives _ Hr
              (proj1 (Forall_forall _ _) (toy_natives_ok (H := bun_codec)) _ Hr))
    as (s & Hs & _ & _ & _ & Hb).
  exists s. split; [exact Hs|].
  refine (proj1 (Hb [[1; 2]; [3]] [VBool true; VBool false] _ _ _) []).
  - vm_compute. reflexivity.
  - repeat constructor; vm_compute; reflexivity.
  - vm_compute. reflexivity.
Defined.
