(* ===== verification/LruCache.v ===== *)
(** The loader's bounded LRU cache (src/loader/batch.ts).

    The cache is a [Map] used for its insertion order: a hit deletes and
    re-inserts its entry, so the first key is always the least recently used
    one and is what a full cache drops.  Capacity 0 or less gives the cache
    that never stores anything. *)

From S2P Require Import Prelude.
From S2P Require Import JsMap.
From S2P Require Import Utf8.
From S2P Require Import Wire.
From S2P Require Import Ops.

Record lru := Lru {
  lmap : list (string * value);
  maxKeys : Z;
  evictions : Z;
  hits : Z;
}.

Inductive LoaderCache := NULL_CACHE | LruCache (c : lru).

Definition createLruCache (maxKeys : Z) : LoaderCache :=
  if decide (maxKeys ≤ 0) then NULL_CACHE else LruCache (Lru [] maxKeys 0 0).

(** [map.get(key)], where a stored [undefined] reads as an absent key. *)
Definition lookup_defined (key : string) (m : list (string * value)) : option value :=
  match mget key m with Some VUndefined => None | o => o end.

Definition lru_get (key : string) (c : lru) : option value * lru :=
  match lookup_defined key (lmap c) with
  | None => (None, c)
  | Some v => (Some v, Lru (mset key v (mdel key (lmap c))) (maxKeys c) (evictions c) (hits c + 1))
  end.

Definition lru_set (key : string) (v : value) (c : lru) : lru :=
  let m := if mhas key (lmap c) then mdel key (lmap c) else lmap c in
  let m := mset key v m in
  if decide (msize m > maxKeys c)
  then match moldest m with
       | Some oldest => Lru (mdel oldest m) (maxKeys c) (evictions c + 1) (hits c)
       | None => Lru m (maxKeys c) (evictions c) (hits c)
       end
  else Lru m (maxKeys c) (evictions c) (hits c).

Definition cache_get (key : string) (c : LoaderCache) : option value * LoaderCache :=
  match c with
  | NULL_CACHE => (None, NULL_CACHE)
  | LruCache l => let '(v, l') := lru_get key l in (v, LruCache l')
  end.

Definition cache_set (key : string) (v : value) (c : LoaderCache) : LoaderCache :=
  match c with NULL_CACHE => NULL_CACHE | LruCache l => LruCache (lru_set key v l) end.

Definition cache_clear (c : LoaderCache) : LoaderCache :=
  match c with
  | NULL_CACHE => NULL_CACHE
  | LruCache l => LruCache (Lru [] (maxKeys l) (evictions l) (hits l))
  end.

(** The entries from the least to the most recently used one. *)
Definition entries (c : LoaderCache) : list (string * value) :=
  match c with NULL_CACHE => [] | LruCache l => lmap l end.
Definition cache_size (c : LoaderCache) : Z := msize (entries c).
Definition cache_evictions (c : LoaderCache) : Z :=
  match c with NULL_CACHE => 0 | LruCache l => evictions l end.

(** ** Correctness *)

Definition lru_ok (l : lru) : Prop := wf (lmap l) ∧ 0 < maxKeys l ∧ msize (lmap l) ≤ maxKeys l.
Definition cache_ok (c : LoaderCache) : Prop :=
  match c with NULL_CACHE => True | LruCache l => lru_ok l end.

Definition others (key : string) (m : list (string * value)) : list (string * value) := mdel key m.

Lemma mhas_mdel (key : string) (m : list (string * value)) :
  (if mhas key m then mdel key m else m) = others key m.
Proof.
  unfold others, mhas. destruct (mget key m) eqn:E; [done|].
  by rewrite mdel_id by (by apply mget_None).
Qed.

(** What [set] leaves: the other entries in their order, the new one last,
    less the oldest when the cache was full. *)
Lemma lru_set_eq (key : string) (v : value) (l : lru) :
  lru_ok l →
  let m := others key (lmap l) ++ [(key, v)] in
  lru_set key v l =
    if decide (msize (others key (lmap l)) < maxKeys l)
    then Lru m (maxKeys l) (evictions l) (hits l)
    else Lru (drop 1 m) (maxKeys l) (evictions l + 1) (hits l).
Proof.
  intros (Hw & Hp & Hs). unfold lru_set. rewrite mhas_mdel.
  unfold others. rewrite mset_mdel by done. set (o := mdel key (lmap l)).
  unfold msize. rewrite zlen_app.
  destruct (decide (zlen o < maxKeys l)).
  - rewrite decide_False; [done|]. change (zlen [(key, v)]) with 1. lia.
  - rewrite decide_True by (change (zlen [(key, v)]) with 1; lia).
    destruct o as [|[k' v'] o]; cbn.
    + by rewrite decide_True.
    + by rewrite decide_True.
Qed.

Lemma msize_others (key : string) (m : list (string * value)) :
  msize (others key m) = msize m - (if mhas key m then 1 else 0).
Proof.
  unfold others, mhas. destruct (mget key m) eqn:E.
  - apply mget_Some_elem in E. rewrite msize_mdel_in; [done|].
    by apply (list_elem_of_fmap_2 fst _ (key, _)) in E.
  - rewrite mdel_id by (by apply mget_None). lia.
Qed.

Lemma wf_others_snoc (key : string) (v : value) (m : list (string * value)) :
  wf m → wf (others key m ++ [(key, v)]).
Proof. intros Hw. unfold others. rewrite <-mset_mdel by done. auto with castrum. Qed.

Lemma lru_set_ok (key : string) (v : value) (l : lru) : lru_ok l → lru_ok (lru_set key v l).
Proof.
  intros Hl. rewrite lru_set_eq by done. destruct Hl as (Hw & Hp & Hs).
  pose proof (msize_others key (lmap l)) as Ho.
  assert (Hd : msize (others key (lmap l)) ≤ maxKeys l) by (destruct (mhas _ _); lia).
  case_decide; split_and!; simpl; auto using wf_others_snoc, wf_drop;
    unfold msize in *; [rewrite zlen_app; change (zlen [_]) with 1; lia|].
  rewrite (zlen_drop 1) by (rewrite zlen_app; change (zlen [_]) with 1; zlen_facts; lia).
  rewrite zlen_app. change (zlen [_]) with 1. lia.
Qed.

Lemma lru_get_ok (key : string) (l : lru) : lru_ok l → lru_ok (lru_get key l).2.
Proof.
  intros (Hw & Hp & Hs). unfold lru_get, lookup_defined.
  destruct (mget key (lmap l)) as [v|] eqn:E; [|done].
  assert (lru_ok (Lru (mset key v (mdel key (lmap l))) (maxKeys l) (evictions l) (hits l + 1))).
  { split_and!; simpl; auto with castrum. rewrite mset_mdel by done.
    pose proof (msize_others key (lmap l)) as Ho. unfold others, mhas in Ho. rewrite E in Ho.
    unfold msize in *. rewrite zlen_app. change (zlen [_]) with 1. lia. }
  by destruct v.
Qed.

Lemma mget_snoc (key k : string) (v : value) (m : list (string * value)) :
  k ∉ mkeys m → mget key (m ++ [(k, v)]) = if decide (key = k) then Some v else mget key m.
Proof. intros Hk. by rewrite <-mset_new, mget_mset. Qed.

Lemma others_not_in (key : string) (m : list (string * value)) : wf m → key ∉ mkeys (others key m).
Proof. intros Hw. apply mget_None. by apply mget_mdel_eq. Qed.

(** Operations of a client, with the value a get returns. *)
Inductive cache_op := Get (key : string) | Set_ (key : string) (v : value) | Clear.

Definition cache_step (c : LoaderCache) (o : cache_op) : LoaderCache :=
  match o with
  | Get k => (cache_get k c).2
  | Set_ k v => cache_set k v c
  | Clear => cache_clear c
  end.

Lemma cache_step_ok (c : LoaderCache) (o : cache_op) : cache_ok c → cache_ok (cache_step c o).
Proof.
  destruct c as [|l]; [by destruct o|]. intros Hl. destruct o as [k|k v|]; simpl.
  - pose proof (lru_get_ok k l Hl). by destruct (lru_get k l).
  - by apply lru_set_ok.
  - destruct Hl as (_ & Hp & _). split_and!; simpl; [constructor|done|]. change (msize []) with 0. lia.
Qed.

Lemma cache_run_ok (c : LoaderCache) (os : list cache_op) :
  cache_ok c → cache_ok (foldl cache_step c os).
Proof. revert c. induction os; simpl; intros; [done|]. by apply IHos, cache_step_ok. Qed.

Lemma createLruCache_ok (n : Z) : cache_ok (createLruCache n).
Proof.
  unfold createLruCache. case_decide; simpl; [done|]. split_and!; simpl; [constructor|lia|].
  change (msize []) with 0. lia.
Qed.

(** Over every sequence of gets, sets and clears the cache is a bounded LRU:
    it never exceeds its capacity and holds each key once; a hit returns the
    stored value and makes its entry the most recent one, a miss changes nothing;
    a set makes its entry the most recent one, keeps all others in order while
    there is room, and otherwise evicts exactly the least recently used entry,
    which is never the one just set. *)
Theorem lru_spec (n : Z) (os : list cache_op) (key : string) (v : value) :
  0 < n → v ≠ VUndefined →
  let c := foldl cache_step (createLruCache n) os in
  let old := others key (entries c) in
  wf (entries c) ∧ cache_size c ≤ n ∧
  (cache_get key c).1 = lookup_defined key (entries c) ∧
  entries (cache_get key c).2 =
    (match lookup_defined key (entries c) with
     | Some w => old ++ [(key, w)] | None => entries c end) ∧
  entries (cache_set key v c) = drop (if decide (msize old < n) then 0 else 1) (old ++ [(key, v)]) ∧
  cache_evictions (cache_set key v c) = cache_evictions c + (if decide (msize old < n) then 0 else 1) ∧
  (cache_get key (cache_set key v c)).1 = Some v.
Proof.
  intros Hn Hv c old.
  assert (Hc : ∃ l, c = LruCache l ∧ lru_ok l ∧ maxKeys l = n).
  { assert (H0 : ∃ l, createLruCache n = LruCache l ∧ lru_ok l ∧ maxKeys l = n).
    { pose proof (createLruCache_ok n) as Hok. unfold createLruCache in *.
      rewrite decide_False in * by lia. eauto. }
    subst c. clear old. destruct H0 as (l & -> & Hl & Hm). revert l Hl Hm.
    induction os as [|o os IH]; intros l Hl Hm; [eauto|]. cbn [foldl].
    pose proof (cache_step_ok (LruCache l) o Hl) as Hok. destruct o as [k|k w|]; simpl in *.
    - unfold lru_get in *. destruct (lookup_defined k (lmap l)); by apply IH.
    - apply IH; [done|]. unfold lru_set. by repeat case_match.
    - by apply IH. }
  clearbody c. destruct Hc as (l & -> & Hl & Hm). pose proof Hl as (Hw & Hp & Hs).
  pose proof (lru_set_eq key v l Hl) as Hset. subst n. subst old. simpl. rewrite Hset.
  split; [done|]. split; [done|].
  split; [unfold lru_get; by destruct (lookup_defined key (lmap l))|].
  split.
  { unfold lru_get. destruct (lookup_defined key (lmap l)) as [w|]; [|done]. simpl. by apply mset_mdel. }
  split; [by case_decide|]. split; [case_decide; simpl; lia|].
  assert (Hd : lookup_defined key (lmap (lru_set key v l)) = Some v).
  { rewrite Hset. unfold lookup_defined.
    assert (E : mget key (lmap (if decide (msize (others key (lmap l)) < maxKeys l)
      then Lru (others key (lmap l) ++ [(key, v)]) (maxKeys l) (evictions l) (hits l)
      else Lru (drop 1 (others key (lmap l) ++ [(key, v)])) (maxKeys l) (evictions l + 1) (hits l)))
      = Some v).
    { pose proof (wf_others_snoc key v (lmap l) Hw) as Hws.
      case_decide as Hroom; cbn [lmap]; apply mget_elem; auto using wf_drop; [set_solver|].
      destruct (others key (lmap l)) as [|e o] eqn:Eo; [exfalso; by apply Hroom|].
      simpl. rewrite drop_0. set_solver. }
    rewrite E. by destruct v. }
  rewrite Hset in Hd. unfold lru_get. by rewrite Hd.
Qed.

Lemma lru_spec_witness :
  (cache_get "b" (cache_set "b" (VNum 2) (foldl cache_step (createLruCache 2)
     [Set_ "a" (VNum 1); Set_ "c" (VNum 3); Get "a"]))).1 = Some (VNum 2).
Proof.
  apply (lru_spec 2 [Set_ "a" (VNum 1); Set_ "c" (VNum 3); Get "a"] "b" (VNum 2));
    [lia|discriminate].
Defined.
