(* ===== verification/Loader.v ===== *)
(** The global data loader (src/loader/index.ts, state.ts, batch.ts): dispatch,
    the per-tick coalescer and [load].

    The loader is one mutable object shared by synchronous calls and by the
    microtasks it queues, so it is modelled as a state ([LoaderState]) with an
    error-and-state monad; a dispatch context is an object of the heap [heap],
    because a queued microtask keeps using the context it captured after
    [configure] has replaced it.  A promise is an index into [promises], where
    its settlement is stored; [microtasks] is the queue of the callbacks passed
    to [queueMicrotask].  The native functions and the clock are parameters.

    Inputs and results are values: a caller that mutates a byte array between
    [load] and the flush, or a result shared through the cache, is outside the
    model. *)

From stdpp Require Import pretty.
From Stdlib Require Import PrimFloat.
From S2P Require Import Prelude.
From S2P Require Import JsMap.
From S2P Require Import Utf8.
From S2P Require Import Wire.
From S2P Require Import Adaptive.
From S2P Require Import Ops.
From S2P Require Import LruCache.
Import Cost.

(** ** State *)

Inductive LoadStrategy := Auto | OnlySingle | OnlyCoalesce.
Inductive Mode := MSingle | MCoalesce.
#[export] Instance strategy_eq_dec : EqDecision LoadStrategy.
Proof. solve_decision. Defined.
#[export] Instance mode_eq_dec : EqDecision Mode.
Proof. solve_decision. Defined.

Inductive outcome := Resolved (v : value) | Rejected (e : js_error).
#[export] Instance outcome_eq_dec : EqDecision outcome.
Proof. solve_decision. Defined.

Record LoaderOptions := Options {
  o_adaptive : bool; o_batchMin : Z; o_maxCacheKeys : Z; o_caching : bool;
  o_sampleEvery : Z; o_loadStrategy : LoadStrategy;
}.

(** [resolve] and [reject] are the functions of a promise: its index. *)
Record LoadRequest := Request {
  req_input : list Z; req_resolve : nat; req_reject : nat;
  req_key : option string; req_needsDefaultKey : bool;
}.

Record OpCounters := Counters {
  scalarCalls : Z;
  batchCalls : Z;
  itemsDispatched : Z;
  cachedHits : Z;
}.

Definition set_scalarCalls (x : Z) (s : OpCounters) : OpCounters :=
  Counters x (batchCalls s) (itemsDispatched s) (cachedHits s).
Definition set_batchCalls (x : Z) (s : OpCounters) : OpCounters :=
  Counters (scalarCalls s) x (itemsDispatched s) (cachedHits s).
Definition set_itemsDispatched (x : Z) (s : OpCounters) : OpCounters :=
  Counters (scalarCalls s) (batchCalls s) x (cachedHits s).
Definition set_cachedHits (x : Z) (s : OpCounters) : OpCounters :=
  Counters (scalarCalls s) (batchCalls s) (itemsDispatched s) x.

Record OpDispatchCtx := Ctx {
  cost : LoaderCostModel;
  counters : OpCounters;
  sampleEvery : Z;
  counter : Z;
  mode : Mode;
  singleStreak : Z;
  pendingSingle : bool;
  pendingInput : option (list Z);
  pendingResolve : option nat;
  pendingReject : option nat;
  pendingKey : option string;
  keyAttempts : Z;
  keyHits : Z;
  keyProbeCounter : Z;
}.

Definition set_cost (x : LoaderCostModel) (s : OpDispatchCtx) : OpDispatchCtx :=
  Ctx x (counters s) (sampleEvery s) (counter s) (mode s) (singleStreak s) (pendingSingle s) (pendingInput s) (pendingResolve s) (pendingReject s) (pendingKey s) (keyAttempts s) (keyHits s) (keyProbeCounter s).
Definition set_counters (x : OpCounters) (s : OpDispatchCtx) : OpDispatchCtx :=
  Ctx (cost s) x (sampleEvery s) (counter s) (mode s) (singleStreak s) (pendingSingle s) (pendingInput s) (pendingResolve s) (pendingReject s) (pendingKey s) (keyAttempts s) (keyHits s) (keyProbeCounter s).
Definition set_sampleEvery (x : Z) (s : OpDispatchCtx) : OpDispatchCtx :=
  Ctx (cost s) (counters s) x (counter s) (mode s) (singleStreak s) (pendingSingle s) (pendingInput s) (pendingResolve s) (pendingReject s) (pendingKey s) (keyAttempts s) (keyHits s) (keyProbeCounter s).
Definition set_counter (x : Z) (s : OpDispatchCtx) : OpDispatchCtx :=
  Ctx (cost s) (counters s) (sampleEvery s) x (mode s) (singleStreak s) (pendingSingle s) (pendingInput s) (pendingResolve s) (pendingReject s) (pendingKey s) (keyAttempts s) (keyHits s) (keyProbeCounter s).
Definition set_mode (x : Mode) (s : OpDispatchCtx) : OpDispatchCtx :=
  Ctx (cost s) (counters s) (sampleEvery s) (counter s) x (singleStreak s) (pendingSingle s) (pendingInput s) (pendingResolve s) (pendingReject s) (pendingKey s) (keyAttempts s) (keyHits s) (keyProbeCounter s).
Definition set_singleStreak (x : Z) (s : OpDispatchCtx) : OpDispatchCtx :=
  Ctx (cost s) (counters s) (sampleEvery s) (counter s) (mode s) x (pendingSingle s) (pendingInput s) (pendingResolve s) (pendingReject s) (pendingKey s) (keyAttempts s) (keyHits s) (keyProbeCounter s).
Definition set_pendingSingle (x : bool) (s : OpDispatchCtx) : OpDispatchCtx :=
  Ctx (cost s) (counters s) (sampleEvery s) (counter s) (mode s) (singleStreak s) x (pendingInput s) (pendingResolve s) (pendingReject s) (pendingKey s) (keyAttempts s) (keyHits s) (keyProbeCounter s).
Definition set_pendingInput (x : option (list Z)) (s : OpDispatchCtx) : OpDispatchCtx :=
  Ctx (cost s) (counters s) (sampleEvery s) (counter s) (mode s) (singleStreak s) (pendingSingle s) x (pendingResolve s) (pendingReject s) (pendingKey s) (keyAttempts s) (keyHits s) (keyProbeCounter s).
Definition set_pendingResolve (x : option nat) (s : OpDispatchCtx) : OpDispatchCtx :=
  Ctx (cost s) (counters s) (sampleEvery s) (counter s) (mode s) (singleStreak s) (pendingSingle s) (pendingInput s) x (pendingReject s) (pendingKey s) (keyAttempts s) (keyHits s) (keyProbeCounter s).
Definition set_pendingReject (x : option nat) (s : OpDispatchCtx) : OpDispatchCtx :=
  Ctx (cost s) (counters s) (sampleEvery s) (counter s) (mode s) (singleStreak s) (pendingSingle s) (pendingInput s) (pendingResolve s) x (pendingKey s) (keyAttempts s) (keyHits s) (keyProbeCounter s).
Definition set_pendingKey (x : option string) (s : OpDispatchCtx) : OpDispatchCtx :=
  Ctx (cost s) (counters s) (sampleEvery s) (counter s) (mode s) (singleStreak s) (pendingSingle s) (pendingInput s) (pendingResolve s) (pendingReject s) x (keyAttempts s) (keyHits s) (keyProbeCounter s).
Definition set_keyAttempts (x : Z) (s : OpDispatchCtx) : OpDispatchCtx :=
  Ctx (cost s) (counters s) (sampleEvery s) (counter s) (mode s) (singleStreak s) (pendingSingle s) (pendingInput s) (pendingResolve s) (pendingReject s) (pendingKey s) x (keyHits s) (keyProbeCounter s).
Definition set_keyHits (x : Z) (s : OpDispatchCtx) : OpDispatchCtx :=
  Ctx (cost s) (counters s) (sampleEvery s) (counter s) (mode s) (singleStreak s) (pendingSingle s) (pendingInput s) (pendingResolve s) (pendingReject s) (pendingKey s) (keyAttempts s) x (keyProbeCounter s).
Definition set_keyProbeCounter (x : Z) (s : OpDispatchCtx) : OpDispatchCtx :=
  Ctx (cost s) (counters s) (sampleEvery s) (counter s) (mode s) (singleStreak s) (pendingSingle s) (pendingInput s) (pendingResolve s) (pendingReject s) (pendingKey s) (keyAttempts s) (keyHits s) x.

(** The callbacks the code queues: the coalescer's flush, and a single-mode
    dispatch with the op and the context it captured. *)
Inductive task := TFlush | TSingle (op : string) (ctx : nat).

Record LoaderState := State {
  options : LoaderOptions;
  ctxs : list (string * nat);
  heap : list OpDispatchCtx;
  cache : LoaderCache;
  buffer : list (string * list LoadRequest);
  scheduled : bool;
  pending : Z;
  opFns : list (string * nat);
  flushes : Z;
  packScratch : list Z;
  outScratch : list Z;
  keyScratch : list Z;
  packFree : list (list Z);
  microtasks : list task;
  promises : list (option outcome);
  clock : nat;
}.

Definition set_options (x : LoaderOptions) (s : LoaderState) : LoaderState :=
  State x (ctxs s) (heap s) (cache s) (buffer s) (scheduled s) (pending s) (opFns s) (flushes s) (packScratch s) (outScratch s) (keyScratch s) (packFree s) (microtasks s) (promises s) (clock s).
Definition set_ctxs (x : list (string * nat)) (s : LoaderState) : LoaderState :=
  State (options s) x (heap s) (cache s) (buffer s) (scheduled s) (pending s) (opFns s) (flushes s) (packScratch s) (outScratch s) (keyScratch s) (packFree s) (microtasks s) (promises s) (clock s).
Definition set_heap (x : list OpDispatchCtx) (s : LoaderState) : LoaderState :=
  State (options s) (ctxs s) x (cache s) (buffer s) (scheduled s) (pending s) (opFns s) (flushes s) (packScratch s) (outScratch s) (keyScratch s) (packFree s) (microtasks s) (promises s) (clock s).
Definition set_cache (x : LoaderCache) (s : LoaderState) : LoaderState :=
  State (options s) (ctxs s) (heap s) x (buffer s) (scheduled s) (pending s) (opFns s) (flushes s) (packScratch s) (outScratch s) (keyScratch s) (packFree s) (microtasks s) (promises s) (clock s).
Definition set_buffer (x : list (string * list LoadRequest)) (s : LoaderState) : LoaderState :=
  State (options s) (ctxs s) (heap s) (cache s) x (scheduled s) (pending s) (opFns s) (flushes s) (packScratch s) (outScratch s) (keyScratch s) (packFree s) (microtasks s) (promises s) (clock s).
Definition set_scheduled (x : bool) (s : LoaderState) : LoaderState :=
  State (options s) (ctxs s) (heap s) (cache s) (buffer s) x (pending s) (opFns s) (flushes s) (packScratch s) (outScratch s) (keyScratch s) (packFree s) (microtasks s) (promises s) (clock s).
Definition set_pending (x : Z) (s : LoaderState) : LoaderState :=
  State (options s) (ctxs s) (heap s) (cache s) (buffer s) (scheduled s) x (opFns s) (flushes s) (packScratch s) (outScratch s) (keyScratch s) (packFree s) (microtasks s) (promises s) (clock s).
Definition set_opFns (x : list (string * nat)) (s : LoaderState) : LoaderState :=
  State (options s) (ctxs s) (heap s) (cache s) (buffer s) (scheduled s) (pending s) x (flushes s) (packScratch s) (outScratch s) (keyScratch s) (packFree s) (microtasks s) (promises s) (clock s).
Definition set_flushes (x : Z) (s : LoaderState) : LoaderState :=
  State (options s) (ctxs s) (heap s) (cache s) (buffer s) (scheduled s) (pending s) (opFns s) x (packScratch s) (outScratch s) (keyScratch s) (packFree s) (microtasks s) (promises s) (clock s).
Definition set_packScratch (x : list Z) (s : LoaderState) : LoaderState :=
  State (options s) (ctxs s) (heap s) (cache s) (buffer s) (scheduled s) (pending s) (opFns s) (flushes s) x (outScratch s) (keyScratch s) (packFree s) (microtasks s) (promises s) (clock s).
Definition set_outScratch (x : list Z) (s : LoaderState) : LoaderState :=
  State (options s) (ctxs s) (heap s) (cache s) (buffer s) (scheduled s) (pending s) (opFns s) (flushes s) (packScratch s) x (keyScratch s) (packFree s) (microtasks s) (promises s) (clock s).
Definition set_keyScratch (x : list Z) (s : LoaderState) : LoaderState :=
  State (options s) (ctxs s) (heap s) (cache s) (buffer s) (scheduled s) (pending s) (opFns s) (flushes s) (packScratch s) (outScratch s) x (packFree s) (microtasks s) (promises s) (clock s).
Definition set_packFree (x : list (list Z)) (s : LoaderState) : LoaderState :=
  State (options s) (ctxs s) (heap s) (cache s) (buffer s) (scheduled s) (pending s) (opFns s) (flushes s) (packScratch s) (outScratch s) (keyScratch s) x (microtasks s) (promises s) (clock s).
Definition set_microtasks (x : list task) (s : LoaderState) : LoaderState :=
  State (options s) (ctxs s) (heap s) (cache s) (buffer s) (scheduled s) (pending s) (opFns s) (flushes s) (packScratch s) (outScratch s) (keyScratch s) (packFree s) x (promises s) (clock s).
Definition set_promises (x : list (option outcome)) (s : LoaderState) : LoaderState :=
  State (options s) (ctxs s) (heap s) (cache s) (buffer s) (scheduled s) (pending s) (opFns s) (flushes s) (packScratch s) (outScratch s) (keyScratch s) (packFree s) (microtasks s) x (clock s).
Definition set_clock (x : nat) (s : LoaderState) : LoaderState :=
  State (options s) (ctxs s) (heap s) (cache s) (buffer s) (scheduled s) (pending s) (opFns s) (flushes s) (packScratch s) (outScratch s) (keyScratch s) (packFree s) (microtasks s) (promises s) x.

(** ** The monad *)

Definition M (A : Type) : Type := LoaderState → result A * LoaderState.
#[export] Instance M_ret : MRet M := λ A a s, (Ok a, s).
#[export] Instance M_bind : MBind M :=
  λ A B f m s, match m s with (Ok a, s') => f a s' | (Throw e, s') => (Throw e, s') end.

Definition lift {A} (r : result A) : M A := λ s, (r, s).
Definition gets {A} (f : LoaderState → A) : M A := λ s, (Ok (f s), s).
Definition modify (f : LoaderState → LoaderState) : M unit := λ s, (Ok tt, f s).
Definition when (b : bool) (m : M unit) : M unit := if b then m else mret tt.
Definition try_catch (m : M unit) (h : js_error → M unit) : M unit :=
  λ s, match m s with (Ok _, s') => (Ok tt, s') | (Throw e, s') => h e s' end.
Fixpoint for_each {A} (f : A → M unit) (l : list A) : M unit :=
  match l with [] => mret tt | x :: l' => f x ;; for_each f l' end.

(** The contexts: [ctx.<field>] reads and writes through the heap. *)
Definition no_ctx : OpDispatchCtx :=
  Ctx (createCostModel None None) (Counters 0 0 0 0) 1 0 MCoalesce 0 false None None None None 0 0 0.
Definition ctx_at (c : nat) (s : LoaderState) : OpDispatchCtx := default no_ctx (heap s !! c).
Definition on_ctx (c : nat) (f : OpDispatchCtx → OpDispatchCtx) : M unit :=
  modify (λ s, set_heap (alter f c (heap s)) s).
Definition on_counters (c : nat) (f : OpCounters → OpCounters) : M unit :=
  on_ctx c (λ x, set_counters (f (counters x)) x).

Definition add_scalar (n : Z) (k : OpCounters) : OpCounters := set_scalarCalls (scalarCalls k + n) k.
Definition add_batch (n : Z) (k : OpCounters) : OpCounters := set_batchCalls (batchCalls k + n) k.
Definition add_items (n : Z) (k : OpCounters) : OpCounters :=
  set_itemsDispatched (itemsDispatched k + n) k.
Definition add_hits (n : Z) (k : OpCounters) : OpCounters := set_cachedHits (cachedHits k + n) k.

(** Promises: a new one is pending; settling one a second time does nothing. *)
Definition new_promise (o : option outcome) : M nat :=
  λ s, (Ok (length (promises s)), set_promises (promises s ++ [o]) s).
Definition settle (p : nat) (o : outcome) : M unit :=
  modify (λ s, match promises s !! p with
               | Some None => set_promises (<[p:=Some o]> (promises s)) s
               | _ => s end).
Definition resolve (p : nat) (v : value) : M unit := settle p (Resolved v).
Definition reject (p : nat) (e : js_error) : M unit := settle p (Rejected e).

Definition queueMicrotask (t : task) : M unit :=
  modify (λ s, set_microtasks (microtasks s ++ [t]) s).

Definition the_cache_get (key : string) : M (option value) :=
  λ s, let '(v, c) := cache_get key (cache s) in (Ok v, set_cache c s).
Definition the_cache_set (key : string) (v : value) : M unit :=
  modify (λ s, set_cache (cache_set key v (cache s)) s).

Definition SINGLE_AFTER : Z := 4.
Definition KEY_WARMUP : Z := 8.
Definition KEY_PROBE_EVERY : Z := 64.
Definition KEY_SEP : string := String (Ascii.ascii_of_nat 0) EmptyString.

Definition QUOTE : string := String (Ascii.ascii_of_nat 34) EmptyString.

(** [String(key)] of the [bigint] that [fnv1a64] returns. *)
Definition value_string (v : value) : string :=
  match v with VBig z | VNum z => pretty z | _ => "undefined" end.

(** [x % n === 0]: a remainder by 0 is [NaN]. *)
Definition rem_is_zero (x n : Z) : bool := bool_decide (n ≠ 0 ∧ Z.rem x n = 0).

Section loader.
Context `{Codec} (N : Natives) (now : nat → float).

Definition nowNs : M float := λ s, (Ok (now (clock s)), set_clock (S (clock s)) s).

(** [++ctx.counter % ctx.sampleEvery === 0 ? nowNs() : 0], then the recording. *)
Definition sample_start (c : nat) : M float :=
  on_ctx c (λ x, set_counter (counter x + 1) x) ;;
  x ← gets (ctx_at c);
  if rem_is_zero (counter x) (sampleEvery x) then nowNs else mret 0%float.
Definition sample_end (c : nat) (t : float) (record : LoaderCostModel → float → LoaderCostModel)
    : M unit :=
  when (negb (PrimFloat.eqb t 0%float))
    (t' ← nowNs; on_ctx c (λ x, set_cost (record (cost x) (PrimFloat.sub t' t)) x)).

Definition ctxFor (op : string) : M nat :=
  found ← gets (λ s, mget op (ctxs s));
  match found with
  | Some c => mret c
  | None =>
      o ← gets options;
      let x := Ctx (createCostModel (Some (o_adaptive o)) (Some (o_batchMin o)))
                 (Counters 0 0 0 0) (o_sampleEvery o) 0
                 (if decide (o_loadStrategy o = OnlySingle) then MSingle else MCoalesce)
                 0 false None None None None 0 0 0 in
      c ← gets (λ s, length (heap s));
      modify (λ s, set_heap (heap s ++ [x]) s) ;;
      modify (λ s, set_ctxs (mset op c (ctxs s)) s) ;;
      mret c
  end.

(** [LOADER_OPS[op]]; reading a field of [undefined] throws. *)
Definition the_spec (op : string) : M LoaderOpSpec :=
  lift (match op_spec N op with
        | Some s => Ok s
        | None => Throw (TypeError "Cannot read properties of undefined") end).

Definition dispatchSingle (c : nat) (spec : LoaderOpSpec) (input : list Z) (rest : list arg)
    : M value :=
  on_counters c (add_scalar 1) ;;
  on_counters c (add_items 1) ;;
  t ← sample_start c;
  out ← lift (asBytes <$> scalar spec input rest);
  sample_end c t (λ m ns, recordScalar m 1 ns) ;;
  mret out.

Definition call_batch (spec : LoaderOpSpec) (items : list (list Z)) (rest : list arg) : M bulk :=
  λ s, let '(r, free) := batch spec items rest (packFree s) in (r, set_packFree free s).

Definition dispatchBulk (c : nat) (spec : LoaderOpSpec) (items : list (list Z)) (rest : list arg)
    : M bulk :=
  let n := zlen items in
  on_counters c (add_items n) ;;
  x ← gets (ctx_at c);
  if decide_batch (cost x) n then
    t ← sample_start c;
    out ← call_batch spec items rest;
    sample_end c t (λ m ns, recordBatch m n ns) ;;
    on_counters c (add_batch 1) ;;
    mret out
  else
    t ← sample_start c;
    out ← lift (scalarLoopBulk spec items rest);
    sample_end c t (λ m ns, recordScalar m n ns) ;;
    on_counters c (add_scalar 1) ;;
    mret out.

Definition maybeCache (req : LoadRequest) (v : value) : M unit :=
  match req_key req with Some k => the_cache_set k v | None => mret tt end.

Definition shouldComputeDefaultKey (c : nat) : M bool :=
  x ← gets (ctx_at c);
  if decide (keyAttempts x < KEY_WARMUP) then mret true
  else if decide (0 < keyHits x) then mret true
  else
    on_ctx c (λ x, set_keyProbeCounter (keyProbeCounter x + 1) x) ;;
    x' ← gets (ctx_at c);
    mret (rem_is_zero (keyProbeCounter x') KEY_PROBE_EVERY).

(** [op + KEY_SEP + String(rust.fnv1a64(input))]. *)
Definition cache_key (op raw : string) : string := op +:+ KEY_SEP +:+ raw.
Definition default_key (op : string) (input : list Z) : M string :=
  k ← lift (rust N "fnv1a64" [ABytes input]); mret (cache_key op (value_string k)).

(** A request that reaches the native op: compute, cache, resolve. *)
Definition compute_one (c : nat) (spec : LoaderOpSpec) (req : LoadRequest) : M unit :=
  v ← dispatchSingle c spec (req_input req) [];
  maybeCache req v ;;
  resolve (req_resolve req) v.

Definition with_key (k : option string) (req : LoadRequest) : LoadRequest :=
  Request (req_input req) (req_resolve req) (req_reject req) k (req_needsDefaultKey req).

(** The flush of a lone request. *)
Definition flush_one (c : nat) (spec : LoaderOpSpec) (op : string) (req : LoadRequest) : M unit :=
  o ← gets options;
  x ← gets (ctx_at c);
  when (bool_decide (mode x = MCoalesce ∧ o_loadStrategy o = Auto))
    (on_ctx c (λ x, set_singleStreak (singleStreak x + 1) x) ;;
     on_ctx c (λ x, if decide (SINGLE_AFTER ≤ singleStreak x) then set_mode MSingle x else x)) ;;
  try_catch
    (if req_needsDefaultKey req then
       b ← shouldComputeDefaultKey c;
       if b : bool then
         on_ctx c (λ x, set_keyAttempts (keyAttempts x + 1) x) ;;
         k ← default_key op (req_input req);
         hit ← the_cache_get k;
         match hit with
         | Some v =>
             on_counters c (add_hits 1) ;;
             on_ctx c (λ x, set_keyHits (keyHits x + 1) x) ;;
             resolve (req_resolve req) v
         | None => compute_one c spec (with_key (Some k) req)
         end
       else compute_one c spec req
     else compute_one c spec req)
    (reject (req_reject req)).

(** Pack a list of inputs into the reusable scratch. *)
Definition pack_scratch (inputs : list (list Z)) (scratch : list Z) : result (list Z) :=
  scratch' ← dv_set 4 scratch 0 (zlen inputs); write_items inputs scratch' 4.

(** A reusable buffer of at least [n] bytes, as the code grows it. *)
Definition ensure_size (buf : list Z) (n grown : Z) : list Z :=
  if decide (zlen buf < n) then new_u8 grown else buf.

(** The keys of a flush in one crossing: [None] when they are not computed. *)
Definition flush_keys (c : nat) (reqs : list LoadRequest) (scratch : list Z) (total : Z)
    : M (option (list Z)) :=
  computeKeys ← (if existsb req_needsDefaultKey reqs then shouldComputeDefaultKey c else mret false);
  if computeKeys : bool then
    on_ctx c (λ x, set_keyAttempts (keyAttempts x + zlen reqs) x) ;;
    let keyTotal := 4 + zlen reqs * 8 in
    keyBuf ← gets (λ s, ensure_size (keyScratch s) keyTotal keyTotal);
    modify (set_keyScratch keyBuf) ;;
    keyBuf' ← lift (fnvBatchKeysInto N (subarray scratch 0 total) keyBuf);
    modify (set_keyScratch keyBuf') ;;
    mret (Some keyBuf')
  else mret None.

(** The pass over the requests that resolves cache hits and keeps the misses. *)
Fixpoint resolve_hits (c : nat) (op : string) (keyView : option (list Z)) (i : Z)
    (reqs : list LoadRequest) : M (list LoadRequest) :=
  match reqs with
  | [] => mret []
  | req :: rest =>
      key ← (match req_key req, keyView with
             | None, Some kb =>
                 if req_needsDefaultKey req
                 then k ← lift (dv_get 8 kb (4 + i * 8)); mret (Some (cache_key op (pretty k)))
                 else mret None
             | k, _ => mret k
             end);
      let req' := with_key key req in
      hit ← (match key with Some k => the_cache_get k | None => mret None end);
      match hit with
      | Some v =>
          on_counters c (add_hits 1) ;;
          when (req_needsDefaultKey req) (on_ctx c (λ x, set_keyHits (keyHits x + 1) x)) ;;
          resolve (req_resolve req) v ;;
          resolve_hits c op keyView (i + 1) rest
      | None => misses ← resolve_hits c op keyView (i + 1) rest; mret (req' :: misses)
      end
  end.

(** Read, cache and resolve the results of a batch one after the other. *)
Fixpoint resolve_all (read : Z → result value) (i : Z) (reqs : list LoadRequest) : M unit :=
  match reqs with
  | [] => mret tt
  | req :: rest =>
      v ← lift (read i);
      maybeCache req v ;;
      resolve (req_resolve req) v ;;
      resolve_all read (i + 1) rest
  end.

Definition reject_all (reqs : list LoadRequest) (e : js_error) : M unit :=
  for_each (λ req, reject (req_reject req) e) reqs.

(** The zero-allocation flush of a fast op. *)
Definition flush_fast (c : nat) (f : LoaderFastSpec) (op : string) (reqs : list LoadRequest)
    : M unit :=
  on_counters c (add_batch 1) ;;
  on_counters c (add_items (zlen reqs)) ;;
  let total := packedTotal (req_input <$> reqs) in
  buf ← gets (λ s, ensure_size (packScratch s) total (Z.max 256 (total * 2)));
  scratch ← lift (pack_scratch (req_input <$> reqs) buf);
  modify (set_packScratch scratch) ;;
  keyView ← flush_keys c reqs scratch total;
  misses ← resolve_hits c op keyView 0 reqs;
  if decide (misses = []) then mret tt
  else
    let total2 := packedTotal (req_input <$> misses) in
    scratch2 ← lift (pack_scratch (req_input <$> misses) scratch);
    modify (set_packScratch scratch2) ;;
    let outSize := f_outSize f (zlen misses) in
    out ← gets (λ s, ensure_size (outScratch s) outSize outSize);
    modify (set_outScratch out) ;;
    try_catch
      (out' ← lift (f_batch f (subarray scratch2 0 total2) out);
       modify (set_outScratch out') ;;
       resolve_all (f_element f out') 0 misses)
      (reject_all misses).

(** The flush of the other ops. *)
Definition flush_bulk (c : nat) (spec : LoaderOpSpec) (reqs : list LoadRequest) : M unit :=
  try_catch
    (bulk ← dispatchBulk c spec (req_input <$> reqs) [];
     resolve_all (λ i, Ok (element spec bulk i)) 0 reqs)
    (reject_all reqs).

Definition handleFlush (op : string) (requests : list LoadRequest) : M unit :=
  modify (λ s, set_flushes (flushes s + 1) s) ;;
  c ← ctxFor op;
  spec ← the_spec op;
  match requests with
  | [req] => flush_one c spec op req
  | _ =>
      on_ctx c (set_singleStreak 0) ;;
      match fast spec with
      | Some f => flush_fast c f op requests
      | None => flush_bulk c spec requests
      end
  end.

(** ** The coalescer *)

Definition enqueue (op : string) (request : LoadRequest) : M unit :=
  modify (λ s, set_buffer (mset op (default [] (mget op (buffer s)) ++ [request]) (buffer s)) s) ;;
  modify (λ s, set_pending (pending s + 1) s) ;;
  b ← gets scheduled;
  when (negb b) (modify (set_scheduled true) ;; queueMicrotask TFlush).

Definition coalescer_flush : M unit :=
  modify (set_scheduled false) ;;
  snapshot ← gets buffer;
  modify (set_buffer []) ;;
  modify (set_pending 0) ;;
  for_each (λ g : string * list LoadRequest,
    when (negb (bool_decide (g.2 = []))) (handleFlush g.1 g.2)) snapshot.

Definition clear_pending (c : nat) : M unit :=
  on_ctx c (λ x, set_pendingSingle false (set_pendingInput None (set_pendingResolve None
                   (set_pendingReject None (set_pendingKey None x))))).

Definition flushSingle (op : string) (c : nat) : M unit :=
  spec ← the_spec op;
  x ← gets (ctx_at c);
  clear_pending c ;;
  match pendingInput x, pendingResolve x with
  | Some input, Some p =>
      try_catch
        (v ← dispatchSingle c spec input [];
         match pendingKey x with Some k => the_cache_set k v | None => mret tt end ;;
         resolve p v)
        (λ e, match pendingReject x with Some p => reject p e | None => mret tt end)
  | _, _ => mret tt
  end.

(** ** [load] *)

Definition hasRequiredRest (op : string) : bool :=
  bool_decide (op ∈ ["signCookie"; "verifyCookie"; "csrfVerify"; "passwordHash"; "passwordVerify";
    "hmacSha256"; "hmacSha256Verify"; "aeadEncrypt"; "aeadDecrypt"; "jwtSign"; "jwtVerify";
    "jsonPatch"; "urlResolve"; "wsFrameEncode"; "schemaValidate"]%string).

Record LoadOptions := LoadOpts { lo_key : option string; lo_cache : option bool }.

(** The executor of the promise [load] returns. *)
Definition start_load (c : nat) (op : string) (input : list Z) (key : option string)
    (needsDefaultKey : bool) (p : nat) : M unit :=
  x ← gets (ctx_at c);
  if decide (mode x = MSingle) then
    if pendingSingle x then
      on_ctx c (set_mode MCoalesce) ;;
      let first := Request (default input (pendingInput x)) (default p (pendingResolve x))
                     (default p (pendingReject x)) (pendingKey x) false in
      clear_pending c ;;
      enqueue op first ;;
      enqueue op (Request input p p key false)
    else
      on_ctx c (λ x, set_pendingSingle true (set_pendingInput (Some input)
        (set_pendingResolve (Some p) (set_pendingReject (Some p) (set_pendingKey key x))))) ;;
      queueMicrotask (TSingle op c)
  else enqueue op (Request input p p key needsDefaultKey).

(** How a load gets its key: a cached value, or a key and whether it is deferred. *)
Inductive keyed := Hit (v : value) | Keyed (key : option string) (needsDefaultKey : bool).

Definition load_key (c : nat) (spec : LoaderOpSpec) (op : string) (input : list Z)
    (explicit : option string) : M keyed :=
  match explicit with
  | Some raw =>
      let key := cache_key op raw in
      hit ← the_cache_get key;
      match hit with
      | Some v => on_counters c (add_hits 1) ;; mret (Hit v)
      | None => mret (Keyed (Some key) false)
      end
  | None =>
      x ← gets (ctx_at c);
      waiting ← gets pending;
      if decide (mode x = MCoalesce ∧ is_Some (fast spec) ∧ 0 < waiting)
      then mret (Keyed None true)
      else
        b ← shouldComputeDefaultKey c;
        if b : bool then
          on_ctx c (λ x, set_keyAttempts (keyAttempts x + 1) x) ;;
          key ← default_key op input;
          hit ← the_cache_get key;
          match hit with
          | Some v =>
              on_counters c (add_hits 1) ;;
              on_ctx c (λ x, set_keyHits (keyHits x + 1) x) ;;
              mret (Hit v)
          | None => mret (Keyed (Some key) false)
          end
        else mret (Keyed None false)
  end.

Definition required_rest_error (op : string) : js_error :=
  let quoted := QUOTE +:+ op +:+ QUOTE in
  TypeError ("loader.load: op " +:+ quoted +:+ " requires extra arguments; use loader.run("
             +:+ quoted +:+ ", …) instead").

Definition loadOne (op : string) (input : list Z) (opts : LoadOptions) : M nat :=
  if hasRequiredRest op then new_promise (Some (Rejected (required_rest_error op)))
  else
    c ← ctxFor op;
    spec ← the_spec op;
    o ← gets options;
    let caching := o_caching o && bool_decide (0 < o_maxCacheKeys o) && default true (lo_cache opts) in
    k ← (if caching : bool then load_key c spec op input (lo_key opts) else mret (Keyed None false));
    match k with
    | Hit v => new_promise (Some (Resolved v))
    | Keyed key needsDefaultKey =>
        p ← new_promise None;
        start_load c op input key needsDefaultKey p ;;
        mret p
    end.

(** ** The factory and the other entry points *)

Record PartialOptions := Partial {
  p_adaptive : option bool; p_batchMin : option Z; p_maxCacheKeys : option Z;
  p_caching : option bool; p_sampleEvery : option Z; p_loadStrategy : option LoadStrategy;
}.

Definition clamp_batchMin (v : Z) : Z := Z.max 2 (Z.min 8 v).

Definition createLoader (o : PartialOptions) : LoaderState :=
  State
    (Options (default true (p_adaptive o)) (clamp_batchMin (default 2 (p_batchMin o)))
       (default 256 (p_maxCacheKeys o)) (default true (p_caching o))
       (default 32 (p_sampleEvery o)) (default Auto (p_loadStrategy o)))
    [] [] (createLruCache (default 256 (p_maxCacheKeys o))) [] false 0 [] 0 [] [] [] [] [] [] 0.

(** [loader(op)]: the memoized op function with the context it is bound to. *)
Definition makeOpFn (op : string) : M unit :=
  bound ← gets (λ s, mget op (opFns s));
  match bound with
  | Some _ => mret tt
  | None =>
      c ← ctxFor op;
      modify (λ s, set_opFns (mset op c (opFns s)) s)
  end.

(** A call of that function, on an item or on a list. *)
Definition opFn (op : string) (input : list Z + list (list Z)) (rest : list arg)
    : M (value + bulk) :=
  bound ← gets (λ s, mget op (opFns s));
  spec ← the_spec op;
  match bound with
  | None => lift (Throw (TypeError "not a function"))
  | Some c =>
      match input with
      | inl i => v ← dispatchSingle c spec i rest; mret (inl v)
      | inr items => b ← dispatchBulk c spec items rest; mret (inr b)
      end
  end.

(** [loader.run(op, input, ...rest)]. *)
Definition run (op : string) (input : list Z + list (list Z)) (rest : list arg)
    : M (value + bulk) :=
  c ← ctxFor op;
  spec ← the_spec op;
  match input with
  | inl i => v ← dispatchSingle c spec i rest; mret (inl v)
  | inr items => b ← dispatchBulk c spec items rest; mret (inr b)
  end.

(** [loader.cache(op, input, key)] and [opFn.cache]. *)
Definition cacheFn (op : string) (input : list Z) (key : option string) : M (option value) :=
  match key with
  | Some raw => the_cache_get (cache_key op raw)
  | None => k ← default_key op input; the_cache_get k
  end.

(** [loader.schema(validator)]: the helper captures the context of the moment
    (and, unlike an op function, is not rebound by [configure]). *)
Definition schemaFn : M nat := ctxFor "schemaValidate".
Definition schema_call (c : nat) (validator : nat) (input : list Z + list (list Z))
    : M (value + bulk) :=
  spec ← the_spec "schemaValidate";
  match input with
  | inl i => v ← dispatchSingle c spec i [AObject validator]; mret (inl v)
  | inr items => b ← dispatchBulk c spec items [AObject validator]; mret (inr b)
  end.

Definition clear : M unit := modify (λ s, set_cache (cache_clear (cache s)) s).

(** [entry.rebind(ctxFor(state, entry.op))] for every memoized op function. *)
Definition rebind_all (fns : list (string * nat)) : M unit :=
  for_each (λ e : string * nat,
    c ← ctxFor e.1; modify (λ s, set_opFns (mset e.1 c (opFns s)) s)) fns.

Definition configure (next : PartialOptions) : M unit :=
  prev ← gets options;
  let o := Options (default (o_adaptive prev) (p_adaptive next))
             (clamp_batchMin (default (o_batchMin prev) (p_batchMin next)))
             (default (o_maxCacheKeys prev) (p_maxCacheKeys next))
             (default (o_caching prev) (p_caching next))
             (default (o_sampleEvery prev) (p_sampleEvery next))
             (default (o_loadStrategy prev) (p_loadStrategy next)) in
  modify (set_options o) ;;
  modify (set_ctxs []) ;;
  fns ← gets opFns;
  rebind_all fns ;;
  when (bool_decide (is_Some (p_maxCacheKeys next) ∧ p_maxCacheKeys next ≠ Some (o_maxCacheKeys prev)))
    (modify (set_cache (createLruCache (o_maxCacheKeys o)))).

(** [opFn.stats]: the counters of the bound context. *)
Record LoaderOpStats := OpStats {
  os_scalarCalls : Z; os_batchCalls : Z; os_itemsDispatched : Z; os_cachedHits : Z;
  os_batchMin : Z; os_mode : Mode;
}.
Definition op_stats (c : nat) (s : LoaderState) : LoaderOpStats :=
  let x := ctx_at c s in
  OpStats (scalarCalls (counters x)) (batchCalls (counters x)) (itemsDispatched (counters x))
    (cachedHits (counters x)) (batchMin (cost x)) (mode x).

(** The aggregate [stats]: sums over the current contexts. *)
Record LoaderStats := Stats {
  st_scalarCalls : Z; st_batchCalls : Z; st_itemsDispatched : Z; st_flushes : Z;
  st_cachedHits : Z; st_cacheSize : Z; st_cacheEvictions : Z;
}.

Definition stats (s : LoaderState) : LoaderStats :=
  let sum f := foldr (λ e acc, f (counters (ctx_at (snd e) s)) + acc) 0 (ctxs s) in
  Stats (sum scalarCalls) (sum batchCalls) (sum itemsDispatched) (flushes s) (sum cachedHits)
    (cache_size (cache s)) (cache_evictions (cache s)).

(** ** Executions

    One step is a call from the outside or the next microtask; the host runs
    the queue in order, with further calls in between (the continuations of
    settled promises).  An exception thrown by a microtask is reported by the
    host, and the queue goes on. *)

Inductive event :=
  | ELoad (op : string) (input : list Z) (opts : LoadOptions)
  | ERun (op : string) (input : list Z + list (list Z)) (rest : list arg)
  | EMakeOpFn (op : string)
  | EOpFn (op : string) (input : list Z + list (list Z)) (rest : list arg)
  | ESchema
  | ESchemaCall (c validator : nat) (input : list Z + list (list Z))
  | ECache (op : string) (input : list Z) (key : option string)
  | EClear
  | EConfigure (next : PartialOptions)
  | EMicrotask.

Definition run_task (t : task) : M unit :=
  match t with TFlush => coalescer_flush | TSingle op c => flushSingle op c end.

Definition exec {A} (m : M A) (s : LoaderState) : LoaderState := (m s).2.

Definition next_microtask (s : LoaderState) : LoaderState :=
  match microtasks s with
  | [] => s
  | t :: ts => exec (run_task t) (set_microtasks ts s)
  end.

Definition step (s : LoaderState) (e : event) : LoaderState :=
  match e with
  | ELoad op input opts => exec (loadOne op input opts) s
  | ERun op input rest => exec (run op input rest) s
  | EMakeOpFn op => exec (makeOpFn op) s
  | EOpFn op input rest => exec (opFn op input rest) s
  | ESchema => exec schemaFn s
  | ESchemaCall c validator input => exec (schema_call c validator input) s
  | ECache op input key => exec (cacheFn op input key) s
  | EClear => exec clear s
  | EConfigure next => exec (configure next) s
  | EMicrotask => next_microtask s
  end.

(** The end of the tick: every queued microtask runs. *)
Definition drain (s : LoaderState) : LoaderState :=
  Nat.iter (length (microtasks s)) next_microtask s.

End loader.
