(* ===== verification/LoaderSpec.v ===== *)
(** Correctness of the loader's [load] (the model is Loader.v).

    The proof works on the [Core] of the loader's state: what decides which
    promise is settled with what.  Counters, cost models, scratch buffers and
    strategy counters are outside the core, and a step that only touches them is
    [quiet].  The invariant [Inv] says that the pending promises are exactly the
    ones some component still holds (the code in progress, the coalescer's
    buffer, a context's pending slot), that each holder knows the input its
    promise was created for, and that every cached value is an answer to the
    input its key belongs to: the single call's or the batch function's. *)

From stdpp Require Import pretty.
From Stdlib Require Import PrimFloat.
From S2P Require Import Prelude.
From S2P Require Import JsMap.
From S2P Require Import Utf8.
From S2P Require Import Wire.
From S2P Require Import Adaptive.
From S2P Require Import Ops.
From S2P Require Import LruCache.
From S2P Require Import Loader.

(** The pending slot of a context. *)
Record slot := Slot {
  sl_single : bool; sl_input : option (list Z); sl_resolve : option nat;
  sl_reject : option nat; sl_key : option string;
}.
Definition empty_slot : slot := Slot false None None None None.
Definition slot_of (x : OpDispatchCtx) : slot :=
  Slot (pendingSingle x) (pendingInput x) (pendingResolve x) (pendingReject x) (pendingKey x).

Record Core := MkCore {
  k_promises : list (option outcome);
  k_buffer : list (string * list LoadRequest);
  k_scheduled : bool;
  k_cache : LoaderCache;
  k_ctxs : list (string * nat);
  k_tasks : list task;
  k_slots : list slot;
}.
Definition core (s : LoaderState) : Core :=
  MkCore (promises s) (buffer s) (scheduled s) (cache s) (ctxs s) (microtasks s)
    (slot_of <$> heap s).

(** ** Triples *)

Definition hoare {A} (P : Core → Prop) (m : M A) (Q : A → Core → Prop) : Prop :=
  ∀ s, P (core s) → ∃ a s', m s = (Ok a, s') ∧ Q a (core s').

(** A step outside the core that does not throw. *)
Definition quiet {A} (m : M A) (P : A → Prop) : Prop :=
  ∀ s, ∃ a s', m s = (Ok a, s') ∧ core s' = core s ∧ P a.

(** A step outside the core that may throw. *)
Definition silent {A} (m : M A) : Prop := ∀ s, core (exec m s) = core s.

Lemma hoare_bind {A B} (P : Core → Prop) (m : M A) (f : A → M B) R Q :
  hoare P m R → (∀ a, hoare (R a) (f a) Q) → hoare P (m ≫= f) Q.
Proof.
  intros Hm Hf s Hs. destruct (Hm s Hs) as (a & s1 & E1 & H1).
  destruct (Hf a s1 H1) as (b & s2 & E2 & H2).
  exists b, s2. split; [|done]. unfold mbind, M_bind. by rewrite E1.
Qed.

Lemma hoare_pre {A} (P P' : Core → Prop) (m : M A) Q :
  hoare P' m Q → (∀ k, P k → P' k) → hoare P m Q.
Proof. intros Hm HP s Hs. apply Hm, HP, Hs. Qed.

Lemma hoare_post {A} (P : Core → Prop) (m : M A) (Q Q' : A → Core → Prop) :
  hoare P m Q' → (∀ a k, Q' a k → Q a k) → hoare P m Q.
Proof. intros Hm HQ s Hs. destruct (Hm s Hs) as (a & s' & E & H'). eauto 10. Qed.

(** A pure fact of the precondition. *)
Lemma hoare_pure {A} (X : Prop) (P : Core → Prop) (m : M A) Q :
  (X → hoare P m Q) → hoare (λ k, X ∧ P k) m Q.
Proof. intros Hm s [HX Hs]. by apply Hm. Qed.

Lemma hoare_ret {A} (a : A) (Q : A → Core → Prop) : hoare (Q a) (mret a) Q.
Proof. intros s Hs. by exists a, s. Qed.

Lemma hoare_try (P : Core → Prop) (m : M unit) h (Q : unit → Core → Prop) :
  hoare P m Q → hoare P (try_catch m h) Q.
Proof.
  intros Hm s Hs. destruct (Hm s Hs) as ([] & s' & E & Hq). exists tt, s'.
  unfold try_catch. by rewrite E.
Qed.

Lemma hoare_quiet {A} (R : Core → Prop) (m : M A) (P : A → Prop) :
  quiet m P → hoare R m (λ a k, P a ∧ R k).
Proof.
  intros Hm s Hs. destruct (Hm s) as (a & s' & E & Hc & Ha).
  exists a, s'. by rewrite Hc.
Qed.

(** A quiet step in front, its result used. *)
Lemma hoare_quiet_bind {A B} (P : Core → Prop) (m : M A) (R : A → Prop) (f : A → M B) Q :
  quiet m R → (∀ a, R a → hoare P (f a) Q) → hoare P (m ≫= f) Q.
Proof.
  intros Hm Hf. eapply hoare_bind; [by apply hoare_quiet|]. intros a. by apply hoare_pure, Hf.
Qed.

(** Triples and quiet steps from a computation on states. *)
Lemma hoare_exact {A} (P : Core → Prop) (m : M A) (Q : A → Core → Prop) (f : Core → Core) (a : A) :
  (∀ s, ∃ s', m s = (Ok a, s') ∧ core s' = f (core s)) → (∀ k, P k → Q a (f k)) → hoare P m Q.
Proof.
  intros Hm HQ s Hs. destruct (Hm s) as (s' & E & Hc). exists a, s'. rewrite Hc. auto.
Qed.

Lemma quiet_ret {A} (a : A) (P : A → Prop) : P a → quiet (mret a) P.
Proof. intros Ha s. by exists a, s. Qed.
Lemma quiet_bind {A B} (m : M A) (f : A → M B) P Q :
  quiet m P → (∀ a, P a → quiet (f a) Q) → quiet (m ≫= f) Q.
Proof.
  intros Hm Hf s. destruct (Hm s) as (a & s1 & E1 & C1 & Ha).
  destruct (Hf a Ha s1) as (b & s2 & E2 & C2 & Hb).
  exists b, s2. split; [|by rewrite C2]. unfold mbind, M_bind. by rewrite E1.
Qed.
Lemma quiet_lift {A} (a : A) (P : A → Prop) : P a → quiet (lift (Ok a)) P.
Proof. intros Ha s. by exists a, s. Qed.
Lemma quiet_gets {A} (f : LoaderState → A) : quiet (gets f) (λ _, True).
Proof. intros s. by exists (f s), s. Qed.
Lemma quiet_modify (f : LoaderState → LoaderState) :
  (∀ s, core (f s) = core s) → quiet (modify f) (λ _, True).
Proof. intros Hf s. exists tt, (f s). by rewrite Hf. Qed.
Lemma quiet_when (b : bool) (m : M unit) (P : unit → Prop) :
  P tt → quiet m P → quiet (when b m) P.
Proof. intros Ht Hm. destruct b; [done|]. by apply quiet_ret. Qed.
Lemma quiet_any {A} (m : M A) (P : A → Prop) : quiet m P → quiet m (λ _, True).
Proof. intros Hm s. destruct (Hm s) as (a & s' & E & Hc & _). eauto. Qed.

Lemma slots_alter (c : nat) (f : OpDispatchCtx → OpDispatchCtx) (h : list OpDispatchCtx) :
  (∀ x, slot_of (f x) = slot_of x) → slot_of <$> alter f c h = slot_of <$> h.
Proof.
  intros Hf. apply list_eq. intros i. rewrite !list_lookup_fmap.
  destruct (decide (i = c)) as [->|Hi].
  - rewrite list_lookup_alter_eq. destruct (h !! c); simpl; [by rewrite Hf|done].
  - by rewrite list_lookup_alter_ne.
Qed.

Lemma quiet_on_ctx (c : nat) (f : OpDispatchCtx → OpDispatchCtx) :
  (∀ x, slot_of (f x) = slot_of x) → quiet (on_ctx c f) (λ _, True).
Proof. intros Hf. apply quiet_modify. intros s. unfold core. simpl. by rewrite slots_alter. Qed.
Lemma quiet_on_counters (c : nat) (f : OpCounters → OpCounters) :
  quiet (on_counters c f) (λ _, True).
Proof. by apply quiet_on_ctx. Qed.

Lemma silent_quiet {A} (m : M A) (P : A → Prop) : quiet m P → silent m.
Proof. intros Hm s. destruct (Hm s) as (a & s' & E & Hc & _). unfold exec. by rewrite E. Qed.
Lemma silent_bind {A B} (m : M A) (f : A → M B) :
  silent m → (∀ a, silent (f a)) → silent (m ≫= f).
Proof.
  intros Hm Hf s. specialize (Hm s). unfold exec in *. unfold mbind, M_bind.
  destruct (m s) as [[a|e] s1]; simpl in *; [|done].
  pose proof (Hf a s1) as H2. unfold exec in H2. by rewrite H2.
Qed.
Lemma silent_lift {A} (r : result A) : silent (lift r).
Proof. done. Qed.

Create HintDb quiet.
#[export] Hint Resolve quiet_gets quiet_on_counters silent_lift : quiet.
#[export] Hint Extern 1 (quiet (modify _) _) => (apply quiet_modify; done) : quiet.
#[export] Hint Extern 1 (quiet (on_ctx _ _) _) => (apply quiet_on_ctx; done) : quiet.

(** Walk through the quiet steps at the front of a computation. *)
Ltac quiet_step :=
  lazymatch goal with
  | |- quiet (_ ≫= _) _ => eapply quiet_bind; [eauto with quiet; fail|intros ? ?]
  | |- hoare _ (_ ≫= _) _ => eapply hoare_quiet_bind; [eauto with quiet; fail|intros ? ?]
  end.

Section spec.
Context `{Codec} (N : Natives) (now : nat → float).

Lemma quiet_sample_start (c : nat) : quiet (sample_start now c) (λ _, True).
Proof.
  unfold sample_start. repeat quiet_step. case_match; [|by apply quiet_ret].
  intros s. by eexists _, _.
Qed.
Lemma quiet_sample_end (c : nat) (t : float) f : quiet (sample_end now c t f) (λ _, True).
Proof.
  unfold sample_end. apply quiet_when; [done|]. eapply quiet_bind with (P := λ _, True).
  - intros s. by eexists _, _.
  - intros t' _. auto with quiet.
Qed.
#[local] Hint Resolve quiet_sample_start quiet_sample_end : quiet.

Lemma quiet_shouldComputeDefaultKey (c : nat) : quiet (shouldComputeDefaultKey c) (λ _, True).
Proof.
  unfold shouldComputeDefaultKey. quiet_step. repeat case_decide; try by apply quiet_ret.
  repeat quiet_step. by apply quiet_ret.
Qed.

Lemma quiet_dispatchSingle (c : nat) (spec : LoaderOpSpec) (input : list Z) (v : value) :
  scalar1 spec input = Ok v → quiet (dispatchSingle now c spec input []) (λ r, r = v).
Proof.
  intros Hv. unfold dispatchSingle. repeat quiet_step.
  eapply quiet_bind with (P := λ r, r = v).
  - unfold scalar1 in Hv. rewrite Hv. by apply quiet_lift.
  - intros r ->. quiet_step. by apply quiet_ret.
Qed.

(** Whatever the cost model decides, a bulk over well-behaved inputs reads back
    the values of the single calls or those of the batch function. *)
Lemma quiet_dispatchBulk (c : nat) (spec : LoaderOpSpec) (items : list (list Z)) (vs ws : list value) :
  spec_ok spec → fits items → Forall fits items →
  mapM (scalar1 spec) items = Ok vs → mapM (batch1 spec) items = Ok ws →
  quiet (dispatchBulk now c spec items []) (λ b, reads_back spec b vs ∨ reads_back spec b ws).
Proof.
  intros Hs Hf Hfs Hm Hmw. unfold dispatchBulk. repeat quiet_step. case_match.
  - quiet_step. eapply quiet_bind.
    + intros s. destruct (so_batch spec Hs items ws (packFree s) Hf Hfs Hmw) as (b & free & E & Hb).
      eexists b, _. unfold call_batch. rewrite E. split; [done|]. split; [done|exact Hb].
    + intros b Hb. repeat quiet_step. apply quiet_ret. by right.
  - quiet_step. destruct (so_loop spec Hs items vs Hm) as (b & E & Hb).
    rewrite E. eapply quiet_bind; [apply (quiet_lift b (λ x, x = b)); done|]. intros ? ->.
    repeat quiet_step. apply quiet_ret. by left.
Qed.

(** A direct call touches nothing of the core, whatever it returns or throws. *)
Lemma silent_call_batch spec items rest : silent (call_batch spec items rest).
Proof. intros s. unfold exec, call_batch. by destruct (batch spec items rest (packFree s)). Qed.

Ltac silent_walk :=
  repeat (eapply silent_bind;
    [solve [eapply silent_quiet; eauto with quiet | apply silent_lift | apply silent_call_batch]
    |intros ?]).

Lemma silent_dispatchSingle c spec input rest : silent (dispatchSingle now c spec input rest).
Proof. unfold dispatchSingle. silent_walk. done. Qed.
Lemma silent_dispatchBulk c spec items rest : silent (dispatchBulk now c spec items rest).
Proof. unfold dispatchBulk. silent_walk. case_match; silent_walk; done. Qed.
End spec.

#[export] Hint Resolve quiet_sample_start quiet_sample_end quiet_shouldComputeDefaultKey : quiet.

Lemma mapM_cons_Ok {A B} (f : A → result B) (x : A) (l : list A) (y : B) (ys : list B) :
  f x = Ok y → mapM f l = Ok ys → mapM f (x :: l) = Ok (y :: ys).
Proof. intros Hx Hl. cbn [mapM]. by rewrite Hx, bind_ret, Hl. Qed.

(** ** Cache keys determine their op *)

Definition no_nul (s : string) : bool :=
  forallb (λ a, negb (Ascii.eqb a (Ascii.ascii_of_nat 0))) (String.list_ascii_of_string s).

Lemma append_cons (a : Ascii.ascii) (s t : string) : String a s +:+ t = String a (s +:+ t).
Proof. done. Qed.
Lemma append_nil (t : string) : EmptyString +:+ t = t.
Proof. done. Qed.

Lemma cache_key_inj (op op' raw raw' : string) :
  no_nul op = true → no_nul op' = true →
  cache_key op raw = cache_key op' raw' → op = op' ∧ raw = raw'.
Proof.
  unfold cache_key, KEY_SEP.
  revert op'. induction op as [|a op IH]; intros [|a' op']; rewrite ?append_cons, ?append_nil.
  - intros _ _ [= ->]. done.
  - intros _ Ha [= <- _]. done.
  - intros Ha _ [= -> _]. done.
  - intros [_ Ho]%andb_prop [_ Ho']%andb_prop [= -> E]. by destruct (IH op' Ho Ho' E) as [-> ->].
Qed.

Lemma registry_names `{Codec} (N : Natives) (op : string) :
  is_Some (op_spec N op) → no_nul op = true.
Proof.
  intros [s Hs]. apply mget_Some_elem in Hs.
  apply (list_elem_of_fmap_2 fst _ (op, s)) in Hs. simpl in Hs.
  assert (Hall : Forall (λ n, no_nul n = true) (LOADER_OPS N).*1) by (repeat constructor).
  by apply (proj1 (Forall_forall _ _) Hall).
Qed.

(** Every op that [hasRequiredRest] lets through has a row of the contract. *)
Lemma loadable_has_row `{Codec} (N : Natives) (op : string) :
  is_Some (op_spec N op) → hasRequiredRest op = false → ∃ r, r ∈ load_rows ∧ r_op r = op.
Proof.
  intros [s Hs] Hr. apply mget_Some_elem in Hs.
  apply (list_elem_of_fmap_2 fst _ (op, s)) in Hs. simpl in Hs.
  assert (Hall : forallb (λ n, hasRequiredRest n || existsb (String.eqb n) (r_op <$> load_rows))
                   (LOADER_OPS N).*1 = true) by (vm_compute; reflexivity).
  rewrite forallb_forall in Hall. apply list_elem_of_In, Hall in Hs. rewrite Hr, orb_false_l in Hs.
  apply existsb_exists in Hs as (n & Hn & ->%String.eqb_eq). apply list_elem_of_In in Hn.
  apply list_elem_of_fmap in Hn as (r & -> & Hr'). eauto.
Qed.

(** ** The promises that are still pending *)

Definition unsettled (ps : list (option outcome)) : list nat :=
  filter (λ p, ps !! p = Some None) (seq 0 (length ps)).

Lemma elem_of_unsettled (ps : list (option outcome)) (p : nat) :
  p ∈ unsettled ps ↔ ps !! p = Some None.
Proof.
  unfold unsettled. rewrite list_elem_of_filter, elem_of_seq. split; [naive_solver|].
  intros Hp. split; [done|]. apply lookup_lt_Some in Hp. lia.
Qed.
Lemma NoDup_unsettled (ps : list (option outcome)) : NoDup (unsettled ps).
Proof. apply NoDup_filter, NoDup_seq. Qed.

Lemma unsettled_settle (ps : list (option outcome)) (p : nat) (o : outcome) :
  ps !! p = Some None → unsettled ps ≡ₚ p :: unsettled (<[p:=Some o]> ps).
Proof.
  intros Hp. apply NoDup_Permutation; [apply NoDup_unsettled| |].
  - constructor; [|apply NoDup_unsettled]. rewrite elem_of_unsettled, list_lookup_insert_eq; [done|].
    by eapply lookup_lt_Some.
  - intros q. rewrite elem_of_cons, !elem_of_unsettled. destruct (decide (q = p)) as [->|Hq]; [tauto|].
    rewrite list_lookup_insert_ne by done. tauto.
Qed.

Lemma unsettled_snoc (ps : list (option outcome)) (o : option outcome) :
  unsettled (ps ++ [o]) ≡ₚ (if o then [] else [length ps]) ++ unsettled ps.
Proof.
  apply NoDup_Permutation; [apply NoDup_unsettled| |].
  - destruct o; [apply NoDup_unsettled|]. constructor; [|apply NoDup_unsettled].
    rewrite elem_of_unsettled. by rewrite lookup_ge_None_2.
  - intros q. rewrite elem_of_app, !elem_of_unsettled.
    destruct (decide (q < length ps)%nat) as [Hq|Hq].
    + rewrite lookup_app_l by done. destruct o; set_solver by lia.
    + rewrite lookup_app_r by lia. rewrite (lookup_ge_None_2 ps) by lia.
      destruct (decide (q = length ps)) as [->|Hne].
      * rewrite Nat.sub_diag. destruct o; set_solver.
      * rewrite lookup_ge_None_2 by (simpl; lia). destruct o; set_solver by lia.
Qed.

(** Who holds a pending promise: buffered requests and pending slots. *)
Definition held_ids (b : list (string * list LoadRequest)) : list nat :=
  b ≫= λ g, req_resolve <$> g.2.
Definition holders (k : Core) : list nat := held_ids (k_buffer k) ++ omap sl_resolve (k_slots k).

Lemma held_ids_enqueue (op : string) (r : LoadRequest) (b : list (string * list LoadRequest)) :
  held_ids (mset op (default [] (mget op b) ++ [r]) b) ≡ₚ req_resolve r :: held_ids b.
Proof.
  unfold held_ids. induction b as [|[op' rs] b IH]; [done|]. cbn [mget mset].
  case_decide as Hd.
  - subst op'. cbn [default mbind list_bind snd]. rewrite fmap_app, <-(assoc_L (++)). cbn.
    by rewrite Permutation_middle.
  - cbn [mbind list_bind snd]. rewrite IH. by rewrite Permutation_middle.
Qed.

Lemma fill_slot (l : list slot) (c : nat) (sl sl' : slot) (p : nat) :
  l !! c = Some sl → sl_resolve sl = None → sl_resolve sl' = Some p →
  omap sl_resolve (<[c:=sl']> l) ≡ₚ p :: omap sl_resolve l.
Proof.
  intros Hc Hn Hp. rewrite insert_take_drop by (by eapply lookup_lt_Some).
  rewrite <-(take_drop_middle l c sl Hc) at 3. rewrite !omap_app. csimpl.
  rewrite Hn, Hp. by rewrite Permutation_middle.
Qed.

Lemma empty_slot_ids (l : list slot) (c : nat) (sl sl' : slot) (p : nat) :
  l !! c = Some sl → sl_resolve sl = Some p → sl_resolve sl' = None →
  omap sl_resolve l ≡ₚ p :: omap sl_resolve (<[c:=sl']> l).
Proof.
  intros Hc Hp Hn. rewrite <-(fill_slot (<[c:=sl']> l) c sl' sl p); [|by eapply list_lookup_insert_eq, lookup_lt_Some|done..].
  by rewrite list_insert_insert_eq, list_insert_id.
Qed.

(** ** The invariant *)

Section inv.
Context `{Codec} (N : Natives) (now : nat → float).

(** The input a raw cache key belongs to: the statement that no two inputs in
    use share a key. *)
Context (owner : string → string → list Z).

(** What a load may be answered with: the value of the single call or the one
    the native batch gives for the input by itself. *)
Definition answers (op : string) (i : list Z) (v : value) : Prop :=
  ∃ s, op_spec N op = Some s ∧ (scalar1 s i = Ok v ∨ batch1 s i = Ok v).

(** What the promise of [load(op, i)] must settle with. *)
Definition settles (op : string) (i : list Z) (o : outcome) : Prop :=
  if hasRequiredRest op then o = Rejected (required_rest_error op)
  else ∃ v, o = Resolved v ∧ answers op i v.

(** The batched default key. *)
Definition fnv_batch (i : list Z) : result value :=
  match op_spec N "fnv1a64" with
  | Some s => batch1 s i
  | None => Throw (TypeError "Cannot read properties of undefined")
  end.

(** An input the client and the batch both accept, with its own default keys. *)
Record loadable (op : string) (i : list Z) : Prop := {
  ld_rest : hasRequiredRest op = false;
  ld_fits : fits i;
  ld_val : ∃ s v w, op_spec N op = Some s ∧ scalar1 s i = Ok v ∧ batch1 s i = Ok w;
  ld_key : ∃ z, rust N "fnv1a64" [ABytes i] = Ok (VBig z) ∧ owner op (pretty z) = i;
  ld_batch_key : ∃ z, fnv_batch i = Ok (VBig z) ∧ owner op (pretty z) = i;
}.

Definition key_good (op : string) (i : list Z) (k : option string) : Prop :=
  ∀ key, k = Some key → ∃ raw, key = cache_key op raw ∧ owner op raw = i.

(** The loads so far, by promise: op and input. *)
Notation loads := (list (string * list Z)).

Record req_good (ls : loads) (op : string) (r : LoadRequest) : Prop := {
  rg_origin : ls !! req_resolve r = Some (op, req_input r);
  rg_reject : req_reject r = req_resolve r;
  rg_key : key_good op (req_input r) (req_key r);
  rg_ok : loadable op (req_input r);
}.

Inductive slot_good (ls : loads) (T : list task) (op : string) (c : nat) : slot → Prop :=
  | slot_empty : slot_good ls T op c empty_slot
  | slot_full (i : list Z) (p : nat) (k : option string) :
      ls !! p = Some (op, i) → key_good op i k → loadable op i → TSingle op c ∈ T →
      slot_good ls T op c (Slot true (Some i) (Some p) (Some p) k).

Definition cached_ok (e : string * value) : Prop :=
  ∃ op raw, e.1 = cache_key op raw ∧ answers op (owner op raw) e.2.

Record Inv' (ls : loads) (cops : list string) (extra : list nat) (T : list task) (k : Core) : Prop := {
  iv_tasks : k_tasks k = T;
  iv_len : length (k_promises k) = length ls;
  iv_part : extra ++ holders k ≡ₚ unsettled (k_promises k);
  iv_settled : ∀ p o, k_promises k !! p = Some (Some o) →
                 ∃ op i, ls !! p = Some (op, i) ∧ settles op i o;
  iv_cache : Forall cached_ok (entries (k_cache k));
  iv_buf : Forall (λ g : string * list LoadRequest, Forall (req_good ls g.1) g.2) (k_buffer k);
  iv_slots_len : length (k_slots k) = length cops;
  iv_ctxs : ∀ op c, mget op (k_ctxs k) = Some c → cops !! c = Some op;
  iv_slots : ∀ c sl, k_slots k !! c = Some sl → ∃ op, cops !! c = Some op ∧ slot_good ls T op c sl;
  iv_sched : k_buffer k ≠ [] → k_scheduled k = true;
  iv_flush : k_scheduled k = true → TFlush ∈ T;
  iv_singles : ∀ op c, TSingle op c ∈ T → cops !! c = Some op ∧ is_Some (op_spec N op);
}.

Definition Inv (ls : loads) (extra : list nat) (T : list task) (k : Core) : Prop :=
  ∃ cops, Inv' ls cops extra T k.

Lemma Inv_perm (ls : loads) (e e' : list nat) (T : list task) (k : Core) :
  e ≡ₚ e' → Inv ls e T k → Inv ls e' T k.
Proof. intros He [cops []]. exists cops. split; auto. by rewrite <-He. Qed.

Lemma loadable_spec (op : string) (i : list Z) :
  loadable op i → ∃ s v w, op_spec N op = Some s ∧ scalar1 s i = Ok v ∧ batch1 s i = Ok w ∧
                           answers op i v ∧ answers op i w.
Proof.
  intros [_ _ (s & v & w & Hs & Hv & Hw) _ _]. exists s, v, w. split_and!; try done; exists s; auto.
Qed.

Lemma key_good_none (op : string) (i : list Z) : key_good op i None.
Proof. done. Qed.

Lemma key_good_some (op raw : string) (i : list Z) :
  owner op raw = i → key_good op i (Some (cache_key op raw)).
Proof. intros Ho k [= <-]. eauto. Qed.

(** A held promise is pending. *)
Lemma Inv_pending (ls : loads) (p : nat) (e : list nat) (T : list task) (k : Core) :
  Inv ls (p :: e) T k → k_promises k !! p = Some None.
Proof.
  intros [cops Hi]. apply elem_of_unsettled. rewrite <-(iv_part _ _ _ _ _ Hi). set_solver.
Qed.

(** The number of requests in progress is at most the number of loads. *)
Lemma Inv_extra_length (ls : loads) (e : list nat) (T : list task) (k : Core) :
  Inv ls e T k → (length e ≤ length ls)%nat.
Proof.
  intros [cops Hi]. pose proof (Permutation_length (iv_part _ _ _ _ _ Hi)) as Hl.
  rewrite length_app in Hl. rewrite <-(iv_len _ _ _ _ _ Hi).
  assert (length (unsettled (k_promises k)) ≤ length (k_promises k))%nat; [|lia].
  unfold unsettled. etrans; [apply length_filter|]. by rewrite length_seq.
Qed.

(** *** Core operations *)

Lemma hoare_settle ls p o op i e T :
  ls !! p = Some (op, i) → settles op i o →
  hoare (Inv ls (p :: e) T) (settle p o) (λ _, Inv ls e T).
Proof.
  intros Hl Ha s Hs. pose proof (Inv_pending _ _ _ _ _ Hs) as Hp. destruct Hs as [cops Hi].
  unfold settle, modify. eexists tt, _. split; [done|].
  change (k_promises (core s)) with (promises s) in Hp. rewrite Hp.
  exists cops. destruct Hi. split; try done; simpl in *.
  - by rewrite length_insert.
  - apply (Permutation_cons_inv (a := p)). rewrite <-unsettled_settle by done.
    rewrite <-iv_part0. done.
  - intros q o'. destruct (decide (q = p)) as [->|Hq].
    + rewrite list_lookup_insert_eq by (by eapply lookup_lt_Some). intros [= <-]. eauto.
    + rewrite list_lookup_insert_ne by done. apply iv_settled0.
Qed.

Lemma hoare_resolve ls p v op i e T :
  ls !! p = Some (op, i) → loadable op i → answers op i v →
  hoare (Inv ls (p :: e) T) (resolve p v) (λ _, Inv ls e T).
Proof.
  intros Hl Hld Hv. eapply hoare_settle; [done|]. unfold settles. rewrite (ld_rest _ _ Hld). eauto.
Qed.

Lemma entries_get (key : string) (c : LoaderCache) :
  Forall cached_ok (entries c) →
  Forall cached_ok (entries (cache_get key c).2) ∧
  ∀ v, (cache_get key c).1 = Some v → cached_ok (key, v).
Proof.
  destruct c as [|l]; simpl; [done|]. intros Hall. unfold lru_get, lookup_defined.
  destruct (mget key (lmap l)) as [w|] eqn:E; [|done].
  assert (Hw : cached_ok (key, w)) by (apply mget_Some_elem in E; by apply (proj1 (Forall_forall _ _) Hall)).
  assert (Hm : Forall cached_ok (mset key w (mdel key (lmap l)))) by (apply Forall_mset; [by apply Forall_mdel|done]).
  destruct w; try done; (split; [exact Hm|by intros v [= <-]]).
Qed.

Lemma entries_set (key : string) (v : value) (c : LoaderCache) :
  Forall cached_ok (entries c) → cached_ok (key, v) → Forall cached_ok (entries (cache_set key v c)).
Proof.
  destruct c as [|l]; simpl; [done|]. intros Hall Hk. unfold lru_set.
  assert (Hm : Forall cached_ok (mset key v (if mhas key (lmap l) then mdel key (lmap l) else lmap l)))
    by (apply Forall_mset; [case_match; [by apply Forall_mdel|done]|done]).
  repeat case_match; simpl; auto using Forall_mdel.
Qed.

Lemma hoare_cache_get ls key e T :
  hoare (Inv ls e T) (the_cache_get key)
    (λ r k, (∀ v, r = Some v → cached_ok (key, v)) ∧ Inv ls e T k).
Proof.
  intros s [cops Hi]. unfold the_cache_get.
  destruct (entries_get key (cache s) (iv_cache _ _ _ _ _ Hi)) as [Ha Hv].
  destruct (cache_get key (cache s)) as [r c] eqn:E. simpl in Ha, Hv.
  eexists r, _. split; [done|]. split; [done|]. exists cops. destruct Hi. by split.
Qed.

Lemma hoare_cache_set ls key v e T :
  cached_ok (key, v) → hoare (Inv ls e T) (the_cache_set key v) (λ _, Inv ls e T).
Proof.
  intros Hk s [cops Hi]. eexists tt, _. split; [done|]. exists cops. destruct Hi. split; try done.
  by apply entries_set.
Qed.

(** A hit under a key of this op and input is an answer to the input. *)
Lemma hit_value op i key v :
  is_Some (op_spec N op) → key_good op i (Some key) → cached_ok (key, v) → answers op i v.
Proof.
  intros Hop Hk (op' & raw & E & Hv). simpl in *.
  destruct (Hk key eq_refl) as (raw0 & E0 & Ho). rewrite E0 in E.
  assert (Hop' : is_Some (op_spec N op')) by (destruct Hv as (s & Hs & _); eauto).
  apply cache_key_inj in E as [-> ->]; [|by eapply registry_names..]. by rewrite <-Ho.
Qed.

Lemma cached_value op i key v :
  key_good op i (Some key) → answers op i v → cached_ok (key, v).
Proof.
  intros Hk Hv. destruct (Hk key eq_refl) as (raw & -> & Ho). exists op, raw.
  split; [done|]. by rewrite Ho.
Qed.

Lemma hoare_maybeCache ls op req v e T :
  req_good ls op req → answers op (req_input req) v →
  hoare (Inv ls e T) (maybeCache req v) (λ _, Inv ls e T).
Proof.
  intros Hr Hv. unfold maybeCache. destruct (req_key req) as [key|] eqn:Ek.
  - apply hoare_cache_set. eapply cached_value; [|done]. rewrite <-Ek. apply Hr.
  - apply (hoare_ret tt (λ _, Inv ls e T)).
Qed.

(** Settling a request with its value. *)
Lemma hoare_answer ls op req v e T :
  req_good ls op req → answers op (req_input req) v →
  hoare (Inv ls (req_resolve req :: e) T) (resolve (req_resolve req) v) (λ _, Inv ls e T).
Proof. intros Hr Hv. eapply hoare_resolve; [apply Hr..|done]. Qed.

Lemma hoare_deliver ls op req v e T :
  req_good ls op req → answers op (req_input req) v →
  hoare (Inv ls (req_resolve req :: e) T)
    (maybeCache req v ;; resolve (req_resolve req) v) (λ _, Inv ls e T).
Proof.
  intros Hr Hv. eapply hoare_bind; [by eapply hoare_maybeCache|]. intros ?. by eapply hoare_answer.
Qed.

Lemma hoare_compute_one ls c spec op req e T :
  op_spec N op = Some spec → req_good ls op req →
  hoare (Inv ls (req_resolve req :: e) T) (compute_one now c spec req) (λ _, Inv ls e T).
Proof.
  intros Hs Hr. destruct (loadable_spec _ _ (rg_ok _ _ _ Hr)) as (s & v & w & Hs' & Hv & _ & Hval & _).
  rewrite Hs in Hs'. injection Hs' as <-. unfold compute_one.
  eapply hoare_quiet_bind; [by apply quiet_dispatchSingle|]. intros r ->.
  eapply hoare_deliver; eauto.
Qed.

(** The scalar default key of a loadable input. *)
Lemma quiet_default_key op i :
  loadable op i → quiet (default_key N op i) (λ k, key_good op i (Some k)).
Proof.
  intros [_ _ _ (z & Hz & Ho) _]. unfold default_key.
  eapply quiet_bind; [rewrite Hz; apply (quiet_lift _ (λ k, k = VBig z)); done|].
  intros k ->. apply quiet_ret. by apply key_good_some.
Qed.

Lemma with_key_good ls op req k :
  req_good ls op req → key_good op (req_input req) k → req_good ls op (with_key k req).
Proof. intros [] Hk. by split. Qed.

(** *** The flush of one request *)
Lemma hoare_flush_one ls c spec op req e T :
  op_spec N op = Some spec → req_good ls op req →
  hoare (Inv ls (req_resolve req :: e) T) (flush_one N now c spec op req) (λ _, Inv ls e T).
Proof.
  intros Hs Hr. assert (Hop : is_Some (op_spec N op)) by eauto. unfold flush_one.
  do 2 quiet_step. eapply hoare_quiet_bind with (R := λ _, True).
  { apply quiet_when; [done|]. quiet_step. apply quiet_on_ctx. intros x. by case_decide. }
  intros _ _. apply hoare_try. destruct (req_needsDefaultKey req); [|by eapply hoare_compute_one].
  quiet_step. case_match; [|by eapply hoare_compute_one]. quiet_step.
  eapply hoare_quiet_bind; [apply quiet_default_key, Hr|]. intros key Hk.
  eapply hoare_bind; [apply hoare_cache_get|]. intros [v|]; apply hoare_pure; intros Hhit.
  - do 2 quiet_step. apply (hoare_answer ls op); [done|].
    apply (hit_value op _ key); [done..|by apply Hhit].
  - apply (hoare_compute_one ls c spec op (with_key (Some key) req)); [done|].
    by apply with_key_good.
Qed.

(** *** The flush of a group *)

Context (Hspecs : ∀ op s, op_spec N op = Some s → hasRequiredRest op = false → spec_ok s).

Lemma hoare_extra_length {A} ls e T (m : M A) Q :
  ((length e ≤ length ls)%nat → hoare (Inv ls e T) m Q) → hoare (Inv ls e T) m Q.
Proof. intros Hm s Hs. apply Hm; [by eapply Inv_extra_length|done]. Qed.

(** Every value of a list answers the request at its index. *)
Definition all_answer (op : string) (reqs : list LoadRequest) (vs : list value) : Prop :=
  ∀ (j : nat) req, reqs !! j = Some req → ∃ v, vs !! j = Some v ∧ answers op (req_input req) v.

Lemma all_answer_cons op req reqs v vs :
  answers op (req_input req) v → all_answer op reqs vs → all_answer op (req :: reqs) (v :: vs).
Proof. intros Hv Hvs [|j] r Hj; simpl in *; [|eauto]. injection Hj as <-. eauto. Qed.

Lemma group_values ls op spec reqs :
  op_spec N op = Some spec → Forall (req_good ls op) reqs →
  Forall fits (req_input <$> reqs) ∧
  ∃ vs ws, mapM (scalar1 spec) (req_input <$> reqs) = Ok vs ∧
    mapM (batch1 spec) (req_input <$> reqs) = Ok ws ∧ all_answer op reqs vs ∧ all_answer op reqs ws.
Proof.
  intros Hs. induction 1 as [|req reqs Hr Hrs (Hf & vs & ws & Hm & Hmw & Hvs & Hws)].
  { by split; [|exists [], []]. }
  destruct (loadable_spec _ _ (rg_ok _ _ _ Hr)) as (s & v & w & Hs' & Hv & Hw & Hav & Haw).
  rewrite Hs in Hs'. injection Hs' as <-.
  split; [constructor; [apply Hr|done]|]. exists (v :: vs), (w :: ws).
  split_and!; [by apply mapM_cons_Ok|by apply mapM_cons_Ok|by apply all_answer_cons..].
Qed.

Lemma hoare_resolve_all ls op read i reqs e T :
  Forall (req_good ls op) reqs →
  (∀ (j : nat) req, reqs !! j = Some req →
     ∃ v, read (i + Z.of_nat j) = Ok v ∧ answers op (req_input req) v) →
  hoare (Inv ls ((req_resolve <$> reqs) ++ e) T) (resolve_all read i reqs) (λ _, Inv ls e T).
Proof.
  intros Hall. revert i. induction Hall as [|req reqs Hr Hrs IH]; intros i Hread.
  { apply (hoare_ret tt (λ _, Inv ls e T)). }
  destruct (Hread 0%nat req eq_refl) as (v & Hv & Hval). rewrite Z.add_0_r in Hv.
  cbn [resolve_all]. rewrite Hv.
  eapply hoare_quiet_bind; [apply (quiet_lift v (λ w, w = v)); done|]. intros ? ->.
  eapply hoare_bind; [by eapply hoare_maybeCache|]. intros ?.
  eapply hoare_bind; [by eapply hoare_answer|]. intros ?.
  apply (IH (i + 1)). intros j r Hj. destruct (Hread (S j) r Hj) as (w & Hw & Hvw).
  exists w. split; [|done]. by replace (i + 1 + Z.of_nat j) with (i + Z.of_nat (S j)) by lia.
Qed.

Lemma hoare_flush_bulk ls c op spec reqs e T :
  op_spec N op = Some spec → reqs ≠ [] → Forall (req_good ls op) reqs → zlen ls < U32 →
  hoare (Inv ls ((req_resolve <$> reqs) ++ e) T) (flush_bulk now c spec reqs) (λ _, Inv ls e T).
Proof.
  intros Hs Hne Hall Hls. apply hoare_extra_length. intros Hlen.
  rewrite length_app, length_fmap in Hlen.
  destruct (group_values ls op spec reqs Hs Hall) as (Hfs & vs & ws & Hm & Hmw & Hvs & Hws).
  assert (Hok : spec_ok spec).
  { destruct reqs as [|r ?]; [done|]. inversion Hall as [|? ? Hr]. by eapply Hspecs, Hr. }
  apply hoare_try. eapply hoare_quiet_bind.
  { apply (quiet_dispatchBulk now c spec _ vs ws); try done. unfold fits, zlen in *.
    rewrite length_fmap. lia. }
  assert (Hread : ∀ b xs, reads_back spec b xs → all_answer op reqs xs →
    ∀ (j : nat) req, reqs !! j = Some req →
      ∃ v, Ok (element spec b (0 + Z.of_nat j)) = Ok v ∧ answers op (req_input req) v).
  { intros b xs Hb Hxs j req Hj. destruct (Hxs j req Hj) as (v & Hv & Hval). exists v.
    rewrite Z.add_0_l. by rewrite (Hb j v Hv). }
  intros b [Hb|Hb]; eapply hoare_resolve_all; eauto.
Qed.

(** The reusable buffers. *)
Lemma ensure_size_ge (buf : list Z) (n grown : Z) : 0 ≤ n ≤ grown → n ≤ zlen (ensure_size buf n grown).
Proof. intros Hn. unfold ensure_size. case_decide; [rewrite zlen_new_u8|]; lia. Qed.

Lemma pack_scratch_ok (inputs : list (list Z)) (buf : list Z) :
  packedTotal inputs ≤ zlen buf →
  ∃ buf', pack_scratch inputs buf = Ok buf' ∧ zlen buf' = zlen buf ∧
          subarray buf' 0 (packedTotal inputs) = layout_batch inputs.
Proof.
  intros Hle. pose proof (writePack_ok inputs buf 0 ltac:(lia) ltac:(lia)) as Hw.
  unfold writePack in Hw. rewrite decide_False in Hw by lia. exists (splice buf 0 (layout_batch inputs)).
  split.
  - unfold pack_scratch. destruct (dv_set 4 buf 0 (zlen inputs)) as [t1|]; [|done].
    rewrite !bind_ret in *. change (0 + 4) with 4 in Hw.
    destruct (write_items inputs t1 4) as [t2|]; [|done]. by injection Hw as ->.
  - rewrite packedTotal_layout in *. split; [by apply zlen_splice|].
    rewrite splice_prefix by done. apply subarray_prefix.
Qed.

(** The packed keys of a flush belong to the inputs of their requests. *)
Definition keys_good (op : string) (reqs : list LoadRequest) (i : Z) (kv : option (list Z)) : Prop :=
  ∀ kb, kv = Some kb → ∀ (j : nat) req, reqs !! j = Some req →
    ∃ z, dv_get 8 kb (4 + (i + Z.of_nat j) * 8) = Ok z ∧ owner op (pretty z) = req_input req.

Lemma fnv_values ls op reqs :
  Forall (req_good ls op) reqs →
  ∃ zs : list Z,
    mapM fnv_batch (req_input <$> reqs) = Ok (VBig <$> zs) ∧
    ∀ (j : nat) req, reqs !! j = Some req → ∃ z, zs !! j = Some z ∧ owner op (pretty z) = req_input req.
Proof.
  induction 1 as [|req reqs Hr Hrs (zs & Hm & Hzs)]; [by exists []|].
  destruct (ld_batch_key _ _ (rg_ok _ _ _ Hr)) as (z & Hz & Ho). exists (z :: zs).
  split; [by apply mapM_cons_Ok|].
  intros [|j] r Hj; simpl in *; [|eauto]. injection Hj as <-. eauto.
Qed.

Lemma quiet_flush_keys ls c op reqs scratch total :
  Forall (req_good ls op) reqs → fits reqs →
  subarray scratch 0 total = layout_batch (req_input <$> reqs) →
  quiet (flush_keys N c reqs scratch total) (keys_good op reqs 0).
Proof.
  intros Hall Hf Hsub. unfold flush_keys.
  eapply quiet_bind with (P := λ _, True).
  { case_match; [auto with quiet|by apply quiet_ret]. }
  intros b _. destruct b; [|by apply quiet_ret]. quiet_step.
  intros s. set (n := 4 + zlen reqs * 8). set (kb := ensure_size (keyScratch s) n n).
  destruct (fnv_values ls op reqs Hall) as (zs & Hm & Hzs).
  unfold fnv_batch in Hm. destruct (op_spec N "fnv1a64") as [fs|] eqn:Hfs; [|done].
  assert (Hok : spec_ok fs) by (by eapply Hspecs).
  injection Hfs as Hfs.
  assert (Hkb : f_outSize (Fast (fastInto N "fnv1A64BatchPackedInto") u64Fast i64OutSize)
                  (zlen (req_input <$> reqs)) ≤ zlen kb).
  { simpl. rewrite zlen_fmap. unfold i64OutSize. apply ensure_size_ge. subst n. zlen_facts. lia. }
  assert (Hfits : Forall fits (req_input <$> reqs)).
  { apply Forall_fmap. eapply Forall_impl; [exact Hall|]. intros r Hr. apply Hr. }
  destruct (so_fast fs Hok (Fast (fastInto N "fnv1A64BatchPackedInto") u64Fast i64OutSize)
              (req_input <$> reqs) (VBig <$> zs) kb) as (kb' & Hb & _ & Hel);
    [by subst fs|by apply fits_fmap|done|exact Hm|exact Hkb|].
  simpl in Hb. eexists (Some kb'), _. split_and!.
  - unfold mbind, M_bind, gets, modify, lift. simpl. fold n kb. unfold fnvBatchKeysInto.
    rewrite Hsub, Hb. done.
  - done.
  - intros ? [= <-] j req Hj. destruct (Hzs j req Hj) as (z & Hz & Ho). exists z. split; [|done].
    specialize (Hel j (VBig z)). rewrite list_lookup_fmap, Hz in Hel. specialize (Hel eq_refl).
    simpl in Hel. unfold u64Fast in Hel. rewrite Z.add_0_l.
    destruct (dv_get 8 kb' (4 + Z.of_nat j * 8)); [|done]. by injection Hel as ->.
Qed.

Lemma hoare_resolve_hits ls c op kv i reqs e T :
  is_Some (op_spec N op) → Forall (req_good ls op) reqs → keys_good op reqs i kv →
  hoare (Inv ls ((req_resolve <$> reqs) ++ e) T) (resolve_hits c op kv i reqs)
    (λ misses k, (Forall (req_good ls op) misses ∧ zlen misses ≤ zlen reqs ∧
                  packedTotal (req_input <$> misses) ≤ packedTotal (req_input <$> reqs)) ∧
                 Inv ls ((req_resolve <$> misses) ++ e) T k).
Proof.
  intros Hop Hall. revert i e. induction Hall as [|req reqs Hr Hrs IH]; intros i e Hkv.
  { eapply hoare_pre; [apply hoare_ret|]. intros k Hk. split; [|exact Hk]. by split_and!. }
  cbn [resolve_hits].
  eapply hoare_quiet_bind with (R := λ key, key_good op (req_input req) key).
  { destruct (req_key req) as [key|] eqn:Ek; [apply quiet_ret; rewrite <-Ek; apply Hr|].
    destruct kv as [kb|]; [|by apply quiet_ret]. case_match; [|by apply quiet_ret].
    destruct (Hkv kb eq_refl 0%nat req eq_refl) as (z & Hz & Ho). rewrite Z.add_0_r in Hz.
    rewrite Hz. eapply quiet_bind; [apply (quiet_lift z (λ w, w = z)); done|].
    intros ? ->. apply quiet_ret. by apply key_good_some. }
  intros key Hkey.
  assert (Hkv' : keys_good op reqs (i + 1) kv).
  { intros kb Hkb j r Hj. destruct (Hkv kb Hkb (S j) r Hj) as (z & Hz & Ho). exists z.
    by replace (i + 1 + Z.of_nat j) with (i + Z.of_nat (S j)) by lia. }
  eapply hoare_bind with (R := λ hit k,
    (∀ v, hit = Some v → answers op (req_input req) v) ∧
    Inv ls ((req_resolve <$> req :: reqs) ++ e) T k).
  { destruct key as [key|].
    - eapply hoare_post; [apply hoare_cache_get|]. intros hit k [Hhit Hk]. split; [|done].
      intros v Hv. apply (hit_value op _ key); auto.
    - eapply hoare_pre; [apply hoare_ret|]. intros k Hk. by split. }
  intros [v|]; apply hoare_pure; intros Hhit.
  - quiet_step. eapply hoare_quiet_bind; [by apply quiet_when, quiet_on_ctx|]. intros _ _.
    eapply hoare_bind; [apply (hoare_answer ls op); auto|]. intros ?.
    eapply hoare_post; [by apply IH|]. intros misses k [(Hm & Hl & Hp) Hk]. split; [|exact Hk].
    split_and!; [done|zlia|]. rewrite !packedTotal_layout in *. unfold layout_batch in *.
    rewrite fmap_cons, layout_items_cons. zlia.
  - eapply hoare_bind.
    + eapply hoare_pre; [apply (IH (i + 1) (req_resolve req :: e)); done|]. intros k.
      apply Inv_perm. rewrite fmap_cons. simpl. by rewrite Permutation_middle.
    + intros misses. eapply hoare_pre; [apply hoare_ret|]. intros k [(Hm & Hl & Hp) Hk].
      split; [split_and!|].
      * constructor; [by apply with_key_good|done].
      * zlia.
      * rewrite !packedTotal_layout in *. unfold layout_batch in *.
        rewrite !fmap_cons, !layout_items_cons.
        change (req_input (with_key key req)) with (req_input req). zlia.
      * revert Hk. apply Inv_perm. rewrite fmap_cons. simpl. by rewrite Permutation_middle.
Qed.

Lemma hoare_flush_fast ls c op spec f reqs e T :
  op_spec N op = Some spec → fast spec = Some f → reqs ≠ [] →
  Forall (req_good ls op) reqs → zlen ls < U32 →
  hoare (Inv ls ((req_resolve <$> reqs) ++ e) T) (flush_fast N c f op reqs) (λ _, Inv ls e T).
Proof.
  intros Hs Hf Hne Hall Hls. apply hoare_extra_length. intros Hlen.
  rewrite length_app, length_fmap in Hlen.
  assert (Hfit : fits reqs) by (unfold fits, zlen in *; lia).
  assert (Hok : spec_ok spec).
  { destruct reqs as [|r ?]; [done|]. inversion Hall as [|? ? Hr]. by eapply Hspecs, Hr. }
  unfold flush_fast. do 2 quiet_step. set (total := packedTotal (req_input <$> reqs)).
  eapply hoare_quiet_bind with (R := λ buf, total ≤ zlen buf).
  { intros s. eexists _, s. split_and!; [done..|]. apply ensure_size_ge.
    pose proof (packedTotal_pos (req_input <$> reqs)). subst total. lia. }
  intros buf Hbuf. destruct (pack_scratch_ok (req_input <$> reqs) buf Hbuf) as (scratch & -> & Hz & Hsub).
  eapply hoare_quiet_bind; [apply (quiet_lift scratch (λ x, x = scratch)); done|]. intros ? ->.
  quiet_step. eapply hoare_quiet_bind; [by eapply quiet_flush_keys|]. intros kv Hkv.
  eapply hoare_bind; [apply hoare_resolve_hits; eauto|]. intros misses. apply hoare_pure.
  intros (Hm & Hml & Hmp). case_decide as Hd.
  { subst misses. apply (hoare_ret tt (λ _, Inv ls e T)). }
  destruct (pack_scratch_ok (req_input <$> misses) scratch) as (scratch2 & -> & _ & Hsub2);
    [subst total; lia|].
  eapply hoare_quiet_bind; [apply (quiet_lift scratch2 (λ x, x = scratch2)); done|]. intros ? ->.
  quiet_step. destruct (group_values ls op spec misses Hs Hm) as (Hfs & _ & ws & _ & Hwm & _ & Hws).
  assert (Hfm : fits (req_input <$> misses)) by (apply fits_fmap; unfold fits in *; lia).
  eapply hoare_quiet_bind with (R := λ out, f_outSize f (zlen misses) ≤ zlen out).
  { intros s. eexists _, s. split_and!; [done..|]. unfold ensure_size. case_decide as Hc; [|lia].
    unfold new_u8. rewrite zlen_replicate. lia. }
  intros out Hout. quiet_step. apply hoare_try. rewrite Hsub2.
  destruct (so_fast spec Hok f (req_input <$> misses) ws out Hf Hfm Hfs Hwm) as (out' & -> & _ & Hel);
    [by rewrite zlen_fmap|].
  eapply hoare_quiet_bind; [apply (quiet_lift out' (λ x, x = out')); done|]. intros ? ->.
  quiet_step. eapply hoare_resolve_all; [done|]. intros j req Hj.
  destruct (Hws j req Hj) as (v & Hv & Hval). exists v. split; [|done].
  rewrite Z.add_0_l. by apply Hel.
Qed.

(** *** Contexts *)

Definition at_ctx (op : string) (c : nat) (k : Core) : Prop := mget op (k_ctxs k) = Some c.

Lemma iv_slots_snoc ls cops op e T k p :
  Inv' ls cops e T k → slot_of p = empty_slot → mget op (k_ctxs k) = None →
  Inv' ls (cops ++ [op]) e T
    (MkCore (k_promises k) (k_buffer k) (k_scheduled k) (k_cache k)
       (mset op (length (k_slots k)) (k_ctxs k)) (k_tasks k) (k_slots k ++ [slot_of p])).
Proof.
  intros Hi Hp Hn. rewrite Hp. clear Hp p. destruct Hi. split; try done; simpl.
  - unfold holders in *. simpl. rewrite omap_app. csimpl. by rewrite app_nil_r.
  - rewrite !length_app, iv_slots_len0. done.
  - intros op' c. rewrite mget_mset. case_decide as Hd.
    + intros [= <-]. subst op'. rewrite iv_slots_len0. by rewrite lookup_app_r, Nat.sub_diag by lia.
    + intros Hc. apply iv_ctxs0 in Hc. by apply lookup_app_l_Some.
  - intros c sl [Hc|[Hge Hc]]%lookup_app_Some.
    + destruct (iv_slots0 c sl Hc) as (op' & Ho & Hg). exists op'. split; [|done].
      by apply lookup_app_l_Some.
    + apply list_lookup_singleton_Some in Hc as [E <-]. exists op.
      split; [|constructor]. rewrite lookup_app_r by lia.
      by replace (c - length cops)%nat with 0%nat by lia.
  - intros op' c Ht. destruct (iv_singles0 op' c Ht). split; [by apply lookup_app_l_Some|done].
Qed.

Lemma hoare_ctxFor ls op e T :
  hoare (Inv ls e T) (ctxFor op) (λ c k, at_ctx op c k ∧ Inv ls e T k).
Proof.
  intros s [cops Hi]. unfold ctxFor, gets, modify, mbind, M_bind.
  destruct (mget op (ctxs s)) as [c|] eqn:E.
  - eexists c, s. split; [done|]. split; [done|]. by exists cops.
  - cbn -[mset]. eexists _, _. split; [done|]. split; [apply mget_mset_eq|]. exists (cops ++ [op]).
    pose proof (iv_slots_snoc ls cops op e T (core s)
      (Ctx (Cost.createCostModel (Some (o_adaptive (options s))) (Some (o_batchMin (options s))))
         (Counters 0 0 0 0) (o_sampleEvery (options s)) 0
         (if decide (o_loadStrategy (options s) = OnlySingle) then MSingle else MCoalesce)
         0 false None None None None 0 0 0) Hi eq_refl E) as Hs.
    unfold core in *. cbn -[mset] in *. rewrite length_fmap in Hs. by rewrite fmap_app.
Qed.

Lemma quiet_the_spec op spec :
  op_spec N op = Some spec → quiet (the_spec N op) (λ s, s = spec).
Proof. intros Hs. unfold the_spec. rewrite Hs. by apply quiet_lift. Qed.

(** *** Flushes *)

Lemma hoare_handleFlush ls op reqs e T :
  is_Some (op_spec N op) → reqs ≠ [] → Forall (req_good ls op) reqs → zlen ls < U32 →
  hoare (Inv ls ((req_resolve <$> reqs) ++ e) T) (handleFlush N now op reqs) (λ _, Inv ls e T).
Proof.
  intros [spec Hs] Hne Hall Hls. unfold handleFlush. quiet_step.
  eapply hoare_bind; [apply hoare_ctxFor|]. intros c.
  eapply hoare_pre; [|intros k [_ Hk]; exact Hk].
  eapply hoare_quiet_bind; [by apply quiet_the_spec|]. intros ? ->.
  destruct reqs as [|r1 [|r2 reqs]]; [done| |].
  - inversion Hall as [|? ? Hr]. by apply hoare_flush_one.
  - quiet_step. destruct (fast spec) as [f|] eqn:Hf.
    + by eapply hoare_flush_fast.
    + by eapply hoare_flush_bulk.
Qed.

Lemma req_good_spec ls op r : req_good ls op r → is_Some (op_spec N op).
Proof.
  intros Hr. destruct (loadable_spec _ _ (rg_ok _ _ _ Hr)) as (s & v & w & Hs & _). by exists s.
Qed.

(** The flush of a whole snapshot, one group after the other. *)
Lemma hoare_flush_groups ls groups e T :
  zlen ls < U32 →
  Forall (λ g : string * list LoadRequest, Forall (req_good ls g.1) g.2) groups →
  hoare (Inv ls (held_ids groups ++ e) T)
    (for_each (λ g : string * list LoadRequest,
       when (negb (bool_decide (g.2 = []))) (handleFlush N now g.1 g.2)) groups)
    (λ _, Inv ls e T).
Proof.
  intros Hls. induction 1 as [|[op reqs] groups Hg Hgs IH].
  { apply (hoare_ret tt (λ _, Inv ls e T)). }
  cbn [for_each]. eapply hoare_bind with (R := λ _, Inv ls (held_ids groups ++ e) T); [|intros _; exact IH].
  simpl in Hg. unfold held_ids. cbn [mbind list_bind]. simpl.
  destruct (decide (reqs = [])) as [->|Hne].
  - apply (hoare_ret tt (λ _, Inv ls (held_ids groups ++ e) T)).
  - rewrite bool_decide_false by done. simpl. rewrite <-(assoc_L (++)).
    apply hoare_handleFlush; [|done..]. destruct reqs as [|r ?]; [done|].
    inversion Hg. by eapply req_good_spec.
Qed.

(** Emptying a full slot: its promise is in the hands of the code. *)
Lemma Inv'_take_slot ls cops c i p key e T k :
  Inv' ls cops e T k → k_slots k !! c = Some (Slot true (Some i) (Some p) (Some p) key) →
  Inv' ls cops (p :: e) T
    (MkCore (k_promises k) (k_buffer k) (k_scheduled k) (k_cache k) (k_ctxs k) (k_tasks k)
       (<[c:=empty_slot]> (k_slots k))).
Proof.
  intros Hi Hc. destruct Hi. split; try done; simpl.
  - rewrite <-iv_part0. unfold holders. simpl.
    rewrite (empty_slot_ids (k_slots k) c _ empty_slot p Hc) by done. simpl.
    by rewrite <-!Permutation_middle.
  - by rewrite length_insert.
  - intros c' sl Hc'. destruct (decide (c' = c)) as [->|Hne].
    + destruct (iv_slots0 c _ Hc) as (op' & Ho & _). exists op'. split; [done|].
      rewrite list_lookup_insert_eq in Hc' by (by eapply lookup_lt_Some). injection Hc' as <-.
      constructor.
    + rewrite list_lookup_insert_ne in Hc' by done. by apply iv_slots0.
Qed.

Lemma slots_set (c : nat) (f : OpDispatchCtx → OpDispatchCtx) (sl : slot) (h : list OpDispatchCtx) :
  (∀ x, slot_of (f x) = sl) → (c < length h)%nat →
  slot_of <$> alter f c h = <[c:=sl]> (slot_of <$> h).
Proof.
  intros Hf Hc. apply list_eq. intros i. rewrite list_lookup_fmap.
  destruct (decide (i = c)) as [->|Hi].
  - rewrite list_lookup_alter_eq, list_lookup_insert_eq by (by rewrite length_fmap).
    destruct (lookup_lt_is_Some_2 h c Hc) as [x ->]. simpl. by rewrite Hf.
  - by rewrite list_lookup_alter_ne, list_lookup_insert_ne, list_lookup_fmap.
Qed.

(** *** Microtasks *)

Definition with_tasks (T : list task) (k : Core) : Core :=
  MkCore (k_promises k) (k_buffer k) (k_scheduled k) (k_cache k) (k_ctxs k) T (k_slots k).

(** A task leaves the queue once what it stands for is in the hands of the code. *)
Lemma Inv'_pop ls cops e t T k :
  Inv' ls cops e (t :: T) k →
  (∀ op c, t = TSingle op c → k_slots k !! c = Some empty_slot) →
  (t = TFlush → k_scheduled k = false) →
  Inv' ls cops e T (with_tasks T k).
Proof.
  intros Hi Hs Hf. destruct Hi. split; try done; simpl.
  - intros c sl Hc. destruct (iv_slots0 c sl Hc) as (op & Ho & Hg). exists op. split; [done|].
    destruct Hg as [|i p key Hl Hk Hld Ht]; [constructor|]. constructor; try done.
    apply elem_of_cons in Ht as [<-|Ht]; [|done]. rewrite (Hs op c eq_refl) in Hc. done.
  - intros Hsch. apply iv_flush0 in Hsch as Ht. apply elem_of_cons in Ht as [<-|Ht]; [|done].
    rewrite (Hf eq_refl) in Hsch. done.
  - intros op c Ht. apply iv_singles0. set_solver.
Qed.

Lemma Inv'_take_buffer ls cops e T k :
  Inv' ls cops e T k →
  Inv' ls cops (held_ids (k_buffer k) ++ e) T
    (MkCore (k_promises k) [] false (k_cache k) (k_ctxs k) (k_tasks k) (k_slots k)).
Proof.
  intros Hi. destruct Hi. split; try done; simpl.
  rewrite <-iv_part0. unfold holders. simpl. unfold held_ids at 2. simpl.
  rewrite <-!(assoc_L (++)). by rewrite Permutation_app_swap_app.
Qed.

Lemma next_flush ls T s :
  zlen ls < U32 → Inv ls [] (TFlush :: T) (core s) →
  Inv ls [] T (core (exec (coalescer_flush N now) (set_microtasks T s))).
Proof.
  intros Hls [cops Hi]. pose proof (iv_buf _ _ _ _ _ Hi) as Hb.
  apply Inv'_take_buffer in Hi.
  apply (Inv'_pop _ _ _ _ T) in Hi; [|by intros|done].
  destruct (hoare_flush_groups ls (buffer s) [] T Hls Hb
              (set_pending 0 (set_buffer [] (set_scheduled false (set_microtasks T s)))))
    as ([] & s' & E & Hi'); [by exists cops|].
  unfold exec, coalescer_flush, modify, gets, mbind, M_bind. simpl. unfold M_bind, mbind in E.
  simpl in E. by rewrite E.
Qed.

Lemma next_single ls op c T s :
  Inv ls [] (TSingle op c :: T) (core s) →
  Inv ls [] T (core (exec (flushSingle N now op c) (set_microtasks T s))).
Proof.
  intros [cops Hi].
  destruct (iv_singles _ _ _ _ _ Hi op c) as [Hc [spec Hs]]; [set_solver|].
  assert (Hlt : (c < length (heap s))%nat).
  { apply lookup_lt_Some in Hc. rewrite <-(iv_slots_len _ _ _ _ _ Hi) in Hc. simpl in Hc.
    by rewrite length_fmap in Hc. }
  destruct (lookup_lt_is_Some_2 _ _ Hlt) as [x Hx].
  assert (Hsl : k_slots (core s) !! c = Some (slot_of x)) by (simpl; by rewrite list_lookup_fmap, Hx).
  destruct (iv_slots _ _ _ _ _ Hi c _ Hsl) as (op' & Hop' & Hg).
  assert (op' = op) as -> by congruence.
  set (s2 := exec (clear_pending c) (set_microtasks T s)).
  assert (Hcore : core s2 = with_tasks T (MkCore (promises s) (buffer s) (scheduled s) (cache s)
                    (ctxs s) (microtasks s) (<[c:=empty_slot]> (slot_of <$> heap s)))).
  { unfold s2, exec, clear_pending, on_ctx, modify, core, with_tasks. simpl. f_equal.
    by apply slots_set. }
  assert (Hrun : flushSingle N now op c (set_microtasks T s) =
    match pendingInput x, pendingResolve x with
    | Some input, Some p =>
        try_catch
          (v ← dispatchSingle now c spec input [];
           match pendingKey x with Some k => the_cache_set k v | None => mret tt end ;;
           resolve p v)
          (λ e, match pendingReject x with Some p => reject p e | None => mret tt end)
    | _, _ => mret tt
    end s2).
  { unfold flushSingle. unfold mbind at 1, M_bind at 1. unfold the_spec. rewrite Hs. simpl.
    unfold mbind at 1, M_bind at 1. unfold gets. simpl.
    unfold ctx_at. simpl. rewrite Hx. simpl. unfold mbind at 1, M_bind at 1. unfold s2, exec.
    by destruct (clear_pending c (set_microtasks T s)) as [[]] eqn:E. }
  remember (slot_of x) as sl eqn:Hsx. destruct Hg as [|i p key Hl Hk Hld Ht].
  - assert (Hi2 : Inv ls [] T (core s2)).
    { exists cops. rewrite Hcore.
      rewrite (list_insert_id (slot_of <$> heap s)) by exact Hsl.
      apply (Inv'_pop _ _ _ (TSingle op c)); [exact Hi| |done]. by intros ?? [= <- <-]. }
    unfold exec. rewrite Hrun. assert (pendingInput x = None) as -> by (unfold slot_of, empty_slot in Hsx; congruence).
    exact Hi2.
  - assert (Hi2 : Inv ls [p] T (core s2)).
    { exists cops. rewrite Hcore. apply (Inv'_pop _ _ _ (TSingle op c)).
      - apply (Inv'_take_slot ls cops c i p key [] _ (core s) Hi Hsl).
      - intros ?? [= <- <-]. simpl. by rewrite list_lookup_insert_eq by (by rewrite length_fmap).
      - done. }
    unfold exec. rewrite Hrun. assert (pendingInput x = Some i ∧ pendingResolve x = Some p ∧ pendingReject x = Some p ∧
            pendingKey x = key) as (-> & -> & -> & ->)
      by (unfold slot_of in Hsx; split_and!; congruence).
    destruct (loadable_spec _ _ Hld) as (spec' & v & w & Hs' & Hv & _ & Hval & _).
    assert (spec' = spec) as -> by congruence.
    assert (Hh : hoare (Inv ls [p] T)
      (try_catch
         (v ← dispatchSingle now c spec i [];
          match key with Some k => the_cache_set k v | None => mret tt end ;; resolve p v)
         (λ e, reject p e)) (λ _, Inv ls [] T)).
    { apply hoare_try. eapply hoare_quiet_bind; [by apply quiet_dispatchSingle|]. intros ? ->.
      eapply hoare_bind with (R := λ _, Inv ls [p] T); [|intros _; by eapply hoare_resolve].
      destruct key as [k0|]; [|apply (hoare_ret tt (λ _, Inv ls [p] T))].
      apply hoare_cache_set. by eapply cached_value. }
    destruct (Hh s2 Hi2) as ([] & s' & E & Hi'). by rewrite E.
Qed.

(** *** Loads *)

Lemma req_good_mono ls l op r : req_good ls op r → req_good (ls ++ l) op r.
Proof. intros []. split; try done. by apply lookup_app_l_Some. Qed.

Lemma slot_good_mono ls l T T' op c sl :
  (∀ t, t ∈ T → t ∈ T') → slot_good ls T op c sl → slot_good (ls ++ l) T' op c sl.
Proof. intros HT []; constructor; auto. by apply lookup_app_l_Some. Qed.

Lemma hoare_new_promise ls e T op i o :
  (∀ x, o = Some x → settles op i x) →
  hoare (Inv ls e T) (new_promise o)
    (λ p k, p = length ls ∧ Inv (ls ++ [(op, i)]) ((if o then [] else [p]) ++ e) T k).
Proof.
  intros Ho s [cops Hi]. eexists _, _. split; [done|].
  pose proof (iv_len _ _ _ _ _ Hi) as Hlen. simpl in Hlen. split; [done|]. exists cops. destruct Hi.
  split; try done; simpl in *.
  - rewrite !length_app. simpl. lia.
  - rewrite unsettled_snoc. unfold holders in *. simpl in *. rewrite <-iv_part0.
    by rewrite <-(assoc_L (++)).
  - intros p x [Hp|[Hge Hp]]%lookup_app_Some.
    + destruct (iv_settled0 p x Hp) as (op' & i' & Hl & Ha). exists op', i'.
      split; [by apply lookup_app_l_Some|done].
    + apply list_lookup_singleton_Some in Hp as [E ->]. exists op, i. split; [|by apply Ho].
      rewrite lookup_app_r by lia. by replace (p - length ls)%nat with 0%nat by lia.
  - eapply Forall_impl; [exact iv_buf0|]. intros g Hg. eapply Forall_impl; [exact Hg|].
    intros r. apply req_good_mono.
  - intros c sl Hc. destruct (iv_slots0 c sl Hc) as (op' & Hop & Hg). exists op'. split; [done|].
    by eapply slot_good_mono.
Qed.

Lemma Inv'_push ls cops e T t k :
  Inv' ls cops e T k →
  (∀ op c, t = TSingle op c → cops !! c = Some op ∧ is_Some (op_spec N op)) →
  Inv' ls cops e (T ++ [t]) (with_tasks (T ++ [t]) k).
Proof.
  intros Hi Ht. destruct Hi. split; try done; simpl.
  - intros c sl Hc. destruct (iv_slots0 c sl Hc) as (op & Hop & Hg). exists op. split; [done|].
    rewrite <-(app_nil_r ls). eapply slot_good_mono; [|done]. set_solver.
  - intros Hs. apply iv_flush0 in Hs. set_solver.
  - intros op c [Hc|Hc%list_elem_of_singleton]%elem_of_app; [by apply iv_singles0|]. by apply Ht.
Qed.

Definition EInv (ls : loads) (e : list nat) (k : Core) : Prop := ∃ T, Inv ls e T k.

Lemma Forall_buffer ls op r b :
  Forall (λ g : string * list LoadRequest, Forall (req_good ls g.1) g.2) b → req_good ls op r →
  Forall (λ g : string * list LoadRequest, Forall (req_good ls g.1) g.2)
    (mset op (default [] (mget op b) ++ [r]) b).
Proof.
  intros Hb Hr. apply Forall_mset; [done|]. simpl. apply Forall_app. split; [|by constructor].
  destruct (mget op b) as [rs|] eqn:E; simpl; [|constructor].
  apply mget_Some_elem in E. by apply (proj1 (Forall_forall _ _) Hb) in E.
Qed.

Lemma hoare_enqueue ls op r e :
  req_good ls op r →
  hoare (EInv ls (req_resolve r :: e)) (enqueue op r) (λ _, EInv ls e).
Proof.
  intros Hr s (T & cops & Hi).
  set (b' := mset op (default [] (mget op (buffer s)) ++ [r]) (buffer s)).
  assert (Hi' : ∀ T', (∀ t, t ∈ T → t ∈ T') → TFlush ∈ T' → (∀ op c, TSingle op c ∈ T' → TSingle op c ∈ T) →
    Inv' ls cops e T' (MkCore (promises s) b' true (cache s) (ctxs s) T' (slot_of <$> heap s))).
  { intros T' HT Hfl Hsi. destruct Hi. split; try done; simpl in *.
    - rewrite <-iv_part0. unfold holders. simpl. unfold b'. rewrite held_ids_enqueue. simpl.
      by rewrite <-Permutation_middle.
    - by apply Forall_buffer.
    - intros c sl Hc. destruct (iv_slots0 c sl Hc) as (op' & Hop & Hg). exists op'. split; [done|].
      rewrite <-(app_nil_r ls). by eapply slot_good_mono.
    - intros op' c Ht. by apply iv_singles0, Hsi. }
  pose proof (iv_tasks _ _ _ _ _ Hi) as HT. pose proof (iv_flush _ _ _ _ _ Hi) as Hfl.
  unfold enqueue, modify, gets, mbind, M_bind. simpl in *.
  destruct (scheduled s) eqn:Es; simpl; eexists tt, _; (split; [done|]).
  - exists T, cops. unfold core. simpl. rewrite Es, HT. apply Hi'; auto.
  - exists (T ++ [TFlush]), cops. unfold core. simpl. rewrite HT. apply Hi'; [set_solver..|].
    intros op' c [Ht|Ht]%elem_of_app; [done|]. by apply list_elem_of_singleton in Ht.
Qed.

Lemma hoare_EInv {A} ls e (m : M A) (Q : A → Core → Prop) :
  (∀ T, hoare (Inv ls e T) m (λ a k, Q a k)) → hoare (EInv ls e) m Q.
Proof. intros Hm s (T & Hs). by apply (Hm T). Qed.

(** Starting a load: its promise is handed to a slot or to the coalescer. *)
Lemma hoare_start_load ls op c i p key nd e :
  ls !! p = Some (op, i) → key_good op i key → loadable op i →
  hoare (λ k, at_ctx op c k ∧ EInv ls (p :: e) k) (start_load c op i key nd p) (λ _, EInv ls e).
Proof.
  intros Hl Hk Hld s [Hat (T & cops & Hi)].
  assert (Hreq : ∀ nd, req_good ls op (Request i p p key nd)) by (by intros ?).
  pose proof (iv_ctxs _ _ _ _ _ Hi op c Hat) as Hc.
  assert (Hlt : (c < length (heap s))%nat).
  { apply lookup_lt_Some in Hc. rewrite <-(iv_slots_len _ _ _ _ _ Hi) in Hc. simpl in Hc.
    by rewrite length_fmap in Hc. }
  destruct (lookup_lt_is_Some_2 _ _ Hlt) as [x Hx].
  assert (Hsl : k_slots (core s) !! c = Some (slot_of x)) by (simpl; by rewrite list_lookup_fmap, Hx).
  destruct (iv_slots _ _ _ _ _ Hi c _ Hsl) as (op' & Hop' & Hg). assert (op' = op) as -> by congruence.
  unfold start_load. unfold mbind at 1, M_bind at 1, gets. unfold ctx_at. rewrite Hx.
  change (default no_ctx (Some x)) with x.
  case_decide; [|by apply (hoare_enqueue ls op (Request i p p key nd) e (Hreq nd)); exists T, cops].
  remember (slot_of x) as sl eqn:Hsx. destruct Hg as [|i0 p0 k0 Hl0 Hk0 Hld0 Ht0].
  - (* the slot is free *)
    assert (pendingSingle x = false) as -> by (unfold slot_of, empty_slot in Hsx; congruence).
    unfold queueMicrotask, on_ctx, modify, mbind, M_bind. eexists tt, _. split; [done|].
    exists (T ++ [TSingle op c]), cops. unfold core. simpl.
    rewrite (slots_set c _ (Slot true (Some i) (Some p) (Some p) key)) by done.
    pose proof (Inv'_push ls cops _ T (TSingle op c) _ Hi) as Hi2.
    destruct (loadable_spec _ _ Hld) as (spec & v & w & Hs & _).
    destruct Hi2; [by intros ?? [= <- <-]|]. rewrite <-(iv_tasks _ _ _ _ _ Hi) in *.
    split; try done; simpl in *.
    + rewrite <-iv_part0. unfold holders. simpl.
      rewrite (fill_slot _ c empty_slot _ p Hsl) by done. by rewrite <-!Permutation_middle.
    + by rewrite length_insert.
    + intros c' sl Hc'. destruct (decide (c' = c)) as [->|Hne].
      * rewrite list_lookup_insert_eq in Hc' by (by rewrite length_fmap). injection Hc' as <-.
        exists op. split; [done|]. constructor; try done. set_solver.
      * rewrite list_lookup_insert_ne in Hc' by done. by apply iv_slots0.
  - (* a second load in the tick: both go to the coalescer *)
    assert (pendingSingle x = true ∧ pendingInput x = Some i0 ∧ pendingResolve x = Some p0 ∧
            pendingReject x = Some p0 ∧ pendingKey x = k0) as (-> & -> & -> & -> & ->)
      by (unfold slot_of in Hsx; split_and!; congruence).
    change (default i (Some i0)) with i0. change (default p (Some p0)) with p0.
    assert (Hh : hoare (EInv ls (p0 :: p :: e))
      (enqueue op (Request i0 p0 p0 k0 false) ;; enqueue op (Request i p p key false)) (λ _, EInv ls e)).
    { eapply hoare_bind with (R := λ _, EInv ls (p :: e)); [|intros _].
      - by apply (hoare_enqueue ls op (Request i0 p0 p0 k0 false) (p :: e)).
      - by apply (hoare_enqueue ls op (Request i p p key false) e). }
    set (s2 := exec (clear_pending c) (exec (on_ctx c (set_mode MCoalesce)) s)).
    assert (Hi2 : EInv ls (p0 :: p :: e) (core s2)).
    { exists T, cops. pose proof (Inv'_take_slot ls cops c i0 p0 k0 _ _ _ Hi Hsl) as Hi2.
      unfold core in *. simpl in *. unfold s2, exec, clear_pending, on_ctx, modify. simpl.
      rewrite (slots_set c _ empty_slot), slots_alter; [done..|]. by rewrite length_alter. }
    destruct (Hh s2 Hi2) as ([] & s' & E & Hi'). exists tt, s'. split; [|done].
    rewrite <-E. reflexivity.
Qed.

Definition keyed_good (op : string) (i : list Z) (r : keyed) : Prop :=
  match r with Hit v => answers op i v | Keyed key _ => key_good op i key end.

Lemma hoare_cache_get_at ls op c key e T :
  hoare (λ k, at_ctx op c k ∧ Inv ls e T k) (the_cache_get key)
    (λ r k, (∀ v, r = Some v → cached_ok (key, v)) ∧ at_ctx op c k ∧ Inv ls e T k).
Proof.
  intros s [Hat Hi]. destruct (hoare_cache_get ls key e T s Hi) as (r & s' & E & Hr & Hi').
  exists r, s'. split; [done|]. split; [done|]. split; [|done].
  unfold the_cache_get in E. destruct (cache_get key (cache s)) as [v c']. by injection E as _ <-.
Qed.

Lemma hoare_load_key ls c op spec i explicit e T :
  loadable op i → (∀ raw, explicit = Some raw → owner op raw = i) →
  hoare (λ k, at_ctx op c k ∧ Inv ls e T k) (load_key N c spec op i explicit)
    (λ r k, keyed_good op i r ∧ at_ctx op c k ∧ Inv ls e T k).
Proof.
  intros Hld Hex. destruct (loadable_spec _ _ Hld) as (s & v & w0 & Hs & _).
  assert (Hop : is_Some (op_spec N op)) by eauto. unfold load_key.
  assert (Hret : ∀ r : keyed, keyed_good op i r →
    hoare (λ k, at_ctx op c k ∧ Inv ls e T k) (mret r)
      (λ r k, keyed_good op i r ∧ at_ctx op c k ∧ Inv ls e T k)).
  { intros r Hr. eapply hoare_pre; [apply hoare_ret|]. intros k Hk. by split. }
  destruct explicit as [raw|].
  - pose proof (key_good_some op raw i (Hex raw eq_refl)) as Hk.
    eapply hoare_bind; [apply hoare_cache_get_at|]. intros [w|]; apply hoare_pure; intros Hhit.
    + quiet_step. apply Hret. apply (hit_value op i (cache_key op raw)); auto.
    + by apply Hret.
  - do 2 quiet_step. case_decide; [by apply Hret|]. quiet_step. case_match; [|by apply Hret].
    quiet_step. eapply hoare_quiet_bind; [by apply quiet_default_key|]. intros key Hk.
    eapply hoare_bind; [apply hoare_cache_get_at|]. intros [w|]; apply hoare_pure; intros Hhit.
    + do 2 quiet_step. apply Hret. apply (hit_value op i key); auto.
    + by apply Hret.
Qed.

(** What a caller of [load] has to respect: a registered op, and for the ops it
    can coalesce, an input that the native side accepts and a key of its own. *)
Definition load_ok (op : string) (i : list Z) (o : LoadOptions) : Prop :=
  is_Some (op_spec N op) ∧
  (hasRequiredRest op = false → loadable op i ∧ ∀ raw, lo_key o = Some raw → owner op raw = i).

Lemma hoare_loadOne ls op i o T :
  load_ok op i o →
  hoare (Inv ls [] T) (loadOne N op i o) (λ p k, p = length ls ∧ EInv (ls ++ [(op, i)]) [] k).
Proof.
  intros [Hop Hok]. unfold loadOne. destruct (hasRequiredRest op) eqn:Hr.
  { eapply hoare_post; [apply (hoare_new_promise ls [] T op i)|].
    - intros x [= <-]. unfold settles. by rewrite Hr.
    - intros p k [-> Hk]. split; [done|]. by exists T. }
  destruct (Hok eq_refl) as [Hld Hex]. destruct Hop as [spec Hs].
  eapply hoare_bind; [apply hoare_ctxFor|]. intros c.
  eapply hoare_quiet_bind; [by apply quiet_the_spec|]. intros ? ->. quiet_step.
  eapply hoare_bind with (R := λ r k, keyed_good op i r ∧ at_ctx op c k ∧ Inv ls [] T k).
  { case_match; [by apply hoare_load_key|]. eapply hoare_pre; [apply hoare_ret|].
    intros k Hk. by split. }
  intros r. apply hoare_pure. intros Hgood. destruct r as [v|key nd].
  - eapply hoare_pre; [|intros k [_ Hk]; exact Hk].
    eapply hoare_post; [apply (hoare_new_promise ls [] T op i)|].
    + intros x [= <-]. unfold settles. rewrite Hr. eauto.
    + intros p k [-> Hk]. split; [done|]. by exists T.
  - simpl in Hgood. eapply hoare_bind with (R := λ p k, p = length ls ∧
      (at_ctx op c k ∧ EInv (ls ++ [(op, i)]) [p] k)).
    + intros s [Hat Hi]. destruct (hoare_new_promise ls [] T op i None ltac:(done) s Hi)
        as (p & s' & E & -> & Hi'). exists (length ls), s'. split; [done|]. split; [done|].
      split; [|by exists T]. unfold new_promise in E. by injection E as _ <-.
    + intros p. apply hoare_pure. intros ->.
      eapply hoare_bind; [apply (hoare_start_load (ls ++ [(op, i)]) op c i (length ls) key nd []); try done|].
      * by rewrite lookup_app_r, Nat.sub_diag.
      * intros ?. eapply hoare_pre; [apply hoare_ret|]. by intros k Hk.
Qed.

(** *** Every other step leaves the promises alone *)

Lemma EInv_silent {A} ls (m : M A) s : silent m → EInv ls [] (core s) → EInv ls [] (core (exec m s)).
Proof. intros Hm. by rewrite Hm. Qed.

Lemma EInv_hoare {A} ls (m : M A) (Q : A → Core → Prop) s :
  (∀ T, hoare (Inv ls [] T) m Q) → (∀ a k, Q a k → EInv ls [] k) →
  EInv ls [] (core s) → EInv ls [] (core (exec m s)).
Proof.
  intros Hm HQ [T Hs]. destruct (Hm T s Hs) as (a & s' & E & Hq). unfold exec. rewrite E.
  by eapply HQ.
Qed.

(** A triple in front of a silent rest. *)
Lemma EInv_bind_silent {A B} ls (m : M A) (f : A → M B) (Q : A → Core → Prop) s :
  (∀ T, hoare (Inv ls [] T) m Q) → (∀ a k, Q a k → EInv ls [] k) → (∀ a, silent (f a)) →
  EInv ls [] (core s) → EInv ls [] (core (exec (m ≫= f) s)).
Proof.
  intros Hm HQ Hf [T Hs]. destruct (Hm T s Hs) as (a & s' & E & Hq). unfold exec, mbind, M_bind.
  rewrite E. change (f a s').2 with (exec (f a) s'). rewrite Hf. by eapply HQ.
Qed.

Lemma ctxFor_EInv op ls T :
  hoare (Inv ls [] T) (ctxFor op) (λ _, EInv ls []).
Proof. eapply hoare_post; [apply hoare_ctxFor|]. intros c k [_ Hk]. by exists T. Qed.

Lemma silent_dispatch c spec (input : list Z + list (list Z)) rest :
  silent (match input with
          | inl i => v ← dispatchSingle now c spec i rest; mret (inl v)
          | inr items => b ← dispatchBulk now c spec items rest; mret (inr b)
          end).
Proof.
  destruct input; (eapply silent_bind; [|by intros ?]);
    [apply silent_dispatchSingle|apply silent_dispatchBulk].
Qed.

Lemma rebind_EInv fns ls T :
  hoare (Inv ls [] T) (rebind_all fns) (λ _, Inv ls [] T).
Proof.
  induction fns as [|f fns IH]; [apply (hoare_ret tt (λ _, Inv ls [] T))|].
  unfold rebind_all in *. cbn [for_each].
  eapply hoare_bind with (R := λ _, Inv ls [] T); [|intros _; exact IH].
  eapply hoare_bind; [apply hoare_ctxFor|]. intros c. eapply hoare_pre; [|intros k [_ Hk]; exact Hk].
  eapply hoare_post; [apply hoare_quiet, quiet_modify; done|]. by intros ? k [_ Hk].
Qed.

Lemma hoare_set_cache ls e T (f : LoaderState → LoaderCache) :
  (∀ s, Forall cached_ok (entries (cache s)) → Forall cached_ok (entries (f s))) →
  hoare (Inv ls e T) (modify (λ s, set_cache (f s) s)) (λ _, Inv ls e T).
Proof.
  intros Hf s [cops Hi]. eexists tt, _. split; [done|]. exists cops. destruct Hi. split; try done.
  by apply Hf.
Qed.

Lemma entries_create n : entries (createLruCache n) = [].
Proof. unfold createLruCache. by case_decide. Qed.

Lemma configure_EInv next ls T : hoare (Inv ls [] T) (configure next) (λ _, EInv ls []).
Proof.
  unfold configure. quiet_step. cbv zeta. quiet_step.
  eapply hoare_bind with (R := λ _, Inv ls [] T).
  { intros s [cops Hi]. eexists tt, _. split; [done|]. exists cops. destruct Hi. by split. }
  intros ?. quiet_step. eapply hoare_bind; [apply rebind_EInv|]. intros ?.
  apply hoare_post with (Q' := λ _, Inv ls [] T); [|intros ? k Hk; by exists T].
  unfold when. destruct (bool_decide _); [|apply (hoare_ret tt (λ _, Inv ls [] T))].
  apply (hoare_set_cache ls [] T (λ _, createLruCache _)). intros s _. by rewrite entries_create.
Qed.

(** *** Executions *)

Definition event_ok (e : event) : Prop :=
  match e with ELoad op i o => load_ok op i o | _ => True end.

(** The loads of an execution, in the order of their promises. *)
Definition loads_of (es : list event) : loads :=
  omap (λ e, match e with ELoad op i _ => Some (op, i) | _ => None end) es.

Lemma next_microtask_ok ls s :
  zlen ls < U32 → EInv ls [] (core s) →
  EInv ls [] (core (next_microtask N now s)) ∧
  length (microtasks (next_microtask N now s)) = pred (length (microtasks s)).
Proof.
  intros Hls [T Hi]. unfold next_microtask.
  destruct Hi as [cops Hi]. pose proof (iv_tasks _ _ _ _ _ Hi) as HT. simpl in HT.
  destruct (microtasks s) as [|t ts] eqn:E; [split; [by exists T, cops|by rewrite E]|].
  subst T. assert (Hn : Inv ls [] ts (core (exec (run_task N now t) (set_microtasks ts s)))).
  { destruct t as [|op c]; [apply next_flush|apply next_single]; try done; by exists cops. }
  split; [by exists ts|]. destruct Hn as [cops' Hn]. pose proof (iv_tasks _ _ _ _ _ Hn) as HT.
  simpl in HT |- *. by rewrite HT.
Qed.

Lemma step_ok ls s e :
  zlen ls < U32 → event_ok e → EInv ls [] (core s) →
  EInv (ls ++ loads_of [e]) [] (core (step N now s e)).
Proof.
  intros Hls He Hi. destruct e as [op i o|op i r|op|op i r| |c v i|op i k| |next|]; simpl; rewrite ?app_nil_r.
  - destruct Hi as [T Hi]. destruct (hoare_loadOne ls op i o T He s Hi) as (p & s' & E & _ & Hi').
    unfold exec. by rewrite E.
  - eapply (EInv_bind_silent ls); [by apply ctxFor_EInv|done| |done]. intros c.
    eapply silent_bind; [apply silent_lift|]. intros spec. apply silent_dispatch.
  - unfold makeOpFn. eapply (EInv_hoare ls _ (λ _, EInv ls [])); [|done|done]. intros T.
    quiet_step. case_match.
    + eapply hoare_pre; [apply (hoare_ret tt (λ _, EInv ls []))|]. intros k Hk. by exists T.
    + eapply hoare_bind; [apply ctxFor_EInv|]. intros c. eapply hoare_post.
      * apply hoare_quiet, quiet_modify. done.
      * by intros ? k [_ Hk].
  - apply EInv_silent; [|done]. unfold opFn. eapply silent_bind; [done|]. intros b.
    eapply silent_bind; [apply silent_lift|]. intros spec. destruct b; [|done].
    apply silent_dispatch.
  - eapply (EInv_hoare ls _ (λ _, EInv ls [])); [intros T; apply ctxFor_EInv|done|done].
  - apply EInv_silent; [|done]. eapply silent_bind; [apply silent_lift|]. intros spec.
    apply silent_dispatch.
  - assert (Hg : ∀ key, EInv ls [] (core (exec (the_cache_get key) s))).
    { intros key. eapply (EInv_hoare ls _ (λ _, EInv ls [])); [|done|done]. intros T.
      eapply hoare_post; [apply hoare_cache_get|]. intros r k' [_ Hk]. by exists T. }
    unfold cacheFn. destruct k as [raw|]; [apply Hg|]. unfold default_key, lift, exec, mbind, M_bind.
    destruct (rust N "fnv1a64" [ABytes i]) as [z|]; [|done]. apply Hg.
  - eapply (EInv_hoare ls _ (λ _, EInv ls [])); [|done|done]. intros T.
    eapply hoare_post; [apply (hoare_set_cache ls [] T (λ s, cache_clear (cache s)))|].
    + intros s' Hs'. destruct (cache s'); constructor.
    + intros ? k Hk. by exists T.
  - eapply (EInv_hoare ls _ (λ _, EInv ls [])); [intros T; apply configure_EInv|done|done].
  - by apply next_microtask_ok.
Qed.

Lemma loads_of_length es : (length (loads_of es) ≤ length es)%nat.
Proof. unfold loads_of. induction es as [|e es IH]; [done|]. destruct e; csimpl; lia. Qed.

Lemma run_ok es o :
  zlen es < U32 → Forall event_ok es →
  EInv (loads_of es) [] (core (foldl (step N now) (createLoader o) es)).
Proof.
  induction es as [|e es IH] using rev_ind; intros Hl Hes.
  - exists [], []. split; simpl; try done; [|by intros ?? []%elem_of_nil].
    by rewrite entries_create.
  - rewrite foldl_app. unfold loads_of. rewrite omap_app. apply Forall_app in Hes as [Hes He].
    rewrite zlen_app in Hl. change (zlen [e]) with 1 in Hl. apply step_ok.
    + pose proof (loads_of_length es). unfold zlen, loads_of in *. lia.
    + by inversion He.
    + apply IH; [lia|done].
Qed.

(** With an empty queue every promise is settled, with an answer to its load. *)
Lemma drained ls k :
  EInv ls [] k → k_tasks k = [] → length (k_promises k) = length ls ∧
  ∀ p op i, ls !! p = Some (op, i) → ∃ x, k_promises k !! p = Some (Some x) ∧ settles op i x.
Proof.
  intros (T & cops & Hi) HT. rewrite (iv_tasks _ _ _ _ _ Hi) in HT. subst T.
  assert (Hb : k_buffer k = []).
  { destruct (k_buffer k) eqn:E; [done|]. exfalso.
    assert (TFlush ∈ []) as []%elem_of_nil.
    apply (iv_flush _ _ _ _ _ Hi), (iv_sched _ _ _ _ _ Hi). by rewrite E. }
  assert (Hs : omap sl_resolve (k_slots k) = []).
  { apply elem_of_nil_inv. intros p. rewrite list_elem_of_omap. intros (sl & Hsl & Hp).
    apply list_elem_of_lookup in Hsl as [c Hc].
    destruct (iv_slots _ _ _ _ _ Hi c sl Hc) as (op & _ & Hg).
    destruct Hg as [|i q key _ _ _ Ht]; [done|]. by apply elem_of_nil in Ht. }
  assert (Hu : unsettled (k_promises k) = []).
  { apply Permutation_nil. rewrite <-(iv_part _ _ _ _ _ Hi). unfold holders. by rewrite Hb, Hs. }
  split; [exact (iv_len _ _ _ _ _ Hi)|]. intros p op i Hl.
  destruct (k_promises k !! p) as [[o|]|] eqn:Ep.
  - destruct (iv_settled _ _ _ _ _ Hi p o Ep) as (op' & i' & Hl' & Ho). exists o. split; [done|].
    rewrite Hl in Hl'. by injection Hl' as <- <-.
  - assert (p ∈ unsettled (k_promises k)) by (by apply elem_of_unsettled). rewrite Hu in *. set_solver.
  - apply lookup_ge_None in Ep. rewrite (iv_len _ _ _ _ _ Hi) in Ep. apply lookup_lt_Some in Hl. lia.
Qed.

Lemma drain_ok ls s :
  zlen ls < U32 → EInv ls [] (core s) →
  EInv ls [] (core (drain N now s)) ∧ microtasks (drain N now s) = [].
Proof.
  intros Hls Hi. unfold drain.
  assert (Hn : ∀ n s, EInv ls [] (core s) →
    EInv ls [] (core (Nat.iter n (next_microtask N now) s)) ∧
    length (microtasks (Nat.iter n (next_microtask N now) s)) = (length (microtasks s) - n)%nat).
  { clear s Hi. induction n as [|n IH]; intros s Hi; simpl; [split; [done|lia]|].
    destruct (IH s Hi) as [Hi' Hl]. destruct (next_microtask_ok ls _ Hls Hi') as [Hi2 Hl2].
    split; [done|]. rewrite Hl2, Hl. lia. }
  destruct (Hn (length (microtasks s)) s Hi) as [Hi' Hl]. split; [done|].
  rewrite Nat.sub_diag in Hl. by apply nil_length_inv.
Qed.

End inv.

(** ** The theorems *)

Lemma contract_specs `{Codec} (N : Natives) :
  NativeOk N → ∀ op s, op_spec N op = Some s → hasRequiredRest op = false → spec_ok s.
Proof.
  intros HN op s Hs Hr. destruct (loadable_has_row N op) as (r & Hin & <-); [by eauto|done|].
  apply (row_spec_ok N r); [by apply (proj1 (Forall_forall _ _) HN)|by apply row_wired].
Qed.

(** The result of the single call [rust.<op>(i)], as the outcome of a promise. *)
Definition answer `{Codec} (N : Natives) (op : string) (i : list Z) : outcome :=
  if hasRequiredRest op then Rejected (required_rest_error op)
  else match op_spec N op with
       | Some s => match scalar1 s i with Ok v => Resolved v | Throw e => Rejected e end
       | None => Rejected (TypeError "Cannot read properties of undefined")
       end.

(** The single call and a batch of one give the same value on an input. *)
Definition single_is_batch `{Codec} (N : Natives) (op : string) (i : list Z) : Prop :=
  ∀ s, op_spec N op = Some s → batch1 s i = scalar1 s i.

Lemma settles_single `{Codec} (N : Natives) (op : string) (i : list Z) (x : outcome) :
  settles N op i x → single_is_batch N op i → x = answer N op i.
Proof.
  unfold settles, answer. intros Hx Hs. destruct (hasRequiredRest op); [done|].
  destruct Hx as (v & -> & s & Hop & Hv). rewrite Hop. rewrite (Hs s Hop) in Hv.
  destruct Hv as [-> | ->]; done.
Qed.

(** C1. [load] answers, whatever path it takes: over every interleaving of loads,
    direct calls, cache reads, clears, reconfigurations and microtasks, once
    the queue has drained (which it does) every promise is settled, in
    particular none hangs, with an answer to its own op and input: the value of
    the single call or the value the native batch function gives for that input
    by itself (or the documented rejection, for an op with required arguments).
    Wherever those two values are the same, the promise is settled with exactly
    the single call's result.  So coalescing, the scalar fallback, the reused
    scratch buffers, the batched keys and the cache never mix up requests; all
    they can show is a builtin that answers other bytes than the batch, as
    Bun's gzip does.  Assumed: the batch functions treat items independently
    ([NativeOk]), and no two inputs in use share a cache key. *)
Theorem load_resolves `{Codec} (N : Natives) (now : nat → float) (owner : string → string → list Z)
    (o : PartialOptions) (es : list event) :
  NativeOk N → Forall (event_ok N owner) es → zlen es < U32 →
  let s := drain N now (foldl (step N now) (createLoader o) es) in
  microtasks s = [] ∧ length (promises s) = length (loads_of es) ∧
  ∀ p op i, loads_of es !! p = Some (op, i) →
    ∃ x, promises s !! p = Some (Some x) ∧ settles N op i x ∧
         (single_is_batch N op i → x = answer N op i).
Proof.
  intros HN Hes Hl s. pose proof (contract_specs N HN) as Hspecs.
  pose proof (loads_of_length es) as Hlen.
  destruct (drain_ok N now owner Hspecs (loads_of es) (foldl (step N now) (createLoader o) es))
    as [Hi HT]; [unfold zlen in *; lia|by apply run_ok|].
  destruct (drained N owner Hspecs (loads_of es) (core s) Hi HT) as [Hps Hall].
  split_and!; [exact HT|exact Hps|]. intros p op i Hp. destruct (Hall p op i Hp) as (x & Hx & Hset).
  exists x. split_and!; [exact Hx|done|]. by apply settles_single.
Qed.

Definition demo_options : PartialOptions := Partial None None None None None None.
Definition demo_now (n : nat) : float := 1%float.
Definition demo_owner (op raw : string) : list Z :=
  if decide (raw = "1"%string) then [7] else if decide (raw = "2"%string) then [7; 7] else [1; 2; 3].
Definition plain_load (op : string) (i : list Z) : event := ELoad op i (LoadOpts None None).

Definition demo_events : list event :=
  [plain_load "crc32" [7]; plain_load "crc32" [7; 7]; plain_load "hexEncode" [7; 7];
   EMicrotask; plain_load "crc32" [7]; EConfigure demo_options;
   plain_load "validateIpv4" [1; 2; 3]; plain_load "jwtSign" [7]].

Lemma demo_events_ok : Forall (event_ok (H := bun_codec) toy_natives demo_owner) demo_events.
Proof.
  unfold demo_events. repeat (apply Forall_cons; split); try exact I; try apply Forall_nil_2;
    (split; [by eexists|]); intros Hr; try discriminate Hr; (split; [|by intros ?]);
    (split; [exact Hr|reflexivity|by eexists _, _, _| |]);
    eexists; (split; [vm_compute; reflexivity|vm_compute; reflexivity]).
Qed.

Lemma load_resolves_witness :
  let s := drain (H := bun_codec) toy_natives demo_now
    (foldl (step (H := bun_codec) toy_natives demo_now) (createLoader demo_options) demo_events) in
  promises s !! 2%nat = Some (Some (Resolved (VBytes [7; 7]))) ∧
  promises s !! 5%nat = Some (Some (Rejected (required_rest_error "jwtSign"))).
Proof.
  destruct (load_resolves (H := bun_codec) toy_natives demo_now demo_owner demo_options
    demo_events (toy_natives_ok (H := bun_codec)) demo_events_ok ltac:(reflexivity)) as (_ & _ & Hall).
  split.
  - destruct (Hall 2%nat "hexEncode"%string [7; 7] eq_refl) as (x & Hx & _ & He).
    rewrite Hx, He; [vm_compute; reflexivity|]. intros sp [= <-]. vm_compute. reflexivity.
  - destruct (Hall 5%nat "jwtSign"%string [7] eq_refl) as (x & Hx & Hs & _).
    rewrite Hx. by rewrite Hs.
Defined.

(** Where a builtin and the batch differ, what a load answers depends on the
    other loads of its tick: alone it is the builtin's gzip stream, with a
    second load of the op it is the native one's. *)
Theorem gzip_load_depends_on_tick :
  let run es := promises (drain (H := bun_codec) toy_natives demo_now
    (foldl (step (H := bun_codec) toy_natives demo_now) (createLoader demo_options) es)) in
  run [plain_load "gzipCompress" [7; 8]] = [Some (Resolved (VBytes [3]))] ∧
  run [plain_load "gzipCompress" [7; 8]; plain_load "gzipCompress" [7]] =
    [Some (Resolved (VBytes [7; 8])); Some (Resolved (VBytes [7]))].
Proof. vm_compute. auto. Qed.

(** A native side whose batched key function throws, like an addon that failed
    to load, while everything else works. *)
Definition keyless_natives : Natives := {|
  bun := bun toy_natives; native := native toy_natives; addon := addon toy_natives;
  addon_into := λ name packed out,
    if decide (name = "fnv1A64BatchPackedInto"%string)
    then Throw (JsError "Error" "native addon unavailable") else addon_into toy_natives name packed out;
  validator_validate := validator_validate toy_natives;
  validateBatchPackedBitset := validateBatchPackedBitset toy_natives;
  validateBatchPackedCount := validateBatchPackedCount toy_natives;
  nowSeconds := 0 |}.

(** A native failure does not always reject: the batched keys are computed
    outside the flush's [try], so when that call throws, the loads of its group
    and of every later group of the same tick are neither resolved nor
    rejected, although nothing is queued or buffered for them any more. *)
Theorem key_failure_strands_loads :
  let s := drain (H := bun_codec) keyless_natives demo_now
    (foldl (step (H := bun_codec) keyless_natives demo_now) (createLoader demo_options)
       [plain_load "crc32" [7]; plain_load "crc32" [7; 7]; plain_load "hexEncode" [1; 2; 3]]) in
  microtasks s = [] ∧ buffer s = [] ∧ promises s = [None; None; None].
Proof. vm_compute. auto. Qed.
