(* ===== verification/RequestId.v ===== *)
(** Request ids (src/shared/request-id.ts): a 64-bit counter in two u32 halves,
    seeded from boot randomness and the worker id, printed as 16 hex digits.

    The bytes are returned in one shared buffer; callers decode them before the
    next call, so the model returns their value. *)

From S2P Require Import Prelude.

Record counter_state := Counter { hi : Z; lo : Z }.

(** [{ hi: (BOOT_RANDOM ^ (WORKER_ID << 16)) >>> 0, lo: 0 }], with
    [WORKER_ID = Number(env) & 0xffff]. *)
Definition initial_counter (bootRandom workerEnv : Z) : counter_state :=
  Counter (to_u32 (Z.lxor bootRandom (Z.shiftl (Z.land workerEnv 0xffff) 16))) 0.

(** [HEX_LOOKUP]: the digits of a byte. *)
Definition hex_digit (d : Z) : Z := if decide (d < 10) then 48 + d else 87 + d.
Definition hex_byte (b : Z) : list Z := [hex_digit (Z.shiftr b 4); hex_digit (Z.land b 0x0f)].

Definition next_counter (c : counter_state) : counter_state :=
  if decide (lo c = 0xffffffff) then Counter (to_u32 (hi c + 1)) 0 else Counter (hi c) (lo c + 1).

(** The eight bytes of [BINARY], most significant first. *)
Definition binary (c : counter_state) : list Z :=
  [Z.land (Z.shiftr (hi c) 24) 0xff; Z.land (Z.shiftr (hi c) 16) 0xff;
   Z.land (Z.shiftr (hi c) 8) 0xff; Z.land (hi c) 0xff;
   Z.land (Z.shiftr (lo c) 24) 0xff; Z.land (Z.shiftr (lo c) 16) 0xff;
   Z.land (Z.shiftr (lo c) 8) 0xff; Z.land (lo c) 0xff].

Definition generateRequestId (c : counter_state) : list Z * counter_state :=
  let c := next_counter c in (binary c ≫= hex_byte, c).

(** ** Correctness *)

Definition counter_ok (c : counter_state) : Prop := 0 ≤ hi c < U32 ∧ 0 ≤ lo c < U32.
Definition counter_value (c : counter_state) : Z := hi c * U32 + lo c.

(** Reading the digits back. *)
Definition hex_value (d : Z) : Z := if decide (d < 58) then d - 48 else d - 87.
Definition parse_hex (s : list Z) : Z := foldl (λ acc d, acc * 16 + hex_value d) 0 s.

Lemma initial_counter_ok (b w : Z) : counter_ok (initial_counter b w).
Proof. split; simpl; [apply Z.mod_pos_bound; reflexivity|unfold U32; lia]. Qed.

Lemma next_counter_ok (c : counter_state) : counter_ok c → counter_ok (next_counter c).
Proof.
  intros [Hh Hl]. unfold next_counter, counter_ok, to_u32, U32 in *. case_decide; simpl; [|lia].
  split; [apply Z.mod_pos_bound|]; lia.
Qed.

Lemma next_counter_value (c : counter_state) :
  counter_ok c → counter_value (next_counter c) = (counter_value c + 1) mod 2 ^ 64.
Proof.
  intros [Hh Hl]. unfold next_counter, counter_value, to_u32, U32 in *. case_decide as Hd; simpl.
  - rewrite Hd. destruct (decide (hi c = 4294967295)) as [->|].
    + reflexivity.
    + rewrite !Z.mod_small by lia. lia.
  - rewrite Z.mod_small by lia. lia.
Qed.

Definition nth_counter (c : counter_state) (n : nat) : counter_state := Nat.iter n next_counter c.

Lemma nth_counter_ok (c : counter_state) (n : nat) : counter_ok c → counter_ok (nth_counter c n).
Proof. intros Hc. induction n; [done|]. by apply next_counter_ok. Qed.

Lemma nth_counter_value (c : counter_state) (n : nat) :
  counter_ok c → counter_value (nth_counter c n) = (counter_value c + Z.of_nat n) mod 2 ^ 64.
Proof.
  intros Hc. induction n as [|n IH].
  - simpl. rewrite Z.add_0_r, Z.mod_small; [done|]. destruct Hc. unfold counter_value, U32 in *. lia.
  - change (nth_counter c (S n)) with (next_counter (nth_counter c n)).
    rewrite next_counter_value by (by apply nth_counter_ok). rewrite IH, Z.add_mod_idemp_l by lia.
    f_equal. lia.
Qed.

Lemma hex_byte_value (b : Z) :
  0 ≤ b < 256 → ∀ acc, foldl (λ acc d, acc * 16 + hex_value d) acc (hex_byte b) = acc * 256 + b.
Proof.
  intros Hb acc. unfold hex_byte. simpl.
  assert (Hd : ∀ d, 0 ≤ d < 16 → hex_value (hex_digit d) = d)
    by (intros d Hd; unfold hex_value, hex_digit; repeat case_decide; lia).
  rewrite Z.shiftr_div_pow2 by lia. change 0x0f with (Z.ones 4). rewrite Z.land_ones by lia.
  change (2 ^ 4) with 16. rewrite !Hd by (Z.div_mod_to_equations; lia). Z.div_mod_to_equations; lia.
Qed.

Lemma parse_hex_bytes (bs : list Z) (acc : Z) :
  bytes_ok bs →
  foldl (λ acc d, acc * 16 + hex_value d) acc (bs ≫= hex_byte) = foldl (λ acc b, acc * 256 + b) acc bs.
Proof.
  intros Hb. revert acc. induction Hb as [|b bs Hb Hbs IH]; intros acc; [done|].
  rewrite bind_cons, foldl_app, hex_byte_value by exact Hb. apply IH.
Qed.

Lemma byte_of (x k : Z) : 0 ≤ k → Z.land (Z.shiftr x k) 0xff = (x / 2 ^ k) mod 256.
Proof.
  intros Hk. rewrite Z.shiftr_div_pow2 by done. change 0xff with (Z.ones 8). by rewrite Z.land_ones.
Qed.

Lemma u32_bytes (x acc : Z) :
  0 ≤ x < U32 →
  (((acc * 256 + Z.land (Z.shiftr x 24) 0xff) * 256 + Z.land (Z.shiftr x 16) 0xff) * 256 +
     Z.land (Z.shiftr x 8) 0xff) * 256 + Z.land x 0xff = acc * U32 + x.
Proof.
  intros Hx. unfold U32 in *. rewrite !byte_of by lia.
  replace (Z.land x 0xff) with ((x / 2 ^ 0) mod 256) by (rewrite <-byte_of by lia; by rewrite Z.shiftr_0_r).
  change (2 ^ 24) with 16777216. change (2 ^ 16) with 65536. change (2 ^ 8) with 256.
  change (2 ^ 0) with 1. Z.div_mod_to_equations; lia.
Qed.

Lemma binary_value (c : counter_state) :
  counter_ok c → foldl (λ acc b, acc * 256 + b) 0 (binary c) = counter_value c.
Proof.
  intros [Hh Hl]. unfold binary. cbn [foldl]. rewrite u32_bytes by done.
  change (0 * U32 + hi c) with (hi c). rewrite u32_bytes by done. done.
Qed.

Lemma binary_bytes (c : counter_state) : bytes_ok (binary c).
Proof.
  assert (Hb : ∀ x, is_byte (Z.land x 0xff)).
  { intros x. change 0xff with (Z.ones 8). rewrite Z.land_ones by lia. apply Z.mod_pos_bound. lia. }
  unfold binary. repeat (constructor; [apply Hb|]). constructor.
Qed.

Lemma request_id_value (c : counter_state) :
  counter_ok c → parse_hex (generateRequestId c).1 = counter_value (next_counter c).
Proof.
  intros Hc. unfold parse_hex. change (generateRequestId c).1 with (binary (next_counter c) ≫= hex_byte).
  rewrite parse_hex_bytes by apply binary_bytes. apply binary_value. by apply next_counter_ok.
Qed.

(** The ids handed out one after the other. *)
Definition nth_request_id (c : counter_state) (n : nat) : list Z :=
  (generateRequestId (nth_counter c n)).1.

(** Request ids are 16 hex digits that spell the counter, and no two of any
    2^64 consecutive ones are equal, whatever the boot seed and the worker id:
    the carry between the two halves and the wrap-around included. *)
Theorem request_ids_unique (boot worker : Z) (i j : nat) :
  let c := initial_counter boot worker in
  (i < j)%nat → Z.of_nat j - Z.of_nat i < 2 ^ 64 →
  zlen (nth_request_id c i) = 16 ∧
  parse_hex (nth_request_id c i) = (counter_value c + Z.of_nat i + 1) mod 2 ^ 64 ∧
  nth_request_id c i ≠ nth_request_id c j.
Proof.
  intros c Hij Hlt. pose proof (initial_counter_ok boot worker) as Hc. fold c in Hc.
  assert (Hv : ∀ n, parse_hex (nth_request_id c n) = (counter_value c + Z.of_nat n + 1) mod 2 ^ 64).
  { intros n. unfold nth_request_id. rewrite request_id_value by (by apply nth_counter_ok).
    rewrite next_counter_value, nth_counter_value by (try apply nth_counter_ok; done).
    by rewrite Z.add_mod_idemp_l. }
  split; [done|]. split; [apply Hv|]. intros E.
  assert (E2 : parse_hex (nth_request_id c i) = parse_hex (nth_request_id c j)) by (by rewrite E).
  rewrite !Hv in E2. Z.div_mod_to_equations. lia.
Qed.

Lemma request_ids_unique_witness :
  nth_request_id (initial_counter 0xdeadbeef 7) 0 ≠ nth_request_id (initial_counter 0xdeadbeef 7) 5.
Proof. apply (request_ids_unique 0xdeadbeef 7 0 5); lia. Defined.
