(* ===== verification/Metrics.v ===== *)
(** The metrics registry (src/shared/metrics.ts): counters, gauges and
    histograms with label sets, a per-family series cap and the Prometheus text
    exposition.

    A handle returned by [counter], [gauge] or [histogram] captures its family
    object, so families live in a heap and the registry's maps hold their
    addresses.  Text is a list of UTF-16 code units; counts are integers, observed
    values binary64 floats, whose [String] form is a parameter of [render]. *)

From stdpp Require Import pretty.
From Stdlib Require Import PrimFloat.
From S2P Require Import Prelude.
From S2P Require Import JsMap.
From S2P Require Import Utf8.
From S2P Require Import JsString.

Definition MAX_SERIES_PER_METRIC : Z := 10000.
Definition SERIES_DROPPED_METRIC : list Z := js "castrum_metrics_series_dropped_total".

Definition QUOTE : Z := 34.
Definition BACKSLASH : Z := 92.
Definition NEWLINE : Z := 10.

(** [v.replace(/c/g, rep)] for a single unit [c]. *)
Definition replace_all (c : Z) (rep : list Z) (s : list Z) : list Z :=
  s ≫= λ u, if decide (u = c) then rep else [u].

Definition escapeLabel (v : list Z) : list Z :=
  replace_all NEWLINE [BACKSLASH; 110]
    (replace_all QUOTE [BACKSLASH; QUOTE] (replace_all BACKSLASH [BACKSLASH; BACKSLASH] v)).

(** [`${name}="${escapeLabel(value)}"`]. *)
Definition label_part (name value : list Z) : list Z :=
  name ++ [61; QUOTE] ++ escapeLabel value ++ [QUOTE].

Definition labelKey (names values : list (list Z)) : list Z :=
  join [44] (imap (λ i n, label_part n (default [] (values !! i))) names).

(** Labels passed by a caller, and their values in the family's order. *)
Definition Labels := list (list Z * list Z).
Definition label_values (names : list (list Z)) (labels : option Labels) : list (list Z) :=
  (λ n, default [] (labels ≫= mget n)) <$> names.

(** [evictOldestHalf]: the map without its oldest half, and the dropped keys. *)
Definition evictOldestHalf {V} (m : list (list Z * V)) : list (list Z * V) * list (list Z) :=
  if decide (msize m < MAX_SERIES_PER_METRIC) then (m, [])
  else
    let dropped := take (Z.to_nat ((msize m + 1) / 2)) (mkeys m) in
    (foldl (λ acc k, mdel k acc) m dropped, dropped).

(** A counter or gauge family, and a histogram family. *)
Record Family := Fam {
  f_name : list Z; f_help : list Z; f_labels : list (list Z); f_values : list (list Z * Z) }.
Record HistFamily := Hist {
  h_name : list Z; h_help : list Z; h_labels : list (list Z); h_buckets : list float;
  h_counts : list (list Z * list Z); h_sums : list (list Z * float) }.

Record MetricsRegistry := Registry {
  counters : list (list Z * nat);
  gauges : list (list Z * nat);
  histograms : list (list Z * nat);
  fams : list Family;            (* the heap of counter and gauge families *)
  hists : list HistFamily;       (* the heap of histogram families *)
  seriesDropped : Z;
}.

Definition createMetrics : MetricsRegistry := Registry [] [] [] [] [] 0.

(** ** Handles *)

Definition counter (name help : list Z) (labelNames : list (list Z)) (r : MetricsRegistry)
    : nat * MetricsRegistry :=
  match mget name (counters r) with
  | Some f => (f, r)
  | None =>
      let f := length (fams r) in
      (f, Registry (mset name f (counters r)) (gauges r) (histograms r)
            (fams r ++ [Fam name help labelNames []]) (hists r) (seriesDropped r))
  end.

Definition gauge (name help : list Z) (labelNames : list (list Z)) (r : MetricsRegistry)
    : nat * MetricsRegistry :=
  match mget name (gauges r) with
  | Some f => (f, r)
  | None =>
      let f := length (fams r) in
      (f, Registry (counters r) (mset name f (gauges r)) (histograms r)
            (fams r ++ [Fam name help labelNames []]) (hists r) (seriesDropped r))
  end.

(** [[...buckets].sort((a, b) => a - b)]: insertion keeps the order stable. *)
Fixpoint insert_bucket (b : float) (l : list float) : list float :=
  match l with
  | [] => [b]
  | x :: l' => if PrimFloat.ltb b x then b :: l else x :: insert_bucket b l'
  end.
Definition sort_buckets (l : list float) : list float := foldl (λ acc b, insert_bucket b acc) [] l.

Definition DEFAULT_BUCKETS : list float :=
  [0.001; 0.0025; 0.005; 0.01; 0.025; 0.05; 0.1; 0.25; 0.5; 1; 2.5; 5; 10]%float.

Definition histogram (name help : list Z) (buckets : option (list float))
    (labelNames : list (list Z)) (r : MetricsRegistry) : nat * MetricsRegistry :=
  match mget name (histograms r) with
  | Some h => (h, r)
  | None =>
      let h := length (hists r) in
      (h, Registry (counters r) (gauges r) (mset name h (histograms r)) (fams r)
            (hists r ++ [Hist name help labelNames (sort_buckets (default DEFAULT_BUCKETS buckets)) [] []])
            (seriesDropped r))
  end.

(** ** Updates through a handle *)

Definition set_fam (r : MetricsRegistry) (f : nat) (x : Family) (dropped : Z) : MetricsRegistry :=
  Registry (counters r) (gauges r) (histograms r) (<[f := x]> (fams r)) (hists r)
    (seriesDropped r + dropped).

Definition with_values (x : Family) (m : list (list Z * Z)) : Family :=
  Fam (f_name x) (f_help x) (f_labels x) m.

(** [counter.inc(labels, by)], [gauge.inc] and, negated, [gauge.dec]. *)
Definition add (f : nat) (labels : option Labels) (by_ : Z) (r : MetricsRegistry) : MetricsRegistry :=
  match fams r !! f with
  | None => r
  | Some x =>
      let key := labelKey (f_labels x) (label_values (f_labels x) labels) in
      match mget key (f_values x) with
      | None =>
          let '(m, dropped) := evictOldestHalf (f_values x) in
          set_fam r f (with_values x (mset key by_ m)) (zlen dropped)
      | Some prev => set_fam r f (with_values x (mset key (prev + by_) (f_values x))) 0
      end
  end.
Definition gauge_dec (f : nat) (labels : option Labels) (by_ : Z) : MetricsRegistry → MetricsRegistry :=
  add f labels (- by_).

Definition gauge_set (f : nat) (labels : option Labels) (v : Z) (r : MetricsRegistry) : MetricsRegistry :=
  match fams r !! f with
  | None => r
  | Some x =>
      let key := labelKey (f_labels x) (label_values (f_labels x) labels) in
      let '(m, dropped) :=
        if mhas key (f_values x) then (f_values x, []) else evictOldestHalf (f_values x) in
      set_fam r f (with_values x (mset key v m)) (zlen dropped)
  end.

(** The upper bound of slot [i], the last one being [+Inf]. *)
Definition bucket_bound (buckets : list float) (i : nat) : float :=
  default PrimFloat.infinity (buckets !! i).

Definition bump (buckets : list float) (value : float) (counts : list Z) : list Z :=
  imap (λ i c, if PrimFloat.leb value (bucket_bound buckets i) then c + 1 else c) counts.

Definition observe (h : nat) (value : float) (labels : option Labels) (r : MetricsRegistry)
    : MetricsRegistry :=
  match hists r !! h with
  | None => r
  | Some x =>
      let key := labelKey (h_labels x) (label_values (h_labels x) labels) in
      let '(counts, sums, mine, dropped) :=
        match mget key (h_counts x) with
        | Some c => (h_counts x, h_sums x, c, 0)
        | None =>
            let '(m, dropped) := evictOldestHalf (h_counts x) in
            let fresh := replicate (length (h_buckets x) + 1) 0 in
            (mset key fresh m, foldl (λ acc k, mdel k acc) (h_sums x) dropped, fresh, zlen dropped)
        end in
      let x' := Hist (h_name x) (h_help x) (h_labels x) (h_buckets x)
                  (mset key (bump (h_buckets x) value mine) counts)
                  (mset key (PrimFloat.add (default 0%float (mget key sums)) value) sums) in
      Registry (counters r) (gauges r) (histograms r) (fams r) (<[h := x']> (hists r))
        (seriesDropped r + dropped)
  end.

Definition reset (r : MetricsRegistry) : MetricsRegistry := Registry [] [] [] (fams r) (hists r) 0.

(** ** Rendering *)

Section render.
Context (number_string : float → list Z).

Definition SPACE : list Z := [32].
Definition braces (s : list Z) : list Z := [123] ++ s ++ [125].

Definition header_lines (name help kind : list Z) : list (list Z) :=
  [js "# HELP " ++ name ++ SPACE ++ help; js "# TYPE " ++ name ++ SPACE ++ kind].

Definition renderFamily (kind : list Z) (x : Family) : list (list Z) :=
  header_lines (f_name x) (f_help x) kind ++
  ((λ e : list Z * Z, f_name x ++ (if decide (e.1 = []) then [] else braces e.1) ++ SPACE ++ dec e.2)
     <$> f_values x).

Definition renderHistogram (x : HistFamily) : list (list Z) :=
  let series (e : list Z * list Z) :=
    let suffix := if decide (e.1 = []) then [] else braces e.1 in
    imap (λ i bound,
      let le := js "le=" ++ [QUOTE] ++ bound ++ [QUOTE] in
      let full := if decide (e.1 = []) then le else e.1 ++ [44] ++ le in
      h_name x ++ js "_bucket" ++ braces full ++ SPACE ++ dec (default 0 (e.2 !! i)))
      ((number_string <$> h_buckets x) ++ [js "+Inf"]) ++
    [h_name x ++ js "_sum" ++ suffix ++ SPACE ++
       number_string (default 0%float (mget e.1 (h_sums x)));
     h_name x ++ js "_count" ++ suffix ++ SPACE ++ dec (default 0 (last e.2))] in
  header_lines (h_name x) (h_help x) (js "histogram") ++ (h_counts x ≫= series).

Definition registered {A} (heap : list A) (m : list (list Z * nat)) : list A :=
  omap (λ e : list Z * nat, heap !! e.2) m.

Definition render (r : MetricsRegistry) : list Z :=
  let out :=
    (registered (fams r) (counters r) ≫= renderFamily (js "counter")) ++
    (registered (fams r) (gauges r) ≫= renderFamily (js "gauge")) ++
    (registered (hists r) (histograms r) ≫= renderHistogram) ++
    (if bool_decide (0 < seriesDropped r) && negb (mhas SERIES_DROPPED_METRIC (counters r)) &&
        negb (mhas SERIES_DROPPED_METRIC (gauges r)) &&
        negb (mhas SERIES_DROPPED_METRIC (histograms r))
     then header_lines SERIES_DROPPED_METRIC
            (js "Total metric series evicted by the per-family cardinality cap.") (js "counter") ++
          [SERIES_DROPPED_METRIC ++ SPACE ++ dec (seriesDropped r)]
     else []) in
  join [NEWLINE] out ++ [NEWLINE].
End render.

(** ** Label keys are unambiguous *)

Definition escape_unit (u : Z) : list Z :=
  if decide (u = BACKSLASH) then [BACKSLASH; BACKSLASH]
  else if decide (u = QUOTE) then [BACKSLASH; QUOTE]
  else if decide (u = NEWLINE) then [BACKSLASH; 110] else [u].

(** The three passes escape each unit once. *)
Lemma escapeLabel_units (v : list Z) : escapeLabel v = v ≫= escape_unit.
Proof.
  unfold escapeLabel, replace_all. induction v as [|u v IH]; [done|].
  rewrite !bind_cons, !bind_app, IH. f_equal. unfold escape_unit.
  repeat (case_decide; subst; try done; csimpl).
Qed.

(** An escaped value ends at its first bare quote. *)
Lemma escape_unit_head (u : Z) (s : list Z) : escape_unit u ++ s ≠ [] ∧ head (escape_unit u ++ s) ≠ Some QUOTE.
Proof. unfold escape_unit. repeat case_decide; simpl; split; try done; congruence. Qed.

Lemma escape_unit_inj (u w : Z) (s t : list Z) :
  escape_unit u ++ s = escape_unit w ++ t → u = w ∧ s = t.
Proof.
  unfold escape_unit, BACKSLASH, QUOTE, NEWLINE. intros E.
  repeat (case_decide; subst); simpl in E; simplify_eq; try done; lia.
Qed.

Lemma escaped_prefix (v w r t : list Z) :
  escapeLabel v ++ QUOTE :: r = escapeLabel w ++ QUOTE :: t → v = w ∧ r = t.
Proof.
  rewrite !escapeLabel_units. revert w. induction v as [|u v IH]; intros [|x w]; csimpl;
    rewrite ?bind_cons, <-?(assoc_L (++)).
  - by intros [= ->].
  - intros E. exfalso. apply (f_equal head) in E.
    destruct (escape_unit_head x ((w ≫= escape_unit) ++ QUOTE :: t)) as [_ Hn]. by rewrite <-E in Hn.
  - intros E. exfalso. apply (f_equal head) in E.
    destruct (escape_unit_head u ((v ≫= escape_unit) ++ QUOTE :: r)) as [_ Hn]. by rewrite E in Hn.
  - intros [-> E]%escape_unit_inj. by apply IH in E as [-> ->].
Qed.

Fixpoint key_of (names values : list (list Z)) : list Z :=
  match names with
  | [] => []
  | [n] => label_part n (default [] (head values))
  | n :: names' => label_part n (default [] (head values)) ++ 44 :: key_of names' (tail values)
  end.

Lemma labelKey_key_of (names values : list (list Z)) : labelKey names values = key_of names values.
Proof.
  unfold labelKey. revert values. induction names as [|n names IH]; intros values; [done|].
  rewrite imap_cons. replace (values !! 0%nat) with (head values) by (by destruct values).
  rewrite (imap_ext _ (λ i n, label_part n (default [] (tail values !! i)))).
  - specialize (IH (tail values)). destruct names as [|n' names]; [done|].
    change (join [44] (label_part n (default [] (head values)) :: ?x)) with
      (label_part n (default [] (head values)) ++ [44] ++ join [44] x) || idtac.
    rewrite imap_cons in IH |- *. cbn [join key_of] in *. by rewrite <-IH.
  - intros i x _. by destruct values as [|v [|]].
Qed.

Lemma key_of_inj (names values values' : list (list Z)) :
  length values = length names → length values' = length names →
  key_of names values = key_of names values' → values = values'.
Proof.
  revert values values'. induction names as [|n names IH]; intros [|v vs] [|w ws] Hv Hw; try done.
  simpl in Hv, Hw. intros E. unfold key_of in E; fold key_of in E. unfold label_part in E.
  destruct names as [|n' names].
  - apply app_inv_head in E. simpl in E. injection E as E. apply escaped_prefix in E as [-> _].
    by destruct vs, ws.
  - rewrite <-!(assoc_L (++)) in E. apply app_inv_head in E. simpl in E. injection E as E.
    apply escaped_prefix in E as [-> E]. injection E as E. f_equal. apply IH; try lia. exact E.
Qed.

(** Series keys are unambiguous: for the labels of one family, two label
    sets get the same key only if all their values agree, whatever quotes,
    backslashes, commas or newlines the values contain; so no two series are
    merged and none is split. *)
Theorem labelKey_injective (names values values' : list (list Z)) :
  length values = length names → length values' = length names →
  labelKey names values = labelKey names values' → values = values'.
Proof. rewrite !labelKey_key_of. apply key_of_inj. Qed.

Lemma labelKey_injective_witness :
  [js "a"; [34; 44; 98; 61; 34]] = [js "a"; [34; 44; 98; 61; 34]].
Proof.
  apply (labelKey_injective [js "x"; js "b"] [js "a"; [34; 44; 98; 61; 34]]
           [js "a"; [34; 44; 98; 61; 34]]); reflexivity.
Defined.


(** ** Bounded families *)

Section evict.
Context {V : Type}.
Implicit Types m : list (list Z * V).

Lemma fold_mdel_wf ks m : wf m → wf (foldl (λ acc k, mdel k acc) m ks).
Proof. revert m. induction ks as [|k ks IH]; intros m Hm; [done|]. simpl. apply IH. by apply wf_mdel. Qed.

Lemma fold_mdel_Forall P ks m : Forall P m → Forall P (foldl (λ acc k, mdel k acc) m ks).
Proof. revert m. induction ks as [|k ks IH]; intros m Hm; [done|]. simpl. apply IH. by apply Forall_mdel. Qed.

(** Deleting keys depends on the keys of the map only. *)
Lemma mkeys_mdel_eq {W} k m (m' : list (list Z * W)) :
  mkeys m = mkeys m' → mkeys (mdel k m) = mkeys (mdel k m').
Proof.
  unfold mkeys. revert m'. induction m as [|[k1 v1] m IH]; intros [|[k2 v2] m'] E; try done.
  simpl in E |- *. simplify_eq. case_decide; [done|]. simpl. f_equal. by apply IH.
Qed.

Lemma fold_mdel_keys {W} ks m (m' : list (list Z * W)) :
  mkeys m = mkeys m' →
  mkeys (foldl (λ acc k, mdel k acc) m ks) = mkeys (foldl (λ acc k, mdel k acc) m' ks).
Proof. revert m m'. induction ks; intros m m' E; [done|]. simpl. apply IHks. by apply mkeys_mdel_eq. Qed.

Lemma mkeys_mset_eq {W} k v (w : W) m (m' : list (list Z * W)) :
  mkeys m = mkeys m' → mkeys (mset k v m) = mkeys (mset k w m').
Proof.
  unfold mkeys. revert m'. induction m as [|[k1 v1] m IH]; intros [|[k2 v2] m'] E; try done.
  simpl in E |- *. simplify_eq. case_decide; simpl; f_equal; [done|]. by apply IH.
Qed.

(** Below the cap nothing is dropped; at the cap exactly the oldest half is. *)
Lemma evictOldestHalf_spec m :
  wf m →
  (msize m < MAX_SERIES_PER_METRIC ∧ evictOldestHalf m = (m, [])) ∨
  (MAX_SERIES_PER_METRIC ≤ msize m ∧
   let n := Z.to_nat ((msize m + 1) / 2) in
   evictOldestHalf m = (drop n m, take n (mkeys m))).
Proof.
  intros Hwf. unfold evictOldestHalf. case_decide; [by left|right]. split; [lia|]. simpl.
  f_equal. unfold mkeys. rewrite <-fmap_take.
  rewrite <-(take_drop (Z.to_nat ((msize m + 1) / 2)) m) at 1.
  apply mdel_prefix. unfold wf. by rewrite take_drop.
Qed.

Lemma evictOldestHalf_room m :
  wf m → msize m ≤ MAX_SERIES_PER_METRIC →
  wf (evictOldestHalf m).1 ∧ msize (evictOldestHalf m).1 < MAX_SERIES_PER_METRIC.
Proof.
  intros Hwf Hle. unfold MAX_SERIES_PER_METRIC in *.
  destruct (evictOldestHalf_spec m Hwf) as [[Hlt ->]|[Hge ->]]; cbn [fst]; [done|].
  split; [by apply wf_drop|]. unfold MAX_SERIES_PER_METRIC, msize, zlen in *.
  rewrite length_drop.
  assert (1 ≤ (Z.of_nat (length m) + 1) / 2) by (apply Z.div_le_lower_bound; lia). lia.
Qed.
End evict.

Lemma msize_mset_le {V} k v (m : list (list Z * V)) : msize (mset k v m) ≤ msize m + 1.
Proof.
  destruct (decide (k ∈ mkeys m)); [rewrite msize_mset_old by done; lia|].
  by rewrite msize_mset_new.
Qed.

(** ** Every operation keeps the registry well formed *)

Inductive MetricOp :=
  | OpCounter (name help : list Z) (labelNames : list (list Z))
  | OpGauge (name help : list Z) (labelNames : list (list Z))
  | OpHistogram (name help : list Z) (buckets : option (list float)) (labelNames : list (list Z))
  | OpInc (f : nat) (labels : option Labels) (by_ : Z)
  | OpDec (f : nat) (labels : option Labels) (by_ : Z)
  | OpSet (f : nat) (labels : option Labels) (v : Z)
  | OpObserve (h : nat) (value : float) (labels : option Labels)
  | OpReset.

Definition metric_step (r : MetricsRegistry) (o : MetricOp) : MetricsRegistry :=
  match o with
  | OpCounter n h ls => (counter n h ls r).2
  | OpGauge n h ls => (gauge n h ls r).2
  | OpHistogram n h bs ls => (histogram n h bs ls r).2
  | OpInc f l b => add f l b r
  | OpDec f l b => gauge_dec f l b r
  | OpSet f l v => gauge_set f l v r
  | OpObserve h v l => observe h v l r
  | OpReset => reset r
  end.

Definition fam_ok (x : Family) : Prop :=
  wf (f_values x) ∧ msize (f_values x) ≤ MAX_SERIES_PER_METRIC.

(** One count per bucket and one for [+Inf], the same series in both maps. *)
Definition hist_ok (x : HistFamily) : Prop :=
  wf (h_counts x) ∧ msize (h_counts x) ≤ MAX_SERIES_PER_METRIC ∧
  mkeys (h_sums x) = mkeys (h_counts x) ∧
  Forall (λ e : list Z * list Z,
    length e.2 = (length (h_buckets x) + 1)%nat ∧ Forall (Z.le 0) e.2) (h_counts x).

Definition family_maps_ok (r : MetricsRegistry) : Prop :=
  wf (counters r) ∧ wf (gauges r) ∧ wf (histograms r) ∧
  (∀ n f, mget n (counters r) = Some f → ∃ x, fams r !! f = Some x ∧ f_name x = n) ∧
  (∀ n f, mget n (gauges r) = Some f → ∃ x, fams r !! f = Some x ∧ f_name x = n) ∧
  (∀ n h, mget n (histograms r) = Some h → ∃ x, hists r !! h = Some x ∧ h_name x = n).

Definition RegInv (r : MetricsRegistry) : Prop :=
  family_maps_ok r ∧ Forall fam_ok (fams r) ∧ Forall hist_ok (hists r) ∧ 0 ≤ seriesDropped r.

Lemma create_ok : RegInv createMetrics.
Proof. repeat split; simpl; try done; constructor. Qed.

Lemma maps_ok_set_fam r f x y d :
  fams r !! f = Some x → f_name y = f_name x →
  family_maps_ok r → family_maps_ok (set_fam r f y d).
Proof.
  intros Hf Hn (?&?&?&Hc&Hg&Hh). unfold family_maps_ok, set_fam; simpl. split_and!; try done.
  - intros n g Hget. destruct (Hc n g Hget) as (z&Hz&Hzn). destruct (decide (f = g)) as [->|].
    + rewrite list_lookup_insert_eq by (by eapply lookup_lt_Some). simplify_eq. eauto.
    + rewrite list_lookup_insert_ne by done. eauto.
  - intros n g Hget. destruct (Hg n g Hget) as (z&Hz&Hzn). destruct (decide (f = g)) as [->|].
    + rewrite list_lookup_insert_eq by (by eapply lookup_lt_Some). simplify_eq. eauto.
    + rewrite list_lookup_insert_ne by done. eauto.
Qed.

Lemma set_fam_ok r f x m d :
  fams r !! f = Some x → wf m → msize m ≤ MAX_SERIES_PER_METRIC → 0 ≤ d →
  RegInv r → RegInv (set_fam r f (with_values x m) d).
Proof.
  intros Hf Hwf Hle Hd (Hm&Hfs&Hhs&Hs). split_and!; simpl; try done; [| |lia].
  - by eapply maps_ok_set_fam.
  - by apply Forall_insert.
Qed.

Lemma fam_ok_lookup r f x : RegInv r → fams r !! f = Some x → fam_ok x.
Proof. intros (_&Hfs&_) Hf. by eapply Forall_lookup_1 in Hf. Qed.

(** Storing a series after making room keeps the family within the cap. *)
Lemma store_room {V} k v (m : list (list Z * V)) :
  wf m → msize m ≤ MAX_SERIES_PER_METRIC →
  wf (mset k v (evictOldestHalf m).1) ∧
  msize (mset k v (evictOldestHalf m).1) ≤ MAX_SERIES_PER_METRIC.
Proof.
  intros Hwf Hle. destruct (evictOldestHalf_room m Hwf Hle) as [Hw Hlt].
  split; [by apply wf_mset|]. pose proof (msize_mset_le k v (evictOldestHalf m).1). lia.
Qed.

(** Overwriting a series, and storing a new one after making room. *)
Lemma set_old_ok r f x key v :
  fams r !! f = Some x → mhas key (f_values x) = true → RegInv r →
  RegInv (set_fam r f (with_values x (mset key v (f_values x))) 0).
Proof.
  intros Hf Hk HI. destruct (fam_ok_lookup r f x HI Hf) as [Hwf Hle].
  eapply set_fam_ok; [done|by apply wf_mset| |done|done]. rewrite msize_mset_old; [done|].
  unfold mhas in Hk. destruct (mget key (f_values x)) eqn:E; [|done].
  apply mget_Some_elem in E. apply list_elem_of_fmap. by eexists (_, _).
Qed.

Lemma set_new_ok r f x key v :
  fams r !! f = Some x → RegInv r →
  RegInv (set_fam r f (with_values x (mset key v (evictOldestHalf (f_values x)).1))
            (zlen (evictOldestHalf (f_values x)).2)).
Proof.
  intros Hf HI. destruct (fam_ok_lookup r f x HI Hf) as [Hwf Hle].
  destruct (store_room key v (f_values x) Hwf Hle).
  eapply set_fam_ok; try done. apply zlen_nonneg.
Qed.

Lemma add_ok f l b r : RegInv r → RegInv (add f l b r).
Proof.
  intros HI. unfold add. destruct (fams r !! f) as [x|] eqn:Hf; [|done].
  set (key := labelKey _ _). destruct (mget key (f_values x)) as [prev|] eqn:Hk.
  - apply set_old_ok; [done| |done]. unfold mhas. by rewrite Hk.
  - pose proof (set_new_ok r f x key b Hf HI). by destruct (evictOldestHalf (f_values x)).
Qed.

Lemma gauge_set_ok f l v r : RegInv r → RegInv (gauge_set f l v r).
Proof.
  intros HI. unfold gauge_set. destruct (fams r !! f) as [x|] eqn:Hf; [|done].
  set (key := labelKey _ _). destruct (mhas key (f_values x)) eqn:Hk.
  - by apply set_old_ok.
  - pose proof (set_new_ok r f x key v Hf HI). by destruct (evictOldestHalf (f_values x)).
Qed.

Lemma bump_length bs v cs : length (bump bs v cs) = length cs.
Proof. apply length_imap. Qed.

Lemma bump_nonneg bs v cs : Forall (Z.le 0) cs → Forall (Z.le 0) (bump bs v cs).
Proof.
  intros H. apply Forall_lookup. intros i c. unfold bump. rewrite list_lookup_imap.
  destruct (cs !! i) as [c'|] eqn:E; [|done]. eapply Forall_lookup_1 in H; [|done].
  simpl in *. intros [= <-]. case_match; lia.
Qed.

Lemma maps_ok_set_hist r h x y d :
  hists r !! h = Some x → h_name y = h_name x → family_maps_ok r →
  family_maps_ok (Registry (counters r) (gauges r) (histograms r) (fams r) (<[h := y]> (hists r)) d).
Proof.
  intros Hx Hn (?&?&?&Hc&Hg&Hh). unfold family_maps_ok; simpl. split_and!; try done.
  intros n g Hget. destruct (Hh n g Hget) as (z&Hz&Hzn). destruct (decide (h = g)) as [->|].
  - rewrite list_lookup_insert_eq by (by eapply lookup_lt_Some). simplify_eq. eauto.
  - rewrite list_lookup_insert_ne by done. eauto.
Qed.

(** The series of a histogram after one observation of [key]. *)
Lemma hist_store x key v :
  hist_ok x →
  let '(counts, sums, mine, dropped) :=
    match mget key (h_counts x) with
    | Some c => (h_counts x, h_sums x, c, 0)
    | None =>
        let '(m, dropped) := evictOldestHalf (h_counts x) in
        let fresh := replicate (length (h_buckets x) + 1) 0 in
        (mset key fresh m, foldl (λ acc k, mdel k acc) (h_sums x) dropped, fresh, zlen dropped)
    end in
  hist_ok (Hist (h_name x) (h_help x) (h_labels x) (h_buckets x)
             (mset key (bump (h_buckets x) v mine) counts)
             (mset key (PrimFloat.add (default 0%float (mget key sums)) v) sums)) ∧ 0 ≤ dropped.
Proof.
  intros (Hwf&Hle&Hk&Hall). destruct (mget key (h_counts x)) as [c|] eqn:Hg.
  - apply mget_Some_elem in Hg. assert (Hin : key ∈ mkeys (h_counts x))
      by (apply list_elem_of_fmap; by eexists (_, _)).
    pose proof (proj1 (Forall_forall _ _) Hall _ Hg) as [Hl Hc]. cbn [snd] in *.
    split; [|done]. unfold hist_ok; cbn [h_counts h_sums h_buckets]. split_and!.
    + by apply wf_mset.
    + by rewrite msize_mset_old.
    + by apply mkeys_mset_eq.
    + apply Forall_mset; [done|]. cbn [snd]. rewrite bump_length. auto using bump_nonneg.
  - destruct (store_room key (replicate (length (h_buckets x) + 1) 0) _ Hwf Hle) as [Hw Hm].
    assert (Hkeys : mkeys (foldl (λ acc k, mdel k acc) (h_sums x) (evictOldestHalf (h_counts x)).2) =
                    mkeys (evictOldestHalf (h_counts x)).1).
    { rewrite (fold_mdel_keys _ _ _ Hk). unfold evictOldestHalf. by case_decide. }
    assert (Hfa : Forall (λ e : list Z * list Z,
      length e.2 = (length (h_buckets x) + 1)%nat ∧ Forall (Z.le 0) e.2) (evictOldestHalf (h_counts x)).1).
    { unfold evictOldestHalf. case_decide; [done|]. by apply fold_mdel_Forall. }
    destruct (evictOldestHalf (h_counts x)) as [m dropped]. cbn [fst snd] in *.
    split; [|zlia]. unfold hist_ok; cbn [h_counts h_sums h_buckets].
    assert (Hin : key ∈ mkeys (mset key (replicate (length (h_buckets x) + 1) 0) m)).
    { destruct (decide (key ∈ mkeys m)); [by rewrite mkeys_mset_old|].
      rewrite mkeys_mset_new by done. set_solver. }
    split_and!.
    + by apply wf_mset.
    + by rewrite msize_mset_old.
    + rewrite (mkeys_mset_old _ _ _ Hin). by apply mkeys_mset_eq.
    + apply Forall_mset; [apply Forall_mset; [done|]|]; cbn [snd].
      * rewrite length_replicate. split; [done|]. by apply Forall_replicate.
      * rewrite bump_length, length_replicate. split; [done|]. by apply bump_nonneg, Forall_replicate.
Qed.

Lemma observe_ok h v l r : RegInv r → RegInv (observe h v l r).
Proof.
  intros HI. unfold observe. destruct (hists r !! h) as [x|] eqn:Hx; [|done].
  destruct HI as (Hm&Hfs&Hhs&Hs). pose proof (Forall_lookup_1 _ _ _ _ Hhs Hx) as Hok.
  pose proof (hist_store x (labelKey (h_labels x) (label_values (h_labels x) l)) v Hok) as Hst.
  case_match. destruct_and?.
  repeat match goal with p : (_ * _)%type |- _ => destruct p end. destruct Hst as [Hst Hd].
  split_and!; simpl; [|done| |lia].
  - by eapply maps_ok_set_hist.
  - by apply Forall_insert.
Qed.

Lemma registered_app {A} (heap : list A) (name_of : A → list Z) (m : list (list Z * nat)) (x : A) :
  (∀ n f, mget n m = Some f → ∃ y, heap !! f = Some y ∧ name_of y = n) →
  ∀ n f, mget n m = Some f → ∃ y, (heap ++ [x]) !! f = Some y ∧ name_of y = n.
Proof.
  intros H n f Hget. destruct (H n f Hget) as (y&Hy&Hn). exists y. split; [|done].
  by apply lookup_app_l_Some.
Qed.

Lemma registered_new {A} (heap : list A) (name_of : A → list Z) (m : list (list Z * nat)) (x : A) :
  (∀ n f, mget n m = Some f → ∃ y, heap !! f = Some y ∧ name_of y = n) →
  ∀ n f, mget n (mset (name_of x) (length heap) m) = Some f →
    ∃ y, (heap ++ [x]) !! f = Some y ∧ name_of y = n.
Proof.
  intros H n f. rewrite mget_mset. case_decide as E.
  - intros [= <-]. exists x. split; [|done]. by rewrite lookup_app_r, Nat.sub_diag by done.
  - by apply registered_app.
Qed.

Lemma Forall_app_one {A} (P : A → Prop) l x : Forall P l → P x → Forall P (l ++ [x]).
Proof. intros. apply Forall_app. auto. Qed.

Lemma metric_step_ok r o : RegInv r → RegInv (metric_step r o).
Proof.
  intros HI. destruct o; cbn [metric_step];
    [| | |by apply add_ok|by apply add_ok|by apply gauge_set_ok|by apply observe_ok|].
  all: pose proof HI as ((Hwc&Hwg&Hwh&Hc&Hg&Hh)&Hfs&Hhs&Hs).
  - unfold counter. case_match; [done|]. cbn [snd].
    split_and!; simpl; try done; [|apply Forall_app_one; [done|split; [constructor|done]]].
    split_and!; simpl; try done; auto using wf_mset;
      [by apply (registered_new (fams r) f_name _ (Fam name help labelNames []))
      |by apply (registered_app (fams r) f_name)].
  - unfold gauge. case_match; [done|]. cbn [snd].
    split_and!; simpl; try done; [|apply Forall_app_one; [done|split; [constructor|done]]].
    split_and!; simpl; try done; auto using wf_mset;
      [by apply (registered_app (fams r) f_name)
      |by apply (registered_new (fams r) f_name _ (Fam name help labelNames []))].
  - unfold histogram. case_match; [done|]. cbn [snd].
    split_and!; simpl; try done; [|apply Forall_app_one; [done|]; repeat split; try done; constructor].
    split_and!; simpl; try done; auto using wf_mset.
    by apply (registered_new (hists r) h_name _
                (Hist name help labelNames (sort_buckets (default DEFAULT_BUCKETS buckets)) [] [])).
  - repeat split; simpl; try done; constructor.
Qed.

(** Over every sequence of registrations, updates and resets, through live
    and through stale handles, each family holds at most
    [MAX_SERIES_PER_METRIC] series under distinct keys, each registered name
    leads to its own family, and the counts and sums of a histogram have the
    same series, with one non-negative count per bucket and one for [+Inf]. *)
Theorem metrics_bounded (ops : list MetricOp) : RegInv (foldl metric_step createMetrics ops).
Proof.
  generalize create_ok. generalize createMetrics.
  induction ops as [|o ops IH]; intros r Hr; [done|]. simpl. by apply IH, metric_step_ok.
Qed.

(** ** A histogram counts its observations *)

Section tally.
Context (bs : list float) (names : list (list Z)).

Definition series_key (labels : option Labels) : list Z := labelKey names (label_values names labels).

(** The observed values of one series, oldest first. *)
Definition values_of (key : list Z) (obs : list (float * option Labels)) : list float :=
  (filter (λ o, series_key o.2 = key) obs).*1.

(** Cumulative counts and sum of a list of values, from the definition. *)
Definition tally (vs : list float) : list Z :=
  (λ i, zlen (filter (λ v, PrimFloat.leb v (bucket_bound bs i) = true) vs)) <$>
    seq 0 (length bs + 1).
Definition total (vs : list float) : float := foldl PrimFloat.add 0%float vs.

Lemma tally_nil : tally [] = replicate (length bs + 1) 0.
Proof.
  unfold tally. generalize (length bs + 1)%nat. intros n. generalize 0%nat.
  induction n as [|n IH]; intros k; [done|].
  simpl. f_equal. apply IH.
Qed.

Lemma tally_snoc vs v : tally (vs ++ [v]) = bump bs v (tally vs).
Proof.
  apply list_eq. intros i. unfold bump, tally. rewrite list_lookup_imap, !list_lookup_fmap.
  destruct (seq 0 (length bs + 1) !! i) as [j|] eqn:Hj; [|done].
  apply lookup_seq in Hj as [-> _]. simpl. f_equal. rewrite filter_app, zlen_app.
  rewrite filter_cons, filter_nil. case_decide as Hd; case_match; try done; simpl.
  all: change (zlen [v]) with 1 || change (zlen (@nil float)) with 0; lia.
Qed.

Lemma observed_values_snoc key obs v l :
  values_of key (obs ++ [(v, l)]) =
    values_of key obs ++ (if decide (series_key l = key) then [v] else []).
Proof.
  unfold values_of. rewrite filter_app, fmap_app, filter_cons, filter_nil. cbn [snd].
  by case_decide.
Qed.

(** A histogram that has seen [obs] and dropped nothing. *)
Definition tallied (obs : list (float * option Labels)) (x : HistFamily) : Prop :=
  h_labels x = names ∧ h_buckets x = bs ∧ wf (h_counts x) ∧ msize (h_counts x) ≤ zlen obs ∧
  ∀ key,
    mget key (h_counts x) =
      (if decide (values_of key obs = []) then None else Some (tally (values_of key obs))) ∧
    default 0%float (mget key (h_sums x)) = total (values_of key obs).

Lemma observe_tallied h v l r x obs :
  hists r !! h = Some x → tallied obs x → zlen obs < MAX_SERIES_PER_METRIC →
  ∃ x', hists (observe h v l r) !! h = Some x' ∧ tallied (obs ++ [(v, l)]) x'.
Proof.
  intros Hx (Hn&Hb&Hwf&Hsz&Ht) Hlt. unfold observe. rewrite Hx, Hn, Hb.
  fold (series_key l). set (key := series_key l). destruct (Ht key) as [Hk Hs].
  pose proof (lookup_lt_Some _ _ _ Hx) as Hh.
  assert (Hev : evictOldestHalf (h_counts x) = (h_counts x, [])).
  { unfold evictOldestHalf. rewrite decide_True; [done|lia]. }
  assert (Hgoal : ∀ counts,
    counts = h_counts x ∨ counts = mset key (replicate (length bs + 1) 0) (h_counts x) →
    tallied (obs ++ [(v, l)])
      (Hist (h_name x) (h_help x) names bs
         (mset key (bump bs v (tally (values_of key obs))) counts)
         (mset key (PrimFloat.add (default 0%float (mget key (h_sums x))) v) (h_sums x)))).
  { intros counts Hc. unfold tallied; cbn [h_labels h_buckets h_counts h_sums].
    split_and!; [done|done| | |].
    - destruct Hc as [->| ->]; auto using wf_mset.
    - rewrite zlen_app. change (zlen [(v, l)]) with 1.
      destruct Hc as [->| ->]; [pose proof (msize_mset_le key (bump bs v (tally (values_of key obs))) (h_counts x)); lia|].
      rewrite msize_mset_old; [pose proof (msize_mset_le key (replicate (length bs + 1) 0) (h_counts x)); lia|].
      destruct (decide (key ∈ mkeys (h_counts x))); [by rewrite mkeys_mset_old|].
      rewrite mkeys_mset_new by done. set_solver.
    - intros k. rewrite !mget_mset, observed_values_snoc. fold key. destruct (decide (k = key)) as [->|Hne].
      + rewrite (decide_True (P := key = key)) by done. rewrite decide_False by (by intros [_ ?]%app_nil).
        rewrite tally_snoc. split; [done|]. cbn [default]. rewrite Hs. unfold total.
        by rewrite foldl_app.
      + rewrite (decide_False (P := key = k)) by done. rewrite app_nil_r.
        destruct (Ht k) as [<- <-]. split; [|done]. destruct Hc as [->| ->]; [done|].
        rewrite mget_mset. by rewrite decide_False. }
  destruct (decide (values_of key obs = [])) as [E|E]; rewrite Hk.
  - rewrite Hev. eexists. cbn [hists]. rewrite list_lookup_insert_eq by done. split; [done|].
    rewrite <-tally_nil, <-E. apply Hgoal. right. by rewrite E, tally_nil.
  - eexists. cbn [hists]. rewrite list_lookup_insert_eq by done. split; [done|].
    apply Hgoal. by left.
Qed.
End tally.

(** A histogram counts exactly what it observed: after any observations
    on a fresh histogram, at most as many as the series cap, a series exists
    exactly for the label values that occurred; its count for each bucket is
    the number of its values not above that bound (the last one of [+Inf]) and
    its sum is the floating-point sum in order. *)
Theorem histogram_tallies (r : MetricsRegistry) (name help : list Z) (buckets : option (list float))
    (labelNames : list (list Z)) (obs : list (float * option Labels)) :
  mget name (histograms r) = None → zlen obs ≤ MAX_SERIES_PER_METRIC →
  let '(h, r0) := histogram name help buckets labelNames r in
  ∃ x, hists (foldl (λ r o, observe h o.1 o.2 r) r0 obs) !! h = Some x ∧
    tallied (sort_buckets (default DEFAULT_BUCKETS buckets)) labelNames obs x.
Proof.
  intros Hnew Hle. unfold histogram. rewrite Hnew. set (bs := sort_buckets _).
  induction obs as [|[v l] obs IH] using rev_ind.
  - eexists. cbn [foldl hists]. rewrite lookup_app_r, Nat.sub_diag by done. split; [done|].
    unfold tallied; simpl. split_and!; try done; constructor.
  - rewrite zlen_app in Hle. change (zlen [(v, l)]) with 1 in Hle.
    destruct IH as (x&Hx&Ht); [lia|]. rewrite foldl_snoc. cbn [fst snd].
    apply (observe_tallied bs labelNames _ v l _ x obs Hx Ht). lia.
Qed.

Lemma histogram_tallies_witness :
  ∃ x, hists (foldl (λ r o, observe 0 o.1 o.2 r)
         (histogram (js "h") [] (Some [1; 0.5]%float) [] createMetrics).2
         [(0.25, None); (0.75, None); (2, None)]%float) !! 0%nat = Some x ∧
    tallied [0.5; 1]%float [] [(0.25, None); (0.75, None); (2, None)]%float x.
Proof.
  apply (histogram_tallies createMetrics (js "h") [] (Some [1; 0.5]%float) []
           [(0.25, None); (0.75, None); (2, None)]%float); [reflexivity|].
  vm_compute. discriminate.
Defined.

Example histogram_counts_example :
  h_counts <$> hists (foldl (λ r o, observe 0 o.1 o.2 r)
         (histogram (js "h") [] (Some [1; 0.5]%float) [] createMetrics).2
         [(0.25, None); (0.75, None); (2, None)]%float) = [[([], [1; 2; 3])]].
Proof. vm_compute. reflexivity. Qed.

(** [reset] forgets the families, while the handles issued before keep writing
    to them: whatever they record later is not rendered, and asking for the
    name again gives a second, empty family. *)
Lemma reset_detaches_handles (r : MetricsRegistry) (number_string : float → list Z) (f : nat)
    (labels : option Labels) (by_ : Z) :
  (∀ x, fams r !! f = Some x → msize (f_values x) < MAX_SERIES_PER_METRIC) →
  render number_string (add f labels by_ (reset r)) = [NEWLINE].
Proof.
  intros Hf. unfold add, reset; cbn [fams]. destruct (fams r !! f) as [x|] eqn:Hx; [|done].
  specialize (Hf x eq_refl). case_match; [done|].
  unfold evictOldestHalf. by rewrite decide_True.
Qed.
