(* ===== verification/WsFrame.v ===== *)
(** The JavaScript WebSocket frame codec and percent-decoder
    (src/baseline/tasks/streaming.ts, url.ts), which serve the ops whose proven
    implementation is ['js'].  The encoder's output array is filled front to back, so
    its writes are the concatenation of what is written. *)

From S2P Require Import Prelude.
From S2P Require Import Utf8.

(** Big-endian words. *)
Definition be_bytes (n : nat) (z : Z) : list Z := reverse (le_bytes n z).
Definition be_val (l : list Z) : Z := le_val (reverse l).

Lemma be_val_bytes n z : 0 ≤ z < 256 ^ Z.of_nat n → be_val (be_bytes n z) = z.
Proof. intros Hz. unfold be_val, be_bytes. rewrite reverse_involutive. by apply le_val_small. Qed.

Lemma zlen_be_bytes n z : zlen (be_bytes n z) = Z.of_nat n.
Proof. unfold be_bytes, zlen. by rewrite length_reverse, length_le_bytes. Qed.

(** ** Frames *)

Definition MASK_KEY : list Z := [0x37; 0xfa; 0x21; 0x3d].

Record WsFrame := Frame { fin : bool; opcode : Z; payload : list Z }.

(** [payload[i] ^ key[i & 3]] for each index. *)
Definition xor_mask (key l : list Z) : list Z :=
  imap (λ i b, Z.lxor b (default 0 (key !! Z.to_nat (Z.land (Z.of_nat i) 3)))) l.

Definition header_length (len : Z) (mask : bool) : Z :=
  2 + (if decide (125 < len) then (if decide (65535 < len) then 8 else 2) else 0) +
  (if mask then 4 else 0).

Definition nativeWsFrameEncode (opcode : Z) (payload : list Z) (mask fin : bool) : list Z :=
  let len := zlen payload in
  let maskBit := if mask then 0x80 else 0 in
  [Z.lor (if fin then 0x80 else 0) (Z.land opcode 0x0f)] ++
  (if decide (len ≤ 125) then [Z.lor maskBit len]
   else if decide (len ≤ 65535) then
     [Z.lor maskBit 126; Z.land (Z.shiftr len 8) 0xff; Z.land len 0xff]
   else Z.lor maskBit 127 :: be_bytes 8 len) ++
  (if mask then MASK_KEY ++ xor_mask MASK_KEY payload else payload).

Definition MAX_SAFE_INTEGER : Z := 9007199254740991.

(** The extended length: the value and the position behind it. *)
Definition ws_length (buf : list Z) (len7 : Z) : option (Z * Z) :=
  if decide (len7 = 126) then
    if decide (zlen buf < 4) then None else Some (be_val (subarray buf 2 4), 4)
  else if decide (len7 = 127) then
    if decide (zlen buf < 10) then None
    else
      let big := be_val (subarray buf 2 10) in
      Some (if decide (MAX_SAFE_INTEGER < big) then 0 else big, 10)
  else Some (len7, 2).

Definition nativeWsFrameDecode (data : list Z) : option WsFrame :=
  match data with
  | b0 :: b1 :: _ =>
      let masked := bool_decide (Z.land b1 0x80 ≠ 0) in
      '(len, pos) ← ws_length data (Z.land b1 0x7f);
      if masked && bool_decide (zlen data < pos + 4) then None
      else
        let key := if masked then subarray data pos (pos + 4) else [] in
        let pos := if masked then pos + 4 else pos in
        let payloadBuf := subarray data pos (pos + len) in
        if decide (zlen payloadBuf ≠ len) then None
        else Some (Frame (bool_decide (Z.land b0 0x80 ≠ 0)) (Z.land b0 0x0f)
                     (if masked then xor_mask key payloadBuf else payloadBuf))
  | _ => None
  end.

(** ** Correctness *)

Lemma length_xor_mask key l : zlen (xor_mask key l) = zlen l.
Proof. unfold zlen, xor_mask. by rewrite length_imap. Qed.

Lemma xor_mask_twice key l : xor_mask key (xor_mask key l) = l.
Proof.
  unfold xor_mask. apply list_eq. intros i. rewrite !list_lookup_imap.
  destruct (l !! i); [|done]. cbn. by rewrite Z.lxor_assoc, Z.lxor_nilpotent, Z.lxor_0_r.
Qed.

(** The array is exactly as long as what is written into it. *)
Lemma encode_length op l mask fin_ :
  zlen (nativeWsFrameEncode op l mask fin_) = header_length (zlen l) mask + zlen l.
Proof.
  unfold nativeWsFrameEncode, header_length. rewrite !zlen_app. set (n := zlen l).
  assert (Hm : zlen (if mask then MASK_KEY ++ xor_mask MASK_KEY l else l) = (if mask then 4 else 0) + n).
  { destruct mask; [|done]. rewrite zlen_app, length_xor_mask. done. }
  rewrite Hm. repeat case_decide; try lia; rewrite ?zlen_cons, ?zlen_be_bytes, ?zlen_nil; lia.
Qed.

Lemma land_low x m : 0 ≤ x < 128 → Z.land (Z.lor (if m : bool then 0x80 else 0) x) 0x7f = x.
Proof.
  intros Hx. rewrite Z.land_lor_distr_l. change 0x7f with (Z.ones 7).
  rewrite (Z.land_ones x), Z.mod_small by lia. by destruct m.
Qed.

Lemma land_high x (m : bool) : 0 ≤ x < 128 →
  bool_decide (Z.land (Z.lor (if m then 0x80 else 0) x) 0x80 ≠ 0) = m.
Proof.
  intros Hx. rewrite Z.land_lor_distr_l.
  assert (Z.land x 0x80 = 0) as ->.
  { apply Z.bits_inj'. intros n Hn. rewrite Z.land_spec, Z.bits_0.
    destruct (decide (n < 7)).
    - change 0x80 with (2 ^ 7). rewrite (Z.pow2_bits_false 7 n) by lia. apply andb_false_r.
    - rewrite (Z.bits_above_log2 x n); [done|lia|].
      destruct (decide (x = 0)) as [->|]; [simpl; lia|].
      apply Z.log2_lt_pow2; [lia|]. apply (Z.lt_le_trans _ (2 ^ 7)); [lia|]. apply Z.pow_le_mono_r; lia. }
  by destruct m.
Qed.

Lemma opcode_bits op (f : bool) :
  bool_decide (Z.land (Z.lor (if f then 0x80 else 0) (Z.land op 0x0f)) 0x80 ≠ 0) = f ∧
  Z.land (Z.lor (if f then 0x80 else 0) (Z.land op 0x0f)) 0x0f = Z.land op 0x0f.
Proof.
  assert (Hop : 0 ≤ Z.land op 0x0f < 16).
  { change 0x0f with (Z.ones 4). rewrite Z.land_ones by lia. apply Z.mod_pos_bound. lia. }
  split; [apply land_high; lia|]. rewrite Z.land_lor_distr_l, <-Z.land_assoc. by destruct f.
Qed.

(** The bytes behind the first two: length field, then key and payload. *)
Definition length_field (len : Z) : list Z :=
  if decide (len ≤ 125) then []
  else if decide (len ≤ 65535) then be_bytes 2 len else be_bytes 8 len.
Definition length_code (len : Z) : Z :=
  if decide (len ≤ 125) then len else if decide (len ≤ 65535) then 126 else 127.

Lemma be_bytes_2 len : be_bytes 2 len = [Z.land (Z.shiftr len 8) 0xff; Z.land len 0xff].
Proof.
  unfold be_bytes. cbn [le_bytes reverse rev_append]. unfold reverse. cbn [rev_append].
  change 0xff with (Z.ones 8). rewrite !Z.land_ones, Z.shiftr_div_pow2 by lia. done.
Qed.

Lemma encode_shape op l mask fin_ :
  nativeWsFrameEncode op l mask fin_ =
  [Z.lor (if fin_ then 0x80 else 0) (Z.land op 0x0f);
   Z.lor (if mask then 0x80 else 0) (length_code (zlen l))] ++ length_field (zlen l) ++
  (if mask then MASK_KEY ++ xor_mask MASK_KEY l else l).
Proof.
  unfold nativeWsFrameEncode, length_field, length_code. cbn [app].
  repeat case_decide; try done. by rewrite be_bytes_2.
Qed.

Lemma length_code_range len : 0 ≤ len → 0 ≤ length_code len < 128.
Proof. unfold length_code. repeat case_decide; lia. Qed.

Lemma ws_length_encoded b0 b1 len rest :
  0 ≤ len ≤ MAX_SAFE_INTEGER →
  ws_length (b0 :: b1 :: length_field len ++ rest) (length_code len) =
    Some (len, 2 + zlen (length_field len)).
Proof.
  intros Hl. unfold MAX_SAFE_INTEGER in Hl. unfold ws_length, length_code, length_field.
  destruct (decide (len ≤ 125)).
  { guards. rewrite zlen_nil. done. }
  assert (Hs : ∀ f, subarray (b0 :: b1 :: f ++ rest) 2 (2 + zlen f) = f).
  { intros f. change (b0 :: b1 :: f ++ rest) with ([b0; b1] ++ f ++ rest). apply subarray_app; zlia. }
  destruct (decide (len ≤ 65535)).
  - guards. rewrite zlen_be_bytes. change (Z.of_nat 2) with 2.
    rewrite decide_False by (rewrite !zlen_cons, zlen_app, zlen_be_bytes; zlen_facts; lia).
    specialize (Hs (be_bytes 2 len)). rewrite zlen_be_bytes in Hs. change (2 + Z.of_nat 2) with 4 in Hs.
    rewrite Hs, be_val_bytes by (change (256 ^ Z.of_nat 2) with 65536; lia). done.
  - rewrite decide_False by lia. rewrite decide_True by done.
    rewrite zlen_be_bytes. change (Z.of_nat 8) with 8.
    rewrite decide_False by (rewrite !zlen_cons, zlen_app, zlen_be_bytes; zlen_facts; lia).
    specialize (Hs (be_bytes 8 len)). rewrite zlen_be_bytes in Hs. change (2 + Z.of_nat 8) with 10 in Hs.
    rewrite Hs, be_val_bytes by (change (256 ^ Z.of_nat 8) with 18446744073709551616; lia).
    cbv zeta. unfold MAX_SAFE_INTEGER. by rewrite decide_False by lia.
Qed.

(** Decoding an encoded frame, whatever follows it in the buffer, gives the fin bit,
    the low four bits of the opcode and the payload, masked or not, for every payload
    length that a JavaScript number holds exactly. *)
Theorem ws_frame_roundtrip (op : Z) (l rest : list Z) (mask fin_ : bool) :
  zlen l ≤ MAX_SAFE_INTEGER →
  nativeWsFrameDecode (nativeWsFrameEncode op l mask fin_ ++ rest) =
    Some (Frame fin_ (Z.land op 0x0f) l).
Proof.
  intros Hl. pose proof (zlen_nonneg l). rewrite encode_shape, <-!app_assoc. cbn [app nativeWsFrameDecode].
  pose proof (length_code_range (zlen l) ltac:(done)).
  rewrite land_low, land_high by done. destruct (opcode_bits op fin_) as [-> ->].
  rewrite ws_length_encoded by lia. cbn [mbind option_bind].
  set (b0 := Z.lor _ _). set (b1 := Z.lor _ (length_code _)). set (f := length_field (zlen l)).
  assert (Hsub : ∀ a m post, subarray (b0 :: b1 :: f ++ a ++ m ++ post) (2 + zlen f + zlen a)
      (2 + zlen f + zlen a + zlen m) = m).
  { intros a m post. change (b0 :: b1 :: f ++ a ++ m ++ post) with ([b0; b1] ++ f ++ a ++ m ++ post).
    rewrite !app_assoc. rewrite <-(app_assoc _ m post). apply subarray_app; zlia. }
  destruct mask.
  - rewrite <-app_assoc. rewrite bool_decide_eq_false_2 by
      (rewrite !zlen_cons, !zlen_app; change (zlen MASK_KEY) with 4; zlen_facts; lia). cbn [andb].
    pose proof (Hsub [] MASK_KEY (xor_mask MASK_KEY l ++ rest)) as H1. cbn [app] in H1.
    rewrite zlen_nil, Z.add_0_r in H1. change (zlen MASK_KEY) with 4 in H1. rewrite H1.
    pose proof (Hsub MASK_KEY (xor_mask MASK_KEY l) rest) as H2.
    change (zlen MASK_KEY) with 4 in H2. rewrite length_xor_mask in H2. rewrite H2.
    rewrite decide_False by (rewrite length_xor_mask; lia). by rewrite xor_mask_twice.
  - cbn [andb].
    pose proof (Hsub [] l rest) as H1. cbn [app] in H1. rewrite zlen_nil, Z.add_0_r in H1.
    rewrite H1. by rewrite decide_False by lia.
Qed.

Lemma ws_frame_roundtrip_witness :
  nativeWsFrameDecode (nativeWsFrameEncode 2 (replicate 300 7) true true ++ [1; 2]) =
    Some (Frame true 2 (replicate 300 7)).
Proof. apply (ws_frame_roundtrip 2 (replicate 300 7) [1; 2] true true). by vm_compute. Defined.

(** A length above 2^53 is read as 0: the decoder answers with an empty frame where a
    truncated one must be refused. *)
Lemma huge_length_empty_frame :
  nativeWsFrameDecode ([0x82; 0x7f] ++ be_bytes 8 (2 ^ 60)) = Some (Frame true 2 []).
Proof. vm_compute. reflexivity. Qed.

(** ** url.ts *)

(** [HEX_VALUES[b]]: the table is a zero-filled [Uint8Array]. *)
Definition HEX_VALUES (b : Z) : Z :=
  if decide (0x30 ≤ b ≤ 0x39) then b - 0x30
  else if decide (0x41 ≤ b ≤ 0x46) then b - 0x41 + 10
  else if decide (0x61 ≤ b ≤ 0x66) then b - 0x61 + 10
  else 0.

Definition bad_escape : js_error := JsError "Error" "url decode: invalid %-encoding: malformed %XX sequence".

Fixpoint nativeUrlDecodeBytes (input : list Z) : result (list Z) :=
  match input with
  | [] => Ok []
  | 0x25 :: rest =>
      match rest with
      | hi :: lo :: rest =>
          if decide (HEX_VALUES hi = 0xff ∨ HEX_VALUES lo = 0xff) then Throw bad_escape
          else out ← nativeUrlDecodeBytes rest; Ok (Z.lor (Z.shiftl (HEX_VALUES hi) 4) (HEX_VALUES lo) :: out)
      | _ => Throw bad_escape
      end
  | b :: rest => out ← nativeUrlDecodeBytes rest; Ok (b :: out)
  end.

(** The check for a malformed escape never fires: characters that are no hex digits are
    read as zeros. *)
Lemma bad_escapes_decode hi lo rest out :
  nativeUrlDecodeBytes rest = Ok out →
  nativeUrlDecodeBytes (0x25 :: hi :: lo :: rest) =
    Ok (Z.lor (Z.shiftl (HEX_VALUES hi) 4) (HEX_VALUES lo) :: out).
Proof.
  intros Hr. cbn [nativeUrlDecodeBytes]. rewrite Hr, decide_False; [done|].
  unfold HEX_VALUES. repeat case_decide; lia.
Qed.

Example zz_is_nul : nativeUrlDecodeBytes (js "a%zzb") = Ok [97; 0; 98].
Proof. vm_compute. reflexivity. Qed.
