(* ===== verification/Trace.v ===== *)
(** W3C trace context (src/shared/trace.ts): parsing and printing of [traceparent] and
    the generation of ids. *)

From S2P Require Import Prelude.
From S2P Require Import Utf8.
From S2P Require Import JsString.

Record TraceContext := Trace {
  version : list Z; traceId : list Z; spanId : list Z; flags : Z; sampled : bool }.

(** [HEX.test(s)]. *)
Definition is_hex (u : Z) : bool := bool_decide (is_Some (hex_val u)).
Definition hex_test (s : list Z) : bool := bool_decide (s ≠ []) && forallb is_hex s.

(** [Number.parseInt(s, 16)] on a string of hex digits. *)
Definition parse_hex16 (s : list Z) : Z := foldl (λ acc u, acc * 16 + default 0 (hex_val u)) 0 s.

Definition DASH : Z := 45.
Definition ZERO : Z := 48.

Definition parseTraceParent (h : option (list Z)) : option TraceContext :=
  match h with
  | None | Some [] => None
  | Some s =>
      match split DASH (trim s) with
      | [v; t; p; f] =>
          if decide (v ≠ [ZERO; ZERO]) then None
          else if decide (zlen t ≠ 32) then None else if negb (hex_test t) then None
          else if decide (zlen p ≠ 16) then None else if negb (hex_test p) then None
          else if decide (zlen f ≠ 2) then None else if negb (hex_test f) then None
          else
            let flags := parse_hex16 f in
            Some (Trace v (toLowerCase t) (toLowerCase p) flags (bool_decide (Z.land flags 1 = 1)))
      | _ => None
      end
  end.

(** [n.toString(16)] for an integer from 0, and [padStart(2, '0')]. *)
Fixpoint hex_string_from (fuel : nat) (n : Z) (acc : list Z) : list Z :=
  match fuel with
  | O => acc
  | S fuel =>
      let acc := hex_digit (n mod 16) :: acc in
      if decide (n < 16) then acc else hex_string_from fuel (n / 16) acc
  end.
Definition toString16 (n : Z) : list Z := hex_string_from (S (Z.to_nat n)) n [].
Definition padStart2 (s : list Z) : list Z :=
  replicate (2 - length s) ZERO ++ s.

Definition serializeTraceParent (c : TraceContext) : list Z :=
  version c ++ [DASH] ++ traceId c ++ [DASH] ++ spanId c ++ [DASH] ++ padStart2 (toString16 (flags c)).

(** [randomHex] of the random bytes. *)
Definition randomHex (bytes : list Z) : list Z := bytes ≫= λ b, padStart2 (toString16 b).

(** ** Well-formed contexts *)

Definition is_lower_hex (u : Z) : Prop := 48 ≤ u ≤ 57 ∨ 97 ≤ u ≤ 102.

Record wf_trace (c : TraceContext) : Prop := {
  wt_version : version c = [ZERO; ZERO];
  wt_trace : zlen (traceId c) = 32 ∧ Forall is_lower_hex (traceId c);
  wt_span : zlen (spanId c) = 16 ∧ Forall is_lower_hex (spanId c);
  wt_flags : 0 ≤ flags c < 256;
  wt_sampled : sampled c = bool_decide (Z.land (flags c) 1 = 1) }.

Lemma hex_val_lower u : is_lower_hex u → is_Some (hex_val u).
Proof. intros Hu. unfold hex_val, is_lower_hex in *. repeat case_decide; eauto; lia. Qed.

Lemma hex_val_range u v : hex_val u = Some v → 0 ≤ v < 16.
Proof. unfold hex_val. repeat case_decide; intros; simplify_eq; lia. Qed.

Lemma lower_hex_test s : s ≠ [] → Forall is_lower_hex s → hex_test s = true.
Proof.
  intros Hs Hl. unfold hex_test. rewrite bool_decide_eq_true_2 by done. cbn.
  induction Hl as [|u s Hu Hl IH]; [done|]. cbn. unfold is_hex at 1.
  rewrite bool_decide_eq_true_2 by by apply hex_val_lower. destruct s; [done|]. by apply IH.
Qed.

Lemma hex_test_lower s : hex_test s = true → Forall is_lower_hex (toLowerCase s).
Proof.
  unfold hex_test. intros [_ Hs]%andb_true_iff. unfold toLowerCase.
  induction s as [|u s IH]; [constructor|]. cbn in Hs. apply andb_true_iff in Hs as [Hu Hs].
  constructor; [|by apply IH]. unfold is_hex in Hu. apply bool_decide_eq_true in Hu as [v Hv].
  unfold hex_val, is_lower_hex in *. repeat case_decide; try done; lia.
Qed.

Lemma lower_hex_fixed s : Forall is_lower_hex s → toLowerCase s = s.
Proof.
  unfold toLowerCase. induction 1 as [|u s Hu _ IH]; [done|]. cbn. rewrite IH.
  unfold is_lower_hex in Hu. by rewrite decide_False by lia.
Qed.

Lemma lower_hex_free s : Forall is_lower_hex s → DASH ∉ s.
Proof. intros Hs Hin. rewrite Forall_forall in Hs. specialize (Hs _ Hin). unfold is_lower_hex, DASH in Hs. lia. Qed.

Lemma lower_hex_space u : is_lower_hex u → js_space u = false.
Proof.
  intros Hu. unfold js_space, is_lower_hex in *. apply orb_false_iff.
  rewrite !bool_decide_eq_false. split; [|lia]. set_solver by lia.
Qed.

(** Two-digit printing of a byte, and its reading. *)
Lemma flags_text n :
  0 ≤ n < 256 →
  padStart2 (toString16 n) = [hex_digit (n / 16); hex_digit (n mod 16)].
Proof.
  intros Hn. unfold toString16. destruct (decide (n < 16)) as [Hs|Hs].
  - cbn [hex_string_from]. rewrite decide_True by done. rewrite Z.div_small by lia. done.
  - replace (S (Z.to_nat n)) with (S (S (Z.to_nat n - 1))) by lia.
    cbn [hex_string_from]. rewrite decide_False by done. cbv zeta.
    assert (0 < n / 16 < 16) by (split; [apply Z.div_str_pos; lia|apply Z.div_lt_upper_bound; lia]).
    rewrite decide_True by lia. by rewrite (Z.mod_small (n / 16)) by lia.
Qed.

Lemma hex_digit_lower d : 0 ≤ d < 16 → is_lower_hex (hex_digit d) ∧ hex_val (hex_digit d) = Some d.
Proof.
  intros Hd. unfold hex_digit, is_lower_hex, hex_val. destruct (decide (d < 10)).
  - split; [lia|]. rewrite decide_True by lia. f_equal. lia.
  - split; [lia|]. rewrite decide_False by lia.
    repeat case_decide; try lia; f_equal; lia.
Qed.

Lemma byte_digits n : 0 ≤ n < 256 → 0 ≤ n / 16 < 16 ∧ 0 ≤ n mod 16 < 16.
Proof.
  intros. split; [split; [apply Z.div_pos; lia|apply Z.div_lt_upper_bound; lia]|apply Z.mod_pos_bound; lia].
Qed.

Lemma parse_flags n :
  0 ≤ n < 256 → parse_hex16 [hex_digit (n / 16); hex_digit (n mod 16)] = n.
Proof.
  intros Hn. destruct (byte_digits n Hn) as [H1 H2]. unfold parse_hex16. cbn [foldl].
  rewrite (proj2 (hex_digit_lower _ H1)), (proj2 (hex_digit_lower _ H2)). cbn.
  pose proof (Z.div_mod n 16 ltac:(lia)). lia.
Qed.

Lemma printed_flags_lower n : 0 ≤ n < 256 → Forall is_lower_hex [hex_digit (n / 16); hex_digit (n mod 16)].
Proof.
  intros Hn. destruct (byte_digits n Hn) as [H1 H2].
  apply Forall_cons. split; [by apply hex_digit_lower|]. apply Forall_singleton. by apply hex_digit_lower.
Qed.

Lemma parse_accepts c : wf_trace c → parseTraceParent (Some (serializeTraceParent c)) = Some c.
Proof.
  intros [Hv [Ht Htl] [Hp Hpl] Hf Hs]. destruct c as [v t p f sm]; cbn [version traceId spanId flags sampled] in *.
  subst v sm. unfold serializeTraceParent. cbn [version traceId spanId flags]. rewrite flags_text by done.
  pose proof (printed_flags_lower f Hf) as Hfl. set (d := [hex_digit _; _]) in *.
  unfold parseTraceParent. cbn [app]. rewrite trim_bare.
  - change (ZERO :: ZERO :: DASH :: ?x) with ([ZERO; ZERO] ++ DASH :: x).
    assert (Hsp : ∀ a b, DASH ∉ a → split DASH (a ++ DASH :: b) = a :: split DASH b).
    { intros a b Ha. rewrite (split_app_free DASH a (DASH :: b) [] (split DASH b)); [|done|apply split_sep].
      by rewrite app_nil_r. }
    rewrite Hsp by (unfold DASH, ZERO; set_solver by lia).
    rewrite Hsp by by apply lower_hex_free. rewrite Hsp by by apply lower_hex_free.
    rewrite split_free by by apply lower_hex_free.
    rewrite decide_False by naive_solver. rewrite decide_False by lia.
    rewrite lower_hex_test by (done || (intros ->; done)). cbn [negb].
    rewrite decide_False by lia.
    rewrite lower_hex_test by (done || (intros ->; done)). cbn [negb].
    rewrite decide_False by (unfold d; zlia).
    rewrite lower_hex_test by done. cbn [negb]. cbv zeta.
    rewrite !lower_hex_fixed by done. unfold d. by rewrite parse_flags.
  - intros u [= <-]. vm_compute. reflexivity.
  - intros u. change (ZERO :: ZERO :: DASH :: t ++ DASH :: p ++ DASH :: d)
      with ([ZERO; ZERO; DASH] ++ t ++ DASH :: p ++ DASH :: d).
    replace ([ZERO; ZERO; DASH] ++ t ++ DASH :: p ++ DASH :: d)
      with (([ZERO; ZERO; DASH] ++ t ++ DASH :: p ++ [DASH; hex_digit (f / 16)]) ++ [hex_digit (f mod 16)])
      by (unfold d; cbn [app]; rewrite <-!app_assoc; cbn [app]; by rewrite <-!app_assoc).
    rewrite last_snoc. intros [= <-]. apply lower_hex_space.
    unfold d in Hfl. by apply Forall_inv_tail, Forall_inv in Hfl.
Qed.

Lemma parse_wf h c : parseTraceParent h = Some c → wf_trace c.
Proof.
  unfold parseTraceParent. destruct h as [[|u s]|]; [done| |done].
  destruct (split DASH (trim (u :: s))) as [|v [|t [|p [|f [|]]]]]; try done.
  destruct (decide (v ≠ [ZERO; ZERO])) as [|Hv%dec_stable]; [done|].
  destruct (decide (zlen t ≠ 32)) as [|Ht%dec_stable]; [done|]. destruct (hex_test t) eqn:Et; [|done].
  cbn [negb]. destruct (decide (zlen p ≠ 16)) as [|Hp%dec_stable]; [done|].
  destruct (hex_test p) eqn:Ep; [|done]. cbn [negb].
  destruct (decide (zlen f ≠ 2)) as [|Hf%dec_stable]; [done|]. destruct (hex_test f) eqn:Ef; [|done].
  intros [= <-]. constructor; cbn [version traceId spanId flags sampled]; [done|..].
  - split; [by unfold toLowerCase; rewrite zlen_fmap|by apply hex_test_lower].
  - split; [by unfold toLowerCase; rewrite zlen_fmap|by apply hex_test_lower].
  - destruct f as [|a [|b [|]]]; unfold zlen in Hf; cbn in Hf; try lia.
    unfold hex_test in Ef. cbn in Ef. apply andb_true_iff in Ef as [Ha [Hb _]%andb_true_iff].
    unfold is_hex in *. apply bool_decide_eq_true in Ha as [x Hx], Hb as [y Hy].
    unfold parse_hex16. cbn [foldl]. rewrite Hx, Hy. cbn.
    pose proof (hex_val_range _ _ Hx). pose proof (hex_val_range _ _ Hy). lia.
  - done.
Qed.

(** Whatever header is accepted gives a well-formed context (version 00, lower-case
    ids of 32 and 16 digits, one byte of flags, the sampled bit), and printing a
    well-formed context and parsing the header gives it back: re-emitting an accepted
    header is stable, and the printer's output is always accepted. *)
Theorem trace_roundtrip (h : option (list Z)) (c : TraceContext) :
  (parseTraceParent h = Some c → wf_trace c) ∧
  (wf_trace c → parseTraceParent (Some (serializeTraceParent c)) = Some c).
Proof. split; [apply parse_wf|apply parse_accepts]. Qed.

(** Generated ids are the ids of well-formed contexts. *)
Lemma random_ids_wf bytes :
  bytes_ok bytes → zlen (randomHex bytes) = 2 * zlen bytes ∧ Forall is_lower_hex (randomHex bytes).
Proof.
  unfold randomHex. induction 1 as [|b bytes Hb _ [IH1 IH2]]; [done|]. cbn [mbind list_bind].
  rewrite flags_text by done. split.
  - rewrite zlen_app, !zlen_cons, zlen_nil, IH1. lia.
  - apply Forall_app. split; [by apply printed_flags_lower|done].
Qed.

Lemma trace_roundtrip_witness :
  let c := Trace [48; 48] (js "4bf92f3577b34da6a3ce929d0e0e4736") (js "00f067aa0ba902b7") 1 true in
  parseTraceParent (Some (js "00-4BF92F3577B34DA6A3CE929D0E0E4736-00f067aa0ba902b7-01")) = Some c ∧
  parseTraceParent (Some (serializeTraceParent c)) = Some c.
Proof.
  assert (E : parseTraceParent (Some (js "00-4BF92F3577B34DA6A3CE929D0E0E4736-00f067aa0ba902b7-01")) =
    Some (Trace [48; 48] (js "4bf92f3577b34da6a3ce929d0e0e4736") (js "00f067aa0ba902b7") 1 true))
    by (vm_compute; reflexivity).
  split; [exact E|].
  apply (trace_roundtrip (Some (js "00-4BF92F3577B34DA6A3CE929D0E0E4736-00f067aa0ba902b7-01"))).
  by apply (trace_roundtrip (Some (js "00-4BF92F3577B34DA6A3CE929D0E0E4736-00f067aa0ba902b7-01"))).
Defined.
