(* ===== verification/JsonPacked.v ===== *)
(** The packed JSON path: the single-pass emitter of rust/ffi/json.rs, which writes a
    table of distinct strings and a stream of tokens, and its decoder [decodeJsonPacked]
    (src/rust-ffi/scalar/json-packed.ts) with its container stack.

    A document is what a JSON text denotes; its numbers are binary64 patterns.  Its strings
    are JavaScript strings where it stands for the value of [JSON.parse], and UTF-8 bytes
    ([map_strings encodeUtf8]) where it is what the parser reports to the emitter.  A JavaScript value keeps its prototype,
    because the decoder assigns [obj[key] = v] also for the key [__proto__].  Own
    properties are listed in the order they were created. *)

From S2P Require Import Prelude.
From S2P Require Import JsMap.
From S2P Require Import Utf8.
From S2P Require Import JsObject.
From S2P Require Import Wire.
Open Scope Z_scope.

(** ** Documents and the emitter (Rust) *)

Inductive json :=
  | DNull
  | DBool (b : bool)
  | DNumber (bits : Z)
  | DString (s : list Z)
  | DArray (l : list json)
  | DObject (ms : list (list Z * json)).

Record JsonPackedEmitter := Emitter {
  strings : list (list Z * Z);         (* the hash map, by order of insertion *)
  table : list Z;
  tree : list Z }.

Definition new_emitter : JsonPackedEmitter := Emitter [] [] [].

Definition tree_push (bs : list Z) (e : JsonPackedEmitter) : JsonPackedEmitter :=
  Emitter (strings e) (table e) (tree e ++ bs).

(** [intern]: the index of the string, new strings going to the end of the table. *)
Definition intern (bytes : list Z) (e : JsonPackedEmitter) : Z * JsonPackedEmitter :=
  match mget bytes (strings e) with
  | Some idx => (idx, e)
  | None =>
      let idx := to_u32 (zlen (strings e)) in
      (idx, Emitter (strings e ++ [(bytes, idx)])
              (table e ++ le_bytes 4 (to_u32 (zlen bytes)) ++ bytes) (tree e))
  end.

(** [emit_string] and [emit_key]: the tag is pushed first. *)
Definition emit_ref (tag : Z) (bytes : list Z) (e : JsonPackedEmitter) : JsonPackedEmitter :=
  let '(idx, e) := intern bytes (tree_push [tag] e) in tree_push (le_bytes 4 idx) e.

Definition TAG_NULL : Z := 0.
Definition TAG_FALSE : Z := 1.
Definition TAG_TRUE : Z := 2.
Definition TAG_NUMBER : Z := 3.
Definition TAG_STRING : Z := 4.
Definition TAG_ARRAY_START : Z := 5.
Definition TAG_OBJECT_START : Z := 6.
Definition TAG_ARRAY_END : Z := 7.
Definition TAG_OBJECT_END : Z := 8.
Definition TAG_KEY : Z := 9.

(** The visitor. *)
Fixpoint emit (j : json) (e : JsonPackedEmitter) : JsonPackedEmitter :=
  match j with
  | DNull => tree_push [TAG_NULL] e
  | DBool b => tree_push [if b then TAG_TRUE else TAG_FALSE] e
  | DNumber bits => tree_push (TAG_NUMBER :: le_bytes 8 bits) e
  | DString s => emit_ref TAG_STRING s e
  | DArray l =>
      tree_push [TAG_ARRAY_END] (foldl (λ e j, emit j e) (tree_push [TAG_ARRAY_START] e) l)
  | DObject ms =>
      tree_push [TAG_OBJECT_END]
        (foldl (λ e m, emit m.2 (emit_ref TAG_KEY m.1 e)) (tree_push [TAG_OBJECT_START] e) ms)
  end.

(** What [castrum_json_parse_packed] writes. *)
Definition json_parse_packed (j : json) : list Z :=
  let e := emit j new_emitter in
  le_bytes 4 (to_u32 (zlen (strings e))) ++ table e ++
  le_bytes 4 (to_u32 (zlen (tree e))) ++ tree e.

(** ** JavaScript values *)

(** [VObj own proto]: the prototype is [Object.prototype] for [VUndefined], none for
    [VNull], else an object or array. *)
Inductive jval :=
  | VUndefined
  | VNull
  | VBool (b : bool)
  | VNum (bits : Z)
  | VStr (s : list Z)
  | VArr (l : list jval)
  | VObj (own : list (list Z * jval)) (proto : jval).

(** Whether a lookup of [__proto__] that starts at a prototype meets the accessor of
    [Object.prototype]. *)
Fixpoint has_accessor (proto : jval) : bool :=
  match proto with
  | VUndefined | VArr _ => true
  | VObj o p => match mget PROTO o with Some _ => false | None => has_accessor p end
  | _ => false
  end.

(** [obj[key] = v] on an object. *)
Definition put (key : list Z) (v : jval) (o : list (list Z * jval) * jval) : list (list Z * jval) * jval :=
  if decide (key = PROTO) then
    match mget PROTO o.1, has_accessor o.2 with
    | None, true =>
        match v with VNull | VArr _ | VObj _ _ => (o.1, v) | _ => o end
    | _, _ => (mset key v o.1, o.2)
    end
  else (mset key v o.1, o.2).

Definition new_object : list (list Z * jval) * jval := ([], VUndefined).

(** ** decodeJsonPacked *)

(** [fastDecodeUtf8]. *)
Definition fastDecodeUtf8 `{Codec} (isBun : bool) (bytes : list Z) : list Z :=
  if decide (zlen bytes = 0) then []
  else if isBun then utf8_toString bytes else decodeUtf8 bytes.

Record JsonFrame := Frame {
  isObj : bool; arr : list jval; obj : list (list Z * jval) * jval; key : option (list Z) }.

(** The stack, its last frame first, and [root]. *)
Definition decode_state := (list JsonFrame * jval)%type.

(** [attach(v)]; a key that is [undefined] names the property ["undefined"]. *)
Definition attach (v : jval) (st : decode_state) : decode_state :=
  match st with
  | ([], _) => ([], v)
  | (f :: frames, root) =>
      ((if isObj f then Frame (isObj f) (arr f) (put (default (js "undefined") (key f)) v (obj f)) (key f)
        else Frame (isObj f) (arr f ++ [v]) (obj f) (key f)) :: frames, root)
  end.

Definition malformed_stream : js_error := JsError "Error" "json parse: malformed packed stream".
Definition malformed_token : js_error := JsError "Error" "json parse: malformed packed token".

Definition push_frame (o : bool) (st : decode_state) : decode_state :=
  (Frame o [] new_object (Some []) :: st.1, st.2).

(** [attach(popFrame().arr)] and [attach(popFrame().obj)]. *)
Definition pop_attach (o : bool) (st : decode_state) : result decode_state :=
  match st with
  | ([], _) => Throw malformed_stream
  | (f :: frames, root) =>
      Ok (attach (if o then VObj (obj f).1 (obj f).2 else VArr (arr f)) (frames, root))
  end.

Definition set_key (k : option (list Z)) (st : decode_state) : result decode_state :=
  match st with
  | ([], _) => Throw (TypeError "Cannot set properties of undefined (setting 'key')")
  | (f :: frames, root) => Ok (Frame (isObj f) (arr f) (obj f) k :: frames, root)
  end.

(** One turn of the loop at position [p]: the next position and state. *)
Definition token (b : list Z) (strs : list (list Z)) (p : Z) (st : decode_state)
    : result (Z * decode_state) :=
  t ← dv_get 1 b p;
  let p := p + 1 in
  let str i := VStr <$> strs !! Z.to_nat i in
  if decide (t = TAG_NULL) then Ok (p, attach VNull st)
  else if decide (t = TAG_FALSE) then Ok (p, attach (VBool false) st)
  else if decide (t = TAG_TRUE) then Ok (p, attach (VBool true) st)
  else if decide (t = TAG_NUMBER) then v ← dv_get 8 b p; Ok (p + 8, attach (VNum v) st)
  else if decide (t = TAG_STRING) then
    i ← dv_get 4 b p; Ok (p + 4, attach (default VUndefined (str i)) st)
  else if decide (t = TAG_ARRAY_START) then Ok (p, push_frame false st)
  else if decide (t = TAG_OBJECT_START) then Ok (p, push_frame true st)
  else if decide (t = TAG_ARRAY_END) then st ← pop_attach false st; Ok (p, st)
  else if decide (t = TAG_OBJECT_END) then st ← pop_attach true st; Ok (p, st)
  else if decide (t = TAG_KEY) then
    i ← dv_get 4 b p; st ← set_key (strs !! Z.to_nat i) st; Ok (p + 4, st)
  else Throw malformed_token.

(** [while (p < end)] and the check behind it. *)
Fixpoint tokens (fuel : nat) (b : list Z) (strs : list (list Z)) (end_ p : Z) (st : decode_state)
    : result jval :=
  match fuel with
  | O => Throw malformed_stream
  | S fuel =>
      if decide (p < end_) then
        '(p, st) ← token b strs p st;
        tokens fuel b strs end_ p st
      else if decide (p ≠ end_ ∨ st.1 ≠ []) then Throw malformed_stream
      else Ok st.2
  end.

(** The string table. *)
Fixpoint read_strings `{Codec} (isBun : bool) (n : nat) (b : list Z) (p : Z)
    : result (list (list Z) * Z) :=
  match n with
  | O => Ok ([], p)
  | S n =>
      len ← dv_get 4 b p;
      let p := p + 4 in
      let s := fastDecodeUtf8 isBun (subarray b p (p + len)) in
      '(ss, p) ← read_strings isBun n b (p + len);
      Ok (s :: ss, p)
  end.

Definition decodeJsonPacked `{Codec} (isBun : bool) (b : list Z) : result jval :=
  strCount ← dv_get 4 b 0;
  '(strs, p) ← read_strings isBun (Z.to_nat strCount) b 4;
  treeLen ← dv_get 4 b p;
  let p := p + 4 in
  tokens (S (length b)) b strs (p + treeLen) p ([], VUndefined).

(** ** What the stream means *)

(** The value the decoder assembles from a document whose strings it reads with [dec]. *)
Fixpoint assemble (dec : list Z → list Z) (j : json) : jval :=
  match j with
  | DNull => VNull
  | DBool b => VBool b
  | DNumber bits => VNum (bits mod 2 ^ 64)
  | DString s => VStr (dec s)
  | DArray l => VArr (assemble dec <$> l)
  | DObject ms =>
      let o := foldl (λ o m, put (dec m.1) (assemble dec m.2) o) new_object ms in VObj o.1 o.2
  end.

(** The value [JSON.parse] gives for a document over JavaScript strings: every member an
    own property, the last of a name winning, every string itself. *)
Fixpoint parse_value (j : json) : jval :=
  match j with
  | DNull => VNull
  | DBool b => VBool b
  | DNumber bits => VNum (bits mod 2 ^ 64)
  | DString s => VStr s
  | DArray l => VArr (parse_value <$> l)
  | DObject ms => VObj (foldl (λ o m, mset m.1 (parse_value m.2) o) [] ms) VUndefined
  end.

(** The document with its strings written another way. *)
Fixpoint map_strings (f : list Z → list Z) (j : json) : json :=
  match j with
  | DString s => DString (f s)
  | DArray l => DArray (map_strings f <$> l)
  | DObject ms => DObject ((λ m, (f m.1, map_strings f m.2)) <$> ms)
  | _ => j
  end.

(** The names of the members, at any depth. *)
Fixpoint member_names (j : json) : list (list Z) :=
  match j with
  | DArray l => foldr (λ j ns, member_names j ++ ns) [] l
  | DObject ms => foldr (λ m ns, m.1 :: member_names m.2 ++ ns) [] ms
  | _ => []
  end.
(** Every string of the document, names included. *)
Fixpoint texts (j : json) : list (list Z) :=
  match j with
  | DString s => [s]
  | DArray l => foldr (λ j ts, texts j ++ ts) [] l
  | DObject ms => foldr (λ m ts, m.1 :: texts m.2 ++ ts) [] ms
  | _ => []
  end.

Section json_induction.
Variable P : json → Prop.
Hypotheses (Hnull : P DNull) (Hbool : ∀ b, P (DBool b)) (Hnum : ∀ bits, P (DNumber bits))
  (Hstr : ∀ s, P (DString s)) (Harr : ∀ l, Forall P l → P (DArray l))
  (Hobj : ∀ ms, Forall (λ m, P m.2) ms → P (DObject ms)).

Fixpoint json_ind' (j : json) : P j :=
  match j with
  | DNull => Hnull
  | DBool b => Hbool b
  | DNumber bits => Hnum bits
  | DString s => Hstr s
  | DArray l =>
      Harr l ((fix go l : Forall P l :=
                 match l with [] => Forall_nil_2 _ | j :: l' => Forall_cons_2 _ _ _ (json_ind' j) (go l') end) l)
  | DObject ms =>
      Hobj ms ((fix go ms : Forall (λ m, P m.2) ms :=
                  match ms with
                  | [] => Forall_nil_2 _
                  | m :: ms' => Forall_cons_2 _ _ _ (json_ind' m.2) (go ms')
                  end) ms)
  end.
End json_induction.

(** ** The emitter writes a table and a stream over it *)

Fixpoint pos (K : list (list Z)) (s : list Z) : nat :=
  match K with [] => 0 | x :: K' => if decide (s = x) then 0 else S (pos K' s) end.

Lemma pos_lookup K s : s ∈ K → K !! pos K s = Some s.
Proof.
  induction K as [|x K IH]; intros Hs; [set_solver|]. cbn. case_decide as E; [by subst|].
  apply IH. set_solver.
Qed.

Lemma pos_lt K s : s ∈ K → (pos K s < length K)%nat.
Proof. intros Hs. by apply lookup_lt_Some with s, pos_lookup. Qed.

Lemma pos_app K K' s : s ∈ K → pos (K ++ K') s = pos K s.
Proof.
  induction K as [|x K IH]; intros Hs; [set_solver|]. cbn. case_decide as E; [done|].
  rewrite IH; [done|set_solver].
Qed.

Lemma pos_new K s : s ∉ K → pos (K ++ [s]) s = length K.
Proof.
  induction K as [|x K IH]; intros Hs; cbn; [by rewrite decide_True|].
  rewrite decide_False by set_solver. rewrite IH by set_solver. done.
Qed.

Lemma mget_imap {V} (f : nat → V) s K :
  mget s (imap (λ i x, (x, f i)) K) = if decide (s ∈ K) then Some (f (pos K s)) else None.
Proof.
  revert f. induction K as [|x K IH]; intros f; [done|].
  rewrite imap_cons. cbn [mget pos]. destruct (decide (s = x)) as [->|E].
  - by rewrite !decide_True by (done || apply list_elem_of_here).
  - rewrite ?(decide_False (P := s = x)) by done. etrans; [exact (IH (f ∘ S))|].
    apply decide_ext. rewrite elem_of_cons. tauto.
Qed.

Definition item (s : list Z) : list Z := le_bytes 4 (to_u32 (zlen s)) ++ s.
Definition ref_at (K : list (list Z)) (tag : Z) (s : list Z) : list Z :=
  tag :: le_bytes 4 (to_u32 (Z.of_nat (pos K s))).

(** The tokens of a document over a table. *)
Fixpoint stream (K : list (list Z)) (j : json) : list Z :=
  match j with
  | DNull => [TAG_NULL]
  | DBool b => [if b then TAG_TRUE else TAG_FALSE]
  | DNumber bits => TAG_NUMBER :: le_bytes 8 bits
  | DString s => ref_at K TAG_STRING s
  | DArray l => TAG_ARRAY_START :: foldr (λ j bs, stream K j ++ bs) [TAG_ARRAY_END] l
  | DObject ms =>
      TAG_OBJECT_START ::
      foldr (λ m bs, (ref_at K TAG_KEY m.1 ++ stream K m.2) ++ bs) [TAG_OBJECT_END] ms
  end.

(** An emitter over the table [K]. *)
Record over (K : list (list Z)) (e : JsonPackedEmitter) : Prop := {
  over_strings : strings e = imap (λ i s, (s, to_u32 (Z.of_nat i))) K;
  over_table : table e = K ≫= item;
  over_nodup : NoDup K }.

(** [e'] was reached from [e] by writing tokens [bs] that stay right as the table grows. *)
Definition writes (e e' : JsonPackedEmitter) (K' : list (list Z)) (bs : list (list Z) → list Z) : Prop :=
  over K' e' ∧ ∀ L, tree e' = tree e ++ bs (K' ++ L).

Lemma over_push K bs e : over K e → over K (tree_push bs e).
Proof. by intros []. Qed.

Lemma emit_ref_spec K tag s e :
  over K e → ∃ L, s ∈ K ++ L ∧ writes e (emit_ref tag s e) (K ++ L) (λ K', ref_at K' tag s).
Proof.
  intros [Hs Ht Hn]. unfold emit_ref, intern, writes. cbn [strings tree_push table tree].
  rewrite Hs, mget_imap. destruct (decide (s ∈ K)) as [Hin|Hin].
  - exists []. rewrite app_nil_r. split; [done|]. split; [by split|]. intros L.
    unfold ref_at. rewrite pos_app by done. cbn. by rewrite <-app_assoc.
  - exists [s]. split; [set_solver|]. split.
    + split; cbn [strings table tree_push].
      * rewrite imap_app. cbn. unfold zlen. rewrite length_imap. by rewrite Nat.add_0_r.
      * rewrite Ht, bind_app. cbn. by rewrite app_nil_r.
      * apply NoDup_app. split; [done|]. split; [set_solver|]. apply NoDup_singleton.
    + intros L. unfold ref_at. rewrite pos_app by set_solver. rewrite pos_new by done.
      cbn. unfold zlen. rewrite length_imap. by rewrite <-app_assoc.
Qed.

Lemma writes_seq K L1 L2 e1 e2 e3 bs1 bs2 :
  writes e1 e2 (K ++ L1) bs1 → writes e2 e3 ((K ++ L1) ++ L2) bs2 →
  writes e1 e3 (K ++ L1 ++ L2) (λ K', bs1 K' ++ bs2 K').
Proof.
  intros [_ W1] [O2 W2]. rewrite app_assoc. split; [done|]. intros M.
  rewrite (W2 M), (W1 (L2 ++ M)). by rewrite <-!app_assoc.
Qed.

Lemma fold_writes {A} (step : A → JsonPackedEmitter → JsonPackedEmitter) (txt : A → list (list Z))
    (bs : list (list Z) → A → list Z) (l : list A) :
  Forall (λ a, ∀ K e, over K e →
    ∃ L, txt a ⊆ K ++ L ∧ writes e (step a e) (K ++ L) (λ K', bs K' a)) l →
  ∀ K e, over K e →
  ∃ L, foldr (λ a ts, txt a ++ ts) [] l ⊆ K ++ L ∧
    writes e (foldl (λ e a, step a e) e l) (K ++ L) (λ K', foldr (λ a t, bs K' a ++ t) [] l).
Proof.
  induction 1 as [|a l Ha _ IH]; intros K e I; cbn [foldl foldr].
  { exists []. rewrite app_nil_r. split; [set_solver|]. split; [done|]. intros M. by rewrite app_nil_r. }
  destruct (Ha K e I) as (L1 & T1 & W1). destruct (IH (K ++ L1) (step a e)) as (L2 & T2 & W2); [apply W1|].
  exists (L1 ++ L2). split; [rewrite app_assoc; set_solver|]. by eapply writes_seq.
Qed.

Lemma foldr_tail {A} (f : A → list Z) (t : list Z) (l : list A) :
  foldr (λ a t, f a ++ t) t l = foldr (λ a t, f a ++ t) [] l ++ t.
Proof. induction l as [|a l IH]; [done|]. cbn [foldr]. by rewrite IH, app_assoc. Qed.

Lemma writes_between K t1 t2 e e' bs :
  writes (tree_push [t1] e) e' K bs → writes e (tree_push [t2] e') K (λ K', t1 :: bs K' ++ [t2]).
Proof.
  intros [O W]. split; [by apply over_push|]. intros M. cbn [tree tree_push]. rewrite (W M).
  cbn [tree tree_push]. by rewrite <-!app_assoc.
Qed.

Lemma writes_ext K e e' bs1 bs2 : (∀ K', bs1 K' = bs2 K') → writes e e' K bs1 → writes e e' K bs2.
Proof. intros E [O W]. split; [done|]. intros M. by rewrite <-E. Qed.

Lemma emit_spec (j : json) : ∀ K e, over K e →
  ∃ L, texts j ⊆ K ++ L ∧ writes e (emit j e) (K ++ L) (λ K', stream K' j).
Proof.
  induction j as [|b|bits|s|l IH|ms IH] using json_ind'; intros K e I; cbn [emit stream texts].
  1-3: exists []; rewrite app_nil_r; split; [set_solver|]; split; [by apply over_push|done].
  - destruct (emit_ref_spec K TAG_STRING s e I) as (L & Hs & W). exists L. split; [set_solver|done].
  - destruct (fold_writes emit texts stream l IH K _ (over_push K [TAG_ARRAY_START] e I)) as (L & T & W).
    exists L. split; [done|]. apply (writes_between _ _ TAG_ARRAY_END) in W. revert W. apply writes_ext.
    intros K'. by rewrite (foldr_tail (stream K') [TAG_ARRAY_END]).
  - destruct (fold_writes (λ m e, emit m.2 (emit_ref TAG_KEY m.1 e)) (λ m, m.1 :: texts m.2)
      (λ K' m, ref_at K' TAG_KEY m.1 ++ stream K' m.2) ms) with (K := K) (e := tree_push [TAG_OBJECT_START] e)
      as (L & T & W); [|by apply over_push|].
    + eapply Forall_impl; [exact IH|]. intros [k j] Hj K' e' I'. cbn [fst snd] in *.
      destruct (emit_ref_spec K' TAG_KEY k e' I') as (L1 & Hk & W1).
      destruct (Hj (K' ++ L1) _ (proj1 W1)) as (L2 & T2 & W2).
      exists (L1 ++ L2). split; [rewrite app_assoc; set_solver|]. by eapply writes_seq.
    + exists L. split; [done|]. apply (writes_between _ _ TAG_OBJECT_END) in W. revert W. apply writes_ext.
      intros K'. by rewrite (foldr_tail (λ m, ref_at K' TAG_KEY m.1 ++ stream K' m.2) [TAG_OBJECT_END]).
Qed.

(** ** The decoder reads them back *)

Lemma get_u32 pre v post : dv_get 4 (pre ++ le_bytes 4 (to_u32 v) ++ post) (zlen pre) = Ok (to_u32 v).
Proof.
  apply dv_get_app; [done|]. rewrite pow256_4. unfold to_u32. apply Z.mod_pos_bound. done.
Qed.

Lemma get_u64 pre v post : dv_get 8 (pre ++ le_bytes 8 v ++ post) (zlen pre) = Ok (v mod 2 ^ 64).
Proof.
  change (2 ^ 64) with (256 ^ Z.of_nat 8). rewrite <-(le_bytes_mod 8 v).
  apply dv_get_app; [done|]. by apply Z.mod_pos_bound.
Qed.

Lemma to_u32_small v : 0 ≤ v < U32 → to_u32 v = v.
Proof. intros. by apply Z.mod_small. Qed.

Section decoder.
Context `{Codec} (isBun : bool).
Notation dec := (fastDecodeUtf8 isBun).

Lemma read_strings_spec K : ∀ pre post,
  Forall (λ s, zlen s < U32) K →
  read_strings isBun (length K) (pre ++ (K ≫= item) ++ post) (zlen pre) =
    Ok (dec <$> K, zlen pre + zlen (K ≫= item)).
Proof.
  induction K as [|s K IH]; intros pre post Hs; cbn [length read_strings]; [by rewrite Z.add_0_r|].
  inversion Hs as [|? ? Hlen Hs']; subst.
  change ((s :: K) ≫= item) with (item s ++ (K ≫= item)).
  assert (Hu : to_u32 (zlen s) = zlen s) by (apply to_u32_small; pose proof (zlen_nonneg s); lia).
  assert (Hi : zlen (item s) = 4 + zlen s) by (unfold item; by rewrite zlen_app, zlen_le_bytes).
  replace (pre ++ (item s ++ (K ≫= item)) ++ post)
    with (pre ++ le_bytes 4 (to_u32 (zlen s)) ++ s ++ (K ≫= item) ++ post)
    by (unfold item; by rewrite <-!app_assoc).
  rewrite get_u32, bind_ret, Hu.
  replace (pre ++ le_bytes 4 (zlen s) ++ s ++ (K ≫= item) ++ post)
    with ((pre ++ le_bytes 4 (zlen s)) ++ s ++ (K ≫= item) ++ post) by (by rewrite <-app_assoc).
  rewrite (subarray_app (pre ++ le_bytes 4 (zlen s)) s) by (rewrite ?zlen_app, ?zlen_le_bytes; lia).
  rewrite (app_assoc _ s).
  replace (zlen pre + 4 + zlen s) with (zlen ((pre ++ le_bytes 4 (zlen s)) ++ s))
    by (rewrite !zlen_app, zlen_le_bytes; lia).
  rewrite IH by done. rewrite bind_ret. do 2 f_equal. rewrite !zlen_app, zlen_le_bytes, Hi. lia.
Qed.

(** *** Running the stream *)

Context (K : list (list Z)) (b : list Z) (end_ : Z).
Hypothesis Kfits : zlen K ≤ U32.
Notation strs := (dec <$> K).

(** Tokens of a document. *)
Fixpoint token_count (j : json) : nat :=
  match j with
  | DArray l => S (foldr (λ j n, token_count j + n)%nat 1%nat l)
  | DObject ms => S (foldr (λ m n, S (token_count m.2) + n)%nat 1%nat ms)
  | _ => 1%nat
  end.

Lemma ref_u32 s pre post :
  s ∈ K → dv_get 4 (pre ++ le_bytes 4 (to_u32 (Z.of_nat (pos K s))) ++ post) (zlen pre) = Ok (Z.of_nat (pos K s)).
Proof.
  intros Hs. rewrite get_u32. f_equal. apply to_u32_small. pose proof (pos_lt K s Hs). unfold zlen in *. lia.
Qed.

Lemma strs_at s : s ∈ K → strs !! Z.to_nat (Z.of_nat (pos K s)) = Some (dec s).
Proof. intros Hs. by rewrite Nat2Z.id, list_lookup_fmap, (pos_lookup K s Hs). Qed.

(** One turn of the loop. *)
Lemma turn pre t rest st n p' st' :
  b = pre ++ t :: rest → 0 ≤ t < 256 → zlen pre < end_ →
  token b strs (zlen pre) st = Ok (p', st') →
  tokens (S n) b strs end_ (zlen pre) st = tokens n b strs end_ p' st'.
Proof. intros -> Ht Hp E. cbn [tokens]. rewrite decide_True by done. by rewrite E. Qed.

Lemma tag_at pre t rest : 0 ≤ t < 256 → dv_get 1 (pre ++ t :: rest) (zlen pre) = Ok t.
Proof.
  intros Ht. pose proof (dv_get_app 1 pre rest (zlen pre) t eq_refl) as E.
  cbn [le_bytes app] in E. rewrite Z.mod_small in E by done. by apply E.
Qed.

(** Decide the comparisons of closed tags. *)
Ltac decide_tags :=
  repeat match goal with
    | |- context [@decide (?x = ?y) _] =>
        let v := eval vm_compute in (bool_decide (x = y)) in
        match v with
        | true => rewrite (decide_True (P := x = y)) by reflexivity
        | false => rewrite (decide_False (P := x = y)) by (vm_compute; discriminate)
        end
    end.

Ltac at_tag :=
  unfold token; rewrite tag_at by (vm_compute; by split); rewrite bind_ret; cbv zeta;
  decide_tags.

Lemma next_pos (pre : list Z) t : zlen pre + 1 = zlen (pre ++ [t]).
Proof. by rewrite zlen_app. Qed.

Lemma step_tag pre t rest st n st' :
  b = pre ++ t :: rest → 0 ≤ t < 256 → zlen pre < end_ →
  token b strs (zlen pre) st = Ok (zlen pre + 1, st') →
  tokens (S n) b strs end_ (zlen pre) st = tokens n b strs end_ (zlen (pre ++ [t])) st'.
Proof. intros E Ht Hp Et. rewrite <-next_pos. by eapply turn. Qed.

Lemma step_ref pre tag s rest st n st' :
  b = pre ++ ref_at K tag s ++ rest → 0 ≤ tag < 256 → zlen pre < end_ →
  token b strs (zlen pre) st = Ok (zlen pre + 1 + 4, st') →
  tokens (S n) b strs end_ (zlen pre) st = tokens n b strs end_ (zlen (pre ++ ref_at K tag s)) st'.
Proof.
  intros E Ht Hp Et. replace (zlen (pre ++ ref_at K tag s)) with (zlen pre + 1 + 4).
  - by apply (turn pre tag (le_bytes 4 (to_u32 (Z.of_nat (pos K s))) ++ rest)).
  - unfold ref_at. rewrite zlen_app, zlen_cons, zlen_le_bytes. lia.
Qed.

Lemma get_ref pre tag s rest :
  s ∈ K →
  dv_get 4 (pre ++ tag :: le_bytes 4 (to_u32 (Z.of_nat (pos K s))) ++ rest) (zlen pre + 1) =
    Ok (Z.of_nat (pos K s)).
Proof.
  intros Hs. rewrite (next_pos pre tag).
  rewrite (cons_middle tag pre), app_assoc. by apply ref_u32.
Qed.

(** What the tokens of a document do, wherever they stand. *)
Definition runs_to (bs : list Z) (count : nat) (st st' : decode_state) : Prop :=
  ∀ pre post n, b = pre ++ bs ++ post → zlen (pre ++ bs) ≤ end_ →
  tokens (count + n) b strs end_ (zlen pre) st = tokens n b strs end_ (zlen (pre ++ bs)) st'.

Lemma runs_seq bs1 bs2 c1 c2 st1 st2 st3 :
  runs_to bs1 c1 st1 st2 → runs_to bs2 c2 st2 st3 → runs_to (bs1 ++ bs2) (c1 + c2) st1 st3.
Proof.
  intros R1 R2 pre post n E Hle. rewrite <-Nat.add_assoc.
  rewrite app_assoc in Hle |- *.
  rewrite (R1 pre (bs2 ++ post)); [|by rewrite E, <-app_assoc|].
  - apply (R2 (pre ++ bs1) post); [|done]. by rewrite E, <-!app_assoc.
  - rewrite zlen_app in Hle. pose proof (zlen_nonneg bs2). lia.
Qed.

Lemma runs_tag t st st' :
  0 ≤ t < 256 → (∀ pre rest, b = pre ++ t :: rest → token b strs (zlen pre) st = Ok (zlen pre + 1, st')) →
  runs_to [t] 1 st st'.
Proof.
  intros Ht Hk pre post n E Hle. rewrite zlen_app, zlen_cons in Hle. pose proof (zlen_nonneg (@nil Z)).
  eapply step_tag; [exact E|done|lia|]. by eapply Hk.
Qed.

Lemma runs_string s st : s ∈ K → runs_to (ref_at K TAG_STRING s) 1 st (attach (VStr (dec s)) st).
Proof.
  intros Hs pre post n E Hle. eapply step_ref; [exact E|done| |].
  - rewrite zlen_app in Hle. unfold ref_at in Hle. rewrite zlen_cons, zlen_le_bytes in Hle. lia.
  - rewrite E. unfold ref_at at 1. cbn [app]. at_tag. rewrite (get_ref pre TAG_STRING s post Hs), bind_ret.
    by rewrite strs_at.
Qed.

Lemma runs_key s f frames root :
  s ∈ K → runs_to (ref_at K TAG_KEY s) 1 (f :: frames, root)
            (Frame (isObj f) (arr f) (obj f) (Some (dec s)) :: frames, root).
Proof.
  intros Hs pre post n E Hle. eapply step_ref; [exact E|done| |].
  - rewrite zlen_app in Hle. unfold ref_at in Hle. rewrite zlen_cons, zlen_le_bytes in Hle. lia.
  - rewrite E. unfold ref_at at 1. cbn [app]. at_tag. rewrite (get_ref pre TAG_KEY s post Hs), bind_ret.
    by rewrite strs_at.
Qed.

Lemma runs_number bits st : runs_to (TAG_NUMBER :: le_bytes 8 bits) 1 st (attach (VNum (bits mod 2 ^ 64)) st).
Proof.
  intros pre post n E Hle.
  replace (zlen (pre ++ TAG_NUMBER :: le_bytes 8 bits)) with (zlen pre + 1 + 8) in *
    by (rewrite zlen_app, zlen_cons, zlen_le_bytes; lia).
  eapply turn; [exact E|done|lia|]. rewrite E. cbn [app]. at_tag.
  assert (dv_get 8 (pre ++ TAG_NUMBER :: le_bytes 8 bits ++ post) (zlen pre + 1) = Ok (bits mod 2 ^ 64)) as ->
    by (rewrite (next_pos pre TAG_NUMBER), (cons_middle TAG_NUMBER pre), app_assoc; apply get_u64).
  done.
Qed.

(** Tokens that carry no more than their tag. *)
Lemma runs_simple t st st' :
  (∀ p, dv_get 1 b p = Ok t → token b strs p st = Ok (p + 1, st')) → 0 ≤ t < 256 → runs_to [t] 1 st st'.
Proof.
  intros Hk Ht. apply runs_tag; [done|]. intros pre rest E. apply Hk. rewrite E. by apply tag_at.
Qed.

Ltac simple_tag :=
  apply runs_simple; [|vm_compute; by split];
  let p := fresh "p" in let Hp := fresh "Hp" in intros p Hp; unfold token; rewrite Hp, bind_ret;
  cbv zeta;
  decide_tags.

Lemma runs_elements (l : list json) :
  Forall (λ j, texts j ⊆ K → ∀ st, runs_to (stream K j) (token_count j) st (attach (assemble dec j) st)) l →
  foldr (λ j ts, texts j ++ ts) [] l ⊆ K → ∀ acc o k frames root,
  runs_to (foldr (λ j bs, stream K j ++ bs) [TAG_ARRAY_END] l)
    (foldr (λ j n, token_count j + n)%nat 1%nat l)
    (Frame false acc o k :: frames, root)
    (attach (VArr (acc ++ (assemble dec <$> l))) (frames, root)).
Proof.
  induction 1 as [|j l Hj _ IH]; intros Hs acc o k frames root; cbn [foldr].
  - simple_tag. cbn [fmap list_fmap]. by rewrite app_nil_r.
  - cbn [foldr] in Hs. eapply runs_seq; [apply Hj; set_solver|].
    cbn [attach isObj arr obj key]. specialize (IH ltac:(set_solver) (acc ++ [assemble dec j]) o k frames root).
    rewrite <-app_assoc in IH. exact IH.
Qed.

Lemma runs_members (ms : list (list Z * json)) :
  Forall (λ m, texts m.2 ⊆ K →
    ∀ st, runs_to (stream K m.2) (token_count m.2) st (attach (assemble dec m.2) st)) ms →
  foldr (λ m ts, m.1 :: texts m.2 ++ ts) [] ms ⊆ K → ∀ acc o k frames root,
  runs_to (foldr (λ m bs, (ref_at K TAG_KEY m.1 ++ stream K m.2) ++ bs) [TAG_OBJECT_END] ms)
    (foldr (λ m n, S (token_count m.2) + n)%nat 1%nat ms)
    (Frame true acc o k :: frames, root)
    (attach (let o := foldl (λ o m, put (dec m.1) (assemble dec m.2) o) o ms in VObj o.1 o.2)
       (frames, root)).
Proof.
  induction 1 as [|m ms Hm _ IH]; intros Hs acc o k frames root; cbn [foldr foldl].
  - by simple_tag.
  - cbn [foldr] in Hs. eapply (runs_seq _ _ (S (token_count m.2))).
    + eapply (runs_seq _ _ 1); [apply runs_key; set_solver|apply Hm; set_solver].
    + cbn [attach isObj arr obj key default]. apply IH. set_solver.
Qed.

Lemma runs_value (j : json) : texts j ⊆ K →
  ∀ st, runs_to (stream K j) (token_count j) st (attach (assemble dec j) st).
Proof.
  induction j as [|v|bits|s|l IH|ms IH] using json_ind'; intros Hs st;
    cbn [stream token_count assemble].
  - by simple_tag.
  - destruct v; by simple_tag.
  - apply runs_number.
  - apply runs_string. set_solver.
  - apply (runs_seq [TAG_ARRAY_START] _ 1 _ _ (push_frame false st)); [by simple_tag|].
    unfold push_frame. pose proof (runs_elements l IH Hs [] new_object (Some []) st.1 st.2) as R.
    by destruct st.
  - apply (runs_seq [TAG_OBJECT_START] _ 1 _ _ (push_frame true st)); [by simple_tag|].
    unfold push_frame. pose proof (runs_members ms IH Hs [] new_object (Some []) st.1 st.2) as R.
    by destruct st.
Qed.

End decoder.

(** ** The whole path *)

Lemma foldr_ge {A} (f : A → list Z) (c : A → nat) (l : list A) t n :
  Forall (λ a, c a ≤ length (f a))%nat l → (n ≤ length t)%nat →
  (foldr (λ a n, c a + n) n l ≤ length (foldr (λ a t, f a ++ t) t l))%nat.
Proof.
  intros Hl Hn. induction Hl as [|a l Ha _ IH]; [done|]. cbn [foldr]. rewrite length_app. lia.
Qed.

Lemma token_count_le K (j : json) : (token_count j ≤ length (stream K j))%nat.
Proof.
  induction j as [|v|bits|s|l IH|ms IH] using json_ind'; cbn [stream token_count]; try done.
  - cbn [length]. lia.
  - unfold ref_at. cbn [length]. lia.
  - cbn [length]. apply le_n_S, foldr_ge; [done|]. cbn. lia.
  - cbn [length]. apply le_n_S.
    apply (foldr_ge (λ m, ref_at K TAG_KEY m.1 ++ stream K m.2) (λ m, S (token_count m.2))); [|cbn; lia].
    eapply Forall_impl; [exact IH|]. intros m Hm. cbn beta in Hm |- *. rewrite length_app. unfold ref_at. cbn [length]. lia.
Qed.

Lemma item_bounds K : zlen K ≤ zlen (K ≫= item) ∧ Forall (λ s, zlen s ≤ zlen (K ≫= item)) K.
Proof.
  induction K as [|s K [IH1 IH2]]; [by split|].
  change ((s :: K) ≫= item) with (item s ++ (K ≫= item)).
  assert (zlen (item s) = 4 + zlen s) as Hi by (unfold item; by rewrite zlen_app, zlen_le_bytes).
  rewrite zlen_app, zlen_cons, Hi. pose proof (zlen_nonneg s). pose proof (zlen_nonneg (K ≫= item)).
  split; [lia|]. constructor; [lia|]. eapply Forall_impl; [exact IH2|]. cbn beta. lia.
Qed.

Lemma emitted (j : json) :
  ∃ K, texts j ⊆ K ∧
    json_parse_packed j =
      le_bytes 4 (to_u32 (zlen K)) ++ (K ≫= item) ++
      le_bytes 4 (to_u32 (zlen (stream K j))) ++ stream K j.
Proof.
  destruct (emit_spec j [] new_emitter) as (K & T & [Hs Ht _] & W); [split; [done|done|constructor]|].
  exists K. split; [exact T|]. specialize (W []). rewrite app_nil_r in W. cbn [app new_emitter tree] in W, Hs, Ht.
  unfold json_parse_packed. rewrite Hs, Ht, W. unfold zlen at 1. by rewrite length_imap.
Qed.

Section whole.
Context `{Codec} (isBun : bool).
Notation dec := (fastDecodeUtf8 isBun).

Lemma packed_decodes (j : json) :
  zlen (json_parse_packed j) < U32 →
  decodeJsonPacked isBun (json_parse_packed j) = Ok (assemble dec j).
Proof.
  destruct (emitted j) as (K & T & ->). set (hd := le_bytes 4 (to_u32 (zlen K))).
  set (tl := le_bytes 4 (to_u32 (zlen (stream K j)))). intros Hb.
  rewrite !zlen_app in Hb. assert (zlen hd = 4) as Hh by apply zlen_le_bytes.
  assert (zlen tl = 4) as Ht by apply zlen_le_bytes.
  destruct (item_bounds K) as [B1 B2].
  pose proof (zlen_nonneg (K ≫= item)). pose proof (zlen_nonneg (stream K j)). pose proof (zlen_nonneg K).
  unfold decodeJsonPacked.
  assert (dv_get 4 (hd ++ (K ≫= item) ++ tl ++ stream K j) 0 = Ok (Z.of_nat (length K))) as ->.
  { rewrite <-(to_u32_small (Z.of_nat (length K))) by (unfold zlen in *; lia). exact (get_u32 [] (zlen K) _). }
  rewrite bind_ret, Nat2Z.id.
  assert (read_strings isBun (length K) (hd ++ (K ≫= item) ++ tl ++ stream K j) 4 =
    Ok (dec <$> K, zlen hd + zlen (K ≫= item))) as ->.
  { rewrite <-Hh. apply read_strings_spec. eapply Forall_impl; [exact B2|]. cbn beta. lia. }
  rewrite bind_ret. set (b := hd ++ (K ≫= item) ++ tl ++ stream K j).
  replace (zlen hd + zlen (K ≫= item)) with (zlen (hd ++ (K ≫= item))) by (by rewrite zlen_app).
  assert (dv_get 4 b (zlen (hd ++ (K ≫= item))) = Ok (zlen (stream K j))) as ->.
  { unfold b. rewrite app_assoc. unfold tl. rewrite get_u32. f_equal. apply to_u32_small. lia. }
  rewrite bind_ret. replace (zlen (hd ++ (K ≫= item)) + 4) with (zlen (hd ++ (K ≫= item) ++ tl))
    by (rewrite !zlen_app; lia).
  set (pre := hd ++ (K ≫= item) ++ tl).
  assert (b = pre ++ stream K j ++ []) as Eb by (unfold b, pre; by rewrite app_nil_r, <-!app_assoc).
  pose proof (token_count_le K j) as Hc.
  assert (length (stream K j) ≤ length b)%nat as Hl by (rewrite Eb, !length_app; lia).
  replace (S (length b)) with (token_count j + S (length b - token_count j))%nat by lia.
  rewrite (runs_value isBun K b (zlen pre + zlen (stream K j)) ltac:(lia) j T ([], VUndefined) pre [] _ Eb)
    by (by rewrite zlen_app).
  cbn [tokens]. rewrite zlen_app, decide_False by lia. rewrite decide_False; [done|]. cbn. intros [?|?]; [lia|done].
Qed.

(** Texts the decoder of the platform reads back: well-formed, and without a byte-order
    mark in front where the decoder is Node's. *)
Definition readable_text (s : list Z) : Prop :=
  Forall is_unit s ∧ toWellFormed s = s ∧ (isBun = false → head (scalars s) ≠ Some 0xFEFF).

Lemma fastDecode_encode s : readable_text s → dec (encodeUtf8 s) = s.
Proof.
  intros (Hu & Hw & Hb). unfold fastDecodeUtf8. pose proof (utf8_toString_encode s Hu) as Hd.
  case_decide as Hz; [rewrite (zlen_0 _ Hz) in Hd; by rewrite <-Hw, <-Hd|].
  destruct isBun; [by rewrite Hd|]. apply decode_encode. split; [done|]. split; [done|]. by apply Hb.
Qed.

Lemma assemble_map (j : json) :
  Forall readable_text (texts j) → assemble dec (map_strings encodeUtf8 j) = assemble id j.
Proof.
  induction j as [|v|bits|s|l IH|ms IH] using json_ind'; intros Ht; cbn [map_strings assemble]; try done.
  - f_equal. apply fastDecode_encode. by apply Forall_cons in Ht as [? _].
  - f_equal. cbn [texts] in Ht. induction IH as [|j l Hj _ IH]; [done|].
    cbn [foldr] in Ht. apply Forall_app in Ht as [H1 H2]. rewrite !fmap_cons. f_equal; auto.
  - cbn [texts] in Ht. cbv zeta.
    assert (E : ∀ o, foldl (λ o m, put (dec m.1) (assemble dec m.2) o) o
                       ((λ m, (encodeUtf8 m.1, map_strings encodeUtf8 m.2)) <$> ms) =
                     foldl (λ o m, put (id m.1) (assemble id m.2) o) o ms); [|by rewrite E].
    induction IH as [|m ms Hm _ IH]; intros o; [done|]. cbn [foldr] in Ht.
    apply Forall_cons in Ht as [H1 H2]. apply Forall_app in H2 as [H2 H3]. cbn [fmap list_fmap foldl fst snd].
    rewrite fastDecode_encode, Hm by done. by apply IH.
Qed.

End whole.

(** Without a member called [__proto__] the decoder assembles what [JSON.parse] does. *)
Lemma put_plain (ms : list (list Z * json)) (f : json → jval) : ∀ o,
  Forall (λ m, m.1 ≠ PROTO) ms →
  foldl (λ o m, put m.1 (f m.2) o) o ms = (foldl (λ o m, mset m.1 (f m.2) o) o.1 ms, o.2).
Proof.
  induction ms as [|m ms IH]; intros o Hms; cbn [foldl]; [by destruct o|].
  inversion Hms; subst. rewrite IH by done. unfold put. by rewrite decide_False.
Qed.

Lemma parse_is_packed (j : json) : PROTO ∉ member_names j → assemble id j = parse_value j.
Proof.
  induction j as [|v|bits|s|l IH|ms IH] using json_ind'; intros Hn; cbn [assemble parse_value]; try done.
  - f_equal. cbn [member_names] in Hn. induction IH as [|j l Hj _ IH]; [done|].
    cbn [foldr] in Hn. apply not_elem_of_app in Hn as [H1 H2]. rewrite !fmap_cons. f_equal; auto.
  - cbn [member_names] in Hn.
    assert (Forall (λ m, m.1 ≠ PROTO) ms ∧ Forall (λ m, assemble id m.2 = parse_value m.2) ms)
      as [Hms Heq].
    { induction IH as [|m ms Hm _ IH]; [done|]. cbn [foldr] in Hn. apply not_elem_of_cons in Hn as [H1 H2].
      apply not_elem_of_app in H2 as [H2 H3]. destruct (IH H3). split; constructor; auto. }
    change (λ o m, put (id m.1) (assemble id m.2) o) with (λ o (m : list Z * json), put m.1 (assemble id m.2) o).
    rewrite put_plain by done. cbn [new_object fst snd]. f_equal.
    clear IH Hn Hms. generalize (@nil (list Z * jval)).
    induction Heq as [|m ms Hm _ IH]; intros o; cbn [foldl]; [done|]. by rewrite Hm, IH.
Qed.

Section roundtrip.
Context `{Codec} (isBun : bool).

(** C40. Decoding what the native emitter writes for a document, whose strings the parser
    reports in UTF-8, gives the document's value, with every string, number and nesting in
    its place, for any sharing of strings; and unless a member is called [__proto__] that
    is the value [JSON.parse] builds.  The document's strings are well-formed, the packed
    form is below 4 GiB (its counts are u32), and where the strings are decoded by Node's
    [TextDecoder] none begins with a byte-order mark, which it drops
    ([node_drops_bom]). *)
Theorem packed_json_roundtrip (j : json) :
  Forall (readable_text isBun) (texts j) →
  let packed := json_parse_packed (map_strings encodeUtf8 j) in
  zlen packed < U32 →
  decodeJsonPacked isBun packed = Ok (assemble id j) ∧
  (PROTO ∉ member_names j → assemble id j = parse_value j).
Proof.
  intros Ht packed Hb. split; [|apply parse_is_packed]. subst packed.
  rewrite packed_decodes by done. by rewrite assemble_map.
Qed.

End roundtrip.

(** A member called [__proto__] becomes the prototype of the result instead of a
    property: [{"__proto__":{"admin":true}}] has no own property, and reads
    [admin] through its prototype. *)
Definition proto_document : json := DObject [(js "__proto__", DObject [(js "admin", DBool true)])].

Lemma proto_member_installs :
  @decodeJsonPacked bun_codec true (json_parse_packed proto_document) =
    Ok (VObj [] (VObj [(js "admin", VBool true)] VUndefined)) ∧
  parse_value proto_document =
    VObj [(js "__proto__", VObj [(js "admin", VBool true)] VUndefined)] VUndefined.
Proof. split; vm_compute; reflexivity. Qed.

(** Under Node a string that begins with a byte-order mark loses it; [JSON.parse] keeps
    it. *)
Lemma node_drops_bom :
  let j := DString [0xFEFF; 97] in
  @decodeJsonPacked node_codec false (json_parse_packed (map_strings encodeUtf8 j)) = Ok (VStr [97]) ∧
  parse_value j = VStr [0xFEFF; 97].
Proof. split; vm_compute; reflexivity. Qed.

(** Two rows that share their names and a string. *)
Definition sample_document : json :=
  DArray [DObject [(js "k", DString [0xE9; 0xD83D; 0xDE00]); (js "n", DNumber 4611686018427387904)];
          DObject [(js "k", DString (js "k")); (js "k", DNull)]; DBool true; DArray []].

Lemma packed_json_roundtrip_witness :
  @decodeJsonPacked bun_codec true (json_parse_packed (map_strings encodeUtf8 sample_document)) =
    Ok (VArr [VObj [(js "k", VStr [0xE9; 0xD83D; 0xDE00]); (js "n", VNum 4611686018427387904)] VUndefined;
              VObj [(js "k", VNull)] VUndefined; VBool true; VArr []]).
Proof.
  destruct (@packed_json_roundtrip bun_codec true sample_document) as [E P].
  - repeat (apply Forall_cons_2; [split; [apply (bool_decide_unpack _); vm_compute; exact I|
      split; [vm_compute; reflexivity|discriminate]]|]). apply Forall_nil_2.
  - vm_compute. reflexivity.
  - etransitivity; [exact E|]. rewrite P; [vm_compute; reflexivity|].
    apply (bool_decide_unpack _). vm_compute. exact I.
Defined.

(** ** Fuel *)

Lemma dv_get_inside n b off v : dv_get n b off = Ok v → 0 ≤ off ∧ off + Z.of_nat n ≤ zlen b.
Proof. unfold dv_get. by case_decide. Qed.

(** A turn moves forward and stays inside the buffer, so a turn of fuel for each byte
    and one for the check is enough: more never changes the answer. *)
Lemma token_advances b strs p st p' st' : token b strs p st = Ok (p', st') → p < p' ≤ zlen b.
Proof.
  unfold token. destruct (dv_get 1 b p) as [t|] eqn:Et; [|done]. rewrite bind_ret. cbv zeta.
  apply dv_get_inside in Et as [P0 P1].
  repeat case_decide; try (intros [= <- _]; lia); try done.
  - destruct (dv_get 8 b (p + 1)) as [v|] eqn:E; [|done]. apply dv_get_inside in E as [_ E].
    intros [= <- _]. lia.
  - destruct (dv_get 4 b (p + 1)) as [v|] eqn:E; [|done]. apply dv_get_inside in E as [_ E].
    intros [= <- _]. lia.
  - destruct (pop_attach false st); [|done]. intros [= <- _]. lia.
  - destruct (pop_attach true st); [|done]. intros [= <- _]. lia.
  - destruct (dv_get 4 b (p + 1)) as [v|] eqn:E; [|done]. apply dv_get_inside in E as [_ E].
    rewrite bind_ret. destruct (set_key _ st); [|done]. intros [= <- _]. lia.
Qed.

Lemma tokens_fuel b strs end_ : ∀ n m p st,
  zlen b - p < Z.of_nat n → zlen b - p < Z.of_nat m →
  tokens (S n) b strs end_ p st = tokens (S m) b strs end_ p st.
Proof.
  induction n as [|n IH]; intros m p st Hn Hm;
    change (tokens (S m) b strs end_ p st) with
      (if decide (p < end_) then '(p, st) ← token b strs p st; tokens m b strs end_ p st
       else if decide (p ≠ end_ ∨ st.1 ≠ []) then Throw malformed_stream else Ok st.2);
    cbn [tokens]; case_decide as D; try done;
    destruct (token b strs p st) as [[p' st']|e] eqn:E; try done; apply token_advances in E as [Hp Hb].
  - lia.
  - rewrite !bind_ret. destruct m as [|m]; [lia|]. apply IH; lia.
Qed.
