(* ===== verification/Handler.v ===== *)
(** One request through the pre-baked handler (src/ingress/handlers.ts,
    [createIngressHandler] and its [run]).

    [run] packs the request, borrows a pooled output buffer, calls the native
    core over one of its transports, decodes the verdict, lets the route's
    callback build the response, reports to the hooks and gives the buffer back,
    unless a zero-copy response took it over (src/ingress/response/baked-response.ts,
    [zeroCopyResponse]).  It is translated statement by statement into a monad of
    state and exceptions with [try]/[catch]/[finally].

    The native core is a parameter, stateful and free to fail, with the contents
    of the output buffer it leaves behind; so are the hooks.  A callback is a
    [script]: it sees the result and the request's context, may ask for zero-copy
    responses and see them fail, and ends with a value or a throw.  [run] is not
    re-entrant in the code (one live request per handler), nor here.  Buffer
    contents live in [mem], keyed by buffer identity, so that a body that is a
    view of a pooled buffer reads what the buffer holds at that time. *)

From S2P Require Import Prelude.
From S2P Require Import JsMap.
From S2P Require Import Utf8.
From S2P Require Import JsObject.
From S2P Require Import Wire.
From S2P Require Import Adaptive.
From S2P Require Import Pool.
From S2P Require Import Response.
From S2P Require Import Layout.
From S2P Require Import Decode.
From S2P Require Import Packing.
From S2P Require Import RequestId.
Import Packer Select.

Record Request := Req {
  method : list Z; url : list Z; headers : string → option (list Z) }.

Record BakedContext := BCtx { requestIdHeader : option (list Z); origin : option (list Z) }.

(** What a callback returns: a [Response] (its status, and a body that is absent,
    its own bytes or the stream of index [i]), a thenable, or anything else. *)
Inductive response_body := NoBody | OwnBytes (bs : list Z) | StreamBody (i : nat).
Record response := Resp { resp_status : Z; resp_body : response_body }.
Inductive cb_out := OutResponse (r : response) | OutThenable | OutOther.

Inductive script :=
  | Done (out : cb_out)
  | Fails (e : js_error)
  | ZeroCopy (status : Z) (k : result response → script).

(** A zero-copy body: its stream and the window of the buffer it serves. *)
Record Stream := Strm { st_body : pooled_body; st_start : Z; st_end : Z }.

(** [METHOD_KIND[req.method] ?? METHOD_KIND_UNKNOWN]: the lookup also finds the
    members of [Object.prototype], which as a number ([value & 0xff]) are 0. *)
Definition method_kind (m : list Z) : Z :=
  match mget m ((λ e : string * Z, (js e.1, e.2)) <$> METHOD_KIND) with
  | Some k => k
  | None => if decide (m ∈ object_proto_names) then 0 else METHOD_KIND_UNKNOWN
  end.

Definition MAX_FFI_FAILURES : Z := 3.
Definition PREWARM_POOL_BUFFERS : Z := 16.
Definition PREWARM_POOL_BYTES : Z := 4 * 1024 * 1024.
Definition RATE_LIMIT_U32_MAX : Z := 4294967295.
Definition DEFAULT_BAKED_OUTPUT_BUFFER_SIZE : Z := 131072.
Definition EMPTY_IP : list Z := js "0.0.0.0".

Section handler.
Context {EST : Estimator}.
Context {N H : Type}.

(** A native entry writes into the output buffer: the byte count or a throw, the
    buffer afterwards, and the native state afterwards. *)
Definition native_fn := N → list Z → result Z * list Z * N.

Record BunFFI := FFI {
  (** [ingressHandleComponents], absent on a stale addon *)
  handleComponents : option (Z → list Z → list Z → list Z → list Z → option (list Z) → native_fn);
  ingressHandlePacked : list Z → option (list Z) → native_fn }.

Record Natives := {
  bunFFI : option BunFFI;
  ingressPtr : Z;
  handleRequestPacked : list Z → option (list Z) → native_fn }.

(** The runtime's hooks and logger; each may throw. *)
Record Runtime := {
  onRequest : option (Request → list Z → option (list Z) → H → result unit * H);
  onResponse : option (Request → IngressResultBase → Z → list Z → H → result unit * H);
  onError : option (Request → list Z → js_error → H → result unit * H);
  log_error : option (Request → list Z → js_error → H → result unit * H);
  log_request : option (Request → list Z → Z → list Z → H → result unit * H);
  emitRequestIdHeader : bool;
  zeroCopyTimeoutMs : Z;
  outputBufferSize : Z;
  maxInFlight_opt : Z }.

Record Options := {
  o_trust : trust_options;
  o_parseQuery : option bool; o_emitMetadataJson : option bool;
  o_limit : option Z;                     (* options.rateLimit?.limit *)
  o_allowOrigin : option (list (list Z)) }.

Definition rateEnabled (o : Options) : bool :=
  match o_limit o with
  | Some l => bool_decide (l ≠ RATE_LIMIT_U32_MAX) && bool_decide (0 < l)
  | None => false
  end.
Definition urlNeeded (o : Options) : bool :=
  is_true (o_parseQuery o) || is_true (o_emitMetadataJson o) || bool_decide (o_https (o_trust o) = None).
Definition ipNeeded (o : Options) : bool :=
  rateEnabled o || (is_true (o_trustProxy (o_trust o)) || is_true (o_trustedProxies_enabled (o_trust o))).

Context (natives : Natives) (runtime : Runtime) (options : Options).

Definition headerPlan : HeaderPlan := buildHeaderPlan (o_trust options).

Definition needRequestIdString : bool :=
  emitRequestIdHeader runtime || bool_decide (is_Some (onRequest runtime)) ||
  bool_decide (is_Some (onError runtime)) || bool_decide (is_Some (onResponse runtime)) ||
  bool_decide (is_Some (log_error runtime)) || bool_decide (is_Some (log_request runtime)).

Record HandlerState := HS {
  native : N;
  hookState : H;
  inputPacker : IngressInputPacker;
  originBlocks : list (list Z * list Z);
  ridCounter : counter_state;
  outputPool : BufferPool;
  mem : gmap nat (list Z);
  res : IngressResultBase;
  ctx : BakedContext;
  handle : option nat;
  currentHandle : option nat;
  responseBorrowsBuffer : bool;
  ffiFailures : Z;
  ffiDisabled : bool;
  bodies : list Stream;
}.

Definition set_native (x : N) (s : HandlerState) : HandlerState :=
  HS x (hookState s) (inputPacker s) (originBlocks s) (ridCounter s) (outputPool s) (mem s) (res s) (ctx s) (handle s) (currentHandle s) (responseBorrowsBuffer s) (ffiFailures s) (ffiDisabled s) (bodies s).
Definition set_hookState (x : H) (s : HandlerState) : HandlerState :=
  HS (native s) x (inputPacker s) (originBlocks s) (ridCounter s) (outputPool s) (mem s) (res s) (ctx s) (handle s) (currentHandle s) (responseBorrowsBuffer s) (ffiFailures s) (ffiDisabled s) (bodies s).
Definition set_inputPacker (x : IngressInputPacker) (s : HandlerState) : HandlerState :=
  HS (native s) (hookState s) x (originBlocks s) (ridCounter s) (outputPool s) (mem s) (res s) (ctx s) (handle s) (currentHandle s) (responseBorrowsBuffer s) (ffiFailures s) (ffiDisabled s) (bodies s).
Definition set_originBlocks (x : list (list Z * list Z)) (s : HandlerState) : HandlerState :=
  HS (native s) (hookState s) (inputPacker s) x (ridCounter s) (outputPool s) (mem s) (res s) (ctx s) (handle s) (currentHandle s) (responseBorrowsBuffer s) (ffiFailures s) (ffiDisabled s) (bodies s).
Definition set_ridCounter (x : counter_state) (s : HandlerState) : HandlerState :=
  HS (native s) (hookState s) (inputPacker s) (originBlocks s) x (outputPool s) (mem s) (res s) (ctx s) (handle s) (currentHandle s) (responseBorrowsBuffer s) (ffiFailures s) (ffiDisabled s) (bodies s).
Definition set_outputPool (x : BufferPool) (s : HandlerState) : HandlerState :=
  HS (native s) (hookState s) (inputPacker s) (originBlocks s) (ridCounter s) x (mem s) (res s) (ctx s) (handle s) (currentHandle s) (responseBorrowsBuffer s) (ffiFailures s) (ffiDisabled s) (bodies s).
Definition set_mem (x : gmap nat (list Z)) (s : HandlerState) : HandlerState :=
  HS (native s) (hookState s) (inputPacker s) (originBlocks s) (ridCounter s) (outputPool s) x (res s) (ctx s) (handle s) (currentHandle s) (responseBorrowsBuffer s) (ffiFailures s) (ffiDisabled s) (bodies s).
Definition set_res (x : IngressResultBase) (s : HandlerState) : HandlerState :=
  HS (native s) (hookState s) (inputPacker s) (originBlocks s) (ridCounter s) (outputPool s) (mem s) x (ctx s) (handle s) (currentHandle s) (responseBorrowsBuffer s) (ffiFailures s) (ffiDisabled s) (bodies s).
Definition set_ctx (x : BakedContext) (s : HandlerState) : HandlerState :=
  HS (native s) (hookState s) (inputPacker s) (originBlocks s) (ridCounter s) (outputPool s) (mem s) (res s) x (handle s) (currentHandle s) (responseBorrowsBuffer s) (ffiFailures s) (ffiDisabled s) (bodies s).
Definition set_handle (x : option nat) (s : HandlerState) : HandlerState :=
  HS (native s) (hookState s) (inputPacker s) (originBlocks s) (ridCounter s) (outputPool s) (mem s) (res s) (ctx s) x (currentHandle s) (responseBorrowsBuffer s) (ffiFailures s) (ffiDisabled s) (bodies s).
Definition set_currentHandle (x : option nat) (s : HandlerState) : HandlerState :=
  HS (native s) (hookState s) (inputPacker s) (originBlocks s) (ridCounter s) (outputPool s) (mem s) (res s) (ctx s) (handle s) x (responseBorrowsBuffer s) (ffiFailures s) (ffiDisabled s) (bodies s).
Definition set_responseBorrowsBuffer (x : bool) (s : HandlerState) : HandlerState :=
  HS (native s) (hookState s) (inputPacker s) (originBlocks s) (ridCounter s) (outputPool s) (mem s) (res s) (ctx s) (handle s) (currentHandle s) x (ffiFailures s) (ffiDisabled s) (bodies s).
Definition set_ffiFailures (x : Z) (s : HandlerState) : HandlerState :=
  HS (native s) (hookState s) (inputPacker s) (originBlocks s) (ridCounter s) (outputPool s) (mem s) (res s) (ctx s) (handle s) (currentHandle s) (responseBorrowsBuffer s) x (ffiDisabled s) (bodies s).
Definition set_ffiDisabled (x : bool) (s : HandlerState) : HandlerState :=
  HS (native s) (hookState s) (inputPacker s) (originBlocks s) (ridCounter s) (outputPool s) (mem s) (res s) (ctx s) (handle s) (currentHandle s) (responseBorrowsBuffer s) (ffiFailures s) x (bodies s).
Definition set_bodies (x : list Stream) (s : HandlerState) : HandlerState :=
  HS (native s) (hookState s) (inputPacker s) (originBlocks s) (ridCounter s) (outputPool s) (mem s) (res s) (ctx s) (handle s) (currentHandle s) (responseBorrowsBuffer s) (ffiFailures s) (ffiDisabled s) x.

(** ** State and exceptions *)

Definition HM (A : Type) : Type := HandlerState → result A * HandlerState.
#[export] Instance HM_ret : MRet HM := λ A a s, (Ok a, s).
#[export] Instance HM_bind : MBind HM :=
  λ A B f m s, match m s with (Ok a, s') => f a s' | (Throw e, s') => (Throw e, s') end.
Definition lift {A} (r : result A) : HM A := λ s, (r, s).
Definition throw {A} (e : js_error) : HM A := λ s, (Throw e, s).
Definition gets {A} (f : HandlerState → A) : HM A := λ s, (Ok (f s), s).
Definition modify (f : HandlerState → HandlerState) : HM unit := λ s, (Ok tt, f s).
Definition try_catch {A} (m : HM A) (handler : js_error → HM A) : HM A :=
  λ s, match m s with (Ok a, s') => (Ok a, s') | (Throw e, s') => handler e s' end.
(** [finally] here never throws. *)
Definition try_finally {A} (m : HM A) (f : HandlerState → HandlerState) : HM A :=
  λ s, let '(r, s') := m s in (r, f s').

(** A hook that may be absent. *)
Definition call_hook (f : option (H → result unit * H)) : HM unit :=
  λ s, match f with
       | Some g => let '(r, h) := g (hookState s) in (r, set_hookState h s)
       | None => (Ok tt, s)
       end.

(** ** The pool and the buffers *)

Definition content (s : HandlerState) (b : Uint8Array_) : list Z :=
  default (new_u8 (buf_size b)) (mem s !! buf_id b).

Definition pool_acquire (n : Z) : HM nat := λ s,
  match acquire (outputPool s) n with
  | Ok (h, p) => (Ok h, set_outputPool p s)
  | Throw e => (Throw e, s)
  end.
Definition pool_release (h : nat) (s : HandlerState) : HandlerState :=
  set_outputPool (release (outputPool s) h) s.

Definition buffer_of (h : nat) : HM Uint8Array_ := λ s,
  match handles (outputPool s) !! h with
  | Some x => (Ok (buffer x), s)
  | None => (Throw (TypeError "undefined"), s)
  end.

Definition call_native (f : native_fn) (b : Uint8Array_) : HM Z := λ s,
  let '(r, out, n) := f (native s) (content s b) in
  (r, set_native n (set_mem (<[buf_id b := out]> (mem s)) s)).

(** ** Packing and the native call *)

Definition gather (scratch : list Z) (rq : Request) (methodKind : Z) : HM (list Z) := λ s,
  match gatherRawHeadersPacked scratch (originBlocks s) (headers rq) headerPlan methodKind
          (Some (origin (ctx s))) with
  | Ok (block, cache) => (Ok block, set_originBlocks cache s)
  | Throw e => (Throw e, s)
  end.

Definition pack_request (methodKind : Z) (u : list Z) (ip : option (list Z)) (rid hdrs : list Z)
    : HM (list Z) := λ s,
  match packParts (inputPacker s) methodKind u ip rid hdrs with
  | Ok (input, p) => (Ok input, set_inputPacker p s)
  | Throw e => (Throw e, s)
  end.

Definition noteFfiFailure : HM unit := modify (λ s,
  let n := ffiFailures s + 1 in
  let s := set_ffiFailures n s in
  if decide (MAX_FFI_FAILURES ≤ n) then set_ffiDisabled true s else s).

Definition ffi_succeeded (w : Z) : HM Z := modify (set_ffiFailures 0) ;; mret w.

(** The transport choice: C-ABI components, C-ABI frame, N-API frame. *)
Definition native_call (methodKind : Z) (packUrl : list Z) (packIp : option (list Z))
    (rid hdrs : list Z) (body : option (list Z)) (b : Uint8Array_) : HM Z :=
  disabled ← gets ffiDisabled;
  let pack := pack_request methodKind packUrl packIp rid hdrs in
  let napi input := call_native (handleRequestPacked natives input body) b in
  match bunFFI natives with
  | Some f =>
      if bool_decide (ingressPtr natives ≠ 0) && negb disabled then
        match handleComponents f with
        | Some components =>
            try_catch
              (call_native (components methodKind packUrl (default [] packIp) rid hdrs body) b
                 ≫= ffi_succeeded)
              (λ _, noteFfiFailure ;; input ← pack; napi input)
        | None =>
            input ← pack;
            try_catch (call_native (ingressHandlePacked f input body) b ≫= ffi_succeeded)
              (λ _, noteFfiFailure ;; napi input)
        end
      else input ← pack; napi input
  | None => input ← pack; napi input
  end.

(** ** The callback *)

Definition stream_window (r : IngressResultBase) : Z * Z :=
  (_bodyJsonStart r, _bodyJsonStart r + _bodyJsonLen r).

Definition zeroCopyResponse (st : Z) : HM response :=
  cur ← gets currentHandle;
  match cur with
  | None => throw (JsError "Error" "zeroCopyResponse() can only be called from within a run() callback")
  | Some h =>
      modify (set_responseBorrowsBuffer true) ;;
      r ← gets res;
      b ← buffer_of h;
      match pooledBodyResponse h b (zlen (bodyJson r false)) (zeroCopyTimeoutMs runtime) with
      | (None, rs) => modify (λ s, foldl (λ s h, pool_release h s) s rs) ;; mret (Resp st NoBody)
      | (Some pb, _) =>
          i ← gets (λ s, length (bodies s));
          let '(a, e) := stream_window r in
          modify (λ s, set_bodies (bodies s ++ [Strm pb a e]) s) ;;
          mret (Resp st (StreamBody i))
      end
  end.

Fixpoint exec (sc : script) : HM cb_out :=
  match sc with
  | Done out => mret out
  | Fails e => throw e
  | ZeroCopy st k => λ s, let '(r, s') := zeroCopyResponse st s in exec (k r) s'
  end.

Definition assertSyncCallback (out : cb_out) : HM unit :=
  match out with
  | OutThenable => throw (JsError "Error" "createIngressHandler().run() callback must be synchronous.")
  | _ => mret tt
  end.

Definition out_status (out : cb_out) (r : IngressResultBase) : Z :=
  match out with
  | OutResponse resp => resp_status resp
  | _ => safeTerminalStatus (status r) (errorCode r) (isPreflight r) (corsAllowed r)
  end.

(** ** [run] *)

(** The [onError] hook and the error line of both catch blocks. *)
Definition report_error (rq : Request) (rid : list Z) (e : js_error) : HM unit :=
  call_hook ((λ f, f rq rid e) <$> onError runtime) ;;
  call_hook ((λ f, f rq rid e) <$> log_error runtime).

(** Borrow a buffer, call the native core, decode its verdict. *)
Definition run_native (methodKind : Z) (packUrl : list Z) (packIp : option (list Z))
    (rid hdrs : list Z) (body : option (list Z)) : HM unit :=
  h ← pool_acquire (outputBufferSize runtime);
  modify (set_handle (Some h)) ;;
  modify (set_currentHandle (Some h)) ;;
  b ← buffer_of h;
  written ← native_call methodKind packUrl packIp rid hdrs body b;
  buf ← gets (λ s, content s b);
  r ← lift (baked_refresh buf (default [] body) written);
  modify (set_res r).

Definition run_callback (rq : Request) (ip : option (list Z)) (rid : list Z)
    (fn : IngressResultBase → BakedContext → script) : HM cb_out :=
  r ← gets res;
  c ← gets ctx;
  out ← exec (fn r c);
  assertSyncCallback out ;;
  let st := out_status out r in
  call_hook ((λ f, f rq r st rid) <$> onResponse runtime) ;;
  call_hook ((λ f, f rq rid st (default EMPTY_IP ip)) <$> log_request runtime) ;;
  mret out.

Definition end_callback (s : HandlerState) : HandlerState :=
  set_ctx (BCtx None None) (set_res baked_invalidate s).

(** The catch of an escaping error: take back a buffer that a zero-copy response
    borrowed but did not deliver, report, rethrow. *)
Definition escaped (rq : Request) (rid : list Z) (e : js_error) : HM cb_out :=
  modify (λ s,
    match handle s with
    | Some h => if responseBorrowsBuffer s
                then set_responseBorrowsBuffer false (set_handle None (pool_release h s)) else s
    | None => s
    end) ;;
  report_error rq rid e ;;
  throw e.

Definition release_unless_borrowed (s : HandlerState) : HandlerState :=
  set_currentHandle None
    (match handle s with
     | Some h => if responseBorrowsBuffer s then s else pool_release h s
     | None => s
     end).

Definition next_request_id : HM (list Z) := λ s,
  let '(rid, c) := generateRequestId (ridCounter s) in (Ok rid, set_ridCounter c s).

(** Before the outer [try]: request id, context, [onRequest], per-request state.
    The answer is the id's bytes and the id as the hooks see it (16 ASCII digits,
    empty when nobody looks). *)
Definition start (rq : Request) (ip : option (list Z)) : HM (list Z * list Z) :=
  ridBytes ← next_request_id;
  let rid := if needRequestIdString then ridBytes else [] in
  modify (set_ctx (BCtx (if emitRequestIdHeader runtime then Some rid else None)
                        (if cors headerPlan then headers rq "origin" else None))) ;;
  call_hook ((λ f, f rq rid ip) <$> onRequest runtime) ;;
  modify (λ s, set_responseBorrowsBuffer false (set_currentHandle None (set_handle None s))) ;;
  mret (ridBytes, rid).

(** Pack, then the inner [try]: a native failure becomes an internal error. *)
Definition prepare (scratch : list Z) (rq : Request) (ip body : option (list Z))
    (ridBytes rid : list Z) : HM unit :=
  let methodKind := method_kind (method rq) in
  packedHeaders ← gather scratch rq methodKind;
  let packUrl := if urlNeeded options then url rq else [] in
  let packIp := if ipNeeded options then ip else None in
  try_catch (run_native methodKind packUrl packIp ridBytes packedHeaders body)
    (λ e, modify (set_res baked_setInternalError) ;; report_error rq rid e).

Definition run (scratch : list Z) (rq : Request) (ip body : option (list Z))
    (fn : IngressResultBase → BakedContext → script) : HM cb_out :=
  ids ← start rq ip;
  try_finally
    (try_catch
       (prepare scratch rq ip body ids.1 ids.2 ;;
        try_finally (run_callback rq ip ids.2 fn) end_callback)
       (escaped rq ids.2))
    release_unless_borrowed.

(** ** Between requests *)

(** An event on a zero-copy body: its releases go to the pool. *)
Definition stream_event (i : nat) (e : body_event) (s : HandlerState) : HandlerState :=
  match bodies s !! i with
  | None => s
  | Some st =>
      let '(pb, rs) := body_step (st_body st) e in
      foldl (λ s h, pool_release h s) (set_bodies (<[i := Strm pb (st_start st) (st_end st)]> (bodies s)) s) rs
  end.

(** The bytes a reader of stream [i] is served: the window of the buffer as it
    is now. *)
Definition window (st : Stream) (s : HandlerState) : list Z :=
  subarray (content s (body_bytes (st_body st))) (st_start st) (st_end st).

Inductive h_op :=
  | Run (scratch : list Z) (rq : Request) (ip body : option (list Z))
      (fn : IngressResultBase → BakedContext → script)
  | StreamOp (i : nat) (e : body_event).

Definition h_step (s : HandlerState) (o : h_op) : HandlerState :=
  match o with
  | Run sc rq ip body fn => (run sc rq ip body fn s).2
  | StreamOp i e => stream_event i e s
  end.

(** ** Construction *)

(** The configured origins worth warming: concrete, and of sane length. *)
Definition exactOrigins : list (list Z) :=
  filter (λ o, 0 < zlen o ∧ zlen o ≤ 512 ∧ 42 ∉ o) (default [] (o_allowOrigin options)).

Definition createIngressHandler (scratch : list Z) (n : N) (h : H) (c : counter_state)
    (cache : list (list Z * list Z)) : result HandlerState :=
  cache ← if cors headerPlan && bool_decide (is_Some (o_allowOrigin options))
          then prewarmOriginBlocks scratch cache exactOrigins else Ok cache;
  Ok (HS n h (newIngressInputPacker 65536) cache c
        (newBufferPool (outputBufferSize runtime) 16 (maxInFlight_opt runtime)
           PREWARM_POOL_BUFFERS (Some PREWARM_POOL_BYTES) None)
        ∅ resetShared (BCtx None None) None None false 0 false []).

End handler.
