(* ===== verification/HandlerLogic.v ===== *)
(** A small program logic for the pre-baked handler (the model is Handler.v).

    [preserves R m] says that the computation [m] keeps the preorder [R] between its
    start and its end, whatever it answers; [wp m Q s] relates what [m] answers from
    [s], and the state it leaves, by [Q].  Both come with a rule per constructor of
    the monad.  The last section composes them over [run]: a preorder that the pool,
    the native call and the hooks keep is kept by every request and event. *)

From S2P Require Import Prelude.
From S2P Require Import JsMap.
From S2P Require Import Utf8.
From S2P Require Import JsObject.
From S2P Require Import Wire.
From S2P Require Import Adaptive.
From S2P Require Import Pool.
From S2P Require Import Response.
From S2P Require Import Layout.
From S2P Require Import Decode.
From S2P Require Import Packing.
From S2P Require Import RequestId.
From S2P Require Import Handler.
Import Packer Select.

Create HintDb preserves.

Section logic.
Context {EST : Estimator} {N H : Type}.
Implicit Types s : @HandlerState EST N H.

(** [preserves R m]: whatever [m] answers, it leaves the state [R]-related to the
    one it started from. *)
Definition preserves (R : relation (@HandlerState EST N H)) {A} (m : HM A) : Prop := ∀ s, R s (m s).2.

Section preserves.
Context (R : relation (@HandlerState EST N H)) `{!PreOrder R}.

Lemma preserves_ret {A} (a : A) : preserves R (mret a).
Proof. intros s. reflexivity. Qed.
Lemma preserves_throw {A} e : preserves R (@throw EST N H A e).
Proof. intros s. reflexivity. Qed.
Lemma preserves_gets {A} (f : _ → A) : preserves R (gets f).
Proof. intros s. reflexivity. Qed.
Lemma preserves_lift {A} (r : result A) : preserves R (lift r).
Proof. intros s. reflexivity. Qed.
Lemma preserves_modify f : (∀ s, R s (f s)) → preserves R (modify f).
Proof. intros Hf s. apply Hf. Qed.
Lemma preserves_buffer_of h : preserves R (buffer_of h).
Proof. intros s. unfold buffer_of. by case_match. Qed.

Lemma preserves_bind {A B} (m : HM A) (f : A → HM B) :
  preserves R m → (∀ a, preserves R (f a)) → preserves R (m ≫= f).
Proof.
  intros Hm Hf s. specialize (Hm s). unfold mbind, HM_bind.
  destruct (m s) as [[a|e] s']; [|done]. etransitivity; [done|apply Hf].
Qed.

Lemma preserves_try_catch {A} (m : HM A) h :
  preserves R m → (∀ e, preserves R (h e)) → preserves R (try_catch m h).
Proof.
  intros Hm Hh s. specialize (Hm s). unfold try_catch.
  destruct (m s) as [[a|e] s']; [done|]. etransitivity; [done|apply Hh].
Qed.

Lemma preserves_try_finally {A} (m : HM A) f :
  preserves R m → (∀ s, R s (f s)) → preserves R (try_finally m f).
Proof.
  intros Hm Hf s. specialize (Hm s). unfold try_finally.
  destruct (m s) as [r s']. etransitivity; [done|apply Hf].
Qed.

End preserves.

(** [wp m Q s]: what [m] answers from [s], and where it leaves the state,
    satisfies [Q]. *)
Definition wp {A} (m : HM A) (Q : result A → @HandlerState EST N H → Prop) (s : HandlerState) : Prop :=
  Q (m s).1 (m s).2.

Lemma wp_mono {A} (m : HM A) (Q R : result A → HandlerState → Prop) s :
  wp m Q s → (∀ r s', Q r s' → R r s') → wp m R s.
Proof. unfold wp. auto. Qed.

Lemma wp_bind {A B} (m : HM A) (f : A → HM B) Q s :
  wp m (λ r s', match r with Ok a => wp (f a) Q s' | Throw e => Q (Throw e) s' end) s →
  wp (m ≫= f) Q s.
Proof. unfold wp, mbind, HM_bind. by destruct (m s) as [[] ?]. Qed.

Lemma wp_try_catch {A} (m : HM A) (h : js_error → HM A) Q s :
  wp m (λ r s', match r with Ok a => Q (Ok a) s' | Throw e => wp (h e) Q s' end) s →
  wp (try_catch m h) Q s.
Proof. unfold wp, try_catch. by destruct (m s) as [[] ?]. Qed.

Lemma wp_try_finally {A} (m : HM A) f Q s :
  wp m (λ r s', Q r (f s')) s → wp (try_finally m f) Q s.
Proof. unfold wp, try_finally. by destruct (m s). Qed.

Definition same {B} (f : @HandlerState EST N H → B) s s' : Prop := f s' = f s.
#[export] Instance same_preorder {B} (f : _ → B) : PreOrder (same f).
Proof. split; [done|]. intros s1 s2 s3 E1 E2. unfold same in *. congruence. Qed.

Lemma wp_preserves R {A} (m : HM A) (Q : result A → HandlerState → Prop) s :
  preserves R m → (∀ r s', R s s' → Q r s') → wp m Q s.
Proof. unfold wp, preserves. auto. Qed.

(** The part of the state that the pool, the native core, the breaker and the
    hooks keep; the rest belongs to the request in progress. *)
Definition shared s := (outputPool s, native s, ffiFailures s, ffiDisabled s, hookState s).

End logic.

Ltac preserving :=
  repeat first
    [ solve [eauto with preserves]
    | apply (preserves_bind _); [|intros ?]
    | apply (preserves_try_catch _); [|intros ?]
    | apply (preserves_try_finally _); [|intros ?]
    | apply (preserves_ret _) | apply (preserves_throw _) | apply (preserves_gets _)
    | apply (preserves_lift _) | apply (preserves_buffer_of _)
    | apply preserves_modify; intros ?; by constructor ].

(** * Over a whole request *)

Section pieces.
Context {EST : Estimator} {N H : Type}.
Context (natives : @Natives N) (runtime : @Runtime H) (options : Options).
Implicit Types s : @HandlerState EST N H.

Context (R : relation (@HandlerState EST N H)) `{!PreOrder R}.
Hypothesis R_shared : ∀ s s', shared s' = shared s → R s s'.
Hypothesis R_acquire : ∀ n, preserves R (pool_acquire n).
Hypothesis R_release : ∀ h s, R s (pool_release h s).
Hypothesis R_native : ∀ k u ip rid hs bd b, preserves R (native_call natives k u ip rid hs bd b).
Hypothesis R_hook : ∀ f, preserves R (call_hook f).

Lemma preserves_quick f : (∀ s, shared (f s) = shared s) → preserves R (modify f).
Proof. intros Hf. apply preserves_modify. intros s. apply R_shared, Hf. Qed.

Lemma R_releases rs s : R s (foldl (λ s h, pool_release h s) s rs).
Proof.
  revert s. induction rs as [|h rs IH]; intros s; [done|]. simpl.
  etransitivity; [apply R_release|apply IH].
Qed.

Lemma R_gather sc rq k : preserves R (gather options sc rq k).
Proof.
  intros s. unfold gather.
  destruct (gatherRawHeadersPacked _ _ _ _ _ _) as [[]|]; apply R_shared; done.
Qed.

Lemma R_next_id : preserves R next_request_id.
Proof. intros s. unfold next_request_id. destruct (generateRequestId _). by apply R_shared. Qed.

Hint Resolve R_acquire R_native R_hook R_gather R_next_id : preserves.
Hint Extern 1 (preserves R (modify _)) => (apply preserves_quick; intros ?; reflexivity) : preserves.

Lemma R_zero_copy st : preserves R (zeroCopyResponse runtime st).
Proof.
  unfold zeroCopyResponse. preserving. case_match; preserving.
  destruct (pooledBodyResponse _ _ _ _) as [[pb|] rs]; [case_match|]; preserving.
  apply preserves_modify. intros s. apply R_releases.
Qed.

Lemma R_assert out : preserves R (assertSyncCallback out).
Proof. unfold assertSyncCallback. case_match; preserving. Qed.

Lemma R_exec sc : preserves R (exec runtime sc).
Proof.
  induction sc as [out|e|st k IH]; [apply (preserves_ret _)|apply (preserves_throw _)|].
  intros s. cbn [exec]. pose proof (R_zero_copy st s) as Hz.
  destruct (zeroCopyResponse runtime st s) as [r s']. etransitivity; [done|apply IH].
Qed.

Hint Resolve R_assert R_exec : preserves.

Lemma run_preserves sc rq ip bd fn : preserves R (run natives runtime options sc rq ip bd fn).
Proof.
  unfold run, start, prepare, run_native, run_callback, escaped, report_error. preserving.
  - apply preserves_modify. intros s. destruct (handle s); [|done]. case_match; [|done].
    etransitivity; [apply R_release|by apply R_shared].
  - unfold release_unless_borrowed. case_match; [case_match|]; try (by apply R_shared).
    etransitivity; [apply R_release|by apply R_shared].
Qed.

Lemma stream_event_preserves i e s : R s (stream_event i e s).
Proof.
  unfold stream_event. destruct (bodies s !! i) as [st|]; [|done]. destruct (body_step _ _) as [pb rs].
  etransitivity; [|apply R_releases]. by apply R_shared.
Qed.

Lemma h_step_preserves s o : R s (h_step natives runtime options s o).
Proof. destruct o; [apply run_preserves|apply stream_event_preserves]. Qed.

Lemma h_run_preserves s ops : R s (foldl (h_step natives runtime options) s ops).
Proof.
  revert s. induction ops as [|o ops IH]; intros s; [done|]. simpl.
  etransitivity; [apply h_step_preserves|apply IH].
Qed.
End pieces.

