(* ===== verification/HandlerSpec.v ===== *)
(** Correctness of the pre-baked handler (the model is Handler.v): the books of
    its buffer pool, zero-copy bodies, and the C-ABI circuit breaker.

    Statements about [run] hold for every native core, hook, callback and request.  A
    small program logic does the stepping: [preserves R] says that a computation keeps
    the preorder [R] between its start and its end whatever it answers, and [wp]
    relates answers and final states.  The invariant [Rest] describes the states
    between two requests, [phase] and [lent] the states inside one.  A stream that was
    built by a request which then threw is an orphan: [run] has taken its buffer back,
    and the invariant holds until something happens to that stream.  [given] and
    [spares] say which buffers a request writes, for what a reader of a body finds. *)

From S2P Require Import Prelude.
From S2P Require Import JsMap.
From S2P Require Import Utf8.
From S2P Require Import JsObject.
From S2P Require Import Wire.
From S2P Require Import Adaptive.
From S2P Require Import Pool.
From S2P Require Import Response.
From S2P Require Import Layout.
From S2P Require Import Decode.
From S2P Require Import Packing.
From S2P Require Import RequestId.
From S2P Require Import Handler.
From S2P Require Import HandlerLogic.

Import Packer Select.

(** * Pool accounting *)

(** ** Leases *)

Section ledger.
Context {EST : Estimator}.

(** The outstanding borrows of a pool, each with the buffer it holds. *)
Record Ledger (p : BufferPool) (L : list (nat * Uint8Array_)) : Prop := {
  led_pool : pool_inv p;
  led_live : ∀ h b, (h, b) ∈ L → handles p !! h = Some (Handle b false);
  led_distinct : NoDup L.*1;
  led_count : inFlight p = zlen L;
}.

#[export] Instance Ledger_perm p : Proper ((≡ₚ) ==> iff) (Ledger p).
Proof.
  assert (Himp : ∀ L L', L ≡ₚ L' → Ledger p L → Ledger p L').
  { intros L L' HL [Hp Hl Hd Hc]. constructor; [done| | |by rewrite <-HL].
    - intros h b. rewrite <-HL. apply Hl.
    - by rewrite <-HL. }
  intros L L' HL. split; apply Himp; [done|by symmetry].
Qed.

Lemma ledger_acquire p L n h p' :
  Ledger p L → acquire p n = Ok (h, p') →
  ∃ b, handles p' !! h = Some (Handle b false) ∧ Ledger p' ((h, b) :: L) ∧
       ∀ k c, (k, c) ∈ L → buf_id c ≠ buf_id b.
Proof.
  intros [Hp Hl Hd Hc] Ha. pose proof (acquire_inv _ _ _ _ Hp Ha) as Hp'.
  destruct (acquire_spec_raw _ _ _ _ Hp Ha)
    as (b & q & _ & _ & _ & _ & Hin & _ & _ & _ & _ & Hh & Hk & _ & Hdead & Hlive & _).
  assert (Hold : ∀ k c, (k, c) ∈ L → k ≠ h ∧ handles p' !! k = Some (Handle c false)).
  { intros k c Hkc. apply Hl in Hkc as Hlk. assert (k ≠ h) by naive_solver. split; [done|].
    rewrite Hk; [done|done|by eapply lookup_lt_Some]. }
  exists b. split; [done|]. split.
  - constructor; [done| | |rewrite Hin, Hc; zlia].
    + intros k c [[= -> ->]|Hkc]%elem_of_cons; [done|]. by apply Hold in Hkc as [_ ?].
    + simpl. constructor; [|done]. intros ([k c] & -> & Hkc)%list_elem_of_fmap. by apply Hold in Hkc as [? _].
  - intros k c Hkc E. apply Hl in Hkc. apply live_elem in Hkc.
    pose proof (inv_distinct _ Hp') as Hnd. rewrite Hlive, fmap_app in Hnd.
    apply NoDup_app in Hnd as (_ & _ & Hnd). apply NoDup_cons in Hnd as [Hnd _].
    apply Hnd. rewrite <-E. by apply list_elem_of_fmap_2.
Qed.

Lemma ledger_release p L h b : Ledger p ((h, b) :: L) → Ledger (release p h) L.
Proof.
  intros [Hp Hl Hd Hc]. simpl in Hd. apply NoDup_cons in Hd as [Hn Hd].
  assert (Hh : handles p !! h = Some (Handle b false)) by (apply Hl; set_solver).
  destruct (release_handles p h b Hh) as [Hhs Hin].
  constructor; [by apply release_inv| |done|rewrite Hin, Hc; zlia].
  intros k c Hkc. rewrite Hhs, list_lookup_insert_ne; [by apply Hl, list_elem_of_further|].
  intros <-. apply Hn. by eapply (list_elem_of_fmap_2 fst) in Hkc.
Qed.

Lemma ledger_distinct_bufs p L h b k c :
  Ledger p L → (h, b) ∈ L → (k, c) ∈ L → buf_id b = buf_id c → h = k.
Proof.
  intros [Hp Hl _ _] Hh Hk E. apply Hl in Hh, Hk. destruct (decide (h = k)) as [|Hne]; [done|].
  exfalso. pose proof (inv_distinct _ Hp) as Hnd. rewrite fmap_app in Hnd.
  apply NoDup_app in Hnd as (_ & _ & Hnd).
  pose proof (live_insert_live _ _ _ Hh) as Hperm. fold (live_buffers p) in Hperm.
  rewrite Hperm in Hnd. simpl in Hnd. apply NoDup_cons in Hnd as [Hnd _]. apply Hnd.
  rewrite E. apply list_elem_of_fmap_2. apply list_elem_of_omap.
  exists (Handle c false). split; [|done].
  eapply (list_elem_of_lookup_2 _ k). by rewrite list_lookup_insert_ne.
Qed.
End ledger.

(** ** Steps that leave the accounting alone *)

Section accounting.
Context {EST : Estimator} {N H : Type}.
Context (natives : @Natives N) (runtime : @Runtime H) (options : Options).

Implicit Types s t : @HandlerState EST N H.

(** [quiet W]: the pool, the bodies and who holds the request's buffer are
    untouched, and only buffers in [W] are written. *)
Record quiet (W : nat → Prop) (s s' : @HandlerState EST N H) : Prop := {
  q_pool : outputPool s' = outputPool s;
  q_bodies : bodies s' = bodies s;
  q_handle : handle s' = handle s;
  q_current : currentHandle s' = currentHandle s;
  q_borrows : responseBorrowsBuffer s' = responseBorrowsBuffer s;
  q_mem : ∀ i, ¬ W i → mem s' !! i = mem s !! i }.

#[export] Instance quiet_refl W : Reflexive (quiet W).
Proof. by constructor. Qed.
#[export] Instance quiet_trans W : Transitive (quiet W).
Proof.
  intros s1 s2 s3 [? ? ? ? ? M1] [? ? ? ? ? M2]. constructor; try congruence.
  intros i Hi. by rewrite M2, M1.
Qed.

Notation quietly W := (preserves (quiet W)).
Definition nowhere : nat → Prop := λ _, False.

Lemma wp_quiet W {A} (m : HM A) (Q : result A → HandlerState → Prop) s :
  quietly W m → (∀ r s', quiet W s s' → Q r s') → wp m Q s.
Proof. apply wp_preserves. Qed.

#[export] Instance quiet_preorder W : PreOrder (quiet W).
Proof. split; apply _. Qed.

Lemma quietly_hook W f : quietly W (call_hook f).
Proof.
  intros s. unfold call_hook. destruct f as [g|]; [|done]. by destruct (g (hookState s)).
Qed.

Lemma quietly_gather W sc rq k : quietly W (gather options sc rq k).
Proof. intros s. unfold gather. by destruct (gatherRawHeadersPacked _ _ _ _ _ _) as [[]|]. Qed.

Lemma quietly_pack W k u ip rid hs : quietly W (pack_request k u ip rid hs).
Proof. intros s. unfold pack_request. by destruct (packParts _ _ _ _ _ _) as [[]|]. Qed.

Lemma quietly_call_native W f b : W (buf_id b) → quietly W (call_native f b).
Proof.
  intros HW s. unfold call_native. destruct (f _ _) as [[r out] n]. constructor; try done.
  intros i Hi. simpl. rewrite lookup_insert_ne; [done|]. by intros <-.
Qed.

Lemma quietly_note W : quietly W noteFfiFailure.
Proof. apply preserves_modify. intros s. cbv zeta. case_decide; by constructor. Qed.

Hint Resolve quietly_hook quietly_gather quietly_pack quietly_call_native quietly_note : preserves.

Ltac quiet := preserving.

Lemma quietly_native_call W k u ip rid hs bd b :
  W (buf_id b) → quietly W (native_call natives k u ip rid hs bd b).
Proof.
  intros HW. unfold native_call, ffi_succeeded. quiet.
  destruct (bunFFI natives) as [f|]; [|quiet]. case_match; [|quiet].
  destruct (handleComponents f); quiet.
Qed.

Lemma quietly_report W rq rid e : quietly W (report_error runtime rq rid e).
Proof. unfold report_error. quiet. Qed.
(** ** Who holds the request's buffer *)

(** The borrow of a zero-copy body that has not ended. *)
Definition lease_of (st : Stream) : option (nat * Uint8Array_) :=
  if closure_released (st_body st) then None
  else Some (body_handle (st_body st), body_bytes (st_body st)).

(** The borrows of a list of bodies, numbered from [k], less those of the orphans [O]:
    the streams of responses that were never delivered because their request ended
    with a throw.  [run] takes such a stream's buffer back, the stream does not know. *)
Fixpoint leases_from (O : list nat) (k : nat) (l : list Stream) : list (nat * Uint8Array_) :=
  match l with
  | [] => []
  | st :: l => (if decide (k ∈ O) then [] else option_list (lease_of st)) ++ leases_from O (S k) l
  end.
Definition leases_of (O : list nat) s : list (nat * Uint8Array_) := leases_from O 0 (bodies s).

Lemma leases_app O k l1 l2 :
  leases_from O k (l1 ++ l2) = leases_from O k l1 ++ leases_from O (k + length l1) l2.
Proof.
  revert k. induction l1 as [|st l1 IH]; intros k; simpl; [by rewrite Nat.add_0_r|].
  rewrite IH, <-app_assoc, Nat.add_succ_r. done.
Qed.

Lemma leases_ext O O' k l :
  (∀ i, k ≤ i < k + length l → i ∈ O ↔ i ∈ O')%nat → leases_from O k l = leases_from O' k l.
Proof.
  revert k. induction l as [|st l IH]; intros k HO; [done|]. simpl in *. f_equal.
  - specialize (HO k ltac:(lia)). by destruct (decide (k ∈ O)), (decide (k ∈ O')); tauto.
  - apply IH. intros i Hi. apply HO. lia.
Qed.

Lemma leases_orphans O k l : (∀ i, k ≤ i < k + length l → i ∈ O)%nat → leases_from O k l = [].
Proof.
  revert k. induction l as [|st l IH]; intros k HO; [done|]. simpl in *.
  rewrite decide_True by (apply HO; lia). apply IH. intros i Hi. apply HO. lia.
Qed.

Lemma leases_elem O k l i st x :
  l !! i = Some st → (k + i)%nat ∉ O → lease_of st = Some x → x ∈ leases_from O k l.
Proof.
  revert k i. induction l as [|st' l IH]; intros k i Hi HO Hx; [done|]. simpl. apply elem_of_app.
  destruct i as [|i]; simpl in Hi.
  - injection Hi as ->. rewrite Nat.add_0_r in HO. rewrite decide_False, Hx by done. left. by apply list_elem_of_singleton.
  - right. apply (IH (S k) i); [done| |done]. by rewrite Nat.add_succ_comm.
Qed.

(** Between requests: every outstanding borrow belongs to exactly one body. *)
Record Rest O s : Prop := {
  rest_bodies : Forall (λ st, body_inv (st_body st)) (bodies s);
  rest_orphans : Forall (λ i, i < length (bodies s))%nat O;
  rest_ledger : Ledger (outputPool s) (leases_of O s) }.

Section request.
Context (O : list nat).

(** The buffers of the bodies of [s0] still hold what they held. *)
Definition intact s0 s : Prop :=
  ∀ k b, (k, b) ∈ leases_of O s0 → mem s !! buf_id b = mem s0 !! buf_id b.

(** The phases of a request that started in [s0]: no buffer yet, the buffer held
    by [run]. *)
Inductive phase s0 s : Prop :=
  | Idle :
      handle s = None → currentHandle s = None → responseBorrowsBuffer s = false →
      outputPool s = outputPool s0 → bodies s = bodies s0 → intact s0 s → phase s0 s
  | Held h b :
      handle s = Some h → currentHandle s = Some h → responseBorrowsBuffer s = false →
      bodies s = bodies s0 → Ledger (outputPool s) ((h, b) :: leases_of O s0) →
      intact s0 s → phase s0 s.

(** The buffer is handed over: to a new body, or given back at once because the
    body is empty. *)
Inductive handed s0 s (h : nat) : Prop :=
  | HandedOver b st :
      bodies s = bodies s0 ++ [st] → body_inv (st_body st) → lease_of st = Some (h, b) →
      Ledger (outputPool s) ((h, b) :: leases_of O s0) → handed s0 s h
  | GivenBack b :
      bodies s = bodies s0 → handles (outputPool s) !! h = Some (Handle b true) →
      Ledger (outputPool s) (leases_of O s0) → handed s0 s h.
Record lent s0 s : Prop := {
  lent_flag : responseBorrowsBuffer s = true;
  lent_handed : ∃ h, handle s = Some h ∧ handed s0 s h;
  lent_intact : intact s0 s }.

Lemma intact_quiet W s0 s s' :
  (∀ k b, (k, b) ∈ leases_of O s0 → ¬ W (buf_id b)) → quiet W s s' → intact s0 s → intact s0 s'.
Proof. intros HW Q Hi k b Hk. rewrite (q_mem _ _ _ Q) by eauto. eauto. Qed.

Lemma phase_quiet W s0 s s' :
  (∀ k b, (k, b) ∈ leases_of O s0 → ¬ W (buf_id b)) → quiet W s s' → phase s0 s → phase s0 s'.
Proof.
  intros HW Q [H1 H2 H3 H4 H5 H6|h b H1 H2 H3 H4 H5 H6]; pose proof (intact_quiet _ _ _ _ HW Q H6);
    destruct Q; [apply Idle; congruence || done|apply (Held _ _ h b); try congruence; done].
Qed.

Lemma phase_nowhere s0 s s' : quiet nowhere s s' → phase s0 s → phase s0 s'.
Proof. apply phase_quiet. unfold nowhere. tauto. Qed.

Lemma lent_nowhere s0 s s' : quiet nowhere s s' → lent s0 s → lent s0 s'.
Proof.
  intros Q [H1 (h & Hh & Hd) H3].
  assert (H3' : intact s0 s') by (by eapply (intact_quiet nowhere); [unfold nowhere; tauto|..]).
  destruct Q as [Qp Qb Qh Qc Qf _]. constructor; [congruence| |done]. exists h. split; [congruence|].
  destruct Hd as [b st|b]; [eapply HandedOver|eapply GivenBack]; rewrite ?Qb, ?Qp; done.
Qed.

(** What the callback will see as the body is what the buffer holds. *)
Definition backed s : Prop :=
  ∀ h b, handle s = Some h → handles (outputPool s) !! h = Some (Handle b false) →
    zlen (bodyJson (res s) false) ≠ 0 →
    subarray (content s b) (stream_window (res s)).1 (stream_window (res s)).2 = bodyJson (res s) false.

Lemma baked_refresh_buf buf bd w r :
  baked_refresh buf bd w = Ok r → bodyJson r false = [] ∨ _buf r = buf.
Proof.
  unfold baked_refresh. case_decide; [intros [= <-]; by left|]. intros E. right.
  repeat (apply bind_Ok in E as (? & _ & E); cbv beta zeta in E).
  repeat (case_match; cbv beta zeta in E).
  all: repeat (apply bind_Ok in E as (? & _ & E); cbv beta zeta in E); repeat case_match; by simplify_eq.
Qed.

Lemma bodyJson_window r :
  zlen (bodyJson r false) ≠ 0 →
  bodyJson r false = subarray (_buf r) (stream_window r).1 (stream_window r).2.
Proof. unfold bodyJson, bodyJsonSlice. repeat case_decide; done. Qed.

Lemma refresh_backed s b buf bd w :
  buf = content s b → ∀ r, baked_refresh buf bd w = Ok r →
  (∀ h b', handle s = Some h → handles (outputPool s) !! h = Some (Handle b' false) → b' = b) →
  backed (set_res r s).
Proof.
  intros -> r Hr Hb h b' Hh Hl Hz. cbn [handle outputPool set_res res] in *.
  rewrite (Hb h b' Hh Hl), bodyJson_window by done.
  apply baked_refresh_buf in Hr as [Hr| ->]; [by rewrite Hr in Hz|done].
Qed.

(** Borrowing a buffer and calling the native core. *)
Lemma run_native_phase s0 s k u ip rid hs bd :
  Rest O s0 → phase s0 s → handle s = None →
  wp (run_native natives runtime k u ip rid hs bd) (λ r s', phase s0 s' ∧ (is_ok r = true → backed s')) s.
Proof.
  intros [_ _ Hled] Hph Hh. destruct Hph as [_ Hc Hb Hp Hbs Hi|h b E]; [|congruence].
  unfold run_native. apply wp_bind. unfold wp, pool_acquire.
  destruct (acquire (outputPool s) (outputBufferSize runtime)) as [[h p]|e] eqn:Ha; cbn [fst snd];
    [|by split; [apply Idle|]].
  rewrite Hp in Ha. destruct (ledger_acquire _ _ _ _ _ Hled Ha) as (b & Hlb & Hled' & Hfresh).
  set (s2 := set_currentHandle (Some h) (set_handle (Some h) (set_outputPool p s))).
  assert (Hph2 : phase s0 s2) by (apply (Held _ _ h b); done).
  set (Q := λ (r : result unit) s', phase s0 s' ∧ (is_ok r = true → backed s')).
  change (wp (b ← buffer_of h; written ← native_call natives k u ip rid hs bd b;
              buf ← gets (λ s, content s b); r ← lift (baked_refresh buf (default [] bd) written);
              modify (set_res r)) Q s2).
  apply wp_bind. unfold wp at 1, buffer_of. cbn [outputPool s2 set_currentHandle set_handle set_outputPool].
  rewrite Hlb. cbn [fst snd buffer]. fold s2.
  apply wp_bind, (wp_quiet (λ i, i = buf_id b)); [by apply quietly_native_call|].
  intros r s3 Q3.
  assert (Hph3 : phase s0 s3).
  { eapply phase_quiet; [|exact Q3|exact Hph2]. intros k' c Hk' E. by apply (Hfresh k' c). }
  destruct r as [w|e]; [|by split].
  apply wp_bind. unfold wp at 1; cbn [gets fst snd]. apply wp_bind. unfold wp at 1; cbn [lift fst snd].
  destruct (baked_refresh (content s3 b) (default [] bd) w) as [r|e] eqn:Er; [|by split].
  unfold wp, Q; cbn [modify fst snd]. split.
  - eapply phase_nowhere; [|exact Hph3]. by constructor.
  - intros _. eapply refresh_backed; [done|exact Er|]. intros h' b'.
    rewrite (q_handle _ _ _ Q3), (q_pool _ _ _ Q3). cbn. intros [= <-]. rewrite Hlb. congruence.
Qed.

(** ** Callbacks *)

(** A callback that takes at most one zero-copy response; it may end in any way. *)
Inductive script_ok : bool → script → Prop :=
  | ok_done took out : script_ok took (Done out)
  | ok_fails took e : script_ok took (Fails e)
  | ok_zero st k :
      (∀ r, script_ok true (k (Ok r))) → (∀ e, script_ok false (k (Throw e))) →
      script_ok false (ZeroCopy st k).

Lemma zero_copy_phase s0 s st :
  Rest O s0 → phase s0 s →
  wp (zeroCopyResponse runtime st)
     (λ r s', match r with Ok _ => lent s0 s' | Throw _ => phase s0 s' end) s.
Proof.
  intros [Hbi _ _] Hph. unfold zeroCopyResponse. apply wp_bind. unfold wp at 1; cbn [gets fst snd].
  destruct Hph as [Hh Hc Hb Hp Hbs Hi|h b Hh Hc Hb Hbs Hl Hi].
  { rewrite Hc. by apply Idle. }
  rewrite Hc. apply wp_bind. unfold wp at 1; cbn [modify fst snd].
  apply wp_bind. unfold wp at 1; cbn [gets fst snd].
  apply wp_bind. unfold wp at 1, buffer_of. cbn [outputPool set_responseBorrowsBuffer].
  assert (Hlv : handles (outputPool s) !! h = Some (Handle b false)) by (apply (led_live _ _ Hl); set_solver).
  rewrite Hlv. cbn [fst snd buffer]. unfold pooledBodyResponse. case_decide as Hz.
  - unfold wp; simpl. constructor; simpl; [done| |exact Hi]. exists h. split; [done|]. apply (GivenBack _ _ _ b); simpl.
    + done.
    + destruct (release_handles _ _ _ Hlv) as [-> _]. apply list_lookup_insert_eq. by eapply lookup_lt_Some.
    + by eapply ledger_release.
  - unfold wp; simpl. constructor; simpl; [done| |exact Hi]. exists h. split; [done|].
    eapply (HandedOver _ _ _ b); simpl; [by rewrite Hbs| |done|done]. by repeat constructor.
Qed.

Lemma exec_phase s0 s sc :
  Rest O s0 → script_ok false sc → phase s0 s → wp (exec runtime sc) (λ _ s', phase s0 s' ∨ lent s0 s') s.
Proof.
  intros HR Hsc. revert s. remember false as took eqn:Et.
  induction Hsc as [took out|took e|st k Hok _ Hthr IH]; intros s Hph; subst; [by left..|].
  unfold wp. cbn [exec]. pose proof (zero_copy_phase s0 s st HR Hph) as Hz. unfold wp in Hz.
  destruct (zeroCopyResponse runtime st s) as [[resp|e] s'] eqn:E; cbn [fst snd] in *.
  - specialize (Hok resp). right. inversion Hok; subst; exact Hz.
  - by apply IH.
Qed.

Lemma run_callback_phase s0 s rq ip rid fn :
  Rest O s0 → (∀ r c, script_ok false (fn r c)) → phase s0 s →
  wp (run_callback runtime rq ip rid fn) (λ _ s', phase s0 s' ∨ lent s0 s') s.
Proof.
  intros HR Hfn Hph. unfold run_callback.
  apply wp_bind. unfold wp at 1; cbn [gets fst snd]. apply wp_bind. unfold wp at 1; cbn [gets fst snd].
  apply wp_bind. eapply wp_mono; [by apply (exec_phase s0)|].
  intros [out|e] s' Hs'; [|done]. apply (wp_quiet nowhere).
  - unfold assertSyncCallback. destruct out; quiet.
  - intros r s2 Q. destruct Hs' as [Hp|Hl]; [left; by eapply phase_nowhere|right; by eapply lent_nowhere].
Qed.

(** ** The whole request *)

(** What a request leaves: its buffer is back, or one body more has it; the body of a
    request that threw is an orphan. *)
Record settled {A} (r : result A) s0 s : Prop := {
  settled_prefix : bodies s0 `prefix_of` bodies s;
  settled_intact : intact s0 s;
  settled_current : currentHandle s = None;
  settled_rest : Rest (match r with
                   | Ok _ => O
                   | Throw _ => O ++ seq (length (bodies s0)) (length (bodies s) - length (bodies s0))
                   end) s }.

Lemma rest_same {A} (r : result A) s0 s :
  Rest O s0 → bodies s = bodies s0 → Ledger (outputPool s) (leases_of O s0) →
  Rest (match r with
        | Ok _ => O
        | Throw _ => O ++ seq (length (bodies s0)) (length (bodies s) - length (bodies s0))
        end) s.
Proof.
  intros [Hbi Ho _] Hbs Hl. rewrite Hbs, Nat.sub_diag. cbn [seq]. rewrite app_nil_r.
  assert (E : (match r with Ok _ => O | Throw _ => O end) = O) by (by destruct r). rewrite E.
  constructor; [by rewrite Hbs..|]. unfold leases_of. by rewrite Hbs.
Qed.

Lemma settled_idle {A} (r : result A) s0 s :
  Rest O s0 → phase s0 s → settled r s0 (release_unless_borrowed s).
Proof.
  intros HR Hph. pose proof HR as [_ _ Hled]. unfold release_unless_borrowed.
  destruct Hph as [Hh Hc Hb Hp Hbs Hi|h b Hh Hc Hb Hbs Hl Hi]; rewrite Hh; [|rewrite Hb];
    (constructor; [simpl; by rewrite Hbs|done|done|apply rest_same; [done|done|]]); simpl.
  - by rewrite Hp.
  - by apply (ledger_release _ _ h b).
Qed.

Lemma rest_kept s0 s st x :
  Rest O s0 → bodies s = bodies s0 ++ [st] → body_inv (st_body st) → lease_of st = Some x →
  Ledger (outputPool s) (x :: leases_of O s0) → Rest O s.
Proof.
  intros [Hbi Ho _] Hbs Hst Hx Hl. constructor.
  - rewrite Hbs. apply Forall_app. split; [done|]. by constructor.
  - eapply Forall_impl; [exact Ho|]. cbn beta. intros i Hi. rewrite Hbs, length_app. simpl. lia.
  - unfold leases_of. rewrite Hbs, leases_app. simpl. rewrite decide_False.
    + rewrite Hx. simpl. by rewrite (Permutation_app_comm _ [_]).
    + rewrite Forall_forall in Ho. intros Hin%Ho. lia.
Qed.

Lemma settled_lent {A} (a : A) s0 s : Rest O s0 → lent s0 s → settled (Ok a) s0 (release_unless_borrowed s).
Proof.
  intros HR [Hb (h & Hh & Hd) Hi]. unfold release_unless_borrowed. rewrite Hh, Hb.
  destruct Hd as [b st Hbs Hst Hx Hl|b Hbs _ Hl].
  - constructor; [simpl; rewrite Hbs; by apply prefix_app_r|done|done|]. cbn beta iota.
    exact (rest_kept s0 (set_currentHandle None s) st _ HR Hbs Hst Hx Hl).
  - constructor; [simpl; by rewrite Hbs|done|done|]. by apply (rest_same (Ok a) s0).
Qed.

Lemma rest_orphaned s0 s st :
  Rest O s0 → bodies s = bodies s0 ++ [st] → body_inv (st_body st) →
  Ledger (outputPool s) (leases_of O s0) →
  Rest (O ++ seq (length (bodies s0)) (length (bodies s) - length (bodies s0))) s.
Proof.
  intros [Hbi Ho _] Hbs Hst Hl. assert (Hlen : length (bodies s) = S (length (bodies s0)))
    by (rewrite Hbs, length_app; cbn [length]; lia).
  rewrite Hlen. replace (S (length (bodies s0)) - length (bodies s0))%nat with 1%nat by lia. cbn [seq].
  constructor.
  - rewrite Hbs. apply Forall_app. split; [done|]. by constructor.
  - rewrite Hlen. apply Forall_app. split; [eapply Forall_impl; [exact Ho|]; cbn beta; intros; lia|]. constructor; [lia|constructor].
  - unfold leases_of in *. rewrite Hbs, leases_app. simpl.
    rewrite decide_True by (apply elem_of_app; right; by apply list_elem_of_singleton). simpl. rewrite app_nil_r.
    rewrite (leases_ext _ O); [done|]. intros i Hi. rewrite elem_of_app, list_elem_of_singleton. simpl in Hi.
    split; [intros [?|?]; [done|lia]|by left].
Qed.

Lemma escaped_throws rq rid e s : is_ok (escaped runtime rq rid e s).1 = false.
Proof.
  unfold escaped, mbind, HM_bind. simpl. by destruct (report_error _ _ _ _ _) as [[]].
Qed.

(** The catch block takes a buffer back that a callback borrowed before it threw. *)
Lemma escaped_quiet s rq rid e :
  wp (escaped runtime rq rid e) (λ _ s', quiet nowhere
    (match handle s with
     | Some h => if responseBorrowsBuffer s
                 then set_responseBorrowsBuffer false (set_handle None (pool_release h s)) else s
     | None => s
     end) s') s.
Proof.
  unfold escaped. apply wp_bind. unfold wp at 1; cbn [modify fst snd].
  apply (wp_quiet nowhere); [|done]. apply (preserves_bind _); [apply quietly_report|intros ?; quiet].
Qed.

Lemma escaped_phase s0 s rq rid e :
  phase s0 s → wp (escaped runtime rq rid e) (λ _ s', phase s0 s') s.
Proof.
  intros Hph. eapply wp_mono; [apply escaped_quiet|]. cbn beta. intros r s' Q.
  eapply phase_nowhere; [exact Q|]. destruct Hph as [H1 H2 H3|h b H1 H2 H3].
  - rewrite H1. by apply Idle.
  - rewrite H1, H3. by apply (Held _ _ h b).
Qed.

Lemma release_released (p : BufferPool) (h : nat) b : handles p !! h = Some (Handle b true) → release p h = p.
Proof. intros Hh. unfold release. by rewrite Hh. Qed.

Lemma escaped_lent s0 s rq rid e :
  Rest O s0 → lent s0 s →
  wp (escaped runtime rq rid e) (λ r s', settled r s0 (release_unless_borrowed s')) s.
Proof.
  intros HR [Hb (h & Hh & Hd) Hi]. pose proof (escaped_throws rq rid e s) as Ht.
  pose proof (escaped_quiet s rq rid e) as Hq. unfold wp in *. rewrite Hh, Hb in Hq.
  destruct (escaped runtime rq rid e s) as [[out|e'] s']; [done|]. cbn [fst snd] in *. clear Ht.
  set (s1 := set_responseBorrowsBuffer false (set_handle None (pool_release h s))) in *.
  assert (E : release_unless_borrowed s' = set_currentHandle None s').
  { unfold release_unless_borrowed. by rewrite (q_handle _ _ _ Hq). }
  rewrite E. assert (Hi' : intact s0 s') by (eapply (intact_quiet nowhere); [unfold nowhere; tauto|exact Hq|exact Hi]).
  assert (Hp : outputPool s' = release (outputPool s) h) by (rewrite (q_pool _ _ _ Hq); done).
  assert (Hbs' : bodies s' = bodies s) by (rewrite (q_bodies _ _ _ Hq); done).
  destruct Hd as [b st Hbs Hst Hx Hl|b Hbs Hr Hl].
  - constructor; [simpl; rewrite Hbs', Hbs; by apply prefix_app_r|done|done|].
    apply (rest_orphaned s0 (set_currentHandle None s') st); [done|simpl; congruence|done|].
    simpl. rewrite Hp. by eapply ledger_release.
  - constructor; [simpl; by rewrite Hbs', Hbs|done|done|].
    apply (rest_same (Throw (A := cb_out) e') s0); [done|simpl; congruence|]. simpl. by rewrite Hp, (release_released _ _ b).
Qed.

Lemma end_callback_quiet s : quiet nowhere s (end_callback s).
Proof. by constructor. Qed.

(** The prelude of [run], up to the outer [try], leaves an idle phase. *)
Lemma idle_start s0 s :
  quiet nowhere s0 s →
  phase s0 (set_responseBorrowsBuffer false (set_currentHandle None (set_handle None s))).
Proof. intros [Qp Qb _ _ _ Qm]. apply Idle; try done. intros k b _. apply Qm. tauto. Qed.

(** The state between two requests. *)
Definition between s : Prop := Rest O s ∧ currentHandle s = None.

Lemma settled_quiet {A} (r : result A) s0 s :
  Rest O s0 → currentHandle s0 = None → quiet nowhere s0 s → settled r s0 s.
Proof.
  intros HR Hc [Qp Qb _ Qc _ Qm]. constructor; [by rewrite Qb| |congruence|].
  - intros k b _. apply Qm. tauto.
  - apply rest_same; [done|done|]. rewrite Qp. apply HR.
Qed.

Lemma start_quiet s rq ip :
  wp (start runtime options rq ip)
    (λ r s', match r with
             | Ok _ => ∃ s1, quiet nowhere s s1 ∧
                 s' = set_responseBorrowsBuffer false (set_currentHandle None (set_handle None s1))
             | Throw _ => quiet nowhere s s'
             end) s.
Proof.
  unfold start. apply wp_bind, (wp_quiet nowhere).
  { intros s1. unfold next_request_id. by destruct (generateRequestId (ridCounter s1)). }
  intros [ridBytes|e] s1 Q1; [|done]. cbv zeta.
  apply wp_bind, (wp_quiet nowhere); [quiet|]. intros [_|e] s2 Q2; [|by etransitivity].
  apply wp_bind, (wp_quiet nowhere); [quiet|]. intros [_|e] s3 Q3; [|by do 2 (etransitivity; [done|])].
  exists s3. split; [by do 2 (etransitivity; [done|])|done].
Qed.

Lemma internal_error_backed s : res s = baked_setInternalError → backed s.
Proof. intros E h b _ _. by rewrite E. Qed.

Lemma report_res rq rid e s : res (report_error runtime rq rid e s).2 = res s.
Proof.
  assert (Hh : ∀ f s, res (call_hook f s).2 = res s).
  { intros [g|] s1; simpl; [|done]. unfold call_hook. by destruct (g (hookState s1)). }
  unfold report_error, mbind, HM_bind.
  pose proof (Hh ((λ f, f rq rid e) <$> onError runtime) s) as E1.
  destruct (call_hook _ s) as [[]? ]; [|done]. simpl in E1. by rewrite Hh.
Qed.

Lemma prepare_phase s0 s sc rq ip bd ridBytes rid :
  Rest O s0 → phase s0 s → handle s = None →
  wp (prepare natives runtime options sc rq ip bd ridBytes rid)
    (λ r s', phase s0 s' ∧ (is_ok r = true → backed s')) s.
Proof.
  intros HR Hph Hh. unfold prepare. apply wp_bind, (wp_quiet nowhere); [quiet|].
  intros [hdrs|e] s1 Q1; [|by split; [eapply phase_nowhere|]].
  assert (Hph1 : phase s0 s1) by (by eapply phase_nowhere).
  apply wp_try_catch. eapply wp_mono.
  { apply (run_native_phase s0); [done|done|]. by rewrite (q_handle _ _ _ Q1). }
  cbn beta. intros [[]|e] s2 [Hph2 Hb]; [by split; [|apply Hb]|].
  set (s3 := set_res baked_setInternalError s2).
  assert (Hph3 : phase s0 s3) by (eapply phase_nowhere; [|exact Hph2]; by constructor).
  change (wp (report_error runtime rq rid e) (λ r s', phase s0 s' ∧ (is_ok r = true → backed s')) s3).
  unfold wp. split; [eapply phase_nowhere; [apply quietly_report|exact Hph3]|].
  intros _. apply internal_error_backed. by rewrite report_res.
Qed.

(** Everything before the callback does not depend on it. *)
Definition finish (rq : Request) (rid : list Z) (m : @HM EST N H cb_out) : @HM EST N H cb_out :=
  try_finally (try_catch (try_finally m end_callback) (escaped runtime rq rid)) release_unless_borrowed.

Lemma run_split s0 sc rq ip bd :
  between s0 →
  (∃ e s', settled (Throw (A := cb_out) e) s0 s' ∧ ∀ fn, run natives runtime options sc rq ip bd fn s0 = (Throw e, s')) ∨
  (∃ rid s, phase s0 s ∧ backed s ∧
     ∀ fn, run natives runtime options sc rq ip bd fn s0 =
           finish rq rid (run_callback runtime rq ip rid fn) s).
Proof.
  intros [HR Hc0]. pose proof (start_quiet s0 rq ip) as Hst. unfold wp in Hst. unfold run.
  destruct (start runtime options rq ip s0) as [[[ridBytes rid]|e] s1] eqn:Es; cbn [fst snd] in Hst; last first.
  { left. exists e, s1. split; [by apply settled_quiet|]. intros fn. unfold mbind at 1, HM_bind at 1. by rewrite Es. }
  destruct Hst as (s' & Q & ->). apply idle_start in Q.
  set (s1 := set_responseBorrowsBuffer false _) in *.
  pose proof (prepare_phase s0 s1 sc rq ip bd ridBytes rid HR Q eq_refl) as Hp. unfold wp in Hp.
  destruct (prepare natives runtime options sc rq ip bd ridBytes rid s1) as [[[]|e] s2] eqn:Ep;
    cbn [fst snd] in Hp; destruct Hp as [Hph Hb].
  - right. exists rid, s2. split; [done|]. split; [by apply Hb|]. intros fn.
    unfold mbind at 1, HM_bind at 1. rewrite Es. cbn [fst snd].
    unfold finish, try_finally at 1, try_catch at 1, mbind at 1, HM_bind at 1. rewrite Ep.
    unfold try_finally at 2. unfold try_catch. done.
  - left. pose proof (escaped_phase s0 s2 rq rid e Hph) as Hesc. unfold wp in Hesc.
    pose proof (escaped_throws rq rid e s2) as Hthrow.
    destruct (escaped runtime rq rid e s2) as [[a|e'] s3] eqn:Ee; [done|]. cbn [fst snd] in Hesc.
    exists e', (release_unless_borrowed s3). split; [by apply settled_idle|]. intros fn.
    unfold mbind at 1, HM_bind at 1. rewrite Es. cbn [fst snd].
    unfold try_finally at 1, try_catch at 1, mbind at 1, HM_bind at 1. by rewrite Ep, Ee.
Qed.

Lemma finish_settles s0 s rq ip rid fn :
  Rest O s0 → (∀ r c, script_ok false (fn r c)) → phase s0 s →
  wp (finish rq rid (run_callback runtime rq ip rid fn)) (λ r s', settled r s0 s') s.
Proof.
  intros HR Hfn Hph. apply wp_try_finally, wp_try_catch, wp_try_finally.
  eapply wp_mono; [by apply (run_callback_phase s0)|].
  intros [a|e] s' [Hp|Hl].
  - apply settled_idle; [done|]. by eapply phase_nowhere; [apply end_callback_quiet|].
  - apply settled_lent; [done|]. by eapply lent_nowhere; [apply end_callback_quiet|].
  - eapply wp_mono; [apply (escaped_phase s0); by eapply phase_nowhere; [apply end_callback_quiet|]|].
    intros. by apply settled_idle.
  - apply escaped_lent; [done|]. by eapply lent_nowhere; [apply end_callback_quiet|].
Qed.

Lemma run_settles s0 sc rq ip body fn :
  between s0 → (∀ r c, script_ok false (fn r c)) →
  wp (run natives runtime options sc rq ip body fn) (λ r s', settled r s0 s') s0.
Proof.
  intros HB Hfn. unfold wp.
  destruct (run_split s0 sc rq ip body HB) as [(e & s' & Hs & E)|(rid & s & Hph & _ & E)];
    rewrite E; [done|]. by apply finish_settles; [apply HB|..].
Qed.
End request.

(** ** Events on bodies *)

Lemma body_step_keeps (b : pooled_body) (e : body_event) :
  body_handle (body_step b e).1 = body_handle b ∧ body_bytes (body_step b e).1 = body_bytes b.
Proof.
  destruct b as [h bs rel t q c]. unfold body_step, pull, cancel, timeout, closure_release.
  destruct e, rel, c, t; simpl; try case_bool_decide; done.
Qed.

(** An event ends the borrow and releases its handle once, or does neither. *)
Lemma body_step_lease (st : Stream) (e : body_event) pb rs :
  body_inv (st_body st) → body_step (st_body st) e = (pb, rs) →
  let st' := Strm pb (st_start st) (st_end st) in
  body_inv pb ∧
  (lease_of st' = lease_of st ∧ rs = [] ∨
   lease_of st = Some (body_handle (st_body st), body_bytes (st_body st)) ∧ lease_of st' = None ∧
   rs = [body_handle (st_body st)]).
Proof.
  intros Hi E. pose proof (body_step_keeps (st_body st) e) as [Hh Hb].
  pose proof (body_step_inv (st_body st) e Hi) as Hi'. unfold lease_of; simpl.
  rewrite E in Hh, Hb, Hi'. cbn [fst] in *. split; [done|].
  destruct (closure_released (st_body st)) eqn:Hr.
  - left. destruct (body_run_released [e] (st_body st) Hr) as (Hrs & Hr' & _).
    cbn [body_run] in Hrs, Hr'. rewrite E in Hrs, Hr'. cbn [fst snd] in *. rewrite Hr'.
    by rewrite app_nil_r in Hrs.
  - pose proof (body_step_ends (st_body st) e Hi Hr) as Hs. rewrite E in Hs. cbn [fst snd] in *.
    destruct (ends (st_body st) e); [right|left].
    + destruct Hs as (-> & -> & _). done.
    + destruct Hs as (-> & -> & -> & _). by rewrite Hb.
Qed.

Lemma stream_event_rest O i e s : i ∉ O → Rest O s → Rest O (stream_event i e s).
Proof.
  intros HO [Hbi Ho Hl]. unfold stream_event. destruct (bodies s !! i) as [st|] eqn:Hst; [|done].
  destruct (body_step (st_body st) e) as [pb rs] eqn:E.
  pose proof (Forall_lookup_1 _ _ _ _ Hbi Hst) as Hi. cbn beta in Hi.
  destruct (body_step_lease st e pb rs Hi E) as [Hi' Hcase].
  set (st' := Strm pb (st_start st) (st_end st)) in *.
  set (s1 := set_bodies (<[i := st']> (bodies s)) s).
  assert (Hbs : Forall (λ st, body_inv (st_body st)) (bodies s1)) by (by apply Forall_insert).
  assert (Hos : Forall (λ i, i < length (bodies s1))%nat O) by (simpl; by rewrite length_insert).
  assert (Hlt := lookup_lt_Some _ _ _ Hst).
  assert (Hmid : ∀ x, leases_from O 0 (take i (bodies s) ++ x :: drop (S i) (bodies s)) =
            leases_from O 0 (take i (bodies s)) ++ option_list (lease_of x) ++
            leases_from O (S i) (drop (S i) (bodies s))).
  { intros x. rewrite leases_app, length_take_le by lia. simpl. by rewrite decide_False by done. }
  assert (Hold : leases_of O s = leases_from O 0 (take i (bodies s)) ++ option_list (lease_of st) ++
                   leases_from O (S i) (drop (S i) (bodies s))).
  { unfold leases_of. rewrite <-(take_drop_middle _ _ _ Hst) at 1. apply Hmid. }
  assert (Hnew : leases_of O s1 = leases_from O 0 (take i (bodies s)) ++ option_list (lease_of st') ++
                   leases_from O (S i) (drop (S i) (bodies s))).
  { unfold leases_of, s1; simpl. rewrite insert_take_drop by done. apply Hmid. }
  destruct Hcase as [[Heq ->]|(Hsome & Hnone & ->)].
  - simpl. constructor; [done|done|]. rewrite Hnew, Heq, <-Hold. done.
  - simpl. constructor; [done|done|]. rewrite Hsome in Hold. rewrite Hnone in Hnew.
    change (Ledger (release (outputPool s) (body_handle (st_body st))) (leases_of O s1)).
    rewrite Hnew. simpl. eapply ledger_release. rewrite Permutation_middle. simpl in Hold.
    rewrite <-Hold. done.
Qed.

Lemma stream_event_frame i e s :
  mem (stream_event i e s) = mem s ∧ currentHandle (stream_event i e s) = currentHandle s ∧
  native (stream_event i e s) = native s ∧ hookState (stream_event i e s) = hookState s ∧
  ffiFailures (stream_event i e s) = ffiFailures s ∧ ffiDisabled (stream_event i e s) = ffiDisabled s.
Proof.
  unfold stream_event. destruct (bodies s !! i) as [st|]; [|done].
  destruct (body_step (st_body st) e) as [pb rs].
  assert (G : ∀ s1, mem s1 = mem s ∧ currentHandle s1 = currentHandle s ∧ native s1 = native s ∧
    hookState s1 = hookState s ∧ ffiFailures s1 = ffiFailures s ∧ ffiDisabled s1 = ffiDisabled s →
    let s2 := foldl (λ s h, pool_release h s) s1 rs in
    mem s2 = mem s ∧ currentHandle s2 = currentHandle s ∧ native s2 = native s ∧
    hookState s2 = hookState s ∧ ffiFailures s2 = ffiFailures s ∧ ffiDisabled s2 = ffiDisabled s).
  { induction rs as [|h rs IH]; intros s1 Hs1; [done|]. simpl. by apply IH. }
  by apply G.
Qed.

(** A body that was open in [s] is there in [s'], with the same bytes to serve. *)
Definition body_kept i (st : Stream) s s' : Prop :=
  ∃ st', bodies s' !! i = Some st' ∧ st_start st' = st_start st ∧ st_end st' = st_end st ∧
    body_bytes (st_body st') = body_bytes (st_body st) ∧
    (closure_released (st_body st) = true → closure_released (st_body st') = true) ∧
    (closure_released (st_body st) = false → window st' s' = window st s).

Lemma stream_event_kept j e i st s :
  bodies s !! i = Some st → body_kept i st s (stream_event j e s).
Proof.
  intros Hst. destruct (stream_event_frame j e s) as (Hm&_).
  assert (Hw : ∀ st', st_start st' = st_start st → st_end st' = st_end st →
     body_bytes (st_body st') = body_bytes (st_body st) → window st' (stream_event j e s) = window st s).
  { intros st' E1 E2 E3. unfold window, content. by rewrite E1, E2, E3, Hm. }
  revert Hw. unfold stream_event. destruct (bodies s !! j) as [st1|] eqn:Hj; [|intros _; exists st; naive_solver].
  destruct (body_step (st_body st1) e) as [pb rs] eqn:E. intros Hw.
  assert (Hb : ∀ s1, bodies (foldl (λ s h, pool_release h s) s1 rs) = bodies s1).
  { clear. induction rs as [|h rs IH]; intros s1; [done|]. simpl. by rewrite IH. }
  unfold body_kept. rewrite Hb. simpl.
  destruct (decide (i = j)) as [<-|Hne].
  - rewrite Hst in Hj. injection Hj as <-. pose proof (body_step_keeps (st_body st) e) as [Hh Hbb].
    rewrite E in Hh, Hbb. exists (Strm pb (st_start st) (st_end st)).
    rewrite list_lookup_insert_eq by (by eapply lookup_lt_Some).
    do 4 (split; [done|]). split; [|intros _; by apply Hw]. intros Hr. simpl.
    destruct (body_run_released [e] (st_body st) Hr) as (_ & Hr' & _). cbn [body_run] in Hr'.
    by rewrite E in Hr'.
  - exists st. rewrite list_lookup_insert_ne by done. naive_solver.
Qed.

(** ** Sequences of requests and events *)

(** The streams a request built and did not deliver, because it ended with a throw. *)
Definition orphaned s (o : h_op) : list nat :=
  match o with
  | Run sc rq ip bd fn =>
      let '(r, s') := run natives runtime options sc rq ip bd fn s in
      match r with
      | Ok _ => []
      | Throw _ => seq (length (bodies s)) (length (bodies s') - length (bodies s))
      end
  | StreamOp _ _ => []
  end.

(** Callbacks ask for one zero-copy response at most, and end in any way; events
    happen to streams that were delivered. *)
Definition op_ok (O : list nat) (o : h_op) : Prop :=
  match o with Run _ _ _ _ fn => ∀ r c, script_ok false (fn r c) | StreamOp i _ => i ∉ O end.

Fixpoint ops_ok (O : list nat) s (ops : list h_op) : Prop :=
  match ops with
  | [] => True
  | o :: ops => op_ok O o ∧ ops_ok (O ++ orphaned s o) (h_step natives runtime options s o) ops
  end.
Fixpoint orphans (O : list nat) s (ops : list h_op) : list nat :=
  match ops with
  | [] => O
  | o :: ops => orphans (O ++ orphaned s o) (h_step natives runtime options s o) ops
  end.

Lemma h_step_between O s o :
  op_ok O o → between O s → between (O ++ orphaned s o) (h_step natives runtime options s o).
Proof.
  intros Ho HB. destruct o as [sc rq ip bd fn|i e]; simpl.
  - pose proof (run_settles O s sc rq ip bd fn HB Ho) as Hs. unfold wp in Hs.
    destruct (run natives runtime options sc rq ip bd fn s) as [[a|e] s']; destruct Hs as [_ _ Hc HR];
      simpl in *; [rewrite app_nil_r|]; by split.
  - rewrite app_nil_r. destruct HB as [HR Hc]. split; [by apply stream_event_rest|].
    destruct (stream_event_frame i e s) as (_&->&_). done.
Qed.

Lemma h_run_between O s ops :
  ops_ok O s ops → between O s →
  between (orphans O s ops) (foldl (h_step natives runtime options) s ops).
Proof.
  revert O s. induction ops as [|o ops IH]; intros O s; [done|]. simpl. intros [Ho Hops] HB.
  by apply IH, h_step_between.
Qed.

(** A body that is there is not made an orphan later. *)
Lemma orphaned_new O s o i : i ∉ O → (i < length (bodies s))%nat → i ∉ O ++ orphaned s o.
Proof.
  intros HO Hi. rewrite elem_of_app. intros [?|Hin]; [done|].
  destruct o as [sc rq ip bd fn|]; simpl in Hin; [|by apply not_elem_of_nil in Hin].
  destruct (run natives runtime options sc rq ip bd fn s) as [[a|e] s']; [by apply not_elem_of_nil in Hin|].
  apply elem_of_seq in Hin. lia.
Qed.

Lemma h_step_kept O s o i st :
  op_ok O o → between O s → i ∉ O → bodies s !! i = Some st →
  body_kept i st s (h_step natives runtime options s o).
Proof.
  intros Ho HB HO Hst. destruct o as [sc rq ip bd fn|j e]; simpl; [|by apply stream_event_kept].
  pose proof (run_settles O s sc rq ip bd fn HB Ho) as [Hpre Hi _ _].
  exists st. split; [by eapply prefix_lookup_Some|]. do 3 (split; [done|]). split; [done|].
  intros Hr. unfold window, content. rewrite (Hi (body_handle (st_body st))); [done|].
  eapply (leases_elem O 0); [exact Hst|done|]. unfold lease_of. by rewrite Hr.
Qed.

Lemma created_between sc n h c cache s :
  createIngressHandler runtime options sc n h c cache = Ok s → between [] s.
Proof.
  unfold createIngressHandler. intros (cache' & _ & [= <-])%bind_Ok. split; [|done].
  constructor; [by constructor|by constructor|]. constructor; [apply new_inv|set_solver|constructor|done].
Qed.

(** The states of a handler between requests, with the streams orphaned so far: from
    its creation, over any natives, hooks and callbacks and any events on the bodies
    that were delivered. *)
Definition reachable (O : list nat) s : Prop :=
  ∃ sc n h c cache s0 ops,
    createIngressHandler runtime options sc n h c cache = Ok s0 ∧ ops_ok [] s0 ops ∧
    s = foldl (h_step natives runtime options) s0 ops ∧ O = orphans [] s0 ops.

Lemma reachable_between O s : reachable O s → between O s.
Proof.
  intros (sc & n & h & c & cache & s0 & ops & Hc & Hops & -> & ->).
  apply h_run_between; [done|]. by eapply created_between.
Qed.

(** The in-flight cap is that of the configuration. *)
Definition cap s : Z := maxInFlight (outputPool s).

Lemma h_run_cap s ops : cap (foldl (h_step natives runtime options) s ops) = cap s.
Proof.
  apply (h_run_preserves natives runtime options (same cap)).
  - intros s1 s2 [=]. unfold same, cap. congruence.
  - intros n s1. unfold same, cap, pool_acquire.
    destruct (pool_step_cfg (outputPool s1) (Acquire n)) as (_ & E & _). simpl in E.
    by destruct (acquire (outputPool s1) n) as [[]|].
  - intros h s1. destruct (pool_step_cfg (outputPool s1) (Release h)) as (_ & E & _). exact E.
  - intros k u ip rid hs bd b s1. unfold same, cap.
    by rewrite (q_pool (λ _, True) _ _ (quietly_native_call _ k u ip rid hs bd b I s1)).
  - intros f s1. unfold same, cap. by rewrite (q_pool nowhere _ _ (quietly_hook _ f s1)).
Qed.

Lemma reachable_cap O s : reachable O s → cap s = Z.max 0 (maxInFlight_opt runtime).
Proof.
  intros (sc & n & h & c & cache & s0 & ops & Hc & _ & -> & _). rewrite h_run_cap.
  unfold createIngressHandler in Hc. by apply bind_Ok in Hc as (cache' & _ & [= <-]).
Qed.

(** ** Bodies over later requests *)

Lemma h_run_kept O s ops i st :
  ops_ok O s ops → between O s → i ∉ O → bodies s !! i = Some st →
  ∃ st', bodies (foldl (h_step natives runtime options) s ops) !! i = Some st' ∧
    (closure_released (st_body st') = false →
     closure_released (st_body st) = false ∧
     window st' (foldl (h_step natives runtime options) s ops) = window st s).
Proof.
  revert O s st. induction ops as [|o ops IH]; intros O s st Hops HB HO Hst; [eauto|].
  simpl in *. destruct Hops as [Ho Hops].
  destruct (h_step_kept O s o i st Ho HB HO Hst) as (st1 & H1 & _ & _ & _ & Hr & Hw).
  assert (HO1 : i ∉ O ++ orphaned s o) by (apply orphaned_new; [done|by eapply lookup_lt_Some]).
  destruct (IH _ _ st1 Hops (h_step_between O s o Ho HB) HO1 H1) as (st2 & H2 & Hw2).
  exists st2. split; [done|]. intros Hopen. destruct (Hw2 Hopen) as [Hopen1 E].
  destruct (closure_released (st_body st)); [by rewrite Hr in Hopen1|]. split; [done|].
  by rewrite E, Hw.
Qed.

(** ** Zero-copy and copying callbacks *)

(** The two ways a route serves the body of a result. *)
Definition serve_view (st : Z) (r : IngressResultBase) (c : BakedContext) : script :=
  ZeroCopy st (λ x, match x with Ok resp => Done (OutResponse resp) | Throw e => Fails e end).
Definition serve_copy (st : Z) (r : IngressResultBase) (c : BakedContext) : script :=
  Done (OutResponse (Resp st (OwnBytes (bodyJson r true)))).

Lemma serve_view_ok st r c : script_ok false (serve_view st r c).
Proof. constructor; intros; by constructor. Qed.

Lemma serve_copy_ok st r c : script_ok false (serve_copy st r c).
Proof. by constructor. Qed.

Lemma zero_copy_window O s0 s st i s' :
  phase O s0 s → backed s → zeroCopyResponse runtime st s = (Ok (Resp st (StreamBody i)), s') →
  i = length (bodies s0) ∧
  ∃ x, bodies s' !! i = Some x ∧ window x s' = bodyJson (res s) true ∧ bodyJson (res s) true ≠ [].
Proof.
  intros Hph Hback. unfold zeroCopyResponse, mbind, HM_bind. cbn [gets].
  destruct Hph as [Hh Hc Hb Hp Hbs Hi|h b Hh Hc Hb Hbs Hl Hi]; rewrite Hc; [done|].
  cbn [modify gets]. unfold buffer_of; cbn [outputPool set_responseBorrowsBuffer].
  assert (Hlv : handles (outputPool s) !! h = Some (Handle b false)) by (apply (led_live _ _ Hl); set_solver).
  rewrite Hlv. cbn [buffer].
  unfold pooledBodyResponse. case_decide as Hz; [done|].
  destruct (stream_window (res (set_responseBorrowsBuffer true s))) as [a z] eqn:Ew.
  cbn [modify mret HM_ret]. intros [= <- <-]. split; [simpl; by rewrite Hbs|]. eexists. cbn [bodies set_bodies].
  rewrite lookup_app_r, Nat.sub_diag by done. split; [done|]. split.
  - unfold window, content; simpl. specialize (Hback h b Hh Hlv Hz).
    change (stream_window (res s) = (a, z)) in Ew. rewrite Ew in Hback. exact Hback.
  - intros E. apply Hz. change (zlen (bodyJson (res s) true) = 0). by rewrite E.
Qed.

Lemma finish_ok rq rid (m : HM cb_out) a s s1 :
  finish rq rid m s = (Ok a, s1) ↔
  ∃ s', m s = (Ok a, s') ∧ s1 = release_unless_borrowed (end_callback s').
Proof.
  unfold finish, try_finally, try_catch. destruct (m s) as [[b|e] s'].
  - naive_solver.
  - pose proof (escaped_throws rq rid e (end_callback s')).
    destruct (escaped runtime rq rid e (end_callback s')) as [[]]; naive_solver.
Qed.

(** The hooks after a callback that ended well. *)
Definition observe_outcome (rq : Request) (ip : option (list Z)) (rid : list Z)
    (r : IngressResultBase) (out : cb_out) : @HM EST N H cb_out :=
  call_hook ((λ f, f rq r (out_status out r) rid) <$> onResponse runtime) ;;
  call_hook ((λ f, f rq rid (out_status out r) (default EMPTY_IP ip)) <$> log_request runtime) ;;
  mret out.

(** A hook answers by its own state. *)
Lemma call_hook_agree f s t :
  hookState s = hookState t →
  (call_hook f t).1 = (call_hook f s).1 ∧ hookState (call_hook f s).2 = hookState (call_hook f t).2.
Proof. intros E. unfold call_hook. destruct f as [g|]; [|done]. rewrite E. by destruct (g (hookState t)). Qed.

(** The hooks see the status of a response, not its body. *)
Lemma observe_agree rq ip rid r out out' s t s1 :
  observe_outcome rq ip rid r out s = (Ok out, s1) → hookState s = hookState t →
  out_status out r = out_status out' r → ∃ t1, observe_outcome rq ip rid r out' t = (Ok out', t1).
Proof.
  intros E Eh Est. unfold observe_outcome, mbind, HM_bind in *. rewrite <-Est.
  destruct (call_hook_agree ((λ f, f rq r (out_status out r) rid) <$> onResponse runtime) s t Eh) as [E1 Eh1].
  destruct (call_hook ((λ f, f rq r (out_status out r) rid) <$> _) s) as [[[]|] s2]; [|done].
  destruct (call_hook ((λ f, f rq r (out_status out r) rid) <$> _) t) as [r2 t2]. cbn [fst snd] in *. subst r2.
  destruct (call_hook_agree ((λ f, f rq rid (out_status out r) (default EMPTY_IP ip)) <$> log_request runtime) s2 t2 Eh1)
    as [E2 _].
  destruct (call_hook ((λ f, f rq rid _ _) <$> _) s2) as [[[]|] s3]; [|done].
  destruct (call_hook ((λ f, f rq rid _ _) <$> _) t2) as [r3 t3]. cbn [fst snd] in *. subst r3. by exists t3.
Qed.

Lemma run_callback_done rq ip rid fn s out s1 :
  exec runtime (fn (res s) (ctx s)) s = (Ok out, s1) → out ≠ OutThenable →
  run_callback runtime rq ip rid fn s = observe_outcome rq ip rid (res s) out s1.
Proof.
  intros He Ho. unfold run_callback. unfold mbind at 1 2 3 4, HM_bind at 1 2 3 4; cbn [gets].
  rewrite He. unfold assertSyncCallback. by destruct out.
Qed.

Lemma run_callback_ok_inv rq ip rid fn s out s2 :
  run_callback runtime rq ip rid fn s = (Ok out, s2) →
  ∃ s1, exec runtime (fn (res s) (ctx s)) s = (Ok out, s1) ∧ quiet nowhere s1 s2 ∧
        observe_outcome rq ip rid (res s) out s1 = (Ok out, s2).
Proof.
  unfold run_callback. unfold mbind at 1 2 3 4, HM_bind at 1 2 3 4; cbn [gets].
  destruct (exec runtime (fn (res s) (ctx s)) s) as [[o|e] s1]; [|done].
  intros E. assert (Ho : o ≠ OutThenable) by (by intros ->).
  assert (E' : observe_outcome rq ip rid (res s) o s1 = (Ok out, s2)) by (by destruct o).
  assert (Q : quiet nowhere s1 s2).
  { change s2 with (Ok out, s2).2. rewrite <-E'. unfold observe_outcome. generalize s1. quiet. }
  assert (o = out) as ->.
  { revert E'. unfold observe_outcome, mbind, HM_bind.
    destruct (call_hook _ s1) as [[[]|] s3]; [|done]. destruct (call_hook _ s3) as [[[]|] s4]; [|done].
    by intros [= -> _]. }
  by exists s1.
Qed.

Lemma window_quiet s s' x : quiet nowhere s s' → window x s' = window x s.
Proof. intros Q. unfold window, content. rewrite (q_mem _ _ _ Q); [done|tauto]. Qed.

Lemma window_released x s : window x (release_unless_borrowed s) = window x s.
Proof. unfold window, content, release_unless_borrowed. by repeat case_match. Qed.
Lemma bodies_released s : bodies (release_unless_borrowed s) = bodies s.
Proof. unfold release_unless_borrowed. by repeat case_match. Qed.

Lemma zero_copy_hooks s st r s' : zeroCopyResponse runtime st s = (r, s') → hookState s' = hookState s.
Proof.
  unfold zeroCopyResponse, mbind, HM_bind. cbn [gets]. destruct (currentHandle s) as [h|]; [|by intros [= _ <-]].
  cbn [modify gets]. unfold buffer_of. destruct (handles _ !! h) as [x|]; [|by intros [= _ <-]].
  unfold pooledBodyResponse. case_decide; [by intros [= _ <-]|]. cbn [gets].
  destruct (stream_window _). by intros [= _ <-].
Qed.

Lemma serve_agree O s0 sc rq ip bd st i s1 :
  between O s0 →
  run natives runtime options sc rq ip bd (serve_view st) s0 = (Ok (OutResponse (Resp st (StreamBody i))), s1) →
  i = length (bodies s0) ∧
  ∃ bs x, bs ≠ [] ∧
    (run natives runtime options sc rq ip bd (serve_copy st) s0).1 = Ok (OutResponse (Resp st (OwnBytes bs))) ∧
    bodies s1 !! i = Some x ∧ window x s1 = bs.
Proof.
  intros HB. destruct (run_split O s0 sc rq ip bd HB) as [(e & s' & _ & E)|(rid & s & Hph & Hback & E)].
  { by rewrite E. }
  rewrite !E. intros (s3 & Hcb & ->)%finish_ok.
  apply run_callback_ok_inv in Hcb as (s2 & Hex & Q & Hobs). cbn [serve_view exec] in Hex.
  destruct (zeroCopyResponse runtime st s) as [[resp|e] s2'] eqn:Ez; [|done].
  cbn [exec mret HM_ret] in Hex. injection Hex as -> ->.
  destruct (zero_copy_window O s0 s st i s2 Hph Hback Ez) as (Hi & x & Hx & Hw & Hne).
  split; [done|]. exists (bodyJson (res s) true), x. split; [done|]. split.
  - apply zero_copy_hooks in Ez.
    destruct (observe_agree _ _ _ _ _ (OutResponse (Resp st (OwnBytes (bodyJson (res s) true)))) _ s _ Hobs)
      as (s4 & Hc); [done..|].
    assert (Hcb : run_callback runtime rq ip rid (serve_copy st) s =
              (Ok (OutResponse (Resp st (OwnBytes (bodyJson (res s) true)))), s4))
      by (by rewrite (run_callback_done rq ip rid (serve_copy st) s _ s eq_refl)).
    assert (Hf := proj2 (finish_ok rq rid (run_callback runtime rq ip rid (serve_copy st)) _ s _)
                    (ex_intro _ s4 (conj Hcb eq_refl))). by rewrite Hf.
  - rewrite bodies_released, window_released. unfold end_callback; simpl.
    rewrite (q_bodies _ _ _ Q). split; [done|].
    change (window x s3 = bodyJson (res s) true). by rewrite (window_quiet s2).
Qed.

Lemma leases_handles O s h b :
  (h, b) ∈ leases_of O s ↔
  ∃ i st, bodies s !! i = Some st ∧ i ∉ O ∧ lease_of st = Some (h, b).
Proof.
  unfold leases_of. split; [|intros (i & st & Hst & HO & Hl); by eapply leases_elem].
  assert (G : ∀ k l, (h, b) ∈ leases_from O k l →
            ∃ i st, l !! i = Some st ∧ (k + i)%nat ∉ O ∧ lease_of st = Some (h, b)).
  { intros k l. revert k. induction l as [|st l IH]; intros k Hin; simpl in Hin; [by apply not_elem_of_nil in Hin|].
    apply elem_of_app in Hin as [Hin|Hin].
    - exists 0%nat, st. case_decide as Hk; [by apply not_elem_of_nil in Hin|]. rewrite Nat.add_0_r.
      destruct (lease_of st) as [x|]; [|by apply not_elem_of_nil in Hin].
      apply list_elem_of_singleton in Hin as <-. done.
    - destruct (IH _ Hin) as (i & st' & ? & Hi & ?). exists (S i), st'. by rewrite <-Nat.add_succ_comm. }
  intros Hin. by destruct (G 0%nat (bodies s) Hin) as (i & st & ? & ? & ?); exists i, st.
Qed.

(** C31. The pool's books balance after every request, until something happens to a
    stream whose request ended with a throw: over any native core, packing failures,
    pool exhaustion, hooks and callbacks that throw at any point (a callback asks for
    one zero-copy response at most), and any events on the bodies that were delivered,
    the number of buffers in flight is the number of zero-copy bodies that were
    delivered and have not ended, it respects the cap, each of those bodies holds its
    own unreleased handle on its own buffer, and a request that threw has given its
    buffer back.  The stream of a zero-copy response that such a request had built, an
    orphan, is not told: an event on it, as the platform's own pull is, does what
    [late_throw_frees_next_body] shows. *)
Theorem handler_balances_pool O s :
  reachable O s →
  inFlight (outputPool s) = zlen (leases_of O s) ∧
  (0 < maxInFlight_opt runtime → zlen (leases_of O s) ≤ maxInFlight_opt runtime) ∧
  NoDup ((λ l, buf_id l.2) <$> leases_of O s) ∧
  (∀ i st, bodies s !! i = Some st → i ∉ O → closure_released (st_body st) = false →
     handles (outputPool s) !! body_handle (st_body st) = Some (Handle (body_bytes (st_body st)) false)) ∧
  currentHandle s = None.
Proof.
  intros Hr. destruct (reachable_between O s Hr) as [[_ _ Hl] Hc].
  pose proof (reachable_cap O s Hr) as Hcap. unfold cap in Hcap. pose proof Hl as [Hp Hlive Hd Hcount].
  split; [done|]. split; [intros Hm; rewrite <-Hcount; pose proof (inv_cap _ Hp); lia|].
  split; [|split; [|done]].
  - apply NoDup_fmap_2_strong; [|by eapply NoDup_fmap_1].
    intros [h b] [k c] Hh Hk E. assert (h = k) as -> by (by eapply ledger_distinct_bufs).
    apply Hlive in Hh, Hk. congruence.
  - intros i st Hi HO Ho. apply Hlive, leases_handles. exists i, st.
    split; [done|]. split; [done|]. unfold lease_of. by rewrite Ho.
Qed.

(** ** What a reader receives *)

(** The chunks that stream [i] has queued for its reader, as their bytes are now, and
    whether it ends after them. *)
Definition readable i s : option (list (list Z) * bool) :=
  (λ st, ((λ b, subarray (content s b) (st_start st) (st_end st)) <$> Response.queue (st_body st),
          stream_closed (st_body st))) <$> bodies s !! i.

Lemma stream_event_bodies i e j s :
  bodies (stream_event j e s) !! i =
    if decide (i = j) then (λ st, Strm (body_step (st_body st) e).1 (st_start st) (st_end st)) <$> bodies s !! i
    else bodies s !! i.
Proof.
  assert (Hb : ∀ rs s1, bodies (foldl (λ s h, pool_release h s) s1 rs) = bodies s1).
  { clear. induction rs as [|h rs IH]; intros s1; [done|]. simpl. by rewrite IH. }
  unfold stream_event. destruct (bodies s !! j) as [st|] eqn:Hj.
  - destruct (body_step (st_body st) e) as [pb rs] eqn:E. rewrite Hb. simpl. case_decide as Hd.
    + subst j. rewrite list_lookup_insert_eq by (by eapply lookup_lt_Some). rewrite Hj. simpl. by rewrite E.
    + by rewrite list_lookup_insert_ne.
  - case_decide as Hd; [subst j; by rewrite Hj|done].
Qed.

(** The buffer the next request would be given. *)
Definition next_buffer s : option Uint8Array_ :=
  match acquire (outputPool s) (outputBufferSize runtime) with
  | Ok (h, p) => buffer <$> handles p !! h
  | Throw _ => None
  end.

(** A computation only appends bodies and writes only the buffers in [W]. *)
Record tame (W : nat → Prop) s t : Prop := {
  tame_bodies : bodies s `prefix_of` bodies t;
  tame_mem : ∀ i, ¬ W i → mem t !! i = mem s !! i }.
#[export] Instance tame_preorder W : PreOrder (tame W).
Proof.
  split; [by constructor|]. intros s1 s2 s3 [B1 M1] [B2 M2]. constructor; [by etransitivity|].
  intros i Hi. by rewrite M2, M1.
Qed.

Lemma quiet_tame W s t : quiet W s t → tame W s t.
Proof. intros [_ Qb _ _ _ Qm]. constructor; [by rewrite Qb|done]. Qed.
Lemma still_tame W s t : quiet nowhere s t → tame W s t.
Proof. intros [_ Qb _ _ _ Qm]. constructor; [by rewrite Qb|]. intros i _. apply Qm. tauto. Qed.
Lemma quietly_tame W {A} (m : HM A) : quietly W m → preserves (tame W) m.
Proof. intros Hm s. apply quiet_tame, Hm. Qed.
Lemma tame_step W s t : bodies t = bodies s → mem t = mem s → tame W s t.
Proof. intros E1 E2. constructor; [by rewrite E1|by rewrite E2]. Qed.

Hint Extern 1 (preserves (tame _) (call_hook _)) => (apply quietly_tame, quietly_hook) : preserves.

Lemma tame_release W s : tame W s (release_unless_borrowed s).
Proof. apply tame_step; unfold release_unless_borrowed; by repeat case_match. Qed.

Lemma tame_zero_copy W st : preserves (tame W) (zeroCopyResponse runtime st).
Proof.
  unfold zeroCopyResponse. preserving. case_match; preserving.
  destruct (pooledBodyResponse _ _ _ _) as [[pb|] rs] eqn:E.
  - preserving. apply preserves_modify. intros s.
    constructor; [by apply prefix_app_r|done].
  - unfold pooledBodyResponse in E. case_decide; [|done]. injection E as <-. preserving.
Qed.

Lemma tame_exec W sc : preserves (tame W) (exec runtime sc).
Proof.
  induction sc as [out|e|st k IH]; [apply (preserves_ret _)|apply (preserves_throw _)|].
  intros s. cbn [exec]. pose proof (tame_zero_copy W st s) as Hz.
  destruct (zeroCopyResponse runtime st s) as [r s']. etransitivity; [done|apply IH].
Qed.

Lemma tame_escaped W rq rid e : preserves (tame W) (escaped runtime rq rid e).
Proof.
  unfold escaped, report_error. preserving. apply preserves_modify. intros s. apply tame_step; by repeat case_match.
Qed.

Lemma tame_callback W rq ip rid fn :
  preserves (tame W) (try_finally (run_callback runtime rq ip rid fn) end_callback).
Proof.
  apply (preserves_try_finally _); [|intros s; by apply tame_step]. unfold run_callback, assertSyncCallback.
  preserving; [apply tame_exec|]. case_match; preserving.
Qed.

(** The buffers a request writes: the one the pool has for it. *)
Definition given s : nat → Prop := λ i, buf_id <$> next_buffer s = Some i.

Lemma tame_native s k u ip rid hs bd :
  tame (given s) s (run_native natives runtime k u ip rid hs bd s).2.
Proof.
  unfold run_native. unfold mbind at 1, HM_bind at 1, pool_acquire.
  destruct (acquire (outputPool s) (outputBufferSize runtime)) as [[h p]|e] eqn:Ha; [|done].
  set (s2 := set_currentHandle (Some h) (set_handle (Some h) (set_outputPool p s))).
  transitivity s2; [by apply tame_step|].
  change (tame (given s) s2 ((b ← buffer_of h; written ← native_call natives k u ip rid hs bd b;
              buf ← gets (λ s, content s b); r ← lift (baked_refresh buf (default [] bd) written);
              modify (set_res r)) s2).2).
  unfold mbind at 1, HM_bind at 1, buffer_of. cbn [outputPool s2 set_currentHandle set_handle set_outputPool].
  destruct (handles p !! h) as [x|] eqn:Hx; [|done]. apply quiet_tame. fold s2. revert s2.
  assert (HW : given s (buf_id (buffer x))) by (unfold given, next_buffer; by rewrite Ha, Hx).
  assert (Hq : quietly (given s) (written ← native_call natives k u ip rid hs bd (buffer x);
      buf ← gets (λ s, content s (buffer x)); r ← lift (baked_refresh buf (default [] bd) written);
      modify (set_res r))); [|intros s2; apply Hq].
  apply (preserves_bind _); [by apply quietly_native_call|]. intros w. quiet.
Qed.

Lemma given_quiet s t : quiet nowhere s t → given t = given s.
Proof. intros Q. unfold given, next_buffer. by rewrite (q_pool _ _ _ Q). Qed.

Lemma tame_prepare s sc rq ip bd ridBytes rid :
  tame (given s) s (prepare natives runtime options sc rq ip bd ridBytes rid s).2.
Proof.
  unfold prepare. unfold mbind at 1, HM_bind at 1.
  pose proof (quietly_gather nowhere sc rq (method_kind (method rq)) s) as Q.
  destruct (gather options sc rq (method_kind (method rq)) s) as [[hdrs|e] s1]; cbn [fst snd] in *;
    [|by apply still_tame].
  assert (Q1 : tame (given s) s s1) by (by apply still_tame).
  etransitivity; [exact Q1|]. rewrite <-(given_quiet _ _ Q). unfold try_catch.
  pose proof (tame_native s1 (method_kind (method rq)) (if urlNeeded options then url rq else [])
    (if ipNeeded options then ip else None) ridBytes hdrs bd) as Hn.
  destruct (run_native _ _ _ _ _ _ _ _ s1) as [[[]|e] s2]; [done|]. etransitivity; [exact Hn|].
  refine ((_ : preserves (tame (given s1)) _) s2). unfold report_error. preserving.
Qed.

Lemma run_tame s sc rq ip bd fn : tame (given s) s (run natives runtime options sc rq ip bd fn s).2.
Proof.
  pose proof (start_quiet s rq ip) as Hst. unfold wp in Hst. unfold run. unfold mbind at 1, HM_bind at 1.
  destruct (start runtime options rq ip s) as [[ids|e] s1]; cbn [fst snd] in *;
    [|by apply still_tame].
  destruct Hst as (s' & Q & ->). set (s1 := set_responseBorrowsBuffer false _).
  assert (Q1 : tame (given s) s s1) by (etransitivity; [by apply still_tame|by apply tame_step]).
  assert (Eg : given s1 = given s) by (rewrite <-(given_quiet _ _ Q); done).
  etransitivity; [exact Q1|]. rewrite <-Eg. clearbody s1. unfold try_finally at 1, try_catch at 1.
  unfold mbind at 1, HM_bind at 1. pose proof (tame_prepare s1 sc rq ip bd ids.1 ids.2) as Hp.
  destruct (prepare natives runtime options sc rq ip bd ids.1 ids.2 s1) as [[[]|e] s2]; cbn [fst snd] in *.
  - pose proof (tame_callback (given s1) rq ip ids.2 fn s2) as Hc.
    destruct (try_finally _ end_callback s2) as [[a|e] s3]; cbn [fst snd] in *.
    + etransitivity; [exact Hp|]. etransitivity; [exact Hc|apply tame_release].
    + pose proof (tame_escaped (given s1) rq ids.2 e s3) as He.
      destruct (escaped runtime rq ids.2 e s3) as [r s4]. cbn [fst snd] in *.
      do 3 (etransitivity; [eassumption|]). apply tame_release.
  - pose proof (tame_escaped (given s1) rq ids.2 e s2) as He.
    destruct (escaped runtime rq ids.2 e s2) as [r s4]. cbn [fst snd] in *.
    do 2 (etransitivity; [eassumption|]). apply tame_release.
Qed.

(** No request of [ops] is given the buffer [b], and nothing happens to stream [i]. *)
Fixpoint spares (b : Uint8Array_) (i : nat) s (ops : list h_op) : Prop :=
  match ops with
  | [] => True
  | o :: ops =>
      match o with Run _ _ _ _ _ => ¬ given s (buf_id b) | StreamOp j _ => j ≠ i end ∧
      spares b i (h_step natives runtime options s o) ops
  end.

(** What is queued for the reader of stream [i] stays as it is until a request is given
    the buffer it is a view of. *)
Lemma readable_spared b i s ops st :
  bodies s !! i = Some st → Forall (eq b) (Response.queue (st_body st)) → spares b i s ops →
  readable i (foldl (h_step natives runtime options) s ops) = readable i s.
Proof.
  intros Hst Hq. revert s Hst. induction ops as [|o ops IH]; intros s Hst; [done|]. cbn [foldl spares].
  intros [Ho Hops].
  assert (Hstep : bodies (h_step natives runtime options s o) !! i = Some st ∧
            mem (h_step natives runtime options s o) !! buf_id b = mem s !! buf_id b).
  { destruct o as [sc rq ip bd fn|j e]; simpl in *.
    - destruct (run_tame s sc rq ip bd fn) as [Hb Hm]. split; [by eapply prefix_lookup_Some|by apply Hm].
    - rewrite stream_event_bodies, decide_False by done. split; [done|].
      destruct (stream_event_frame j e s) as (-> & _). done. }
  destruct Hstep as [Hst' Hm]. rewrite (IH _ Hst' Hops). unfold readable. rewrite Hst, Hst'.
  cbn [fmap option_fmap option_map]. f_equal. f_equal. apply list_fmap_ext. intros _ c Hc%list_elem_of_lookup_2.
  rewrite Forall_forall in Hq. apply Hq in Hc as <-. unfold content. by rewrite Hm.
Qed.

(** C32. A zero-copy body is the copy it saves.  If a request served without copying got
    a streamed body, the same request served by copying would have answered with some
    bytes; the stream's window of the pooled buffer holds these bytes as long as the
    body has not ended, whatever requests, failures and events on the delivered bodies
    come in between; and when the platform then pulls it, what its reader finds queued
    is exactly these bytes, once, followed by the end, over any requests and events,
    until a request is given the buffer: the pull has returned it to the pool, and a
    chunk that was not read by then is written over ([unread_chunk_overwritten]). *)
Theorem zero_copy_equals_copy O s0 sc rq ip bd st i s1 ops :
  reachable O s0 → ops_ok O s1 ops →
  run natives runtime options sc rq ip bd (serve_view st) s0 = (Ok (OutResponse (Resp st (StreamBody i))), s1) →
  let s2 := foldl (h_step natives runtime options) s1 ops in
  ∃ bs x, bs ≠ [] ∧
    (run natives runtime options sc rq ip bd (serve_copy st) s0).1 = Ok (OutResponse (Resp st (OwnBytes bs))) ∧
    bodies s2 !! i = Some x ∧
    (closure_released (st_body x) = false →
     window x s2 = bs ∧
     let s3 := stream_event i Pull s2 in
     readable i s3 = Some ([bs], true) ∧
     ∀ later, spares (body_bytes (st_body x)) i s3 later →
       readable i (foldl (h_step natives runtime options) s3 later) = Some ([bs], true)).
Proof.
  intros Hr Hops Hrun s2. pose proof (reachable_between O s0 Hr) as HB.
  destruct (serve_agree O s0 sc rq ip bd st i s1 HB Hrun) as (Hi & bs & x & Hne & Hcopy & Hx & Hw).
  assert (HB1 : between O s1).
  { pose proof (h_step_between O s0 (Run sc rq ip bd (serve_view st)) (serve_view_ok st) HB) as Hs.
    simpl in Hs. rewrite Hrun, app_nil_r in Hs. exact Hs. }
  assert (HO : i ∉ O).
  { destruct HB as [[_ Ho _] _]. rewrite Forall_forall in Ho. intros Hin%Ho. lia. }
  destruct (h_run_kept O s1 ops i x Hops HB1 HO Hx) as (x' & Hx' & Hk). fold s2 in Hx', Hk.
  exists bs, x'. do 3 (split; [done|]). intros Ho. destruct (Hk Ho) as [_ E].
  rewrite Hw in E. split; [done|]. intros s3.
  destruct (h_run_between O s1 ops Hops HB1) as [[Hbi _ _] _]. fold s2 in Hbi.
  destruct (Forall_lookup_1 _ _ _ _ Hbi Hx') as [_ Hopen]. destruct (Hopen Ho) as [Hc Hq].
  assert (Hs3 : bodies s3 !! i = Some (Strm (body_step (st_body x') Pull).1 (st_start x') (st_end x')) ∧ mem s3 = mem s2).
  { subst s3. rewrite stream_event_bodies, decide_True, Hx' by done. split; [done|].
    destruct (stream_event_frame i Pull s2) as (? & _). done. }
  clearbody s3. destruct Hs3 as [Hx3 Hm]. clear Hx' Hopen Hk.
  assert (Hq3 : readable i s3 = Some ([bs], true)).
  { unfold readable. rewrite Hx3. unfold content. rewrite Hm. unfold window, content in E.
    destruct x' as [[h b rel t q c] a z]. simpl in *. subst rel c q.
    unfold pull, closure_release, close, enqueue. simpl. by rewrite E. }
  split; [done|]. intros later Hsp. rewrite <-Hq3. eapply readable_spared; [exact Hx3| |exact Hsp].
  destruct x' as [[h b rel t q c] a z]. simpl in *. subst. unfold pull, closure_release, close, enqueue. simpl.
  by repeat constructor.
Qed.
End accounting.

(** * The C-ABI circuit breaker *)

Section breaker.
Context {EST : Estimator} {N H : Type}.
Context (natives : @Natives N) (runtime : @Runtime H) (options : Options).

(** The same native core, with a count of the failing C-ABI calls since the last
    one that succeeded. *)
Definition counted (f : @native_fn N) : @native_fn (N * Z) := λ n out,
  let '(r, out', n') := f n.1 out in (r, out', (n', if is_ok r then 0 else n.2 + 1)).
Definition uncounted (f : @native_fn N) : @native_fn (N * Z) := λ n out,
  let '(r, out', n') := f n.1 out in (r, out', (n', n.2)).

Definition counting : @Natives (N * Z) := {|
  bunFFI := (λ f, FFI
     ((λ g k u ip rid hs bd, counted (g k u ip rid hs bd)) <$> handleComponents f)
     (λ input bd, counted (ingressHandlePacked f input bd))) <$> bunFFI natives;
  ingressPtr := ingressPtr natives;
  handleRequestPacked := λ input bd, uncounted (handleRequestPacked natives input bd) |}.

Implicit Types s : @HandlerState EST (N * Z) H.

Definition breaker_ok s : Prop :=
  (native s).2 = ffiFailures s ∧ 0 ≤ ffiFailures s ≤ MAX_FFI_FAILURES ∧
  (ffiDisabled s = true ↔ ffiFailures s = MAX_FFI_FAILURES).

(** A step keeps the count honest, and a tripped breaker stays tripped. *)
Definition breaker_step s s' : Prop :=
  breaker_ok s → breaker_ok s' ∧ (ffiDisabled s = true → ffiDisabled s' = true).

#[export] Instance breaker_preorder : PreOrder breaker_step.
Proof.
  split; [by intros s Hs|]. intros s1 s2 s3 H12 H23 H1.
  destruct (H12 H1) as [H2 Hd]. destruct (H23 H2) as [H3 Hd']. auto.
Qed.

Definition breaker_view s := ((native s).2, ffiFailures s, ffiDisabled s).

Lemma breaker_same s s' : breaker_view s' = breaker_view s → breaker_step s s'.
Proof. unfold breaker_step, breaker_ok. intros [= -> -> ->]. done. Qed.

Lemma breaker_pack k u ip rid hs : preserves breaker_step (pack_request k u ip rid hs).
Proof.
  intros s. unfold pack_request. destruct (packParts _ _ _ _ _ _) as [[]|]; by apply breaker_same.
Qed.

Lemma breaker_napi f b : preserves breaker_step (call_native (uncounted f) b).
Proof.
  intros s. unfold call_native, uncounted. destruct (f _ _) as [[r out] n]. by apply breaker_same.
Qed.

(** A C-ABI call with its recovery: success resets the count, failure adds one
    and trips the breaker at the third. *)
Lemma breaker_ffi f b (recover : @HM EST (N * Z) H Z) s :
  ffiDisabled s = false → preserves breaker_step recover →
  breaker_step s
    (try_catch (call_native (counted f) b ≫= ffi_succeeded) (λ _, noteFfiFailure ;; recover) s).2.
Proof.
  intros Hd Hrec. unfold try_catch, mbind, HM_bind, call_native, counted.
  destruct (f _ _) as [[r out] n]. destruct r as [w|e]; cbn [is_ok].
  - unfold ffi_succeeded, breaker_step, breaker_ok, MAX_FFI_FAILURES; simpl.
    intros (_&_&Hi). rewrite Hd. split; [|done]. split; [done|]. split; [lia|]. split; [done|lia].
  - unfold noteFfiFailure. cbn [modify]. cbv zeta.
    etransitivity; [|apply Hrec]. unfold breaker_step, breaker_ok; simpl.
    intros (E & Hr & Hi). rewrite Hd in Hi |- *. split; [|done].
    assert (Hlt : ffiFailures s ≠ MAX_FFI_FAILURES) by (intros Ee; by apply Hi in Ee).
    unfold MAX_FFI_FAILURES in *. case_decide; simpl; rewrite ?Hd, E; split; [lia| |lia|].
    + split; [lia|]. split; [lia|done].
    + split; [lia|]. split; [done|lia].
Qed.

Lemma breaker_native_call k u ip rid hs bd b :
  preserves breaker_step (@native_call EST (N * Z) H counting k u ip rid hs bd b).
Proof.
  intros s. unfold native_call. unfold mbind at 1, HM_bind at 1. cbn [gets].
  assert (Hnapi : preserves breaker_step
    (input ← pack_request k u ip rid hs; @call_native EST (N*Z) H (handleRequestPacked counting input bd) b)).
  { apply (preserves_bind _); [apply breaker_pack|]. intros input. apply breaker_napi. }
  destruct (bunFFI counting) as [f|] eqn:Ef; [|apply Hnapi].
  destruct (bool_decide (ingressPtr counting ≠ 0)); [|apply Hnapi]. simpl.
  destruct (ffiDisabled s) eqn:Hd; [apply Hnapi|]. simpl.
  unfold counting in Ef; simpl in Ef. destruct (bunFFI natives) as [g|]; [|done].
  injection Ef as <-. simpl. destruct (handleComponents g) as [c|]; simpl.
  - apply breaker_ffi; [done|]. apply Hnapi.
  - unfold mbind at 1, HM_bind at 1. pose proof (breaker_pack k u ip rid hs s) as Hp.
    assert (Hd' : ffiDisabled (pack_request k u ip rid hs s).2 = ffiDisabled s).
    { unfold pack_request. by destruct (packParts _ _ _ _ _ _) as [[]|]. }
    destruct (pack_request k u ip rid hs s) as [[input|e] s1]; [|done]. simpl in Hp, Hd'.
    etransitivity; [exact Hp|]. apply breaker_ffi; [congruence|]. apply breaker_napi.
Qed.

Lemma breaker_run s ops : breaker_step s (foldl (h_step counting runtime options) s ops).
Proof.
  apply (h_run_preserves counting runtime options breaker_step).
  - intros s1 s2 [=]. apply breaker_same. unfold breaker_view. congruence.
  - intros n s1. unfold pool_acquire. destruct (acquire _ _) as [[]|]; by apply breaker_same.
  - intros h s1. by apply breaker_same.
  - apply breaker_native_call.
  - intros [f|] s1; [|by apply breaker_same]. unfold call_hook. destruct (f _). by apply breaker_same.
Qed.

(** The circuit breaker of the C-ABI transport: over any requests, callbacks
    and hooks, at most three of its calls fail in a row; the third failure
    disables it, and from then on it is never called again: no later request
    makes the count go up (a failing call) or back to 0 (a succeeding one). *)
Theorem ffi_breaker sc (n : N) (h : H) c cache s0 (ops ops' : list h_op) :
  createIngressHandler runtime options sc (n, 0) h c cache = Ok s0 →
  let s := foldl (h_step counting runtime options) s0 ops in
  0 ≤ (native s).2 ≤ MAX_FFI_FAILURES ∧
  (ffiDisabled s = true ↔ (native s).2 = MAX_FFI_FAILURES) ∧
  ((native s).2 = MAX_FFI_FAILURES →
   (native (foldl (h_step counting runtime options) s ops')).2 = MAX_FFI_FAILURES).
Proof.
  intros Hc s. assert (H0 : breaker_ok s0).
  { unfold createIngressHandler in Hc. apply bind_Ok in Hc as (cache' & _ & [= <-]). done. }
  destruct (breaker_run s0 ops H0) as [Hs _]. fold s in Hs. pose proof Hs as (E & Hr & Hi).
  rewrite E. split; [done|]. split; [done|]. intros Hm.
  destruct (breaker_run s ops' Hs) as [(E' & _ & Hi') Hd]. rewrite E'. apply Hi', Hd. by apply Hi.
Qed.
End breaker.

(** * A concrete handler *)

Lemma pair_fst {A B} (p : A * B) (a : A) : p.1 = a → p = (a, p.2).
Proof. destruct p. by intros [= ->]. Qed.

Section toy.

Definition toy_fields : HeaderFields := Fields 0 0 200 FLAG_CORS_ALLOWED 0 0 0 0 0 0 HV_JSON 3.

(** Writes a 200 whose body is three bytes. *)
Definition toy_core : @native_fn unit := λ n out,
  (Ok 51, splice out 0 (header_bytes toy_fields ++ [97; 98; 99]), n).
Definition toy_broken : @native_fn unit := λ n out, (Throw (JsError "Error" "native"), out, n).

Definition toy_natives : @Natives unit :=
  {| bunFFI := Some (FFI (Some (λ _ _ _ _ _ _, toy_broken)) (λ _ _, toy_broken)); ingressPtr := 1;
     handleRequestPacked := λ _ _, toy_core |}.
Definition toy_runtime : @Runtime unit :=
  {| onRequest := None; onResponse := None; onError := None; log_error := None; log_request := None;
     emitRequestIdHeader := false; zeroCopyTimeoutMs := 0; outputBufferSize := 64; maxInFlight_opt := 2 |}.
Definition toy_options : Options :=
  {| o_trust := TrustOptions None false None None None; o_parseQuery := None;
     o_emitMetadataJson := None; o_limit := None; o_allowOrigin := None |}.
Definition toy_request : Request := Req (js "GET") (js "https://a.example/x") (λ _, None).

Definition toy_state {N} (n : N) : @HandlerState adaptive_estimator N unit :=
  HS n tt (newIngressInputPacker 65536) [] (initial_counter 0 0)
    (newBufferPool 64 16 2 PREWARM_POOL_BUFFERS (Some PREWARM_POOL_BYTES) None)
    ∅ resetShared (BCtx None None) None None false 0 false [].

Definition toy_op (fn : IngressResultBase → BakedContext → script) : h_op :=
  Run (new_u8 64) toy_request None None fn.

Lemma toy_created {N} (n : N) :
  createIngressHandler toy_runtime toy_options [] n tt (initial_counter 0 0) [] = Ok (toy_state n).
Proof. reflexivity. Qed.

Lemma toy_reachable (ops : list h_op) :
  ops_ok toy_natives toy_runtime toy_options [] (toy_state tt) ops →
  reachable toy_natives toy_runtime toy_options (orphans toy_natives toy_runtime toy_options [] (toy_state tt) ops)
    (foldl (h_step toy_natives toy_runtime toy_options) (toy_state tt) ops).
Proof. intros Hops. exists [], tt, tt, (initial_counter 0 0), [], (toy_state tt), ops. done. Qed.

(** A callback that builds a zero-copy response and then throws. *)
Definition view_then_throw (r : IngressResultBase) (c : BakedContext) : script :=
  ZeroCopy 200 (λ _, Fails (JsError "Error" "late")).
Lemma view_then_throw_ok r c : script_ok false (view_then_throw r c).
Proof. constructor; intros; constructor. Qed.
End toy.

Local Notation toy_run natives fn :=
  (run natives toy_runtime toy_options (new_u8 64) toy_request None None fn).

(** A throw after a zero-copy response, and two zero-copy bodies outstanding: the cap of
    two is reached. *)
Lemma handler_balances_pool_witness :
  let ops := [toy_op view_then_throw; toy_op (serve_view 200); toy_op (serve_view 200); toy_op (serve_view 200)] in
  let O := orphans toy_natives toy_runtime toy_options [] (toy_state tt) ops in
  let s := foldl (h_step toy_natives toy_runtime toy_options) (toy_state tt) ops in
  inFlight (outputPool s) = zlen (leases_of O s) ∧ (O, zlen (leases_of O s)) = ([0%nat], 2).
Proof.
  intros ops O s. split; [|vm_compute; reflexivity].
  refine (proj1 (handler_balances_pool toy_natives toy_runtime toy_options O s _)).
  apply toy_reachable. split; [intros r c; apply view_then_throw_ok|].
  do 3 (split; [intros r c; apply serve_view_ok|]). exact I.
Defined.

Lemma zero_copy_equals_copy_witness :
  let s1 := (toy_run toy_natives (serve_view 200) (toy_state tt)).2 in
  let s2 := foldl (h_step toy_natives toy_runtime toy_options) s1 [toy_op (serve_copy 200)] in
  ∃ bs x, bs ≠ [] ∧ (toy_run toy_natives (serve_copy 200) (toy_state tt)).1 =
            Ok (OutResponse (Resp 200 (OwnBytes bs))) ∧
    bodies s2 !! 0%nat = Some x ∧
    (closure_released (st_body x) = false →
     window x s2 = bs ∧
     let s3 := stream_event 0 Pull s2 in
     readable 0 s3 = Some ([bs], true) ∧
     ∀ later, spares toy_natives toy_runtime toy_options (body_bytes (st_body x)) 0 s3 later →
       readable 0 (foldl (h_step toy_natives toy_runtime toy_options) s3 later) = Some ([bs], true)).
Proof.
  apply (zero_copy_equals_copy toy_natives toy_runtime toy_options [] (toy_state tt) (new_u8 64)
           toy_request None None 200 0 _ [toy_op (serve_copy 200)]).
  - apply (toy_reachable []). exact I.
  - split; [intros r c; apply serve_copy_ok|exact I].
  - refine (pair_fst (toy_run toy_natives (serve_view 200) (toy_state tt)) _ _).
    vm_compute. reflexivity.
Defined.

(** A native core whose body is the count of its calls. *)
Definition counting_natives : @Natives Z :=
  {| bunFFI := None; ingressPtr := 0;
     handleRequestPacked := λ _ _ n out, (Ok 49, splice out 0 (header_bytes (Fields 0 0 200 FLAG_CORS_ALLOWED 0 0 0 0 0 0 HV_JSON 1) ++ [n]), n + 1) |}.

(** A pulled chunk that waits for its reader is a view of a buffer the pool has back: the
    next request is given another one, the one after that, here served by copying,
    writes over the chunk. *)
Lemma unread_chunk_overwritten :
  let step := h_step counting_natives toy_runtime toy_options in
  let s1 := stream_event 0 Pull (step (toy_state 7) (toy_op (serve_view 200))) in
  let s2 := step s1 (toy_op (serve_copy 200)) in
  readable 0 s1 = Some ([[7]], true) ∧ readable 0 s2 = Some ([[7]], true) ∧
  spares counting_natives toy_runtime toy_options (Buf 0 64) 0 s1 [toy_op (serve_copy 200)] ∧
  readable 0 (step s2 (toy_op (serve_copy 200))) = Some ([[9]], true).
Proof.
  split; [vm_compute; reflexivity|]. split; [vm_compute; reflexivity|]. split; [|vm_compute; reflexivity].
  split; [vm_compute; discriminate|exact I].
Qed.

Example zero_copy_bytes :
  (toy_run toy_natives (serve_copy 200) (toy_state tt)).1 =
    Ok (OutResponse (Resp 200 (OwnBytes [97; 98; 99]))).
Proof. vm_compute. reflexivity. Qed.

(** Four requests over a broken C ABI: all are served, three calls fail. *)
Lemma ffi_breaker_witness :
  let s := foldl (h_step (counting toy_natives) toy_runtime toy_options) (toy_state (tt, 0))
             (replicate 4 (toy_op (serve_copy 200))) in
  0 ≤ (native s).2 ≤ MAX_FFI_FAILURES ∧ (native s).2 = MAX_FFI_FAILURES.
Proof.
  intros s. split; [|vm_compute; reflexivity].
  apply (ffi_breaker toy_natives toy_runtime toy_options [] tt tt (initial_counter 0 0) []
           (toy_state (tt, 0)) (replicate 4 (toy_op (serve_copy 200))) []).
  reflexivity.
Defined.

(** ** What an event on an orphaned stream does *)

(** A callback that throws after it built a zero-copy response leaves a live
    stream behind: [run] takes the buffer back without telling the stream, whose
    pending [pull] then releases the recycled handle under the next borrower.
    Here the body of a second request loses its buffer that way: the buffer is free
    for anyone while the body has still to serve it, and the body of a third
    request shares its handle. *)
Theorem late_throw_frees_next_body :
  let step := h_step toy_natives toy_runtime toy_options in
  let s1 := step (toy_state tt) (toy_op view_then_throw) in     (* throws, leaves stream 0 *)
  let s2 := step s1 (toy_op (serve_view 200)) in                (* body 1 borrows *)
  let s3 := step s2 (StreamOp 0 Pull) in                        (* stream 0 is pulled *)
  let s4 := step s3 (toy_op (serve_view 200)) in                (* body 2 borrows *)
  is_ok (toy_run toy_natives view_then_throw (toy_state tt)).1 = false ∧
  inFlight (outputPool s2) = 1 ∧ inFlight (outputPool s3) = 0 ∧
  (∃ b, (body_bytes ∘ st_body <$> bodies s3) !! 1%nat = Some b ∧ b ∈ free (outputPool s3)) ∧
  (∃ h, (λ st, (closure_released (st_body st), body_handle (st_body st))) <$> bodies s4 =
        [(true, h); (false, h); (false, h)]).
Proof.
  intros step s1 s2 s3 s4. split; [vm_compute; reflexivity|].
  split; [vm_compute; reflexivity|]. split; [vm_compute; reflexivity|]. split.
  - exists (Buf 15 64). split; [vm_compute; reflexivity|].
    apply (bool_decide_unpack _). vm_compute. exact I.
  - exists 0%nat. vm_compute. reflexivity.
Qed.
