(* ===== verification/IngressMetrics.v ===== *)
(** The metrics hooks of the pre-baked handler (src/ingress/metrics.ts): a metrics
    registry, the requests in progress keyed by request id, and the [onRequest],
    [onResponse] and [onError] hooks that [run] calls.  [performance.now()] is a
    parameter, read at successive ticks. *)

From stdpp Require Import pretty.
From Stdlib Require Import PrimFloat.
From S2P Require Import Prelude.
From S2P Require Import JsMap.
From S2P Require Import Utf8.
From S2P Require Import Wire.
From S2P Require Import Adaptive.
From S2P Require Import Pool.
From S2P Require Import Response.
From S2P Require Import Layout.
From S2P Require Import Decode.
From S2P Require Import Packing.
From S2P Require Import RequestId.
From S2P Require Import JsString.
From S2P Require Import Metrics.
From S2P Require Import Handler.
From S2P Require Import HandlerLogic.
From S2P Require Import HandlerSpec.
Import Packer Select.

Record MetricsState := MState {
  registry : MetricsRegistry;
  active : list (list Z * float);
  ticks : nat }.

(** The handles, as the registry numbers them. *)
Record IngressHandles := IHandles {
  requestsTotal : nat; requestDuration : nat; errorsTotal : nat;
  rateLimitedTotal : nat; inFlightGauge : nat }.

Definition createIngressMetrics : IngressHandles * MetricsState :=
  let '(rt, r) := counter (js "castrum_http_requests_total")
                    (js "Total ingress requests processed.") [js "method"; js "status"] createMetrics in
  let '(rd, r) := histogram (js "castrum_http_request_duration_seconds")
                    (js "Ingress request latency in seconds.") (Some DEFAULT_BUCKETS)
                    [js "method"; js "status"] r in
  let '(et, r) := counter (js "castrum_http_errors_total") (js "Total internal/terminal errors.")
                    [js "code"] r in
  let '(rl, r) := counter (js "castrum_http_rate_limited_total")
                    (js "Total requests rejected by the rate limiter (429).") [] r in
  let '(fl, r) := gauge (js "castrum_http_in_flight_requests")
                    (js "Requests currently being processed.") [] r in
  (IHandles rt rd et rl fl, MState r [] 0).

Definition error_name (e : js_error) : list Z :=
  match e with
  | RangeError _ => js "RangeError"
  | TypeError _ => js "TypeError"
  | JsError n _ => js n
  end.

Section hooks.
Context (now : nat → float).

Definition the_handles : IngressHandles := createIngressMetrics.1.

Definition upd (f : MetricsRegistry → MetricsRegistry) (m : MetricsState) : MetricsState :=
  MState (f (registry m)) (active m) (ticks m).

Definition m_onRequest (rq : Request) (rid : list Z) (ip : option (list Z)) (m : MetricsState)
    : result unit * MetricsState :=
  let m := if decide (rid = []) then m
           else MState (registry m) (mset rid (now (ticks m)) (active m)) (S (ticks m)) in
  (Ok tt, upd (add (inFlightGauge the_handles) None 1) m).

Definition m_onResponse (rq : Request) (r : IngressResultBase) (st : Z) (rid : list Z) (m : MetricsState)
    : result unit * MetricsState :=
  let labels := Some [(js "method", method rq); (js "status", dec st)] in
  let m := upd (add (requestsTotal the_handles) labels 1) m in
  let started := if decide (rid = []) then None else mget rid (active m) in
  let m := match started with
           | Some t0 =>
               let m := upd (gauge_dec (inFlightGauge the_handles) None 1)
                          (MState (registry m) (mdel rid (active m)) (ticks m)) in
               let d := PrimFloat.sub (now (ticks m)) t0 in
               let d := if PrimFloat.ltb d 0%float then 0%float else d in
               upd (observe (requestDuration the_handles) (PrimFloat.div d 1000%float) labels)
                 (MState (registry m) (active m) (S (ticks m)))
           | None => m
           end in
  (Ok tt, if rateLimited r then upd (add (rateLimitedTotal the_handles) None 1) m else m).

Definition m_onError (rq : Request) (rid : list Z) (e : js_error) (m : MetricsState)
    : result unit * MetricsState :=
  let m := if bool_decide (rid ≠ []) && mhas rid (active m)
           then upd (gauge_dec (inFlightGauge the_handles) None 1)
                  (MState (registry m) (mdel rid (active m)) (ticks m))
           else m in
  (Ok tt, upd (add (errorsTotal the_handles) (Some [(js "code", error_name e)]) 1) m).

(** [createIngressHandler(options, { ...m.runtime, ... })]. *)
Definition metrics_runtime (emit : bool) (timeoutMs size maxf : Z) : @Runtime MetricsState :=
  {| onRequest := Some m_onRequest; onResponse := Some m_onResponse; onError := Some m_onError;
     log_error := None; log_request := None; emitRequestIdHeader := emit;
     zeroCopyTimeoutMs := timeoutMs; outputBufferSize := size; maxInFlight_opt := maxf |}.

(** ** The in-flight gauge *)

(** The gauge shows [v]: its only series is the one without labels. *)
Definition gauge_shows (v : Z) (r : MetricsRegistry) : Prop :=
  ∃ x, fams r !! inFlightGauge the_handles = Some x ∧ f_labels x = [] ∧
    (f_values x = [([], v)] ∨ f_values x = [] ∧ v = 0).

Lemma add_other f l b v r : f ≠ inFlightGauge the_handles → gauge_shows v r → gauge_shows v (add f l b r).
Proof.
  intros Hne (x & Hx & Hl & Hv). unfold add. destruct (fams r !! f) as [y|]; [|by exists x].
  exists x. split; [|done].
  case_match; [|destruct (evictOldestHalf _)]; simpl; by rewrite list_lookup_insert_ne.
Qed.

Lemma add_gauge b v r :
  gauge_shows v r → gauge_shows (v + b) (add (inFlightGauge the_handles) None b r).
Proof.
  intros (x & Hx & Hl & Hv). unfold add. rewrite Hx, Hl. apply lookup_lt_Some in Hx as Hlt.
  change (labelKey [] (label_values [] None)) with (@nil Z).
  destruct Hv as [Hv|[Hv ->]]; rewrite Hv; simpl.
  - exists (with_values x [([], v + b)]). simpl. rewrite list_lookup_insert_eq by done. auto.
  - exists (with_values x [([], b)]). simpl. rewrite list_lookup_insert_eq by done. auto.
Qed.

Lemma observe_gauge h d l v r : gauge_shows v r → gauge_shows v (observe h d l r).
Proof.
  intros (x & Hx & Hv). unfold observe. destruct (hists r !! h) as [y|]; [|by exists x].
  case_match. repeat match goal with p : (_ * _)%type |- _ => destruct p end. by exists x.
Qed.

(** A request in progress counts one; afterwards it counts nothing. *)
Definition resting (m : MetricsState) : Prop := active m = [] ∧ gauge_shows 0 (registry m).
Definition pending (rid : list Z) (m : MetricsState) : Prop :=
  ∃ t, active m = [(rid, t)] ∧ gauge_shows 1 (registry m).
Definition alive (rid : list Z) (m : MetricsState) : Prop := resting m ∨ pending rid m.

Lemma onRequest_pending rq rid ip m :
  rid ≠ [] → resting m → pending rid (m_onRequest rq rid ip m).2.
Proof.
  intros Hr [Ha Hg]. unfold m_onRequest. rewrite decide_False by done. simpl. rewrite Ha.
  exists (now (ticks m)). split; [done|]. by apply (add_gauge 1 0).
Qed.

Lemma onError_resting rq rid e m : rid ≠ [] → alive rid m → resting (m_onError rq rid e m).2.
Proof.
  intros Hr [[Ha Hg]|(t & Ha & Hg)]; unfold m_onError, mhas; rewrite Ha; simpl.
  - rewrite andb_false_r. split; [done|]. by apply add_other.
  - rewrite bool_decide_true by done. rewrite decide_True by done. simpl.
    split; [cbn [upd active]; by rewrite decide_True|].
    apply add_other; [done|]. by apply (add_gauge (-1) 1).
Qed.

Lemma onResponse_resting rq r st rid m : rid ≠ [] → alive rid m → resting (m_onResponse rq r st rid m).2.
Proof.
  intros Hr Hal.
  assert (Hrl : ∀ m', resting m' → resting (if rateLimited r
            then upd (add (rateLimitedTotal the_handles) None 1) m' else m')).
  { intros m' [Ha Hg]. case_match; [|done]. split; [done|]. by apply add_other. }
  unfold m_onResponse. rewrite decide_False by done. cbn [snd]. apply Hrl. clear Hrl.
  destruct Hal as [[Ha Hg]|(t & Ha & Hg)]; cbn [upd active]; rewrite Ha; simpl.
  - split; [done|]. by apply add_other.
  - rewrite decide_True by done. split; [cbn [upd active]; by rewrite decide_True|]. simpl.
    apply observe_gauge. apply (add_gauge (-1) 1). by apply add_other.
Qed.

(** ** Every request ends its accounting exactly once *)

Context {EST : Estimator} {N : Type}.
Context (natives : @Natives N) (options : Options) (emit : bool) (timeoutMs size maxf : Z).
Notation runtime := (metrics_runtime emit timeoutMs size maxf).
Implicit Types s : @HandlerState EST N MetricsState.

Notation keeps_hooks := (same (@hookState EST N MetricsState)).

Lemma hooks_shared s s' : shared s' = shared s → keeps_hooks s s'.
Proof. by intros [=]. Qed.
Lemma hooks_acquire n : preserves keeps_hooks (pool_acquire n).
Proof. intros s. unfold pool_acquire. by destruct (acquire _ _) as [[]|]. Qed.
Lemma hooks_release h s : keeps_hooks s (pool_release h s).
Proof. done. Qed.
Lemma hooks_call_native f b : preserves keeps_hooks (call_native f b).
Proof. intros s. unfold call_native. by destruct (f _ _) as [[]]. Qed.
Lemma hooks_pack k u ip rid hs : preserves keeps_hooks (pack_request k u ip rid hs).
Proof. intros s. unfold pack_request. by destruct (packParts _ _ _ _ _ _) as [[]|]. Qed.
Lemma hooks_note : preserves keeps_hooks noteFfiFailure.
Proof. apply preserves_modify. intros s. cbv zeta. by case_decide. Qed.
Hint Resolve hooks_acquire hooks_call_native hooks_pack hooks_note : preserves.
Hint Extern 1 (preserves keeps_hooks (modify _)) => (apply preserves_modify; intros ?; reflexivity) : preserves.

Lemma hooks_gather sc rq k : preserves keeps_hooks (gather options sc rq k).
Proof. apply R_gather, hooks_shared. Qed.
Lemma hooks_next_id : preserves keeps_hooks next_request_id.
Proof. apply R_next_id, hooks_shared. Qed.
Lemma hooks_exec sc : preserves keeps_hooks (exec runtime sc).
Proof. apply (R_exec runtime keeps_hooks); [apply hooks_shared|apply hooks_release]. Qed.
Hint Resolve hooks_gather hooks_next_id hooks_exec : preserves.

Lemma hooks_native_call k u ip rid hs bd b : preserves keeps_hooks (native_call natives k u ip rid hs bd b).
Proof.
  unfold native_call, ffi_succeeded. preserving.
  destruct (bunFFI natives) as [f|]; [|preserving]. case_match; [|preserving].
  destruct (handleComponents f); preserving.
Qed.
Hint Resolve hooks_native_call : preserves.

Lemma hooks_run_native k u ip rid hs bd : preserves keeps_hooks (run_native natives runtime k u ip rid hs bd).
Proof. unfold run_native. preserving. Qed.

Lemma hooks_assert out : preserves keeps_hooks (assertSyncCallback out).
Proof. unfold assertSyncCallback. case_match; preserving. Qed.

(** A computation that calls no hook carries any fact about their state. *)
Lemma keeps_state (P : MetricsState → Prop) {A} (m : @HM EST N MetricsState A) s :
  preserves keeps_hooks m → P (hookState s) → wp m (λ _ s', P (hookState s')) s.
Proof. intros Hm HP. unfold wp. pose proof (Hm s) as E. unfold same in E. by rewrite E. Qed.

(** A hook call moves the state by its function and answers [Ok]. *)
Lemma hook_state (f : MetricsState → result unit * MetricsState) (P : MetricsState → Prop) s :
  (f (hookState s)).1 = Ok tt → P (f (hookState s)).2 →
  wp (call_hook (Some f)) (λ r s', r = Ok tt ∧ P (hookState s')) s.
Proof.
  intros H1 H2. unfold wp, call_hook. by destruct (f (hookState s)) as [r h] eqn:E; simpl in *; subst.
Qed.

Lemma generate_nonempty (c : counter_state) : (generateRequestId c).1 ≠ [].
Proof. done. Qed.

Lemma needs_id : needRequestIdString runtime = true.
Proof. unfold needRequestIdString. cbn [emitRequestIdHeader onRequest metrics_runtime]. by destruct emit. Qed.

Lemma metrics_start s rq ip :
  resting (hookState s) →
  wp (start runtime options rq ip)
    (λ r s', ∃ ids, r = Ok ids ∧ ids.2 ≠ [] ∧ pending ids.2 (hookState s')) s.
Proof.
  intros Hr. unfold start. apply wp_bind. unfold wp at 1, next_request_id.
  destruct (generateRequestId (ridCounter s)) as [rid c] eqn:Eg. cbn [fst snd].
  assert (Hne : rid ≠ []).
  { pose proof (generate_nonempty (ridCounter s)) as Hn. by rewrite Eg in Hn. }
  cbv zeta. rewrite needs_id.
  apply wp_bind. unfold wp at 1; cbn [modify fst snd].
  apply wp_bind. cbn [onRequest metrics_runtime fmap option_fmap option_map]. eapply wp_mono.
  { apply (hook_state _ (pending rid)); [done|]. by apply onRequest_pending. }
  cbn beta. intros ? s' [-> Hp]. apply wp_bind. unfold wp at 1; cbn [modify fst snd].
  unfold wp; cbn [mret HM_ret fst snd]. by eexists.
Qed.

Lemma metrics_report s rq rid e :
  rid ≠ [] → alive rid (hookState s) →
  wp (report_error runtime rq rid e) (λ r s', r = Ok tt ∧ resting (hookState s')) s.
Proof.
  intros Hr Ha. unfold report_error. apply wp_bind. cbn [onError metrics_runtime fmap option_fmap option_map].
  eapply wp_mono; [apply (hook_state _ resting); [done|by apply onError_resting]|].
  cbn beta. intros ? s' [-> Hp]. by split.
Qed.

Lemma metrics_prepare s sc rq ip bd ids :
  ids.2 ≠ [] → alive ids.2 (hookState s) →
  wp (prepare natives runtime options sc rq ip bd ids.1 ids.2) (λ _ s', alive ids.2 (hookState s')) s.
Proof.
  intros Hr Ha. unfold prepare. apply wp_bind.
  eapply wp_mono; [by apply (keeps_state (alive ids.2)); [apply hooks_gather|]|].
  cbn beta. intros [hdrs|e] s1 Ha1; [|done]. apply wp_try_catch.
  eapply wp_mono; [by apply (keeps_state (alive ids.2)); [apply hooks_run_native|]|].
  cbn beta. intros [[]|e] s2 Ha2; [done|]. apply wp_bind. unfold wp at 1; cbn [modify fst snd].
  eapply wp_mono; [by apply metrics_report|]. cbn beta. intros r s3 [_ H3]. by left.
Qed.

Lemma metrics_callback s rq ip rid fn :
  rid ≠ [] → alive rid (hookState s) →
  wp (run_callback runtime rq ip rid fn)
    (λ r s', if is_ok r then resting (hookState s') else alive rid (hookState s')) s.
Proof.
  intros Hr Ha. unfold run_callback.
  apply wp_bind. unfold wp at 1; cbn [gets fst snd]. apply wp_bind. unfold wp at 1; cbn [gets fst snd].
  apply wp_bind. eapply wp_mono; [by apply (keeps_state (alive rid)); [apply hooks_exec|]|].
  cbn beta. intros [out|e] s1 Ha1; [|done].
  apply wp_bind. eapply wp_mono; [by apply (keeps_state (alive rid)); [apply hooks_assert|]|].
  cbn beta. intros [[]|e] s2 Ha2; [|done]. cbv zeta. apply wp_bind.
  cbn [onResponse log_request metrics_runtime fmap option_fmap option_map].
  eapply wp_mono; [apply (hook_state _ resting); [done|by apply onResponse_resting]|].
  cbn beta. intros ? s3 [-> H3]. done.
Qed.

Lemma metrics_run s sc rq ip bd fn :
  resting (hookState s) → wp (run natives runtime options sc rq ip bd fn) (λ _ s', resting (hookState s')) s.
Proof.
  intros Hr. unfold run. apply wp_bind. eapply wp_mono; [by apply metrics_start|].
  cbn beta. intros ? s1 (ids & -> & Hne & Hp).
  assert (Hrel : ∀ s, hookState (release_unless_borrowed s) = hookState s).
  { intros s2. unfold release_unless_borrowed. by repeat case_match. }
  assert (Hesc : ∀ e s, alive ids.2 (hookState s) →
    wp (escaped runtime rq ids.2 e) (λ _ s', resting (hookState (release_unless_borrowed s'))) s).
  { intros e s2 Ha. unfold escaped. apply wp_bind. unfold wp at 1; cbn [modify fst snd]. apply wp_bind.
    eapply wp_mono; [apply metrics_report; [done|]; by repeat case_match|].
    cbn beta. intros ? s3 [-> H3]. unfold wp; cbn [throw fst snd]. by rewrite Hrel. }
  apply wp_try_finally, wp_try_catch, wp_bind.
  eapply wp_mono; [apply metrics_prepare; [done|by right]|]. cbn beta.
  intros [[]|e] s2 Ha; [|by apply Hesc]. apply wp_try_finally.
  eapply wp_mono; [by apply metrics_callback|]. cbn beta.
  intros [out|e] s3 H3; cbn [is_ok] in H3; [by rewrite Hrel|by apply Hesc].
Qed.

(** C33. Every request ends its in-flight accounting exactly once: with the metrics
    hooks attached, after any sequence of requests, over any native core and any
    callbacks (native failures that report an error and still respond, throwing and
    asynchronous callbacks, both hooks or only one of them called), no request is
    left in progress and the in-flight gauge shows 0. *)
Theorem in_flight_settles sc (n : N) c cache s0 (ops : list h_op) :
  createIngressHandler runtime options sc n createIngressMetrics.2 c cache = Ok s0 →
  let s := foldl (h_step natives runtime options) s0 ops in
  active (hookState s) = [] ∧ gauge_shows 0 (registry (hookState s)).
Proof.
  intros Hc. assert (H0 : resting (hookState s0)).
  { unfold createIngressHandler in Hc. apply bind_Ok in Hc as (cache' & _ & [= <-]).
    split; [done|]. eexists. split; [reflexivity|]. split; [done|]. by right. }
  cbv zeta. clear Hc. revert s0 H0. induction ops as [|o ops IH]; intros s0 H0; [done|].
  simpl. apply IH. destruct o as [sc' rq ip bd fn|i e]; [by apply metrics_run|]. simpl.
  destruct (stream_event_frame i e s0) as (_&_&_&->&_). done.
Qed.
End hooks.

(** ** A concrete run *)

Definition toy_metrics_runtime : @Runtime MetricsState := metrics_runtime (λ _, 0%float) false 0 64 2.
Definition toy_metrics_state : @HandlerState adaptive_estimator unit MetricsState :=
  HS tt createIngressMetrics.2 (newIngressInputPacker 65536) [] (initial_counter 0 0)
    (newBufferPool 64 16 2 PREWARM_POOL_BUFFERS (Some PREWARM_POOL_BYTES) None)
    ∅ resetShared (BCtx None None) None None false 0 false [].

Definition throwing_callback (r : IngressResultBase) (c : BakedContext) : script :=
  Fails (JsError "Error" "route").

Lemma in_flight_settles_witness :
  let s := foldl (h_step toy_natives toy_metrics_runtime toy_options) toy_metrics_state
             [toy_op (serve_view 200); toy_op throwing_callback] in
  active (hookState s) = [] ∧ gauge_shows 0 (registry (hookState s)).
Proof.
  apply (in_flight_settles (λ _, 0%float) toy_natives toy_options false 0 64 2 [] tt
           (initial_counter 0 0) [] toy_metrics_state [toy_op (serve_view 200); toy_op throwing_callback]).
  reflexivity.
Defined.

(** A request that ends with a throwing callback appears in the error counter but
    not in [castrum_http_requests_total]. *)
Example throwing_request_uncounted :
  let s := h_step toy_natives toy_metrics_runtime toy_options toy_metrics_state (toy_op throwing_callback) in
  f_values <$> fams (registry (hookState s)) =
    [[]; [(js "code=" ++ [QUOTE] ++ js "Error" ++ [QUOTE], 1)]; []; [([], 0)]].
Proof. vm_compute. reflexivity. Qed.
