(* ===== verification/Options.v ===== *)
(** Fail-fast validation of the ingress options (src/ingress/options.ts) and the
    checks at the head of [createIngressFast] (src/ingress/fast.ts).

    An options object is the list of its own properties in [Object.keys] order; the
    once-per-process warning flags are a state. *)

From S2P Require Import Prelude.
From S2P Require Import JsMap.
From S2P Require Import Layout.

Inductive opt_value :=
  | OUndefined
  | ONumber (n : js_number)
  | OBoolean (b : bool)
  | OObject (fields : list (string * opt_value))
  | OOther.

Definition options_object := list (string * opt_value).

(** [o[k]] for the names read here (none is a member of [Object.prototype]). *)
Definition field (k : string) (o : list (string * opt_value)) : opt_value := default OUndefined (mget k o).
(** [v?.[k]]: what is not an object has no such property. *)
Definition inner (v : opt_value) (k : string) : opt_value :=
  match v with OObject f => field k f | _ => OUndefined end.

Definition KNOWN_INGRESS_OPTION_KEYS : list string :=
  ["trustProxy"; "trustedProxies"; "parseCookies"; "parseQuery"; "requireJsonBody"; "schema"; "cors";
   "rateLimit"; "security"; "https"; "maxBodyBytes"; "enableSecurityHeaders"; "enableRequestIds";
   "enableBodySizeGuard"; "emitMetadataJson"; "readBody"; "outputBufferSize"; "bodyTimeoutMs";
   "onError"; "onRequest"; "onResponse"; "limits"; "warmOnCreate"]%string.

(** [[...keys].sort().join(', ')] *)
Fixpoint insert_key (k : string) (l : list string) : list string :=
  match l with
  | [] => [k]
  | x :: l' => if String.leb k x then k :: l else x :: insert_key k l'
  end.
Definition known_options : string :=
  String.concat ", " (foldr insert_key [] KNOWN_INGRESS_OPTION_KEYS).

(** The [for ... of Object.keys(options)] loop. *)
Fixpoint assertKnownIngressOptions (label : string) (o : options_object) : result unit :=
  match o with
  | [] => Ok tt
  | (key, _) :: o' =>
      guard_ok (bool_decide (key ∈ KNOWN_INGRESS_OPTION_KEYS))
        (TypeError (label +:+ ": unknown option '" +:+ key +:+ "'. Known options: " +:+ known_options)) ;;
      assertKnownIngressOptions label o'
  end.

(** The paths, split at their dot. *)
Definition NON_NEGATIVE_NUMBER_OPTIONS : list (string * option string) :=
  [("maxBodyBytes", None); ("bodyTimeoutMs", None); ("outputBufferSize", None);
   ("rateLimit", Some "limit"); ("rateLimit", Some "windowMs"); ("rateLimit", Some "maxEntries");
   ("limits", Some "maxUrlBytes"); ("limits", Some "maxQueryBytes"); ("limits", Some "maxCookieBytes");
   ("limits", Some "maxHeadersBytes"); ("limits", Some "maxHeaders"); ("limits", Some "maxPairs")]%string.

Definition path_name (p : string * option string) : string :=
  match p.2 with Some i => p.1 +:+ "." +:+ i | None => p.1 end.
Definition at_path (o : options_object) (p : string * option string) : opt_value :=
  match p.2 with Some i => inner (field p.1 o) i | None => field p.1 o end.

(** [Number.isFinite(v) && v >= 0] *)
Definition good_number (n : js_number) : bool :=
  match n with Finite z => bool_decide (0 ≤ z) | _ => false end.

Section checks.
Variable show : js_number → string.        (* [`${value}`] *)

Definition assertNonNegativeNumber (value : opt_value) (path label : string) : result unit :=
  match value with
  | ONumber n =>
      guard_ok (good_number n)
        (TypeError (label +:+ ": option '" +:+ path +:+
           "' must be a finite, non-negative number (got " +:+ show n +:+ ")."))
  | _ => Ok tt
  end.

Fixpoint assert_values (ps : list (string * option string)) (o : options_object) (label : string)
    : result unit :=
  match ps with
  | [] => Ok tt
  | p :: ps' => assertNonNegativeNumber (at_path o p) (path_name p) label ;; assert_values ps' o label
  end.
Definition assertIngressOptionValues (o : options_object) (label : string) : result unit :=
  assert_values NON_NEGATIVE_NUMBER_OPTIONS o label.

(** [trustProxyWarned], [rateLimitNoIpWarned], and the warnings written. *)
Record warn_state := Warn { trustProxyWarned : bool; rateLimitNoIpWarned : bool; warnings : nat }.
Definition warnTrustProxyDeprecated (w : warn_state) : warn_state :=
  if trustProxyWarned w then w else Warn true (rateLimitNoIpWarned w) (S (warnings w)).
Definition warnRateLimitWithoutGetIp (w : warn_state) : warn_state :=
  if rateLimitNoIpWarned w then w else Warn (trustProxyWarned w) true (S (warnings w)).

Definition is_defined (v : opt_value) : bool := match v with OUndefined => false | _ => true end.

Definition security_message : string :=
  "createIngressFast: `security` / `enableSecurityHeaders` are not " +:+
  "supported on the raw fast path (it returns a decoded result, not a " +:+
  "Response). Use `createIngress` or `createIngressHandler` to apply " +:+
  "security headers, or emit them yourself via `buildResponseContext` " +:+
  "and `headersForResult`.".

(** The head of [createIngressFast]; the options have the types the interface
    declares ([trustProxy] a boolean, [outputBufferSize] a number).  The answer is the size given to the output
    buffer ([outputBufferSize ?? DEFAULT], clamped). *)
Definition check_fast_options (o : options_object) (w : warn_state) : result js_number * warn_state :=
  match (assertKnownIngressOptions "createIngressFast" o ;;
         assertIngressOptionValues o "createIngressFast") with
  | Throw e => (Throw e, w)
  | Ok _ =>
      let w := match field "trustProxy" o with
               | OBoolean true => warnTrustProxyDeprecated w
               | _ => w
               end in
      if is_defined (field "security" o) || is_defined (field "enableSecurityHeaders" o) then
        (Throw (TypeError security_message), w)
      else
        (Ok (clampIngressBufferSize
               match field "outputBufferSize" o with ONumber n => n | _ => Finite 262144 end
               OUT_DATA_START), w)
  end.

(** ** Correctness *)

Lemma guard_ok_iff (c : bool) e : guard_ok c e = Ok tt ↔ c = true.
Proof. destruct c; naive_solver. Qed.

Lemma unit_bind_Ok {A} (m : result unit) (k : result A) a : (m ;; k) = Ok a ↔ m = Ok tt ∧ k = Ok a.
Proof. rewrite bind_Ok. split; [intros ([] & ? & ?)|intros [? ?]; exists tt]; done. Qed.

Lemma known_iff label o :
  assertKnownIngressOptions label o = Ok tt ↔ Forall (λ e, e.1 ∈ KNOWN_INGRESS_OPTION_KEYS) o.
Proof.
  induction o as [|[k v] o IH]; [by split|]. cbn [assertKnownIngressOptions].
  rewrite unit_bind_Ok, guard_ok_iff, IH, Forall_cons. cbn [fst].
  by rewrite bool_decide_eq_true.
Qed.

Lemma value_iff v path label :
  assertNonNegativeNumber v path label = Ok tt ↔ ∀ n, v = ONumber n → good_number n = true.
Proof.
  destruct v as [|n| | |]; cbn [assertNonNegativeNumber]; [naive_solver| |naive_solver..].
  rewrite guard_ok_iff. naive_solver.
Qed.

Lemma values_iff ps o label :
  assert_values ps o label = Ok tt ↔
  Forall (λ p, ∀ n, at_path o p = ONumber n → good_number n = true) ps.
Proof.
  induction ps as [|p ps IH]; [by split|]. cbn [assert_values].
  by rewrite unit_bind_Ok, value_iff, IH, Forall_cons.
Qed.

(** The options are accepted exactly when every key is known, every numeric option at
    every listed path is finite and not negative and no security option is set; the
    output buffer then has room for the native header and at most 64 MiB (the clamp
    alone would let a NaN through). *)
Theorem fast_options_accepted (o : options_object) (w : warn_state) (size : js_number) (w' : warn_state) :
  check_fast_options o w = (Ok size, w') →
  Forall (λ e, e.1 ∈ KNOWN_INGRESS_OPTION_KEYS) o ∧
  Forall (λ p, ∀ n, at_path o p = ONumber n → good_number n = true) NON_NEGATIVE_NUMBER_OPTIONS ∧
  field "security" o = OUndefined ∧ field "enableSecurityHeaders" o = OUndefined ∧
  ∃ z, size = Finite z ∧ OUT_DATA_START ≤ z ≤ MAX_OUTPUT_BUFFER_SIZE.
Proof.
  unfold check_fast_options. destruct (_ ;; _) as [[]|e] eqn:E; [|by intros [=]].
  apply unit_bind_Ok in E as [Hk%known_iff Hv%values_iff].
  destruct (is_defined _ || is_defined _) eqn:Ed; [by intros [=]|]. intros [= <- _].
  apply orb_false_iff in Ed as [E1 E2].
  split; [done|]. split; [done|].
  split; [by destruct (field "security" o)|].
  split; [by destruct (field "enableSecurityHeaders" o)|].
  destruct (field "outputBufferSize" o) as [|n| | |] eqn:Eo;
    try (eexists; split; [reflexivity|]; vm_compute; split; congruence).
  assert (Hn : good_number n = true).
  { rewrite Forall_forall in Hv. apply (Hv ("outputBufferSize"%string, None)); [|done].
    by apply (bool_decide_unpack _); vm_compute. }
  destruct n as [| | |z]; try done. eexists. split; [reflexivity|].
  assert (OUT_DATA_START = 48) by reflexivity. assert (MAX_OUTPUT_BUFFER_SIZE = 67108864) by reflexivity.
  lia.
Qed.

Lemma fast_options_rejected (o : options_object) (w : warn_state) e w' :
  check_fast_options o w = (Throw e, w') → ∃ msg, e = TypeError msg.
Proof.
  unfold check_fast_options.
  assert (Hk : ∀ label o e, assertKnownIngressOptions label o = Throw e → ∃ m, e = TypeError m).
  { intros label o' e'. induction o' as [|[k v] o' IH]; [done|]. cbn [assertKnownIngressOptions].
    destruct (bool_decide _); cbn [guard_ok]; [apply IH|]. intros [= <-]. eauto. }
  assert (Hv : ∀ ps o label e, assert_values ps o label = Throw e → ∃ m, e = TypeError m).
  { intros ps o' label e'. induction ps as [|p ps IH]; [done|]. cbn [assert_values].
    destruct (assertNonNegativeNumber _ _ _) as [[]|e''] eqn:E; [apply IH|]. intros [= <-].
    destruct (at_path o' p) as [|n| | |]; cbn [assertNonNegativeNumber] in E; try done.
    destruct (good_number n); [done|]. injection E as <-. eauto. }
  destruct (assertKnownIngressOptions _ o) as [[]|e'] eqn:Ek.
  - cbn [mbind result_bind]. destruct (assertIngressOptionValues _ _) as [[]|e'] eqn:Ev.
    + destruct (is_defined _ || _); [|done]. intros [= <- _]. eauto.
    + intros [= <- _]. by eapply Hv.
  - cbn [mbind result_bind]. intros [= <- _]. by eapply Hk.
Qed.

(** The warning is written at most once per process. *)
Lemma warned_once (w : warn_state) :
  warnTrustProxyDeprecated (warnTrustProxyDeprecated w) = warnTrustProxyDeprecated w ∧
  warnRateLimitWithoutGetIp (warnRateLimitWithoutGetIp w) = warnRateLimitWithoutGetIp w.
Proof. destruct w as [[] [] n]; done. Qed.

End checks.
