(* ===== verification/StateErr.v ===== *)
(** State and exceptions: the monad of the components that throw, catch and clean
    up (the fast ingress, the route factories). *)

From S2P Require Import Prelude.

Definition SE (S A : Type) : Type := S → result A * S.

#[export] Instance SE_ret S : MRet (SE S) := λ A a s, (Ok a, s).
#[export] Instance SE_bind S : MBind (SE S) :=
  λ A B f m s, match m s with (Ok a, s') => f a s' | (Throw e, s') => (Throw e, s') end.

Section operations.
Context {S : Type}.

Definition lift {A} (r : result A) : SE S A := λ s, (r, s).
Definition throw {A} (e : js_error) : SE S A := λ s, (Throw e, s).
Definition gets {A} (f : S → A) : SE S A := λ s, (Ok (f s), s).
Definition modify (f : S → S) : SE S unit := λ s, (Ok tt, f s).

(** [try { m } catch (e) { handler }]. *)
Definition try_catch {A} (m : SE S A) (handler : js_error → SE S A) : SE S A :=
  λ s, match m s with (Ok a, s') => (Ok a, s') | (Throw e, s') => handler e s' end.

(** [try { m } finally { f }] for a clean-up that does not throw. *)
Definition try_finally {A} (m : SE S A) (f : S → S) : SE S A :=
  λ s, let '(r, s') := m s in (r, f s').

(** Calls made one after the other by a caller that looks at each outcome. *)
Fixpoint attempts {A} (ms : list (SE S A)) : S → list (result A) * S :=
  λ s, match ms with
       | [] => ([], s)
       | m :: ms' =>
           let '(r, s') := m s in
           let '(rs, s'') := attempts ms' s' in
           (r :: rs, s'')
       end.

End operations.

(** ** Equations *)

Lemma se_bind_Ok {S A B} (m : SE S A) (f : A → SE S B) s a s' :
  m s = (Ok a, s') → (m ≫= f) s = f a s'.
Proof. intros E. unfold mbind, SE_bind. by rewrite E. Qed.

Lemma se_bind_Throw {S A B} (m : SE S A) (f : A → SE S B) s e s' :
  m s = (Throw e, s') → (m ≫= f) s = (Throw e, s').
Proof. intros E. unfold mbind, SE_bind. by rewrite E. Qed.

Lemma se_bind_run {S A B} (m : SE S A) (f : A → SE S B) s r s' :
  m s = (r, s') → (m ≫= f) s = match r with Ok a => f a s' | Throw e => (Throw e, s') end.
Proof. intros E. unfold mbind, SE_bind. rewrite E. by destruct r. Qed.

Lemma try_catch_Ok {S A} (m : SE S A) h s a s' : m s = (Ok a, s') → try_catch m h s = (Ok a, s').
Proof. intros E. unfold try_catch. by rewrite E. Qed.

Lemma try_catch_Throw {S A} (m : SE S A) h s e s' : m s = (Throw e, s') → try_catch m h s = h e s'.
Proof. intros E. unfold try_catch. by rewrite E. Qed.

(** ** Running: a postcondition for the value and one for the exception *)

Definition runs {S A} (s : S) (m : SE S A) (Q : A → S → Prop) (E : js_error → S → Prop) : Prop :=
  match m s with (Ok a, s') => Q a s' | (Throw e, s') => E e s' end.

Section runs.
Context {S A B : Type}.
Implicit Types (s : S) (E : js_error → S → Prop).

Lemma runs_ret s (a : A) (Q : A → S → Prop) E : Q a s → runs s (mret a) Q E.
Proof. done. Qed.
Lemma runs_lift s (r : result A) (Q : A → S → Prop) E :
  match r with Ok a => Q a s | Throw e => E e s end → runs s (lift r) Q E.
Proof. by destruct r. Qed.
Lemma runs_modify s f (Q : unit → S → Prop) E : Q tt (f s) → runs s (modify f) Q E.
Proof. done. Qed.
Lemma runs_bind s (m : SE S A) (f : A → SE S B) Q E :
  runs s m (λ a s', runs s' (f a) Q E) E → runs s (m ≫= f) Q E.
Proof. unfold runs, mbind, SE_bind. by destruct (m s) as [[a|e] s']. Qed.
Lemma runs_catch s (m : SE S A) h Q E :
  runs s m Q (λ e s', runs s' (h e) Q E) → runs s (try_catch m h) Q E.
Proof. unfold runs, try_catch. by destruct (m s) as [[a|e] s']. Qed.
Lemma runs_mono s (m : SE S A) (Q Q' : A → S → Prop) (E E' : js_error → S → Prop) :
  runs s m Q E → (∀ a s', Q a s' → Q' a s') → (∀ e s', E e s' → E' e s') → runs s m Q' E'.
Proof. unfold runs. destruct (m s) as [[a|e] s']; auto. Qed.

End runs.

(** ** Simulation

    Two computations on states of different types that keep a relation and give
    equal outcomes. *)

Definition se_sim {S T A} (R : S → T → Prop) (m : SE S A) (n : SE T A) : Prop :=
  ∀ s t, R s t → ∃ r s' t', m s = (r, s') ∧ n t = (r, t') ∧ R s' t'.

Section simulation.
Context {S T : Type} (R : S → T → Prop).

Lemma sim_ret {A} (a : A) : se_sim R (mret a) (mret a).
Proof. intros s t HR. by exists (Ok a), s, t. Qed.

Lemma sim_lift {A} (x : result A) : se_sim R (lift x) (lift x).
Proof. intros s t HR. by exists x, s, t. Qed.

Lemma sim_modify f g : (∀ s t, R s t → R (f s) (g t)) → se_sim R (modify f) (modify g).
Proof. intros Hf s t HR. exists (Ok tt), (f s), (g t). auto. Qed.

Lemma sim_bind {A B} (m : SE S A) (n : SE T A) (f : A → SE S B) (g : A → SE T B) :
  se_sim R m n → (∀ a, se_sim R (f a) (g a)) → se_sim R (m ≫= f) (n ≫= g).
Proof.
  intros Hm Hf s t HR. destruct (Hm s t HR) as ([a|e] & s' & t' & E1 & E2 & HR').
  - rewrite (se_bind_Ok _ _ _ _ _ E1), (se_bind_Ok _ _ _ _ _ E2). by apply Hf.
  - rewrite (se_bind_Throw _ _ _ _ _ E1), (se_bind_Throw _ _ _ _ _ E2). by exists (Throw e), s', t'.
Qed.

Lemma sim_catch {A} (m : SE S A) (n : SE T A) h k :
  se_sim R m n → (∀ e, se_sim R (h e) (k e)) → se_sim R (try_catch m h) (try_catch n k).
Proof.
  intros Hm Hh s t HR. destruct (Hm s t HR) as ([a|e] & s' & t' & E1 & E2 & HR').
  - rewrite (try_catch_Ok _ _ _ _ _ E1), (try_catch_Ok _ _ _ _ _ E2). by exists (Ok a), s', t'.
  - rewrite (try_catch_Throw _ _ _ _ _ E1), (try_catch_Throw _ _ _ _ _ E2). by apply Hh.
Qed.

Lemma sim_finally {A} (m : SE S A) (n : SE T A) f g :
  se_sim R m n → (∀ s t, R s t → R (f s) (g t)) → se_sim R (try_finally m f) (try_finally n g).
Proof.
  intros Hm Hf s t HR. destruct (Hm s t HR) as (r & s' & t' & E1 & E2 & HR').
  exists r, (f s'), (g t'). unfold try_finally. rewrite E1, E2. auto.
Qed.

Lemma sim_attempts {A} (ms : list (SE S A)) (ns : list (SE T A)) :
  Forall2 (se_sim R) ms ns → ∀ s t, R s t →
  ∃ rs s' t', attempts ms s = (rs, s') ∧ attempts ns t = (rs, t') ∧ R s' t'.
Proof.
  induction 1 as [|m n ms ns Hm _ IH]; intros s t HR; [by exists [], s, t|].
  destruct (Hm s t HR) as (r & s1 & t1 & E1 & E2 & H1).
  destruct (IH s1 t1 H1) as (rs & s2 & t2 & E3 & E4 & H2).
  exists (r :: rs), s2, t2. simpl. by rewrite E1, E2, E3, E4.
Qed.

End simulation.

Create HintDb sim.
#[export] Hint Resolve sim_ret sim_lift sim_modify sim_bind sim_catch sim_finally : sim.
