(* ===== verification/FastIngress.v ===== *)
(** The fast ingress (src/ingress/fast.ts, sync.ts, context.ts): one handler that
    reuses its packer, its output buffer and its result object for every request,
    the synchronous wrapper, and the async factory that reads the body and always
    answers with a context.

    The native core and the hooks are parameters as in Handler.  A callback sees the
    decoded result and the outside world [H] that it shares with the hooks.  The async
    handler is the two synchronous parts around its [await]; what the body read
    gives is Body's subject and an argument here (its bytes or one of its errors). *)

From Stdlib Require Import QArith.
From S2P Require Import Prelude.
From S2P Require Import JsMap.
From S2P Require Import Utf8.
From S2P Require Import JsObject.
From S2P Require Import JsString.
From S2P Require Import Wire.
From S2P Require Import Layout.
From S2P Require Import Decode.
From S2P Require Import HeaderTemplates.
From S2P Require Import ResponseBuilders.
From S2P Require Import Packing.
From S2P Require Import RequestId.
From S2P Require Import Body.
From S2P Require Import Handler.
From S2P Require Import StateErr.
Import Packer Select.
Open Scope Z_scope.

Definition DEFAULT_FAST_OUTPUT_BUFFER_SIZE : Z := 262144.
Definition DEFAULT_MAX_BODY_BYTES : Z := 1048576.

Section fast.
Context {N H : Type}.

(** [f_ffi] is [bunFFI.ingressHandlePacked] bound to its pointer [f_ptr]. *)
Record FastNatives := {
  f_ffi : option (list Z → option (list Z) → @native_fn N);
  f_ptr : Z;
  f_napi : list Z → option (list Z) → @native_fn N }.

Record FastState := FS {
  fs_native : N;
  fs_hook : H;
  fs_packer : IngressInputPacker;     (* [inputPacker] *)
  fs_out : list Z;                    (* [outputBuf] *)
  fs_res : FastIngressResult;         (* [result] *)
  fs_rid : counter_state }.

Definition set_fs_hook (h : H) (s : FastState) : FastState :=
  FS (fs_native s) h (fs_packer s) (fs_out s) (fs_res s) (fs_rid s).
Definition set_fs_res (r : FastIngressResult) (s : FastState) : FastState :=
  FS (fs_native s) (fs_hook s) (fs_packer s) (fs_out s) r (fs_rid s).

Context (natives : FastNatives) (plan : HeaderPlan) (onError : option (js_error → H → result unit * H)).

(** [options.onError?.(e)]. *)
Definition call_onError (e : js_error) : SE FastState unit := λ s,
  match onError with
  | Some f => let '(r, h) := f e (fs_hook s) in (r, set_fs_hook h s)
  | None => (Ok tt, s)
  end.

Definition fast_pack (methodKind : Z) (u : list Z) (ip : option (list Z)) (rid hdrs : list Z)
    : SE FastState (list Z) := λ s,
  match packFromStrings (fs_packer s) methodKind u ip (Some rid) hdrs with
  | Ok (input, p) => (Ok input, FS (fs_native s) (fs_hook s) p (fs_out s) (fs_res s) (fs_rid s))
  | Throw e => (Throw e, s)
  end.

(** [bunFFI !== null && ingressPtr !== 0 ? ... : ...]. *)
Definition transport (input : list Z) (body : option (list Z)) : @native_fn N :=
  match f_ffi natives with
  | Some f => if decide (f_ptr natives ≠ 0) then f input body else f_napi natives input body
  | None => f_napi natives input body
  end.

Definition fast_call (input : list Z) (body : option (list Z)) : SE FastState Z := λ s,
  let '(r, out, n) := transport input body (fs_native s) (fs_out s) in
  (r, FS n (fs_hook s) (fs_packer s) out (fs_res s) (fs_rid s)).

(** The body of the first [try]. *)
Definition fast_prepare (scratch : list Z) (rq : Handler.Request) (ip body : option (list Z))
    (rid : list Z) : SE FastState unit :=
  let methodKind := method_kind (method rq) in
  hdrs ← lift (packHeaders scratch (headers rq) plan methodKind);
  input ← fast_pack methodKind (url rq) ip rid hdrs;
  written ← fast_call input body;
  buf ← gets fs_out;
  r ← lift (fast_refresh (subarray buf 0 written) (default [] body) rid);
  modify (set_fs_res r).

(** Its [catch]: the hook's own failure is swallowed. *)
Definition fast_failed (rid : list Z) (e : js_error) : SE FastState unit :=
  modify (set_fs_res (fast_setInternalError rid)) ;;
  try_catch (call_onError e) (λ _, mret tt).

Definition assertSync {T} (thenable : T → bool) (label : string) (out : T) : result unit :=
  guard_ok (negb (thenable out)) (JsError "Error" (label +:+ " callback must be synchronous.")).

(** [fn(result)]. *)
Definition call_fn {T} (fn : FastIngressResult → H → result T * H) : SE FastState T := λ s,
  let '(r, h) := fn (fs_res s) (fs_hook s) in (r, set_fs_hook h s).

(** [createIngressFast(options).run]. *)
Definition fast_run {T} (thenable : T → bool) (scratch : list Z) (rq : Handler.Request)
    (ip body : option (list Z)) (rid : list Z) (fn : FastIngressResult → H → result T * H)
    : SE FastState T :=
  try_catch (fast_prepare scratch rq ip body rid) (fast_failed rid) ;;
  try_finally
    (out ← call_fn fn;
     lift (assertSync thenable "createIngressFast().run()" out) ;;
     mret out)
    (set_fs_res (fast_invalidate [])).

(** [createIngressSync(options).run]. *)
Definition sync_run {T} (thenable : T → bool) (scratch : list Z) (rq : Handler.Request)
    (ip body : option (list Z)) (rid : list Z) (fn : FastIngressResult → H → result T * H)
    : SE FastState T :=
  fast_run thenable scratch rq ip body rid (λ r h,
    match fn r h with
    | (Ok out, h') => (assertSync thenable "createIngressSync().run()" out ;; Ok out, h')
    | (Throw e, h') => (Throw e, h')
    end).

(** [createIngressFast(options)]; [outputBufSize] is the clamped size. *)
Definition createIngressFast (outputBufSize : Z) (n : N) (h : H) (c : counter_state) : FastState :=
  FS n h (newIngressInputPacker 65536) (new_u8 outputBufSize) (fast_invalidate []) c.

(** ** The specification: no buffer, no packer, no result object *)

(** The frame of a request. *)
Definition request_frame (rq : Handler.Request) (ip : option (list Z)) (rid : list Z) : list Z :=
  let k := method_kind (method rq) in
  frame k (encodeUtf8 (url rq)) (ip_bytes ip) (encodeUtf8 rid)
    (block (forEachSelectedHeader (headers rq) plan k None None)).

Record RefState := RS { r_native : N; r_hook : H; r_seen : FastIngressResult }.

Definition ref_call (size : Z) (input : list Z) (body : option (list Z)) (rid : list Z)
    : SE RefState unit := λ s,
  let '(r, out, n) := transport input body (r_native s) (new_u8 size) in
  match r with
  | Ok w => ((λ _, tt) <$> fast_refresh (subarray out 0 w) (default [] body) rid,
             RS n (r_hook s)
               match fast_refresh (subarray out 0 w) (default [] body) rid with
               | Ok x => x | Throw _ => r_seen s
               end)
  | Throw e => (Throw e, RS n (r_hook s) (r_seen s))
  end.

Definition ref_onError (e : js_error) : SE RefState unit := λ s,
  match onError with
  | Some f => let '(r, h) := f e (r_hook s) in (r, RS (r_native s) h (r_seen s))
  | None => (Ok tt, s)
  end.

Definition ref_run {T} (thenable : T → bool) (size : Z) (rq : Handler.Request)
    (ip body : option (list Z)) (rid : list Z) (fn : FastIngressResult → H → result T * H)
    : SE RefState T :=
  try_catch (ref_call size (request_frame rq ip rid) body rid)
    (λ e, modify (λ s, RS (r_native s) (r_hook s) (fast_setInternalError rid)) ;;
          try_catch (ref_onError e) (λ _, mret tt)) ;;
  try_finally
    (out ← (λ s, let '(r, h) := fn (r_seen s) (r_hook s) in (r, RS (r_native s) h (r_seen s)));
     lift (assertSync thenable "createIngressFast().run()" out) ;;
     mret out)
    (λ s, RS (r_native s) (r_hook s) (fast_invalidate [])).

(** ** The reused objects never show *)

(** What the native entry points document: the answer does not depend on what the
    output buffer held, and the bytes up to the reported count are the answer's. *)
Definition prefix_writer (size : Z) (f : @native_fn N) : Prop := ∀ n o1 o2,
  zlen o1 = size → zlen o2 = size →
  (f n o1).1.1 = (f n o2).1.1 ∧ (f n o1).2 = (f n o2).2 ∧
  zlen (f n o1).1.2 = size ∧
  ∀ w, (f n o1).1.1 = Ok w → subarray (f n o1).1.2 0 w = subarray (f n o2).1.2 0 w.

Record request_ok (rq : Handler.Request) (ip : option (list Z)) (rid : list Z) : Prop := {
  rq_url : Forall is_unit (url rq);
  rq_headers : ∀ n v, headers rq n = Some v → Forall is_unit v;
  rq_ip : Forall is_unit (default [] ip);
  rq_rid : Forall is_unit rid }.

Record same (size : Z) (s : FastState) (t : RefState) : Prop := {
  sm_native : fs_native s = r_native t;
  sm_hook : fs_hook s = r_hook t;
  sm_res : fs_res s = r_seen t;
  sm_packer : packer_ok (fs_packer s);
  sm_out : zlen (fs_out s) = size }.

Lemma same_created size n h c :
  0 ≤ size → same size (createIngressFast size n h c) (RS n h (fast_invalidate [])).
Proof.
  intros. constructor; [reflexivity..|apply new_ok|]. cbn [createIngressFast fs_out].
  unfold new_u8. rewrite zlen_replicate. lia.
Qed.

Lemma same_res size r s t : same size s t → same size (set_fs_res r s) (RS (r_native t) (r_hook t) r).
Proof. intros []. by split. Qed.

Lemma same_hook size h s t : same size s t → same size (set_fs_hook h s) (RS (r_native t) h (r_seen t)).
Proof. intros []. by split. Qed.

Lemma packHeaders_block scratch rq k ip rid :
  2 ≤ zlen scratch → request_ok rq ip rid →
  packHeaders scratch (headers rq) plan k =
    Ok (block (forEachSelectedHeader (headers rq) plan k None None)).
Proof.
  intros Hs Hrq. unfold packHeaders.
  destruct (block_written scratch (forEachSelectedHeader (headers rq) plan k None None) Hs)
    as (pos & buf & Hw & Hb).
  { apply selected_ok; try done. apply (rq_headers _ _ _ Hrq). }
  rewrite Hw, bind_ret. exact Hb.
Qed.

Lemma sim_onError size e : se_sim (same size) (call_onError e) (ref_onError e).
Proof.
  intros s t HR. unfold call_onError, ref_onError. rewrite (sm_hook _ _ _ HR).
  destruct onError as [f|].
  - destruct (f e (r_hook t)) as [r h]. exists r, (set_fs_hook h s), (RS (r_native t) h (r_seen t)).
    split; [done|]. split; [done|]. by apply same_hook.
  - by exists (Ok tt), s, t.
Qed.

Lemma sim_call_fn {T} size (fn : FastIngressResult → H → result T * H) :
  se_sim (same size) (call_fn fn)
    (λ s, let '(r, h) := fn (r_seen s) (r_hook s) in (r, RS (r_native s) h (r_seen s))).
Proof.
  intros s t HR. unfold call_fn. rewrite (sm_hook _ _ _ HR), (sm_res _ _ _ HR).
  destruct (fn (r_seen t) (r_hook t)) as [r h].
  exists r, (set_fs_hook h s), (RS (r_native t) h (r_seen t)).
  split; [done|]. split; [done|]. by apply same_hook.
Qed.

Context (size : Z) (Hsz : 0 ≤ size) (contract : ∀ input body, prefix_writer size (transport input body)).

Lemma sim_prepare scratch rq ip body rid :
  2 ≤ zlen scratch → request_ok rq ip rid →
  se_sim (same size) (fast_prepare scratch rq ip body rid)
    (ref_call size (request_frame rq ip rid) body rid).
Proof.
  intros Hs Hrq s t HR. unfold fast_prepare. cbv zeta.
  erewrite se_bind_Ok by (unfold lift; by erewrite packHeaders_block).
  destruct (packFromStrings_frame (fs_packer s) (method_kind (method rq)) (url rq) ip (Some rid)
    (block (forEachSelectedHeader (headers rq) plan (method_kind (method rq)) None None)))
    as (p & Hp & Hok); try apply HR; try apply Hrq.
  erewrite se_bind_Ok by (unfold fast_pack; rewrite Hp; reflexivity).
  change (frame _ _ _ _ _) with (request_frame rq ip rid). set (input := request_frame rq ip rid).
  destruct (contract input body (fs_native s) (fs_out s) (new_u8 size))
    as (E1 & E2 & E3 & E4).
  { apply HR. } { unfold new_u8. rewrite zlen_replicate. lia. }
  unfold ref_call. rewrite <-(sm_native _ _ _ HR).
  destruct (transport input body (fs_native s) (fs_out s)) as [[r b] n] eqn:Et.
  destruct (transport input body (fs_native s) (new_u8 size)) as [[r' b'] n'] eqn:Et'.
  simpl in E1, E2, E3, E4. subst r' n'. destruct HR as [_ Hh Hr _ _].
  destruct r as [w|e].
  - erewrite se_bind_Ok by (unfold fast_call; simpl; rewrite Et; reflexivity).
    erewrite se_bind_Ok by reflexivity. simpl. rewrite (E4 w eq_refl).
    destruct (fast_refresh (subarray b' 0 w) (default [] body) rid) as [x|e'] eqn:Er.
    + do 3 eexists. split; [reflexivity|]. split; [reflexivity|]. by split.
    + do 3 eexists. split; [reflexivity|]. split; [reflexivity|]. by split.
  - erewrite se_bind_Throw by (unfold fast_call; simpl; rewrite Et; reflexivity).
    do 3 eexists. split; [reflexivity|]. split; [reflexivity|]. by split.
Qed.

Lemma sim_run {T} (thenable : T → bool) scratch rq ip body rid fn :
  2 ≤ zlen scratch → request_ok rq ip rid →
  se_sim (same size) (fast_run thenable scratch rq ip body rid fn)
    (ref_run thenable size rq ip body rid fn).
Proof.
  intros Hs Hrq. apply sim_bind.
  - apply sim_catch; [by apply sim_prepare|]. intros e. apply sim_bind; [|intros _].
    + apply sim_modify. intros s t HR. by apply same_res.
    + apply sim_catch; [apply sim_onError|]. intros _. apply sim_ret.
  - intros _. apply sim_finally.
    + apply sim_bind; [apply sim_call_fn|]. intros out.
      apply sim_bind; [apply sim_lift|]. intros _. apply sim_ret.
    + intros s t HR. by apply same_res.
Qed.

(** The arguments of one call of [run], with the scratch buffer the ring hands out. *)
Record run_args (T : Type) := Call {
  c_scratch : list Z; c_rq : Handler.Request; c_ip : option (list Z); c_body : option (list Z);
  c_rid : list Z; c_fn : FastIngressResult → H → result T * H }.
Arguments Call {T}. Arguments c_scratch {T}. Arguments c_rq {T}. Arguments c_ip {T}.
Arguments c_body {T}. Arguments c_rid {T}. Arguments c_fn {T}.

Definition call_ok {T} (c : run_args T) : Prop :=
  2 ≤ zlen (c_scratch c) ∧ request_ok (c_rq c) (c_ip c) (c_rid c).

Definition run_call {T} (thenable : T → bool) (c : run_args T) : SE FastState T :=
  fast_run thenable (c_scratch c) (c_rq c) (c_ip c) (c_body c) (c_rid c) (c_fn c).
Definition ref_of_call {T} (thenable : T → bool) (c : run_args T) : SE RefState T :=
  ref_run thenable size (c_rq c) (c_ip c) (c_body c) (c_rid c) (c_fn c).

(** C14. A fast handler serves every sequence of requests as the specification does that
    has no packer, no output buffer and no result object: each callback sees the decoded
    answer of the native core to the frame of its own request, or the internal-error
    result when the core throws, whatever earlier requests, their bodies, failures or
    throwing callbacks left behind; outcomes, hook calls and native calls are the same. *)
Theorem fast_ingress_stateless {T} (thenable : T → bool) (n : N) (h : H) (c0 : counter_state)
    (calls : list (run_args T)) :
  Forall call_ok calls →
  ∃ rs s t,
    attempts (run_call thenable <$> calls) (createIngressFast size n h c0) = (rs, s) ∧
    attempts (ref_of_call thenable <$> calls) (RS n h (fast_invalidate [])) = (rs, t) ∧
    fs_native s = r_native t ∧ fs_hook s = r_hook t ∧ fs_res s = r_seen t.
Proof.
  intros Hc.
  destruct (sim_attempts (same size) (run_call thenable <$> calls) (ref_of_call thenable <$> calls))
    with (s := createIngressFast size n h c0) (t := RS n h (fast_invalidate []))
    as (rs & s & t & E1 & E2 & HR).
  - induction Hc as [|c cs [? ?] _ IH]; constructor; [by apply sim_run|done].
  - by apply same_created.
  - exists rs, s, t. destruct HR. done.
Qed.

End fast.
Arguments FastNatives : clear implicits.
Arguments FastState : clear implicits.
Arguments RefState : clear implicits.
Arguments Call {_ _}.

(** ** A witness *)

(** A core that counts its calls and answers a fixed header. *)
Definition counting_native (input : list Z) (body : option (list Z)) (n : nat) (out : list Z)
    : result Z * list Z * nat :=
  (Ok 48, header_bytes fields0 ++ drop 48 out, S n).
Definition counting_natives : FastNatives nat :=
  {| f_ffi := None; f_ptr := 0; f_napi := counting_native |}.

Lemma counting_prefix (input : list Z) (body : option (list Z)) :
  prefix_writer 64 (transport counting_natives input body).
Proof.
  intros n o1 o2 H1 H2. cbn [transport counting_natives f_ffi f_napi counting_native fst snd].
  assert (E : zlen (header_bytes fields0) = 48) by (vm_compute; reflexivity).
  repeat split.
  - rewrite zlen_app, E. unfold zlen in *. rewrite length_drop. lia.
  - intros w [= <-]. rewrite <-E. by rewrite !subarray_prefix.
Qed.

Definition get_request : Handler.Request :=
  {| method := js "GET"; url := js "/a?b=1"; headers := λ n, if decide (n = "cookie"%string) then Some (js "k=v") else None |}.
Lemma get_request_scratch : 2 ≤ zlen (new_u8 8).
Proof. vm_compute. congruence. Qed.
Lemma get_request_ok : request_ok get_request None (js "id").
Proof.
  constructor; [apply js_unit| |constructor|apply js_unit].
  intros n v. unfold get_request. cbn [headers].
  destruct (decide (n = "cookie"%string)); [|done]. intros Hv.
  replace v with (js "k=v") by congruence. apply js_unit.
Qed.

(** A callback that answers the status, and one that throws. *)
Definition answers (r : FastIngressResult) (h : unit) : result Z * unit := (Ok (status (base r)), h).
Definition throws (r : FastIngressResult) (h : unit) : result Z * unit := (Throw (TypeError "callback"), h).
Definition three_calls : list (@run_args unit Z) :=
  (λ f, Call (new_u8 8) get_request None None (js "id") f) <$> [answers; throws; answers].

Lemma fast_ingress_stateless_witness :
  (attempts (run_call counting_natives (Plan true false false false) None (λ _, false) <$> three_calls)
     (createIngressFast 64 0%nat tt (Counter 0 0))).1 =
  [Ok 200; Throw (TypeError "callback"); Ok 200].
Proof.
  destruct (fast_ingress_stateless counting_natives (Plan true false false false) None 64
    ltac:(lia) counting_prefix (λ _, false) 0%nat tt (Counter 0 0) three_calls)
    as (rs & s & t & E1 & E2 & _).
  - apply Forall_fmap, Forall_forall. intros f _. apply (conj get_request_scratch get_request_ok).
  - rewrite E1. cbn [fst]. apply (f_equal fst) in E2. cbn [fst] in E2. rewrite <-E2.
    vm_compute. reflexivity.
Defined.
