(* ===== verification/AsyncIngress.v ===== *)
(** The async ingress (src/ingress/sync.ts, createIngress; src/ingress/context.ts): the
    body guard, the body read, the fast pipeline, and one context per request, with
    the hooks it reports to. *)

From Stdlib Require Import QArith.
From S2P Require Import Prelude.
From S2P Require Import JsMap.
From S2P Require Import Utf8.
From S2P Require Import JsObject.
From S2P Require Import JsString.
From S2P Require Import Wire.
From S2P Require Import Layout.
From S2P Require Import Decode.
From S2P Require Import HeaderTemplates.
From S2P Require Import ResponseBuilders.
From S2P Require Import Packing.
From S2P Require Import RequestId.
From S2P Require Import Body.
From S2P Require Import Handler.
From S2P Require Import StateErr.
From S2P Require Import FastIngress.
Import Packer Select.
Open Scope Z_scope.

(** ** Options *)

Record IngressOptions := {
  io_cors : option CorsOptions;
  io_security : option SecurityHeadersOptions;
  io_enableSecurityHeaders : option bool;
  io_https : option bool;
  io_limit : option Z;                    (* [options.rateLimit?.limit] *)
  io_parseCookies : option bool;
  io_trustProxy : option bool;
  io_trustedProxies_enabled : option bool;
  io_enableBodySizeGuard : option bool;
  io_maxBodyBytes : option Z;
  io_readBody : option bool;
  io_requireJsonBody : option bool;
  io_schema : bool;                       (* [options.schema != null] *)
  io_enableRequestIds : option bool }.

Definition header_options (o : IngressOptions) : FastOptions :=
  {| f_cors := io_cors o; f_security := io_security o; f_https := io_https o;
     f_enableSecurityHeaders := io_enableSecurityHeaders o; f_limit := io_limit o |}.
Definition plan_of (o : IngressOptions) : HeaderPlan :=
  buildHeaderPlan (TrustOptions (io_parseCookies o) (bool_decide (io_cors o ≠ None))
    (io_trustProxy o) (io_trustedProxies_enabled o) (io_https o)).

Definition guard_on (o : IngressOptions) : bool :=
  negb (bool_decide (io_enableBodySizeGuard o = Some false)).
Definition max_body (o : IngressOptions) : Z := default DEFAULT_MAX_BODY_BYTES (io_maxBodyBytes o).
Definition wantsBody (o : IngressOptions) : bool :=
  is_true (io_readBody o) || is_true (io_requireJsonBody o) || io_schema o ||
  (negb (bool_decide (io_readBody o = Some false)) && guard_on o).

(** ** context.ts *)

(** A context: the public fields of a result, its sections, and the response. *)
Record IngressContext := Ctx {
  x_result : FastIngressResult;
  x_cookies : list Z; x_query : list Z; x_bodyJson : list Z;
  x_response : option HttpResponse }.
Definition x_status (c : IngressContext) : Z := status (base (x_result c)).

(** The fields a snapshot copies (the decoder's private ones stay behind). *)
Definition public_fields (r : FastIngressResult) : FastIngressResult :=
  let b := base r in
  Fast (Base (verdict b) (errorCode b) (status b) (headerVariant b) (rateRemaining b)
          (rateResetMs b) (retryAfterMs b) (terminal b) (ok b) (isPreflight b) (corsAllowed b)
          (rateLimited b) (trustedProxy b) (bodyValidJson b) (schemaValid b) (bodyTruncated b)
          (body b) [] 0 OUT_DATA_START 0 None None None None)
    (flags r) (https r) (hasCookies r) (hasQuery r) (rateLimit r) (requestId r).

Definition snapshotResult `{Codec} (r : FastIngressResult) (resp : option HttpResponse) : IngressContext :=
  Ctx (public_fields r) (cookiesJson (base r)).1 (queryJson (base r)).1 (bodyJsonSlice (base r)) resp.

Definition staticCorsAllowed (o : IngressOptions) (originv : option (list Z)) : bool :=
  match io_cors o, originv with
  | Some c, Some (u :: v) =>
      match allowOrigin c with
      | None | Some [] => negb (bool_decide (allowCredentials c = Some true))
      | Some l => if decide (js "*" ∈ l) then negb (bool_decide (allowCredentials c = Some true))
                  else bool_decide (u :: v ∈ l)
      end
  | _, _ => false
  end.

Definition synthetic_result (o : IngressOptions) (originv : option (list Z)) (rid : list Z)
    (st ec : Z) : FastIngressResult :=
  let allowed := staticCorsAllowed o originv in
  Fast (Base 1 ec st (Z.lor HV_JSON (if allowed then HV_CORS_SIMPLE else 0)) 0 0 0 true false
          false allowed (bool_decide (ec = ERR_CODE_RATE_LIMITED))
          (is_true (io_trustProxy o) || is_true (io_trustedProxies_enabled o))
          false false false [] [] 0 OUT_DATA_START 0 None None None None)
    0 (is_true (io_https o)) false false (default 0 (io_limit o)) rid.

Definition syntheticContext (o : IngressOptions) (originv : option (list Z)) (rid : list Z)
    (st ec : Z) : IngressContext :=
  let r := synthetic_result o originv rid st ec in
  Ctx r (js "{}") (js "{}") []
    (buildTerminalResponse (buildResponseContext (header_options o)) r originv rid).

Definition internalContext (o : IngressOptions) (originv : option (list Z)) (rid : list Z)
    : IngressContext := syntheticContext o originv rid 500 ERR_CODE_INTERNAL.

(** ** The handler *)

Section async.
Context {N H : Type} `{Codec}.
Context (Number : list Z → option Q) (natives : FastNatives N)
  (object_natives : js_error → FastNatives N) (options : IngressOptions).

Record Hooks := {
  onRequest : option (Handler.Request → list Z → option (list Z) → H → result unit * H);
  onResponse : option (Handler.Request → IngressContext → Z → list Z → H → result unit * H);
  onError : option (js_error → H → result unit * H) }.
Context (hooks : Hooks).

Definition call (f : option (H → result unit * H)) : SE (FastState N H) unit := λ s,
  match f with
  | Some g => let '(r, h) := g (fs_hook s) in (r, set_fs_hook h s)
  | None => (Ok tt, s)
  end.

Definition emitResponse (rq : Handler.Request) (rid : list Z) (c : IngressContext)
    : SE (FastState N H) IngressContext :=
  call ((λ f, f rq c (x_status c) rid) <$> onResponse hooks) ;; mret c.

Definition synthetic (rq : Handler.Request) (rid : list Z) (st ec : Z) : IngressContext :=
  syntheticContext options (headers rq "origin") rid st ec.

(** The callback of [sync.run]: it never fails and its value is no thenable. *)
Definition context_value (rq : Handler.Request) (rid : list Z) (r : FastIngressResult) : IngressContext :=
  snapshotResult r (buildTerminalResponse (buildResponseContext (header_options options))
    (public_fields r) (headers rq "origin") rid).
Definition context_of (rq : Handler.Request) (rid : list Z) (r : FastIngressResult) (h : H)
    : result IngressContext * H := (Ok (context_value rq rid r), h).

Definition answer_with (natives : FastNatives N) (scratch : list Z) (rq : Handler.Request)
    (ip bodyv : option (list Z)) (rid : list Z) : SE (FastState N H) IngressContext :=
  c ← sync_run natives (plan_of options) (onError hooks) (λ _ : IngressContext, false)
        scratch rq ip bodyv rid (context_of rq rid);
  emitResponse rq rid c.

Definition answer := answer_with natives.

(** The [catch] at the end of the handler. *)
Definition protect (rq : Handler.Request) (rid : list Z) (m : SE (FastState N H) IngressContext)
    : SE (FastState N H) IngressContext :=
  try_catch m (λ e,
    call ((λ f, f e) <$> onError hooks) ;;
    emitResponse rq rid (internalContext options (headers rq "origin") rid)).

Definition next_rid : SE (FastState N H) (list Z) := λ s,
  if decide (io_enableRequestIds options = Some false) then (Ok [], s)
  else
    let '(rid, c) := generateRequestId (fs_rid s) in
    (Ok rid, FS (fs_native s) (fs_hook s) (fs_packer s) (fs_out s) (fs_res s) c).

Definition declared_too_large (rq : Handler.Request) : bool :=
  guard_on options &&
  match Number (default (js "0") (headers rq "content-length")) with
  | Some len => negb (Qle_bool len (inject_Z (max_body options)))
  | None => false
  end.

(** [ingressAsync] up to its [await]: a context, or the request id of a call that
    waits for its body. *)
Definition ingress_start (scratch : list Z) (rq : Handler.Request) (has_body : bool)
    (ip : option (list Z)) : SE (FastState N H) (IngressContext + list Z) :=
  rid ← next_rid;
  call ((λ f, f rq rid ip) <$> onRequest hooks) ;;
  if declared_too_large rq then
    c ← protect rq rid (emitResponse rq rid (synthetic rq rid 413 ERR_CODE_BODY_TOO_LARGE));
    mret (inl c)
  else if wantsBody options && has_body then mret (inr rid)
  else c ← protect rq rid (answer scratch rq ip None rid); mret (inl c).

(** The JS error of a body failure. *)
Definition read_error (e : body_error) : js_error :=
  match e with
  | Body.TooLarge => JsError "Error" "BODY_TOO_LARGE"
  | Body.TimedOut => JsError "Error" "REQUEST_TIMEOUT"
  | Body.Aborted => JsError "Error" "REQUEST_ABORTED"
  | Body.Other e => e
  end.

(** After the [await].  An error object taken for the body goes to the native call like
    bytes; what that does with it is a parameter, and the context's [body], which is then
    the object itself, is left empty here. *)
Definition ingress_resume (scratch : list Z) (rq : Handler.Request) (ip : option (list Z))
    (rid : list Z) (read : body_value + body_error) : SE (FastState N H) IngressContext :=
  protect rq rid
    match read with
    | inl (VBytes bytes) => answer scratch rq ip (Some bytes) rid
    | inl (VErrorObject e) => answer_with (object_natives e) scratch rq ip None rid
    | inr Body.TooLarge => emitResponse rq rid (synthetic rq rid 413 ERR_CODE_BODY_TOO_LARGE)
    | inr Body.TimedOut => emitResponse rq rid (synthetic rq rid 408 ERR_CODE_REQUEST_TIMEOUT)
    | inr e =>
        call ((λ f, f (read_error e)) <$> onError hooks) ;;
        throw (read_error e)
    end.

End async.
Arguments Hooks : clear implicits.

(** ** Reporting *)

(** What the hooks of one request were told. *)
Inductive hook_event := EvRequest (rid : list Z) | EvResponse (st : Z) (rid : list Z) | EvError (e : js_error).

(** Hooks that record and do not throw. *)
Definition recorders : Hooks (list hook_event) :=
  {| onRequest := Some (λ _ rid _ h, (Ok tt, h ++ [EvRequest rid]));
     onResponse := Some (λ _ _ st rid h, (Ok tt, h ++ [EvResponse st rid]));
     onError := Some (λ e h, (Ok tt, h ++ [EvError e])) |}.

Section reporting.
Context {N : Type} `{Codec}.
Context (Number : list Z → option Q) (natives : FastNatives N)
  (object_natives : js_error → FastNatives N) (options : IngressOptions).

(** [m] resolves with a value that [P] allows and tells the hooks the events [Q] allows. *)
Definition tells {A} (m : SE (FastState N (list hook_event)) A) (P : A → list hook_event → Prop) : Prop :=
  ∀ s, ∃ a s' evs, m s = (Ok a, s') ∧ fs_hook s' = fs_hook s ++ evs ∧ P a evs.

Lemma tells_ret {A} (a : A) (P : A → list hook_event → Prop) : P a [] → tells (mret a) P.
Proof. intros HP s. exists a, s, []. by rewrite app_nil_r. Qed.

Lemma tells_bind {A B} m (f : A → _) P (Q : B → list hook_event → Prop) :
  tells m P → (∀ a evs, P a evs → tells (f a) (λ b evs', Q b (evs ++ evs'))) → tells (m ≫= f) Q.
Proof.
  intros Hm Hf s. destruct (Hm s) as (a & s1 & evs & E1 & Hh & HP).
  destruct (Hf a evs HP s1) as (b & s2 & evs' & E2 & Hh' & HQ).
  exists b, s2, (evs ++ evs'). rewrite (se_bind_Ok _ _ _ _ _ E1), E2, Hh', Hh, app_assoc. done.
Qed.

Lemma tells_weaken {A} m (P Q : A → list hook_event → Prop) :
  tells m P → (∀ a evs, P a evs → Q a evs) → tells m Q.
Proof. intros Hm HPQ s. destruct (Hm s) as (a & s' & evs & ? & ? & ?). exists a, s', evs. auto. Qed.

Lemma tells_catch {A} m h (P : A → list hook_event → Prop) : tells m P → tells (try_catch m h) P.
Proof.
  intros Hm s. destruct (Hm s) as (a & s' & evs & E & ? & ?). exists a, s', evs.
  by rewrite (try_catch_Ok _ _ _ _ _ E).
Qed.

Lemma emit_tells rq rid c :
  tells (emitResponse recorders rq rid c)
    (λ c' evs, c' = c ∧ evs = [EvResponse (x_status c) rid]).
Proof. intros s. eexists _, _, _. split; [reflexivity|]. done. Qed.

Lemma onError_tells e :
  tells (call ((λ f, f e) <$> onError recorders)) (λ _ evs, evs = [EvError e]).
Proof. intros s. eexists _, _, _. split; [reflexivity|]. done. Qed.

(** The pipeline itself reports at most its own failure. *)
Lemma prepare_keeps_hook (natives' : FastNatives N) plan scratch rq ip body rid s r s' :
  fast_prepare (H := list hook_event) natives' plan scratch rq ip body rid s = (r, s') →
  fs_hook s' = fs_hook s.
Proof.
  unfold fast_prepare, fast_pack, fast_call, lift, gets, modify, mbind, SE_bind. cbv zeta.
  destruct (packHeaders _ _ _ _); [|by intros [= <- <-]].
  destruct (packFromStrings _ _ _ _ _ _) as [[input p]|]; [|by intros [= <- <-]]. simpl.
  destruct (transport _ _ _ _ _) as [[[w|] out] n]; [|by intros [= <- <-]]. simpl.
  destruct (fast_refresh _ _ _); by intros [= <- <-].
Qed.

Definition errors_only (evs : list hook_event) : Prop := ∃ es, evs = EvError <$> es.

Lemma run_tells (natives' : FastNatives N) plan scratch rq ip body rid (fn : FastIngressResult → list hook_event → result IngressContext * list hook_event) (g : FastIngressResult → IngressContext) :
  (∀ r h, fn r h = (Ok (g r), h)) →
  tells (fast_run natives' plan (onError recorders) (λ _, false) scratch rq ip body rid fn)
    (λ c evs, (∃ r, c = g r) ∧ (evs = [] ∨ ∃ e, evs = [EvError e])).
Proof.
  intros Hfn s.
  assert (Hp : ∃ s1 evs, try_catch (fast_prepare natives' plan scratch rq ip body rid)
      (fast_failed (onError recorders) rid) s = (Ok tt, s1) ∧ fs_hook s1 = fs_hook s ++ evs ∧
      (evs = [] ∨ ∃ e, evs = [EvError e])).
  { destruct (fast_prepare natives' plan scratch rq ip body rid s) as [[[]|e] s1] eqn:E.
    - exists s1, []. rewrite (try_catch_Ok _ _ _ _ _ E), app_nil_r. eauto using prepare_keeps_hook.
    - eexists _, [EvError e]. rewrite (try_catch_Throw _ _ _ _ _ E). split; [reflexivity|].
      simpl. rewrite (prepare_keeps_hook _ _ _ _ _ _ _ _ _ _ E). eauto. }
  destruct Hp as (s1 & evs & E & Hh & Hevs).
  exists (g (fs_res s1)), (set_fs_res (fast_invalidate []) s1), evs.
  split; [|by eauto]. unfold fast_run. rewrite (se_bind_Ok _ _ _ _ _ E).
  unfold try_finally, call_fn, mbind, SE_bind, lift, mret, SE_ret. rewrite Hfn. simpl.
  by destruct s1.
Qed.

Lemma answer_tells (natives' : FastNatives N) scratch rq ip bodyv rid :
  tells (answer_with options recorders natives' scratch rq ip bodyv rid)
    (λ c evs, ∃ es, evs = (EvError <$> es) ++ [EvResponse (x_status c) rid] ∧ (length es ≤ 1)%nat).
Proof.
  unfold answer_with. eapply tells_bind.
  - apply (run_tells natives' _ _ _ _ _ _ _ (context_value options rq rid)). intros r h. simpl. reflexivity.
  - intros c evs [_ Hevs]. eapply tells_weaken; [apply emit_tells|]. simpl.
    intros c' evs' [-> ->]. destruct Hevs as [->|[e ->]]; [exists []|exists [e]]; (split; [done|simpl; lia]).
Qed.

(** What a body read that failed for [e] is answered with. *)
Definition failure_status (e : body_error) : Z :=
  match e with Body.TooLarge => 413 | Body.TimedOut => 408 | _ => 500 end.

(** C13. Every request to the async ingress resolves with a context and is announced
    and answered exactly once, the answer last, with the status of the returned
    context: 413 when the declared length exceeds the guard, 413 or 408 when the body
    read is cut, 500 for any other body failure (which is reported twice), and otherwise
    after at most one report of a native failure.  Nothing is assumed of the native core,
    also not when it is handed the error object of [body_reads_correct]. *)
Theorem async_one_response (scratch : list Z) (rq : Handler.Request) (has_body : bool)
    (ip : option (list Z)) :
  tells (ingress_start Number natives options recorders scratch rq has_body ip)
    (λ a evs,
      match a with
      | inl c => ∃ rid es, evs = EvRequest rid :: (EvError <$> es) ++ [EvResponse (x_status c) rid] ∧
                   (length es ≤ 1)%nat ∧
                   (declared_too_large Number options rq = true → x_status c = 413 ∧ es = [])
      | inr rid => evs = [EvRequest rid] ∧ wantsBody options = true ∧ has_body = true ∧
                   declared_too_large Number options rq = false
      end) ∧
  ∀ rid read,
    tells (ingress_resume natives object_natives options recorders scratch rq ip rid read)
      (λ c evs, ∃ es, evs = (EvError <$> es) ++ [EvResponse (x_status c) rid] ∧
        match read with
        | inl _ => (length es ≤ 1)%nat
        | inr e => x_status c = failure_status e ∧
                   es = match e with
                        | Body.TooLarge | Body.TimedOut => []
                        | e => [read_error e; read_error e]
                        end
        end).
Proof.
  split.
  - unfold ingress_start. eapply (tells_bind _ _ (λ _ evs, evs = [])).
    { intros s. unfold next_rid. destruct (decide _); [|destruct (generateRequestId _)];
        eexists _, _, []; (split; [reflexivity|]); by rewrite app_nil_r. }
    intros rid _ ->. eapply (tells_bind _ _ (λ _ evs, evs = [EvRequest rid])).
    { intros s. eexists _, _, _. split; [reflexivity|]. done. }
    intros _ _ ->. destruct (declared_too_large Number options rq) eqn:El.
    + eapply tells_bind; [apply tells_catch, emit_tells|]. intros c evs [-> ->].
      apply tells_ret. exists rid, []. split; [done|]. split; [simpl; lia|done].
    + destruct (wantsBody options && has_body) eqn:Ew.
      * apply tells_ret. apply andb_true_iff in Ew as [-> ->]. done.
      * eapply tells_bind; [apply tells_catch, answer_tells|]. intros c evs (es & -> & ?).
        apply tells_ret. exists rid, es. by rewrite app_nil_r.
  - intros rid read. unfold ingress_resume. destruct read as [[bytes|x]|[]].
    1,2: apply tells_catch, answer_tells.
    1,2: eapply tells_weaken; [apply tells_catch, emit_tells|];
         intros c evs [-> ->]; by exists [].
    all: intros s; eexists _, _, _; (split; [reflexivity|]);
         cbn [fs_hook set_fs_hook]; rewrite <-!app_assoc; (split; [reflexivity|]); by eexists [_; _].
Qed.

(** A hook that throws on the answer. *)
Definition failing_answers (e : js_error) : Hooks (list hook_event) :=
  {| onRequest := onRequest recorders;
     onResponse := Some (λ _ _ st rid h, (Throw e, h ++ [EvResponse st rid]));
     onError := onError recorders |}.

(** When [onResponse] throws on the answer of a cut body, the same request is answered
    a second time, with 500, and the promise rejects although a context was built. *)
Lemma throwing_onResponse_answers_twice scratch rq ip rid e s :
  ∃ s', ingress_resume natives object_natives options (failing_answers e) scratch rq ip rid (inr Body.TooLarge) s =
          (Throw e, s') ∧
        fs_hook s' = fs_hook s ++ [EvResponse 413 rid; EvError e; EvResponse 500 rid].
Proof. eexists. split; [reflexivity|]. cbn [fs_hook set_fs_hook]. by rewrite <-!app_assoc. Qed.

End reporting.

(** ** Witness *)

#[local] Existing Instance bun_codec.

Definition no_options : IngressOptions :=
  {| io_cors := None; io_security := None; io_enableSecurityHeaders := None; io_https := None;
     io_limit := None; io_parseCookies := None; io_trustProxy := None;
     io_trustedProxies_enabled := None; io_enableBodySizeGuard := None; io_maxBodyBytes := Some 10;
     io_readBody := None; io_requireJsonBody := None; io_schema := false; io_enableRequestIds := None |}.
Definition long_post : Handler.Request :=
  {| method := js "POST"; url := js "/a";
     headers := λ n, if decide (n = "content-length"%string) then Some (js "11") else None |}.

Lemma async_one_response_witness : ∃ c s' rid,
  ingress_start (digits 0) counting_natives no_options recorders (new_u8 8) long_post true None
    (createIngressFast 64 0%nat [] (Counter 0 0)) = (Ok (inl c), s') ∧
  x_status c = 413 ∧ fs_hook s' = [EvRequest rid; EvResponse 413 rid].
Proof.
  destruct (proj1 (async_one_response (digits 0) counting_natives (λ _, counting_natives) no_options
    (new_u8 8) long_post true None) (createIngressFast 64 0%nat [] (Counter 0 0)))
    as ([c|rid] & s' & evs & E & Hh & HP).
  - destruct HP as (rid & es & -> & _ & H413). exists c, s', rid.
    destruct H413 as [Hs ->]; [by vm_compute|]. split; [done|]. split; [done|].
    rewrite Hh, Hs. reflexivity.
  - destruct HP as (_ & _ & _ & HP). vm_compute in HP. congruence.
Defined.
