(* ===== verification/Routes.v ===== *)
(** The route factories (src/ingress/routes/): read, head, delete, options, fallback,
    echo, JSON write, the responder bridge and the native-stack route.

    A factory is a client of an [OptimizedIngressHandler], which is a record of
    operations here; what the factories rely on are its laws ([IngressLaws]), and the
    cache-free builders of ResponseBuilders over any native decision satisfy them.
    What happens at an [await] is an argument: the outcome of the body read (Body),
    which may be an error object taken for bytes, and whether the client is gone when
    the signal is looked at again.  What the native side does with such an object is a
    parameter like the rest of it. *)

From Stdlib Require Import QArith.
From S2P Require Import Prelude.
From S2P Require Import JsMap.
From S2P Require Import Utf8.
From S2P Require Import JsObject.
From S2P Require Import JsString.
From S2P Require Import Wire.
From S2P Require Import Layout.
From S2P Require Import Decode.
From S2P Require Import HeaderTemplates.
From S2P Require Import ResponseBuilders.
From S2P Require Import Packing.
From S2P Require Import RouteWire.
From S2P Require Import RequestId.
From S2P Require Import Body.
From S2P Require Import Handler.
From S2P Require Import StateErr.
Open Scope Z_scope.

(** ** Responses *)

Inductive route_body :=
  | RNull
  | RBytes (b : list Z)
  | RRequestStream                    (* [req.body] *)
  | RBuilt (b : ResponseBuilders.resp_body).

Record Resp := MkResp { p_status : Z; p_headers : Headers; p_body : route_body }.

Definition of_http (r : HttpResponse) : Resp := MkResp (r_status r) (r_headers r) (RBuilt (r_body r)).

(** [abortResponse()]. *)
Definition abortResponse : Resp := MkResp 499 ∅ RNull.

(** ** The handler interface (types.ts) *)

Record OptimizedIngressHandler (S : Type) := {
  ig_run : ∀ A : Type, Handler.Request → option (list Z) → option body_value →
    (IngressResultBase → BakedContext → SE S A) → SE S A;
  ig_terminalResponse : IngressResultBase → BakedContext → SE S (option Resp);
  ig_errorResponse : option IngressResultBase → Z → list Z → list Z → BakedContext → SE S Resp;
  ig_internalErrorResponse : BakedContext → option IngressResultBase → SE S Resp;
  ig_responseHeaders : Z → option (list Z) → option (list Z) → option Z → option Z → SE S (list header);
  ig_successHeaders :
    option (Z → option (list Z) → option (list Z) → option Z → option Z → SE S Headers);
  ig_withContentType : list header → list Z → SE S (list header);
  ig_zeroCopyResponse : IngressResultBase → BakedContext → Resp → SE S Resp }.
Arguments ig_run {S} _ {A}. Arguments ig_terminalResponse {S}. Arguments ig_errorResponse {S}.
Arguments ig_internalErrorResponse {S}. Arguments ig_responseHeaders {S}.
Arguments ig_successHeaders {S}. Arguments ig_withContentType {S}. Arguments ig_zeroCopyResponse {S}.

(** What the factories are promised.  [decided] relates a request and the body handed
    over to the result the native core may give. *)
Class IngressLaws {S} (I : OptimizedIngressHandler S)
    (decided : Handler.Request → option (list Z) → option body_value → IngressResultBase → Prop) := {
  law_run {A} rq ip b (cb : IngressResultBase → BakedContext → SE S A) s a s' :
    ig_run I rq ip b cb s = (Ok a, s') →
    ∃ r ctx s1 s2, decided rq ip b r ∧ cb r ctx s1 = (Ok a, s2);
  law_terminal r ctx s o s' :
    ig_terminalResponse I r ctx s = (Ok o, s') →
    match o with
    | None => terminal r = false
    | Some t => terminal r = true ∧ (p_status t = 204 ∨ 400 ≤ p_status t ≤ 599)
    end;
  law_error r st code msg ctx s t s' : ig_errorResponse I r st code msg ctx s = (Ok t, s') → p_status t = st;
  law_internal ctx r s t s' : ig_internalErrorResponse I ctx r s = (Ok t, s') → p_status t = 500;
  law_zeroCopy r ctx init s t s' : ig_zeroCopyResponse I r ctx init s = (Ok t, s') → p_status t = p_status init;
  law_headers v rid o rem rs s l s' :
    ig_responseHeaders I v rid o rem rs s = (Ok l, s') → has_bit v HV_JSON = false →
    Forall (λ h, toLowerCase h.1 ≠ js "content-type") l;
  law_content l ct s l' s' :
    ig_withContentType I l ct s = (Ok l', s') → l' = l ++ [(js "content-type", ct)] }.

Section routes.
Context {S : Type} (I : OptimizedIngressHandler S).

(** ** common.ts *)

Definition buildSuccessInit (r : IngressResultBase) (ctx : BakedContext) (st : Z) : SE S Resp :=
  let rateResetSecs := secs_if_positive (rateResetMs r) in
  h ← match ig_successHeaders I with
      | Some f => f (headerVariant r) (requestIdHeader ctx) (origin ctx) (Some (rateRemaining r)) rateResetSecs
      | None =>
          l ← ig_responseHeaders I (headerVariant r) (requestIdHeader ctx) (origin ctx)
                (Some (rateRemaining r)) rateResetSecs;
          mret (new_Headers l)
      end;
  mret (MkResp st h RNull).

Definition with_body (b : route_body) (init : Resp) : Resp := MkResp (p_status init) (p_headers init) b.

(** [runBaked(ingress, opts, respond)]; [ip] is the outcome of [resolveIp]. *)
Definition runBaked (aborted : bool) (rq : Handler.Request) (ip : result (option (list Z)))
    (respond : IngressResultBase → BakedContext → SE S Resp) : SE S Resp :=
  if aborted then mret abortResponse
  else ip ← lift ip; ig_run I rq ip None respond.

(** [if (terminal) return terminal; ...] *)
Definition unless_terminal (r : IngressResultBase) (ctx : BakedContext) (k : SE S Resp) : SE S Resp :=
  t ← ig_terminalResponse I r ctx;
  match t with Some t => mret t | None => k end.

(** [copyBody ? new Response(result.bodyJson(true), init) : zeroCopyResponse(...)]. *)
Definition body_response (copyBody : bool) (r : IngressResultBase) (ctx : BakedContext) : SE S Resp :=
  init ← buildSuccessInit r ctx 200;
  if copyBody then mret (with_body (RBytes (bodyJson r true)) init) else ig_zeroCopyResponse I r ctx init.

(** ** read.ts, delete.ts, head.ts, fallback.ts, options.ts *)

Definition readHandler (copyBody : bool) (aborted : bool) (rq : Handler.Request)
    (ip : result (option (list Z))) : SE S Resp :=
  runBaked aborted rq ip (λ r ctx, unless_terminal r ctx
    (if bodyTruncated r then ig_internalErrorResponse I ctx (Some r) else body_response copyBody r ctx)).

Definition deleteHandler := readHandler.

Definition headHandler (aborted : bool) (rq : Handler.Request) (ip : result (option (list Z))) : SE S Resp :=
  runBaked aborted rq ip (λ r ctx, unless_terminal r ctx
    (if bodyTruncated r then ig_internalErrorResponse I ctx (Some r) else buildSuccessInit r ctx 200)).

Definition fallbackHandler (aborted : bool) (rq : Handler.Request) (ip : result (option (list Z))) : SE S Resp :=
  runBaked aborted rq ip (λ r ctx, unless_terminal r ctx
    (ig_errorResponse I (Some r) 404 (js "not_found") (js "Not found") ctx)).

Definition optionsHandler (aborted : bool) (rq : Handler.Request) (ip : result (option (list Z))) : SE S Resp :=
  runBaked aborted rq ip (λ r ctx, unless_terminal r ctx (buildSuccessInit r ctx 204)).

(** ** echo.ts *)

Definition SAFE_ECHO_CONTENT_TYPES : list (list Z) :=
  [js "application/json"; js "application/octet-stream"; js "text/plain"].

(** The part before the first [;]. *)
Fixpoint before_semicolon (s : list Z) : list Z :=
  match s with
  | [] => []
  | u :: s' => if decide (u = 59) then [] else u :: before_semicolon s'
  end.

(** [echoMediaTypeOf]; the same expression is in [isJsonContentType]. *)
Definition mediaTypeOf (contentType : list Z) : list Z := toLowerCase (trim (before_semicolon contentType)).

Definition safeEchoContentType (contentType : list Z) : list Z :=
  if decide (mediaTypeOf contentType ∈ SAFE_ECHO_CONTENT_TYPES) then contentType
  else js "application/octet-stream".

Definition CONTENT_TYPE : list Z := js "content-type".
Definition NOSNIFF : header := (js "x-content-type-options", js "nosniff").

(** [withEchoHeaders(contentType)]. *)
Definition withEchoHeaders (base : list header) (contentType : list Z) : SE S Headers :=
  l ← ig_withContentType I base contentType;
  mret (new_Headers
    (if decide (Exists (λ h : header, toLowerCase h.1 = NOSNIFF.1) l) then l else l ++ [NOSNIFF])).

Definition echo_response (base : list header) (st : Z) (b : route_body) (contentType : list Z) : SE S Resp :=
  h ← withEchoHeaders base contentType; mret (MkResp st h b).

Definition error_bytes (name : string) : route_body := RBytes (default [] (body_named name)).

(** The callback of the first run: a terminal response, or the headers to echo with. *)
Definition echo_prep (r : IngressResultBase) (ctx : BakedContext) : SE S (Resp + list header) :=
  t ← ig_terminalResponse I r ctx;
  match t with
  | Some t => mret (inl t)
  | None =>
      if bodyTruncated r then t ← ig_internalErrorResponse I ctx (Some r); mret (inl t)
      else
        l ← ig_responseHeaders I (Z.land (headerVariant r) (Z.lnot HV_JSON)) (requestIdHeader ctx)
              (origin ctx) (Some (rateRemaining r)) (secs_if_positive (rateResetMs r));
        mret (inr l)
  end.

(** What an echo request meets: the signal at entry, after the run and after the
    body read, the declared length ([Number] of the header when present), whether it
    has a body, and how the body read ends. *)
Record EchoWorld := {
  w_aborted0 : bool; w_aborted1 : bool; w_aborted2 : bool;
  w_length : option Q;                (* finite [Number(content-length)] *)
  w_has_body : bool;
  w_read : body_value + body_error }.

(** [new Response(bodyBytes.byteLength > 0 ? bodyBytes : null)]; an error object has no
    [byteLength]. *)
Definition echo_body (v : body_value) : route_body :=
  match v with VBytes ((_ :: _) as b) => RBytes b | _ => RNull end.

Definition echoHandler (maxBodyBytes : Z) (rq : Handler.Request) (ip : result (option (list Z)))
    (w : EchoWorld) : SE S Resp :=
  ip ← lift ip;
  if w_aborted0 w then mret abortResponse
  else
    prep ← ig_run I rq ip None echo_prep;
    match prep with
    | inl t => mret t
    | inr base =>
        if w_aborted1 w then mret abortResponse
        else
          let requested := safeEchoContentType
            (default (js "application/octet-stream") (headers rq "content-type")) in
          match w_length w with
          | Some len =>
              if negb (Qle_bool len (inject_Z maxBodyBytes)) then
                echo_response base 413 (error_bytes "body_too_large") (js "application/json")
              else if Qle_bool len 0 || negb (w_has_body w) then echo_response base 200 RNull requested
              else echo_response base 200 RRequestStream requested
          | None =>
              let failed (st : Z) (name : string) := echo_response base st (error_bytes name) (js "application/json") in
              match w_read w with
              | inl v =>
                  try_catch
                    (if w_aborted2 w then mret abortResponse
                     else echo_response base 200 (echo_body v) requested)
                    (λ _, failed 400 "bad_request"%string)
              | inr e =>
                  if isAbortError e then mret abortResponse
                  else match e with
                       | Body.TooLarge => failed 413 "body_too_large"%string
                       | Body.TimedOut => failed 408 "request_timeout"%string
                       | _ => failed 400 "bad_request"%string
                       end
              end
          end
    end.

(** ** json-write.ts *)

Definition isJsonContentType (contentType : list Z) : bool :=
  let mediaType := mediaTypeOf contentType in
  bool_decide (mediaType = js "application/json") ||
  bool_decide (js "+json" `suffix_of` mediaType).

(** The signal at entry and after the read, and how the read ends. *)
Record WriteWorld := { j_aborted0 : bool; j_aborted1 : bool; j_read : body_value + body_error }.

(** [fallback] is [opts.fallback ?? ingress]; [jsonValid] is the injected check. *)
Definition jsonWriteHandler (fallback : OptimizedIngressHandler S) (jsonValid : body_value → result bool)
    (copyBody : bool) (rq : Handler.Request) (ip : result (option (list Z))) (w : WriteWorld) : SE S Resp :=
  ip ← lift ip;
  if j_aborted0 w then mret abortResponse
  else if negb (isJsonContentType (default [] (headers rq "content-type"))) then
    ig_run fallback rq ip None (λ r ctx,
      ig_errorResponse fallback (Some r) 415 (js "unsupported_media_type")
        (js "Content-Type must be application/json") ctx)
  else
    match j_read w with
    | inr e =>
        if isAbortError e then mret abortResponse
        else
          let isTooLarge := bool_decide (err_code e = Some (js "BODY_TOO_LARGE")) in
          ig_run fallback rq ip None (λ r ctx,
            t ← ig_terminalResponse fallback r ctx;
            match t with
            | Some t => mret t
            | None =>
                ig_errorResponse fallback (Some r) (if isTooLarge then 413 else 408)
                  (js (if isTooLarge then "body_too_large" else "request_timeout"))
                  (js (if isTooLarge then "Request body is too large" else "Request body read timed out")) ctx
            end)
    | inl bytes =>
        if j_aborted1 w then mret abortResponse
        else
          ig_run I rq ip (Some bytes) (λ r ctx, unless_terminal r ctx
            (if bodyTruncated r then ig_internalErrorResponse I ctx (Some r)
             else if bodyValidJson r then
               if schemaValid r then body_response copyBody r ctx
               else ig_errorResponse I (Some r) 422 (js "schema_validation_failed")
                      (js "Request body failed schema validation") ctx
             else
               valid ← lift (jsonValid bytes);
               if valid : bool then body_response copyBody r ctx
               else ig_errorResponse I (Some r) 400 (js "invalid_json") (js "Invalid JSON body") ctx))
    end.

(** ** responder.ts *)

Definition IGNEX_SECURITY_HEADERS : list header :=
  [(js "x-frame-options", js "DENY"); (js "x-content-type-options", js "nosniff");
   (js "referrer-policy", js "no-referrer")].
Definition ignex_headers : Headers :=
  h_set CONTENT_TYPE (js "application/json; charset=utf-8") (new_Headers IGNEX_SECURITY_HEADERS).

(** [JSON.stringify({ error, status, code })] *)
Definition ignex_payload (error : list Z) (st : Z) (code : list Z) : list Z :=
  json_object [json_member (js "error") (json_string error); json_member (js "status") (dec st);
               json_member (js "code") (json_string code)].

Definition buildIgngexTerminal (r : IngressResultBase) : Resp :=
  if isPreflight r && corsAllowed r then MkResp 204 (new_Headers IGNEX_SECURITY_HEADERS) RNull
  else
    let st := safeTerminalStatus (status r) (Decode.errorCode r) (isPreflight r) (corsAllowed r) in
    MkResp st ignex_headers
      (RBytes (encodeUtf8 (ignex_payload (js (errorMessage st (Decode.errorCode r))) st
                             (js (errorCodeName (Decode.errorCode r)))))).

(** [code === 'REQUEST_TIMEOUT' ? 408 : code === 'BODY_TOO_LARGE' ? 413 : 400]. *)
Definition read_failure_status (e : body_error) : Z :=
  match e with Body.TimedOut => 408 | Body.TooLarge => 413 | _ => 400 end.

Context `{Codec} {R : Type}.
(** [JSON.parse], when it gives a plain object; and the empty record. *)
Variables (parse_record : list Z → option R) (empty_record : R).

Definition parseSection (json : list Z) : R := default empty_record (parse_record json).

Record Snapshot := Snap {
  n_requestId : list Z; n_status : Z; n_rateLimited : bool; n_retryAfterMs : Z;
  n_query : R; n_cookies : R; n_body : body_value; n_ip : option (list Z) }.

(** The signal at entry and after the read, the request id, and the read when asked for. *)
Record ResponderWorld := {
  d_aborted0 : bool; d_aborted1 : bool; d_requestId : list Z; d_read : option (body_value + body_error) }.

(** The bytes to go on with, or the answer. *)
Definition read_or_answer (fail : Z → Resp) (w : ResponderWorld) : Resp + option body_value :=
  match d_read w with
  | None => inr None
  | Some (inr e) => inl (if isAbortError e then abortResponse else fail (read_failure_status e))
  | Some (inl bytes) => if d_aborted1 w then inl abortResponse else inr (Some bytes)
  end.

(** The sync callback: a terminal response, possibly none, or the snapshot. *)
Definition responder_callback (ignex : bool) (w : ResponderWorld) (ip : option (list Z))
    (bodyv : option body_value) (r : IngressResultBase) (ctx : BakedContext) : SE S (option Resp * option Snapshot) :=
  if terminal r || negb (ok r) then
    if ignex then mret (Some (buildIgngexTerminal r), None)
    else t ← ig_terminalResponse I r ctx; mret (t, None)
  else
    mret (None, Some (Snap (d_requestId w) (status r) (rateLimited r) (retryAfterMs r)
      (parseSection (queryJson r).1) (parseSection (cookiesJson r).1) (default (VBytes []) bodyv) ip)).

Definition nativeResponderRoute (responder : Snapshot → SE S Resp) (ignex : bool)
    (rq : Handler.Request) (ip : result (option (list Z))) (w : ResponderWorld) : SE S Resp :=
  ip ← lift ip;
  if d_aborted0 w then mret abortResponse
  else
    match read_or_answer (λ st, MkResp st ignex_headers
            (RBytes (encodeUtf8 (ignex_payload (js "Bad Request") st (js "BAD_REQUEST"))))) w with
    | inl t => mret t
    | inr bodyv =>
        out ← ig_run I rq ip bodyv (responder_callback ignex w ip bodyv);
        match out with
        | (Some t, _) => mret t
        | (None, None) => ig_internalErrorResponse I (BCtx None None) None
        | (None, Some snap) => responder snap
        end
    end.

End routes.

(** ** safe-record.ts, native.ts *)

(** [assignOwn(target, key, value)] with a string value. *)
Definition assignOwn (target : jsobj) (key value : list Z) : jsobj :=
  if decide (key = PROTO) then Obj (mset key (JStr value) (own target)) (JsObject.proto target)
  else obj_set target key (JStr value).

Definition pairsToRecord (pairs : list (list Z * list Z)) : jsobj :=
  foldl (λ o p, assignOwn o p.1 p.2) empty_obj pairs.

(** [Response.json({ ok: false, error: { code, message } }, { status, headers })]. *)
Definition native_terminal (st : Z) (code message : string) : Resp :=
  MkResp st (new_Headers [(CONTENT_TYPE, js "application/json")])
    (RBytes (encodeUtf8 (json_object [json_member (js "ok") (js "false");
       json_member (js "error") (json_object
         [json_member (js "code") (json_string (js code));
          json_member (js "message") (json_string (js message))])]))).

(** [url.slice(url.indexOf('?') + 1)], [''] without one. *)
Fixpoint query_of (u : list Z) : list Z :=
  match u with
  | [] => []
  | c :: u' => if decide (c = 63) then u' else query_of u'
  end.

Section native_route.
Context {S : Type} (wire_run : list Z → list Z → option body_value → SE S RouteWireResult).
Context (parse_query parse_cookies : bool).

Definition nativeRouteHandler (responder : Snapshot (R := jsobj) → SE S Resp) (rq : Handler.Request)
    (ip : result (option (list Z))) (w : ResponderWorld) : SE S Resp :=
  ip ← lift ip;
  if d_aborted0 w then mret abortResponse
  else
    match read_or_answer (λ st, native_terminal st "BAD_REQUEST" "Request body read failed") w with
    | inl t => mret t
    | inr bodyv =>
        res ← try_catch (x ← wire_run (query_of (url rq)) (default [] (headers rq "cookie")) bodyv; mret (Some x))
                (λ _, mret None);
        match res with
        | None => mret (native_terminal 500 "INTERNAL" "Native route run failed")
        | Some res =>
            let ec := RouteWire.errorCode res in
            if decide (ec = 0) then
              responder (Snap (d_requestId w) 200 false 0
                (if parse_query then pairsToRecord (query res) else empty_obj)
                (if parse_cookies then pairsToRecord (RouteWire.cookie res) else empty_obj)
                (default (VBytes []) bodyv) ip)
            else if decide (ec = 400) then
              mret (native_terminal 400 "INVALID_JSON" "Request body must be valid JSON")
            else if decide (ec = 422) then
              mret (native_terminal 422 "VALIDATION_FAILED" "Request body failed schema validation")
            else mret (native_terminal 400 "BAD_REQUEST" "Bad request")
        end
    end.

End native_route.
