(* ===== verification/RoutesSpec.v ===== *)
(** Theorems about the route factories: what each accepts and answers, from the laws
    of the handler interface, and the handler that satisfies them. *)

From Stdlib Require Import QArith.
From S2P Require Import Prelude.
From S2P Require Import JsMap.
From S2P Require Import Utf8.
From S2P Require Import JsObject.
From S2P Require Import JsString.
From S2P Require Import Wire.
From S2P Require Import Layout.
From S2P Require Import Decode.
From S2P Require Import HeaderTemplates.
From S2P Require Import ResponseBuilders.
From S2P Require Import RouteWire.
From S2P Require Import Body.
From S2P Require Import Handler.
From S2P Require Import StateErr.
From S2P Require Import Routes.
Open Scope Z_scope.

(** ** Inversion of computations *)

Lemma bind_inv {S A B} (m : SE S A) (f : A → SE S B) s b s' :
  (m ≫= f) s = (Ok b, s') → ∃ a s1, m s = (Ok a, s1) ∧ f a s1 = (Ok b, s').
Proof. unfold mbind, SE_bind. destruct (m s) as [[a|e] s1]; [eauto|done]. Qed.

Lemma ret_inv {S A} (a b : A) (s s' : S) : mret (M := SE S) a s = (Ok b, s') → b = a ∧ s' = s.
Proof. by intros [= -> ->]. Qed.

Lemma lift_inv {S A} (r : result A) (a : A) (s s' : S) : lift r s = (Ok a, s') → r = Ok a ∧ s' = s.
Proof. by intros [= -> ->]. Qed.

Lemma catch_inv {S A} (m : SE S A) h s a s' :
  try_catch m h s = (Ok a, s') → m s = (Ok a, s') ∨ ∃ e s1, m s = (Throw e, s1) ∧ h e s1 = (Ok a, s').
Proof. unfold try_catch. destruct (m s) as [[b|e] s1]; [left; congruence|right; eauto]. Qed.

Ltac invs H :=
  first
    [ apply bind_inv in H as (? & ? & ?H1 & H)
    | apply ret_inv in H as [-> ->]
    | apply lift_inv in H as [-> ->] ].

(** ** Headers *)

Lemma headers_insert (h : Headers) n v : (<[n := v]> h : Headers) !! n = Some v.
Proof. apply lookup_insert_eq. Qed.
Lemma headers_insert_ne (h : Headers) n m v : m ≠ n → (<[m := v]> h : Headers) !! n = h !! n.
Proof. apply lookup_insert_ne. Qed.

Lemma h_append_ne h (e : header) n : toLowerCase e.1 ≠ n → h_append h e !! n = h !! n.
Proof. intros. unfold h_append. by apply lookup_insert_ne. Qed.

Lemma headers_other l : ∀ (h : Headers) n,
  Forall (λ e : header, toLowerCase e.1 ≠ n) l → foldl h_append h l !! n = h !! n.
Proof.
  induction l as [|e l IH]; intros h n Hl; [done|]. apply Forall_cons in Hl as [? ?].
  cbn [foldl]. rewrite IH by done. by apply h_append_ne.
Qed.

(** The value of a name that only one entry has. *)
Lemma new_Headers_unique l1 l2 n v :
  Forall (λ e : header, toLowerCase e.1 ≠ toLowerCase n) l1 →
  Forall (λ e : header, toLowerCase e.1 ≠ toLowerCase n) l2 →
  new_Headers (l1 ++ (n, v) :: l2) !! toLowerCase n = Some v.
Proof.
  intros H1 H2. unfold new_Headers. rewrite foldl_app. cbn [foldl]. rewrite headers_other by done.
  unfold h_append at 1. cbn [fst snd].
  replace (foldl h_append ∅ l1 !! toLowerCase n) with (@None (list Z)); [by apply lookup_insert_eq|].
  symmetry. etrans; [by apply headers_other|]. apply lookup_empty.
Qed.

Lemma headers_kept l : ∀ (h : Headers) n, is_Some (h !! n) → is_Some (foldl h_append h l !! n).
Proof.
  induction l as [|e l IH]; intros h n Hn; [done|]. cbn [foldl]. apply IH. unfold h_append.
  destruct (decide (toLowerCase e.1 = n)) as [->|]; [by rewrite headers_insert|].
  by rewrite headers_insert_ne.
Qed.

Lemma new_Headers_some l n : Exists (λ e : header, toLowerCase e.1 = n) l → is_Some (new_Headers l !! n).
Proof.
  intros ([m v] & (l1 & l2 & ->)%list_elem_of_split & Hn)%Exists_exists. unfold new_Headers.
  rewrite foldl_app. cbn [foldl]. apply headers_kept. unfold h_append. cbv zeta. cbn [fst snd] in *.
  rewrite Hn, headers_insert. done.
Qed.

(** ** The factories, over any handler that keeps its laws *)

Section laws.
Context {S : Type} (I F : OptimizedIngressHandler S)
  (decided decided' : Handler.Request → option (list Z) → option body_value → IngressResultBase → Prop)
  {LI : IngressLaws I decided} {LF : IngressLaws F decided'}.

Lemma success_status r ctx st s t s' : buildSuccessInit I r ctx st s = (Ok t, s') → p_status t = st.
Proof. unfold buildSuccessInit. intros Ht. invs Ht. by invs Ht. Qed.

Lemma body_status copyBody r ctx s t s' : body_response I copyBody r ctx s = (Ok t, s') → p_status t = 200.
Proof.
  unfold body_response. intros Ht. invs Ht. apply success_status in H1. destruct copyBody.
  - by invs Ht.
  - by apply law_zeroCopy in Ht as ->.
Qed.

(** The answers other than a success. *)
Definition refusal (t : Resp) : Prop := p_status t = 204 ∨ 400 ≤ p_status t ≤ 599.

Lemma unless_inv r ctx k s t s' :
  unless_terminal I r ctx k s = (Ok t, s') →
  (terminal r = true ∧ refusal t) ∨ (terminal r = false ∧ ∃ s1, k s1 = (Ok t, s')).
Proof.
  unfold unless_terminal. intros Ht. invs Ht. apply law_terminal in H1. destruct x.
  - invs Ht. left. destruct H1. split; [done|]. by destruct H0; [left|right].
  - right. split; [done|]. eauto.
Qed.

(** C10. What a JSON write answers: success (200) only for a live client whose declared
    type is JSON, whose body read gave a value (the whole body, or the error object of
    [body_reads_correct]), and for which the native core accepted that value, as JSON and
    against the schema, or the injected check found it JSON; 415 for any other type; when
    the read failed nothing is handed to the core. *)
Theorem write_accepts_only_json (jsonValid : body_value → result bool) (copyBody : bool) (rq : Handler.Request)
    (ip : result (option (list Z))) (w : WriteWorld) (s : S) (t : Resp) (s' : S) :
  jsonWriteHandler I F jsonValid copyBody rq ip w s = (Ok t, s') →
  let json := isJsonContentType (default [] (headers rq "content-type")) in
  (p_status t = 200 →
     ∃ ip' bytes r, ip = Ok ip' ∧ j_aborted0 w = false ∧ j_aborted1 w = false ∧ json = true ∧
       j_read w = inl bytes ∧ decided rq ip' (Some bytes) r ∧ terminal r = false ∧
       bodyTruncated r = false ∧ (if bodyValidJson r then schemaValid r = true else jsonValid bytes = Ok true)) ∧
  (p_status t = 200 ∨ refusal t) ∧
  (j_aborted0 w = true → t = abortResponse ∧ s' = s) ∧
  (j_aborted0 w = false → json = false → p_status t = 415).
Proof.
  intros Ht json. unfold jsonWriteHandler in Ht. invs Ht. apply lift_inv in H1 as [-> ->].
  destruct (j_aborted0 w) eqn:E0.
  { invs Ht. split; [done|]. split; [|done]. right. right. simpl. lia. }
  fold json in Ht. destruct json eqn:Ej; cbn [negb] in Ht.
  2: { apply law_run in Ht as (r & ctx & s1 & s2 & _ & Hc). apply law_error in Hc.
       split; [lia|]. split; [right; right; lia|]. done. }
  destruct (j_read w) as [bytes|e] eqn:Er.
  - destruct (j_aborted1 w) eqn:E1.
    { invs Ht. split; [done|]. split; [|done]. right. right. simpl. lia. }
    apply law_run in Ht as (r & ctx & s1 & s2 & Hd & Hc).
    apply unless_inv in Hc as [[Htm Hr]|[Htm (s3 & Hc)]].
    { split; [destruct Hr; lia|]. split; [by right|done]. }
    destruct (bodyTruncated r) eqn:Et.
    { apply law_internal in Hc. split; [lia|]. split; [right; right; lia|done]. }
    assert (Hc' : (p_status t = 422 ∨ p_status t = 400) ∨ p_status t = 200 ∧
        if bodyValidJson r then schemaValid r = true else jsonValid bytes = Ok true).
    { destruct (bodyValidJson r).
      - destruct (schemaValid r); [right; split; [by apply body_status in Hc|done]|].
        left. left. by apply law_error in Hc.
      - invs Hc. destruct (jsonValid bytes) as [[]|]; simplify_eq/=; invs H1.
        all: first [right; split; [by apply body_status in Hc|done]|left; right; by apply law_error in Hc]. }
    destruct Hc' as [[Hs|Hs]|[Hs Hv]]; rewrite Hs; [split; [lia|]; split; [right; right; lia|done]..|].
    split; [|by split; [left|]]. intros _. exists x, bytes, r. repeat (split; [done|]). exact Hv.
  - destruct (isAbortError e) eqn:Ea.
    { invs Ht. split; [done|]. split; [|done]. right. right. simpl. lia. }
    apply law_run in Ht as (r & ctx & s1 & s2 & _ & Hc). invs Hc. apply law_terminal in H1.
    destruct x0.
    + invs Hc. destruct H1 as [_ Hr]. split; [lia|]. split; [|done]. right. destruct Hr; [by left|by right].
    + apply law_error in Hc. case_bool_decide; (split; [lia|]; split; [right; right; lia|done]).
Qed.

(** ** Echo *)

(** The headers the handler gives a response, in some state. *)
Definition base_headers (base : list header) : Prop :=
  ∃ v rid o rem rs s s', ig_responseHeaders I v rid o rem rs s = (Ok base, s').

Lemma echo_prep_inv r ctx s x s' :
  echo_prep I r ctx s = (Ok x, s') →
  match x with
  | inl t => refusal t
  | inr base => terminal r = false ∧ bodyTruncated r = false ∧
                Forall (λ h, toLowerCase h.1 ≠ CONTENT_TYPE) base ∧ base_headers base
  end.
Proof.
  unfold echo_prep. intros Ht. invs Ht. apply law_terminal in H1. destruct x0 as [t|].
  - invs Ht. destruct H1 as [_ []]; [by left|by right].
  - destruct (bodyTruncated r) eqn:Et.
    + invs Ht. apply law_internal in H0. invs Ht. right. lia.
    + invs Ht. invs Ht. split; [done|]. split; [done|]. split; [|unfold base_headers; eauto 10].
      eapply (law_headers (I := I)); [eassumption|].
      unfold has_bit. apply negb_false_iff, bool_decide_eq_true. apply Z.bits_inj'. intros n Hn.
      rewrite Z.land_spec, Z.bits_0, Z.land_spec, Z.lnot_spec by done.
      destruct (Z.testbit HV_JSON n); simpl; by rewrite ?andb_false_r.
Qed.

(** The type of the answer is the one asked for, and sniffing is settled. *)
Lemma echo_headers base ct s h s' :
  Forall (λ h, toLowerCase h.1 ≠ CONTENT_TYPE) base →
  withEchoHeaders I base ct s = (Ok h, s') →
  h !! CONTENT_TYPE = Some ct ∧ h !! NOSNIFF.1 = Some (default NOSNIFF.2 (new_Headers base !! NOSNIFF.1)).
Proof.
  unfold withEchoHeaders. intros Hb Ht. invs Ht. apply law_content in H1 as ->. invs Ht.
  assert (Hct : toLowerCase CONTENT_TYPE = CONTENT_TYPE) by (vm_compute; reflexivity).
  assert (Hns : toLowerCase NOSNIFF.1 = NOSNIFF.1) by (vm_compute; reflexivity).
  assert (Hne : CONTENT_TYPE ≠ NOSNIFF.1) by (by apply (bool_decide_unpack _); vm_compute).
  change (js "content-type") with CONTENT_TYPE. destruct (decide (Exists _ _)) as [He|He].
  - split.
    + rewrite <-Hct at 1. apply new_Headers_unique; [by rewrite Hct|constructor].
    + assert (Hl : new_Headers (base ++ [(CONTENT_TYPE, ct)]) !! NOSNIFF.1 = new_Headers base !! NOSNIFF.1).
      { unfold new_Headers. rewrite foldl_app. apply headers_other, Forall_singleton.
        cbn [fst]. congruence. }
      etrans; [exact Hl|]. apply Exists_app in He as [He|He].
      * by destruct (new_Headers_some _ _ He) as [v ->].
      * apply Exists_cons in He as [He|He%Exists_nil]; [|done]. cbn [fst] in He. congruence.
  - assert (Hf : Forall (λ e : header, toLowerCase e.1 ≠ NOSNIFF.1) base).
    { apply Forall_forall. intros e Hin Hq. apply He, Exists_app. left. apply Exists_exists. eauto. }
    split.
    + rewrite <-app_assoc. rewrite <-Hct at 1. apply new_Headers_unique; [by rewrite Hct|].
      apply Forall_singleton. rewrite Hct, Hns. congruence.
    + replace (new_Headers base !! NOSNIFF.1) with (@None (list Z)).
      2: { symmetry. etrans; [by apply headers_other|]. apply lookup_empty. }
      rewrite <-Hns at 1. destruct NOSNIFF as [n v] eqn:En. cbn [fst snd] in *.
      apply (new_Headers_unique (base ++ [(CONTENT_TYPE, ct)]) [] n v); [|constructor].
      rewrite Hns. apply Forall_app. split; [done|]. apply Forall_singleton. cbn [fst]. congruence.
Qed.

Lemma safeEcho_safe ct : mediaTypeOf (safeEchoContentType ct) ∈ SAFE_ECHO_CONTENT_TYPES.
Proof.
  unfold safeEchoContentType. destruct (decide _); [done|].
  by apply (bool_decide_unpack _); vm_compute.
Qed.

(** An echo response over the base headers of its request: a passive type, and
    [x-content-type-options: nosniff] unless the base already carries that header, in
    which case exactly the base's value. *)
Definition inert (base : list header) (t : Resp) : Prop :=
  let XCTO := js "x-content-type-options" in
  ∃ ct, p_headers t !! js "content-type" = Some ct ∧
        mediaTypeOf ct ∈ [js "application/json"; js "application/octet-stream"; js "text/plain"] ∧
        p_headers t !! XCTO = Some (default (js "nosniff") (new_Headers base !! XCTO)).

Lemma echo_response_inv base st b ct s t s' :
  Forall (λ h, toLowerCase h.1 ≠ CONTENT_TYPE) base → mediaTypeOf ct ∈ SAFE_ECHO_CONTENT_TYPES →
  echo_response I base st b ct s = (Ok t, s') → p_status t = st ∧ p_body t = b ∧ inert base t.
Proof.
  unfold echo_response. intros Hb Hs Ht. invs Ht. apply echo_headers in H1 as (? & ?); [|done].
  invs Ht. split; [done|]. split; [done|]. by exists ct.
Qed.

Lemma echo_error_inv base st name s t s' :
  Forall (λ h, toLowerCase h.1 ≠ CONTENT_TYPE) base →
  echo_response I base st (error_bytes name) (js "application/json") s = (Ok t, s') →
  p_status t = st ∧ inert base t.
Proof.
  intros Hb Ht. apply echo_response_inv in Ht as (? & _ & ?); [done|done|].
  by apply (bool_decide_unpack _); vm_compute.
Qed.


(** ** Read-style routes *)

(** A read answers 200 only for a request the core let through with its whole body
    section, and what it copies is that section. *)
Lemma read_inv copyBody aborted rq ip s t s' :
  readHandler I copyBody aborted rq ip s = (Ok t, s') →
  p_status t = 200 →
  aborted = false ∧ ∃ ip' r, ip = Ok ip' ∧ decided rq ip' None r ∧ terminal r = false ∧
    bodyTruncated r = false ∧ (copyBody = true → p_body t = RBytes (bodyJson r true)).
Proof.
  unfold readHandler, runBaked. intros Ht H200. destruct aborted; [invs Ht; done|].
  invs Ht. apply lift_inv in H1 as [-> ->]. apply law_run in Ht as (r & ctx & s1 & s2 & Hd & Hc).
  apply unless_inv in Hc as [[_ Hr]|[Htm (s3 & Hc)]]; [destruct Hr; lia|].
  destruct (bodyTruncated r) eqn:Et; [apply law_internal in Hc; lia|].
  split; [done|]. exists x, r. repeat (split; [done|]). intros ->.
  unfold body_response in Hc. invs Hc. by invs Hc.
Qed.

(** A client that is gone at entry gets the cancelled response and no work is done. *)
Lemma gone_client copyBody jsonValid maxBytes rq ip w w' s :
  w_aborted0 w = true → j_aborted0 w' = true →
  readHandler I copyBody true rq (Ok ip) s = (Ok abortResponse, s) ∧
  headHandler I true rq (Ok ip) s = (Ok abortResponse, s) ∧
  fallbackHandler I true rq (Ok ip) s = (Ok abortResponse, s) ∧
  optionsHandler I true rq (Ok ip) s = (Ok abortResponse, s) ∧
  echoHandler I maxBytes rq (Ok ip) w s = (Ok abortResponse, s) ∧
  jsonWriteHandler I F jsonValid copyBody rq (Ok ip) w' s = (Ok abortResponse, s).
Proof.
  intros E E'. unfold echoHandler, jsonWriteHandler. repeat split.
  all: unfold mbind, SE_bind; simpl; by rewrite ?E, ?E'.
Qed.

(** ** The responder bridge *)

Context `{Codec} {R : Type} (parse_record : list Z → option R) (empty_record : R).

(** The responder bridge calls the responder only for a request the native core
    accepted, once, with that request's decoded sections, its id and the body the core
    saw; everything else is answered by the pipeline with 204 or an error status, and a
    body that could not be read reaches neither. *)
Theorem responder_only_accepted (responder : Snapshot (R := R) → SE S Resp) (ignex : bool)
    (rq : Handler.Request) (ip : result (option (list Z))) (w : ResponderWorld)
    (s : S) (t : Resp) (s' : S) :
  nativeResponderRoute I parse_record empty_record responder ignex rq ip w s = (Ok t, s') →
  refusal t ∨
  ∃ ip' bodyv r s1, ip = Ok ip' ∧ decided rq ip' bodyv r ∧ terminal r = false ∧ ok r = true ∧
    d_aborted0 w = false ∧
    match d_read w with
    | None => bodyv = None
    | Some rd => d_aborted1 w = false ∧ ∃ bytes, rd = inl bytes ∧ bodyv = Some bytes
    end ∧
    responder (Snap (d_requestId w) (status r) (rateLimited r) (retryAfterMs r)
      (parseSection parse_record empty_record (queryJson r).1)
      (parseSection parse_record empty_record (cookiesJson r).1) (default (VBytes []) bodyv) ip') s1 = (Ok t, s').
Proof.
  intros Ht. unfold nativeResponderRoute in Ht. invs Ht. apply lift_inv in H1 as [-> ->].
  destruct (d_aborted0 w) eqn:E0.
  { invs Ht. left. right. simpl. lia. }
  destruct (read_or_answer _ w) as [t0|bodyv] eqn:Er.
  { invs Ht. left. right. unfold read_or_answer in Er. destruct (d_read w) as [[bytes|e]|]; [..|done].
    - destruct (d_aborted1 w); [|done]. injection Er as <-. simpl. lia.
    - injection Er as <-. destruct (isAbortError e); [simpl; lia|]. destruct e; simpl; lia. }
  invs Ht. apply law_run in H1 as (r & ctx & s1 & s2 & Hd & Hc).
  unfold responder_callback in Hc. destruct (terminal r || negb (ok r)) eqn:Et.
  - left. destruct ignex.
    + apply ret_inv in Hc as [-> ->]. invs Ht. unfold refusal, buildIgngexTerminal.
      pose proof (safeTerminalStatus_range (status r) (Decode.errorCode r) (isPreflight r) (corsAllowed r)) as Hst.
      cbv zeta in Hst. cbv zeta. destruct (isPreflight r && corsAllowed r); cbn [p_status]; [by left|by right].
    + apply bind_inv in Hc as (t1 & s3 & H1 & Hc). apply law_terminal in H1.
      apply ret_inv in Hc as [-> ->]. destruct t1 as [t1|].
      * invs Ht. destruct H1 as [_ []]; [by left|by right].
      * apply law_internal in Ht. right. lia.
  - apply ret_inv in Hc as [-> ->]. apply orb_false_iff in Et as [Htm Hok%negb_false_iff]. right.
    eexists x, bodyv, r, _. repeat (split; [done|]). split; [|done].
    unfold read_or_answer in Er. destruct (d_read w) as [[bytes|e]|]; [..|congruence].
    + destruct (d_aborted1 w); [done|]. injection Er as <-. eauto.
    + by destruct (isAbortError e).
Qed.

End laws.

(** ** Records of request data *)

Lemma record_step o k v :
  JsObject.proto o = None → wf (own o) →
  assignOwn o k v = Obj (mset k (JStr v) (own o)) None.
Proof. intros Hp _. unfold assignOwn, obj_set. rewrite Hp. by destruct (decide (k = PROTO)). Qed.

Lemma record_fold ps : ∀ o,
  JsObject.proto o = None → wf (own o) →
  foldl (λ o p, assignOwn o p.1 p.2) o ps =
    Obj (foldl (λ m p, mset p.1 (JStr p.2) m) (own o) ps) None.
Proof.
  induction ps as [|[k v] ps IH]; intros [m p] Hp Hw; cbn [foldl JsObject.proto own fst snd] in *.
  - by subst p.
  - subst p. rewrite (record_step (Obj m None) k v) by done. rewrite IH; [done..|]. by apply wf_mset.
Qed.

Lemma fold_wf ps : ∀ m : list (list Z * jsval), wf m → wf (foldl (λ m p, mset p.1 (JStr p.2) m) m ps).
Proof. induction ps as [|p ps IH]; intros m Hm; [done|]. cbn [foldl]. apply IH. by apply wf_mset. Qed.

Lemma fold_last ps : ∀ (m : list (list Z * jsval)) k,
  mget k (foldl (λ m p, mset p.1 (JStr p.2) m) m ps) =
    match mget k (reverse ps) with Some v => Some (JStr v) | None => mget k m end.
Proof.
  induction ps as [|[j v] ps IH] using rev_ind; intros m k; [done|].
  rewrite foldl_app, reverse_snoc. cbn [foldl fst snd mget]. destruct (decide (j = k)) as [->|Hne].
  - rewrite mget_mset_eq. by rewrite decide_True.
  - rewrite mget_mset_ne by congruence. rewrite decide_False by congruence. apply IH.
Qed.

(** C39. The record of decoded pairs that a native-stack route hands to its responder is
    well formed whatever keys the client sent, [__proto__] and [constructor] included: it
    keeps [Object.prototype], each key is one own property with the last value sent for
    it, and there are no other own properties. *)
Theorem pairs_record_inert (pairs : list (list Z * list Z)) :
  JsObject.proto (pairsToRecord pairs) = None ∧ wf (own (pairsToRecord pairs)) ∧
  ∀ k, mget k (own (pairsToRecord pairs)) = JStr <$> mget k (reverse pairs).
Proof.
  unfold pairsToRecord. rewrite record_fold by (done || constructor).
  cbn [JsObject.proto own empty_obj]. split; [done|]. split; [apply fold_wf; constructor|].
  intros k. rewrite fold_last. by destruct (mget k (reverse pairs)).
Qed.

(** ** The comma list in a passive type

    The text after the first [;] is not looked at: a header value that is a list passes
    when its first element is passive, and the value goes out unchanged. *)
Lemma echo_type_list :
  safeEchoContentType (js "text/plain;a, text/html") = js "text/plain;a, text/html".
Proof. vm_compute. reflexivity. Qed.

(** ** A handler that keeps the laws

    The cache-free builders, over any stateful native decision and with the context the
    pipeline makes. *)

Section reference_handler.
Context {N : Type} (p : BakedTemplateParams) (emit : bool).
Context (native : N → Handler.Request → option (list Z) → option body_value → IngressResultBase * N).
Context (context : Handler.Request → BakedContext).

Definition ref_entries_response (r : option IngressResultBase) (st : Z) (b : ResponseBuilders.resp_body)
    (ctx : BakedContext) : Resp :=
  MkResp st (new_Headers (ref_terminal p emit (variant_of r) (requestIdHeader ctx) (origin ctx) r)) (RBuilt b).

Definition reference_handler : OptimizedIngressHandler N := {|
  ig_run A rq ip b cb := λ n, let '(r, n') := native n rq ip b in cb r (context rq) n';
  ig_terminalResponse r ctx :=
    mret (of_http <$> ref_terminal_response p emit r (requestIdHeader ctx) (origin ctx));
  ig_errorResponse r st code msg ctx :=
    mret (ref_entries_response r st
      (default (BBytes (encodeUtf8 (error_payload code msg))) (error_body code)) ctx);
  ig_internalErrorResponse ctx r :=
    mret (ref_entries_response r 500 (BBytes (default [] (body_named "internal"))) ctx);
  ig_responseHeaders v rid o rem rs := mret (ref_response p emit v rid o rem rs None);
  ig_successHeaders := Some (λ v rid o rem rs, mret (ref_success p emit v rid o rem rs));
  ig_withContentType l ct := mret (l ++ [(js "content-type", ct)]);
  ig_zeroCopyResponse r ctx init := mret (with_body (RBytes (bodyJson r false)) init) |}.

(** No raw security pair overrides the content type. *)
Definition typeless (h : header) : Prop := toLowerCase h.1 ≠ js "content-type".
Context (no_type : Forall typeless (securityEntries p)).

Lemma when_typeless b l : Forall typeless l → Forall typeless (when_ b l).
Proof. by destruct b. Qed.

Lemma named_typeless n v : bool_decide (toLowerCase n ≠ js "content-type") = true → typeless (n, v).
Proof. apply bool_decide_eq_true_1. Qed.

Ltac typeless :=
  repeat first
    [ apply Forall_nil_2
    | apply Forall_app; split
    | apply when_typeless
    | apply Forall_cons; split; [apply named_typeless; vm_compute; reflexivity|] ].

Lemma template_no_type v : has_bit v HV_JSON = false → Forall typeless (ref_entries p v).
Proof.
  intros Hv. unfold ref_entries, baked_regular.
  assert (E : has_bit (Z.land v 31) HV_JSON = false).
  { unfold has_bit in *. rewrite <-Z.land_assoc. exact Hv. }
  rewrite E. apply Forall_app. split; [done|]. unfold CREDENTIALS. typeless.
Qed.

Lemma extras_no_type v rid o rem rs retry : Forall typeless (extras emit v rid o rem rs retry).
Proof.
  unfold extras, opt_header.
  destruct (needs_request_id emit rid), (needs_origin v o); typeless.
Qed.

#[export] Instance reference_laws :
  IngressLaws reference_handler (λ rq ip b r, ∃ n, (native n rq ip b).1 = r).
Proof.
  split.
  - intros A rq ip b cb s a s'. cbn [ig_run reference_handler].
    destruct (native s rq ip b) as [r n'] eqn:E. intros Hc. exists r, (context rq), n', s'.
    split; [exists s; by rewrite E|done].
  - intros r ctx s o s' Ho. apply ret_inv in Ho as [-> _]. unfold ref_terminal_response.
    destruct (terminal r); [|done]. cbn [negb].
    pose proof (safeTerminalStatus_range (status r) (Decode.errorCode r) (isPreflight r) (corsAllowed r)) as Hst.
    cbv zeta in Hst. destruct (isPreflight r && corsAllowed r); cbn [rate_args fmap option_fmap option_map of_http p_status r_status];
      (split; [done|]); [by left|by right].
  - intros r st code msg ctx s t s' Ho. by apply ret_inv in Ho as [-> _].
  - intros ctx r s t s' Ho. by apply ret_inv in Ho as [-> _].
  - intros r ctx init s t s' Ho. by apply ret_inv in Ho as [-> _].
  - intros v rid o rem rs s l s' Ho Hv. apply ret_inv in Ho as [-> _]. unfold ref_response.
    apply Forall_app. split; [by apply template_no_type|apply extras_no_type].
  - intros l ct s l' s' Ho. by apply ret_inv in Ho as [-> _].
Qed.

End reference_handler.

(** ** Witnesses *)

(** A core that lets every request through as valid JSON. *)
Definition accepting (n : nat) (rq : Handler.Request) (ip : option (list Z)) (b : option body_value)
    : IngressResultBase * nat :=
  (Base 0 0 200 1 0 0 0 false true false false false false true true false
     (match b with Some (VBytes b) => b | _ => [] end)
     [] 0 OUT_DATA_START 0 None None None None, S n).
Definition demo : OptimizedIngressHandler nat :=
  reference_handler sample_params true accepting (λ _, BCtx None None).
Definition demo_decided (rq : Handler.Request) (ip : option (list Z)) (b : option body_value)
    (r : IngressResultBase) : Prop :=
  ∃ n, (accepting n rq ip b).1 = r.

Lemma demo_types : Forall typeless (securityEntries sample_params).
Proof. by apply (bool_decide_unpack _); vm_compute. Qed.

#[local] Instance demo_laws : IngressLaws demo demo_decided.
Proof. apply reference_laws, demo_types. Defined.

Definition post (ct : string) : Handler.Request :=
  {| method := js "POST"; url := js "/p?a=1";
     headers := λ n, if decide (n = "content-type"%string) then Some (js ct) else None |}.

Lemma write_accepts_only_json_witness : ∃ t s',
  jsonWriteHandler demo demo (λ _, Ok false) true (post "application/json") (Ok None)
    {| j_aborted0 := false; j_aborted1 := false; j_read := inl (VBytes [123; 125]) |} 0%nat = (Ok t, s') ∧
  p_status t = 200 ∧ isJsonContentType (js "application/json") = true.
Proof.
  eexists _, _. split; [reflexivity|]. split; [vm_compute; reflexivity|].
  destruct (proj1 (write_accepts_only_json demo demo demo_decided demo_decided (λ _, Ok false) true
    (post "application/json") (Ok None)
    {| j_aborted0 := false; j_aborted1 := false; j_read := inl (VBytes [123; 125]) |} 0%nat _ _ eq_refl)
    ltac:(vm_compute; reflexivity)) as (ip' & bytes & r & _ & _ & _ & Hj & _).
  exact Hj.
Defined.


Lemma responder_only_accepted_witness : ∃ t s',
  nativeResponderRoute (H := bun_codec) demo (λ _, Some tt) tt
    (λ sn, mret (MkResp (n_status sn) ∅ (echo_body (n_body sn)))) false (post "a/b") (Ok None)
    {| d_aborted0 := false; d_aborted1 := false; d_requestId := js "id"; d_read := Some (inl (VBytes [1])) |} 0%nat =
    (Ok t, s') ∧ p_status t = 200 ∧ ∃ r, demo_decided (post "a/b") None (Some (VBytes [1])) r ∧ ok r = true.
Proof.
  eexists _, _. split; [reflexivity|]. split; [vm_compute; reflexivity|].
  destruct (responder_only_accepted (H := bun_codec) demo demo_decided (λ _, Some tt) tt
    (λ sn, mret (MkResp (n_status sn) ∅ (echo_body (n_body sn)))) false (post "a/b") (Ok None)
    {| d_aborted0 := false; d_aborted1 := false; d_requestId := js "id"; d_read := Some (inl (VBytes [1])) |} 0%nat
    _ _ eq_refl) as [Hr|(ip' & b & r & s1 & [= <-] & Hd & _ & Hok & _ & (_ & bytes & [= <-] & ->) & _)].
  - exfalso. destruct Hr as [Hr|Hr]; vm_compute in Hr; intuition congruence.
  - by exists r.
Defined.
