(* ===== verification/NodeServer.v ===== *)
(** The node:http adapter (src/ingress/server-node.ts): the request conversion, the
    dispatch, the response writer with its masked 500, the replay of static
    responses, the WebSocket handshake and the error sockets.

    What Node does to a [ServerResponse] is a state; what the transport does with a
    write (takes it, asks to wait for [drain], or has lost its client) is an
    argument, and so are the handlers, the URL parser and [Number]. *)

From S2P Require Import Prelude.
From S2P Require Import JsMap.
From S2P Require Import Utf8.
From S2P Require Import JsObject.
From S2P Require Import JsString.
From S2P Require Import PathMatcher.
From S2P Require Import Router.
From S2P Require Import Layout.
From S2P Require Import HeaderTemplates.
From S2P Require Import ResponseBuilders.
From S2P Require Import StateErr.
Open Scope Z_scope.

(** ** The incoming message *)

(** A value of [req.headers]: a string, or an array of strings. *)
Inductive header_value := One (v : list Z) | Many (vs : list (list Z)).
(** Its conversion to a string. *)
Definition header_text (v : header_value) : list Z :=
  match v with One v => v | Many vs => join (js ",") vs end.

Record IncomingMessage := {
  im_method : option (list Z);
  im_url : option (list Z);
  im_headers : list (list Z * option header_value) }.

(** [req.headers[name]]. *)
Definition im_header (name : string) (q : IncomingMessage) : option (list Z) :=
  header_text <$> mjoin (mget (js name) (im_headers q)).

Section node.
(** [Number(text) > bound], and [new URL(input, base)] with the [href] and [pathname]
    it gives. *)
Variable number_gt : list Z → Z → bool.
Variable URL : list Z → list Z → result (list Z * list Z).

Definition requestHasBody (q : IncomingMessage) : bool :=
  number_gt (default (js "0") (im_header "content-length" q)) 0 ||
  bool_decide (is_Some (im_header "transfer-encoding" q)).

Record WebRequest := {
  wr_method : list Z; wr_url : list Z; wr_pathname : list Z;
  wr_headers : Headers; wr_streams : bool }.

(** The loop over [Object.entries(req.headers)]. *)
Fixpoint copy_headers (entries : list (list Z * option header_value)) (h : Headers) : Headers :=
  match entries with
  | [] => h
  | (_, None) :: entries' => copy_headers entries' h
  | (key, Some (Many vs)) :: entries' =>
      copy_headers entries' (foldl (λ h v, h_append h (key, v)) h vs)
  | (key, Some (One v)) :: entries' => copy_headers entries' (h_set key v h)
  end.

(** Methods the [Request] constructor refuses. *)
Definition forbidden_method (m : list Z) : bool :=
  bool_decide (toLowerCase m ∈ [js "connect"; js "trace"; js "track"]).

Definition nodeRequestToWebRequest (q : IncomingMessage) : result WebRequest :=
  let host := default (js "localhost") (im_header "host" q) in
  '(href, pathname) ← URL (default (js "/") (im_url q)) (js "http://" ++ host);
  let method := default (js "GET") (im_method q) in
  let bodyForbidden := bool_decide (method = js "GET" ∨ method = js "HEAD") in
  guard_ok (negb (forbidden_method method)) (TypeError "Request method is unsupported") ;;
  Ok {| wr_method := method; wr_url := href; wr_pathname := pathname;
        wr_headers := copy_headers (im_headers q) ∅;
        wr_streams := requestHasBody q && negb bodyForbidden |}.

(** The events of the message and the signal they leave. *)
Inductive message_event := Aborted | Close (complete : bool).
Definition signal_aborted (evs : list message_event) : bool :=
  existsb (λ e, match e with Aborted => true | Close complete => negb complete end) evs.

(** ** The server response *)

(** What becomes of a [write]: taken, answered false and drained later, or answered
    false with no client left. *)
Inductive flow := Flowing | Drains | Gone.

Record ServerResponse := SR {
  statusCode : Z;
  res_headers : list (list Z * list (list Z));
  headersSent : bool;
  shouldKeepAlive : bool;
  resumed : bool;                      (* [req.resume()] ran *)
  written : list (list Z);             (* the chunks handed to [write] and [end] *)
  ended : bool;
  destroyed : bool;
  reports : list (@hook_call unit) }.

Definition fresh_response : ServerResponse := SR 200 [] false true false [] false false [].

Notation M := (SE ServerResponse).

Definition set_status (st : Z) (s : ServerResponse) : ServerResponse :=
  SR st (res_headers s) (headersSent s) (shouldKeepAlive s) (resumed s) (written s) (ended s)
    (destroyed s) (reports s).
Definition put_header (n : list Z) (vs : list (list Z)) (s : ServerResponse) : ServerResponse :=
  SR (statusCode s) (mset (toLowerCase n) vs (res_headers s)) (headersSent s) (shouldKeepAlive s)
    (resumed s) (written s) (ended s) (destroyed s) (reports s).
Definition set_sent (s : ServerResponse) : ServerResponse :=
  SR (statusCode s) (res_headers s) true (shouldKeepAlive s) (resumed s) (written s) (ended s)
    (destroyed s) (reports s).
Definition close_after (s : ServerResponse) : ServerResponse :=
  SR (statusCode s) (res_headers s) (headersSent s) false true (written s) (ended s) (destroyed s)
    (reports s).
Definition add_chunk (c : list Z) (s : ServerResponse) : ServerResponse :=
  SR (statusCode s) (res_headers s) (headersSent s) (shouldKeepAlive s) (resumed s)
    (written s ++ [c]) (ended s) (destroyed s) (reports s).
Definition set_ended (s : ServerResponse) : ServerResponse :=
  SR (statusCode s) (res_headers s) (headersSent s) (shouldKeepAlive s) (resumed s) (written s)
    true (destroyed s) (reports s).
Definition set_destroyed (s : ServerResponse) : ServerResponse :=
  SR (statusCode s) (res_headers s) (headersSent s) (shouldKeepAlive s) (resumed s) (written s)
    (ended s) true (reports s).
Definition add_reports (l : list hook_call) (s : ServerResponse) : ServerResponse :=
  SR (statusCode s) (res_headers s) (headersSent s) (shouldKeepAlive s) (resumed s) (written s)
    (ended s) (destroyed s) (reports s ++ l).

Definition HEADERS_SENT : js_error := JsError "Error" "ERR_HTTP_HEADERS_SENT".
Definition INVALID_CHAR : js_error := TypeError "ERR_INVALID_CHAR".
Definition INVALID_STATUS : js_error := RangeError "ERR_HTTP_INVALID_STATUS_CODE".

(** The characters Node takes in a header value; a [Headers] object takes more. *)
Definition header_value_ok (v : list Z) : bool :=
  forallb (λ u, bool_decide (u = 9 ∨ 32 ≤ u ≤ 126 ∨ 128 ≤ u ≤ 255)) v.

(** [res.setHeader(name, values)]. *)
Definition setHeader (n : list Z) (vs : list (list Z)) : M unit := λ s,
  if headersSent s then (Throw HEADERS_SENT, s)
  else if forallb header_value_ok vs then (Ok tt, put_header n vs s)
  else (Throw INVALID_CHAR, s).

Definition status_ok (st : Z) : bool := bool_decide (100 ≤ st ≤ 999).

(** The header block that the first [write] or the [end] sends. *)
Definition implicit_header : M unit := λ s,
  if headersSent s then (Ok tt, s)
  else if status_ok (statusCode s) then (Ok tt, set_sent s)
  else (Throw INVALID_STATUS, s).

Definition res_write (c : list Z) : M unit := implicit_header ;; modify (add_chunk c).
Definition res_end (c : option (list Z)) : M unit :=
  implicit_header ;; (match c with Some c => modify (add_chunk c) | None => mret tt end) ;;
  modify set_ended.

(** ** writeResponse *)

(** A [Response]: its headers as they are iterated, and its body, [null] or a stream
    of chunks that may break off. *)
Record WebResponse := {
  w_status : Z;
  w_headers : list header;
  w_body : option (list (result (list Z))) }.

Definition SET_COOKIE : list Z := js "set-cookie".
Definition is_cookie (h : header) : bool := bool_decide (toLowerCase h.1 = SET_COOKIE).
Definition getSetCookie (r : WebResponse) : list (list Z) := snd <$> List.filter is_cookie (w_headers r).

(** How a call of [writeResponse] ends, when it does not throw: [Hung] is a wait for
    a [drain] that cannot come. *)
Inductive write_end := Finished | Hung.

(** [drainUnreadBody(res)]; [complete] is [req.complete] at this time. *)
Definition drainUnreadBody (q : IncomingMessage) (complete : bool) : M unit :=
  if negb complete && requestHasBody q then
    modify close_after ;;
    sent ← gets headersSent;
    if sent : bool then mret tt else setHeader (js "connection") [js "close"]
  else mret tt.

(** The loop over [response.headers]. *)
Fixpoint set_headers (l : list header) : M unit :=
  match l with
  | [] => mret tt
  | h :: l' => (if is_cookie h then mret tt else setHeader h.1 [h.2]) ;; set_headers l'
  end.

(** [writeResponse] up to its body. *)
Definition write_head (q : IncomingMessage) (complete : bool) (r : WebResponse) : M unit :=
  drainUnreadBody q complete ;;
  modify (set_status (w_status r)) ;;
  (if existsb is_cookie (w_headers r) then setHeader SET_COOKIE (getSetCookie r) else mret tt) ;;
  set_headers (w_headers r).

Section write.
(** The fate of each write, by its number. *)
Variable flows : nat → flow.

(** The read and write loop. *)
Fixpoint send_stream (l : list (result (list Z))) : M write_end :=
  match l with
  | [] => mret Finished
  | Throw e :: _ => throw e
  | Ok c :: l' =>
      i ← gets (λ s, length (written s));
      res_write c ;;
      match flows i with Gone => mret Hung | Flowing | Drains => send_stream l' end
  end.

Definition is_head (q : IncomingMessage) : bool := bool_decide (im_method q = Some (js "HEAD")).

Definition writeResponse (q : IncomingMessage) (complete : bool) (r : WebResponse) : M write_end :=
  write_head q complete r ;;
  if is_head q then res_end None ;; mret Finished
  else
    match w_body r with
    | Some l =>
        x ← send_stream l;
        match x with Hung => mret Hung | Finished => res_end None ;; mret Finished end
    | None => res_end (Some []) ;; mret Finished
    end.

(** ** The request listener *)

Definition bytes_body (b : list Z) : option (list (result (list Z))) :=
  Some (if decide (b = []) then [] else [Ok b]).

(** The masked 500 of [createServerErrorHandler]. *)
Definition internal_bytes : list Z := default [] (body_named "internal").
Definition JSON_UTF8 : header := (js "content-type", js "application/json; charset=utf-8").
Definition masked_500 : WebResponse :=
  {| w_status := 500; w_headers := [JSON_UTF8]; w_body := bytes_body internal_bytes |}.

Definition not_found : WebResponse :=
  {| w_status := 404; w_headers := [(js "content-type", js "text/plain;charset=UTF-8")];
     w_body := bytes_body (js "Not Found") |}.

(** The hooks that [onServerError(err)] calls. *)
Definition error_reports (opts : @ServerErrorOptions unit) (e : js_error) : list hook_call :=
  (createServerErrorHandler masked_500 opts e None).2.

Definition too_large_body : list Z :=
  encodeUtf8 (json_object [json_member (js "error") (json_object
    [json_member (js "code") (json_string (js "body_too_large"));
     json_member (js "message") (json_string (js "Request body is too large"))])]).

Definition declared_too_large (maxRequestBodySize : option Z) (q : IncomingMessage) : bool :=
  match maxRequestBodySize, im_header "content-length" q with
  | Some max, Some v => number_gt v max
  | _, _ => false
  end.

Definition reject_too_large : M write_end :=
  modify close_after ;;
  setHeader (js "connection") [js "close"] ;;
  modify (set_status 413) ;;
  setHeader (js "content-type") [js "application/json"] ;;
  setHeader (js "content-length") [dec (zlen too_large_body)] ;;
  res_end (Some too_large_body) ;;
  mret Finished.

(** [dispatched] is the outcome of the conversion, the dispatch and the handler. *)
Definition listener (opts : @ServerErrorOptions unit) (maxRequestBodySize : option Z)
    (q : IncomingMessage) (complete complete' : bool) (dispatched : result WebResponse) : M write_end :=
  try_catch
    (if declared_too_large maxRequestBodySize q then reject_too_large
     else r ← lift dispatched; writeResponse q complete r)
    (λ err,
      modify (add_reports (error_reports opts err)) ;;
      sent ← gets headersSent;
      if sent : bool then modify set_destroyed ;; mret Finished
      else writeResponse q complete' masked_500).

End write.

(** ** Dispatch *)

Section dispatch.
Context {H F R U P N : Type}.
Notation Handler := (@Router.handler H F U P N).
Notation Table := (@Router.Methods H F R U P N).

Inductive node_dispatch :=
  | NCall (f : Handler) (params : jsobj)
  | NStatic (r : R)
  | NInherited (name : list Z)         (* a function of [Object.prototype] *)
  | NFallback (h : H)
  | NNotFound.

Definition select (fallback : option H) (matchPath : PathMatcher Table) (pathname method : list Z)
    : node_dispatch :=
  let missing := match fallback with Some h => NFallback h | None => NNotFound end in
  match match_path matchPath pathname with
  | None => missing
  | Some (methods, params) =>
      match method_get methods method with
      | Own (MFun f) => NCall f params
      | Own (MResponse r) => NStatic r
      | InheritedFunction => NInherited method
      | Other => missing
      end
  end.

(** What runs for a dispatch: [run] awaits the handlers and the static replay. *)
Definition respond (run : node_dispatch → WebRequest → result WebResponse)
    (fallback : option H) (matchPath : PathMatcher Table) (q : IncomingMessage) : result WebResponse :=
  webReq ← nodeRequestToWebRequest q;
  match select fallback matchPath (wr_pathname webReq) (wr_method webReq) with
  | NNotFound => Ok not_found
  | d => run d webReq
  end.

(** The options of the node:http server, all in milliseconds but the last. *)
Record NodeOptions := {
  no_idleTimeout : option Z; no_requestTimeoutMs : option Z; no_headersTimeoutMs : option Z;
  no_maxRequestsPerSocket : option Z; no_hostname : option (list Z); no_port : Z;
  no_maxRequestBodySize : option Z; no_fallback : option H }.

Definition DEFAULT_SOCKET_TIMEOUT_MS : Z := 30000.

Record NodeServer := {
  keepAliveTimeout : Z; requestTimeout : Z; headersTimeout : Z; maxRequestsPerSocket : Z;
  listen_on : Z * list Z; matchPath : PathMatcher Table }.

Definition createIngressServerNode (createNativeRoute : P → result N) (o : NodeOptions)
    (routes : list (list Z * @BakedRoute H F R U P)) : result NodeServer :=
  rs ← buildRouteHandlers createNativeRoute (no_fallback o) routes;
  m ← buildPathMatcher rs;
  Ok {| keepAliveTimeout := default 30 (no_idleTimeout o) * 1000;
        requestTimeout := default DEFAULT_SOCKET_TIMEOUT_MS (no_requestTimeoutMs o);
        headersTimeout := default DEFAULT_SOCKET_TIMEOUT_MS (no_headersTimeoutMs o);
        maxRequestsPerSocket := default 1000 (no_maxRequestsPerSocket o);
        listen_on := (no_port o, default (js "0.0.0.0") (no_hostname o));
        matchPath := m |}.

(** One request of a running server. *)
Definition serve (run : node_dispatch → WebRequest → result WebResponse) (flows : nat → flow)
    (opts : @ServerErrorOptions unit) (o : NodeOptions) (server : NodeServer)
    (q : IncomingMessage) (complete complete' : bool) : M write_end :=
  listener flows opts (no_maxRequestBodySize o) q complete complete'
    (respond run (no_fallback o) (matchPath server) q).

End dispatch.
End node.

(** ** Replaying static responses *)

(** A bare [Response] of the route table: [ss_body] is [null] or how reading it ends;
    a second read of it rejects. *)
Record StaticSource := {
  ss_status : Z; ss_headers : list header; ss_body : option (result (list Z)) }.

Definition framing (h : header) : bool :=
  bool_decide (toLowerCase h.1 ∈ [js "content-length"; js "transfer-encoding"]).

(** The cached value: status, headers without framing, bytes. *)
Definition static_snapshot := (Z * list header * option (list Z))%type.

Section static.
Variable source : nat → StaticSource.

(** [STATIC_RESPONSE_CACHE] and the bodies read so far. *)
Record StaticState := { static_cache : list (nat * result static_snapshot); body_reads : list nat }.

Definition no_statics : StaticState := {| static_cache := []; body_reads := [] |}.

Definition BODY_USED : js_error := TypeError "Body is unusable: Body has already been read".

(** [await response.arrayBuffer()]. *)
Definition read_static (r : nat) : SE StaticState (option (list Z)) := λ s,
  match ss_body (source r) with
  | None => (Ok None, s)
  | Some b =>
      if decide (r ∈ body_reads s) then (Throw BODY_USED, s)
      else (Some <$> b, {| static_cache := static_cache s; body_reads := r :: body_reads s |})
  end.

Definition fill_static (r : nat) : SE StaticState (result static_snapshot) := λ s,
  let '(b, s) := read_static r s in
  let c := b ← b;
           Ok (ss_status (source r), List.filter (negb ∘ framing) (ss_headers (source r)), b) in
  (Ok c, {| static_cache := mset r c (static_cache s); body_reads := body_reads s |}).

(** The cached value, filled in on the first use. *)
Definition cached_static (r : nat) : SE StaticState (result static_snapshot) :=
  known ← gets (λ s, mget r (static_cache s));
  match known with Some c => mret c | None => fill_static r end.

Definition materializeStaticResponse (r : nat) : SE StaticState WebResponse :=
  c ← cached_static r;
  '(st, hs, b) ← lift c;
  mret {| w_status := st; w_headers := hs; w_body := b ≫= bytes_body |}.

End static.

(** ** The WebSocket handshake *)

Definition CRLF : list Z := [13; 10].
Definition line_break (u : Z) : bool := bool_decide (u = 13 ∨ u = 10).

(** [A-Za-z0-9!#$%&'*+\-.^_`|~] *)
Definition token_char (u : Z) : bool :=
  bool_decide (65 ≤ u ≤ 90 ∨ 97 ≤ u ≤ 122 ∨ 48 ≤ u ≤ 57 ∨ u ∈ js "!#$%&'*+-.^_`|~").
Definition WS_PROTOCOL_TOKEN (s : list Z) : bool := bool_decide (s ≠ []) && forallb token_char s.

Definition formatWebSocketHandshake (accept : list Z) (protocol : option (list Z)) : result (list Z) :=
  guard_ok (negb (existsb line_break accept)) (JsError "Error" "invalid Sec-WebSocket-Accept value") ;;
  let raw := js "HTTP/1.1 101 Switching Protocols" ++ CRLF ++ js "Upgrade: websocket" ++ CRLF ++
             js "Connection: Upgrade" ++ CRLF ++ js "Sec-WebSocket-Accept: " ++ accept ++ CRLF in
  let raw := match protocol with
             | Some p => if WS_PROTOCOL_TOKEN p then raw ++ js "Sec-WebSocket-Protocol: " ++ p ++ CRLF
                         else raw
             | None => raw
             end in
  Ok (raw ++ CRLF).

(** A hijacked socket: what was written, whether it was handed over or destroyed. *)
Record Socket := { sock_written : list (list Z); sock_handed : bool; sock_destroyed : bool }.
Definition fresh_socket : Socket := {| sock_written := []; sock_handed := false; sock_destroyed := false |}.
Definition destroy_socket (s : Socket) : Socket :=
  {| sock_written := sock_written s; sock_handed := sock_handed s; sock_destroyed := true |}.

(** The upgrade listener; [upgrade] is [options.upgrade] with the handshake values it
    gives for this request, [onUpgrade] the outcome of that callback. *)
Definition upgrade_listener (webReq : result WebRequest)
    (upgrade : option (WebRequest → result (option (option (list Z) * option (list Z)))))
    (onUpgrade : option (result unit)) : SE Socket unit :=
  try_catch
    (rq ← lift webReq;
     handshake ← lift match upgrade with Some f => f rq | None => Ok None end;
     match handshake with
     | Some (Some (u :: a), protocol) =>
         raw ← lift (formatWebSocketHandshake (u :: a) protocol);
         modify (λ s, {| sock_written := sock_written s ++ [raw]; sock_handed := sock_handed s;
                         sock_destroyed := sock_destroyed s |}) ;;
         match onUpgrade with
         | None => mret tt
         | Some r =>
             modify (λ s, {| sock_written := sock_written s; sock_handed := true;
                             sock_destroyed := sock_destroyed s |}) ;;
             lift r
         end
     | _ => modify destroy_socket
     end)
    (λ _, modify destroy_socket).

(** ** Malformed requests *)

(** The bytes the [clientError] listener ends a writable socket with. *)
Definition client_error_body (isHeaderOverflow : bool) : list Z :=
  let reason := js (if isHeaderOverflow then "Request Header Fields Too Large" else "Bad Request") in
  let code := js (if isHeaderOverflow then "headers_too_large" else "bad_request") in
  json_object [json_member (js "error") (json_object
    [json_member (js "code") (json_string code); json_member (js "message") (json_string reason)])].

Definition clientError (writable isHeaderOverflow : bool) : option (list Z) :=
  if writable then
    let status := if isHeaderOverflow then 431 else 400 in
    let reason := js (if isHeaderOverflow then "Request Header Fields Too Large" else "Bad Request") in
    let body := client_error_body isHeaderOverflow in
    Some (encodeUtf8 (js "HTTP/1.1 " ++ dec status ++ js " " ++ reason ++ CRLF ++
            js "Content-Type: application/json" ++ CRLF ++
            js "Content-Length: " ++ dec (zlen (encodeUtf8 body)) ++ CRLF ++
            js "Connection: close" ++ CRLF ++ CRLF ++ body))
  else None.

(** ** What a response does to the socket *)

Section delivery.
Variables (number_gt : list Z → Z → bool) (flows : nat → flow).

(** The chunks a body stream gets through before it ends, breaks or loses its client,
    and which of these happens; [n] writes came before. *)
Fixpoint stream_chunks (n : nat) (l : list (result (list Z))) : list (list Z) :=
  match l with
  | Ok c :: l' => c :: match flows n with Gone => [] | _ => stream_chunks (S n) l' end
  | _ => []
  end.
Fixpoint stream_result (n : nat) (l : list (result (list Z))) : result write_end :=
  match l with
  | [] => Ok Finished
  | Throw e :: _ => Throw e
  | Ok _ :: l' => match flows n with Gone => Ok Hung | _ => stream_result (S n) l' end
  end.

Definition values_ok (w : WebResponse) : bool := forallb (λ h, header_value_ok h.2) (w_headers w).

(** How the writing of [w] on a fresh response ends, and the chunks written. *)
Definition delivery (q : IncomingMessage) (w : WebResponse) : result write_end * list (list Z) :=
  if negb (values_ok w) then (Throw INVALID_CHAR, [])
  else if is_head q then (if status_ok (w_status w) then Ok Finished else Throw INVALID_STATUS, [])
  else
    match w_body w with
    | None => if status_ok (w_status w) then (Ok Finished, [[]]) else (Throw INVALID_STATUS, [])
    | Some l =>
        if status_ok (w_status w) then (stream_result 0 l, stream_chunks 0 l)
        else (match l with Throw e :: _ => Throw e | _ => Throw INVALID_STATUS end, [])
    end.

(** The headers the client is sent. *)
Definition header_table (l : list header) (m : list (list Z * list (list Z))) :=
  foldl (λ m h, if is_cookie h then m else mset (toLowerCase h.1) [h.2] m) m l.
Definition unread (q : IncomingMessage) (complete : bool) : bool :=
  negb complete && requestHasBody number_gt q.
Definition sent_headers (q : IncomingMessage) (complete : bool) (w : WebResponse)
    (m : list (list Z * list (list Z))) : list (list Z * list (list Z)) :=
  let m := if unread q complete then mset (js "connection") [js "close"] m else m in
  let m := if existsb is_cookie (w_headers w) then mset SET_COOKIE (getSetCookie w) m else m in
  header_table (w_headers w) m.

Definition with_headers (hs : list (list Z * list (list Z))) (s : ServerResponse) : ServerResponse :=
  SR (statusCode s) hs (headersSent s) (shouldKeepAlive s) (resumed s) (written s) (ended s)
    (destroyed s) (reports s).

(** Nothing has gone to the client between the two states. *)
Definition unsent_since (s s' : ServerResponse) : Prop :=
  headersSent s' = false ∧ written s' = written s ∧ ended s' = ended s ∧
  destroyed s' = destroyed s ∧ reports s' = reports s.

Lemma setHeader_cases n vs s :
  headersSent s = false →
  setHeader n vs s = if forallb header_value_ok vs then (Ok tt, put_header n vs s) else (Throw INVALID_CHAR, s).
Proof. intros E. unfold setHeader. by rewrite E. Qed.

Lemma set_headers_cases l : ∀ s, headersSent s = false →
  if forallb (λ h, is_cookie h || header_value_ok h.2) l
  then set_headers l s = (Ok tt, with_headers (header_table l (res_headers s)) s)
  else ∃ hs, set_headers l s = (Throw INVALID_CHAR, with_headers hs s).
Proof.
  induction l as [|h l IH]; intros s Hs; [by destruct s|]. cbn [forallb set_headers header_table foldl].
  destruct (is_cookie h) eqn:Ec.
  - rewrite (se_bind_Ok _ _ s tt s) by done. exact (IH s Hs).
  - cbn [orb]. pose proof (setHeader_cases h.1 [h.2] s Hs) as E. cbn [forallb] in E.
    rewrite andb_true_r in E. destruct (header_value_ok h.2); cbn [andb].
    + rewrite (se_bind_Ok _ _ _ _ _ E).
      specialize (IH (put_header h.1 [h.2] s) Hs).
      destruct (forallb _ l); [done|]. by destruct IH as [hs ->]; exists hs.
    + rewrite (se_bind_Throw _ _ _ _ _ E). exists (res_headers s). by destruct s.
Qed.

Lemma cookies_ok (w : WebResponse) :
  values_ok w = forallb header_value_ok (getSetCookie w) &&
                forallb (λ h, is_cookie h || header_value_ok h.2) (w_headers w).
Proof.
  unfold values_ok, getSetCookie. induction (w_headers w) as [|h l IH]; [done|].
  cbn [forallb List.filter]. rewrite IH.
  destruct (is_cookie h); cbn [fmap list_fmap forallb orb andb];
    destruct (header_value_ok h.2); cbn [andb]; rewrite ?andb_false_r; done.
Qed.

(** *** The part before the body *)

Lemma drain_spec q complete s :
  headersSent s = false →
  drainUnreadBody number_gt q complete s =
    (Ok tt, if unread q complete then put_header (js "connection") [js "close"] (close_after s) else s).
Proof.
  intros Hs. unfold drainUnreadBody. fold (unread q complete). destruct (unread q complete); [|done].
  unfold mbind, SE_bind, modify, gets. cbn [headersSent close_after]. rewrite Hs.
  rewrite setHeader_cases by done.
  by assert (forallb header_value_ok [js "close"] = true) as -> by (vm_compute; reflexivity).
Qed.

Lemma write_head_spec q complete w s :
  headersSent s = false →
  ∃ s', unsent_since s s' ∧
    write_head number_gt q complete w s = (if values_ok w then Ok tt else Throw INVALID_CHAR, s') ∧
    (values_ok w = true → statusCode s' = w_status w ∧
       res_headers s' = sent_headers q complete w (res_headers s) ∧
       (unread q complete = true → shouldKeepAlive s' = false ∧ resumed s' = true)).
Proof.
  intros Hs. unfold write_head. rewrite (se_bind_Ok _ _ _ _ _ (drain_spec q complete s Hs)).
  set (s0 := if unread q complete then _ else s). unfold mbind, SE_bind. cbn [modify].
  set (s1 := set_status (w_status w) s0).
  assert (U : unsent_since s s1) by (subst s1 s0; by destruct (unread q complete)).
  assert (K : unread q complete = true → shouldKeepAlive s1 = false ∧ resumed s1 = true)
    by (subst s1 s0; by intros ->).
  assert (St : statusCode s1 = w_status w) by (subst s1; by destruct s0).
  assert (Hd : res_headers s1 = if unread q complete then mset (js "connection") [js "close"] (res_headers s)
                                else res_headers s) by (subst s1 s0; by destruct (unread q complete)).
  clearbody s1. clear s0. rewrite (cookies_ok w). unfold sent_headers. rewrite <-Hd. clear Hd.
  destruct U as (U1 & U2 & U3 & U4 & U5).
  assert (∃ s2, (if existsb is_cookie (w_headers w) then setHeader SET_COOKIE (getSetCookie w) else mret tt) s1 =
      (if forallb header_value_ok (getSetCookie w) then Ok tt else Throw INVALID_CHAR, s2) ∧
    s2 = with_headers (if existsb is_cookie (w_headers w) && forallb header_value_ok (getSetCookie w)
                       then mset SET_COOKIE (getSetCookie w) (res_headers s1) else res_headers s1) s1) as (s2 & -> & E2).
  { eexists. split; [|done]. destruct (existsb is_cookie (w_headers w)) eqn:Ec.
    - rewrite setHeader_cases by done. destruct (forallb _ _); cbn [andb]; [done|by destruct s1].
    - assert (getSetCookie w = []) as ->; [|by destruct s1]. unfold getSetCookie.
      assert (List.filter is_cookie (w_headers w) = []) as ->; [|done].
      induction (w_headers w) as [|h l IH]; [done|]. cbn in Ec |- *. apply orb_false_elim in Ec as [-> Ec]. auto. }
  destruct (forallb header_value_ok (getSetCookie w)).
  - rewrite andb_true_r in E2. pose proof (set_headers_cases (w_headers w) s2) as E3.
    cbn [andb]. destruct (forallb _ (w_headers w)).
    + rewrite E3 by (by subst s2). eexists. split; [|split; [done|]]; subst s2; [done|]. by destruct (existsb _ _).
    + destruct E3 as [hs ->]; [by subst s2|]. eexists. split; [|split; [done|done]]; by subst s2.
  - cbn [andb]. eexists. split; [|split; [done|done]]; by subst s2.
Qed.

(** *** The body *)

Definition sent_chunks (cs : list (list Z)) (s : ServerResponse) : ServerResponse :=
  SR (statusCode s) (res_headers s) (headersSent s || negb (bool_decide (cs = []))) (shouldKeepAlive s)
    (resumed s) (written s ++ cs) (ended s) (destroyed s) (reports s).

Lemma sent_nothing s : sent_chunks [] s = s.
Proof. destruct s. unfold sent_chunks. cbn. by rewrite app_nil_r, orb_false_r. Qed.

Lemma implicit_ok s :
  headersSent s || status_ok (statusCode s) = true → implicit_header s = (Ok tt, set_sent s).
Proof. unfold implicit_header. destruct s as [? ? [] ? ? ? ? ? ?]; cbn; [done|]. by intros ->. Qed.

Lemma res_write_ok c s :
  headersSent s || status_ok (statusCode s) = true → res_write c s = (Ok tt, sent_chunks [c] s).
Proof.
  intros H. unfold res_write. rewrite (se_bind_Ok _ _ _ _ _ (implicit_ok s H)).
  unfold modify, sent_chunks, add_chunk, set_sent. cbn. by rewrite orb_true_r.
Qed.

Lemma res_end_ok c s :
  headersSent s || status_ok (statusCode s) = true →
  res_end c s = (Ok tt, set_ended (set_sent (sent_chunks (option_list c) s))).
Proof.
  intros H. unfold res_end. rewrite (se_bind_Ok _ _ _ _ _ (implicit_ok s H)).
  destruct c; cbn [option_list]; [done|]. rewrite sent_nothing. done.
Qed.

Lemma send_stream_spec l : ∀ s, headersSent s || status_ok (statusCode s) = true →
  send_stream flows l s = (stream_result (length (written s)) l,
                           sent_chunks (stream_chunks (length (written s)) l) s).
Proof.
  induction l as [|[c|e] l IH]; intros s Hs; cbn [send_stream stream_result stream_chunks];
    [by rewrite sent_nothing| |by rewrite sent_nothing].
  unfold mbind at 1, SE_bind at 1. cbn [gets].
  rewrite (se_bind_Ok _ _ _ _ _ (res_write_ok c s Hs)).
  assert (length (written (sent_chunks [c] s)) = S (length (written s))) as L
    by (cbn; rewrite length_app; cbn; lia).
  destruct (flows (length (written s))); [| |done]; rewrite IH, L by (cbn; by rewrite orb_true_r);
    unfold sent_chunks; cbn; by rewrite <-app_assoc, orb_true_r.
Qed.

Lemma stream_hung l n :
  match stream_result n l with Ok Hung => stream_chunks n l ≠ [] | _ => True end.
Proof. destruct l as [|[c|e] l]; cbn; [done| |done]. by destruct (flows n), (stream_result (S n) l) as [[]|]. Qed.

Lemma writeResponse_spec q complete w s :
  headersSent s = false → written s = [] →
  ∃ s', writeResponse number_gt flows q complete w s = ((delivery q w).1, s') ∧
    written s' = (delivery q w).2 ∧
    ended s' = (match (delivery q w).1 with Ok Finished => true | _ => ended s end) ∧
    headersSent s' = (match delivery q w with (Throw _, []) => false | (Ok _, _) | (Throw _, _ :: _) => true end) ∧
    destroyed s' = destroyed s ∧ reports s' = reports s ∧
    (values_ok w = true → statusCode s' = w_status w ∧
       res_headers s' = sent_headers q complete w (res_headers s) ∧
       (unread q complete = true → shouldKeepAlive s' = false ∧ resumed s' = true)).
Proof.
  intros Hs Hw. unfold writeResponse, delivery.
  destruct (write_head_spec q complete w s Hs) as (s1 & (U1 & U2 & U3 & U4 & U5) & E1 & V1).
  destruct (values_ok w); cbn [negb].
  2: { rewrite (se_bind_Throw _ _ _ _ _ E1). exists s1. cbn. by rewrite U2, Hw. }
  rewrite (se_bind_Ok _ _ _ _ _ E1). destruct V1 as (St & Hd & K); [done|].
  assert (Hn : written s1 = []) by congruence.
  destruct (status_ok (w_status w)) eqn:So.
  - assert (Ok1 : headersSent s1 || status_ok (statusCode s1) = true) by (by rewrite St, So, orb_true_r).
    destruct (is_head q); [|destruct (w_body w) as [l|]].
    + rewrite (se_bind_Ok _ _ _ _ _ (res_end_ok None s1 Ok1)). eexists. split; [done|]. cbn.
      by rewrite Hn.
    + pose proof (send_stream_spec l s1 Ok1) as E2. rewrite Hn in E2. cbn [length] in E2.
      rewrite (se_bind_run _ _ _ _ _ E2). clear E2.
      set (cs := stream_chunks 0 l). set (s2 := sent_chunks cs s1).
      assert (Hcs : match stream_result 0 l with Ok Hung => cs ≠ [] | _ => True end)
        by apply stream_hung.
      destruct (stream_result 0 l) as [[|]|e]; cbn [fst snd].
      * rewrite (se_bind_Ok _ _ _ _ _ (res_end_ok None s2 ltac:(cbn; by rewrite St, So, orb_true_r))).
        eexists. split; [done|]. cbn. by rewrite Hn, app_nil_r.
      * eexists. split; [done|]. cbn. rewrite Hn, U1, bool_decide_false by done. done.
      * eexists. split; [done|]. cbn. rewrite Hn, U1. by destruct cs.
    + rewrite (se_bind_Ok _ _ _ _ _ (res_end_ok (Some []) s1 Ok1)). eexists. split; [done|]. cbn.
      by rewrite Hn.
  - assert (implicit_header s1 = (Throw INVALID_STATUS, s1)) as I1
      by (unfold implicit_header; by rewrite U1, St, So).
    assert (∀ c, res_end c s1 = (Throw INVALID_STATUS, s1)) as I2
      by (intros c; unfold res_end; exact (se_bind_Throw _ _ _ _ _ I1)).
    exists s1. destruct (is_head q); [|destruct (w_body w) as [[|[c|e] l]|]].
    + by rewrite (se_bind_Throw _ _ _ _ _ (I2 None)).
    + rewrite (se_bind_run (send_stream flows []) _ s1 (Ok Finished) s1) by done.
      by rewrite (se_bind_Throw _ _ _ _ _ (I2 None)).
    + cbn [send_stream]. rewrite (se_bind_Throw _ _ s1 INVALID_STATUS s1); [done|].
      unfold mbind at 1, SE_bind at 1. cbn [gets].
      apply se_bind_Throw. unfold res_write. by apply se_bind_Throw.
    + by rewrite (se_bind_Throw _ _ s1 e s1).
    + by rewrite (se_bind_Throw _ _ _ _ _ (I2 (Some []))).
Qed.

(** *** The listener *)

Lemma masked_delivery q :
  delivery q masked_500 =
    if is_head q then (Ok Finished, [])
    else (match flows 0 with Gone => Ok Hung | _ => Ok Finished end, [internal_bytes]).
Proof.
  unfold delivery. assert (values_ok masked_500 = true) as -> by (vm_compute; reflexivity). cbn [negb].
  destruct (is_head q); [done|]. cbn [masked_500 w_body w_status]. unfold bytes_body.
  rewrite decide_False by (by apply (bool_decide_unpack _); vm_compute).
  cbn [status_ok stream_result stream_chunks]. by destruct (flows 0).
Qed.

Lemma masked_type q complete m :
  mget (js "content-type") (sent_headers q complete masked_500 m) = Some [JSON_UTF8.2].
Proof.
  unfold sent_headers, header_table. cbn [masked_500 w_headers foldl].
  assert (is_cookie JSON_UTF8 = false) as -> by (vm_compute; reflexivity).
  apply mget_mset_eq.
Qed.

(** What a request that fails before a byte is sent leaves. *)
Definition masked (opts : @ServerErrorOptions unit) (q : IncomingMessage) (e : js_error)
    (x : write_end) (s : ServerResponse) : Prop :=
  destroyed s = false ∧ reports s = error_reports opts e ∧ statusCode s = 500 ∧
  mget (js "content-type") (res_headers s) = Some [JSON_UTF8.2] ∧
  written s = (if is_head q then [] else [internal_bytes]) ∧
  match flows 0, is_head q with
  | Gone, false => x = Hung ∧ ended s = false
  | _, _ => x = Finished ∧ ended s = true
  end.

Lemma masked_spec opts q complete e s :
  unsent_since fresh_response s →
  ∃ x s', writeResponse number_gt flows q complete masked_500 (add_reports (error_reports opts e) s) =
    (Ok x, s') ∧ masked opts q e x s'.
Proof.
  intros (U1 & U2 & U3 & U4 & U5).
  destruct (writeResponse_spec q complete masked_500 (add_reports (error_reports opts e) s))
    as (s' & E & W & En & _ & D & R & V); [done..|].
  destruct V as (St & Hd & _); [vm_compute; reflexivity|].
  exists (match flows 0, is_head q with Gone, false => Hung | _, _ => Finished end), s'.
  rewrite E. unfold masked. rewrite D, R, St, Hd, masked_type, W, En, masked_delivery.
  cbn [destroyed reports add_reports ended]. rewrite U3, U4, U5. cbn [ended destroyed reports fresh_response app].
  destruct (is_head q), (flows 0); auto 10.
Qed.

Lemma reject_spec :
  ∃ s', reject_too_large fresh_response = (Ok Finished, s') ∧
    statusCode s' = 413 ∧ written s' = [too_large_body] ∧ ended s' = true ∧ destroyed s' = false ∧
    reports s' = [] ∧ shouldKeepAlive s' = false ∧ resumed s' = true ∧
    res_headers s' = [(js "connection", [js "close"]); (js "content-type", [js "application/json"]);
                      (js "content-length", [dec (zlen too_large_body)])].
Proof. eexists. split; [by vm_compute|]. vm_compute. auto 10. Qed.

(** How a request ends that is not turned away for its declared size. *)
Definition concluded (opts : @ServerErrorOptions unit) (q : IncomingMessage) (complete : bool)
    (dispatched : result WebResponse) (x : write_end) (s : ServerResponse) : Prop :=
  match dispatched with
  | Throw e => masked opts q e x s
  | Ok w =>
      match delivery q w with
      | (Ok y, cs) =>
          x = y ∧ ended s = (match y with Finished => true | Hung => false end) ∧
          destroyed s = false ∧ reports s = [] ∧ written s = cs ∧
          statusCode s = w_status w ∧ res_headers s = sent_headers q complete w []
      | (Throw e, []) => masked opts q e x s
      | (Throw e, cs) =>
          x = Finished ∧ ended s = false ∧ destroyed s = true ∧ reports s = error_reports opts e ∧
          written s = cs ∧ statusCode s = w_status w
      end
  end.

(** C8. On a fresh response the listener never rejects, and what it leaves is
    determined by the response the dispatch gives.  A request with too long a declared
    body is answered 413 and its connection closed.  A response that can be written is
    written with its status, headers and chunks, and ended.  A failure before the first
    byte (of the conversion, the handler, a header value or the first read) is reported
    to the hooks and answered by the masked 500; a failure after it is reported and the
    socket destroyed.  Only a write whose client is gone leaves the request open. *)
Theorem node_requests_conclude (opts : @ServerErrorOptions unit) (maxSize : option Z)
    (q : IncomingMessage) (complete complete' : bool) (dispatched : result WebResponse) :
  ∃ x s, listener number_gt flows opts maxSize q complete complete' dispatched fresh_response = (Ok x, s) ∧
    if declared_too_large number_gt maxSize q then
      x = Finished ∧ statusCode s = 413 ∧ written s = [too_large_body] ∧ ended s = true ∧
      destroyed s = false ∧ reports s = [] ∧ shouldKeepAlive s = false ∧ resumed s = true
    else concluded opts q complete dispatched x s.
Proof.
  unfold listener. destruct (declared_too_large number_gt maxSize q).
  { destruct reject_spec as (s & E & H). exists Finished, s. rewrite (try_catch_Ok _ _ _ _ _ E).
    destruct H as (H1 & H2 & H3 & H4 & H5 & H6 & H7 & _).
    exact (conj eq_refl (conj eq_refl (conj H1 (conj H2 (conj H3 (conj H4 (conj H5 (conj H6 H7)))))))). }
  destruct dispatched as [w|e]; cbn [concluded].
  2: { destruct (masked_spec opts q complete' e fresh_response) as (x & s & E & H); [done|]. eauto. }
  destruct (writeResponse_spec q complete w fresh_response) as (s & E & W & En & Se & D & R & V); [done..|].
  assert (V' : (∃ e, delivery q w = (Throw e, [])) ∨ values_ok w = true)
    by (unfold delivery; destruct (values_ok w); cbn [negb]; eauto).
  unfold try_catch, mbind, SE_bind. cbn [lift]. rewrite E. clear E.
  destruct (delivery q w) as [[y|e] cs]; cbn [fst snd] in *.
  - destruct V' as [[e [=]]|V']. destruct (V V') as (St & Hd & _).
    exists y, s. split; [done|]. by repeat split.
  - cbn [modify gets add_reports headersSent]. destruct cs as [|c cs]; rewrite Se.
    + destruct (masked_spec opts q complete' e s) as (x & s' & E & H); [|eauto].
      by (repeat split; rewrite ?W, ?En, ?D, ?R).
    + destruct V' as [[e' [=]]|V']. destruct (V V') as (St & _).
      do 2 eexists. split; [reflexivity|].
      cbn [ended destroyed reports written statusCode set_destroyed add_reports fresh_response app].
      rewrite R. cbn [reports fresh_response app]. repeat split; assumption.
Qed.

End delivery.

(** A stream that breaks at its first read: its headers are already set, and the
    masked 500 goes out with the length and the encoding of the lost response. *)
Definition broken_stream : WebResponse :=
  {| w_status := 200;
     w_headers := [(js "content-encoding", js "gzip"); (js "content-length", js "5")];
     w_body := Some [Throw (JsError "Error" "lost")] |}.
Definition bare_get : IncomingMessage := {| im_method := Some (js "GET"); im_url := None; im_headers := [] |}.
Definition plain_gt (s : list Z) (bound : Z) : bool := false.
Definition no_hooks : @ServerErrorOptions unit := {| Router.onError := None; logger := None |}.

Lemma masked_500_keeps_headers :
  let s := (listener plain_gt (λ _, Flowing) no_hooks None bare_get true true (Ok broken_stream)
              fresh_response).2 in
  statusCode s = 500 ∧ written s = [internal_bytes] ∧ ended s = true ∧
  mget (js "content-length") (res_headers s) = Some [js "5"] ∧
  mget (js "content-encoding") (res_headers s) = Some [js "gzip"].
Proof. vm_compute. auto 10. Qed.

(** A client that leaves while [write] is waiting for [drain]: the call never ends, and
    the rest of the body is neither read nor cancelled. *)
Lemma lost_client_hangs c l :
  (listener plain_gt (λ _, Gone) no_hooks None bare_get true true
     (Ok {| w_status := 200; w_headers := []; w_body := Some (Ok c :: l) |}) fresh_response).1 = Ok Hung.
Proof. reflexivity. Qed.

(** ** Static responses *)

Definition static_answer (src : StaticSource) : result WebResponse :=
  b ← match ss_body src with None => Ok None | Some b => Some <$> b end;
  Ok {| w_status := ss_status src; w_headers := List.filter (negb ∘ framing) (ss_headers src);
        w_body := b ≫= bytes_body |}.

Section replay.
Variable source : nat → StaticSource.

Definition snapshot_of (r : nat) : result static_snapshot :=
  b ← match ss_body (source r) with None => Ok None | Some b => Some <$> b end;
  Ok (ss_status (source r), List.filter (negb ∘ framing) (ss_headers (source r)), b).

Record static_inv (s : StaticState) : Prop := {
  si_cache : ∀ r c, mget r (static_cache s) = Some c → c = snapshot_of r;
  si_reads : ∀ r, r ∈ body_reads s → is_Some (mget r (static_cache s));
  si_nodup : NoDup (body_reads s) }.

Lemma fill_spec r s :
  static_inv s → mget r (static_cache s) = None →
  ∃ s', fill_static source r s = (Ok (snapshot_of r), s') ∧ static_inv s'.
Proof.
  intros [Hc Hr Hn] E.
  assert (r ∉ body_reads s) as F by (intros H; destruct (Hr r H); congruence).
  unfold fill_static, read_static, snapshot_of.
  set (rd := match ss_body (source r) with None => body_reads s | Some _ => r :: body_reads s end).
  exists {| static_cache := mset r (snapshot_of r) (static_cache s); body_reads := rd |}. split.
  - unfold snapshot_of, rd. destruct (ss_body (source r)); [|done]. by rewrite decide_False.
  - assert (rd ⊆ r :: body_reads s ∧ NoDup rd) as [Hs Hd].
    { subst rd. destruct (ss_body (source r)); split; [done|by constructor|set_solver|done]. }
    split; cbn [static_cache body_reads]; [| |done].
    + intros r' c. rewrite mget_mset. case_decide; [by intros [= <-]; subst|apply Hc].
    + intros r' Hin. apply Hs in Hin. rewrite mget_mset. case_decide as Hq; [by eexists|].
      apply Hr. set_solver.
Qed.

Lemma materialize_spec r s :
  static_inv s →
  ∃ s', materializeStaticResponse source r s = (static_answer (source r), s') ∧ static_inv s'.
Proof.
  intros I.
  assert (∃ s', cached_static source r s = (Ok (snapshot_of r), s') ∧ static_inv s') as (s' & E & I').
  { unfold cached_static. rewrite (se_bind_run _ _ s (Ok (mget r (static_cache s))) s) by done.
    cbv beta iota. destruct (mget r (static_cache s)) as [c|] eqn:Ec; [|by apply fill_spec].
    exists s. by rewrite (si_cache _ I _ _ Ec). }
  exists s'. split; [|done]. unfold materializeStaticResponse. rewrite (se_bind_Ok _ _ _ _ _ E).
  unfold snapshot_of, static_answer.
  by destruct (ss_body (source r)) as [[b|e]|].
Qed.

(** Whatever static routes are asked for and in whatever order, every request for
    one gets the same status, headers (without framing) and bytes, or the same error,
    and the body of each [Response] is read at most once. *)
Theorem static_replays (rs : list nat) :
  match attempts (materializeStaticResponse source <$> rs) no_statics with
  | (answers, s) => answers = static_answer ∘ source <$> rs ∧ NoDup (body_reads s)
  end.
Proof.
  assert (static_inv no_statics) as I by (split; [done|set_solver|constructor]).
  revert I. generalize no_statics.
  induction rs as [|r rs IH]; intros s I; cbn [fmap list_fmap attempts]; [split; [done|apply I]|].
  destruct (materialize_spec r s I) as (s' & -> & I'). specialize (IH s' I').
  destruct (attempts _ s') as [as' s'']. by destruct IH as [-> ?].
Qed.

End replay.

(** ** The upgrade *)

(** The lines a client reads: what stands between the CRLF pairs. *)
Fixpoint head_lines (s : list Z) : list (list Z) :=
  match s with
  | [] => [[]]
  | u :: s' =>
      match s' with
      | v :: s'' =>
          if decide (u = 13 ∧ v = 10) then [] :: head_lines s''
          else match head_lines s' with l :: ls => (u :: l) :: ls | [] => [[u]] end
      | [] => [[u]]
      end
  end.

Lemma head_lines_crlf s : head_lines (CRLF ++ s) = [] :: head_lines s.
Proof. done. Qed.

Lemma head_lines_line l s : existsb line_break l = false → head_lines (l ++ CRLF ++ s) = l :: head_lines s.
Proof.
  induction l as [|u l IH]; intros Hl; [by rewrite app_nil_l, head_lines_crlf|].
  cbn in Hl. apply orb_false_elim in Hl as [Hu Hl]. apply bool_decide_eq_false in Hu.
  specialize (IH Hl). cbn [app]. set (r := l ++ CRLF ++ s) in *.
  assert (r ≠ []) by (subst r; by destruct l). destruct r as [|v r]; [done|].
  cbn [head_lines]. rewrite decide_False by tauto. cbn [head_lines] in IH. by rewrite IH.
Qed.

Fixpoint lines_text (ls : list (list Z)) : list Z :=
  match ls with [] => [] | l :: ls' => l ++ CRLF ++ lines_text ls' end.

Lemma head_lines_text ls s :
  Forall (λ l, existsb line_break l = false) ls → head_lines (lines_text ls ++ s) = ls ++ head_lines s.
Proof.
  induction 1 as [|l ls Hl _ IH]; [done|]. cbn [lines_text app].
  rewrite <-!app_assoc, head_lines_line by done. by rewrite IH.
Qed.

Lemma token_no_break p : WS_PROTOCOL_TOKEN p = true → existsb line_break p = false.
Proof.
  unfold WS_PROTOCOL_TOKEN. intros H. apply andb_true_iff in H as [_ H].
  induction p as [|u p IH]; [done|]. cbn in H |- *. apply andb_true_iff in H as [Hu H].
  rewrite IH by done. rewrite orb_false_r. apply bool_decide_eq_false. intros Hb.
  unfold token_char in Hu. apply bool_decide_eq_true in Hu.
  assert (u ∉ js "!#$%&'*+-.^_`|~") as F
    by (destruct Hb as [-> | ->]; by apply (bool_decide_unpack _); vm_compute).
  destruct Hu as [?|[?|[?|?]]]; [lia..|done].
Qed.

(** The header of a protocol that is a token. *)
Definition protocol_line (protocol : option (list Z)) : list (list Z) :=
  match protocol with
  | Some p => if WS_PROTOCOL_TOKEN p then [js "Sec-WebSocket-Protocol: " ++ p] else []
  | None => []
  end.

(** The head written for a handshake is the four fixed lines, then the protocol
    when it is a token, then the empty line, whatever the accept key and the protocol
    are: neither can add a line.  An accept key with a line break is refused. *)
Theorem handshake_lines (accept : list Z) (protocol : option (list Z)) :
  match formatWebSocketHandshake accept protocol with
  | Ok head =>
      head_lines head =
        [js "HTTP/1.1 101 Switching Protocols"; js "Upgrade: websocket"; js "Connection: Upgrade";
         js "Sec-WebSocket-Accept: " ++ accept] ++ protocol_line protocol ++ [[]; []] ∧
      Forall (λ l, existsb line_break l = false) (head_lines head)
  | Throw _ => existsb line_break accept = true
  end.
Proof.
  set (offered := protocol_line protocol). unfold formatWebSocketHandshake.
  destruct (existsb line_break accept) eqn:Ha; cbn [negb]; [done|].
  set (fixed := [js "HTTP/1.1 101 Switching Protocols"; js "Upgrade: websocket"; js "Connection: Upgrade";
                 js "Sec-WebSocket-Accept: " ++ accept]).
  assert (Hf : Forall (λ l, existsb line_break l = false) fixed).
  { unfold fixed. repeat constructor; [by vm_compute..|]. rewrite existsb_app, Ha, orb_false_r. by vm_compute. }
  assert (Ho : Forall (λ l, existsb line_break l = false) offered).
  { unfold offered, protocol_line. destruct protocol as [p|]; [|constructor]. destruct (WS_PROTOCOL_TOKEN p) eqn:Hp; [|constructor].
    repeat constructor. rewrite existsb_app, (token_no_break p Hp), orb_false_r. by vm_compute. }
  assert (E : (guard_ok true (JsError "Error" "invalid Sec-WebSocket-Accept value") ;;
      Ok (lines_text (fixed ++ offered ++ [[]]))) = formatWebSocketHandshake accept protocol).
  { unfold formatWebSocketHandshake. rewrite Ha. cbn [negb guard_ok]. do 2 f_equal.
    unfold fixed, offered, protocol_line. destruct protocol as [p|]; [destruct (WS_PROTOCOL_TOKEN p)|];
      cbn [app lines_text]; by rewrite <-?app_assoc, ?app_nil_r. }
  unfold formatWebSocketHandshake in E. rewrite Ha in E. cbn [negb] in E. rewrite <-E.
  change (guard_ok true ?e ;; ?k) with k. cbv beta iota.
  rewrite <-(app_nil_r (lines_text _)), head_lines_text by (rewrite !Forall_app; repeat split; [done..|by repeat constructor]).
  cbn [head_lines]. rewrite <-!app_assoc. split; [done|].
  rewrite !Forall_app. repeat split; first [done | by repeat constructor].
Qed.

(** [options.upgrade] gives a non-empty accept key for this request. *)
Definition upgrade_accepts (rq : WebRequest)
    (upgrade : option (WebRequest → result (option (option (list Z) * option (list Z)))))
    (accept : list Z) (protocol : option (list Z)) : Prop :=
  ∃ f, upgrade = Some f ∧ f rq = Ok (Some (Some accept, protocol)) ∧ accept ≠ [].

(** The listener never rejects, and it leaves the socket open exactly when the whole
    handshake was written; with an [onUpgrade] callback the socket is then handed over,
    without one it stays open with no owner. *)
Lemma upgrade_settles webReq upgrade onUpgrade :
  ∃ s, upgrade_listener webReq upgrade onUpgrade fresh_socket = (Ok tt, s) ∧
    (sock_destroyed s = false →
     ∃ rq accept protocol raw, webReq = Ok rq ∧ upgrade_accepts rq upgrade accept protocol ∧
       formatWebSocketHandshake accept protocol = Ok raw ∧ sock_written s = [raw] ∧
       sock_handed s = bool_decide (is_Some onUpgrade)).
Proof.
  unfold upgrade_listener, try_catch, mbind, SE_bind. cbn [lift].
  destruct webReq as [rq|e]; [|by eexists; split; [done|]].
  destruct upgrade as [f|]; cbn [lift]; [|by eexists; split; [done|]].
  destruct (f rq) as [[[[[|u a]|] protocol]|]|e] eqn:Ef; try by eexists; split; [done|].
  cbn [lift]. destruct (formatWebSocketHandshake (u :: a) protocol) as [raw|e] eqn:Er;
    [|by eexists; split; [done|]].
  destruct onUpgrade as [[[]|e]|]; eexists; (split; [done|]); try done; intros _;
    exists rq, (u :: a), protocol, raw; repeat split; try done; by exists f.
Qed.

(** The reply to a malformed request declares the length of its body. *)
Lemma client_error_framed (overflow : bool) :
  let body := client_error_body overflow in
  match clientError true overflow with
  | Some bytes =>
      head_lines bytes =
        [js "HTTP/1.1 " ++ dec (if overflow then 431 else 400) ++ js " " ++
           js (if overflow then "Request Header Fields Too Large" else "Bad Request");
         js "Content-Type: application/json"; js "Content-Length: " ++ dec (zlen body);
         js "Connection: close"; []; body]
  | None => False
  end.
Proof. destruct overflow; vm_compute; reflexivity. Qed.

(** ** The two adapters select the same handler *)

Lemma node_selects_like_router {H F R U P N}
    (router : @IngressRouter H F R U P N) (pathname method : list Z) :
  match fetch router (Some pathname) method with
  | Router.Call f params => select None (matcher router) pathname method = NCall f params
  | Clone r => select None (matcher router) pathname method = NStatic r
  | CallInherited name => select None (matcher router) pathname method = NInherited name
  | Router.Answer _ => select None (matcher router) pathname method = NNotFound
  end.
Proof.
  unfold fetch, select. destruct (match_path (matcher router) pathname) as [[ms params]|]; [|done].
  destruct (method_get ms method) as [[f|r]| |] eqn:E; [done..|].
  destruct (method_get ms OPTIONS) as [[f|r]| |] eqn:E'; try done.
  case_decide as D; [|done]. congruence.
Qed.
