(* ===== verification/Server.v ===== *)
(** The server handles (src/ingress/server.ts): starting Bun's server with its retry
    without [reusePort], the graceful shutdown, and the probes
    (src/ingress/health.ts). *)

From S2P Require Import Prelude.
From S2P Require Import JsMap.
From S2P Require Import Utf8.
From S2P Require Import JsString.
From S2P Require Import HeaderTemplates.
From S2P Require Import ResponseBuilders.
From S2P Require Import NodeServer.
Open Scope Z_scope.

(** ** createIngressServer *)

Section bun.
(** The route table, the fallback ingress, and a started server. *)
Context {T H V : Type}.

Record BunServerOptions := {
  bs_hostname : list Z; bs_port : Z; bs_idleTimeout : Z; bs_routes : T;
  bs_maxRequestBodySize : Z; bs_reusePort : bool; bs_fetch : option H }.

Record ServerOptions := {
  so_hostname : option (list Z); so_port : Z; so_idleTimeout : option Z;
  so_maxRequestBodySize : option Z; so_reusePort : bool; so_fallback : option H }.

Definition DEFAULT_MAX_REQUEST_BODY_SIZE : Z := 16 * 1024 * 1024.

Definition bun_options (routes : T) (o : ServerOptions) : BunServerOptions :=
  {| bs_hostname := default (js "0.0.0.0") (so_hostname o); bs_port := so_port o;
     bs_idleTimeout := default 30 (so_idleTimeout o); bs_routes := routes;
     bs_maxRequestBodySize := default DEFAULT_MAX_REQUEST_BODY_SIZE (so_maxRequestBodySize o);
     bs_reusePort := so_reusePort o; bs_fetch := so_fallback o |}.
Definition without_reuse (b : BunServerOptions) : BunServerOptions :=
  {| bs_hostname := bs_hostname b; bs_port := bs_port b; bs_idleTimeout := bs_idleTimeout b;
     bs_routes := bs_routes b; bs_maxRequestBodySize := bs_maxRequestBodySize b;
     bs_reusePort := false; bs_fetch := bs_fetch b |}.

Definition bun_only : js_error :=
  TypeError ("createIngressServer is Bun-only (it builds a Bun.serve config). " +:+
    "On Node.js use createIngressServerNode with the same route handlers.").

(** [serve] is [Bun.serve], whose answer may change from one call to the next; the
    configurations it was called with are returned too. *)
Definition createIngressServer (isBun : bool) (serve : nat → BunServerOptions → result V)
    (routes : result T) (o : ServerOptions) : result V * list BunServerOptions :=
  if negb isBun then (Throw bun_only, [])
  else
    match routes with
    | Throw e => (Throw e, [])
    | Ok routes =>
        let init := bun_options routes o in
        match serve 0%nat init with
        | Ok server => (Ok server, [init])
        | Throw err =>
            if so_reusePort o then (serve 1%nat (without_reuse init), [init; without_reuse init])
            else (Throw err, [init])
        end
    end.

(** At most two calls; the second differs from the first in [reusePort] only, and its
    outcome, good or bad, is the answer. *)
Lemma bind_attempts serve routes o :
  match createIngressServer true serve (Ok routes) o with
  | (r, [b]) => b = bun_options routes o ∧ r = serve 0%nat b ∧ (so_reusePort o = true → is_ok r = true)
  | (r, [b; b']) =>
      b = bun_options routes o ∧ b' = without_reuse b ∧ so_reusePort o = true ∧
      is_ok (serve 0%nat b) = false ∧ r = serve 1%nat b'
  | _ => False
  end.
Proof.
  unfold createIngressServer. cbn [negb]. destruct (serve 0%nat _) as [v|e] eqn:E.
  - by rewrite E.
  - destruct (so_reusePort o) eqn:R; rewrite E; by repeat split.
Qed.

End bun.

(** ** gracefulShutdown *)

(** A signal, the grace timer and the clean-up function; a stop is a handle and its
    [force] flag. *)
Inductive shutdown_event := Signal | GraceOver | CleanUp.

Record Shutdown := { shuttingDown : bool; listening : bool; timer_set : bool; stops : list (nat * bool) }.

(** The loop over the handles: a [stop] that throws is ignored. *)
Definition stop_all (force : bool) (handles : list nat) : list (nat * bool) := (λ h, (h, force)) <$> handles.

Definition on_signal (handles : list nat) (s : Shutdown) : Shutdown :=
  if shuttingDown s then s
  else {| shuttingDown := true; listening := listening s; timer_set := true;
          stops := stops s ++ stop_all false handles |}.

Definition shutdown_step (handles : list nat) (s : Shutdown) (e : shutdown_event) : Shutdown :=
  match e with
  | Signal => if listening s then on_signal handles s else s
  | GraceOver =>
      if timer_set s then
        {| shuttingDown := shuttingDown s; listening := listening s; timer_set := false;
           stops := stops s ++ stop_all true handles |}
      else s
  | CleanUp =>
      {| shuttingDown := shuttingDown s; listening := false; timer_set := timer_set s; stops := stops s |}
  end.

Definition gracefulShutdown : Shutdown :=
  {| shuttingDown := false; listening := true; timer_set := false; stops := [] |}.

(** The events after the first signal, if it comes before a clean-up. *)
Fixpoint after_signal (evs : list shutdown_event) : option (list shutdown_event) :=
  match evs with
  | [] | CleanUp :: _ => None
  | Signal :: evs' => Some evs'
  | GraceOver :: evs' => after_signal evs'
  end.

Lemma stopped_for_good handles evs : ∀ s,
  shuttingDown s = true → timer_set s = false → stops (foldl (shutdown_step handles) s evs) = stops s.
Proof.
  induction evs as [|e evs IH]; intros s H T; [done|]. cbn [foldl].
  rewrite IH; destruct e; cbn; rewrite ?T; cbn; try done; unfold on_signal; destruct (listening s); by rewrite ?H.
Qed.

Lemma unheard handles evs : ∀ s,
  listening s = false → timer_set s = false → stops (foldl (shutdown_step handles) s evs) = stops s.
Proof.
  induction evs as [|e evs IH]; intros s L T; [done|]. cbn [foldl].
  rewrite IH; destruct e; cbn; rewrite ?T, ?L; done.
Qed.

Definition is_grace (e : shutdown_event) : bool := match e with GraceOver => true | _ => false end.

Lemma grace_period handles evs : ∀ s,
  shuttingDown s = true → timer_set s = true →
  stops (foldl (shutdown_step handles) s evs) =
    stops s ++ if existsb is_grace evs then stop_all true handles else [].
Proof.
  induction evs as [|e evs IH]; intros s H T; cbn [foldl existsb]; [by rewrite app_nil_r|].
  destruct e; cbn [is_grace orb shutdown_step].
  - assert (on_signal handles s = s) as -> by (unfold on_signal; by rewrite H).
    destruct (listening s); by apply IH.
  - rewrite T. by rewrite stopped_for_good.
  - by rewrite IH.
Qed.

(** Over every sequence of signals, timers and clean-ups: nothing is stopped unless a
    signal comes before the clean-up; then every handle is soft-stopped once, in
    order, and force-stopped once if the grace period runs out, whatever else comes. *)
Theorem shutdown_exact (handles : list nat) (evs : list shutdown_event) :
  stops (foldl (shutdown_step handles) gracefulShutdown evs) =
    match after_signal evs with
    | None => []
    | Some evs' =>
        stop_all false handles ++ if existsb is_grace evs' then stop_all true handles else []
    end.
Proof.
  induction evs as [|[] evs IH]; cbn [foldl after_signal]; [done| | |].
  - by rewrite grace_period.
  - exact IH.
  - by rewrite unheard.
Qed.

(** ** Probes *)

Definition jsonResponse (status : Z) (key value : string) : WebResponse :=
  {| w_status := status;
     w_headers := [(js "cache-control", js "no-store"); (js "content-type", js "application/json")];
     w_body := bytes_body (encodeUtf8 (json_object [json_member (js key) (json_string (js value))])) |}.

Definition livenessHandler : WebResponse := jsonResponse 200 "status" "ok".
Definition staticLiveness : WebResponse := jsonResponse 200 "status" "ok".

(** [check] with its eventual outcome. *)
Definition readinessHandler (check : option (result bool)) : WebResponse :=
  match check with
  | None | Some (Ok true) => jsonResponse 200 "status" "ready"
  | Some (Ok false) | Some (Throw _) => jsonResponse 503 "status" "not_ready"
  end.

Definition healthHandler (check : option (result bool)) : WebResponse :=
  match check with Some _ => readinessHandler check | None => livenessHandler end.

Lemma probes_answer (check : option (result bool)) :
  w_status (readinessHandler check) = w_status (healthHandler check) ∧
  (w_status (healthHandler check) = 200 ∨ w_status (healthHandler check) = 503) ∧
  (w_status (healthHandler check) = 200 ↔ check = None ∨ check = Some (Ok true)).
Proof. destruct check as [[[]|e]|]; cbn; naive_solver. Qed.
