(* ===== verification/FfiBuffer.v ===== *)
(** native/ffi/build/util.ts and the shared scratch of native/ffi/build.ts: how the
    Bun FFI surface hands output buffers to native code and reads the results back.

    A native that writes into a caller's buffer takes the buffer's bytes on entry and
    gives the number it returns with the bytes on exit.  [(ptr, len)] arguments are the
    bytes themselves, whichever of the two calling forms [lenOrView] picks. *)

From stdpp Require Import base list strings pretty.
From S2P Require Import Prelude.
From S2P Require Import Utf8.
From S2P Require Import JsString.
From S2P Require Import Wire.
From S2P Require Import StateErr.

Definition writer : Type := list Z → Z * list Z.

Definition js_Error (m : string) : js_error := JsError "Error" m.

(** ** util.ts *)

(** [flag]. *)
Definition flag (v : bool) : Z := if v then 1 else 0.

(** The host's allocation of uninitialised memory: any bytes, of the length asked for. *)
Class Alloc := {
  has_allocUnsafe : bool;
  allocUnsafe : Z → list Z;
  allocUnsafe_length : ∀ n, 0 ≤ n → zlen (allocUnsafe n) = n;
}.

(** [new Uint8Array(n)] with the exception for a negative length. *)
Definition new_Uint8Array (n : Z) : result (list Z) :=
  if decide (n < 0) then Throw (RangeError "Invalid typed array length") else Ok (new_u8 n).

Definition allocOut `{Alloc} (n : Z) : result (list Z) :=
  if bool_decide (512 ≤ n) && has_allocUnsafe then Ok (allocUnsafe n) else new_Uint8Array n.

Section growExact.
Context `{Alloc} {St : Type}.

(** [for (;;)] of [growExact]; the capacity grows at every turn, which bounds the fuel. *)
Fixpoint grow_loop (fuel : nat) (write : list Z → SE St (Z * list Z)) (max : Z) (error : string)
    (cap : Z) : SE St (list Z) :=
  match fuel with
  | O => throw (js_Error error)
  | S fuel =>
      out ← lift (allocOut cap);
      '(w, out) ← write out;
      if decide (w = 0) then throw (js_Error error)
      else if decide (w ≤ zlen out) then mret (subarray out 0 w)
      else if decide (max < w) then throw (js_Error error)
      else grow_loop fuel write max error (Z.min w max)
  end.

Definition growExact (write : list Z → SE St (Z * list Z)) (initial max : Z) (error : string)
    : SE St (list Z) :=
  let cap := Z.min (Z.max initial 16) max in
  grow_loop (S (Z.to_nat (max - cap))) write max error cap.

(** A native call that changes nothing but its output buffer. *)
Definition native (f : writer) (out : list Z) : SE St (Z * list Z) := λ s, (Ok (f out), s).

End growExact.

(** [writeOrThrow]. *)
Definition writeOrThrow {St} (w inputLen : Z) (label : string) : SE St Z :=
  if decide (w = 0 ∧ inputLen ≠ 0)
  then throw (js_Error (label +:+ ": invalid input or output buffer too small"))
  else mret w.

Record rate_check := RateCheck { allowed : bool; remaining : Z; resetMs : Z }.

(** [DataView.getBigInt64(off, true)]. *)
Definition dv_get_i64 (b : list Z) (off : Z) : result Z := v ← dv_get 8 b off; Ok (to_i64 v).

Definition unpackRateCheck (out : list Z) : result rate_check :=
  r ← dv_get 4 out 1;
  ms ← dv_get_i64 out 5;
  Ok (RateCheck (bool_decide (out !! 0%nat = Some 1)) r ms).

(** [b64Len]: [Math.ceil(n / 3) * 4] less the padding. *)
Definition b64Len (n : Z) : Z :=
  if decide (n = 0) then 0 else (n + 2) / 3 * 4 - (3 - n mod 3) mod 3.

Definition argon2PhcLength (m t p saltLen outLen : Z) : Z :=
  15 + 2 + zlen (dec m) + 3 + zlen (dec t) + 3 + zlen (dec p) + 1 + b64Len saltLen + 1
  + b64Len outLen.

(** A string returned by pointer: the engine reads up to the first NUL. *)
Fixpoint until_nul (bs : list Z) : list Z :=
  match bs with
  | [] => []
  | b :: bs => if decide (b = 0) then [] else b :: until_nul bs
  end.

(** A JS string passed as a [cstring] argument: the bytes the callee sees. *)
Definition cstr_arg (s : list Z) : list Z := until_nul (encodeUtf8 s).

(** [cstr]. *)
Definition cstr {St} (s : option (list Z)) (label : string) : SE St (list Z) :=
  match s with None => throw (js_Error label) | Some s => mret s end.

(** ** build.ts *)

(** What one bind keeps between calls. *)
Record ffi_state := FfiState {
  encodeScratch : list Z; jsonSumOut : list Z; dateScratch : list Z; rateScratch : list Z }.

Definition new_ffi_state : ffi_state := FfiState [] (new_u8 9) (new_u8 9) (new_u8 13).

Definition set_encodeScratch (b : list Z) (s : ffi_state) : ffi_state :=
  FfiState b (jsonSumOut s) (dateScratch s) (rateScratch s).
Definition set_jsonSumOut (b : list Z) (s : ffi_state) : ffi_state :=
  FfiState (encodeScratch s) b (dateScratch s) (rateScratch s).
Definition set_dateScratch (b : list Z) (s : ffi_state) : ffi_state :=
  FfiState (encodeScratch s) (jsonSumOut s) b (rateScratch s).
Definition set_rateScratch (b : list Z) (s : ffi_state) : ffi_state :=
  FfiState (encodeScratch s) (jsonSumOut s) (dateScratch s) b.

(** [scratchFor(size)]; the buffer it returns is [encodeScratch] of the state. *)
Definition scratchFor (size : Z) : SE ffi_state unit :=
  modify (λ s, if decide (zlen (encodeScratch s) < size) then set_encodeScratch (new_u8 size) s else s).

(** A method that writes into a caller's buffer is a computation on that buffer. *)
Definition into (f : writer) : SE (list Z) Z := λ out, let '(w, out) := f out in (Ok w, out).

(** Such a method applied to the scratch. *)
Definition on_scratch {A} (m : SE (list Z) A) : SE ffi_state A :=
  λ s, let '(r, out) := m (encodeScratch s) in (r, set_encodeScratch out s).
Definition scratch_bytes (w : Z) : SE ffi_state (list Z) :=
  gets (λ s, subarray (encodeScratch s) 0 w).

(** ** What a native promises about its output buffer *)

(** The needed-size convention for the result [r]: a result that fits is written at the
    front, the number returned is the size of the result whether it fits or not, and 0
    stands for a failure. *)
Record needed (f : writer) (r : option (list Z)) : Prop := {
  needed_length : ∀ out, zlen (f out).2 = zlen out;
  needed_count : ∀ out, (f out).1 = match r with Some b => zlen b | None => 0 end;
  needed_bytes : ∀ out b, r = Some b → zlen b ≤ zlen out → take (length b) (f out).2 = b;
}.

(** The older convention: 0 also stands for a buffer that is too small. *)
Record fits (f : writer) (r : option (list Z)) : Prop := {
  fits_length : ∀ out, zlen (f out).2 = zlen out;
  fits_count : ∀ out, (f out).1 =
    match r with Some b => if decide (zlen b ≤ zlen out) then zlen b else 0 | None => 0 end;
  fits_bytes : ∀ out b, r = Some b → zlen b ≤ zlen out → take (length b) (f out).2 = b;
}.

(** The canonical natives of both kinds, for a host that computes [r]. *)
Definition fill (b out : list Z) : list Z := b ++ drop (length b) out.
Definition needed_writer (r : option (list Z)) : writer := λ out,
  match r with
  | Some b => (zlen b, if decide (zlen b ≤ zlen out) then fill b out else out)
  | None => (0, out)
  end.
Definition fits_writer (r : option (list Z)) : writer := λ out,
  match r with
  | Some b => if decide (zlen b ≤ zlen out) then (zlen b, fill b out) else (0, out)
  | None => (0, out)
  end.

Lemma fill_length b out : zlen b ≤ zlen out → zlen (fill b out) = zlen out.
Proof. intros Hb. unfold fill, zlen in *. rewrite length_app, length_drop. lia. Qed.

Lemma take_fill b out : take (length b) (fill b out) = b.
Proof. unfold fill. by rewrite take_app_length. Qed.

Lemma needed_writer_needed r : needed (needed_writer r) r.
Proof.
  destruct r as [b|]; split; intros out; unfold needed_writer; try done.
  - simpl. case_decide; [by apply fill_length|done].
  - intros ? [= <-] Hb. simpl. rewrite decide_True by done. apply take_fill.
Qed.

Lemma fits_writer_fits r : fits (fits_writer r) r.
Proof.
  destruct r as [b|]; split; intros out; unfold fits_writer; try done.
  - case_decide; [by apply fill_length|done].
  - by case_decide.
  - intros ? [= <-] Hb. rewrite decide_True by done. apply take_fill.
Qed.

#[export] Hint Resolve needed_writer_needed fits_writer_fits : castrum.

Lemma subarray_take (b : list Z) (k : list Z) :
  zlen k ≤ zlen b → subarray b 0 (zlen k) = take (length k) b.
Proof.
  intros Hk. unfold subarray, rel_index. pose proof (zlen_nonneg k).
  rewrite !decide_False by lia. f_equal; [unfold zlen in *; lia|].
  replace (Z.to_nat _) with 0%nat by (unfold zlen in *; lia). done.
Qed.

(** A result that fits is read back whole, whatever the buffer held before. *)
Lemma needed_read f r out b :
  needed f r → r = Some b → zlen b ≤ zlen out → subarray (f out).2 0 (zlen b) = b.
Proof.
  intros [Hl Hc Hb] -> Hfit. rewrite subarray_take by (by rewrite Hl). by apply Hb.
Qed.

Lemma fits_read f r out b :
  fits f r → r = Some b → zlen b ≤ zlen out → subarray (f out).2 0 (zlen b) = b.
Proof.
  intros [Hl Hc Hb] -> Hfit. rewrite subarray_take by (by rewrite Hl). by apply Hb.
Qed.

(** ** growExact *)

Lemma allocOut_ok `{Alloc} n : 0 ≤ n → ∃ b, allocOut n = Ok b ∧ zlen b = n.
Proof.
  intros Hn. unfold allocOut. destruct (bool_decide (512 ≤ n) && has_allocUnsafe).
  - exists (allocUnsafe n). by rewrite allocUnsafe_length.
  - unfold new_Uint8Array. rewrite decide_False by lia. exists (new_u8 n). split; [done|].
    unfold new_u8. zlia.
Qed.

(** The outcome under the convention: an empty result counts as a failure. *)
Definition grow_result (r : option (list Z)) (max : Z) (error : string) : result (list Z) :=
  match r with
  | Some b => if decide (b = [] ∨ max < zlen b) then Throw (js_Error error) else Ok b
  | None => Throw (js_Error error)
  end.

Section growth.
Context `{Alloc} {St : Type}.

(** Typed arrays keep their length. *)
Definition keeps_length (write : list Z → SE St (Z * list Z)) : Prop :=
  ∀ out s w out' s', write out s = (Ok (w, out'), s') → zlen out' = zlen out.

(** One turn, on a buffer of capacity [cap]. *)
Lemma grow_loop_turn n write max error cap (s : St) : 0 ≤ cap →
  ∃ out, zlen out = cap ∧ grow_loop (S n) write max error cap s =
    match write out s with
    | (Throw e, s') => (Throw e, s')
    | (Ok (w, out'), s') =>
        if decide (w = 0) then (Throw (js_Error error), s')
        else if decide (w ≤ zlen out') then (Ok (subarray out' 0 w), s')
        else if decide (max < w) then (Throw (js_Error error), s')
        else grow_loop n write max error (Z.min w max) s'
    end.
Proof.
  intros Hcap. destruct (allocOut_ok cap Hcap) as (out & Ho & Hz). exists out. split; [done|].
  cbn [grow_loop]. erewrite (se_bind_Ok (lift (allocOut cap))) by (unfold lift; by rewrite Ho).
  destruct (write out s) as [[[w out']|e] s'] eqn:Ew.
  - rewrite (se_bind_Ok _ _ _ _ _ Ew). by repeat case_decide.
  - by rewrite (se_bind_Throw _ _ _ _ _ Ew).
Qed.

(** A turn either ends the loop or raises the capacity, so fuel beyond the room that is
    left makes no difference: the loop ends for every native. *)
Lemma grow_loop_fuel write max error : keeps_length write → ∀ n m cap (s : St),
  max - cap < Z.of_nat n → max - cap < Z.of_nat m → 0 ≤ cap ≤ max →
  grow_loop n write max error cap s = grow_loop m write max error cap s.
Proof.
  intros Hk. induction n as [|n IH]; intros [|m] cap s Hn Hm Hcap; [lia..|].
  cbn [grow_loop]. destruct (allocOut_ok cap) as (out & Ho & Hz); [lia|].
  rewrite !(se_bind_run (lift (allocOut cap)) _ s (Ok out) s) by (unfold lift; by rewrite Ho).
  rewrite !(se_bind_run (write out) _ s _ _ (surjective_pairing _)).
  destruct (write out s) as [[[w out']|e] s'] eqn:Ew; [|done]. simpl.
  pose proof (Hk _ _ _ _ _ Ew). repeat case_decide; try done. apply IH; lia.
Qed.

(** Under the convention there are at most two calls, none on a buffer above [max], and
    only the result decides the outcome.  [note] is what the calls leave in the state. *)
Lemma growExact_needed f r initial max error (note : Z → St → St) (s : St) :
  needed f r → 0 ≤ max →
  ∃ caps, growExact (λ out s, (Ok (f out), note (zlen out) s)) initial max error s
          = (grow_result r max error, foldl (λ s c, note c s) s caps) ∧
    (length caps ≤ 2)%nat ∧ Forall (λ c, 0 ≤ c ≤ max) caps ∧
    (∀ b, r = Some b → zlen b ≤ Z.max initial 16 ∨ max < zlen b → length caps = 1%nat).
Proof.
  intros Hf Hmax. unfold growExact. set (cap := Z.min (Z.max initial 16) max).
  set (write := λ out s, _).
  assert (Hcap : 0 ≤ cap ≤ max) by lia.
  assert (Hc : ∀ out, (f out).1 = match r with Some b => zlen b | None => 0 end) by apply Hf.
  assert (Hl : ∀ out, zlen (f out).2 = zlen out) by apply Hf.
  destruct (grow_loop_turn (Z.to_nat (max - cap)) write max error cap s) as (out & Hz & E); [lia|].
  rewrite E. unfold write at 1. rewrite (surjective_pairing (f out)), Hc, Hl.
  destruct r as [b|]; [|exists [cap]; rewrite decide_True by done; simpl; rewrite Hz;
    split_and!; [done|lia|by apply Forall_singleton|done]].
  unfold grow_result. destruct (decide (b = [])) as [->|Hb].
  { exists [cap]. rewrite !decide_True by auto. simpl. rewrite Hz. split_and!; [done|lia|by apply Forall_singleton|done]. }
  assert (zlen b ≠ 0) by (intros ?%zlen_0; done). rewrite decide_False by done.
  case_decide as Hfit.
  { exists [cap]. rewrite (needed_read f (Some b)) by done. rewrite decide_False by (intros [?|?]; [done|lia]).
    simpl. rewrite Hz. split_and!; [done|lia|by apply Forall_singleton|done]. }
  case_decide as Hbig.
  { exists [cap]. rewrite decide_True by (right; lia). simpl. rewrite Hz. split_and!; [done|lia|by apply Forall_singleton|done]. }
  rewrite (decide_False (P := _ ∨ _)) by (intros [?|?]; [done|lia]).
  replace (Z.min (zlen b) max) with (zlen b) by lia.
  destruct (Z.to_nat (max - cap)) as [|n] eqn:En; [lia|].
  destruct (grow_loop_turn n write max error (zlen b) (note (zlen out) s)) as (out2 & Hz2 & E2); [zlia|].
  exists [cap; zlen b]. rewrite E2. unfold write at 1. rewrite (surjective_pairing (f out2)), Hc, Hl.
  rewrite decide_False, decide_True by lia. rewrite (needed_read f (Some b)) by (auto; lia). simpl.
  rewrite Hz, Hz2. split_and!; [done|lia| |].
  - repeat constructor; zlia.
  - intros ? [= <-] [?|?]; lia.
Qed.

End growth.

Lemma growExact_native `{Alloc} {St : Type} f r initial max error (s : St) :
  needed f r → 0 ≤ max →
  growExact (native f) initial max error s = (grow_result r max error, s).
Proof.
  intros Hf Hm. destruct (growExact_needed f r initial max error (λ _ s, s) s Hf Hm)
    as (caps & E & _). etransitivity; [exact E|]. f_equal. clear E.
  by induction caps as [|c caps IH].
Qed.

(** ** Methods that write into a caller's buffer *)

(** On every buffer of at least [n] bytes the method has the outcome [r]: the bytes at the
    front with their number, or the exception. *)
Definition yields (m : SE (list Z) Z) (n : Z) (r : result (list Z)) : Prop :=
  ∀ out, n ≤ zlen out → ∃ out', zlen out' = zlen out ∧
    match r with
    | Ok b => m out = (Ok (zlen b), out') ∧ zlen b ≤ zlen out ∧ take (length b) out' = b
    | Throw e => m out = (Throw e, out')
    end.

Lemma fits_yields f b n : fits f (Some b) → zlen b ≤ n → yields (into f) n (Ok b).
Proof.
  intros [Hl Hc Hb] Hn out Hout. exists (f out).2. split; [apply Hl|]. unfold into.
  rewrite (surjective_pairing (f out)), Hc, decide_True by lia. split; [done|].
  split; [lia|]. apply Hb; [done|lia].
Qed.

Lemma needed_yields f b n : needed f (Some b) → zlen b ≤ n → yields (into f) n (Ok b).
Proof.
  intros [Hl Hc Hb] Hn out Hout. exists (f out).2. split; [apply Hl|]. unfold into.
  rewrite (surjective_pairing (f out)), Hc. split; [done|].
  split; [lia|]. apply Hb; [done|lia].
Qed.

(** Two bind states that differ in what the scratch holds only. *)
Definition same_but_scratch (s s' : ffi_state) : Prop :=
  jsonSumOut s = jsonSumOut s' ∧ dateScratch s = dateScratch s' ∧ rateScratch s = rateScratch s'.

(** Sizing the scratch, writing into it and reading the written part gives the outcome of
    the method, whatever the scratch held before. *)
Lemma scratch_call m n r s : yields m n r →
  ∃ s', (scratchFor n ;; w ← on_scratch m; scratch_bytes w) s = (r, s') ∧ same_but_scratch s s'.
Proof.
  intros Hm. rewrite (se_bind_Ok (scratchFor n) _ s tt _ eq_refl). simpl.
  set (s1 := if decide _ then _ else _).
  assert (Hs1 : n ≤ zlen (encodeScratch s1) ∧ same_but_scratch s s1).
  { subst s1. case_decide; [|split; [lia|done]]. split; [|done]. cbn. unfold new_u8. zlia. }
  destruct (Hm _ (proj1 Hs1)) as (out' & Hl & Hr).
  exists (set_encodeScratch out' s1). split; [|exact (proj2 Hs1)]. destruct r as [b|e].
  - destruct Hr as (E & Hfit & Ht).
    rewrite (se_bind_Ok _ _ _ (zlen b) (set_encodeScratch out' s1))
      by (unfold on_scratch; by rewrite E).
    unfold scratch_bytes, gets. cbn [encodeScratch set_encodeScratch].
    rewrite subarray_take by lia. by rewrite Ht.
  - by rewrite (se_bind_Throw _ _ _ e (set_encodeScratch out' s1))
      by (unfold on_scratch; by rewrite Hr).
Qed.

(** C24. growExact ends for every native, however it answers: more fuel than the room
    between the first capacity and the bound changes nothing.  Under the needed-size
    convention it calls the native at most twice, never on a buffer above the bound, once
    if the result fits the first guess or exceeds the bound, and its outcome depends on the
    result alone, not on what uninitialised buffers held. *)
Theorem growExact_contract `{Alloc} {St : Type} (write : list Z → SE St (Z * list Z))
    (f : writer) (r : option (list Z)) (initial max : Z) (error : string) (extra : nat) (s : St) :
  keeps_length write → needed f r → 0 ≤ max →
  grow_loop (S (Z.to_nat (max - Z.min (Z.max initial 16) max)) + extra) write max error
    (Z.min (Z.max initial 16) max) s = growExact write initial max error s ∧
  ∃ caps, growExact (λ out log, (Ok (f out), log ++ [zlen out])) initial max error []
          = (grow_result r max error, caps) ∧
    (length caps ≤ 2)%nat ∧ Forall (λ c, 0 ≤ c ≤ max) caps ∧
    (∀ b, r = Some b → zlen b ≤ Z.max initial 16 ∨ max < zlen b → length caps = 1%nat).
Proof.
  intros Hk Hf Hm. split; [apply grow_loop_fuel; [done|lia..]|].
  destruct (growExact_needed f r initial max error (λ c log, log ++ [c]) [] Hf Hm) as (caps & E & Hc).
  exists caps. split; [|exact Hc]. rewrite E. f_equal. clear.
  enough (Hg : ∀ log, foldl (λ s c, s ++ [c]) log caps = log ++ caps) by apply Hg.
  induction caps as [|c caps IH]; intros log; simpl; [by rewrite app_nil_r|]. by rewrite IH, <-app_assoc.
Qed.

Definition sevens : Alloc.
Proof.
  refine {| has_allocUnsafe := true; allocUnsafe n := replicate (Z.to_nat n) 7 |}. intros n Hn. zlia.
Defined.

Definition forty_ones : writer := needed_writer (Some (replicate 40 1)).

Lemma growExact_contract_witness :
  ∃ caps, @growExact sevens (list Z) (λ out log, (Ok (forty_ones out), log ++ [zlen out])) 0 64 "too small" []
          = (grow_result (Some (replicate 40 1)) 64 "too small", caps) ∧ (length caps ≤ 2)%nat.
Proof.
  destruct (@growExact_contract sevens (list Z) (λ out log, (Ok (forty_ones out), log ++ [zlen out]))
    forty_ones (Some (replicate 40 1)) 0 64 "too small" 3 []) as (_ & caps & E & H2 & _).
  - intros out s w out' s' E.
    apply (f_equal (λ x, match x with (Ok p, _) => p.2 | _ => [] end)) in E. cbv beta iota in E.
    change ((forty_ones out).2 = out') in E. rewrite <-E.
    apply (needed_length _ _ (needed_writer_needed _)).
  - apply needed_writer_needed.
  - lia.
  - exists caps. split; [exact E|exact H2].
Defined.
