(* ===== verification/FfiCodecs.v ===== *)
(** native/ffi/build/codecs.ts: the hashing, codec, crypto and authentication methods of
    the Bun FFI surface, over the native symbols.  Cookie signing is in CookieSign. *)

From stdpp Require Import base list strings.
From S2P Require Import Prelude.
From S2P Require Import Utf8.
From S2P Require Import JsString.
From S2P Require Import Wire.
From S2P Require Import StateErr.
From S2P Require Import FfiBuffer.

(** The symbols, as what one call returns.  A [cstring] argument is the bytes the callee
    sees, a [cstring] return the string the engine copies out. *)
Record CodecSyms := {
  castrum_crc32 : list Z → Z;
  castrum_fnv1a64 : list Z → Z;
  castrum_xxh3 : list Z → Z;
  castrum_json_valid : list Z → Z;
  castrum_utf8_valid : list Z → Z;
  castrum_hex_encode : list Z → writer;
  castrum_hex_decode : list Z → writer;
  castrum_url_encode : list Z → writer;
  castrum_url_decode : list Z → writer;
  castrum_validate_email : list Z → Z;
  castrum_validate_uuid : list Z → Z;
  castrum_validate_ipv4 : list Z → Z;
  castrum_validate_ipv6 : list Z → Z;
  castrum_validate_email_bytes : list Z → Z;
  castrum_validate_uuid_bytes : list Z → Z;
  castrum_validate_ipv4_bytes : list Z → Z;
  castrum_validate_ipv6_bytes : list Z → Z;
  castrum_json_sum_ids : list Z → writer;
  castrum_hex_validate_batch : list Z → Z → writer;
  castrum_hex_validate_batch_str : list Z → Z → writer;
  castrum_regex_escape : list Z → writer;
  castrum_regex_escape_str : list Z → list Z;
  castrum_hmac_sha256_verify : list Z → list Z → list Z → Z;
  castrum_csrf_verify : list Z → list Z → Z;
  castrum_password_verify : list Z → list Z → Z;
  castrum_password_verify_bcrypt : list Z → list Z → Z;
  castrum_ws_accept_key : list Z → option (list Z);
  castrum_ws_accept_key_into : list Z → writer;
  castrum_etag : list Z → Z → option (list Z);
  castrum_etag_into : list Z → Z → writer;
  castrum_random_token : Z → option (list Z);
  castrum_random_token_into : Z → writer;
  castrum_base64_encode : list Z → Z → Z → writer;
  castrum_base64_decode : list Z → Z → Z → writer;
  castrum_hmac_sha256 : list Z → list Z → writer;
  castrum_csrf_token : list Z → option (list Z);
  castrum_csrf_token_into : list Z → writer;
  castrum_password_hash : list Z → list Z → Z → Z → Z → Z → writer;
  castrum_password_hash_bcrypt : list Z → Z → writer;
  castrum_pbkdf2_sha256 : list Z → list Z → Z → Z → writer;
  castrum_aead_encrypt : list Z → list Z → list Z → Z → writer;
  castrum_aead_decrypt : list Z → list Z → list Z → Z → writer;
}.

Section methods.
Context `{Codec} `{Alloc} (N : CodecSyms).

(** Where a method of the surface runs: a pure one leaves the bind's state alone. *)
Notation ffi := (SE ffi_state).

Definition crc32 (input : list Z) : Z := to_u32 (castrum_crc32 N input).
Definition fnv1a64 (input : list Z) : Z := castrum_fnv1a64 N input.
Definition xxh3 (input : list Z) : Z := castrum_xxh3 N input.
Definition jsonValid (input : list Z) : bool := bool_decide (castrum_json_valid N input = 1).
Definition utf8Valid (input : list Z) : bool := bool_decide (castrum_utf8_valid N input = 1).

(** ** Encoders and decoders *)

Definition hexEncodeInto (input : list Z) : SE (list Z) Z :=
  len ← gets zlen;
  if decide (len < zlen input * 2) then throw (js_Error "hex encode: output buffer too small")
  else into (castrum_hex_encode N input).

Definition urlEncodeInto (input : list Z) : SE (list Z) Z :=
  w ← into (castrum_url_encode N input);
  if decide (w = 0 ∧ zlen input ≠ 0) then throw (js_Error "url encode: output buffer too small")
  else mret w.

Definition hexDecodeInto (input : list Z) : SE (list Z) Z :=
  w ← into (castrum_hex_decode N input); writeOrThrow w (zlen input) "hex decode".

Definition urlDecodeInto (input : list Z) : SE (list Z) Z :=
  w ← into (castrum_url_decode N input); writeOrThrow w (zlen input) "url decode".

Definition base64DecodeInto (input : list Z) (urlSafe padding : option bool) : SE (list Z) Z :=
  w ← into (castrum_base64_decode N input (flag (default false urlSafe)) (flag (default true padding)));
  writeOrThrow w (zlen input) "base64 decode".

Definition base64EncodeInto (input : list Z) (urlSafe padding : option bool) : SE (list Z) Z :=
  w ← into (castrum_base64_encode N input (flag (default false urlSafe)) (flag (default true padding)));
  writeOrThrow w (zlen input) "base64 encode".

(** The checks of a method on the needed-size convention: 0 is [bad], more than the buffer
    is [small]. *)
Definition checked_into (f : writer) (bad small : string) : SE (list Z) Z :=
  w ← into f;
  if decide (w = 0) then throw (js_Error bad)
  else len ← gets zlen;
       if decide (len < w) then throw (js_Error small) else mret w.

Definition etagInto (data : list Z) (weak : bool) : SE (list Z) Z :=
  checked_into (castrum_etag_into N data (flag weak)) "etag: invalid input" "etag: output buffer too small".

(** The string of the bytes a method writes into the scratch. *)
Definition scratch_string (size : Z) (m : SE (list Z) Z) : ffi (list Z) :=
  bytes ← (scratchFor size ;; w ← on_scratch m; scratch_bytes w);
  mret (decodeUtf8 bytes).

Definition hexEncode (input : list Z) : ffi (list Z) :=
  scratch_string (zlen input * 2) (hexEncodeInto input).
Definition urlEncode (input : list Z) : ffi (list Z) :=
  scratch_string (zlen input * 3) (urlEncodeInto input).
Definition base64Encode (input : list Z) (urlSafe padding : option bool) : ffi (list Z) :=
  scratch_string ((zlen input + 2) / 3 * 4) (base64EncodeInto input urlSafe padding).

(** The bytes a method writes into a buffer of its own. *)
Definition own_buffer (size : Z) (m : SE (list Z) Z) : result (list Z) :=
  out ← allocOut size;
  match m out with
  | (Ok w, out) => Ok (subarray out 0 w)
  | (Throw e, _) => Throw e
  end.

Definition hexDecode (input : list Z) : result (list Z) := own_buffer (zlen input / 2) (hexDecodeInto input).
Definition urlDecode (input : list Z) : result (list Z) := own_buffer (zlen input) (urlDecodeInto input).
Definition base64Decode (input : list Z) (urlSafe padding : option bool) : result (list Z) :=
  own_buffer ((zlen input * 3 + 3) / 4) (base64DecodeInto input urlSafe padding).

(** ** Verdicts *)

Definition validateEmail (input : list Z) : bool :=
  negb (hasNul input) && bool_decide (castrum_validate_email N (cstr_arg input) = 1).
Definition validateUuid (input : list Z) : bool :=
  negb (hasNul input) && bool_decide (castrum_validate_uuid N (cstr_arg input) = 1).
Definition validateIpv4 (input : list Z) : bool :=
  negb (hasNul input) && bool_decide (castrum_validate_ipv4 N (cstr_arg input) = 1).
Definition validateIpv6 (input : list Z) : bool :=
  negb (hasNul input) && bool_decide (castrum_validate_ipv6 N (cstr_arg input) = 1).

Definition validateEmailBytes (input : list Z) : bool := bool_decide (castrum_validate_email_bytes N input = 1).
Definition validateUuidBytes (input : list Z) : bool := bool_decide (castrum_validate_uuid_bytes N input = 1).
Definition validateIpv4Bytes (input : list Z) : bool := bool_decide (castrum_validate_ipv4_bytes N input = 1).
Definition validateIpv6Bytes (input : list Z) : bool := bool_decide (castrum_validate_ipv6_bytes N input = 1).

Definition bad_width : js_error := js_Error "hex validate batch: width must be 1..=4096".

Definition hexValidateBatchInto (input : list Z) (width : Z) : SE (list Z) Z :=
  if decide (width = 0 ∨ 4096 < width) then throw bad_width
  else into (castrum_hex_validate_batch N input (to_u32 width)).

Definition hexValidateBatchStr (ids : list Z) (width : Z) : SE (list Z) Z :=
  if decide (width = 0 ∨ 4096 < width) then throw bad_width
  else if hasNul ids then into (castrum_hex_validate_batch N (encodeUtf8 ids) (to_u32 width))
  else into (castrum_hex_validate_batch_str N (cstr_arg ids) (to_u32 width)).

Definition regexEscapeInto (input : list Z) : SE (list Z) Z :=
  w ← into (castrum_regex_escape N input);
  if decide (w = 0) then throw (js_Error "regex escape: output buffer too small") else mret w.

Definition regexEscapeStr (input : list Z) : ffi (list Z) :=
  if negb (hasNul input) then mret (castrum_regex_escape_str N (cstr_arg input))
  else
    escaped ← growExact (native (castrum_regex_escape N (encodeUtf8 input))) 16 (Z.shiftl 1 20)
                "regex escape: output buffer too small";
    mret (decodeUtf8 escaped).

Definition jsonSumIds (input : list Z) : ffi Z :=
  w ← (λ s, let '(w, out) := castrum_json_sum_ids N input (jsonSumOut s) in (Ok w, set_jsonSumOut out s));
  if decide (w = 0) then throw (js_Error "json sum ids: output buffer too small")
  else
    out ← gets jsonSumOut;
    if bool_decide (out !! 0%nat = Some 0)
    then throw (js_Error "json sum ids: expected an array of objects with numeric ids")
    else lift (dv_get_i64 out 1).

Definition hmacSha256Verify (key data signature : list Z) : bool :=
  bool_decide (castrum_hmac_sha256_verify N key data signature = 1).
Definition csrfVerify (token secret : list Z) : bool := bool_decide (castrum_csrf_verify N token secret = 1).
Definition passwordVerify (password phc : list Z) : bool :=
  bool_decide (castrum_password_verify N password phc = 1).
Definition passwordVerifyBcrypt (password phc : list Z) : bool :=
  bool_decide (castrum_password_verify_bcrypt N password (cstr_arg phc) = 1).

(** ** Keys, tokens and hashes *)

Definition wsAcceptKey (key : list Z) : ffi (list Z) :=
  cstr (castrum_ws_accept_key N (cstr_arg key)) "ws accept key: bad key".
Definition wsAcceptKeyInto (key : list Z) : SE (list Z) Z :=
  checked_into (castrum_ws_accept_key_into N key) "ws accept key: bad key"
    "ws accept key: output buffer too small".
Definition etag (data : list Z) (weak : bool) : ffi (list Z) :=
  cstr (castrum_etag N data (flag weak)) "etag: invalid input".
Definition randomToken (byteLen : Z) : ffi (list Z) :=
  cstr (castrum_random_token N byteLen)
    "random token: output buffer too small or random source failed".
Definition randomTokenInto (byteLen : Z) : SE (list Z) Z :=
  checked_into (castrum_random_token_into N byteLen)
    "random token: random source failed or byteLen exceeds 16 MiB"
    "random token: output buffer too small".

(** [if (w === 0) throw]. *)
Definition nonzero_into (f : writer) (error : string) : SE (list Z) Z :=
  w ← into f; if decide (w = 0) then throw (js_Error error) else mret w.

Definition hmacSha256 (key data : list Z) : ffi (list Z) :=
  scratch_string 64 (nonzero_into (castrum_hmac_sha256 N key data) "hmac sha256: output buffer too small").
Definition hmacSha256Into (key data : list Z) : SE (list Z) Z :=
  len ← gets zlen;
  if decide (len < 64) then throw (js_Error "hmac sha256: output buffer too small")
  else nonzero_into (castrum_hmac_sha256 N key data) "hmac sha256: output buffer too small".

Definition csrfToken (secret : list Z) : ffi (list Z) :=
  cstr (castrum_csrf_token N secret) "csrf token: output buffer too small or random source failed".
Definition csrfTokenInto (secret : list Z) : SE (list Z) Z :=
  checked_into (castrum_csrf_token_into N secret) "csrf token: random source failed"
    "csrf token: output buffer too small".

Definition passwordHash (password salt : list Z) (mCost tCost pCost outLen : Z) : ffi (list Z) :=
  phc ← growExact (native (castrum_password_hash N password salt mCost tCost pCost outLen))
          (argon2PhcLength mCost tCost pCost (zlen salt) outLen) (2 * 1024 * 1024)
          "password hash: output buffer too small";
  mret (decodeUtf8 phc).

Definition passwordHashBcrypt (password : list Z) (cost : Z) : result (list Z) :=
  decodeUtf8 <$> own_buffer 64 (nonzero_into (castrum_password_hash_bcrypt N password cost)
                                  "password hash bcrypt: output buffer too small").

Definition pbkdf2Sha256 (password salt : list Z) (rounds dkLen : Z) : result (list Z) :=
  own_buffer (Z.min (Z.max dkLen 1) (1024 * 1024))
    (nonzero_into (castrum_pbkdf2_sha256 N password salt rounds dkLen) "pbkdf2: output buffer too small").

Definition aead_bad : string := "aead encrypt: output buffer too small or bad parameters".
Definition aeadEncrypt (key nonce plaintext : list Z) (algorithm : Z) : result (list Z) :=
  own_buffer (zlen plaintext + 16) (nonzero_into (castrum_aead_encrypt N key nonce plaintext algorithm) aead_bad).
Definition aeadEncryptInto (key nonce plaintext : list Z) (algorithm : Z) : SE (list Z) Z :=
  len ← gets zlen;
  if decide (len < zlen plaintext + 16) then throw (js_Error "aead encrypt: output buffer too small")
  else nonzero_into (castrum_aead_encrypt N key nonce plaintext algorithm) aead_bad.

(** [None] is the [null] of a failed authentication. *)
Definition aeadDecrypt (key nonce ciphertext : list Z) (algorithm : Z) : result (option (list Z)) :=
  out ← allocOut (zlen ciphertext);
  let '(w, out) := castrum_aead_decrypt N key nonce ciphertext algorithm out in
  Ok (if decide (w = 0) then None else Some (subarray out 0 w)).

End methods.

(** ** The codecs of the native side (rust/util/bytes.rs, rust/crypto/base64.rs,
    rust/http/url_codec.rs, rust/util/text.rs) *)

Definition HEX_UPPER (n : Z) : Z := if decide (n < 10) then 48 + n else 55 + n.

Definition hex_encode_bytes (input : list Z) : list Z :=
  input ≫= λ b, [hex_digit (Z.shiftr b 4); hex_digit (Z.land b 15)].

Definition hex_pair (hi lo : Z) : option Z :=
  hi ← hex_val hi; lo ← hex_val lo; Some (Z.lor (Z.shiftl hi 4) lo).

Fixpoint hex_decode_bytes (input : list Z) : option (list Z) :=
  match input with
  | [] => Some []
  | [_] => None
  | hi :: lo :: rest => b ← hex_pair hi lo; bs ← hex_decode_bytes rest; Some (b :: bs)
  end.

Definition is_unreserved (b : Z) : bool :=
  bool_decide (65 ≤ b ≤ 90) || bool_decide (97 ≤ b ≤ 122) || bool_decide (48 ≤ b ≤ 57) ||
  bool_decide (b ∈ [45; 95; 46; 33; 126; 42; 39; 40; 41]).

(** The loop keeps the run of unreserved bytes it has not copied yet. *)
Definition url_step (st : list Z * list Z) (b : Z) : list Z * list Z :=
  let '(out, run) := st in
  if is_unreserved b then (out, run ++ [b])
  else (out ++ run ++ [37; HEX_UPPER (Z.shiftr b 4); HEX_UPPER (Z.land b 15)], []).
Definition url_encode_bytes (input : list Z) : list Z :=
  let '(out, run) := foldl url_step ([], []) input in out ++ run.

Fixpoint url_decode_bytes (input : list Z) : option (list Z) :=
  match input with
  | [] => Some []
  | b :: rest =>
      if decide (b = 37) then
        match rest with
        | hi :: lo :: rest => b ← hex_pair hi lo; bs ← url_decode_bytes rest; Some (b :: bs)
        | _ => None
        end
      else bs ← url_decode_bytes rest; Some (b :: bs)
  end.

Definition REGEX_META : list Z := js "\.*+?^${}()|[]".
Definition regex_escape (input : list Z) : list Z :=
  input ≫= λ b, if decide (b ∈ REGEX_META) then [92; b] else [b].

(** *** Facts about them *)

Definition ascii (s : list Z) : Prop := Forall (λ u, 0 ≤ u < 0x80) s.

Lemma ascii_scalars s : ascii s → scalars s = s.
Proof.
  induction 1 as [|u s Hu _ IH]; [done|]. cbn [scalars]. unfold is_high, is_low.
  rewrite !bool_decide_eq_false_2 by lia. by rewrite IH.
Qed.

Lemma ascii_encode s : ascii s → encodeUtf8 s = s.
Proof.
  intros Hs. unfold encodeUtf8. rewrite (ascii_scalars _ Hs).
  induction Hs as [|u s Hu _ IH]; [done|]. cbn [mbind list_bind]. rewrite IH.
  unfold utf8_of_scalar. by rewrite decide_True by lia.
Qed.

Lemma ascii_text_ok s : ascii s → text_ok s.
Proof.
  intros Hs. split_and!.
  - eapply Forall_impl; [exact Hs|]. unfold is_unit. simpl. lia.
  - apply toWellFormed_bmp. eapply Forall_impl; [exact Hs|]. simpl. lia.
  - rewrite (ascii_scalars _ Hs). destruct Hs as [|u s Hu _]; [done|]. simpl. intros [= ->]. lia.
Qed.

(** The string of ASCII bytes has those bytes as its units and encodes to them. *)
Lemma ascii_decode `{Codec} s : ascii s → decodeUtf8 s = s.
Proof. intros Hs. rewrite <-(ascii_encode _ Hs) at 1. by apply decode_encode, ascii_text_ok. Qed.

(** A property of all bytes is checked byte by byte. *)
Lemma byte_cases (P : Z → bool) b : forallb P (seqZ 0 256) = true → is_byte b → P b = true.
Proof. rewrite forallb_forall. intros HP Hb. apply HP, list_elem_of_In, elem_of_seqZ. unfold is_byte in Hb. lia. Qed.

Definition digits_ok (b : Z) : bool :=
  bool_decide (hex_pair (hex_digit (Z.shiftr b 4)) (hex_digit (Z.land b 15)) = Some b ∧
    hex_pair (HEX_UPPER (Z.shiftr b 4)) (HEX_UPPER (Z.land b 15)) = Some b ∧
    Forall (λ u, 0 ≤ u < 0x80) [hex_digit (Z.shiftr b 4); hex_digit (Z.land b 15)] ∧
    Forall (λ u, 0 ≤ u < 0x80) [37; HEX_UPPER (Z.shiftr b 4); HEX_UPPER (Z.land b 15)]).

Lemma hex_digits b : is_byte b →
  hex_pair (hex_digit (Z.shiftr b 4)) (hex_digit (Z.land b 15)) = Some b ∧
  hex_pair (HEX_UPPER (Z.shiftr b 4)) (HEX_UPPER (Z.land b 15)) = Some b ∧
  ascii [hex_digit (Z.shiftr b 4); hex_digit (Z.land b 15)] ∧
  ascii [37; HEX_UPPER (Z.shiftr b 4); HEX_UPPER (Z.land b 15)].
Proof.
  intros Hb. unfold ascii. revert b Hb.
  enough (Hall : ∀ b, is_byte b → digits_ok b = true)
    by (intros b Hb; apply (bool_decide_eq_true_1 _), (Hall b Hb)).
  intros b. apply byte_cases. by vm_compute.
Qed.

Lemma hex_roundtrip x : bytes_ok x → hex_decode_bytes (hex_encode_bytes x) = Some x.
Proof.
  induction 1 as [|b x Hb _ IH]; [done|]. unfold hex_encode_bytes in *.
  cbn [mbind list_bind app hex_decode_bytes]. rewrite IH. by rewrite (proj1 (hex_digits b Hb)).
Qed.

Lemma hex_encode_ascii x : bytes_ok x → ascii (hex_encode_bytes x).
Proof.
  induction 1 as [|b x Hb _ IH]; [constructor|]. unfold hex_encode_bytes in *. cbn [mbind list_bind].
  apply Forall_app. split; [|exact IH]. by destruct (hex_digits b Hb) as (_ & _ & ? & _).
Qed.

Lemma hex_encode_length x : zlen (hex_encode_bytes x) = zlen x * 2.
Proof. induction x as [|b x IH]; [done|]. unfold hex_encode_bytes in *. cbn [mbind list_bind app]. zlia. Qed.

Lemma hex_decode_length : ∀ x y, hex_decode_bytes x = Some y → zlen x = zlen y * 2.
Proof.
  fix IH 1. intros [|hi [|lo x]] y; simpl; [by intros [= <-]|done|].
  destruct (hex_pair hi lo); simpl; [|done]. destruct (hex_decode_bytes x) as [bs|] eqn:E; simpl; [|done].
  intros [= <-]. apply IH in E. zlia.
Qed.

Definition percent (b : Z) : list Z :=
  if is_unreserved b then [b] else [37; HEX_UPPER (Z.shiftr b 4); HEX_UPPER (Z.land b 15)].

(** Copying by runs is encoding byte by byte. *)
Lemma url_encode_percent x : url_encode_bytes x = x ≫= percent.
Proof.
  unfold url_encode_bytes.
  enough (Hg : ∀ out run, (let '(o, r) := foldl url_step (out, run) x in o ++ r) = (out ++ run) ++ (x ≫= percent))
    by apply (Hg [] []).
  induction x as [|b x IH]; intros out run; cbn [foldl mbind list_bind]; [by rewrite app_nil_r|].
  unfold url_step at 2, percent at 1. destruct (is_unreserved b); rewrite IH; by rewrite <-!app_assoc.
Qed.

Lemma url_decode_percent b x : is_byte b →
  url_decode_bytes (percent b ++ x) = (bs ← url_decode_bytes x; Some (b :: bs)).
Proof.
  intros Hb. unfold percent. destruct (is_unreserved b) eqn:Eu.
  - cbn [app url_decode_bytes]. rewrite decide_False; [done|]. intros ->. done.
  - cbn [app url_decode_bytes]. rewrite decide_True by done. by rewrite (proj1 (proj2 (hex_digits b Hb))).
Qed.

Lemma url_roundtrip x : bytes_ok x → url_decode_bytes (url_encode_bytes x) = Some x.
Proof.
  rewrite url_encode_percent. induction 1 as [|b x Hb _ IH]; [done|]. cbn [mbind list_bind].
  rewrite (url_decode_percent b _ Hb). by rewrite IH.
Qed.

Lemma percent_shape b : is_byte b → ascii (percent b) ∧ 1 ≤ zlen (percent b) ≤ 3.
Proof.
  intros Hb. unfold percent. destruct (is_unreserved b) eqn:Eu; [|split; [apply hex_digits; done|done]].
  split; [|done]. repeat constructor; [unfold is_byte in Hb; lia|].
  unfold is_unreserved in Eu. revert Eu. rewrite !orb_true_iff, !bool_decide_eq_true. set_unfold. lia.
Qed.

Lemma url_encode_ascii x : bytes_ok x → ascii (url_encode_bytes x).
Proof.
  rewrite url_encode_percent. induction 1 as [|b x Hb _ IH]; [constructor|]. cbn [mbind list_bind].
  apply Forall_app. split; [apply percent_shape; done|done].
Qed.

Lemma url_encode_length x : bytes_ok x → zlen x ≤ zlen (url_encode_bytes x) ≤ zlen x * 3.
Proof.
  rewrite url_encode_percent. induction 1 as [|b x Hb _ IH]; [done|]. cbn [mbind list_bind].
  destruct (percent_shape b Hb) as [_ ?]. zlia.
Qed.

Lemma url_decode_length : ∀ x y, url_decode_bytes x = Some y → zlen y ≤ zlen x ∧ (x ≠ [] → y ≠ []).
Proof.
  fix IH 1. intros [|b x] y; simpl; [by intros [= <-]|]. case_decide.
  - destruct x as [|hi [|lo x]]; [done..|]. destruct (hex_pair hi lo); simpl; [|done].
    destruct (url_decode_bytes x) as [bs|] eqn:E; simpl; [|done]. intros [= <-].
    apply IH in E as [? _]. split; [zlia|done].
  - destruct (url_decode_bytes x) as [bs|] eqn:E; simpl; [|done]. intros [= <-].
    apply IH in E as [? _]. split; [zlia|done].
Qed.

(** ** What the code relies on of the symbols

    The codecs above for the ones whose Rust source is a loop over bytes; for the others
    (base64, HMAC, the JSON sum, AEAD) the result is a function [R] of the arguments, with
    the sizes that their formats fix. *)

Record CodecRef := {
  r_base64 : list Z → bool → bool → list Z;
  r_base64_decode : list Z → bool → bool → option (list Z);
  r_hmac : list Z → list Z → list Z;
  r_sum_ids : list Z → option Z;
  r_encrypt : list Z → list Z → list Z → Z → option (list Z);
  r_decrypt : list Z → list Z → list Z → Z → option (list Z);
  r_password : list Z → list Z → Z → Z → Z → Z → option (list Z);
}.

(** The packed verdict of the JSON sum. *)
Definition sum_verdict (r : option Z) : list Z :=
  match r with Some v => 1 :: le_bytes 8 v | None => [0] end.

Record codec_laws (N : CodecSyms) (R : CodecRef) : Prop := {
  law_hex x : fits (castrum_hex_encode N x) (Some (hex_encode_bytes x));
  law_unhex x : fits (castrum_hex_decode N x) (hex_decode_bytes x);
  law_url x : fits (castrum_url_encode N x) (Some (url_encode_bytes x));
  law_unurl x : fits (castrum_url_decode N x) (url_decode_bytes x);
  law_base64 x u p : fits (castrum_base64_encode N x (flag u) (flag p)) (Some (r_base64 R x u p));
  law_unbase64 x u p : fits (castrum_base64_decode N x (flag u) (flag p)) (r_base64_decode R x u p);
  law_base64_text x u p : bytes_ok x → ascii (r_base64 R x u p) ∧
    zlen x ≤ zlen (r_base64 R x u p) ≤ (zlen x + 2) / 3 * 4 ∧
    (zlen x ≤ (zlen (r_base64 R x u p) * 3 + 3) / 4) ∧
    r_base64_decode R (r_base64 R x u p) u p = Some x;
  law_hmac k d : fits (castrum_hmac_sha256 N k d) (Some (r_hmac R k d)) ∧
    zlen (r_hmac R k d) = 64 ∧ ascii (r_hmac R k d);
  law_sum x : needed (castrum_json_sum_ids N x) (Some (sum_verdict (r_sum_ids R x))) ∧
    ∀ v, r_sum_ids R x = Some v → - 2 ^ 63 ≤ v < 2 ^ 63;
  law_encrypt k n p a : fits (castrum_aead_encrypt N k n p a) (r_encrypt R k n p a);
  law_decrypt k n c a : fits (castrum_aead_decrypt N k n c a) (r_decrypt R k n c a);
  law_aead k n p a c : r_encrypt R k n p a = Some c →
    zlen c = zlen p + 16 ∧ r_decrypt R k n c a = Some p;
  law_password w s m t p o : needed (castrum_password_hash N w s m t p o) (r_password R w s m t p o);
}.

(** ** Correctness *)

Section correctness.
Context `{Codec} `{Alloc} (N : CodecSyms) (R : CodecRef) (L : codec_laws N R).

(** What the bind keeps besides the scratch; the scratch itself may hold anything. *)
Definition state_ok (s : ffi_state) : Prop :=
  zlen (jsonSumOut s) = 9 ∧ zlen (dateScratch s) = 9 ∧ zlen (rateScratch s) = 13.

Lemma same_but_scratch_ok s s' : same_but_scratch s s' → state_ok s → state_ok s'.
Proof. unfold same_but_scratch, state_ok. intros (-> & -> & ->). done. Qed.

(** A call on the state gives [r] and keeps the state's shape. *)
Definition answers {A} (m : SE ffi_state A) (r : result A) : Prop :=
  ∀ s, state_ok s → ∃ s', m s = (r, s') ∧ state_ok s'.

Lemma answers_scratch_string n m r : yields m n r → answers (scratch_string n m) (decodeUtf8 <$> r).
Proof.
  intros Hm s Hs. destruct (scratch_call m n r s Hm) as (s' & E & Hsame). exists s'.
  split; [|by eapply same_but_scratch_ok]. unfold scratch_string.
  rewrite (se_bind_run _ _ _ _ _ E). by destruct r.
Qed.

Lemma yields_hex input : yields (hexEncodeInto N input) (zlen input * 2) (Ok (hex_encode_bytes input)).
Proof.
  intros out Hout. destruct (fits_yields _ _ (zlen input * 2) (law_hex _ _ L input)) with (out := out)
    as (out' & Hl & E & Hr); [rewrite hex_encode_length; lia|done|].
  exists out'. split; [done|]. split; [|done]. unfold hexEncodeInto.
  rewrite (se_bind_Ok (gets zlen) _ out (zlen out) out eq_refl). by rewrite decide_False by lia.
Qed.

(** A nonempty result passes [if (w === 0 && input.length !== 0)]. *)
Lemma yields_nonempty (m : SE (list Z) Z) (k : Z → SE (list Z) Z) n b :
  yields m n (Ok b) → (∀ w out, w ≠ 0 ∨ b = [] → k w out = (Ok w, out)) → yields (m ≫= k) n (Ok b).
Proof.
  intros Hm Hk out Hout. destruct (Hm out Hout) as (out' & Hl & E & Hr). exists out'.
  split; [done|]. split; [|done]. rewrite (se_bind_Ok _ _ _ _ _ E). apply Hk.
  destruct b; [by right|left; zlia].
Qed.

Lemma writeOrThrow_keeps (b input : list Z) label w (out : list Z) :
  (b = [] → input = []) → w ≠ 0 ∨ b = [] →
  writeOrThrow w (zlen input) label out = (Ok w, out).
Proof.
  intros Hb Hw. unfold writeOrThrow. rewrite decide_False; [done|]. intros [-> Hi].
  destruct Hw as [?|?%Hb]; [done|]. subst. done.
Qed.

Lemma yields_url input : bytes_ok input →
  yields (urlEncodeInto N input) (zlen input * 3) (Ok (url_encode_bytes input)).
Proof.
  intros Hb. pose proof (url_encode_length input Hb) as Hl.
  apply yields_nonempty; [apply fits_yields; [apply L|lia]|].
  intros w out Hw. rewrite decide_False; [done|]. intros [-> Hi].
  destruct Hw as [?|E]; [done|]. rewrite E in Hl. rewrite zlen_nil in Hl. pose proof (zlen_nonneg input). lia.
Qed.

Lemma yields_base64 input u p : bytes_ok input →
  yields (base64EncodeInto N input u p) ((zlen input + 2) / 3 * 4)
    (Ok (r_base64 R input (default false u) (default true p))).
Proof.
  intros Hb. destruct (law_base64_text _ _ L input (default false u) (default true p) Hb) as (_ & Hl & _).
  apply yields_nonempty; [apply fits_yields; [apply L|lia]|].
  intros w out Hw. eapply writeOrThrow_keeps; [|exact Hw]. intros E. rewrite E in Hl.
  apply zlen_0. rewrite zlen_nil in Hl. pose proof (zlen_nonneg input). lia.
Qed.

Lemma yields_hmac key data :
  yields (nonzero_into (castrum_hmac_sha256 N key data) "hmac sha256: output buffer too small") 64
    (Ok (r_hmac R key data)).
Proof.
  destruct (law_hmac _ _ L key data) as (Hf & Hl & _).
  apply yields_nonempty; [apply fits_yields; [done|lia]|].
  intros w out [Hw|E]; [by rewrite decide_False|]. rewrite E in Hl. done.
Qed.

Lemma sum_read v rest : - 2 ^ 63 ≤ v < 2 ^ 63 → dv_get_i64 ((1 :: le_bytes 8 v) ++ rest) 1 = Ok v.
Proof.
  intros Hv. unfold dv_get_i64, dv_get. rewrite decide_True.
  2: { pose proof (zlen_nonneg rest). rewrite zlen_app, zlen_cons, zlen_le_bytes. lia. }
  rewrite bind_ret. change (Z.to_nat 1) with 1%nat.
  change (drop 1 ((1 :: le_bytes 8 v) ++ rest)) with (le_bytes 8 v ++ rest).
  rewrite take_app_length' by (by rewrite length_le_bytes). rewrite le_val_le_bytes.
  f_equal. unfold to_i64. change (256 ^ Z.of_nat 8) with (2 ^ 64).
  destruct (decide (0 ≤ v)).
  - rewrite Z.mod_small by lia. by rewrite decide_True by lia.
  - replace (v mod 2 ^ 64) with (v + 2 ^ 64)
      by (apply (Z.mod_unique _ _ (-1)); lia).
    rewrite decide_False by lia. lia.
Qed.

(** ** The scratch never shows *)

Definition sum_error : js_error :=
  js_Error "json sum ids: expected an array of objects with numeric ids".

Lemma jsonSumIds_answers input :
  answers (jsonSumIds N input)
    (match r_sum_ids R input with Some v => Ok v | None => Throw sum_error end).
Proof.
  intros s (Hj & Hd & Hr). destruct (law_sum _ _ L input) as (Hf & Hrange).
  unfold jsonSumIds. set (f := castrum_json_sum_ids N input) in *.
  exists (set_jsonSumOut (f (jsonSumOut s)).2 s). split.
  2: { split_and!; [|done..]. cbn. by rewrite (needed_length _ _ Hf). }
  erewrite (se_bind_Ok _ _ s) by (cbv beta; rewrite (surjective_pairing (f _)); reflexivity).
  rewrite (needed_count _ _ Hf).
  assert (Hfit : zlen (sum_verdict (r_sum_ids R input)) ≤ 9)
    by (destruct (r_sum_ids R input); unfold sum_verdict; [rewrite zlen_cons, zlen_le_bytes; lia|done]).
  pose proof (needed_bytes _ _ Hf (jsonSumOut s) _ eq_refl ltac:(lia)) as Hb.
  set (out := (f (jsonSumOut s)).2) in *.
  rewrite <-(take_drop (length (sum_verdict (r_sum_ids R input))) out), Hb.
  rewrite decide_False by (destruct (r_sum_ids R input); unfold sum_verdict; zlia).
  rewrite (se_bind_Ok (gets jsonSumOut) _ _ _ _ eq_refl). cbn [jsonSumOut set_jsonSumOut].
  destruct (r_sum_ids R input) as [v|] eqn:Ev; unfold sum_verdict at 1; cbn [app lookup list_lookup].
  - rewrite bool_decide_eq_false_2 by done. unfold lift. f_equal. apply sum_read. by apply Hrange.
  - by rewrite bool_decide_eq_true_2.
Qed.

(** ** Decoders *)

Definition decoded (r : option (list Z)) (label : string) : result (list Z) :=
  match r with
  | Some b => Ok b
  | None => Throw (js_Error (label +:+ ": invalid input or output buffer too small"))
  end.

Lemma yields_decoder f r (input : list Z) label n :
  fits f r → (∀ b, r = Some b → zlen b ≤ n ∧ (b = [] → input = [])) → (r = None → input ≠ []) →
  yields (w ← into f; writeOrThrow w (zlen input) label) n (decoded r label).
Proof.
  intros Hf Hsome Hnone. destruct r as [b|].
  - destruct (Hsome b eq_refl) as [Hn Hb]. apply yields_nonempty; [by apply fits_yields|].
    intros w out. by apply writeOrThrow_keeps.
  - intros out Hout. exists (f out).2. split; [apply Hf|]. unfold decoded.
    erewrite (se_bind_Ok (into f)) by (unfold into; rewrite (surjective_pairing (f out)); reflexivity).
    rewrite (fits_count _ _ Hf). unfold writeOrThrow. rewrite decide_True; [done|].
    split; [done|]. intros ?%zlen_0. by apply Hnone.
Qed.

Lemma own_buffer_yields m n size r : yields m n r → 0 ≤ n ≤ size → own_buffer size m = r.
Proof.
  intros Hm Hn. unfold own_buffer. destruct (allocOut_ok size) as (out & -> & Hz); [lia|].
  rewrite bind_ret. destruct (Hm out) as (out' & Hl & Hr); [lia|]. destruct r as [b|e].
  - destruct Hr as (-> & Hb & Ht). rewrite subarray_take by lia. by rewrite Ht.
  - by rewrite Hr.
Qed.

Lemma hexDecode_spec x : hexDecode N x = decoded (hex_decode_bytes x) "hex decode".
Proof.
  apply (own_buffer_yields _ (zlen x / 2)); [|pose proof (zlen_nonneg x); split; [apply Z.div_pos|]; lia].
  apply yields_decoder; [apply L| |].
  - intros y Hy%hex_decode_length. rewrite Hy, Z.div_mul by lia. split; [lia|].
    intros ->. apply zlen_0. by rewrite Hy.
  - by intros E ->.
Qed.

Lemma urlDecode_spec x : urlDecode N x = decoded (url_decode_bytes x) "url decode".
Proof.
  apply (own_buffer_yields _ (zlen x)); [|pose proof (zlen_nonneg x); lia].
  apply yields_decoder; [apply L| |].
  - intros y [Hy Hne]%url_decode_length. split; [done|]. intros ->. by destruct x; [|destruct Hne].
  - by intros E ->.
Qed.

Lemma base64Decode_text x u p : bytes_ok x →
  base64Decode N (r_base64 R x (default false u) (default true p)) u p = Ok x.
Proof.
  intros Hb. destruct (law_base64_text _ _ L x (default false u) (default true p) Hb) as (_ & Hl & Hr & Hd).
  set (t := r_base64 _ _ _ _) in *.
  apply (own_buffer_yields _ ((zlen t * 3 + 3) / 4));
    [|pose proof (zlen_nonneg t); split; [apply Z.div_pos|]; lia].
  pose proof (yields_decoder _ _ t "base64 decode" ((zlen t * 3 + 3) / 4)
    (law_unbase64 _ _ L t (default false u) (default true p))) as Hy. rewrite Hd in Hy. apply Hy; [|done].
  intros ? [= <-]. split; [done|]. intros Ex. apply zlen_0. pose proof (zlen_nonneg t).
  assert (zlen x = 0) as Ez by (by rewrite Ex). rewrite Ez in Hl. change ((0 + 2) / 3 * 4) with 0 in Hl. lia.
Qed.

(** Decoding inverts encoding on the Bun surface: for every byte array, what hexEncode,
    urlEncode and base64Encode return, read as bytes, decodes to the array, whatever the
    shared scratch held before the call. *)
Theorem text_codecs_roundtrip (x : list Z) (u p : option bool) (s : ffi_state) :
  bytes_ok x → state_ok s →
  (∃ t s', hexEncode N x s = (Ok t, s') ∧ hexDecode N (encodeUtf8 t) = Ok x) ∧
  (∃ t s', urlEncode N x s = (Ok t, s') ∧ urlDecode N (encodeUtf8 t) = Ok x) ∧
  (∃ t s', base64Encode N x u p s = (Ok t, s') ∧ base64Decode N (encodeUtf8 t) u p = Ok x).
Proof.
  intros Hb Hs.
  destruct (law_base64_text _ _ L x (default false u) (default true p) Hb) as (Ha & _).
  split_and!.
  - destruct (answers_scratch_string _ _ _ (yields_hex x) s Hs) as (s' & E & _).
    eexists _, s'. split; [exact E|]. simpl. pose proof (hex_encode_ascii x Hb) as Hx.
    by rewrite ascii_decode, ascii_encode, hexDecode_spec, hex_roundtrip.
  - destruct (answers_scratch_string _ _ _ (yields_url x Hb) s Hs) as (s' & E & _).
    eexists _, s'. split; [exact E|]. simpl. pose proof (url_encode_ascii x Hb) as Hx.
    by rewrite ascii_decode, ascii_encode, urlDecode_spec, url_roundtrip.
  - destruct (answers_scratch_string _ _ _ (yields_base64 x u p Hb) s Hs) as (s' & E & _).
    eexists _, s'. split; [exact E|]. simpl. by rewrite ascii_decode, ascii_encode, base64Decode_text.
Qed.

(** ** Authenticated encryption *)

(** What aeadEncrypt produced, aeadDecrypt opens to the plaintext, except that an
    empty plaintext comes back as null, the answer to a forged ciphertext. *)
Theorem aead_roundtrip (k n p : list Z) (a : Z) (c : list Z) :
  aeadEncrypt N k n p a = Ok c →
  aeadDecrypt N k n c a = Ok (if decide (p = []) then None else Some p).
Proof.
  unfold aeadEncrypt, own_buffer. destruct (allocOut_ok (zlen p + 16)) as (out & -> & Hz);
    [pose proof (zlen_nonneg p); lia|]. rewrite bind_ret.
  pose proof (law_encrypt _ _ L k n p a) as Hf. unfold nonzero_into.
  erewrite (se_bind_Ok (into _)) by (unfold into; rewrite (surjective_pairing (castrum_aead_encrypt _ _ _ _ _ _)); reflexivity).
  rewrite (fits_count _ _ Hf). destruct (r_encrypt R k n p a) as [ct|] eqn:E; [|by rewrite decide_True].
  destruct (law_aead _ _ L _ _ _ _ _ E) as [Hct Hdec]. pose proof (zlen_nonneg p).
  rewrite (decide_True (P := zlen ct ≤ zlen out)), decide_False by lia. cbn [mret SE_ret].
  rewrite (fits_read _ _ _ _ Hf eq_refl) by lia.
  intros [= <-]. unfold aeadDecrypt. destruct (allocOut_ok (zlen ct)) as (out2 & -> & Hz2); [lia|].
  rewrite bind_ret. pose proof (law_decrypt _ _ L k n ct a) as Hg.
  rewrite (surjective_pairing (castrum_aead_decrypt _ _ _ _ _ _)), (fits_count _ _ Hg), Hdec.
  rewrite (decide_True (P := zlen p ≤ zlen out2)) by lia. rewrite (fits_read _ _ _ _ Hg Hdec) by lia.
  destruct (decide (p = [])) as [->|Hp]; [done|]. rewrite decide_False; [done|]. by intros ?%zlen_0.
Qed.

End correctness.

(** ** Strings that cross as C strings *)

Section cstrings.
Context `{Codec} `{Alloc} (N : CodecSyms).

Lemma scalar_nul c : is_scalar c → 0 ∈ utf8_of_scalar c → c = 0.
Proof.
  intros Hc. unfold utf8_of_scalar, is_scalar in *. repeat case_decide; set_unfold;
    intros Hin; repeat destruct Hin as [Hin|Hin]; try done;
    Z.to_euclidean_division_equations; lia.
Qed.

(** Surrogate pairs are read two units at a time. *)
Lemma scalars_nul s : 0 ∈ scalars s ↔ 0 ∈ s.
Proof.
  remember (length s) as n eqn:Hn. revert s Hn.
  induction n as [n IH] using (well_founded_induction lt_wf). intros [|u s] ->; [done|].
  pose proof (IH (length s) ltac:(simpl; lia) s eq_refl) as IHs. cbn [scalars]. unfold is_high, is_low.
  case_bool_decide as Hu; [|case_bool_decide]; [|rewrite !elem_of_cons, IHs; unfold REPLACEMENT; intuition lia..].
  destruct s as [|l s]; [set_unfold; unfold REPLACEMENT; intuition lia|]. case_bool_decide as Hl.
  - pose proof (IH (length s) ltac:(simpl; lia) s eq_refl) as IHl.
    rewrite !elem_of_cons, IHl. intuition lia.
  - rewrite elem_of_cons, IHs, (elem_of_cons (l :: s)). unfold REPLACEMENT. intuition lia.
Qed.

Lemma encode_nul s : Forall is_unit s → 0 ∈ encodeUtf8 s → 0 ∈ s.
Proof.
  intros Hs (c & Hc & Hin)%list_elem_of_bind. apply scalars_nul.
  pose proof (proj1 (Forall_forall _ _) (scalars_ok s Hs) c Hin) as Hsc.
  by rewrite (scalar_nul c Hsc Hc) in Hin.
Qed.

Lemma until_nul_free bs : 0 ∉ bs → until_nul bs = bs.
Proof.
  induction bs as [|b bs IH]; [done|]. intros Hn. simpl. rewrite decide_False by set_solver.
  f_equal. apply IH. set_solver.
Qed.

(** A string without NUL reaches the callee whole. *)
Lemma cstr_arg_whole s : Forall is_unit s → hasNul s = false → cstr_arg s = encodeUtf8 s ∧ 0 ∉ cstr_arg s.
Proof.
  intros Hs Hn%bool_decide_eq_false. assert (Hf : 0 ∉ encodeUtf8 s) by (by intros ?%encode_nul).
  unfold cstr_arg. by rewrite until_nul_free.
Qed.

(** The two forms of a symbol agree on bytes a C string can carry, and nothing valid
    contains a NUL. *)
Definition siblings (str bytes : list Z → Z) : Prop :=
  (∀ b, 0 ∉ b → str b = bytes b) ∧ (∀ b, 0 ∈ b → bytes b ≠ 1).

Lemma guarded_verdict str bytes s : siblings str bytes → Forall is_unit s →
  (0 ∈ s → 0 ∈ encodeUtf8 s) →
  negb (hasNul s) && bool_decide (str (cstr_arg s) = 1) = bool_decide (bytes (encodeUtf8 s) = 1).
Proof.
  intros [Hsame Hnul] Hs Hin. destruct (hasNul s) eqn:Hn; simpl.
  - symmetry. apply bool_decide_eq_false_2, Hnul, Hin. by apply bool_decide_eq_true in Hn.
  - destruct (cstr_arg_whole s Hs Hn) as [<- Hfree]. by rewrite Hsame.
Qed.

Lemma nul_encodes s : 0 ∈ s → 0 ∈ encodeUtf8 s.
Proof. intros Hin. apply list_elem_of_bind. exists 0. split; [by left|]. by apply scalars_nul. Qed.

(** C27. No string is judged by its prefix: the string forms of the validators, of the hex
    batch and of the regular-expression escape give what the byte forms give on the whole
    UTF-8 encoding, embedded NULs included. *)
Theorem strings_cross_whole (s : list Z) (width : Z) (st : ffi_state) :
  Forall is_unit s →
  siblings (castrum_validate_email N) (castrum_validate_email_bytes N) →
  siblings (castrum_validate_uuid N) (castrum_validate_uuid_bytes N) →
  siblings (castrum_validate_ipv4 N) (castrum_validate_ipv4_bytes N) →
  siblings (castrum_validate_ipv6 N) (castrum_validate_ipv6_bytes N) →
  (∀ b w, 0 ∉ b → castrum_hex_validate_batch_str N b w = castrum_hex_validate_batch N b w) →
  (∀ b, 0 ∉ b → castrum_regex_escape_str N b = decodeUtf8 (regex_escape b)) →
  (∀ b, needed (castrum_regex_escape N b) (Some (regex_escape b))) →
  zlen (regex_escape (encodeUtf8 s)) ≤ Z.shiftl 1 20 →
  validateEmail N s = validateEmailBytes N (encodeUtf8 s) ∧
  validateUuid N s = validateUuidBytes N (encodeUtf8 s) ∧
  validateIpv4 N s = validateIpv4Bytes N (encodeUtf8 s) ∧
  validateIpv6 N s = validateIpv6Bytes N (encodeUtf8 s) ∧
  (∀ out, hexValidateBatchStr N s width out = hexValidateBatchInto N (encodeUtf8 s) width out) ∧
  regexEscapeStr N s st = (Ok (decodeUtf8 (regex_escape (encodeUtf8 s))), st).
Proof.
  intros Hs He Hu H4 H6 Hhex Hstr Hneed Hsize.
  split_and!; try (apply guarded_verdict; [done|done|apply nul_encodes]).
  - intros out. unfold hexValidateBatchStr, hexValidateBatchInto. case_decide; [done|].
    destruct (hasNul s) eqn:Hn; [done|]. destruct (cstr_arg_whole s Hs Hn) as [<- Hf]. by rewrite Hhex.
  - unfold regexEscapeStr. destruct (hasNul s) eqn:Hn; cbn [negb].
    + pose proof (growExact_native (castrum_regex_escape N (encodeUtf8 s)) _ 16 (Z.shiftl 1 20)
        "regex escape: output buffer too small" st (Hneed _) ltac:(done)) as E.
      rewrite (se_bind_run _ _ _ _ _ E). unfold grow_result. rewrite decide_False; [done|].
      intros [Hnil|?]; [|lia]. apply bool_decide_eq_true, nul_encodes in Hn.
      unfold regex_escape in Hnil. apply list_elem_of_split in Hn as (a & b & Ha).
      rewrite Ha, bind_app in Hnil. by apply app_nil in Hnil as [_ [? ?]%app_nil].
    + destruct (cstr_arg_whole s Hs Hn) as [Hw Hf]. rewrite <-Hw. by rewrite Hstr.
Qed.

End cstrings.

(** ** A host on which the laws hold *)

(** Six bits per character, in the manner of base64. *)
Fixpoint sixbit (x : list Z) : list Z :=
  match x with
  | [] => []
  | [a] => [64 + a / 4; 64 + a mod 4 * 16]
  | [a; b] => [64 + a / 4; 64 + (a mod 4 * 16 + b / 16); 64 + b mod 16 * 4]
  | a :: b :: c :: x =>
      64 + a / 4 :: 64 + (a mod 4 * 16 + b / 16) :: 64 + (b mod 16 * 4 + c / 64) :: 64 + c mod 64 :: sixbit x
  end.
Fixpoint unsixbit (t : list Z) : option (list Z) :=
  match t with
  | [] => Some []
  | [s; t] => Some [(s - 64) * 4 + (t - 64) / 16]
  | [s; t; u] => Some [(s - 64) * 4 + (t - 64) / 16; (t - 64) mod 16 * 16 + (u - 64) / 4]
  | s :: t :: u :: v :: rest =>
      bs ← unsixbit rest;
      Some ((s - 64) * 4 + (t - 64) / 16 :: (t - 64) mod 16 * 16 + (u - 64) / 4 ::
            (u - 64) mod 4 * 64 + (v - 64) :: bs)
  | _ => None
  end.

Lemma sixbit_facts x : bytes_ok x →
  ascii (sixbit x) ∧ zlen x ≤ zlen (sixbit x) ≤ (zlen x + 2) / 3 * 4 ∧
  zlen x ≤ (zlen (sixbit x) * 3 + 3) / 4 ∧ unsixbit (sixbit x) = Some x.
Proof.
  remember (length x) as n eqn:Hn. revert x Hn.
  induction n as [n IH] using (well_founded_induction lt_wf). intros [|a [|b [|c x]]] -> Hx.
  - split_and!; [constructor|done..].
  - apply Forall_cons in Hx as [Ha _]. unfold is_byte in Ha. cbn [sixbit unsixbit]. unfold ascii.
    split_and!; [|done..|repeat f_equal; Z.to_euclidean_division_equations; lia].
    repeat constructor; Z.to_euclidean_division_equations; lia.
  - apply Forall_cons in Hx as [Ha [Hb _]%Forall_cons]. unfold is_byte in *. cbn [sixbit unsixbit]. unfold ascii.
    split_and!; [|done..|repeat f_equal; Z.to_euclidean_division_equations; lia].
    repeat constructor; Z.to_euclidean_division_equations; lia.
  - apply Forall_cons in Hx as [Ha [Hb [Hc Hx]%Forall_cons]%Forall_cons]. unfold is_byte in *.
    destruct (IH (length x) ltac:(simpl; lia) x eq_refl Hx) as (H1 & H2 & H3 & H4).
    cbn [sixbit unsixbit]. rewrite H4. unfold ascii. rewrite !zlen_cons.
    split_and!; [|Z.to_euclidean_division_equations; lia..|].
    + repeat (constructor; [Z.to_euclidean_division_equations; lia|]). done.
    + cbn [mbind option_bind]. repeat f_equal; Z.to_euclidean_division_equations; lia.
Qed.

Definition toy_ref : CodecRef := {|
  r_base64 x _ _ := sixbit x;
  r_base64_decode t _ _ := unsixbit t;
  r_hmac _ _ := replicate 64 97;
  r_sum_ids x := Some (zlen x mod 100);
  r_encrypt _ _ p _ := Some (p ++ replicate 16 0);
  r_decrypt _ _ c _ := Some (take (length c - 16) c);
  r_password _ _ _ _ _ _ := Some (js "$argon2id$");
|}.

(** Valid is what consists of letters, and no escape is needed in letters. *)
Definition letters (x : list Z) : Z := if decide (Forall (λ b, 97 ≤ b ≤ 122) x) then 1 else 0.

Definition toy_syms : CodecSyms := {|
  castrum_crc32 := zlen; castrum_fnv1a64 := zlen; castrum_xxh3 := zlen;
  castrum_json_valid := letters; castrum_utf8_valid := letters;
  castrum_hex_encode x := fits_writer (Some (hex_encode_bytes x));
  castrum_hex_decode x := fits_writer (hex_decode_bytes x);
  castrum_url_encode x := fits_writer (Some (url_encode_bytes x));
  castrum_url_decode x := fits_writer (url_decode_bytes x);
  castrum_validate_email := letters; castrum_validate_uuid := letters;
  castrum_validate_ipv4 := letters; castrum_validate_ipv6 := letters;
  castrum_validate_email_bytes := letters; castrum_validate_uuid_bytes := letters;
  castrum_validate_ipv4_bytes := letters; castrum_validate_ipv6_bytes := letters;
  castrum_json_sum_ids x := needed_writer (Some (sum_verdict (Some (zlen x mod 100))));
  castrum_hex_validate_batch x w := needed_writer (Some [letters x]);
  castrum_hex_validate_batch_str x w := needed_writer (Some [letters x]);
  castrum_regex_escape x := needed_writer (Some (regex_escape x));
  castrum_regex_escape_str x := @decodeUtf8 bun_codec (regex_escape x);
  castrum_hmac_sha256_verify _ _ _ := 1; castrum_csrf_verify _ _ := 1;
  castrum_password_verify _ _ := 1; castrum_password_verify_bcrypt _ _ := 1;
  castrum_ws_accept_key k := Some k; castrum_ws_accept_key_into k := needed_writer (Some k);
  castrum_etag _ _ := Some (js "etag"); castrum_etag_into _ _ := needed_writer (Some (js "etag"));
  castrum_random_token n := Some (replicate (Z.to_nat n) 97);
  castrum_random_token_into n := needed_writer (Some (replicate (Z.to_nat n) 97));
  castrum_base64_encode x _ _ := fits_writer (Some (sixbit x));
  castrum_base64_decode t _ _ := fits_writer (unsixbit t);
  castrum_hmac_sha256 _ _ := fits_writer (Some (replicate 64 97));
  castrum_csrf_token _ := Some (js "token"); castrum_csrf_token_into _ := needed_writer (Some (js "token"));
  castrum_password_hash _ _ _ _ _ _ := needed_writer (Some (js "$argon2id$"));
  castrum_password_hash_bcrypt _ _ := fits_writer (Some (js "$2b$"));
  castrum_pbkdf2_sha256 _ _ _ n := fits_writer (Some (replicate (Z.to_nat n) 0));
  castrum_aead_encrypt _ _ p _ := fits_writer (Some (p ++ replicate 16 0));
  castrum_aead_decrypt _ _ c _ := fits_writer (Some (take (length c - 16) c));
|}.

Lemma toy_laws : codec_laws toy_syms toy_ref.
Proof.
  split; intros; simpl in *; auto with castrum.
  - by apply sixbit_facts.
  - split_and!; [auto with castrum|done|]. unfold ascii. repeat constructor; lia.
  - split; [auto with castrum|]. intros v [= <-]. Z.to_euclidean_division_equations; lia.
  - match goal with Hc : Some _ = Some _ |- _ => injection Hc as <- end.
    split; [by rewrite zlen_app|]. f_equal. rewrite length_app. simpl.
    replace (length p + 16 - 16)%nat with (length p) by lia. by rewrite take_app_length.
Qed.

Definition host_alloc : Alloc.
Proof.
  refine {| has_allocUnsafe := true; allocUnsafe n := replicate (Z.to_nat n) 7 |}.
  intros n Hn. zlia.
Defined.

Definition dirty_state : ffi_state := FfiState (replicate 5 9) (new_u8 9) (new_u8 9) (new_u8 13).

Lemma text_codecs_roundtrip_witness :
  ∃ t s', @hexEncode bun_codec toy_syms [0; 255; 10] dirty_state = (Ok t, s') ∧
    @hexDecode host_alloc toy_syms (encodeUtf8 t) = Ok [0; 255; 10].
Proof.
  apply (@text_codecs_roundtrip bun_codec host_alloc toy_syms toy_ref toy_laws [0; 255; 10] None None dirty_state).
  - repeat constructor; unfold is_byte; lia.
  - repeat split.
Defined.

Lemma aead_roundtrip_witness :
  @aeadDecrypt host_alloc toy_syms [] [] (replicate 16 0) 0 = Ok None.
Proof. apply (@aead_roundtrip host_alloc toy_syms toy_ref toy_laws [] [] [] 0 (replicate 16 0)). vm_compute. done. Defined.

Lemma letters_siblings : siblings letters letters.
Proof.
  split; [done|]. intros b Hb. unfold letters. rewrite decide_False; [done|].
  intros Hall. pose proof (proj1 (Forall_forall _ _) Hall 0 Hb). simpl in *. lia.
Qed.

Lemma strings_cross_whole_witness :
  @regexEscapeStr bun_codec host_alloc toy_syms [97; 0; 46] dirty_state
  = (Ok (@decodeUtf8 bun_codec (regex_escape (encodeUtf8 [97; 0; 46]))), dirty_state).
Proof.
  apply (@strings_cross_whole bun_codec host_alloc toy_syms [97; 0; 46] 4 dirty_state);
    try exact letters_siblings; try done.
  - repeat constructor; unfold is_unit; lia.
  - intros b. apply needed_writer_needed.
Defined.
