(* ===== verification/CookieSign.v ===== *)
(** Signed cookies from end to end: the native core (rust/crypto/cookie_sign.rs) and its C
    ABI (rust/ffi/crypto.rs), the methods of the Bun surface (native/ffi/build/codecs.ts),
    the client's methods (rust-ffi/scalar/crypto.ts, rust-ffi/into.ts) and the signer
    objects (rust-ffi/scalar/factories.ts).  HMAC-SHA256 is a parameter. *)

From stdpp Require Import base list strings.
From S2P Require Import Prelude.
From S2P Require Import Utf8.
From S2P Require Import JsString.
From S2P Require Import Wire.
From S2P Require Import StateErr.
From S2P Require Import FfiBuffer.
From S2P Require Import FfiCodecs.

(** [iter().rposition(|&b| b == b'.')]. *)
Fixpoint rposition (s : list Z) : option nat :=
  match s with
  | [] => None
  | b :: s =>
      match rposition s with
      | Some i => Some (S i)
      | None => if decide (b = 46) then Some 0%nat else None
      end
  end.

(** The keyed hash of the host: 32 bytes. *)
Class Hmac := {
  hmac_sign : list Z → list Z → list Z;
  hmac_length : ∀ k d, zlen (hmac_sign k d) = 32;
  hmac_bytes : ∀ k d, bytes_ok (hmac_sign k d);
}.

Definition hex_decode_32 (hex : list Z) : option (list Z) :=
  if decide (zlen hex ≠ 64) then None else hex_decode_bytes hex.

Section native.
Context `{Hmac}.

Definition sign_cookie_bytes (value secret : list Z) : list Z :=
  value ++ [46] ++ hex_encode_bytes (hmac_sign secret value).

Definition sign_cookie_into (value secret out : list Z) : option Z * list Z :=
  let need := zlen value + 1 + 64 in
  if decide (zlen out < need) then (None, out)
  else
    let sig := hex_encode_bytes (hmac_sign secret value) in
    let out := splice out 0 value in
    let out := splice out (zlen value) [46] in
    (Some need, splice out (zlen value + 1) sig).

(** [hmac::verify]. *)
Definition hmac_verify (secret value sig : list Z) : bool := bool_decide (sig = hmac_sign secret value).

(** The value a signed cookie carries, if its signature is good: the checks shared by the
    allocating and the writing form. *)
Definition verify_cookie_bytes (signed secret : list Z) : option (list Z) :=
  dot ← rposition signed;
  let value := take dot signed in
  let sig := drop (S dot) signed in
  if decide (zlen sig ≠ 64) then None
  else
    sig_bytes ← hex_decode_32 sig;
    if hmac_verify secret value sig_bytes then Some value else None.

Definition verify_cookie_into (signed secret out : list Z) : option Z * list Z :=
  match verify_cookie_bytes signed secret with
  | None => (None, out)
  | Some value =>
      if decide (zlen out < zlen value) then (None, out) else (Some (zlen value), splice out 0 value)
  end.

(** [castrum_sign_cookie_into] and [castrum_verify_cookie_into]. *)
Definition castrum_sign_cookie_into (value secret : list Z) : writer := λ out,
  let needed := zlen value + 65 in
  if decide (zlen out < needed) then (needed, out)
  else let '(w, out) := sign_cookie_into value secret out in (default 0 w, out).

Definition castrum_verify_cookie_into (signed secret : list Z) : writer := λ out,
  if decide (zlen out < zlen signed) then
    let dot := Z.of_nat (default 0%nat (rposition signed)) in
    if decide (dot ≠ 0) then (dot, out) else (zlen signed, out)
  else let '(w, out) := verify_cookie_into signed secret out in (default 0 w, out).

(** ** codecs.ts *)

Definition signCookieInto (value secret : list Z) : SE (list Z) Z :=
  checked_into (castrum_sign_cookie_into value secret) "sign cookie: invalid input"
    "sign cookie: output buffer too small".

Definition verifyCookieInto (signed secret : list Z) : SE (list Z) (option Z) :=
  w ← into (castrum_verify_cookie_into signed secret);
  if decide (w = 0) then mret None
  else
    len ← gets zlen;
    if decide (len < w) then throw (js_Error "verify cookie: output buffer too small")
    else mret (Some w).

(** ** into.ts *)

Definition writeInto (op : string) (bytes : list Z) : SE (list Z) Z := λ output,
  if decide (zlen output < zlen bytes) then (Throw (js_Error (op +:+ ": output buffer too small")), output)
  else (Ok (zlen bytes), splice output 0 bytes).

(** ** scalar/crypto.ts: with the FFI surface or without *)

Definition rust_signCookieInto (ffi : bool) (value secret : list Z) : SE (list Z) Z :=
  if ffi then signCookieInto value secret
  else writeInto "sign cookie" (sign_cookie_bytes value secret).

Definition rust_verifyCookieInto (ffi : bool) (signed secret : list Z) : SE (list Z) (option Z) :=
  if ffi then verifyCookieInto signed secret
  else
    match verify_cookie_bytes signed secret with
    | None => mret None
    | Some value => w ← writeInto "verify cookie" value; mret (Some w)
    end.

(** ** factories.ts *)

Record CookieSigner := {
  sign : list Z → result (list Z);
  verify : list Z → result (option (list Z));
}.

Definition ffiCookieSigner (secret : list Z) : CookieSigner := {|
  sign value :=
    let '(r, out) := signCookieInto value secret (new_u8 (zlen value + 65)) in
    w ← r; Ok (subarray out 0 w);
  verify signed :=
    let '(r, out) := verifyCookieInto signed secret (new_u8 (zlen signed + 1)) in
    w ← r; Ok (w ← w; Some (subarray out 0 w));
|}.

(** The addon's class. *)
Definition addon_CookieSigner (secret : list Z) : CookieSigner := {|
  sign value := Ok (sign_cookie_bytes value secret);
  verify signed := Ok (verify_cookie_bytes signed secret);
|}.

Definition createCookieSigner (ffi : bool) (secret : list Z) : result CookieSigner :=
  if decide (zlen secret = 0) then Throw (js_Error "createCookieSigner: secret must not be empty")
  else Ok (if ffi then ffiCookieSigner secret else addon_CookieSigner secret).

(** ** Facts *)

Lemma rposition_lt s i : rposition s = Some i → (i < length s)%nat.
Proof.
  revert i. induction s as [|b s IH]; intros i; [done|]. simpl.
  destruct (rposition s) as [j|].
  - intros [= <-]. specialize (IH j eq_refl). lia.
  - case_decide; [intros [= <-]; lia|done].
Qed.

Lemma rposition_none s : 46 ∉ s → rposition s = None.
Proof.
  induction s as [|b s IH]; [done|]. intros Hs. simpl. rewrite IH by set_solver.
  rewrite decide_False; [done|set_solver].
Qed.

Lemma rposition_app v s : 46 ∉ s → rposition (v ++ 46 :: s) = Some (length v).
Proof.
  intros Hs. induction v as [|b v IH]; simpl; [by rewrite (rposition_none s Hs)|by rewrite IH].
Qed.

Lemma hex_no_dot x : bytes_ok x → 46 ∉ hex_encode_bytes x.
Proof.
  intros Hx (b & Hb & Hin)%list_elem_of_bind. pose proof (proj1 (Forall_forall _ _) Hx b Hin) as Hbyte.
  simpl in Hbyte. unfold hex_digit in Hb. unfold is_byte in Hbyte.
  pose proof (proj2 (Z.land_nonneg b 15) ltac:(lia)). pose proof (proj2 (Z.shiftr_nonneg b 4) ltac:(lia)).
  set_unfold. repeat case_decide; lia.
Qed.

Lemma signature_length secret value : zlen (hex_encode_bytes (hmac_sign secret value)) = 64.
Proof. by rewrite hex_encode_length, hmac_length. Qed.

(** A signed value verifies, under its own secret. *)
Lemma verify_sign value secret : verify_cookie_bytes (sign_cookie_bytes value secret) secret = Some value.
Proof.
  unfold verify_cookie_bytes, sign_cookie_bytes. cbn [app].
  rewrite rposition_app by (apply hex_no_dot, hmac_bytes). cbn [mbind option_bind].
  rewrite take_app_length, drop_app_ge by lia.
  replace (S (length value) - length value)%nat with 1%nat by lia. cbn [drop]. rewrite drop_0.
  unfold hex_decode_32. rewrite !(decide_False (P := zlen (hex_encode_bytes (hmac_sign secret value)) ≠ 64))
    by (rewrite signature_length; lia).
  rewrite hex_roundtrip by apply hmac_bytes. cbn [mbind option_bind]. unfold hmac_verify.
  by rewrite bool_decide_eq_true_2.
Qed.

Lemma sign_cookie_length value secret : zlen (sign_cookie_bytes value secret) = zlen value + 65.
Proof. unfold sign_cookie_bytes. rewrite !zlen_app, signature_length. rewrite zlen_cons, zlen_nil. lia. Qed.

Lemma verify_prefix signed secret value :
  verify_cookie_bytes signed secret = Some value → zlen value < zlen signed.
Proof.
  unfold verify_cookie_bytes. destruct (rposition signed) as [dot|] eqn:Hd; [|done].
  apply rposition_lt in Hd. cbn [mbind option_bind]. case_decide; [done|].
  destruct (hex_decode_32 _); [|done]. cbn [mbind option_bind]. destruct (hmac_verify _ _ _); [|done].
  intros [= <-]. unfold zlen. rewrite length_take. lia.
Qed.

Lemma splice_front (out src : list Z) : splice out 0 src = fill src out.
Proof. done. Qed.

(** *** The native writers keep the needed-size convention *)

Lemma sign_fills value secret out : zlen value + 65 ≤ zlen out →
  sign_cookie_into value secret out = (Some (zlen value + 65), fill (sign_cookie_bytes value secret) out).
Proof.
  intros Hout. unfold sign_cookie_into. rewrite decide_False by lia. f_equal; [f_equal; lia|].
  set (sig := hex_encode_bytes _). assert (Hsig : zlen sig = 64) by apply signature_length.
  assert (Hdrop : zlen (drop (length value) out) = zlen out - zlen value) by (unfold zlen in *; rewrite length_drop; lia).
  rewrite splice_front. unfold fill at 1.
  rewrite (splice_frontier value (drop (length value) out) [46] (zlen value)) by (try lia; simpl; zlia).
  rewrite app_assoc, drop_drop.
  rewrite (splice_frontier (value ++ [46]) _ sig (zlen value + 1)).
  - unfold fill, sign_cookie_bytes. rewrite drop_drop, <-!app_assoc. repeat f_equal.
    fold sig. rewrite !length_app. cbn [length]. lia.
  - rewrite zlen_app. done.
  - unfold zlen in *. rewrite length_drop. simpl. lia.
Qed.

Lemma sign_needed value secret :
  needed (castrum_sign_cookie_into value secret) (Some (sign_cookie_bytes value secret)).
Proof.
  unfold castrum_sign_cookie_into. split; intros out.
  - case_decide; [done|]. rewrite sign_fills by lia. simpl. apply fill_length. rewrite sign_cookie_length. lia.
  - rewrite sign_cookie_length. case_decide; [done|]. by rewrite sign_fills by lia.
  - intros ? [= <-]. rewrite sign_cookie_length. intros Hfit. rewrite decide_False by lia.
    rewrite sign_fills by lia. simpl. apply take_fill.
Qed.

(** On a buffer of the size of the signed cookie. *)
Lemma verify_into_large signed secret out : zlen signed ≤ zlen out →
  ∃ out', zlen out' = zlen out ∧
  verifyCookieInto signed secret out =
    match verify_cookie_bytes signed secret with
    | Some value => if decide (value = []) then (Ok None, out') else (Ok (Some (zlen value)), out')
    | None => (Ok None, out')
    end ∧
  ∀ value, verify_cookie_bytes signed secret = Some value → take (length value) out' = value.
Proof.
  intros Hout. unfold verifyCookieInto.
  assert (E : castrum_verify_cookie_into signed secret out =
    match verify_cookie_bytes signed secret with
    | Some value => (zlen value, fill value out) | None => (0, out) end).
  { unfold castrum_verify_cookie_into, verify_cookie_into. rewrite decide_False by lia.
    destruct (verify_cookie_bytes signed secret) as [value|] eqn:Ev; [|done].
    apply verify_prefix in Ev. rewrite decide_False by lia. done. }
  destruct (verify_cookie_bytes signed secret) as [value|] eqn:Ev.
  - pose proof (verify_prefix _ _ _ Ev) as Hp. exists (fill value out).
    split; [apply fill_length; lia|].
    split; [|intros ? [= <-]; apply take_fill].
    erewrite (se_bind_Ok (into _)) by (unfold into; by rewrite E).
    destruct (decide (value = [])) as [->|Hne]; [by rewrite decide_True|].
    rewrite decide_False by (by intros ?%zlen_0).
    rewrite (se_bind_Ok (gets zlen) _ _ _ _ eq_refl). by rewrite decide_False by (rewrite fill_length; lia).
  - exists out. split; [done|]. split; [|done].
    erewrite (se_bind_Ok (into _)) by (unfold into; by rewrite E). by rewrite decide_True.
Qed.

(** C4. On Bun a signer object signs as the addon's class does and verifies as it does,
    except that a cookie whose value is empty is refused; so verifying what was signed
    gives back every nonempty value. *)
Theorem cookie_signer_exact (secret value signed : list Z) (ffi napi : CookieSigner) :
  createCookieSigner true secret = Ok ffi → createCookieSigner false secret = Ok napi →
  sign ffi value = sign napi value ∧
  verify ffi signed = (r ← verify napi signed; Ok (if decide (r = Some []) then None else r)) ∧
  (t ← sign ffi value; verify ffi t) = Ok (if decide (value = []) then None else Some value).
Proof.
  unfold createCookieSigner. case_decide as Hs; [done|]. intros [= <-] [= <-].
  assert (Hsign : sign (ffiCookieSigner secret) value = Ok (sign_cookie_bytes value secret)).
  { cbn. unfold signCookieInto, checked_into. pose proof (sign_needed value secret) as Hn.
    set (out := new_u8 _). assert (Hout : zlen out = zlen value + 65) by (subst out; unfold new_u8; zlia).
    erewrite (se_bind_Ok (into _)) by (unfold into; rewrite (surjective_pairing (castrum_sign_cookie_into _ _ _)); reflexivity).
    rewrite (needed_count _ _ Hn), sign_cookie_length. pose proof (zlen_nonneg value).
    rewrite decide_False by lia. rewrite (se_bind_Ok (gets zlen) _ _ _ _ eq_refl), (needed_length _ _ Hn).
    rewrite decide_False by lia. cbn. f_equal. rewrite <-(sign_cookie_length value secret).
    apply (needed_read _ _ out _ Hn eq_refl). rewrite sign_cookie_length. lia. }
  assert (Hverify : ∀ t, verify (ffiCookieSigner secret) t
    = Ok (if decide (verify_cookie_bytes t secret = Some []) then None else verify_cookie_bytes t secret)).
  { intros t. cbn. set (out := new_u8 _).
    assert (Hout : zlen out = zlen t + 1) by (subst out; unfold new_u8; zlia).
    destruct (verify_into_large t secret out ltac:(lia)) as (out' & Hl & -> & Hb).
    destruct (verify_cookie_bytes t secret) as [v|] eqn:Ev; [|by rewrite decide_False].
    pose proof (verify_prefix _ _ _ Ev).
    destruct (decide (v = [])) as [->|Hne]; [by rewrite decide_True|].
    rewrite decide_False by (by intros [= ->]). cbn. repeat f_equal.
    rewrite subarray_take by lia. by apply Hb. }
  split_and!; [exact Hsign|by rewrite Hverify|].
  rewrite Hsign, bind_ret, Hverify, verify_sign. f_equal.
  destruct (decide (value = [])) as [->|Hne]; [by rewrite decide_True|].
  by rewrite decide_False by (by intros [= ->]).
Qed.

(** C3. Into a buffer that holds the whole signed cookie, verifyCookieInto reports and
    writes exactly the nonempty values whose signature is good; but into a shorter buffer
    with room for what precedes the last dot it reports that many bytes of verified value
    for every cookie whatsoever, having checked no signature and written nothing. *)
Theorem verify_into_verdict (signed secret out : list Z) :
  (zlen signed ≤ zlen out →
     ∃ out', (verifyCookieInto signed secret out).2 = out' ∧
     (∀ n, (verifyCookieInto signed secret out).1 = Ok (Some n) ↔
           0 < n ∧ verify_cookie_bytes signed secret = Some (subarray out' 0 n) ∧ n ≤ zlen out') ∧
     ((verifyCookieInto signed secret out).1 = Ok None ↔
      verify_cookie_bytes signed secret = None ∨ verify_cookie_bytes signed secret = Some [])) ∧
  (∀ dot, rposition signed = Some dot → (0 < dot)%nat → Z.of_nat dot ≤ zlen out < zlen signed →
     verifyCookieInto signed secret out = (Ok (Some (Z.of_nat dot)), out)).
Proof.
  split.
  - intros Hout. destruct (verify_into_large signed secret out Hout) as (out' & Hl & E & Hb).
    exists out'. destruct (verify_cookie_bytes signed secret) as [v|] eqn:Ev; [|rewrite E; naive_solver].
    pose proof (verify_prefix _ _ _ Ev) as Hp. specialize (Hb v eq_refl).
    assert (Hsub : subarray out' 0 (zlen v) = v) by (by rewrite subarray_take by lia).
    destruct (decide (v = [])) as [->|Hne]; rewrite E; simpl.
    + split; [done|]. split; [|naive_solver]. intros n. split; [done|]. intros (Hn & Heq & Hle). exfalso.
      injection Heq as Heq. assert (Hz : zlen (subarray out' 0 n) = n) by (rewrite zlen_subarray; lia).
      rewrite <-Heq in Hz. rewrite zlen_nil in Hz. lia.
    + split; [done|]. split; [|split; [done|naive_solver]]. intros n. split.
      * intros [= <-]. rewrite Hsub. split_and!; [|done|lia].
        assert (zlen v ≠ 0) by (by intros ?%zlen_0). pose proof (zlen_nonneg v). lia.
      * intros (Hn & [= Heq] & Hle). do 2 f_equal. rewrite Heq, zlen_subarray; lia.
  - intros dot Hd H0 Hlen.
    assert (E : castrum_verify_cookie_into signed secret out = (Z.of_nat dot, out)).
    { unfold castrum_verify_cookie_into. rewrite decide_True by lia. rewrite Hd. cbn [default from_option id].
      by rewrite decide_True by lia. }
    unfold verifyCookieInto. erewrite (se_bind_Ok (into _)) by (unfold into; by rewrite E).
    rewrite decide_False by lia. rewrite (se_bind_Ok (gets zlen) _ _ _ _ eq_refl).
    by rewrite decide_False by lia.
Qed.

End native.

(** ** A forgery *)

Definition zero_hmac : Hmac.
Proof.
  refine {| hmac_sign _ _ := replicate 32 0 |}; intros; [done|].
  apply Forall_replicate. unfold is_byte. lia.
Defined.

Definition forged : list Z := js "admin.ffffffffffffffffffffffffffffffffffffffffffffffffffffffffffffffff".

(** The forgery is refused by the addon and by the surface on a full-size buffer. *)
Lemma forgery_refused : @verify_cookie_bytes zero_hmac forged [115] = None.
Proof. vm_compute. reflexivity. Qed.

Lemma verify_into_verdict_witness :
  @verifyCookieInto zero_hmac forged [115] (new_u8 32) = (Ok (Some 5), new_u8 32).
Proof.
  apply (proj2 (@verify_into_verdict zero_hmac forged [115] (new_u8 32)) 5%nat);
    [reflexivity|lia|split; [vm_compute; discriminate|reflexivity]].
Defined.

Lemma cookie_signer_exact_witness :
  ∃ f, @createCookieSigner zero_hmac true [115] = Ok f ∧
    (t ← sign f [97]; verify f t) = Ok (if decide ([97] = ([] : list Z)) then None else Some [97]).
Proof.
  exists (@ffiCookieSigner zero_hmac [115]). split; [reflexivity|].
  apply (@cookie_signer_exact zero_hmac [115] [97] [] (@ffiCookieSigner zero_hmac [115])
    (@addon_CookieSigner zero_hmac [115])); reflexivity.
Defined.
