(* ===== verification/Compress.v ===== *)
(** Compression and JSON patch: the streaming cores of rust/payload/compress.rs with their
    C ABI (rust/ffi/payload.rs), and native/ffi/build/compress.ts over them.  The gzip and
    brotli codecs themselves are parameters: what an encoder writes to its sink, what a
    decoder gives to its reader. *)

From stdpp Require Import base list strings.
From S2P Require Import Prelude.
From S2P Require Import Wire.
From S2P Require Import StateErr.
From S2P Require Import FfiBuffer.
From S2P Require Import FfiCodecs.

(** ** compress.rs *)

Inductive StreamError := Io | TooSmall (needed : Z) | ExceedsMax (max : Z).

(** [CountingWriter]. *)
Record CountingWriter := Counting { c_out : list Z; c_pos : Z; c_overflow : Z }.

Definition counting_write (w : CountingWriter) (buf : list Z) : CountingWriter :=
  let cap := Z.max 0 (zlen (c_out w) - c_pos w) in
  let take_ := Z.min cap (zlen buf) in
  Counting (splice (c_out w) (c_pos w) (take (Z.to_nat take_) buf)) (c_pos w + take_)
    (c_overflow w + (zlen buf - take_)).

(** [gzip_compress_into] and [brotli_compress_into]: [chunks] are the encoder's writes. *)
Definition compress_into (chunks : list (list Z)) (out : list Z) : (StreamError + Z) * list Z :=
  let w := foldl counting_write (Counting out 0 0) chunks in
  (if decide (0 < c_overflow w) then inl (TooSmall (c_pos w + c_overflow w)) else inr (c_pos w), c_out w).

(** A decoder as a reader: the pieces it has ready one after the other, and whether it
    fails behind the last.  A read takes at most one piece. *)
Record stream := Stream { pieces : list (list Z); fails : bool }.
Definition stream_ok (s : stream) : Prop := Forall (λ c, c ≠ []) (pieces s).

Definition read (s : stream) (cap : Z) : option (list Z) * stream :=
  match pieces s with
  | [] => (if fails s then None else Some [], s)
  | c :: cs =>
      if decide (zlen c ≤ cap) then (Some c, Stream cs (fails s))
      else (Some (take (Z.to_nat cap) c), Stream (drop (Z.to_nat cap) c :: cs) (fails s))
  end.

(** [while written < out.len()]. *)
Fixpoint fill_loop (fuel : nat) (s : stream) (out : list Z) (written : Z)
    : option (stream * list Z * Z) * list Z :=
  match fuel with
  | O => (None, out)
  | S fuel =>
      if decide (written < zlen out) then
        match read s (zlen out - written) with
        | (None, _) => (None, out)
        | (Some [], s) => (Some (s, out, written), out)
        | (Some bs, s) => fill_loop fuel s (splice out written bs) (written + zlen bs)
        end
      else (Some (s, out, written), out)
  end.

(** The loop behind a buffer that was filled exactly. *)
Fixpoint count_loop (fuel : nat) (s : stream) (max total : Z) : StreamError + Z :=
  match fuel with
  | O => inl Io
  | S fuel =>
      match read s 4096 with
      | (None, _) => inl Io
      | (Some [], _) => inr total
      | (Some bs, s) =>
          let total := total + zlen bs in
          if decide (max < total) then inl (ExceedsMax max) else count_loop fuel s max total
      end
  end.

Definition stream_bytes (s : stream) : list Z := concat (pieces s).
Definition stream_fuel (s : stream) : nat := S (length (stream_bytes s)).

Definition decompress_into (s : stream) (max : Z) (out : list Z) : (StreamError + Z) * list Z :=
  match fill_loop (stream_fuel s) s out 0 with
  | (None, out) => (inl Io, out)
  | (Some (rest, out, written), _) =>
      if decide (max < written) then (inl (ExceedsMax max), out)
      else if decide (written < zlen out) then (inr written, out)
      else
        match count_loop (stream_fuel rest) rest max written with
        | inl e => (inl e, out)
        | inr total => if decide (written < total) then (inl (TooSmall total), out) else (inr written, out)
        end
  end.

(** [compress_to_out!]. *)
Definition to_out (r : (StreamError + Z) * list Z) : Z * list Z :=
  (match r.1 with inr w => w | inl (TooSmall needed) => needed | inl _ => 0 end, r.2).

(** [gzip_decompress_bytes] and [brotli_decompress_bytes]: [take(max + 1)], read to the end. *)
Definition decompress_bytes (s : stream) (max : Z) : option (list Z) :=
  let out := take (Z.to_nat (max + 1)) (stream_bytes s) in
  if decide (fails s ∧ zlen (stream_bytes s) ≤ max) then None
  else if decide (max < zlen out) then None else Some out.

(** [castrum_gzip_isize]. *)
Definition castrum_gzip_isize (data : list Z) : Z :=
  if decide (zlen data < 18) then 0
  else if decide (data !! 0%nat ≠ Some 0x1f ∨ data !! 1%nat ≠ Some 0x8b) then 0
  else le_val (drop (length data - 4) data).

(** ** constants.ts *)

Definition MAX_DECOMPRESSED : Z := 64 * 1024 * 1024.
Definition MAX_JSON_PATCH_OUTPUT : Z := 128 * 1024 * 1024.
Definition COMPRESS_INITIAL_CAP : Z := 16 * 1024.
Definition COMPRESS_MAX_CAP : Z := 1024 * 1024.
Definition COMPRESS_HEADROOM : Z := 64.
Definition DECOMPRESS_GUESS_MULTIPLIER_GZIP : Z := 16.
Definition DECOMPRESS_GUESS_MULTIPLIER_BROTLI : Z := 32.
Definition DECOMPRESS_FALLBACK_CAP : Z := 4 * 1024 * 1024.
Definition DECOMPRESS_MIN_INITIAL : Z := 1024.

(** ** compress.ts *)

(** The two codecs and the JSON patch engine. *)
Class CompressCodecs := {
  gzip_chunks : list Z → Z → list (list Z);
  gzip_stream : list Z → stream;
  brotli_chunks : list Z → Z → list (list Z);
  brotli_stream : list Z → stream;
  apply_json_patch : list Z → list Z → option (list Z);
}.

Section methods.
Context `{CompressCodecs} `{Alloc} `{Codec}.
Notation ffi := (SE ffi_state).

Definition castrum_gzip_compress (data : list Z) (level : Z) : writer :=
  λ out, to_out (compress_into (gzip_chunks data level) out).
Definition castrum_gzip_decompress (data : list Z) (max : Z) : writer :=
  λ out, to_out (decompress_into (gzip_stream data) max out).
Definition castrum_brotli_compress (data : list Z) (quality : Z) : writer :=
  λ out, to_out (compress_into (brotli_chunks data quality) out).
Definition castrum_brotli_decompress (data : list Z) (max : Z) : writer :=
  λ out, to_out (decompress_into (brotli_stream data) max out).

(** [castrum_json_patch] of rust/ffi/json.rs. *)
Definition castrum_json_patch (doc patch : list Z) : writer := λ out,
  match apply_json_patch doc patch with
  | None => (0, out)
  | Some patched =>
      if decide (zlen out < zlen patched) then (zlen patched, out)
      else (zlen patched, splice out 0 patched)
  end.

Definition json_patch_error : string := "json patch: output buffer too small or patch inapplicable".

Definition jsonPatch (doc patch : list Z) : ffi (list Z) :=
  scratchFor (Z.min (Z.max (zlen doc) (zlen patch) + 16) (64 * 1024)) ;;
  w ← on_scratch (into (castrum_json_patch doc patch));
  len ← gets (λ s, zlen (encodeScratch s));
  if decide (len < w ∧ w ≤ MAX_JSON_PATCH_OUTPUT) then
    out ← lift (new_Uint8Array w);
    let '(w, out) := castrum_json_patch doc patch out in
    if decide (w = 0 ∨ zlen out < w) then throw (js_Error json_patch_error)
    else mret (decodeUtf8 (subarray out 0 w))
  else if decide (w = 0 ∨ len < w) then throw (js_Error json_patch_error)
  else bytes ← scratch_bytes w; mret (decodeUtf8 bytes).

Definition compress_initial (data : list Z) : Z := Z.min (zlen data + COMPRESS_HEADROOM) COMPRESS_INITIAL_CAP.
Definition compress_max (data : list Z) : Z := Z.max (zlen data * 2 + COMPRESS_HEADROOM) COMPRESS_MAX_CAP.

Definition gzip_decompress_error : string :=
  "gzip decompress: invalid stream or exceeded max decompressed size".
Definition brotli_decompress_error : string :=
  "brotli decompress: invalid stream or exceeded max decompressed size".

Definition gzipCompress (data : list Z) (level : option Z) : ffi (list Z) :=
  growExact (native (castrum_gzip_compress data (Z.min (default 6 level) 9)))
    (compress_initial data) (compress_max data) "gzip compress: output buffer too small".

Definition gzipCompressInto (data : list Z) (level : option Z) : SE (list Z) Z :=
  checked_into (castrum_gzip_compress data (Z.min (default 6 level) 9))
    "gzip compress: invalid input" "gzip compress: output buffer too small".

Definition gzipDecompress (data : list Z) (maxDecompressed : option Z) : ffi (list Z) :=
  let max := default MAX_DECOMPRESSED maxDecompressed in
  let isize := castrum_gzip_isize data in
  let initial :=
    if decide (isize ≠ 0) then Z.min isize max
    else Z.min (zlen data * DECOMPRESS_GUESS_MULTIPLIER_GZIP) DECOMPRESS_FALLBACK_CAP in
  growExact (native (castrum_gzip_decompress data max)) initial max gzip_decompress_error.

Definition gzipDecompressInto (data : list Z) (maxDecompressed : option Z) : SE (list Z) Z :=
  checked_into (castrum_gzip_decompress data (default MAX_DECOMPRESSED maxDecompressed))
    gzip_decompress_error "gzip decompress: output buffer too small".

Definition brotliCompress (data : list Z) (quality : option Z) : ffi (list Z) :=
  growExact (native (castrum_brotli_compress data (Z.min (default 5 quality) 11)))
    (compress_initial data) (compress_max data) "brotli compress: output buffer too small".

Definition brotliCompressInto (data : list Z) (quality : option Z) : SE (list Z) Z :=
  checked_into (castrum_brotli_compress data (Z.min (default 5 quality) 11))
    "brotli compress: invalid input" "brotli compress: output buffer too small".

Definition brotliDecompress (data : list Z) (maxDecompressed : option Z) : ffi (list Z) :=
  let max := default MAX_DECOMPRESSED maxDecompressed in
  growExact (native (castrum_brotli_decompress data max))
    (Z.min (Z.max (zlen data * DECOMPRESS_GUESS_MULTIPLIER_BROTLI) DECOMPRESS_MIN_INITIAL)
       DECOMPRESS_FALLBACK_CAP)
    max brotli_decompress_error.

Definition brotliDecompressInto (data : list Z) (maxDecompressed : option Z) : SE (list Z) Z :=
  checked_into (castrum_brotli_decompress data (default MAX_DECOMPRESSED maxDecompressed))
    brotli_decompress_error "brotli decompress: output buffer too small".

End methods.

(** ** The streaming cores keep the needed-size convention *)

(** *** Compression *)

Lemma counting_write_spec w buf : 0 ≤ c_pos w ≤ zlen (c_out w) → 0 ≤ c_overflow w →
  (0 < c_overflow w → c_pos w = zlen (c_out w)) →
  let w' := counting_write w buf in
  zlen (c_out w') = zlen (c_out w) ∧ 0 ≤ c_pos w' ≤ zlen (c_out w') ∧ 0 ≤ c_overflow w' ∧
  (0 < c_overflow w' → c_pos w' = zlen (c_out w')) ∧
  c_pos w' + c_overflow w' = c_pos w + c_overflow w + zlen buf ∧
  (c_overflow w' = 0 → take (Z.to_nat (c_pos w')) (c_out w') = take (Z.to_nat (c_pos w)) (c_out w) ++ buf).
Proof.
  destruct w as [out pos over]. cbn. intros Hpos Hover Hfull. set (n := Z.min _ _).
  assert (Hn : 0 ≤ n ≤ zlen buf ∧ n ≤ zlen out - pos) by (pose proof (zlen_nonneg buf); lia).
  assert (Hl : zlen (take (Z.to_nat n) buf) = n) by (unfold zlen in *; rewrite length_take; lia).
  rewrite zlen_splice by lia. split_and!; [done|lia..| |lia|].
  - subst n. lia.
  - intros Hz. assert (Hn' : n = zlen buf) by lia. rewrite (take_ge buf) by (unfold zlen in *; lia).
    unfold splice. rewrite app_assoc, take_app_length'; [done|].
    rewrite length_app, length_take. unfold zlen in *. lia.
Qed.

Lemma compress_needed chunks : needed (λ out, to_out (compress_into chunks out)) (Some (concat chunks)).
Proof.
  assert (Hg : ∀ cs w, 0 ≤ c_pos w ≤ zlen (c_out w) → 0 ≤ c_overflow w →
    (0 < c_overflow w → c_pos w = zlen (c_out w)) →
    let w' := foldl counting_write w cs in
    zlen (c_out w') = zlen (c_out w) ∧ 0 ≤ c_overflow w' ∧ c_pos w' ≤ zlen (c_out w') ∧
    (0 < c_overflow w' → c_pos w' = zlen (c_out w')) ∧
    c_pos w' + c_overflow w' = c_pos w + c_overflow w + zlen (concat cs) ∧
    (c_overflow w' = 0 → take (Z.to_nat (c_pos w')) (c_out w')
                         = take (Z.to_nat (c_pos w)) (c_out w) ++ concat cs)).
  { induction cs as [|c cs IH]; intros w H1 H2 H3; cbn [foldl concat].
    { split_and!; try done; [lia|by rewrite zlen_nil, Z.add_0_r|by rewrite app_nil_r]. }
    destruct (counting_write_spec w c H1 H2 H3) as (L1 & L2 & L3 & L4 & L5 & L6).
    destruct (IH (counting_write w c) L2 L3 L4) as (M1 & M2 & M3 & M4 & M5 & M6).
    split_and!; [by rewrite M1|done|done|done|rewrite M5, L5, zlen_app; lia|].
    intros Hz. rewrite (M6 Hz), L6, app_assoc; [done|].
    assert (c_overflow (counting_write w c) ≤ 0); [|lia].
    destruct (decide (0 < c_overflow (counting_write w c))) as [Hc|]; [|lia].
    specialize (L4 Hc). pose proof (zlen_nonneg (concat cs)). lia. }
  split; intros out; unfold to_out, compress_into; cbn [fst snd];
    pose proof (zlen_nonneg out); (destruct (Hg chunks (Counting out 0 0)) as (M1 & M2 & M3 & M4 & M5 & M6); [cbn; lia..|]).
  - by rewrite M1.
  - cbn [c_pos c_overflow] in *. case_decide; lia.
  - cbn [c_pos c_overflow c_out] in *. intros ? [= <-] Hfit.
    assert (Hz : c_overflow (foldl counting_write (Counting out 0 0) chunks) = 0) by lia.
    etransitivity; [|exact (M6 Hz)]. f_equal. unfold zlen in *. lia.
Qed.

(** *** Decompression *)

Lemma read_spec s cap : stream_ok s → 0 < cap →
  match read s cap with
  | (None, s') => pieces s = [] ∧ fails s = true
  | (Some bs, s') =>
      stream_bytes s = bs ++ stream_bytes s' ∧ stream_ok s' ∧ fails s' = fails s ∧ zlen bs ≤ cap ∧
      (bs = [] → pieces s = [] ∧ s' = s ∧ fails s = false)
  end.
Proof.
  destruct s as [[|c cs] f]; intros Hok Hcap; unfold read; cbn.
  - destruct f; [done|]. split_and!; try done. zlia.
  - apply Forall_cons in Hok as [Hc Hcs]. case_decide as Hle; cbn.
    + split_and!; done.
    + assert (Hlen : (0 < Z.to_nat cap < length c)%nat) by (unfold zlen in Hle; lia).
      split_and!.
      * unfold stream_bytes. cbn. by rewrite app_assoc, take_drop.
      * apply Forall_cons. split; [|done]. intros E%(f_equal length). rewrite length_drop in E. simpl in E. lia.
      * done.
      * unfold zlen. rewrite length_take. lia.
      * intros E%(f_equal length). rewrite length_take in E. simpl in E. lia.
Qed.

(** What the first loop leaves: the buffer filled with as much as there is or fits. *)
Lemma fill_loop_spec fuel : ∀ s out written,
  stream_ok s → (length (stream_bytes s) < fuel)%nat → 0 ≤ written ≤ zlen out →
  let n := Z.min (zlen out - written) (zlen (stream_bytes s)) in
  ∃ r out', fill_loop fuel s out written = (r, out') ∧ zlen out' = zlen out ∧
    ((r = None ∧ fails s = true ∧ zlen (stream_bytes s) < zlen out - written) ∨
     ∃ s', r = Some (s', out', written + n) ∧ stream_ok s' ∧ fails s' = fails s ∧
       stream_bytes s' = drop (Z.to_nat n) (stream_bytes s) ∧
       take (Z.to_nat (written + n)) out' = take (Z.to_nat written) out ++ take (Z.to_nat n) (stream_bytes s) ∧
       (zlen (stream_bytes s) < zlen out - written → fails s = false)).
Proof.
  induction fuel as [|fuel IH]; intros s out written Hok Hfuel Hw; [lia|]. cbn [fill_loop].
  set (n := Z.min _ _). pose proof (zlen_nonneg (stream_bytes s)) as Hpos. case_decide as Hroom.
  2: { exists (Some (s, out, written)), out. split_and!; [done..|]. right. exists s.
    assert (n = 0) as -> by lia. rewrite Z.add_0_r. rewrite take_0, app_nil_r. split_and!; try done. lia. }
  pose proof (read_spec s (zlen out - written) Hok ltac:(lia)) as Hread.
  destruct (read s (zlen out - written)) as [[bs|] s'].
  2: { destruct Hread as [Hp Hf]. exists None, out. split_and!; [done..|]. left. split_and!; [done..|].
    unfold stream_bytes. rewrite Hp. cbn. rewrite zlen_nil. lia. }
  destruct Hread as (Hb & Hok' & Hf' & Hle & Hnil). destruct bs as [|b bs].
  { destruct (Hnil eq_refl) as (Hp & -> & Hf). exists (Some (s, out, written)), out.
    split_and!; [done..|]. right. exists s. assert (Hz : zlen (stream_bytes s) = 0)
      by (unfold stream_bytes; by rewrite Hp). assert (n = 0) as -> by lia.
    rewrite Z.add_0_r. rewrite take_0, app_nil_r. split_and!; done. }
  clear Hnil. set (k := b :: bs) in *.
  assert (Hk : 0 < zlen k) by (subst k; zlia).
  assert (Hs : zlen (stream_bytes s) = zlen k + zlen (stream_bytes s')) by (rewrite Hb; zlia).
  destruct (IH s' (splice out written k) (written + zlen k) Hok') as (r & out' & E & Hl & Hr).
  { unfold zlen in *. lia. }
  { rewrite zlen_splice by lia. lia. }
  rewrite (zlen_splice out k written) in * by lia.
  exists r, out'. split_and!; [exact E|done|]. destruct Hr as [(-> & Hf & Hlt)|(s'' & -> & Hok'' & Hf'' & Hb'' & Ht & Hlt)].
  { left. split_and!; [done|congruence|lia]. }
  right. exists s''. set (n' := Z.min _ _) in Ht, Hb''.
  assert (Hn : n = zlen k + n') by lia. split_and!.
  - do 2 f_equal. lia.
  - done.
  - congruence.
  - rewrite Hb'', Hb, Hn. rewrite drop_app_ge by (unfold zlen in *; lia). f_equal. unfold zlen in *. lia.
  - rewrite Hn, Z.add_assoc, Ht, Hb. rewrite take_app_ge by (unfold zlen in *; lia).
    rewrite app_assoc. f_equal; [|f_equal; unfold zlen in *; lia].
    unfold splice. rewrite app_assoc, take_app_length'; [done|].
    rewrite length_app, length_take. unfold zlen in *. lia.
  - intros Hx. rewrite <-Hf'. apply Hlt. lia.
Qed.

Lemma count_loop_spec fuel max : ∀ s total,
  stream_ok s → (length (stream_bytes s) < fuel)%nat → total ≤ max →
  count_loop fuel s max total =
    if decide (max < total + zlen (stream_bytes s)) then inl (ExceedsMax max)
    else if fails s then inl Io else inr (total + zlen (stream_bytes s)).
Proof.
  induction fuel as [|fuel IH]; intros s total Hok Hfuel Hmax; [lia|]. cbn [count_loop].
  pose proof (read_spec s 4096 Hok ltac:(lia)) as Hread.
  destruct (read s 4096) as [[bs|] s'].
  2: { destruct Hread as [Hp ->]. unfold stream_bytes. rewrite Hp. cbn. rewrite zlen_nil.
    by rewrite decide_False by lia. }
  destruct Hread as (Hb & Hok' & Hf' & Hle & Hnil). destruct bs as [|b bs].
  { destruct (Hnil eq_refl) as (Hp & -> & ->). unfold stream_bytes. rewrite Hp. cbn. rewrite zlen_nil.
    rewrite decide_False by lia. f_equal. lia. }
  set (k := b :: bs) in *. assert (Hk : 0 < zlen k) by (subst k; zlia).
  assert (Hs : zlen (stream_bytes s) = zlen k + zlen (stream_bytes s')) by (rewrite Hb; zlia).
  pose proof (zlen_nonneg (stream_bytes s')). case_decide as Hbig.
  { by rewrite decide_True by lia. }
  rewrite IH; [|done|unfold zlen in *; lia|lia]. rewrite Hf', Hs, Z.add_assoc. done.
Qed.

(** The whole content, when the stream is sound and the content within the cap. *)
Definition content (s : stream) (max : Z) : option (list Z) :=
  if decide (fails s = false ∧ zlen (stream_bytes s) ≤ max) then Some (stream_bytes s) else None.

Lemma decompress_needed s max : stream_ok s →
  needed (λ out, to_out (decompress_into s max out)) (content s max).
Proof.
  intros Hok.
  assert (Hmain : ∀ out, ∃ out', zlen out' = zlen out ∧
    to_out (decompress_into s max out)
    = (match content s max with Some b => zlen b | None => 0 end, out') ∧
    (fails s = false → zlen (stream_bytes s) ≤ zlen out →
     take (length (stream_bytes s)) out' = stream_bytes s)).
  { intros out. pose proof (zlen_nonneg out). pose proof (zlen_nonneg (stream_bytes s)).
    destruct (fill_loop_spec (stream_fuel s) s out 0 Hok) as (r & out' & E & Hl & Hr);
      [unfold stream_fuel; lia|lia|]. rewrite Z.sub_0_r, Z.add_0_l in Hr.
    exists out'. split; [done|]. unfold decompress_into, to_out, content. rewrite E.
    destruct Hr as [(-> & Hf & _)|(s' & -> & Hok' & Hf' & Hb' & Ht & Hfin)].
    { cbn. rewrite Hf. rewrite decide_False by (by intros [? _]). done. }
    set (n := Z.min _ _) in *. assert (Hn : 0 ≤ n ≤ zlen out) by lia.
    assert (Hrest : zlen (stream_bytes s') = zlen (stream_bytes s) - n)
      by (rewrite Hb'; unfold zlen in *; rewrite length_drop; lia).
    split.
    2: { intros _ Hfit. replace (length (stream_bytes s)) with (Z.to_nat n) by (unfold zlen in *; lia).
      rewrite Ht. cbn [Z.to_nat]. rewrite take_0. apply take_ge. unfold zlen in *. lia. }
    case_decide as H1; [cbn; rewrite decide_False; [done|intros [_ ?]; lia]|].
    case_decide as H2.
    { cbn. rewrite (Hfin ltac:(lia)), decide_True by (split; [done|lia]). f_equal. lia. }
    rewrite count_loop_spec; [|done|unfold stream_fuel; lia|lia]. rewrite Hrest, Hf'.
    case_decide as H3; [cbn; rewrite decide_False; [done|intros [_ ?]; lia]|].
    destruct (fails s); [cbn; rewrite decide_False; [done|by intros [? _]]|].
    rewrite (decide_True (P := false = false ∧ _)) by (split; [done|lia]).
    case_decide; cbn; f_equal; lia. }
  split; intros out; destruct (Hmain out) as (out' & Hl & E & Hb); rewrite E; [done..|].
  intros b. unfold content. case_decide as Hc; [|done]. intros [= <-] Hfit. apply Hb; [apply Hc|done].
Qed.

(** The reading and the allocating decoder agree. *)
Lemma decompress_bytes_content s max : decompress_bytes s max = content s max.
Proof.
  unfold decompress_bytes, content. pose proof (zlen_nonneg (stream_bytes s)).
  destruct (decide (zlen (stream_bytes s) ≤ max)) as [Hle|Hgt].
  - rewrite take_ge by (unfold zlen in *; lia). destruct (fails s).
    + rewrite decide_True by done. by rewrite decide_False by (by intros [? _]).
    + rewrite decide_False by (by intros [? _]). rewrite decide_False by lia. by rewrite decide_True.
  - rewrite decide_False by (by intros [_ ?]). rewrite (decide_False (P := fails s = false ∧ _)) by (by intros [_ ?]).
    case_decide as Hm; [done|]. exfalso. apply Hm. unfold zlen in *. rewrite length_take. lia.
Qed.

(** ** compress.ts over the cores *)

Section surface.
Context `{CompressCodecs} `{Alloc} `{Codec}.

Hypothesis streams_ok : ∀ data, stream_ok (gzip_stream data) ∧ stream_ok (brotli_stream data).

Lemma growExact_compress chunks initial max error (s : ffi_state) : 0 ≤ max →
  growExact (native (λ out, to_out (compress_into chunks out))) initial max error s
  = (grow_result (Some (concat chunks)) max error, s).
Proof. apply growExact_native, compress_needed. Qed.

Lemma growExact_decompress st initial max error (s : ffi_state) : stream_ok st → 0 ≤ max →
  growExact (native (λ out, to_out (decompress_into st max out))) initial max error s
  = (grow_result (decompress_bytes st max) max error, s).
Proof.
  intros Hs Hm. rewrite decompress_bytes_content. by apply growExact_native; [apply decompress_needed|].
Qed.

Lemma compress_max_pos data : 0 ≤ compress_max data.
Proof. unfold compress_max, COMPRESS_MAX_CAP. lia. Qed.

Lemma grow_result_content st max error :
  grow_result (decompress_bytes st max) max error =
  match decompress_bytes st max with
  | Some (b :: bs) => Ok (b :: bs)
  | _ => Throw (js_Error error)
  end.
Proof.
  rewrite decompress_bytes_content. unfold content. case_decide as Hc; [|done]. simpl.
  destruct (stream_bytes st) as [|b bs]; [by rewrite decide_True by (by left)|].
  rewrite decide_False; [done|]. intros [?|?]; [done|]. lia.
Qed.

(** Writing into a caller's buffer. *)
Lemma checked_into_needed f r bad small out : needed f r →
  ∃ out', zlen out' = zlen out ∧ checked_into f bad small out =
    match r with
    | Some (b :: bs) =>
        (if decide (zlen out < zlen (b :: bs)) then Throw (js_Error small) else Ok (zlen (b :: bs)), out')
    | _ => (Throw (js_Error bad), out')
    end ∧ ∀ b, r = Some b → zlen b ≤ zlen out → take (length b) out' = b.
Proof.
  intros [Hl Hc Hb]. exists (f out).2. split; [apply Hl|]. split; [|by apply Hb].
  unfold checked_into.
  erewrite (se_bind_Ok (into f)) by (unfold into; rewrite (surjective_pairing (f out)); reflexivity).
  rewrite Hc. destruct r as [[|b bs]|]; [done| |done].
  rewrite decide_False by (rewrite zlen_cons; pose proof (zlen_nonneg bs); lia).
  rewrite (se_bind_Ok (gets zlen) _ _ _ _ eq_refl), Hl. by case_decide.
Qed.

(** C23. Over the C ABI, decompression is the addon's: for every input, every cap and every
    way the decoder cuts its output into pieces, the allocating methods return what the
    addon's read-to-end returns and the writing ones put the same bytes into a buffer that
    holds them; the exception is an empty content, which the Bun surface reports as an
    invalid stream. *)
Theorem decompress_is_napi (data out : list Z) (max : Z) (s : ffi_state) :
  0 ≤ max →
  gzipDecompress data (Some max) s =
    (match decompress_bytes (gzip_stream data) max with
     | Some (b :: bs) => Ok (b :: bs) | _ => Throw (js_Error gzip_decompress_error) end, s) ∧
  brotliDecompress data (Some max) s =
    (match decompress_bytes (brotli_stream data) max with
     | Some (b :: bs) => Ok (b :: bs) | _ => Throw (js_Error brotli_decompress_error) end, s) ∧
  ∃ out', (gzipDecompressInto data (Some max) out).2 = out' ∧
    match decompress_bytes (gzip_stream data) max with
    | Some (b :: bs) =>
        (gzipDecompressInto data (Some max) out).1 =
          (if decide (zlen out < zlen (b :: bs)) then Throw (js_Error "gzip decompress: output buffer too small")
           else Ok (zlen (b :: bs))) ∧
        (zlen (b :: bs) ≤ zlen out → take (length (b :: bs)) out' = b :: bs)
    | _ => (gzipDecompressInto data (Some max) out).1 = Throw (js_Error gzip_decompress_error)
    end.
Proof.
  intros Hm. destruct (streams_ok data) as [Hg Hb]. split_and!.
  - unfold gzipDecompress. rewrite <-grow_result_content. by apply growExact_decompress.
  - unfold brotliDecompress. rewrite <-grow_result_content. by apply growExact_decompress.
  - unfold gzipDecompressInto. cbn [default from_option id].
    destruct (checked_into_needed (castrum_gzip_decompress data max) _ gzip_decompress_error
      "gzip decompress: output buffer too small" out (decompress_needed _ max Hg)) as (out' & Hl & E & Ht).
    exists out'. rewrite E. rewrite decompress_bytes_content. destruct (content _ _) as [[|b bs]|]; [done| |done].
    split; [done|]. split; [done|]. intros Hfit. by apply Ht.
Qed.

(** Decompressing what was compressed gives the data back, at every level, as long as
    the data is within the cap and the compressed form within the compressor's own bound;
    empty data does not survive the trip. *)
Theorem compression_roundtrip (data : list Z) (level : option Z) (s : ffi_state) :
  (∀ x l, let st := gzip_stream (concat (gzip_chunks x l)) in fails st = false ∧ stream_bytes st = x) →
  concat (gzip_chunks data (Z.min (default 6 level) 9)) ≠ [] →
  zlen (concat (gzip_chunks data (Z.min (default 6 level) 9))) ≤ compress_max data →
  zlen data ≤ MAX_DECOMPRESSED →
  ∃ z, gzipCompress data level s = (Ok z, s) ∧
    gzipDecompress z None s =
      (if decide (data = []) then Throw (js_Error gzip_decompress_error) else Ok data, s).
Proof.
  intros Hcodec Hne Hsize Hcap. set (l := Z.min _ _) in *.
  exists (concat (gzip_chunks data l)). split.
  - unfold gzipCompress. fold l. etransitivity; [apply growExact_compress, compress_max_pos|].
    unfold grow_result. rewrite decide_False; [done|]. intros [?|?]; [done|lia].
  - destruct (Hcodec data l) as [Hf Hb]. unfold gzipDecompress. cbn [default from_option].
    etransitivity; [apply growExact_decompress; [apply streams_ok|done]|].
    rewrite grow_result_content, decompress_bytes_content. unfold content.
    rewrite Hf, Hb, decide_True by done. by destruct data.
Qed.

(** jsonPatch, with the scratch or with a buffer of its own. *)
Lemma json_patch_needed doc patch : needed (castrum_json_patch doc patch) (apply_json_patch doc patch).
Proof.
  unfold castrum_json_patch. destruct (apply_json_patch doc patch) as [b|]; split; intros out; try done.
  - case_decide; [done|]. cbn. change (splice out 0 b) with (fill b out). apply fill_length. lia.
  - by case_decide.
  - intros ? [= <-] Hb. rewrite decide_False by lia. cbn. change (splice out 0 b) with (fill b out). apply take_fill.
Qed.

(** The engine bounds its output (rust/json/json_patch_ops.rs). *)
Hypothesis patch_bounded : ∀ doc patch b,
  apply_json_patch doc patch = Some b → zlen b ≤ MAX_JSON_PATCH_OUTPUT.

Lemma jsonPatch_answers doc patch :
  answers (jsonPatch doc patch)
    (match apply_json_patch doc patch with
     | Some (b :: bs) => Ok (decodeUtf8 (b :: bs))
     | _ => Throw (js_Error json_patch_error)
     end).
Proof.
  intros s Hs. unfold jsonPatch. pose proof (json_patch_needed doc patch) as Hn.
  set (f := castrum_json_patch doc patch) in *. set (size := Z.min _ _).
  rewrite (se_bind_Ok (scratchFor size) _ s tt _ eq_refl). simpl. set (s1 := if decide _ then _ else _).
  assert (Hs1 : state_ok s1) by (subst s1; case_decide; exact Hs).
  set (s2 := set_encodeScratch (f (encodeScratch s1)).2 s1).
  assert (Hs2 : state_ok s2) by exact Hs1.
  exists s2. split; [|done].
  rewrite (se_bind_Ok _ _ _ (f (encodeScratch s1)).1 s2)
    by (unfold on_scratch, into; by rewrite (surjective_pairing (f (encodeScratch s1)))).
  rewrite (se_bind_Ok (gets _) _ s2 _ s2 eq_refl). cbn [encodeScratch s2 set_encodeScratch].
  rewrite (needed_length _ _ Hn), (needed_count _ _ Hn). set (len := zlen (encodeScratch s1)).
  assert (Hlen : 0 ≤ len) by apply zlen_nonneg.
  destruct (apply_json_patch doc patch) as [b|] eqn:Eb.
  2: { rewrite decide_False, decide_True by lia. done. }
  specialize (patch_bounded doc patch b Eb). destruct (decide (len < zlen b)) as [Hbig|Hfit].
  - rewrite decide_True by lia. unfold new_Uint8Array. rewrite decide_False by lia.
    rewrite (se_bind_Ok (lift _) _ s2 (new_u8 (zlen b)) s2 eq_refl).
    assert (Hz : zlen (new_u8 (zlen b)) = zlen b) by (unfold new_u8; zlia).
    rewrite (surjective_pairing (f _)), (needed_count _ _ Hn), (needed_length _ _ Hn), Hz.
    destruct b as [|b bs]; [by rewrite decide_True by (by left)|].
    rewrite decide_False by (rewrite zlen_cons; pose proof (zlen_nonneg bs); lia).
    rewrite (needed_read _ _ _ _ Hn eq_refl) by lia. done.
  - rewrite decide_False by lia. destruct b as [|b bs]; [by rewrite decide_True by (by left)|].
    rewrite decide_False by (rewrite zlen_cons in *; pose proof (zlen_nonneg bs); lia).
    unfold scratch_bytes, gets, mbind, SE_bind. cbn [encodeScratch s2 set_encodeScratch].
    rewrite (needed_read _ _ _ _ Hn eq_refl) by lia. done.
Qed.

End surface.

(** ** A host: one byte of header, then the data one byte a piece *)

Definition toy_decode (data : list Z) : stream :=
  match data with
  | 31 :: data => Stream ((λ b, [b]) <$> data) false
  | _ => Stream [] true
  end.

Definition toy_codecs : CompressCodecs := {|
  gzip_chunks x _ := [[31]; x]; gzip_stream := toy_decode;
  brotli_chunks x _ := [[31]; x]; brotli_stream := toy_decode;
  apply_json_patch doc _ := if decide (zlen doc ≤ MAX_JSON_PATCH_OUTPUT) then Some doc else None;
|}.

Lemma singles (l : list Z) : concat ((λ b, [b]) <$> l) = l.
Proof. induction l as [|b l IH]; [done|]. cbn. by f_equal. Qed.

Lemma toy_streams data : @stream_ok (@gzip_stream toy_codecs data) ∧ stream_ok (@brotli_stream toy_codecs data).
Proof.
  assert (Hs : stream_ok (toy_decode data)); [|done]. unfold toy_decode, stream_ok.
  repeat case_match; try constructor. cbn. apply Forall_fmap, Forall_true. done.
Qed.

Lemma decompress_is_napi_witness :
  @gzipDecompress toy_codecs sevens [31; 7; 8] (Some 100) new_ffi_state = (Ok [7; 8], new_ffi_state).
Proof. exact (proj1 (@decompress_is_napi toy_codecs sevens toy_streams [31; 7; 8] [] 100 new_ffi_state ltac:(lia))). Defined.

Lemma compression_roundtrip_witness :
  ∃ z, @gzipCompress toy_codecs sevens [] None new_ffi_state = (Ok z, new_ffi_state) ∧
    @gzipDecompress toy_codecs sevens z None new_ffi_state
    = (Throw (js_Error gzip_decompress_error), new_ffi_state).
Proof.
  apply (@compression_roundtrip toy_codecs sevens toy_streams [] None new_ffi_state).
  - intros x l. split; [done|]. cbn. rewrite app_nil_r. apply singles.
  - done.
  - unfold compress_max, COMPRESS_MAX_CAP. vm_compute. discriminate.
  - vm_compute. discriminate.
Defined.
