(* ===== verification/PackedVerdicts.v ===== *)
(** Packed verdicts of the native parsers and their readers: media types and accept-encoding
    lists (native/ffi/build/parse.ts, rust-ffi/scalar/http.ts, rust/ffi/http.rs), multipart
    bodies (rust-ffi/scalar/payload.ts, rust/http/multipart.rs).  The parsers themselves are
    parameters; their writers, the buffers in between and the readers are modelled. *)

From stdpp Require Import base list strings.
From S2P Require Import Prelude.
From S2P Require Import JsMap.
From S2P Require Import Utf8.
From S2P Require Import JsObject.
From S2P Require Import JsString.
From S2P Require Import Wire.
From S2P Require Import StateErr.
From S2P Require Import FfiBuffer.
From S2P Require Import FfiCodecs.

(** ** Reading *)

(** [u32LE(b, off)]: bytes past the end read as 0. *)
Definition u32LE (b : list Z) (off : Z) : Z :=
  to_u32 (Z.lor (Z.lor (Z.lor (byte_or_0 b off) (Z.shiftl (byte_or_0 b (off + 1)) 8))
                   (Z.shiftl (byte_or_0 b (off + 2)) 16))
            (Z.shiftl (byte_or_0 b (off + 3)) 24)).

Definition NONE : Z := 0xffffffff.

(** ** Media types *)

Record MediaTypeResult := {
  mediaType : list Z; charset : option (list Z); boundary : option (list Z); params : jsobj }.

Definition CHARSET : list Z := js "charset".
Definition BOUNDARY : list Z := js "boundary".

(** [keyBytesEqual]. *)
Definition keyBytesEqual (b : list Z) (off : Z) (lit : list Z) : bool :=
  forallb (λ i, bool_decide (byte_or_0 b (off + i) = byte_or_0 lit i)) (seqZ 0 (zlen lit)).

(** A summary slot: the text and the offset behind it. *)
Definition read_slot (packed : list Z) (off : Z) : option (list Z) * Z :=
  let len := u32LE packed off in
  let off := off + 4 in
  if decide (len ≠ NONE) then (Some (decodeUtf8Range packed off (off + len)), off + len) else (None, off).

(** The loop over the parameters; [cs] and [bd] are the summaries that no parameter has
    taken yet. *)
Fixpoint read_params (n : nat) (packed : list Z) (off : Z) (cs bd : option (list Z)) (params : jsobj) : jsobj :=
  match n with
  | O => params
  | S n =>
      let kLen := u32LE packed off in
      let off := off + 4 in
      let key :=
        if bool_decide (kLen = 7) && keyBytesEqual packed off CHARSET then CHARSET
        else if bool_decide (kLen = 8) && keyBytesEqual packed off BOUNDARY then BOUNDARY
        else decodeUtf8Range packed off (off + kLen) in
      let off := off + kLen in
      let vLen := u32LE packed off in
      let off := off + 4 in
      let '(val, cs, bd) :=
        match cs, bd with
        | Some c, _ =>
            if decide (key = CHARSET) then (c, None, bd)
            else match bd with
                 | Some b => if decide (key = BOUNDARY) then (b, cs, None)
                             else (decodeUtf8Range packed off (off + vLen), cs, bd)
                 | None => (decodeUtf8Range packed off (off + vLen), cs, bd)
                 end
        | None, Some b =>
            if decide (key = BOUNDARY) then (b, cs, None)
            else (decodeUtf8Range packed off (off + vLen), cs, bd)
        | None, None => (decodeUtf8Range packed off (off + vLen), cs, bd)
        end in
      read_params n packed (off + vLen) cs bd (obj_set params key (JStr val))
  end.

Definition unpackMediaType (packed : list Z) : MediaTypeResult :=
  let mtLen := u32LE packed 0 in
  let mt := decodeUtf8Range packed 4 (4 + mtLen) in
  let '(cs, off) := read_slot packed (4 + mtLen) in
  let '(bd, off) := read_slot packed off in
  let count := u32LE packed off in
  {| mediaType := mt; charset := cs; boundary := bd;
     params := read_params (Z.to_nat count) packed (off + 4) cs bd empty_obj |}.

(** ** Accept-Encoding *)

Record EncodingPref := { encoding : list Z; q_bits : Z; order : Z }.

Fixpoint read_prefs (n : nat) (packed : list Z) (off : Z) : list EncodingPref :=
  match n with
  | O => []
  | S n =>
      let encLen := u32LE packed off in
      let off := off + 4 in
      {| encoding := decodeUtf8Range packed off (off + encLen);
         q_bits := u32LE packed (off + encLen);
         order := u32LE packed (off + encLen + 4) |} :: read_prefs n packed (off + encLen + 8)
  end.

Definition unpackAcceptEncoding (packed : list Z) : list EncodingPref :=
  read_prefs (Z.to_nat (u32LE packed 0)) packed 4.

(** ** Multipart *)

Fixpoint read_multipart `{Codec} (n : nat) (packed : list Z) (off : Z) : list MultipartPart :=
  match n with
  | O => []
  | S n =>
      let nameLen := u32LE packed off in
      let off := off + 4 in
      let nm := decodeUtf8 (subarray packed off (off + nameLen)) in
      let off := off + nameLen in
      let hasFilename := byte_or_0 packed off in
      let off := off + 1 in
      let filenameLen := u32LE packed off in
      let off := off + 4 in
      let fn := if decide (hasFilename = 1) then Some (decodeUtf8 (subarray packed off (off + filenameLen))) else None in
      let off := off + filenameLen in
      let hasCt := byte_or_0 packed off in
      let off := off + 1 in
      let ctLen := u32LE packed off in
      let off := off + 4 in
      let ct := if decide (hasCt = 1) then Some (decodeUtf8 (subarray packed off (off + ctLen))) else None in
      let off := off + ctLen in
      let dataLen := u32LE packed off in
      let off := off + 4 in
      {| name := nm; filename := fn; contentType := ct; data := subarray packed off (off + dataLen) |}
      :: read_multipart n packed (off + dataLen)
  end.

Definition unpackMultipart `{Codec} (packed : list Z) : list MultipartPart :=
  read_multipart (Z.to_nat (u32LE packed 0)) packed 4.

(** ** The native writers *)

(** A [String] is the text it denotes and [as_bytes] its UTF-8 encoding; [&[u8]] is bytes. *)
Record ParsedMediaType := { ty : list Z; subtype : list Z; mt_params : list (list Z * list Z) }.

Definition find_param (key : list Z) (ps : list (list Z * list Z)) : option (list Z) :=
  snd <$> (list_find (λ p, p.1 = key) ps ≫= λ r, Some r.2).

(** A length and the bytes. *)
Definition put_bytes (v : list Z) : list Z := le_bytes 4 (zlen v) ++ v.
Definition put_str (s : list Z) : list Z := put_bytes (encodeUtf8 s).
Definition put_slot (v : option (list Z)) : list Z :=
  match v with Some v => put_str v | None => le_bytes 4 NONE end.

Definition media_type_text (p : ParsedMediaType) : list Z := ty p ++ [47] ++ subtype p.

Definition media_verdict (p : ParsedMediaType) : list Z :=
  put_str (media_type_text p) ++ put_slot (find_param CHARSET (mt_params p)) ++
  put_slot (find_param BOUNDARY (mt_params p)) ++ le_bytes 4 (zlen (mt_params p)) ++
  (mt_params p ≫= λ kv, put_str kv.1 ++ put_str kv.2).

Definition accept_verdict (prefs : list EncodingPref) : list Z :=
  le_bytes 4 (zlen prefs) ++
  (prefs ≫= λ p, put_str (encoding p) ++ le_bytes 4 (q_bits p) ++ le_bytes 4 (order p)).

(** [parts_to_packed]. *)
Definition put_optional (v : option (list Z)) : list Z :=
  match v with Some v => 1 :: put_bytes v | None => 0 :: le_bytes 4 0 end.
Definition parts_to_packed (parts : list MultipartPart) : list Z :=
  le_bytes 4 (zlen parts) ++
  (parts ≫= λ p, put_bytes (name p) ++ put_optional (filename p) ++ put_optional (contentType p) ++
                 put_bytes (data p)).

(** The parsers of the native side. *)
Class Parsers := {
  parse_media_type : list Z → option ParsedMediaType;
  parse_accept_encoding : list Z → list EncodingPref;
  parse_multipart : list Z → list Z → list MultipartPart;
}.

Section surface.
Context `{Parsers} `{Alloc} `{Codec}.

Definition castrum_parse_media_type (input : list Z) : writer :=
  needed_writer (media_verdict <$> parse_media_type input).
Definition castrum_parse_accept_encoding (input : list Z) : writer :=
  needed_writer (Some (accept_verdict (parse_accept_encoding input))).
Definition castrum_multipart_parse_packed (body boundary : list Z) : writer :=
  needed_writer (Some (parts_to_packed (parse_multipart body boundary))).

(** ** parse.ts *)

(** What the methods return: a view of the shared scratch or a buffer of its own. *)
Inductive out_view := InScratch (w : Z) | Own (bytes : list Z).

Definition view_bytes (s : ffi_state) (v : out_view) : list Z :=
  match v with InScratch w => subarray (encodeScratch s) 0 w | Own bytes => bytes end.

Definition scratch_or_own (size : Z) (f : writer) (error : string) : SE ffi_state out_view :=
  scratchFor size ;;
  w ← on_scratch (into f);
  len ← gets (λ s, zlen (encodeScratch s));
  if decide (len < w) then
    out ← lift (new_Uint8Array w);
    let '(w, out) := f out in
    if decide (w = 0 ∨ zlen out < w) then throw (js_Error error) else mret (Own (subarray out 0 w))
  else if decide (w = 0 ∨ len < w) then throw (js_Error error)
  else mret (InScratch w).

Definition media_error : string := "media type parse: invalid media type or output buffer too small".
Definition accept_error : string := "accept encoding parse: output buffer too small".

Definition ffi_parseMediaType (input : list Z) : SE ffi_state out_view :=
  scratch_or_own (zlen input * 2 + 128) (castrum_parse_media_type input) media_error.
Definition ffi_parseAcceptEncoding (input : list Z) : SE ffi_state out_view :=
  scratch_or_own (zlen input * 2 + 128) (castrum_parse_accept_encoding input) accept_error.

Definition multipart_error : string := "multipart parse: output buffer too small".
Definition multipart_into_error : string := "multipart parse: output buffer too small or malformed body".

Definition multipartParsePacked {St} (body boundary : list Z) : SE St (list Z) :=
  growExact (native (castrum_multipart_parse_packed body boundary))
    (Z.min (zlen body + zlen boundary + 64) (64 * 1024)) (128 * 1024 * 1024) multipart_error.

Definition multipartParsePackedInto (body boundary : list Z) : SE (list Z) Z :=
  w ← into (castrum_multipart_parse_packed body boundary);
  len ← gets zlen;
  if decide (w = 0 ∨ len < w) then throw (js_Error multipart_into_error) else mret w.

(** ** http.ts, payload.ts: the client's methods over the surface *)

Definition rust_parseMediaType (input : list Z) : SE ffi_state MediaTypeResult :=
  v ← ffi_parseMediaType input;
  packed ← gets (λ s, view_bytes s v);
  mret (unpackMediaType packed).

Definition rust_parseAcceptEncoding (input : list Z) : SE ffi_state (list EncodingPref) :=
  v ← ffi_parseAcceptEncoding input;
  packed ← gets (λ s, view_bytes s v);
  mret (unpackAcceptEncoding packed).

(** [multipartParse]; the state is [SCRATCH] of the client. *)
Definition multipartParse (body boundary : list Z) : SE (option (list Z)) (list MultipartPart) :=
  let need := zlen body + zlen boundary + 64 in
  let allocating := packed ← multipartParsePacked body boundary; mret (unpackMultipart packed) in
  if decide (64 * 1024 < need) then allocating
  else
    modify (λ s, match s with
                 | Some b => if decide (zlen b < need) then Some (new_u8 need) else s
                 | None => Some (new_u8 need) end) ;;
    w ← try_catch
      (w ← (λ s, let '(r, b) := multipartParsePackedInto body boundary (default [] s) in (r, Some b));
       mret (Some w))
      (λ _, mret None);
    match w with
    | None => allocating
    | Some w => packed ← gets (λ s, subarray (default [] s) 0 w); mret (unpackMultipart packed)
    end.

End surface.

(** ** Reading back what was written *)

Lemma byte_or_0_app pre (l post : list Z) i :
  0 ≤ i < zlen l → byte_or_0 (pre ++ l ++ post) (zlen pre + i) = default 0 (l !! Z.to_nat i).
Proof.
  intros Hi. unfold byte_or_0. unfold zlen in *. rewrite lookup_app_r by lia.
  replace (Z.to_nat (Z.of_nat (length pre) + i) - length pre)%nat with (Z.to_nat i) by lia.
  by rewrite lookup_app_l by lia.
Qed.

Lemma u32LE_app pre v post off : off = zlen pre → 0 ≤ v < U32 →
  u32LE (pre ++ le_bytes 4 v ++ post) off = v.
Proof.
  intros -> Hv. unfold u32LE. rewrite <-(Z.add_0_r (zlen pre)) at 1.
  rewrite !byte_or_0_app by (rewrite zlen_le_bytes; lia). cbn [le_bytes].
  change (Z.to_nat 0) with 0%nat. change (Z.to_nat 1) with 1%nat. change (Z.to_nat 2) with 2%nat.
  change (Z.to_nat 3) with 3%nat. cbn [lookup list_lookup default from_option id].
  set (a := v mod 256). set (b := v / 256 mod 256). set (c := v / 256 / 256 mod 256).
  set (d := v / 256 / 256 / 256 mod 256).
  assert (Ha : 0 ≤ a < 256) by (apply Z.mod_pos_bound; lia).
  assert (Hb : 0 ≤ b < 256) by (apply Z.mod_pos_bound; lia).
  assert (Hc : 0 ≤ c < 256) by (apply Z.mod_pos_bound; lia).
  rewrite (lor_shift a b 8), (lor_shift _ c 16), (lor_shift _ d 24) by lia.
  unfold to_u32. replace (a + b * 2 ^ 8 + c * 2 ^ 16 + d * 2 ^ 24) with v; [by apply Z.mod_small|].
  unfold U32 in Hv. subst a b c d. Z.to_euclidean_division_equations. lia.
Qed.

(** Text: what a Rust [String] denotes. *)
Definition text (s : list Z) : Prop := Forall is_unit s ∧ toWellFormed s = s.

Lemma text_back s : text s → utf8_toString (encodeUtf8 s) = s.
Proof. intros [Hu Hw]. by rewrite utf8_toString_encode. Qed.

Lemma decode_range pre s post a e : text s → a = zlen pre → e = a + zlen (encodeUtf8 s) →
  decodeUtf8Range (pre ++ encodeUtf8 s ++ post) a e = s.
Proof.
  intros Hs -> ->. rewrite <-(text_back s Hs) at 3. unfold decodeUtf8Range.
  rewrite (subarray_app pre (encodeUtf8 s) post) by done.
  destruct (existsb _ _) eqn:Eh; [done|]. symmetry. apply dec_run_ascii.
  pose proof (encodeUtf8_ok s (proj1 Hs)) as Hb. apply Forall_forall. intros b Hin.
  pose proof (proj1 (Forall_forall _ _) Hb b Hin) as Hb'. unfold is_byte in Hb'.
  assert (bool_decide (0x80 ≤ b) = false) as Hlt%bool_decide_eq_false; [|lia].
  apply not_true_is_false. intros Ht. apply not_true_iff_false in Eh. apply Eh.
  apply existsb_exists. exists b. split; [by apply list_elem_of_In|done].
Qed.

Lemma keyBytesEqual_app pre k post off lit : off = zlen pre → zlen k = zlen lit →
  keyBytesEqual (pre ++ k ++ post) off lit = bool_decide (k = lit).
Proof.
  intros -> Hl. unfold keyBytesEqual. apply eq_bool_prop_intro.
  rewrite forallb_True, bool_decide_spec, Forall_forall. split.
  - intros Hall. apply list_eq. intros i. destruct (decide (i < length k)%nat) as [Hi|Hi].
    + specialize (Hall (Z.of_nat i)). rewrite elem_of_seqZ in Hall. unfold zlen in *.
      specialize (Hall ltac:(lia)). apply bool_decide_unpack in Hall.
      rewrite byte_or_0_app in Hall by (unfold zlen; lia). rewrite Nat2Z.id in Hall.
      unfold byte_or_0 in Hall. rewrite Nat2Z.id in Hall.
      destruct (lookup_lt_is_Some_2 k i Hi) as [x Hx].
      destruct (lookup_lt_is_Some_2 lit i ltac:(lia)) as [y Hy]. rewrite Hx, Hy in *. by f_equal.
    + unfold zlen in *. rewrite !lookup_ge_None_2 by lia. done.
  - intros -> i Hi. rewrite elem_of_seqZ in Hi. apply bool_decide_pack.
    rewrite byte_or_0_app by lia. done.
Qed.

(** *** Cursors: [pre] has been read, the rest is ahead *)

Lemma u32_ahead pre v post : 0 ≤ v < U32 → u32LE (pre ++ le_bytes 4 v ++ post) (zlen pre) = v.
Proof. by apply u32LE_app. Qed.

Lemma u32_front v post : 0 ≤ v < U32 → u32LE (le_bytes 4 v ++ post) 0 = v.
Proof. intros Hv. exact (u32_ahead [] v post Hv). Qed.

Definition short (s : list Z) : Prop := text s ∧ zlen (encodeUtf8 s) < NONE.

Lemma short_u32 s : short s → 0 ≤ zlen (encodeUtf8 s) < U32.
Proof. intros [_ H]. unfold NONE, U32 in *. zlia. Qed.

(** A string with its length, read at the cursor. *)
Lemma str_ahead pre s post : short s →
  u32LE (pre ++ put_str s ++ post) (zlen pre) = zlen (encodeUtf8 s) ∧
  decodeUtf8Range (pre ++ put_str s ++ post) (zlen pre + 4) (zlen pre + 4 + zlen (encodeUtf8 s)) = s.
Proof.
  intros Hs. pose proof (short_u32 s Hs). unfold put_str, put_bytes. rewrite <-!app_assoc.
  split; [by apply u32_ahead|]. rewrite app_assoc. apply decode_range; [apply Hs|zlia|zlia].
Qed.

Lemma slot_ahead pre v post : from_option short True v →
  read_slot (pre ++ put_slot v ++ post) (zlen pre) = (v, zlen (pre ++ put_slot v)).
Proof.
  intros Hv. unfold read_slot. destruct v as [s|]; cbn [put_slot].
  - destruct (str_ahead pre s post Hv) as [-> ->]. destruct Hv as [_ Hn].
    rewrite decide_True by lia. f_equal. unfold put_str, put_bytes. zlia.
  - rewrite u32_ahead by (unfold NONE, U32; lia). rewrite decide_False by tauto. f_equal. zlia.
Qed.

(** The key of a parameter, on either route. *)
Lemma key_ahead pre k post : short k →
  let packed := pre ++ put_str k ++ post in
  let kLen := u32LE packed (zlen pre) in
  (if bool_decide (kLen = 7) && keyBytesEqual packed (zlen pre + 4) CHARSET then CHARSET
   else if bool_decide (kLen = 8) && keyBytesEqual packed (zlen pre + 4) BOUNDARY then BOUNDARY
   else decodeUtf8Range packed (zlen pre + 4) (zlen pre + 4 + kLen)) = k.
Proof.
  intros Hk packed kLen. subst packed kLen. destruct (str_ahead pre k post Hk) as [-> ->].
  assert (Hlit : ∀ lit, utf8_toString lit = lit → zlen (encodeUtf8 k) = zlen lit →
    keyBytesEqual (pre ++ put_str k ++ post) (zlen pre + 4) lit = true → lit = k).
  { intros lit Hl Hz. unfold put_str, put_bytes. rewrite <-!app_assoc, app_assoc.
    rewrite keyBytesEqual_app by (rewrite ?zlen_app, ?zlen_le_bytes; lia || done).
    intros <-%bool_decide_eq_true. rewrite <-Hl. apply text_back, Hk. }
  destruct (bool_decide (_ = 7)) eqn:E7; simpl.
  - apply bool_decide_eq_true in E7.
    destruct (keyBytesEqual _ _ CHARSET) eqn:Ec; [apply Hlit; [vm_compute; reflexivity|exact E7|done]|].
    rewrite bool_decide_eq_false_2 by lia. done.
  - destruct (bool_decide (_ = 8)) eqn:E8; simpl; [|done]. apply bool_decide_eq_true in E8.
    destruct (keyBytesEqual _ _ BOUNDARY) eqn:Eb; [|done]. apply Hlit; [vm_compute; reflexivity|exact E8|done].
Qed.

(** ** Media types *)

Definition params_obj (o : jsobj) (ps : list (list Z * list Z)) : jsobj :=
  foldl (λ o kv, obj_set o kv.1 (JStr kv.2)) o ps.

Definition put_params (ps : list (list Z * list Z)) : list Z := ps ≫= λ kv, put_str kv.1 ++ put_str kv.2.

Lemma find_param_cons key k v ps :
  find_param key ((k, v) :: ps) = if decide (k = key) then Some v else find_param key ps.
Proof.
  unfold find_param. simpl. case_decide; simpl; [done|].
  destruct (list_find _ ps) as [[i [k' v']]|]; done.
Qed.

(** A summary that no parameter has taken yet is the value of the first of that name. *)
Definition pending (key : list Z) (v : option (list Z)) (ps : list (list Z * list Z)) : Prop :=
  v = None ∨ v = find_param key ps.

Lemma pending_none key ps : pending key None ps.
Proof. by left. Qed.

Lemma pending_skip key v k x ps : k ≠ key → pending key v ((k, x) :: ps) → pending key v ps.
Proof. unfold pending. rewrite find_param_cons. intros Hk. by rewrite decide_False by done. Qed.

Lemma pending_hit key c x ps : pending key (Some c) ((key, x) :: ps) → c = x.
Proof. intros [?|E]; [done|]. rewrite find_param_cons, decide_True in E by done. by injection E. Qed.

#[local] Hint Resolve pending_none pending_skip : core.

Lemma read_params_ahead ps : Forall (λ kv, short kv.1 ∧ short kv.2) ps → ∀ pre post cs bd o,
  pending CHARSET cs ps → pending BOUNDARY bd ps →
  read_params (length ps) (pre ++ put_params ps ++ post) (zlen pre) cs bd o = params_obj o ps.
Proof.
  induction 1 as [|[k v] ps [Hk Hv] Hps IH]; intros pre post cs bd o Hcs Hbd; [done|].
  cbn [length read_params]. unfold put_params. cbn [mbind list_bind]. rewrite <-!app_assoc.
  fold (put_params ps). cbn [fst snd] in *. rewrite (key_ahead pre k _ Hk). cbv zeta.
  destruct (str_ahead pre k (put_str v ++ put_params ps ++ post) Hk) as [-> _].
  replace (zlen pre + 4 + zlen (encodeUtf8 k)) with (zlen (pre ++ put_str k))
    by (unfold put_str, put_bytes; zlia).
  rewrite app_assoc. destruct (str_ahead (pre ++ put_str k) v (put_params ps ++ post) Hv) as [-> Ev].
  assert (Hne : CHARSET ≠ BOUNDARY) by (vm_compute; congruence).
  replace (zlen (pre ++ put_str k) + 4 + zlen (encodeUtf8 v)) with (zlen ((pre ++ put_str k) ++ put_str v))
    in * by (unfold put_str, put_bytes; zlia).
  assert (Hval : ∃ cs' bd', pending CHARSET cs' ps ∧ pending BOUNDARY bd' ps ∧
    match cs, bd with
    | Some c, _ =>
        if decide (k = CHARSET) then (c, None, bd)
        else match bd with
             | Some b => if decide (k = BOUNDARY) then (b, cs, None) else (v, cs, bd)
             | None => (v, cs, bd)
             end
    | None, Some b => if decide (k = BOUNDARY) then (b, cs, None) else (v, cs, bd)
    | None, None => (v, cs, bd)
    end = (v, cs', bd')).
  { destruct cs as [c|], bd as [b|]; repeat case_decide; subst;
      repeat match goal with H : pending _ (Some _) _ |- _ => first
        [apply pending_hit in H; subst | apply pending_skip in H; [|congruence]] end;
      eexists _, _; (split; [|split; [|reflexivity]]); eauto. }
  destruct Hval as (cs' & bd' & Hc' & Hb' & E). rewrite Ev, E.
  specialize (IH ((pre ++ put_str k) ++ put_str v) post cs' bd' (obj_set o k (JStr v)) Hc' Hb').
  rewrite <-!app_assoc in IH. rewrite <-!app_assoc. exact IH.
Qed.

(** What the JS side can index: every text decodes and every length is below [NONE]. *)
Record media_ok (p : ParsedMediaType) : Prop := {
  mo_type : short (media_type_text p);
  mo_params : Forall (λ kv, short kv.1 ∧ short kv.2) (mt_params p);
  mo_count : zlen (mt_params p) < U32;
}.

Definition media_result (p : ParsedMediaType) : MediaTypeResult :=
  {| mediaType := media_type_text p; charset := find_param CHARSET (mt_params p);
     boundary := find_param BOUNDARY (mt_params p); params := params_obj empty_obj (mt_params p) |}.

Lemma find_param_short key ps : Forall (λ kv : list Z * list Z, short kv.1 ∧ short kv.2) ps →
  from_option short True (find_param key ps).
Proof.
  induction 1 as [|[k v] ps [_ Hv] Hps IH]; [done|]. rewrite find_param_cons. by case_decide.
Qed.

Lemma unpack_media p : media_ok p → unpackMediaType (media_verdict p) = media_result p.
Proof.
  intros [Ht Hp Hc]. unfold unpackMediaType, media_verdict. fold (put_params (mt_params p)).
  set (cs := find_param CHARSET _). set (bd := find_param BOUNDARY _).
  set (n := zlen (mt_params p)) in *.
  destruct (str_ahead [] (media_type_text p)
    (put_slot cs ++ put_slot bd ++ le_bytes 4 n ++ put_params (mt_params p)) Ht) as [E1 E2].
  cbn [app] in E1, E2. rewrite zlen_nil in E1, E2. rewrite E1. change (0 + 4) with 4 in E2. rewrite E2.
  replace (4 + zlen (encodeUtf8 (media_type_text p))) with (zlen (put_str (media_type_text p)))
    by (unfold put_str, put_bytes; zlia).
  rewrite (slot_ahead _ cs) by (by apply find_param_short). rewrite (app_assoc (put_str _)).
  rewrite (slot_ahead _ bd) by (by apply find_param_short). rewrite (app_assoc (put_str _ ++ _)).
  set (pre := (put_str _ ++ _) ++ _). rewrite u32_ahead by (subst n; zlia).
  unfold media_result. fold cs bd. f_equal. subst n. unfold zlen at 1. rewrite Nat2Z.id.
  rewrite (app_assoc pre). replace (zlen pre + 4) with (zlen (pre ++ le_bytes 4 (zlen (mt_params p)))) by zlia.
  rewrite <-(app_nil_r (put_params _)). apply read_params_ahead; [done|by right|by right].
Qed.

(** ** A result in the scratch or in a buffer of its own *)

Lemma scratch_or_own_run `{Alloc} size r error s : r ≠ Some [] →
  ∃ v s', scratch_or_own size (needed_writer r) error s = (v, s') ∧ same_but_scratch s s' ∧
    match r with
    | Some b => ∃ o, v = Ok o ∧ view_bytes s' o = b
    | None => v = Throw (js_Error error)
    end.
Proof.
  intros Hr. pose proof (needed_writer_needed r) as Hf. set (f := needed_writer r) in *.
  unfold scratch_or_own. rewrite (se_bind_Ok (scratchFor size) _ s tt _ eq_refl).
  set (s1 := if decide _ then _ else _).
  assert (Hs1 : same_but_scratch s s1) by (subst s1; by case_decide).
  erewrite (se_bind_Ok (on_scratch (into f)))
    by (unfold on_scratch, into; rewrite (surjective_pairing (f _)); reflexivity).
  set (s2 := set_encodeScratch _ s1).
  assert (Hs2 : same_but_scratch s s2) by exact Hs1.
  rewrite (se_bind_Ok (gets (λ s, zlen (encodeScratch s))) _ s2 _ _ eq_refl). cbn [encodeScratch set_encodeScratch s2].
  rewrite (needed_count f r Hf), (needed_length f r Hf). destruct r as [b|].
  - assert (Hb0 : zlen b ≠ 0) by (by intros ->%zlen_0). pose proof (zlen_nonneg b).
    case_decide as Hfit.
    + exists (Ok (Own b)), s2. split; [|by eauto].
      unfold new_Uint8Array. rewrite (decide_False (P := zlen b < 0)) by lia.
      rewrite (se_bind_Ok (lift _) _ s2 _ _ eq_refl).
      assert (Hn : zlen (new_u8 (zlen b)) = zlen b) by (unfold new_u8; zlia).
      rewrite (surjective_pairing (f _)), (needed_count f _ Hf), (needed_length f _ Hf), Hn.
      rewrite decide_False by lia. rewrite (needed_read f (Some b)) by (done || lia). done.
    + rewrite decide_False by lia. exists (Ok (InScratch (zlen b))), s2. split; [done|]. split; [done|].
      eexists. split; [done|]. cbn [view_bytes s2 encodeScratch set_encodeScratch].
      apply (needed_read f (Some b)); [done|done|lia].
  - exists (Throw (js_Error error)), s2. pose proof (zlen_nonneg (encodeScratch s1)).
    rewrite decide_False by lia. rewrite decide_True by tauto. done.
Qed.

(** ** Accept-Encoding *)

Record pref_ok (p : EncodingPref) : Prop := {
  po_encoding : short (encoding p); po_q : 0 ≤ q_bits p < U32; po_order : 0 ≤ order p < U32 }.

Definition put_pref (p : EncodingPref) : list Z :=
  put_str (encoding p) ++ le_bytes 4 (q_bits p) ++ le_bytes 4 (order p).

Lemma read_prefs_ahead ps : Forall pref_ok ps → ∀ pre post,
  read_prefs (length ps) (pre ++ (ps ≫= put_pref) ++ post) (zlen pre) = ps.
Proof.
  induction 1 as [|p ps [He Hq Ho] Hps IH]; intros pre post; [done|].
  cbn [length read_prefs mbind list_bind]. remember (ps ≫= put_pref) as tl eqn:Etl.
  unfold put_pref. rewrite <-!app_assoc. set (rest := tl ++ post). cbv zeta.
  destruct (str_ahead pre (encoding p) (le_bytes 4 (q_bits p) ++ le_bytes 4 (order p) ++ rest) He) as [E1 E2].
  rewrite E1, E2. replace (zlen pre + 4 + zlen (encodeUtf8 (encoding p))) with (zlen (pre ++ put_str (encoding p)))
    by (unfold put_str, put_bytes; zlia).
  rewrite (app_assoc pre), u32_ahead by done. set (pre1 := pre ++ _).
  rewrite (app_assoc pre1). replace (zlen pre1 + 4) with (zlen (pre1 ++ le_bytes 4 (q_bits p))) by zlia.
  rewrite u32_ahead by done. rewrite (app_assoc (pre1 ++ _)).
  replace (zlen pre1 + 8) with (zlen ((pre1 ++ le_bytes 4 (q_bits p)) ++ le_bytes 4 (order p))) by zlia.
  subst rest tl. rewrite IH. by destruct p.
Qed.

Lemma unpack_prefs ps : Forall pref_ok ps → zlen ps < U32 → unpackAcceptEncoding (accept_verdict ps) = ps.
Proof.
  intros Hps Hn. unfold unpackAcceptEncoding, accept_verdict.
  rewrite u32_front by zlia. unfold zlen at 1. rewrite Nat2Z.id.
  pose proof (read_prefs_ahead ps Hps (le_bytes 4 (zlen ps)) []) as R.
  rewrite zlen_le_bytes, app_nil_r in R. exact R.
Qed.

(** ** Multipart *)

Section multipart.
Context `{Codec}.

Definition field_ok (b : list Z) : Prop := zlen b < U32.
Record part_ok (p : MultipartPart) : Prop := {
  pp_name : field_ok (name p); pp_filename : from_option field_ok True (filename p);
  pp_ct : from_option field_ok True (contentType p); pp_data : field_ok (data p) }.

(** What JS sees of a part. *)
Definition decoded (p : MultipartPart) : MultipartPart :=
  {| name := decodeUtf8 (name p); filename := decodeUtf8 <$> filename p;
     contentType := decodeUtf8 <$> contentType p; data := data p |}.

Definition put_part (p : MultipartPart) : list Z :=
  put_bytes (name p) ++ put_optional (filename p) ++ put_optional (contentType p) ++ put_bytes (data p).

Lemma bytes_ahead pre b post : field_ok b →
  u32LE (pre ++ put_bytes b ++ post) (zlen pre) = zlen b ∧
  subarray (pre ++ put_bytes b ++ post) (zlen pre + 4) (zlen pre + 4 + zlen b) = b.
Proof.
  unfold field_ok. intros Hb. unfold put_bytes. rewrite <-!app_assoc.
  split; [apply u32_ahead; zlia|]. rewrite app_assoc. apply subarray_app; zlia.
Qed.

Lemma optional_ahead pre v post : from_option field_ok True v →
  let packed := pre ++ put_optional v ++ post in
  let off := zlen pre + 1 in
  let len := u32LE packed off in
  (if decide (byte_or_0 packed (zlen pre) = 1)
   then Some (decodeUtf8 (subarray packed (off + 4) (off + 4 + len))) else None) = decodeUtf8 <$> v ∧
  off + 4 + len = zlen (pre ++ put_optional v).
Proof.
  intros Hv packed off len. subst packed off len.
  assert (Hf : byte_or_0 (pre ++ put_optional v ++ post) (zlen pre) = if v then 1 else 0).
  { rewrite <-(Z.add_0_r (zlen pre)) at 1. rewrite byte_or_0_app; [by destruct v|].
    destruct v; cbn [put_optional]; unfold put_bytes; zlia. }
  rewrite Hf. destruct v as [b|]; cbn [put_optional].
  - destruct (bytes_ahead (pre ++ [1]) b post Hv) as [E1 E2].
    rewrite zlen_app, zlen_cons, zlen_nil in E1, E2. change (1 + 0) with 1 in E1, E2.
    rewrite <-app_assoc in E1, E2. change ([1] ++ ?x) with (1 :: x) in E1, E2.
    change ((1 :: put_bytes b) ++ post) with (1 :: (put_bytes b ++ post)). rewrite E1, decide_True, E2 by done.
    split; [done|]. unfold put_bytes. zlia.
  - assert (E : u32LE (pre ++ 0 :: le_bytes 4 0 ++ post) (zlen pre + 1) = 0).
    { replace (zlen pre + 1) with (zlen (pre ++ [0])) by zlia.
      change (0 :: ?x) with ([0] ++ x). rewrite app_assoc. by apply u32_ahead. }
    change ((0 :: le_bytes 4 0) ++ post) with (0 :: (le_bytes 4 0 ++ post)). rewrite E, decide_False by done.
    split; [done|]. zlia.
Qed.

Lemma read_multipart_ahead ps : Forall part_ok ps → ∀ pre post,
  read_multipart (length ps) (pre ++ (ps ≫= put_part) ++ post) (zlen pre) = decoded <$> ps.
Proof.
  induction 1 as [|p ps [Hn Hf Hc Hd] Hps IH]; intros pre post; [done|].
  cbn [length read_multipart mbind list_bind fmap list_fmap].
  remember (ps ≫= put_part) as tl eqn:Etl. unfold put_part. rewrite <-!app_assoc.
  set (packed := pre ++ _). cbv zeta.
  destruct (bytes_ahead pre (name p) (put_optional (filename p) ++ put_optional (contentType p) ++
    put_bytes (data p) ++ tl ++ post) Hn) as [E1 E2]. fold packed in E1, E2. rewrite E1, E2.
  replace (zlen pre + 4 + zlen (name p)) with (zlen (pre ++ put_bytes (name p))) by (unfold put_bytes; zlia).
  set (pre1 := pre ++ put_bytes (name p)).
  destruct (optional_ahead pre1 (filename p) (put_optional (contentType p) ++ put_bytes (data p) ++ tl ++ post) Hf)
    as [E3 E4]. assert (P1 : packed = pre1 ++ put_optional (filename p) ++ put_optional (contentType p) ++
    put_bytes (data p) ++ tl ++ post) by (subst packed pre1; by rewrite <-!app_assoc).
  rewrite <-P1 in E3, E4. rewrite E3, E4. set (pre2 := pre1 ++ _).
  destruct (optional_ahead pre2 (contentType p) (put_bytes (data p) ++ tl ++ post) Hc) as [E5 E6].
  assert (P2 : packed = pre2 ++ put_optional (contentType p) ++ put_bytes (data p) ++ tl ++ post)
    by (rewrite P1; subst pre2; by rewrite <-!app_assoc).
  rewrite <-P2 in E5, E6. rewrite E5, E6. set (pre3 := pre2 ++ _).
  destruct (bytes_ahead pre3 (data p) (tl ++ post) Hd) as [E7 E8].
  assert (P3 : packed = pre3 ++ put_bytes (data p) ++ tl ++ post)
    by (rewrite P2; subst pre3; by rewrite <-!app_assoc).
  rewrite <-P3 in E7, E8. rewrite E7, E8. f_equal. subst tl.
  replace (zlen pre3 + 4 + zlen (data p)) with (zlen (pre3 ++ put_bytes (data p))) by (unfold put_bytes; zlia).
  rewrite P3, (app_assoc pre3). apply IH.
Qed.

Lemma unpack_parts ps : Forall part_ok ps → zlen ps < U32 →
  unpackMultipart (parts_to_packed ps) = decoded <$> ps.
Proof.
  intros Hps Hn. unfold unpackMultipart, parts_to_packed.
  rewrite u32_front by zlia. unfold zlen at 1. rewrite Nat2Z.id.
  pose proof (read_multipart_ahead ps Hps (le_bytes 4 (zlen ps)) []) as R.
  rewrite zlen_le_bytes, app_nil_r in R. exact R.
Qed.

End multipart.

(** Every field is inside the packing, so a packing that can be addressed has fields and a
    count that can. *)
Lemma parts_small ps : zlen (parts_to_packed ps) < U32 → Forall part_ok ps ∧ zlen ps < U32.
Proof.
  unfold parts_to_packed. rewrite zlen_app, zlen_le_bytes.
  enough (Hg : ∀ bound, zlen (ps ≫= put_part) < bound → bound ≤ U32 → Forall part_ok ps ∧ zlen ps < bound).
  { intros Hz. destruct (Hg (U32 - 4)); [unfold put_part in *; lia|lia|]. split; [done|lia]. }
  induction ps as [|p ps IH]; intros bound; cbn [mbind list_bind]; [rewrite !zlen_nil; by auto|].
  rewrite zlen_app. intros Hz Hb. pose proof (zlen_nonneg (ps ≫= put_part)).
  assert (Ho : ∀ v, 0 ≤ zlen (put_optional v) ∧ (zlen (put_optional v) < U32 → from_option field_ok True v)).
  { intros [v|]; cbn [put_optional from_option]; unfold field_ok, put_bytes; autorewrite with zlen; zlia. }
  pose proof (Ho (filename p)) as [? Hf]. pose proof (Ho (contentType p)) as [? Hc].
  pose proof (zlen_nonneg (name p)). pose proof (zlen_nonneg (data p)).
  assert (Hp : zlen (put_part p) = zlen (name p) + zlen (put_optional (filename p)) +
    zlen (put_optional (contentType p)) + zlen (data p) + 8) by (unfold put_part, put_bytes; zlia).
  destruct (IH (bound - 1)) as [Hps Hn]; [lia|lia|]. split; [|zlia].
  constructor; [|done]. split; unfold field_ok; [lia|apply Hf; lia|apply Hc; lia|lia].
Qed.

(** The client's scratch never grows past 64 KiB. *)
Definition multipart_scratch_ok (s : option (list Z)) : Prop := from_option (λ b, zlen b ≤ 64 * 1024) True s.

(** What the caller gets: the parts, unless their packing exceeds 128 MiB. *)
Definition multipart_result `{Codec} (parts : list MultipartPart) : result (list MultipartPart) :=
  if decide (128 * 1024 * 1024 < zlen (parts_to_packed parts)) then Throw (js_Error multipart_error)
  else Ok (decoded <$> parts).

Lemma packed_nonempty ps : 4 ≤ zlen (parts_to_packed ps).
Proof. unfold parts_to_packed. zlia. Qed.

Lemma multipart_own `{Parsers} `{Alloc} `{Codec} {St} body boundary (s : St) :
  (packed ← multipartParsePacked body boundary; mret (unpackMultipart packed)) s
  = (multipart_result (parse_multipart body boundary), s).
Proof.
  set (parts := parse_multipart body boundary). pose proof (packed_nonempty parts).
  assert (E : multipartParsePacked body boundary s
    = (grow_result (Some (parts_to_packed parts)) (128 * 1024 * 1024) multipart_error, s))
    by (apply growExact_native; [apply needed_writer_needed|lia]).
  rewrite (se_bind_run _ _ _ _ _ E). unfold grow_result, multipart_result.
  destruct (decide (128 * 1024 * 1024 < zlen (parts_to_packed parts))) as [Hb|Hb].
  - by rewrite decide_True by auto.
  - rewrite decide_False by (intros [Hn|?]; [rewrite Hn, zlen_nil in *; lia|lia]).
    cbn [mret SE_ret]. unfold mret, SE_ret. destruct (parts_small parts) as [Hp Hn]; [unfold U32; lia|].
    by rewrite unpack_parts.
Qed.

(** The call on a buffer: the length that came back, or an exception. *)
Lemma packed_into_run `{Parsers} body boundary out :
  ∃ out', zlen out' = zlen out ∧
    (let packed := parts_to_packed (parse_multipart body boundary) in
     if decide (zlen packed ≤ zlen out)
     then multipartParsePackedInto body boundary out = (Ok (zlen packed), out') ∧
          subarray out' 0 (zlen packed) = packed
     else ∃ e, multipartParsePackedInto body boundary out = (Throw e, out')).
Proof.
  set (packed := parts_to_packed _). pose proof (packed_nonempty (parse_multipart body boundary)).
  fold packed in H0. pose proof (needed_writer_needed (Some packed)) as Hf.
  exists (needed_writer (Some packed) out).2. split; [apply Hf|]. unfold multipartParsePackedInto.
  fold (castrum_multipart_parse_packed body boundary).
  assert (Hw : castrum_multipart_parse_packed body boundary = needed_writer (Some packed)) by done.
  erewrite (se_bind_Ok (into _))
    by (unfold into; rewrite (surjective_pairing (castrum_multipart_parse_packed body boundary _)); reflexivity).
  rewrite Hw, (needed_count _ _ Hf). rewrite (se_bind_Ok (gets zlen) _ _ _ _ eq_refl), (needed_length _ _ Hf).
  cbv zeta. case_decide.
  - rewrite decide_False by lia. split; [done|]. by apply (needed_read _ (Some packed)).
  - rewrite decide_True by lia. by eexists.
Qed.

(** C25. multipartParse gives the caller the native parser's parts - names, file names and
    content types decoded, data byte for byte - whichever buffer carries them: the client's
    scratch, whatever an earlier call left in it, or the one the growing loop allocates
    when the request is large or the packing does not fit.  It throws exactly for a packing
    above 128 MiB, and the scratch stays within 64 KiB. *)
Theorem multipart_exact `{Parsers} `{Alloc} `{Codec} body boundary s :
  multipart_scratch_ok s →
  ∃ s', multipartParse body boundary s = (multipart_result (parse_multipart body boundary), s') ∧
    multipart_scratch_ok s'.
Proof.
  intros Hs. unfold multipartParse. set (need := zlen body + zlen boundary + 64). cbv zeta.
  case_decide as Hneed; [exists s; split; [apply multipart_own|done]|].
  rewrite (se_bind_Ok (modify _) _ s tt _ eq_refl). set (s1 := match s with Some _ => _ | None => _ end).
  assert (Hs1 : ∃ b, s1 = Some b ∧ zlen b ≤ 64 * 1024).
  { assert (zlen (new_u8 need) ≤ 64 * 1024) by (unfold new_u8; subst need; zlia).
    subst s1. destruct s as [b|]; [case_decide|]; eexists; (split; [reflexivity|]); done. }
  destruct Hs1 as (b & -> & Hb).
  destruct (packed_into_run body boundary b) as (b' & Hl & E). cbv zeta in E.
  set (packed := parts_to_packed _) in E. case_decide as Hfit.
  - destruct E as [E Ep]. rewrite (se_bind_Ok (try_catch _ _) _ _ (Some (zlen packed)) (Some b'))
      by (apply try_catch_Ok; rewrite (se_bind_Ok _ _ _ (zlen packed) (Some b')) by (cbn; by rewrite E); done).
    rewrite (se_bind_Ok (gets _) _ _ _ _ eq_refl). cbn [default from_option id]. rewrite Ep. exists (Some b'). split; [|cbn; lia]. unfold multipart_result. fold packed.
    rewrite decide_False by lia. destruct (parts_small (parse_multipart body boundary)) as [Hp Hn];
      [fold packed; unfold U32; lia|]. subst packed. by rewrite unpack_parts.
  - destruct E as [e E]. rewrite (se_bind_Ok (try_catch _ _) _ _ None (Some b'))
      by (erewrite try_catch_Throw; [reflexivity|]; apply se_bind_Throw; cbn; by rewrite E).
    exists (Some b'). split; [apply multipart_own|cbn; lia].
Qed.

(** ParseMediaType and parseAcceptEncoding over the FFI: from every state of the shared
    scratch the caller gets the parsed type with the first charset and boundary and every
    parameter under its name (the last of a name wins), or the exception for an input the
    parser refuses; and the parsed preferences.  Neither the key fast path, the reuse of a
    summary for its parameter nor the route through the scratch or an own buffer shows. *)
Theorem head_verdicts_exact `{Parsers} `{Alloc} input s :
  (∀ p, parse_media_type input = Some p → media_ok p) →
  Forall pref_ok (parse_accept_encoding input) → zlen (parse_accept_encoding input) < U32 →
  (∃ s', rust_parseMediaType input s =
     (match parse_media_type input with
      | Some p => Ok (media_result p)
      | None => Throw (js_Error media_error)
      end, s') ∧ same_but_scratch s s') ∧
  (∃ s', rust_parseAcceptEncoding input s = (Ok (parse_accept_encoding input), s') ∧ same_but_scratch s s').
Proof.
  intros Hm Hp Hn.
  unfold rust_parseMediaType, rust_parseAcceptEncoding, ffi_parseMediaType, ffi_parseAcceptEncoding. split.
  - unfold castrum_parse_media_type.
    destruct (scratch_or_own_run (zlen input * 2 + 128) (media_verdict <$> parse_media_type input) media_error s)
      as (v & s' & E & Hs & Hv).
    { destruct (parse_media_type input) as [p|]; [|done]. intros [=]. }
    exists s'. split; [|done]. rewrite (se_bind_run _ _ _ _ _ E).
    destruct (parse_media_type input) as [p|]; cbn [fmap option_fmap option_map] in Hv; [|by subst].
    destruct Hv as (o & -> & Hv). rewrite (se_bind_Ok (gets _) _ s' _ _ eq_refl), Hv.
    by rewrite unpack_media by auto.
  - unfold castrum_parse_accept_encoding.
    destruct (scratch_or_own_run (zlen input * 2 + 128) (Some (accept_verdict (parse_accept_encoding input)))
      accept_error s) as (v & s' & E & Hs & o & -> & Hv); [done|].
    exists s'. split; [|done]. rewrite (se_bind_Ok _ _ _ _ _ E), (se_bind_Ok (gets _) _ s' _ _ eq_refl), Hv.
    by rewrite unpack_prefs.
Qed.

(** ** Witnesses *)

Definition a_media_type : ParsedMediaType :=
  {| ty := js "text"; subtype := js "html";
     mt_params := [(CHARSET, js "utf-8"); (js "q", [0xE9]); (CHARSET, js "latin1")] |}.
Definition two_prefs : list EncodingPref :=
  [{| encoding := js "gzip"; q_bits := 0x3f800000; order := 0 |};
   {| encoding := js "br"; q_bits := 0x3f000000; order := 1 |}].
Definition two_parts : list MultipartPart :=
  [{| name := js "a"; filename := None; contentType := None; data := [0; 255] |};
   {| name := js "f"; filename := Some [195; 169]; contentType := Some (js "image/png"); data := [] |}].
Definition toy_parsers : Parsers :=
  {| parse_media_type _ := Some a_media_type; parse_accept_encoding _ := two_prefs;
     parse_multipart _ _ := two_parts |}.

Lemma short_dec s : bool_decide (Forall is_unit s ∧ toWellFormed s = s ∧ zlen (encodeUtf8 s) < NONE) = true →
  short s.
Proof. intros (? & ? & ?)%bool_decide_eq_true. done. Qed.

Lemma a_media_type_ok : media_ok a_media_type.
Proof. split; repeat apply Forall_cons_2; try apply Forall_nil_2; try split; try (apply short_dec; vm_compute; reflexivity); done. Qed.

Lemma two_prefs_ok : Forall pref_ok two_prefs.
Proof.
  repeat apply Forall_cons_2; try apply Forall_nil_2; split; cbn [q_bits order]; try (unfold U32; lia); apply short_dec; vm_compute; reflexivity.
Qed.

Lemma head_verdicts_exact_witness :
  ∃ s', @rust_parseMediaType toy_parsers (js "x") dirty_state = (Ok (media_result a_media_type), s').
Proof.
  destruct (@head_verdicts_exact toy_parsers host_alloc (js "x") dirty_state) as ((s' & E & _) & _).
  - intros p [= <-]. exact a_media_type_ok.
  - exact two_prefs_ok.
  - vm_compute. reflexivity.
  - by exists s'.
Defined.

Lemma multipart_exact_witness :
  ∃ s', @multipartParse toy_parsers host_alloc bun_codec [1] [2] (Some (replicate 90 7))
        = (Ok (@decoded bun_codec <$> two_parts), s').
Proof.
  destruct (@multipart_exact toy_parsers host_alloc bun_codec [1] [2] (Some (replicate 90 7))) as (s' & E & _).
  - vm_compute. congruence.
  - exists s'. exact E.
Defined.
