(* ===== verification/PackedParsers.v ===== *)
(** The packed pair parsers from the native core to the public string parsers: form
    component decoding (rust/util/bytes.rs), query and cookie parsing
    (rust/http/query_parser.rs, cookie_parser.rs) with their C ABI (rust/ffi/http.rs), the
    Into methods (native/ffi/build/parse.ts) and parseQueryString, parseCookieHeader and
    parseFormBody (shared/packed/parsers.ts).

    A [&mut out[pos..]] is the whole buffer with the position; what a failed write leaves
    behind stays in it. *)

From stdpp Require Import base list strings.
From S2P Require Import Prelude.
From S2P Require Import Utf8.
From S2P Require Import JsObject.
From S2P Require Import JsString.
From S2P Require Import Wire.
From S2P Require Import StateErr.
From S2P Require Import FfiBuffer.
From S2P Require Import FfiCodecs.

(** ** bytes.rs *)

Inductive FormDecodeError := Malformed | BufferTooSmall.

Definition special (b : Z) : bool := bool_decide (b = 43) || bool_decide (b = 37).
Definition high (b : Z) : bool := bool_decide (128 ≤ b).

(** [memchr2(b'+', b'%', src)]. *)
Fixpoint memchr2 (src : list Z) : option nat :=
  match src with
  | [] => None
  | b :: src => if special b then Some 0%nat else S <$> memchr2 src
  end.

(** [decode_percent_at]; [src] begins at the percent sign, and so does what is left. *)
Definition decode_percent_at (src : list Z) : option (Z * list Z) :=
  match src with
  | _ :: hi :: lo :: next => b ← hex_pair hi lo; Some (b, next)
  | _ => None
  end.

(** The octets of a well-formed UTF-8 sequence, in the decoder state [st]. *)
Fixpoint valid_run (st : pending) (bytes : list Z) : bool :=
  match bytes with
  | [] => bool_decide (st = None)
  | b :: bytes => match uri_octet st b with Some (_, st) => valid_run st bytes | None => false end
  end.
Definition is_valid_utf8 (bytes : list Z) : bool := valid_run None bytes.

(** The loop of [decode_form_core]; [src] is what is left of the input. *)
Fixpoint core_loop (fuel : nat) (src : list Z) (out : list Z) (pos written : Z) (saw_high : bool)
    : (FormDecodeError + Z * bool) * list Z :=
  match fuel with
  | O => (inl Malformed, out)
  | S fuel =>
      match src with
      | [] => (inr (written, saw_high), out)
      | _ :: _ =>
          let run := match memchr2 src with Some rel => take rel src | None => src end in
          if decide (zlen out - pos < written + zlen run) then (inl BufferTooSmall, out)
          else
            let out := splice out (pos + written) run in
            let saw_high := saw_high || existsb high run in
            let written := written + zlen run in
            match memchr2 src with
            | None => (inr (written, saw_high), out)
            | Some rel =>
                let at_ := drop rel src in
                let decoded := match at_ with
                               | c :: next => if decide (c = 43) then Some (32, next) else decode_percent_at at_
                               | [] => None
                               end in
                match decoded with
                | None => (inl Malformed, out)
                | Some (b, next) =>
                    if decide (zlen out - pos ≤ written) then (inl BufferTooSmall, out)
                    else core_loop fuel next (splice out (pos + written) [b]) pos (written + 1) (saw_high || high b)
                end
            end
      end
  end.

Definition decode_form_core (src out : list Z) (pos : Z) : (FormDecodeError + Z) * list Z :=
  match memchr2 src with
  | None =>
      if decide (zlen out - pos < zlen src) then (inl BufferTooSmall, out)
      else (inr (zlen src), splice out pos src)
  | Some _ =>
      match core_loop (S (length src)) src out pos 0 false with
      | (inl e, out) => (inl e, out)
      | (inr (written, saw_high), out) =>
          if saw_high && negb (is_valid_utf8 (subarray out pos (pos + written))) then (inl Malformed, out)
          else (inr written, out)
      end
  end.

Definition write_raw_component (src out : list Z) (pos : Z) : (FormDecodeError + Z) * list Z :=
  if decide (zlen out - pos < zlen src) then (inl BufferTooSmall, out) else (inr (zlen src), splice out pos src).

Definition decode_form_component_into (src out : list Z) (pos : Z) : (FormDecodeError + Z) * list Z :=
  match decode_form_core src out pos with
  | (inl Malformed, out) => write_raw_component src out pos
  | r => r
  end.

(** The loop of [decode_form_component_len]; [None] is its early return. *)
Fixpoint len_loop (fuel : nat) (src : list Z) (written : Z) (saw_high : bool) : option (Z * bool) :=
  match fuel with
  | O => None
  | S fuel =>
      match src with
      | [] => Some (written, saw_high)
      | _ :: _ =>
          match memchr2 src with
          | None => Some (written + zlen src, saw_high || existsb high src)
          | Some rel =>
              let written := written + Z.of_nat rel in
              let saw_high := saw_high || existsb high (take rel src) in
              match drop rel src with
              | [] => None
              | c :: next =>
                  if decide (c = 43) then len_loop fuel next (written + 1) saw_high
                  else match decode_percent_at (c :: next) with
                       | Some (b, next) => len_loop fuel next (written + 1) (saw_high || high b)
                       | None => None
                       end
              end
          end
      end
  end.

Definition decode_form_component_len (src : list Z) : Z :=
  match memchr2 src with
  | None => zlen src
  | Some _ =>
      match len_loop (S (length src)) src 0 false with
      | Some (written, saw_high) => if saw_high : bool then zlen src else written
      | None => zlen src
      end
  end.

Definition is_ascii_whitespace (b : Z) : bool := bool_decide (b ∈ [32; 9; 10; 12; 13]).
Fixpoint trim_start (bytes : list Z) : list Z :=
  match bytes with
  | b :: rest => if is_ascii_whitespace b then trim_start rest else bytes
  | [] => []
  end.
Definition trim_ascii_whitespace (bytes : list Z) : list Z :=
  rev (trim_start (rev (trim_start bytes))).

(** [split_at] the first [=], which is dropped. *)
Fixpoint split_eq (pair : list Z) : list Z * list Z :=
  match pair with
  | [] => ([], [])
  | b :: rest => if decide (b = 61) then ([], rest) else let '(k, v) := split_eq rest in (b :: k, v)
  end.

Definition unquote (value : list Z) : list Z :=
  if bool_decide (2 ≤ zlen value) && bool_decide (head value = Some 34) && bool_decide (last value = Some 34)
  then take (length value - 2) (drop 1 value) else value.

Definition cookie_pair (raw : list Z) : option (list Z * list Z) :=
  let segment := trim_ascii_whitespace raw in
  if decide (segment = []) then None
  else
    let '(name, value) := split_eq segment in
    let name := trim_ascii_whitespace name in
    let value := trim_ascii_whitespace value in
    if decide (name = []) then None else Some (name, unquote value).

Definition cookie_pairs (input : list Z) : list (list Z * list Z) := omap cookie_pair (split 59 input).

(** ** packed.rs, query_parser.rs, cookie_parser.rs: writers into [out] *)

Definition too_small : js_error := js_Error "packed output: buffer too small".

Definition write_u32_le (pos v : Z) : SE (list Z) Z :=
  len ← gets zlen;
  if decide (len < pos + 4) then throw too_small
  else modify (λ out, splice out pos (le_bytes 4 v)) ;; mret (pos + 4).

Definition write_bytes (pos : Z) (bytes : list Z) : SE (list Z) Z :=
  len ← gets zlen;
  if decide (len < pos + zlen bytes) then throw too_small
  else modify (λ out, splice out pos bytes) ;; mret (pos + zlen bytes).

Definition write_decoded_form_component (src : list Z) (len_pos : Z) : SE (list Z) Z :=
  pos ← write_u32_le len_pos 0;
  written ← (λ out, match decode_form_component_into src out pos with
                    | (inr written, out) => (Ok written, out)
                    | (inl _, out) => (Throw too_small, out)
                    end);
  modify (λ out, splice out len_pos (le_bytes 4 written)) ;;
  mret (pos + written).

Fixpoint query_loop (pairs : list (list Z)) (pos count : Z) : SE (list Z) (Z * Z) :=
  match pairs with
  | [] => mret (pos, count)
  | segment :: pairs =>
      if decide (segment = []) then query_loop pairs pos count
      else
        let '(key, value) := split_eq segment in
        pos ← write_decoded_form_component key pos;
        pos ← write_decoded_form_component value pos;
        query_loop pairs pos (count + 1)
  end.

Definition query_parse_packed_into_slice (input : list Z) : SE (list Z) Z :=
  pos ← write_u32_le 0 0;
  '(pos, count) ← query_loop (split 38 input) pos 0;
  modify (λ out, splice out 0 (le_bytes 4 count)) ;;
  mret pos.

Definition query_parse_packed_size (input : list Z) : Z :=
  foldl (λ size segment,
    if decide (segment = []) then size
    else let '(key, value) := split_eq segment in
         size + (4 + decode_form_component_len key) + (4 + decode_form_component_len value))
    4 (split 38 input).

Fixpoint cookie_loop (pairs : list (list Z * list Z)) (pos count : Z) : SE (list Z) (Z * Z) :=
  match pairs with
  | [] => mret (pos, count)
  | (name, value) :: pairs =>
      pos ← write_u32_le pos (zlen name);
      pos ← write_bytes pos name;
      pos ← write_u32_le pos (zlen value);
      pos ← write_bytes pos value;
      cookie_loop pairs pos (count + 1)
  end.

Definition cookie_parse_packed_into_slice (input : list Z) : SE (list Z) Z :=
  pos ← write_u32_le 0 0;
  '(pos, count) ← cookie_loop (cookie_pairs input) pos 0;
  modify (λ out, splice out 0 (le_bytes 4 count)) ;;
  mret pos.

Definition cookie_parse_packed_size (input : list Z) : Z :=
  foldl (λ size p, size + (4 + zlen p.1) + (4 + zlen p.2)) 4 (cookie_pairs input).

(** The allocating parsers: an upper bound, then [truncate]. *)
Definition packed_vec (parse : SE (list Z) Z) (input : list Z) : result (list Z) :=
  match parse (new_u8 (zlen input * 9 + 16)) with
  | (Ok written, out) => Ok (take (Z.to_nat written) out)
  | (Throw e, _) => Throw e
  end.
Definition query_parse_packed_vec (input : list Z) : result (list Z) :=
  packed_vec (query_parse_packed_into_slice input) input.
Definition cookie_parse_packed_vec (input : list Z) : result (list Z) :=
  packed_vec (cookie_parse_packed_into_slice input) input.

(** ** ffi/http.rs *)

Definition sized_writer (parse : SE (list Z) Z) (size : Z) : writer := λ out,
  match parse out with (Ok w, out) => (w, out) | (Throw _, out) => (size, out) end.
Definition castrum_query_parse_packed (input : list Z) : writer :=
  sized_writer (query_parse_packed_into_slice input) (query_parse_packed_size input).
Definition castrum_cookie_parse_packed (input : list Z) : writer :=
  sized_writer (cookie_parse_packed_into_slice input) (cookie_parse_packed_size input).
Definition castrum_form_parse_packed (input : list Z) : writer := castrum_query_parse_packed input.

(** ** parse.ts *)

Definition guarded_into (f : writer) (message : string) : SE (list Z) Z :=
  w ← into f;
  len ← gets zlen;
  if decide (w = 0 ∨ len < w) then throw (js_Error message) else mret w.

Definition queryParsePackedInto (input : list Z) : SE (list Z) Z :=
  guarded_into (castrum_query_parse_packed input) "query parse: output buffer too small".
Definition cookieParsePackedInto (input : list Z) : SE (list Z) Z :=
  guarded_into (castrum_cookie_parse_packed input) "cookie parse: output buffer too small".
Definition formParsePackedInto (input : list Z) : SE (list Z) Z :=
  guarded_into (castrum_form_parse_packed input) "form parse: output buffer too small".

(** ** parsers.ts *)

Inductive kind := query | cookie | form.
#[export] Instance kind_eq : EqDecision kind.
Proof. solve_decision. Defined.

Definition ffiCaches : Type := kind → option (list Z).
Definition set_cache (k : kind) (b : list Z) (c : ffiCaches) : ffiCaches :=
  λ k', if decide (k' = k) then Some b else c k'.

(** [scratchFor(kind, input)]; the buffer it returns is the cache entry. *)
Definition cache_for (k : kind) (input : list Z) : SE ffiCaches unit :=
  let need := zlen input * 9 + 16 in
  modify (λ c, match c k with
               | Some s => if decide (zlen s < need) then set_cache k (new_u8 need) c else c
               | None => set_cache k (new_u8 need) c
               end).

(** A method on the cache entry as its buffer. *)
Definition on_cache {A} (k : kind) (m : SE (list Z) A) : SE ffiCaches A :=
  λ c, let '(r, out) := m (default [] (c k)) in (r, set_cache k out c).

Section parsers.
Context `{Codec} (getBunFFI : bool).

Definition parsePackedInto (k : kind) (input : list Z) : SE ffiCaches (option jsobj) :=
  if negb getBunFFI then mret None
  else
    cache_for k input ;;
    w ← on_cache k (match k with
                    | query => queryParsePackedInto input
                    | cookie => cookieParsePackedInto input
                    | form => formParsePackedInto input
                    end);
    out ← gets (λ c, default [] (c k));
    if decide (w = 0 ∨ zlen out < w) then mret None
    else pairs ← lift (readPairsPacked (subarray out 0 w)); mret (Some (pairsToObject pairs)).

Definition parseVia (k : kind) (input : list Z) : SE ffiCaches jsobj :=
  fast ← parsePackedInto k input;
  match fast with
  | Some o => mret o
  | None =>
      packed ← lift (match k with
                     | query | form => query_parse_packed_vec input
                     | cookie => cookie_parse_packed_vec input
                     end);
      pairs ← lift (readPairsPacked packed);
      mret (pairsToObject pairs)
  end.

Definition parseQueryString (q : list Z) : SE ffiCaches jsobj := parseVia query (encodeUtf8 q).
Definition parseCookieHeader (header : list Z) : SE ffiCaches jsobj := parseVia cookie (encodeUtf8 header).
Definition parseFormBody (body : list Z) : SE ffiCaches jsobj := parseVia form body.

End parsers.

(** ** What a component decodes to *)

Fixpoint unform (src : list Z) : option (list Z) :=
  match src with
  | [] => Some []
  | c :: rest =>
      if decide (c = 43) then (32 ::.) <$> unform rest
      else if decide (c = 37) then
        match rest with
        | hi :: lo :: next =>
            match hex_pair hi lo with Some b => (b ::.) <$> unform next | None => None end
        | _ => None
        end
      else (c ::.) <$> unform rest
  end.

(** [try { decode } catch { raw }]. *)
Definition component (src : list Z) : list Z :=
  match unform src with
  | Some b => if bool_decide (memchr2 src = None) || is_valid_utf8 b then b else src
  | None => src
  end.

Lemma special_cases c : special c = true → c = 43 ∨ c = 37.
Proof. unfold special. intros [?%bool_decide_eq_true|?%bool_decide_eq_true]%orb_true_iff; auto. Qed.

Lemma special_not c : special c = false → c ≠ 43 ∧ c ≠ 37.
Proof. unfold special. intros [?%bool_decide_eq_false ?%bool_decide_eq_false]%orb_false_iff. done. Qed.

(** The bulk copy of a run. *)
Lemma unform_run src : match memchr2 src with
  | None => unform src = Some src
  | Some rel => ∃ c next, drop rel src = c :: next ∧ special c = true ∧
      unform src = (take rel src ++.) <$> unform (c :: next)
  end.
Proof.
  induction src as [|b src IH]; [done|]. cbn [memchr2]. destruct (special b) eqn:Eb.
  - exists b, src. split_and!; [done|done|]. cbn [take]. by destruct (unform (b :: src)).
  - destruct (special_not b Eb) as [H43 H37].
    assert (E : unform (b :: src) = (b ::.) <$> unform src) by (cbn; by rewrite !decide_False).
    destruct (memchr2 src) as [rel|]; cbn [fmap option_fmap option_map].
    + destruct IH as (c & next & Hd & Hs & IH). exists c, next. split_and!; [done|done|].
      rewrite E, IH. by destruct (unform (c :: next)).
    + by rewrite E, IH.
Qed.

Lemma unform_step c next : special c = true →
  unform (c :: next) =
    match (if decide (c = 43) then Some (32, next) else decode_percent_at (c :: next)) with
    | Some (b, next) => (b ::.) <$> unform next
    | None => None
    end.
Proof.
  intros [->| ->]%special_cases; cbn; [done|].
  destruct next as [|hi [|lo next]]; [done|done|]. by destruct (hex_pair hi lo).
Qed.

Lemma decode_step_shorter c next b next' :
  (if decide (c = 43) then Some (32, next) else decode_percent_at (c :: next)) = Some (b, next') →
  (length next' ≤ length next)%nat.
Proof.
  case_decide; [by intros [= <- <-]|]. destruct next as [|hi [|lo next]]; [done..|]. cbn.
  destruct (hex_pair hi lo); cbn; [|done]. intros [= <- <-]. lia.
Qed.

(** Decoding never makes a component longer. *)
Lemma unform_shorter src b : unform src = Some b → zlen b ≤ zlen src.
Proof.
  remember (length src) as n eqn:Hn. revert src b Hn.
  induction n as [n IH] using lt_wf_ind. intros [|c src] b Hn; [by intros [= <-]|].
  assert (Hc : ∀ x r b, (length r ≤ length src)%nat → (x ::.) <$> unform r = Some b → zlen b ≤ 1 + zlen r).
  { intros x r b' Hr E. destruct (unform r) as [b''|] eqn:Er; [|done]. injection E as <-.
    pose proof (IH (length r) ltac:(cbn in Hn; lia) r b'' eq_refl Er). zlia. }
  cbn. repeat case_decide; [intros E; apply Hc in E; [zlia|lia]| |intros E; apply Hc in E; [zlia|lia]].
  destruct src as [|hi [|lo src]]; [done|done|]. destruct (hex_pair hi lo); [|done].
  intros E. apply Hc in E; [zlia|cbn; lia].
Qed.

Lemma component_shorter src : zlen (component src) ≤ zlen src.
Proof.
  unfold component. destruct (unform src) as [b|] eqn:E; [|lia].
  apply unform_shorter in E. destruct (_ || _); lia.
Qed.

(** ** The writers at the frontier of the output *)

Lemma existsb_app_high a b : existsb high (a ++ b) = existsb high a || existsb high b.
Proof. apply existsb_app. Qed.

Lemma drop_add_length {A} (a b l : list A) : drop (length b) (drop (length a) l) = drop (length (a ++ b)) l.
Proof. rewrite drop_drop, length_app. done. Qed.

(** The loop from [w] written bytes on: it writes the decoded form if that fits, and fails
    as malformed, whenever the rest of the input fits, if there is none. *)
Lemma core_loop_run fuel : ∀ src pre w rest saw, (length src < fuel)%nat →
  match unform src with
  | Some b =>
      if decide (zlen b ≤ zlen rest)
      then core_loop fuel src (pre ++ w ++ rest) (zlen pre) (zlen w) saw
           = (inr (zlen w + zlen b, saw || existsb high b), pre ++ w ++ b ++ drop (length b) rest)
      else ∃ g, core_loop fuel src (pre ++ w ++ rest) (zlen pre) (zlen w) saw = (inl BufferTooSmall, pre ++ g) ∧
             zlen g = zlen w + zlen rest
  | None => ∃ e g, core_loop fuel src (pre ++ w ++ rest) (zlen pre) (zlen w) saw = (inl e, pre ++ g) ∧
      zlen g = zlen w + zlen rest ∧ (zlen src ≤ zlen rest → e = Malformed)
  end.
Proof.
  induction fuel as [|fuel IH]; intros src pre w rest saw Hf; [lia|].
  destruct src as [|c0 src0].
  { cbn [unform core_loop]. rewrite decide_True by zlia. cbn. rewrite drop_0, orb_false_r.
    by rewrite zlen_nil, Z.add_0_r. }
  cbn [core_loop]. set (src := c0 :: src0) in *.
  pose proof (unform_run src) as Hrun. set (run := match memchr2 src with Some rel => take rel src | None => src end).
  assert (Hcap : zlen (pre ++ w ++ rest) - zlen pre = zlen w + zlen rest) by zlia. rewrite Hcap.
  destruct (memchr2 src) as [rel|].
  2: { rewrite Hrun. subst run. case_decide as Hs; case_decide as Hr; try (exfalso; lia).
       - rewrite app_assoc. rewrite splice_frontier by zlia. by rewrite <-!app_assoc.
       - exists (w ++ rest). split; [done|zlia]. }
  destruct Hrun as (c & next & Hd & Hsp & Hu).
  assert (Hsrc : src = run ++ c :: next) by (subst run; cbn [drop take]; rewrite <-Hd; symmetry; apply take_drop).
  assert (Hlen : (length next < length src)%nat) by (rewrite Hsrc, length_app; cbn; lia).
  rewrite Hu, Hd. fold run.
  destruct (decide (zlen w + zlen rest < zlen w + zlen run)) as [Hs|Hs].
  { assert (Hg : zlen (w ++ rest) = zlen w + zlen rest) by zlia.
    assert (Hbig : ¬ zlen src ≤ zlen rest) by (rewrite Hsrc; zlia).
    destruct (unform (c :: next)) as [b|]; cbn [fmap option_fmap option_map].
    - rewrite decide_False by zlia. by exists (w ++ rest).
    - by exists BufferTooSmall, (w ++ rest). }
  rewrite (unform_step c next Hsp).
  rewrite app_assoc, (splice_frontier (pre ++ w)) by zlia. rewrite <-app_assoc.
  set (rest1 := drop (length run) rest).
  assert (Hr1 : zlen rest1 = zlen rest - zlen run) by (subst rest1; rewrite zlen_drop_length; zlia).
  set (step := if decide (c = 43) then Some (32, next) else decode_percent_at (c :: next)).
  pose proof (decode_step_shorter c next) as Hsh. fold step in Hsh.
  destruct step as [[b next']|]; cycle 1.
  { cbn. exists Malformed, (w ++ run ++ rest1). split_and!; [done|zlia|done]. }
  specialize (Hsh b next' eq_refl).
  assert (Hcap1 : zlen (pre ++ w ++ run ++ rest1) - zlen pre = zlen w + zlen rest) by zlia.
  rewrite Hcap1. destruct (decide (zlen w + zlen rest ≤ zlen w + zlen run)) as [Hs2|Hs2].
  { assert (Hg : zlen (w ++ run ++ rest1) = zlen w + zlen rest) by zlia.
    assert (Hbig : ¬ zlen src ≤ zlen rest) by (rewrite Hsrc; zlia).
    destruct (unform next') as [b'|]; cbn [fmap option_fmap option_map].
    - rewrite decide_False by zlia. by exists (w ++ run ++ rest1).
    - by exists BufferTooSmall, (w ++ run ++ rest1). }
  rewrite (app_assoc pre w), (app_assoc (pre ++ w) run), (splice_frontier ((pre ++ w) ++ run)) by zlia.
  set (rest2 := drop (length [b]) rest1).
  assert (Hr2 : zlen rest2 = zlen rest - zlen run - 1)
    by (subst rest2; rewrite zlen_drop_length; rewrite ?zlen_cons, ?zlen_nil; lia).
  specialize (IH next' pre ((w ++ run) ++ [b]) rest2 (saw || existsb high run || high b) ltac:(lia)).
  replace (((pre ++ w) ++ run) ++ [b] ++ rest2) with (pre ++ ((w ++ run) ++ [b]) ++ rest2)
    by (by rewrite <-!app_assoc).
  replace (zlen w + zlen run + 1) with (zlen ((w ++ run) ++ [b])) by zlia.
  destruct (unform next') as [b'|]; cbn [fmap option_fmap option_map].
  - case_decide as Hfit; [rewrite decide_True by zlia|rewrite decide_False by zlia].
    + rewrite IH. f_equal.
      * do 2 f_equal; [zlia|]. rewrite existsb_app_high. cbn. by rewrite <-!orb_assoc.
      * rewrite <-!app_assoc. cbn [app]. do 5 f_equal.
        subst rest2 rest1. rewrite !drop_add_length. f_equal; rewrite ?length_app; cbn; try lia.
    + destruct IH as (g & E & Hg). exists g. split; [exact E|zlia].
  - destruct IH as (e & g & E & Hg & He). exists e, g. split_and!; [exact E|zlia|].
    intros Hl. apply He. rewrite Hsrc in Hl. assert (zlen next' ≤ zlen next) by (unfold zlen; lia). zlia.
Qed.

Lemma ascii_valid b : existsb high b = false → is_valid_utf8 b = true.
Proof.
  unfold is_valid_utf8. induction b as [|x b IH]; [done|]. cbn [existsb valid_run].
  intros [Hx Hb]%orb_false_iff. unfold high in Hx. apply bool_decide_eq_false in Hx.
  unfold uri_octet, dec_start. rewrite !decide_True by lia. auto.
Qed.

(** Outcome of a write of [c] into the room [rest] behind [pre]. *)
Definition written_at {E} (r : (E + Z) * list Z) (too_small : E) (pre rest c : list Z) : Prop :=
  ∃ g, zlen g = zlen rest ∧
    if decide (zlen c ≤ zlen rest) then r = (inr (zlen c), pre ++ g) ∧ take (length c) g = c
    else r = (inl too_small, pre ++ g).

Lemma raw_at src pre rest :
  written_at (write_raw_component src (pre ++ rest) (zlen pre)) BufferTooSmall pre rest src.
Proof.
  unfold written_at, write_raw_component. rewrite zlen_app. destruct (decide (zlen pre + zlen rest - zlen pre < zlen src)) as [Hs|Hs].
  - exists rest. split; [done|]. by rewrite decide_False by lia.
  - exists (src ++ drop (length src) rest). rewrite decide_True by lia.
    split; [rewrite zlen_app, zlen_drop_length by zlia; lia|].
    rewrite splice_frontier by zlia. split; [done|]. by rewrite take_app_length.
Qed.

Lemma component_at src pre rest :
  written_at (decode_form_component_into src (pre ++ rest) (zlen pre)) BufferTooSmall pre rest (component src).
Proof.
  unfold decode_form_component_into, decode_form_core, component.
  pose proof (unform_run src) as Hrun. destruct (memchr2 src) as [rel|] eqn:Em.
  2: { rewrite Hrun, bool_decide_eq_true_2 by done. cbn [orb].
       pose proof (raw_at src pre rest) as Hr. unfold write_raw_component in Hr.
       by destruct (decide (zlen (pre ++ rest) - zlen pre < zlen src)). }
  rewrite (bool_decide_eq_false_2 (Some rel = None)) by done. cbn [orb].
  pose proof (core_loop_run (S (length src)) src pre [] rest false ltac:(lia)) as Hl.
  cbn [app orb] in Hl. rewrite zlen_nil in Hl.
  assert (Hraw : ∀ g, zlen g = zlen rest →
    written_at (write_raw_component src (pre ++ g) (zlen pre)) BufferTooSmall pre rest src).
  { intros g Hg. pose proof (raw_at src pre g) as Hr. unfold written_at in *. by rewrite Hg in Hr. }
  destruct (unform src) as [b|] eqn:Eu.
  - pose proof (unform_shorter src b Eu). case_decide as Hfit.
    + rewrite Hl. rewrite Z.add_0_l, subarray_app by done.
      destruct (is_valid_utf8 b) eqn:Ev; [rewrite andb_false_r|].
      * exists (b ++ drop (length b) rest). rewrite decide_True by done.
        split; [rewrite zlen_app, zlen_drop_length by zlia; lia|]. by rewrite take_app_length.
      * destruct (existsb high b) eqn:Eh; [|by rewrite ascii_valid in Ev]. cbn [negb andb].
        apply Hraw. rewrite zlen_app, zlen_drop_length by zlia. lia.
    + destruct Hl as (g & -> & Hg). exists g. split; [lia|].
      destruct (is_valid_utf8 b); by rewrite decide_False by lia.
  - destruct Hl as (e & g & -> & Hg & He). rewrite Z.add_0_l in Hg. destruct e; [by apply Hraw|].
    exists g. split; [done|]. rewrite decide_False; [done|]. intros Hs. by specialize (He Hs).
Qed.

(** A computation that writes [c] into the room [rest] behind [pre] and returns [a], or
    fails because it does not fit. *)
Definition puts {A} (m : SE (list Z) A) (pre rest c : list Z) (a : A) : Prop :=
  ∃ g, zlen g = zlen rest ∧
    if decide (zlen c ≤ zlen rest) then m (pre ++ rest) = (Ok a, pre ++ g) ∧ take (length c) g = c
    else m (pre ++ rest) = (Throw too_small, pre ++ g).

Lemma puts_ret {A} (a : A) pre rest : puts (mret a) pre rest [] a.
Proof. exists rest. split; [done|]. rewrite zlen_nil, decide_True by zlia. done. Qed.

Lemma puts_bind {A B} (m : SE (list Z) A) (k : A → SE (list Z) B) pre rest c d a b :
  puts m pre rest c a → (∀ rest, puts (k a) (pre ++ c) rest d b) → puts (m ≫= k) pre rest (c ++ d) b.
Proof.
  intros (g & Hg & Hm) Hk. pose proof (zlen_nonneg c). pose proof (zlen_nonneg d).
  destruct (decide (zlen c ≤ zlen rest)) as [Hc|Hc].
  - destruct Hm as [Hm Ht]. rewrite <-(take_drop (length c) g), Ht in Hm.
    destruct (Hk (drop (length c) g)) as (g2 & Hg2 & Hk2). rewrite zlen_drop_length in Hg2, Hk2 by lia.
    exists (c ++ g2). split; [zlia|]. rewrite (se_bind_Ok _ _ _ _ _ Hm). rewrite app_assoc.
    destruct (decide (zlen d ≤ zlen g - zlen c)) as [Hd|Hd].
    + destruct Hk2 as [-> Ht2]. rewrite decide_True by zlia. split; [by rewrite <-app_assoc|].
      by rewrite length_app, take_app_add, Ht2.
    + rewrite Hk2, decide_False by zlia. by rewrite <-app_assoc.
  - exists g. split; [done|]. rewrite decide_False by zlia. by rewrite (se_bind_Throw _ _ _ _ _ Hm).
Qed.

(** The bytes [b] at [pos] if they fit. *)
Lemma puts_splice {A} (b : list Z) pre rest (a : A) n : n = zlen b →
  puts (len ← gets zlen; if decide (len < zlen pre + n) then throw too_small
        else modify (λ out, splice out (zlen pre) b) ;; mret a) pre rest b a.
Proof.
  intros ->. unfold puts. rewrite (se_bind_Ok (gets zlen) _ _ _ _ eq_refl), zlen_app.
  destruct (decide (zlen pre + zlen rest < _)) as [Hs|Hs].
  - exists rest. split; [done|]. by rewrite decide_False by lia.
  - exists (b ++ drop (length b) rest). rewrite decide_True by lia.
    split; [rewrite zlen_app, zlen_drop_length by lia; lia|].
    rewrite (se_bind_Ok (modify _) _ _ _ _ eq_refl), splice_frontier by lia.
    by rewrite take_app_length.
Qed.

Lemma puts_u32 v pre rest : puts (write_u32_le (zlen pre) v) pre rest (le_bytes 4 v) (zlen pre + 4).
Proof. by apply puts_splice. Qed.

Lemma puts_bytes b pre rest : puts (write_bytes (zlen pre) b) pre rest b (zlen pre + zlen b).
Proof. by apply puts_splice. Qed.

(** The length is written when it is known, over the zero that held its place. *)
Lemma puts_component src pre rest :
  puts (write_decoded_form_component src (zlen pre)) pre rest (layout_item (component src))
    (zlen pre + zlen (layout_item (component src))).
Proof.
  unfold write_decoded_form_component, layout_item. set (c := component src).
  destruct (puts_u32 0 pre rest) as (g & Hg & H0). rewrite zlen_le_bytes in H0. change (Z.of_nat 4) with 4 in H0.
  pose proof (zlen_nonneg c).
  destruct (decide (4 ≤ zlen rest)) as [H4|H4]; cycle 1.
  { exists g. split; [done|]. rewrite decide_False by zlia. by rewrite (se_bind_Throw _ _ _ _ _ H0). }
  destruct H0 as [H0 Ht]. rewrite <-(take_drop (length (le_bytes 4 0)) g), Ht in H0.
  set (rest1 := drop (length (le_bytes 4 0)) g) in *.
  assert (Hr1 : zlen rest1 = zlen rest - 4) by (subst rest1; rewrite zlen_drop_length; rewrite ?zlen_le_bytes; lia).
  unfold puts. rewrite (se_bind_Ok _ _ _ _ _ H0).
  destruct (component_at src (pre ++ le_bytes 4 0) rest1) as (g2 & Hg2 & Hw). fold c in Hw.
  rewrite zlen_app, zlen_le_bytes in Hw. change (Z.of_nat 4) with 4 in Hw. rewrite <-app_assoc in Hw.
  destruct (decide (zlen c ≤ zlen rest1)) as [Hc|Hc].
  - destruct Hw as [Hw Htc]. exists (le_bytes 4 (zlen c) ++ g2). split; [zlia|]. rewrite decide_True by zlia.
    erewrite (se_bind_Ok _ _ (pre ++ le_bytes 4 0 ++ rest1)) by (cbv beta; rewrite Hw; reflexivity).
    rewrite (se_bind_Ok (modify _) _ _ _ _ eq_refl), <-app_assoc, splice_hole by (by rewrite ?length_le_bytes).
    split.
    + unfold mret, SE_ret. do 2 f_equal. zlia.
    + by rewrite length_app, take_app_add, Htc.
  - exists (le_bytes 4 0 ++ g2). split; [zlia|]. rewrite decide_False by zlia.
    erewrite (se_bind_Throw _ _ (pre ++ le_bytes 4 0 ++ rest1)) by (cbv beta; rewrite Hw; reflexivity).
    by rewrite <-app_assoc.
Qed.

(** ** Queries and cookies *)

Definition query_pair (segment : list Z) : option (list Z * list Z) :=
  if decide (segment = []) then None
  else let '(key, value) := split_eq segment in Some (component key, component value).
Definition query_pairs (input : list Z) : list (list Z * list Z) := omap query_pair (split 38 input).

Definition packed_pairs (ps : list (list Z * list Z)) : list Z := le_bytes 4 (zlen ps) ++ layout_pairs ps.

Lemma layout_pairs_snd k v ps :
  layout_pairs ((k, v) :: ps) = layout_item k ++ layout_item v ++ layout_pairs ps.
Proof. unfold layout_pairs. cbn [mbind list_bind fst snd]. by rewrite <-app_assoc. Qed.

Lemma puts_eq {A} (m : SE (list Z) A) pre rest c d a b : puts m pre rest c a → c = d → a = b → puts m pre rest d b.
Proof. by intros ? <- <-. Qed.

Lemma query_loop_puts segments : ∀ pre rest count,
  puts (query_loop segments (zlen pre) count) pre rest (layout_pairs (omap query_pair segments))
    (zlen pre + zlen (layout_pairs (omap query_pair segments)), count + zlen (omap query_pair segments)).
Proof.
  induction segments as [|s ss IH]; intros pre rest count; cbn [query_loop omap list_omap].
  - eapply puts_eq; [apply puts_ret|done|]. cbn. by rewrite zlen_nil, !Z.add_0_r.
  - destruct (query_pair s) as [[k' v']|] eqn:Es; unfold query_pair in Es; case_decide as Hs;
      [done| |by apply IH|by destruct (split_eq s)].
    destruct (split_eq s) as [k v]. injection Es as <- <-. set (ps := omap query_pair ss).
    eapply puts_eq; [eapply puts_bind; [apply puts_component|]| |].
    + intros rest1. rewrite <-zlen_app. eapply puts_bind; [apply puts_component|].
      intros rest2. rewrite <-zlen_app. apply IH.
    + by rewrite layout_pairs_snd.
    + rewrite layout_pairs_snd. fold ps. f_equal; zlia.
Qed.

Lemma cookie_loop_puts ps : ∀ pre rest count,
  puts (cookie_loop ps (zlen pre) count) pre rest (layout_pairs ps)
    (zlen pre + zlen (layout_pairs ps), count + zlen ps).
Proof.
  induction ps as [|[k v] ps IH]; intros pre rest count; cbn [cookie_loop].
  - eapply puts_eq; [apply puts_ret|done|]. cbn. by rewrite zlen_nil, !Z.add_0_r.
  - assert (E4 : ∀ (p : list Z) n, zlen p + 4 = zlen (p ++ le_bytes 4 n)) by (intros; zlia).
    eapply puts_eq; [eapply puts_bind; [apply puts_u32|]| |].
    + intros rest1. rewrite (E4 _ (zlen k)). eapply puts_bind; [apply puts_bytes|].
      intros rest2. rewrite <-zlen_app. eapply puts_bind; [apply puts_u32|].
      intros rest3. rewrite (E4 _ (zlen v)). eapply puts_bind; [apply puts_bytes|].
      intros rest4. rewrite <-zlen_app. apply IH.
    + by rewrite layout_pairs_cons.
    + rewrite layout_pairs_cons. f_equal; zlia.
Qed.

(** A count in front that is known at the end. *)
Lemma counted_puts (loop : Z → Z → SE (list Z) (Z * Z)) body n out :
  (∀ pre rest, puts (loop (zlen pre) 0) pre rest body (zlen pre + zlen body, n)) →
  puts (pos ← write_u32_le 0 0; '(pos, count) ← loop pos 0;
        modify (λ out, splice out 0 (le_bytes 4 count)) ;; mret pos)
    [] out (le_bytes 4 n ++ body) (zlen (le_bytes 4 n ++ body)).
Proof.
  intros Hl.
  assert (Hp : puts (pos ← write_u32_le 0 0; loop pos 0) [] out (le_bytes 4 0 ++ body) (4 + zlen body, n)).
  { eapply puts_bind; [apply (puts_u32 0 [] out)|]. intros rest.
    pose proof (Hl (le_bytes 4 0) rest) as H. by rewrite zlen_le_bytes in H. }
  destruct Hp as (g & Hg & Hp). cbn [app] in Hp. rewrite zlen_app, zlen_le_bytes in Hp.
  unfold puts. cbn [app]. rewrite zlen_app, zlen_le_bytes.
  assert (Hassoc : ∀ s, (pos ← write_u32_le 0 0; '(pos, count) ← loop pos 0;
      modify (λ out, splice out 0 (le_bytes 4 count)) ;; mret pos) s =
    ((pos ← write_u32_le 0 0; loop pos 0) ≫= λ '(pos, count),
      modify (λ out, splice out 0 (le_bytes 4 count)) ;; mret pos) s).
  { intros s. unfold mbind, SE_bind. by destruct (write_u32_le 0 0 s) as [[p|e] s']. }
  rewrite Hassoc. destruct (decide _) as [Hfit|Hfit].
  - destruct Hp as [Hp Ht]. rewrite (se_bind_Ok _ _ _ _ _ Hp), (se_bind_Ok (modify _) _ _ _ _ eq_refl).
    rewrite <-(take_drop (length (le_bytes 4 0 ++ body)) g), Ht, <-app_assoc.
    set (tail := drop _ g).
    rewrite (splice_hole [] (le_bytes 4 0) (le_bytes 4 n) (body ++ tail) 0 eq_refl eq_refl : splice (le_bytes 4 0 ++ body ++ tail) 0 (le_bytes 4 n) = _). exists (le_bytes 4 n ++ body ++ tail). cbn [app].
    assert (zlen tail = zlen g - (4 + zlen body)) by (subst tail; rewrite zlen_drop_length; zlia).
    split; [zlia|]. split; [done|]. rewrite app_assoc. by rewrite take_app_length.
  - exists g. split; [done|]. by rewrite (se_bind_Throw _ _ _ _ _ Hp).
Qed.

Lemma query_puts input out :
  puts (query_parse_packed_into_slice input) [] out (packed_pairs (query_pairs input))
    (zlen (packed_pairs (query_pairs input))).
Proof. apply counted_puts. intros pre rest. apply (query_loop_puts (split 38 input) pre rest 0). Qed.

Lemma cookie_puts input out :
  puts (cookie_parse_packed_into_slice input) [] out (packed_pairs (cookie_pairs input))
    (zlen (packed_pairs (cookie_pairs input))).
Proof. apply counted_puts. intros pre rest. apply (cookie_loop_puts (cookie_pairs input) pre rest 0). Qed.

(** ** Sizes *)

Lemma len_loop_run fuel : ∀ src written saw, (length src < fuel)%nat →
  len_loop fuel src written saw =
    (λ b, (written + zlen b, saw || existsb high b)) <$> unform src.
Proof.
  induction fuel as [|fuel IH]; intros src written saw Hf; [lia|].
  destruct src as [|c0 src0]; [cbn; by rewrite zlen_nil, orb_false_r, Z.add_0_r|].
  cbn [len_loop]. set (src := c0 :: src0) in *.
  pose proof (unform_run src) as Hrun. destruct (memchr2 src) as [rel|]; [|by rewrite Hrun].
  destruct Hrun as (c & next & Hd & Hsp & ->). rewrite Hd, (unform_step c next Hsp).
  assert (Hsrc : src = take rel src ++ c :: next) by (rewrite <-Hd; symmetry; apply take_drop).
  assert (Hrel : zlen (take rel src) = Z.of_nat rel).
  { apply (f_equal length) in Hd. rewrite length_drop in Hd. rewrite length_cons in Hd. unfold zlen. rewrite length_take. lia. }
  assert (Hlen : (length next < length src)%nat) by (rewrite Hsrc, length_app; cbn; lia).
  pose proof (decode_step_shorter c next) as Hsh. cbv zeta.
  destruct (decide (c = 43)); [|destruct (decode_percent_at (c :: next)) as [[b next']|]; [|done]];
    (rewrite IH; [|specialize (Hsh _ _ eq_refl); lia]).
  all: match goal with |- context [unform ?n] => destruct (unform n) as [b'|]; [|done] end.
  all: cbn [fmap option_fmap option_map]; f_equal; f_equal; [zlia|].
  all: rewrite existsb_app_high; cbn [existsb]; rewrite ?orb_assoc; try done.
  cbn. by rewrite orb_false_r.
Qed.

(** The size pass never reports less than the writer writes, nor more than the input. *)
Lemma component_len src : zlen (component src) ≤ decode_form_component_len src ≤ zlen src.
Proof.
  unfold decode_form_component_len. pose proof (component_shorter src).
  destruct (memchr2 src) as [rel|] eqn:Em; [|lia].
  rewrite len_loop_run by lia. unfold component in *. rewrite Em in *.
  destruct (unform src) as [b|] eqn:Eu; cbn [fmap option_fmap option_map]; [|lia].
  pose proof (unform_shorter src b Eu). cbn [orb].
  destruct (existsb high b) eqn:Eh; [lia|]. rewrite ascii_valid by done. cbn. lia.
Qed.

Lemma layout_item_len b : zlen (layout_item b) = 4 + zlen b.
Proof. unfold layout_item. zlia. Qed.

Lemma query_size_covers input : zlen (packed_pairs (query_pairs input)) ≤ query_parse_packed_size input.
Proof.
  unfold query_parse_packed_size, packed_pairs, query_pairs. rewrite zlen_app, zlen_le_bytes.
  change (Z.of_nat 4) with 4.
  match goal with |- _ ≤ foldl ?f _ _ => set (step := f) end.
  enough (Hg : ∀ n, n + zlen (layout_pairs (omap query_pair (split 38 input))) ≤ foldl step n (split 38 input))
    by apply Hg.
  induction (split 38 input) as [|s ss IH]; intros n; cbn [omap list_omap foldl]; [cbn; rewrite zlen_nil; lia|].
  unfold step at 2.
  destruct (query_pair s) as [p|] eqn:Es; unfold query_pair in Es; case_decide as Hs; [done| |apply IH|].
  - destruct (split_eq s) as [k v]. injection Es as <-. rewrite layout_pairs_snd, !zlen_app, !layout_item_len.
    pose proof (component_len k). pose proof (component_len v). etransitivity; [|apply IH].
    lia.
  - by destruct (split_eq s).
Qed.

Lemma cookie_size_exact input : cookie_parse_packed_size input = zlen (packed_pairs (cookie_pairs input)).
Proof.
  unfold cookie_parse_packed_size, packed_pairs. rewrite zlen_app, zlen_le_bytes.
  change (Z.of_nat 4) with 4.
  match goal with |- foldl ?f _ _ = _ => set (step := f) end.
  enough (Hg : ∀ n, foldl step n (cookie_pairs input) = n + zlen (layout_pairs (cookie_pairs input))) by apply Hg.
  induction (cookie_pairs input) as [|[k v] ps IH]; intros n; cbn [foldl]; [cbn; rewrite zlen_nil; lia|].
  rewrite IH. unfold step. cbn [fst snd]. rewrite layout_pairs_snd, !zlen_app, !layout_item_len. lia.
Qed.

(** A pair takes at most nine times the bytes of its segment. *)
Lemma layout_bound (f : list Z → option (list Z * list Z)) ss :
  (∀ s p, f s = Some p → 1 ≤ zlen s ∧ zlen p.1 + zlen p.2 ≤ zlen s) →
  zlen (layout_pairs (omap f ss)) ≤ 9 * zlen (concat ss).
Proof.
  intros Hf. induction ss as [|s ss IH]; cbn [omap list_omap concat]; [cbn; rewrite !zlen_nil; lia|].
  rewrite zlen_app. pose proof (zlen_nonneg s).
  destruct (f s) as [[k v]|] eqn:E; [|lia]. destruct (Hf s _ E) as [? ?]. cbn [fst snd] in *.
  rewrite layout_pairs_snd, !zlen_app, !layout_item_len. fold (omap f ss). lia.
Qed.

Lemma split_concat c s : zlen (concat (split c s)) ≤ zlen s.
Proof.
  induction s as [|x s IH]; cbn [split]; [cbn; lia|].
  case_decide; cbn [concat app]; [rewrite zlen_cons; lia|].
  destruct (split c s) as [|seg segs]; cbn [concat] in *; rewrite ?zlen_cons, ?zlen_app in *; cbn; zlia.
Qed.

Lemma split_eq_len s : zlen (split_eq s).1 + zlen (split_eq s).2 ≤ zlen s.
Proof.
  induction s as [|b s IH]; cbn [split_eq]; [cbn [fst snd]; zlia|]. case_decide; [cbn [fst snd]; zlia|].
  destruct (split_eq s) as [k v]. cbn [fst snd] in *. zlia.
Qed.

Lemma query_bound input : zlen (packed_pairs (query_pairs input)) ≤ zlen input * 9 + 4.
Proof.
  unfold packed_pairs. rewrite zlen_app, zlen_le_bytes. pose proof (split_concat 38 input).
  enough (zlen (layout_pairs (query_pairs input)) ≤ 9 * zlen (concat (split 38 input))) by lia.
  apply layout_bound. intros s p. unfold query_pair. case_decide as Hs; [done|].
  pose proof (split_eq_len s) as Hl. destruct (split_eq s) as [k v]. intros [= <-]. cbn [fst snd] in *.
  pose proof (component_shorter k). pose proof (component_shorter v).
  split; [destruct s; [done|zlia]|lia].
Qed.

Lemma trim_start_len s : zlen (trim_start s) ≤ zlen s.
Proof. induction s as [|b s IH]; cbn [trim_start]; [lia|]. destruct (is_ascii_whitespace b); zlia. Qed.

Lemma trim_len s : zlen (trim_ascii_whitespace s) ≤ zlen s.
Proof.
  unfold trim_ascii_whitespace, zlen. rewrite length_rev.
  pose proof (trim_start_len (rev (trim_start s))) as H1. pose proof (trim_start_len s) as H2.
  unfold zlen in *. rewrite length_rev in H1. lia.
Qed.

Lemma unquote_len v : zlen (unquote v) ≤ zlen v.
Proof. unfold unquote. destruct (_ && _); [|lia]. unfold zlen. rewrite length_take, length_drop. lia. Qed.

Lemma cookie_bound input : zlen (packed_pairs (cookie_pairs input)) ≤ zlen input * 9 + 4.
Proof.
  unfold packed_pairs. rewrite zlen_app, zlen_le_bytes. pose proof (split_concat 59 input).
  enough (zlen (layout_pairs (cookie_pairs input)) ≤ 9 * zlen (concat (split 59 input))) by lia.
  apply layout_bound. intros s p. unfold cookie_pair. case_decide as Hs; [done|].
  pose proof (trim_len s). pose proof (split_eq_len (trim_ascii_whitespace s)) as Hl.
  destruct (split_eq _) as [k v]. cbn [fst snd] in Hl. case_decide; [done|]. intros [= <-]. cbn [fst snd].
  pose proof (trim_len k). pose proof (trim_len v). pose proof (unquote_len (trim_ascii_whitespace v)).
  split; [|lia]. destruct (trim_ascii_whitespace s) as [|x t] eqn:Et; [done|]. rewrite zlen_cons in *.
  pose proof (zlen_nonneg t). lia.
Qed.

(** ** The C ABI *)

Lemma sized_call parse size packed out :
  (∀ out, puts parse [] out packed (zlen packed)) → zlen packed ≤ size →
  zlen (sized_writer parse size out).2 = zlen out ∧
  (zlen packed ≤ zlen out → (sized_writer parse size out).1 = zlen packed ∧
     take (length packed) (sized_writer parse size out).2 = packed) ∧
  (zlen out < zlen packed → (sized_writer parse size out).1 = size).
Proof.
  intros Hp Hsize. destruct (Hp out) as (g & Hg & E). cbn [app] in E. unfold sized_writer.
  destruct (decide (zlen packed ≤ zlen out)); [destruct E as [-> E]|rewrite E];
    cbn [fst snd]; (split; [done|]); split; try done; lia.
Qed.

(** ** The public parsers *)

Definition pairs_of (k : kind) (input : list Z) : list (list Z * list Z) :=
  match k with cookie => cookie_pairs input | query | form => query_pairs input end.
Definition slice_of (k : kind) (input : list Z) : SE (list Z) Z :=
  match k with
  | cookie => cookie_parse_packed_into_slice input
  | query | form => query_parse_packed_into_slice input
  end.
Definition size_of (k : kind) (input : list Z) : Z :=
  match k with cookie => cookie_parse_packed_size input | query | form => query_parse_packed_size input end.

Definition native_of (k : kind) (input : list Z) : writer :=
  match k with
  | query => castrum_query_parse_packed input
  | cookie => castrum_cookie_parse_packed input
  | form => castrum_form_parse_packed input
  end.

Lemma slice_puts k input out :
  puts (slice_of k input) [] out (packed_pairs (pairs_of k input)) (zlen (packed_pairs (pairs_of k input))).
Proof. destruct k; [apply query_puts|apply cookie_puts|apply query_puts]. Qed.

Lemma pairs_bound k input : 4 ≤ zlen (packed_pairs (pairs_of k input)) ≤ zlen input * 9 + 4.
Proof.
  split; [unfold packed_pairs; zlia|]. destruct k; [apply query_bound|apply cookie_bound|apply query_bound].
Qed.

Lemma size_covers k input : zlen (packed_pairs (pairs_of k input)) ≤ size_of k input.
Proof.
  destruct k; [apply query_size_covers| |apply query_size_covers].
  cbn [size_of pairs_of]. by rewrite cookie_size_exact.
Qed.

Lemma read_packed `{Codec} ps : zlen (packed_pairs ps) < U32 →
  readPairsPacked (packed_pairs ps) = Ok ((λ p, (decodeUtf8 p.1, decodeUtf8 p.2)) <$> ps).
Proof.
  intros Hsize. assert (Hps : Forall (λ p, Wire.fits p.1 ∧ Wire.fits p.2) ps ∧ zlen ps ≤ zlen (layout_pairs ps)).
  { unfold packed_pairs in Hsize. rewrite zlen_app, zlen_le_bytes in Hsize.
    assert (Hl : zlen (layout_pairs ps) < U32) by lia. clear Hsize. revert Hl.
    induction ps as [|[k v] ps IH]; intros Hl; [split; [apply Forall_nil_2|change (0 ≤ 0); lia]|].
    rewrite layout_pairs_snd, !zlen_app, !layout_item_len in Hl |- *.
    pose proof (zlen_nonneg k). pose proof (zlen_nonneg v). pose proof (zlen_nonneg (layout_pairs ps)).
    destruct IH as [IH1 IH2]; [lia|]. split; [|rewrite zlen_cons; lia].
    constructor; [|done]. unfold Wire.fits. cbn [fst snd]. lia. }
  destruct Hps as [Hps Hn]. pose proof (zlen_nonneg ps). pose proof (zlen_nonneg (layout_pairs ps)).
  unfold packed_pairs in *. rewrite zlen_app, zlen_le_bytes in Hsize.
  unfold readPairsPacked. rewrite zlen_app, zlen_le_bytes, decide_False by lia.
  rewrite (readU32_app [] (layout_pairs ps) 0 (zlen ps) eq_refl : _ → readU32 (le_bytes 4 (zlen ps) ++ layout_pairs ps) 0 = _) by lia.
  cbn [mbind result_bind]. case_decide as Hz; [by rewrite (zlen_0 _ Hz)|].
  unfold zlen at 1. rewrite Nat2Z.id. rewrite <-(app_nil_r (layout_pairs ps)).
  by apply read_pairs_layout.
Qed.

Lemma guarded_run parse size packed message out :
  (∀ out, puts parse [] out packed (zlen packed)) → zlen packed ≤ size → 1 ≤ zlen packed →
  zlen packed ≤ zlen out →
  ∃ out', guarded_into (sized_writer parse size) message out = (Ok (zlen packed), out') ∧
    zlen out' = zlen out ∧ take (length packed) out' = packed.
Proof.
  intros Hp Hsize Hne Hfit. destruct (sized_call parse size packed out Hp Hsize) as (Hl & Hok & _).
  destruct (Hok Hfit) as [Hw Ht]. exists (sized_writer parse size out).2. split; [|done].
  unfold guarded_into.
  erewrite (se_bind_Ok (into _)) by (unfold into; rewrite (surjective_pairing (sized_writer _ _ _)); reflexivity).
  rewrite (se_bind_Ok (gets zlen) _ _ _ _ eq_refl), Hw, Hl. by rewrite decide_False by lia.
Qed.

Definition text_pairs `{Codec} (ps : list (list Z * list Z)) : list (list Z * list Z) :=
  (λ p, (decodeUtf8 p.1, decodeUtf8 p.2)) <$> ps.

Lemma vec_run k input : zlen input * 9 + 16 < U32 →
  packed_vec (slice_of k input) input = Ok (packed_pairs (pairs_of k input)).
Proof.
  intros Hs. unfold packed_vec. pose proof (pairs_bound k input). pose proof (zlen_nonneg input).
  destruct (slice_puts k input (new_u8 (zlen input * 9 + 16))) as (g & Hg & E).
  assert (Hn : zlen (new_u8 (zlen input * 9 + 16)) = zlen input * 9 + 16) by (unfold new_u8; zlia).
  rewrite decide_True in E by lia. destruct E as [E Ht]. cbn [app] in E. rewrite E.
  f_equal. unfold zlen. by rewrite Nat2Z.id.
Qed.

Lemma parsers_run `{Codec} getBunFFI k input c :
  zlen input * 9 + 16 < U32 →
  ∃ c', parseVia getBunFFI k input c = (Ok (pairsToObject (text_pairs (pairs_of k input))), c') ∧
    (∀ k', k' ≠ k → c' k' = c k').
Proof.
  intros Hsize. pose proof (pairs_bound k input) as [H4 H9]. pose proof (read_packed (pairs_of k input)) as Hread.
  specialize (Hread ltac:(lia)). unfold parseVia, parsePackedInto. destruct getBunFFI; cbn [negb]; cycle 1.
  { exists c. split; [|done]. rewrite (se_bind_Ok (mret None) _ c None c eq_refl).
    assert (E : (match k with query | form => query_parse_packed_vec input | cookie => cookie_parse_packed_vec input end)
      = Ok (packed_pairs (pairs_of k input))) by (destruct k; [apply (vec_run query)|apply (vec_run cookie)|apply (vec_run form)]; done).
    rewrite E. rewrite (se_bind_Ok (lift _) _ _ _ _ eq_refl).
    by rewrite (se_bind_Ok (lift _) _ c _ c) by (unfold lift; by rewrite Hread). }
  set (need := zlen input * 9 + 16) in *.
  assert (Hc : ∃ s c1, cache_for k input c = (Ok tt, c1) ∧ c1 k = Some s ∧ need ≤ zlen s ∧
    ∀ k', k' ≠ k → c1 k' = c k').
  { unfold cache_for, modify. pose proof (zlen_nonneg input). fold need.
    assert (Hn : zlen (new_u8 need) = need) by (unfold new_u8; zlia).
    assert (Hset : ∀ k', k' ≠ k → set_cache k (new_u8 need) c k' = c k')
      by (intros k' Hk; unfold set_cache; by rewrite decide_False).
    assert (Hget : set_cache k (new_u8 need) c k = Some (new_u8 need)) by (unfold set_cache; by rewrite decide_True).
    destruct (c k) as [s|] eqn:E; [case_decide|]; eexists _, _; (split; [reflexivity|]);
      (split_and!; [eassumption| |]); try done; lia. }
  destruct Hc as (s & c1 & Hc1 & Hk & Hlen & Hother).
  set (m := match k with query => queryParsePackedInto input | cookie => _ | form => _ end).
  assert (Hm : ∃ out, m s = (Ok (zlen (packed_pairs (pairs_of k input))), out) ∧ zlen out = zlen s ∧
    take (length (packed_pairs (pairs_of k input))) out = packed_pairs (pairs_of k input)).
  { pose proof (size_covers k input).
    assert (Hg : ∀ message, ∃ out, guarded_into (sized_writer (slice_of k input) (size_of k input)) message s
      = (Ok (zlen (packed_pairs (pairs_of k input))), out) ∧ zlen out = zlen s ∧
      take (length (packed_pairs (pairs_of k input))) out = packed_pairs (pairs_of k input))
      by (intros message; apply guarded_run; [apply slice_puts|lia..]).
    subst m. destruct k; apply Hg. }
  destruct Hm as (out & Em & Hout & Ht). set (packed := packed_pairs (pairs_of k input)) in *.
  exists (set_cache k out c1). split; cycle 1.
  { intros k' Hk'. unfold set_cache. rewrite decide_False by done. by apply Hother. }
  rewrite (se_bind_Ok _ _ _ (Some (pairsToObject (text_pairs (pairs_of k input)))) (set_cache k out c1)); [done|].
  rewrite (se_bind_Ok _ _ _ _ _ Hc1).
  rewrite (se_bind_Ok (on_cache k m) _ c1 (zlen packed) (set_cache k out c1))
    by (unfold on_cache; rewrite Hk; cbn [default from_option id]; by rewrite Em).
  rewrite (se_bind_Ok (gets _) _ _ _ _ eq_refl).
  assert (Hgo : default [] (set_cache k out c1 k) = out) by (unfold set_cache; by rewrite decide_True).
  rewrite Hgo, decide_False by lia. rewrite subarray_take by lia. rewrite Ht.
  by rewrite (se_bind_Ok (lift _) _ _ (text_pairs (pairs_of k input)) (set_cache k out c1))
    by (unfold lift; by rewrite Hread).
Qed.

(** C21. parseQueryString, parseCookieHeader and parseFormBody give the object of the pairs
    the component decoder and the cookie splitter find, over any sequence of calls, from
    every state of the reused scratch buffers and whichever transport each call takes: nine
    bytes per input byte and 16 always suffice, so no call throws, no result depends on
    what an earlier call left in the scratch, and the Bun surface and the addon agree. *)
Theorem parsers_exact `{Codec} (calls : list (bool * kind * list Z)) c :
  Forall (λ '(_, _, input), zlen input * 9 + 16 < U32) calls →
  ∃ c', attempts ((λ '(ffi, k, input), parseVia ffi k input) <$> calls) c
        = ((λ '(_, k, input), Ok (pairsToObject (text_pairs (pairs_of k input)))) <$> calls, c').
Proof.
  intros Hcalls. revert c. induction Hcalls as [|[[ffi k] input] calls Hsize _ IH]; intros c; [by exists c|].
  destruct (parsers_run ffi k input c Hsize) as (c1 & E & _). destruct (IH c1) as (c2 & E2).
  exists c2. cbn [fmap list_fmap attempts]. by rewrite E, E2.
Qed.

(** C22. The native parsers answer every buffer with a size that tells the truth: a number
    within the buffer is the size of the packed pairs, which are then at the front; a
    larger one is never too small, so a caller that grows to it succeeds at once; 0 is
    never the answer. *)
Theorem packed_sizes k input out :
  zlen (native_of k input out).2 = zlen out ∧ (native_of k input out).1 ≠ 0 ∧
  if decide ((native_of k input out).1 ≤ zlen out)
  then (native_of k input out).1 = zlen (packed_pairs (pairs_of k input)) ∧
       take (length (packed_pairs (pairs_of k input))) (native_of k input out).2 = packed_pairs (pairs_of k input)
  else zlen (packed_pairs (pairs_of k input)) ≤ (native_of k input out).1 ∧
       ∀ bigger, zlen bigger = (native_of k input out).1 →
         (native_of k input bigger).1 = zlen (packed_pairs (pairs_of k input)) ∧
         take (length (packed_pairs (pairs_of k input))) (native_of k input bigger).2 = packed_pairs (pairs_of k input).
Proof.
  set (packed := packed_pairs (pairs_of k input)).
  pose proof (pairs_bound k input) as [H4 _]. fold packed in H4.
  pose proof (size_covers k input) as Hs. fold packed in Hs.
  assert (Hf : native_of k input = sized_writer (slice_of k input) (size_of k input)) by (destruct k; reflexivity).
  assert (Hcall := λ out, sized_call (slice_of k input) (size_of k input) packed out (slice_puts k input) Hs).
  rewrite Hf. destruct (Hcall out) as (Hl & Hok & Hno). split; [done|].
  destruct (decide (zlen packed ≤ zlen out)) as [Hfit|Hfit].
  - destruct (Hok Hfit) as [Hw Ht]. rewrite Hw. split; [lia|]. by rewrite decide_True by done.
  - rewrite (Hno ltac:(lia)). split; [lia|]. rewrite decide_False by lia. split; [done|].
    intros bigger Hb. destruct (Hcall bigger) as (_ & Hok2 & _). apply Hok2. lia.
Qed.

(** ** Witness *)

Lemma parsers_exact_witness :
  ∃ c', attempts ((λ '(ffi, k, input), @parseVia bun_codec ffi k input) <$>
      [(true, query, js "a=1&b"); (true, cookie, js "s=x y ; t"); (false, query, js "")]) (λ _, None)
    = ([Ok (pairsToObject [(js "a", js "1"); (js "b", [])]);
        Ok (pairsToObject [(js "s", js "x y"); (js "t", [])]); Ok empty_obj], c').
Proof.
  destruct (@parsers_exact bun_codec [(true, query, js "a=1&b"); (true, cookie, js "s=x y ; t");
    (false, query, js "")] (λ _, None)) as [c' E].
  - repeat apply Forall_cons_2; try apply Forall_nil_2; vm_compute; reflexivity.
  - exists c'. exact E.
Defined.
