(* ===== verification/Client.v ===== *)
(** What the Rust client keeps between calls (rust-ffi/context.ts, client.ts and
    options.ts): the MIME caches, over the lookup of rust/http/mime_lookup.rs and the
    methods of rust-ffi/text.ts and scalar/http.ts; the HMAC signers of
    scalar/hashing.ts; and the thread pool of rust/util/threadpool.rs.

    Module-level state is one for the process; a context has its own toggles, signers and
    view of the pool.  A buffer of the application is a cell of a store, since the signers
    are found by its identity and not by what it holds. *)

From Stdlib Require Import QArith Qround.
From stdpp Require Import base list strings.
From S2P Require Import Prelude.
From S2P Require Import JsMap.
From S2P Require Import Utf8.
From S2P Require Import JsString.
From S2P Require Import Wire.
From S2P Require Import StateErr.
From S2P Require Import FfiBuffer.
From S2P Require Import FfiCodecs.
From S2P Require Import PackedParsers.
Open Scope Z_scope.

(** ** mime_lookup.rs *)

Definition OCTET_STREAM : list Z := js "application/octet-stream".

Definition MIME_TABLE : list (list Z * list Z) :=
  (λ p : string * string, (js p.1, js p.2)) <$>
  [("json", "application/json"); ("js", "text/javascript"); ("mjs", "text/javascript");
   ("cjs", "text/javascript"); ("html", "text/html"); ("htm", "text/html"); ("css", "text/css");
   ("csv", "text/csv"); ("xml", "application/xml"); ("txt", "text/plain"); ("png", "image/png");
   ("jpg", "image/jpeg"); ("jpeg", "image/jpeg"); ("gif", "image/gif"); ("webp", "image/webp");
   ("avif", "image/avif"); ("svg", "image/svg+xml"); ("ico", "image/x-icon");
   ("pdf", "application/pdf"); ("zip", "application/zip"); ("gz", "application/gzip");
   ("wasm", "application/wasm"); ("map", "application/json"); ("woff", "font/woff");
   ("woff2", "font/woff2"); ("ttf", "font/ttf"); ("otf", "font/otf"); ("mp4", "video/mp4");
   ("webm", "video/webm"); ("mp3", "audio/mpeg"); ("ogg", "audio/ogg")]%string.

(** [trim_start_matches('.')]. *)
Fixpoint trim_dots (text : list Z) : list Z :=
  match text with
  | c :: text' => if decide (c = 46) then trim_dots text' else text
  | [] => []
  end.

(** The mime_guess crate, on the lower-cased extension, and the lower-casing of strings in
    JavaScript, of which only the ASCII part is used. *)
Class MimeHost := {
  mime_guess : list Z → list Z;
  lowerCase : list Z → list Z;
  lowerCase_ascii : ∀ s, ascii s → lowerCase s = toLowerCase s;
}.

Section mime.
Context `{Codec} `{MimeHost}.

Definition mime_of (lower : list Z) : list Z :=
  match mget lower MIME_TABLE with Some mime => mime | None => mime_guess lower end.

Definition mime_from_extension_bytes (ext : list Z) : list Z :=
  if negb (is_valid_utf8 ext) then OCTET_STREAM
  else
    let text := trim_dots ext in
    let lower := toLowerCase text in
    if decide (zlen text ≤ 64) then if is_valid_utf8 lower then mime_of lower else OCTET_STREAM
    else mime_of lower.

(** [castrum_mime_from_extension] with its [cstring] argument and result. *)
Definition ffi_mimeFromExtension (ext : list Z) : list Z := mime_from_extension_bytes (cstr_arg ext).

(** ** options.ts, context.ts: the MIME caches *)

Definition normalizeExt (ext : list Z) : list Z :=
  let s := decodeUtf8 ext in
  let s := match s with 46 :: s' => s' | _ => s end in
  lowerCase s.

Definition MIME_CACHE_MAX : Z := 1024.

(** The keys that are dropped, and the map without them. *)
Definition evictOldestHalf {K V} `{EqDecision K} (m : list (K * V)) : list K * list (K * V) :=
  if decide (msize m < MIME_CACHE_MAX) then ([], m)
  else
    let drop_ := (msize m + 1) / 2 in
    let dropped := take (Z.to_nat drop_) (mkeys m) in
    (dropped, foldl (λ m k, mdel k m) m dropped).

(** The two module-level maps. *)
Record mime_caches := MimeCaches { mimeByText : list (list Z * list Z); mimeStrCache : list (list Z * list Z) }.
Definition clearMimeCaches (c : mime_caches) : mime_caches := MimeCaches [] [].

Definition cachedMime (mimeCache : bool) (ext : list Z) : SE mime_caches (list Z) := λ c,
  if negb mimeCache then (Ok (mime_from_extension_bytes ext), c)
  else
    let key := normalizeExt ext in
    match mget key (mimeByText c) with
    | Some val => (Ok val, c)
    | None =>
        let m := (evictOldestHalf (mimeByText c)).2 in
        let val := mime_from_extension_bytes ext in
        (Ok val, MimeCaches (mset key val m) (mimeStrCache c))
    end.

(** scalar/http.ts: bytes in, a string under Bun and bytes under Node. *)
Definition scalar_mimeFromExtension (ffi mimeCache : bool) (ext : list Z) : SE mime_caches (list Z) :=
  if ffi then
    let name := decodeUtf8 ext in
    if hasNul name then mret OCTET_STREAM else mret (ffi_mimeFromExtension name)
  else cachedMime mimeCache ext.

(** text.ts: a string in and out. *)
Definition text_mimeFromExtension (ffi mimeCache : bool) (ext : list Z) : SE mime_caches (list Z) := λ c,
  match mget ext (mimeStrCache c) with
  | Some mime => (Ok mime, c)
  | None =>
      match (if ffi then mret (ffi_mimeFromExtension ext)
             else b ← cachedMime mimeCache (encodeUtf8 ext); mret (decodeUtf8 b)) c with
      | (Ok mime, c) =>
          let m := (evictOldestHalf (mimeStrCache c)).2 in
          (Ok mime, MimeCaches (mimeByText c) (mset ext mime m))
      | (Throw e, c) => (Throw e, c)
      end
  end.

(** ** The caches do not show *)

(** One lookup, through any of the four routes. *)
Record lookup := Lookup { l_text : bool; l_ffi : bool; l_cache : bool; l_ext : list Z }.
Definition run_lookup (l : lookup) : SE mime_caches (list Z) :=
  if l_text l then text_mimeFromExtension (l_ffi l) (l_cache l) (l_ext l)
  else scalar_mimeFromExtension (l_ffi l) (l_cache l) (l_ext l).

(** ASCII without NUL. *)
Definition plain_ext (ext : list Z) : Prop := Forall (λ u, 0 < u < 128) ext.

Lemma plain_ascii ext : plain_ext ext → ascii ext.
Proof. intros Hp. eapply Forall_impl; [exact Hp|]. intros u Hu. cbn in *. lia. Qed.

Lemma plain_no_nul ext : plain_ext ext → hasNul ext = false ∧ until_nul ext = ext.
Proof.
  intros Hp. split.
  - unfold hasNul. apply bool_decide_eq_false. intros Hin. unfold plain_ext in Hp. rewrite Forall_forall in Hp.
    apply Hp in Hin. cbn in Hin. lia.
  - induction Hp as [|u ext Hu _ IH]; [done|]. cbn. rewrite decide_False by lia. by rewrite IH.
Qed.

Lemma plain_arg ext : plain_ext ext → cstr_arg ext = ext.
Proof. intros Hp. unfold cstr_arg. rewrite ascii_encode by by apply plain_ascii. by apply plain_no_nul. Qed.

Lemma ascii_is_valid b : ascii b → is_valid_utf8 b = true.
Proof.
  intros Hb. apply ascii_valid. induction Hb as [|x b Hx _ IH]; [done|]. cbn. rewrite IH.
  unfold high. by rewrite bool_decide_eq_false_2 by lia.
Qed.

Lemma lower_ascii b : ascii b → ascii (toLowerCase b).
Proof. intros Hb. apply Forall_fmap. eapply Forall_impl; [exact Hb|]. intros u Hu. cbn in *. case_decide; lia. Qed.

Lemma trim_dots_ascii b : ascii b → ascii (trim_dots b).
Proof. induction 1 as [|x b Hx Hb IH]; cbn; [constructor|]. case_decide; [done|by constructor]. Qed.

Lemma trim_lower b : toLowerCase (trim_dots b) = trim_dots (toLowerCase b).
Proof.
  induction b as [|x b IH]; [done|]. cbn. destruct (decide (x = 46)) as [->|Hx].
  - exact IH.
  - rewrite decide_False; [done|]. repeat case_decide; lia.
Qed.

Definition drop_dot (s : list Z) : list Z := match s with 46 :: s' => s' | _ => s end.

Lemma trim_drop_dot s : trim_dots (drop_dot s) = trim_dots s.
Proof.
  destruct s as [|c s]; [done|]. destruct (decide (c = 46)) as [->|Hc]; [done|].
  f_equal. unfold drop_dot. repeat (case_match; try done); lia.
Qed.

(** On ASCII the key decides the answer. *)
Lemma mime_by_key ext : ascii ext → mime_from_extension_bytes ext = mime_of (trim_dots (normalizeExt ext)).
Proof.
  intros Ha. assert (Hd : ascii (drop_dot ext)).
  { unfold drop_dot. destruct Ha as [|c s Hc Hs]; [constructor|]. repeat (case_match; try done); by constructor. }
  unfold mime_from_extension_bytes, normalizeExt. rewrite ascii_decode, ascii_is_valid by done.
  fold (drop_dot ext). rewrite lowerCase_ascii by done. rewrite <-trim_lower, trim_drop_dot.
  cbn [negb]. rewrite ascii_is_valid by by apply lower_ascii, trim_dots_ascii. by case_decide.
Qed.

(** Evicting drops the oldest entries. *)
Lemma evict_drop {K V} `{EqDecision K} (m : list (K * V)) :
  wf m → (evictOldestHalf m).2 = if decide (msize m < MIME_CACHE_MAX) then m else drop (Z.to_nat ((msize m + 1) / 2)) m.
Proof.
  intros Hw. unfold evictOldestHalf. case_decide; [done|]. cbn.
  set (n := Z.to_nat _). unfold mkeys. rewrite <-fmap_take.
  assert (E : m = take n m ++ drop n m) by by rewrite take_drop.
  rewrite E at 1. apply mdel_prefix. by rewrite take_drop.
Qed.

(** The keys are distinct, the bound holds, and an entry is what its key stands for. *)
Definition cache_ok (answer : list Z → list Z → Prop) (m : list (list Z * list Z)) : Prop :=
  wf m ∧ msize m ≤ MIME_CACHE_MAX ∧ Forall (λ p, answer p.1 p.2) m.

Lemma evict_ok answer m : cache_ok answer m →
  cache_ok answer (evictOldestHalf m).2 ∧ msize (evictOldestHalf m).2 < MIME_CACHE_MAX.
Proof.
  intros (Hw & Hs & Ha). rewrite evict_drop by done. case_decide as Hd; [done|].
  unfold MIME_CACHE_MAX in *.
  assert (Hq : 512 ≤ (msize m + 1) / 2 ≤ msize m) by zdm. revert Hq. generalize ((msize m + 1) / 2). intros q Hq.
  assert (Hd' : msize (drop (Z.to_nat q) m) = msize m - q).
  { unfold msize in *. by rewrite zlen_drop by lia. }
  split; [|lia]. split; [by apply wf_drop|]. split; [unfold MIME_CACHE_MAX; lia|by apply Forall_drop].
Qed.

Lemma insert_ok answer m k v : cache_ok answer m → answer k v →
  cache_ok answer (mset k v (evictOldestHalf m).2).
Proof.
  intros Hm Hk. apply evict_ok in Hm as [(Hw & Hs & Ha) Hlt]. split; [by apply wf_mset|]. split.
  - destruct (decide (k ∈ mkeys (evictOldestHalf m).2)).
    + by rewrite msize_mset_old.
    + rewrite msize_mset_new by done. lia.
  - by apply Forall_mset.
Qed.

Lemma answer_get answer m k v : cache_ok answer m → mget k m = Some v → answer k v.
Proof. intros (_ & _ & Ha) Hg%mget_Some_elem. rewrite Forall_forall in Ha. by apply (Ha (k, v)). Qed.

Definition caches_ok (c : mime_caches) : Prop :=
  cache_ok (λ k v, v = mime_of (trim_dots k)) (mimeByText c) ∧
  cache_ok (λ k v, v = mime_from_extension_bytes k) (mimeStrCache c).

(** What mime_guess answers is ASCII. *)
Context (guess_ascii : ∀ s, ascii (mime_guess s)).

Lemma mime_ascii ext : ascii ext → ascii (mime_from_extension_bytes ext).
Proof.
  intros Ha. rewrite mime_by_key by done. unfold mime_of. destruct (mget _ MIME_TABLE) as [m|] eqn:E; [|done].
  apply mget_Some_elem in E. revert E. generalize (trim_dots (normalizeExt ext)). intros k E.
  assert (Ht : Forall (λ p : list Z * list Z, ascii p.2) MIME_TABLE) by (apply (bool_decide_unpack _); vm_compute; exact I).
  rewrite Forall_forall in Ht. by apply (Ht (k, m)).
Qed.

Lemma cached_run flag ext c : caches_ok c → ascii ext →
  ∃ c', cachedMime flag ext c = (Ok (mime_from_extension_bytes ext), c') ∧ caches_ok c'.
Proof.
  intros [Hb Hs] Ha. unfold cachedMime. destruct flag; cbn [negb]; [|by exists c].
  destruct (mget (normalizeExt ext) (mimeByText c)) as [v|] eqn:E.
  - exists c. pose proof (answer_get _ _ _ _ Hb E) as Hv. cbn in Hv. subst v. by rewrite mime_by_key.
  - eexists. split; [done|]. split; [|done]. apply insert_ok; [done|]. by apply mime_by_key.
Qed.

Lemma lookup_run l c : caches_ok c → plain_ext (l_ext l) →
  ∃ c', run_lookup l c = (Ok (mime_from_extension_bytes (l_ext l)), c') ∧ caches_ok c'.
Proof.
  destruct l as [text ffi flag ext]. cbn [l_ext]. intros Hc Hp. pose proof (plain_ascii ext Hp) as Ha.
  unfold run_lookup. cbn [l_text l_ffi l_cache l_ext]. destruct text.
  - unfold text_mimeFromExtension. destruct (mget ext (mimeStrCache c)) as [v|] eqn:E.
    { exists c. pose proof (answer_get _ _ _ _ (proj2 Hc) E) as Hv. cbn in Hv. by subst v. }
    assert (Hr : ∃ c', (if ffi then mret (ffi_mimeFromExtension ext)
               else b ← cachedMime flag (encodeUtf8 ext); mret (decodeUtf8 b)) c =
               (Ok (mime_from_extension_bytes ext), c') ∧ caches_ok c').
    { destruct ffi.
      - exists c. split; [|done]. unfold ffi_mimeFromExtension. by rewrite plain_arg.
      - rewrite ascii_encode by done. destruct (cached_run flag ext c Hc Ha) as (c' & E' & Hc').
        exists c'. split; [|done]. rewrite (se_bind_Ok _ _ _ _ _ E').
        by rewrite ascii_decode by by apply mime_ascii. }
    destruct Hr as (c' & -> & [Hb Hs]). eexists. split; [done|]. split; [done|]. cbn. by apply insert_ok.
  - unfold scalar_mimeFromExtension. destruct ffi; [|by apply cached_run].
    exists c. split; [|done]. rewrite ascii_decode by done. rewrite (proj1 (plain_no_nul ext Hp)).
    unfold ffi_mimeFromExtension. by rewrite plain_arg.
Qed.

(** C26. Looking up the type of an extension: over any sequence of lookups of ASCII
    extensions, on strings or bytes, through either binding, with the cache on or off and
    starting from empty caches, each returns what the native lookup answers for that
    extension, and neither cache ever holds more than 1024 entries. *)
Theorem mime_lookups_exact (ls : list lookup) :
  Forall (λ l, plain_ext (l_ext l)) ls →
  ∃ c, attempts (run_lookup <$> ls) (MimeCaches [] []) =
         ((λ l, Ok (mime_from_extension_bytes (l_ext l))) <$> ls, c) ∧
    msize (mimeByText c) ≤ MIME_CACHE_MAX ∧ msize (mimeStrCache c) ≤ MIME_CACHE_MAX.
Proof.
  intros Hls. assert (Hrun : ∀ c0, caches_ok c0 → ∃ c, attempts (run_lookup <$> ls) c0 =
         ((λ l, Ok (mime_from_extension_bytes (l_ext l))) <$> ls, c) ∧ caches_ok c).
  { induction Hls as [|l ls Hl Hls IH]; intros c0 Hc0; [by exists c0|].
    destruct (lookup_run l c0 Hc0 Hl) as (c1 & E1 & Hc1). destruct (IH c1 Hc1) as (c2 & E2 & Hc2).
    exists c2. split; [|done]. cbn [fmap list_fmap attempts]. by rewrite E1, E2. }
  destruct (Hrun (MimeCaches [] [])) as (c & E & (_ & Hb & _) & _ & Hs & _).
  { repeat split; try constructor; by vm_compute. }
  by exists c.
Qed.

End mime.

(** Outside ASCII the key does not decide the answer: Node's decoder drops a byte-order mark
    that the native lookup keeps, so the answer for one extension is stored under another,
    for every caller of the process.  And a string with a NUL is looked up by its prefix. *)
Definition plain_host : MimeHost.
Proof. refine {| mime_guess := λ _, OCTET_STREAM; lowerCase := toLowerCase |}. done. Defined.

Lemma mime_cache_poisoned :
  (attempts ((λ ext, @scalar_mimeFromExtension node_codec plain_host false true ext) <$>
     [[0xEF; 0xBB; 0xBF] ++ js "js"; js "js"]) (MimeCaches [] [])).1 = [Ok OCTET_STREAM; Ok OCTET_STREAM] ∧
  @mime_from_extension_bytes plain_host (js "js") = js "text/javascript".
Proof. split; vm_compute; reflexivity. Qed.

Lemma mime_text_prefix :
  (@text_mimeFromExtension bun_codec plain_host true true (js "html" ++ [0] ++ js "x") (MimeCaches [] [])).1 = Ok (js "text/html") ∧
  @mime_from_extension_bytes plain_host (encodeUtf8 (js "html" ++ [0] ++ js "x")) = OCTET_STREAM.
Proof. split; vm_compute; reflexivity. Qed.

(** ** HMAC signers

    [new addon.HmacSigner(key)] copies the key, so a signer is the key it was made of;
    [hmac] is the hexadecimal tag and [hmac_verify] the comparison of the native core. *)

Section signers.
Context (hmac : list Z → list Z → list Z) (hmac_verify : list Z → list Z → list Z → bool).

(** The buffers of the application, and of one context its toggle and its [WeakMap]. *)
Record hmac_state := HState {
  mem : list (list Z); hmacCache : bool; hmacSigners : list (nat * list Z) }.

Definition hmacSigner (key : nat) : SE hmac_state (list Z) := λ s,
  let now := default [] (mem s !! key) in
  if negb (hmacCache s) then (Ok now, s)
  else
    match mget key (hmacSigners s) with
    | Some signer => (Ok signer, s)
    | None => (Ok now, HState (mem s) (hmacCache s) (mset key now (hmacSigners s)))
    end.

(** hashing.ts, without bun:ffi and with it; Bun's built-in hash, which goes first where it
    exists, gets the bytes of the key like the binding. *)
Definition hmacSha256 (ffi : bool) (key : nat) (data : list Z) : SE hmac_state (list Z) :=
  if ffi then gets (λ s, hmac (default [] (mem s !! key)) data)
  else signer ← hmacSigner key; mret (hmac signer data).
Definition hmacSha256Verify (ffi : bool) (key : nat) (data sig : list Z) : SE hmac_state bool :=
  if ffi then gets (λ s, hmac_verify (default [] (mem s !! key)) data sig)
  else signer ← hmacSigner key; mret (hmac_verify signer data sig).

(** What the application does with a client and its buffers. *)
Inductive hmac_op :=
  | Sign (key : nat) (data : list Z)
  | Verify (key : nat) (data sig : list Z)
  | Configure (cache : bool)
  | Write (key : nat) (bytes : list Z).         (* in place *)

Definition run_hmac (ffi : bool) (o : hmac_op) : SE hmac_state (list Z + bool) :=
  match o with
  | Sign key data => t ← hmacSha256 ffi key data; mret (inl t)
  | Verify key data sig => b ← hmacSha256Verify ffi key data sig; mret (inr b)
  | Configure cache => modify (λ s, HState (mem s) cache (hmacSigners s)) ;; mret (inr true)
  | Write key bytes => modify (λ s, HState (<[key := bytes]> (mem s)) (hmacCache s) (hmacSigners s)) ;; mret (inr true)
  end.

(** The same with what the buffers hold at the time of the call. *)
Definition hmac_spec (m : list (list Z)) (o : hmac_op) : (list Z + bool) * list (list Z) :=
  match o with
  | Sign key data => (inl (hmac (default [] (m !! key)) data), m)
  | Verify key data sig => (inr (hmac_verify (default [] (m !! key)) data sig), m)
  | Configure _ => (inr true, m)
  | Write key bytes => (inr true, <[key := bytes]> m)
  end.
Fixpoint hmac_specs (m : list (list Z)) (os : list hmac_op) : list (result (list Z + bool)) :=
  match os with
  | [] => []
  | o :: os => let '(r, m) := hmac_spec m o in Ok r :: hmac_specs m os
  end.

(** No buffer is written to, with other bytes, after it served as a key while signers are
    kept; [used] are the keys so far and [cache] the toggle. *)
Fixpoint keys_settled (cache : bool) (used : list nat) (m : list (list Z)) (os : list hmac_op) : Prop :=
  match os with
  | [] => True
  | Sign key _ :: os | Verify key _ _ :: os => keys_settled cache (if cache then key :: used else used) m os
  | Configure cache :: os => keys_settled cache used m os
  | Write key bytes :: os => (key ∈ used → m !! key = Some bytes) ∧ keys_settled cache used (<[key := bytes]> m) os
  end.

(** The signers kept are those of used keys, made of what the buffers hold. *)
Definition signers_ok (used : list nat) (s : hmac_state) : Prop :=
  ∀ key signer, mget key (hmacSigners s) = Some signer → key ∈ used ∧ signer = default [] (mem s !! key).

Lemma signer_run key used s : signers_ok used s →
  ∃ s', hmacSigner key s = (Ok (default [] (mem s !! key)), s') ∧ mem s' = mem s ∧ hmacCache s' = hmacCache s ∧
    signers_ok (if hmacCache s then key :: used else used) s'.
Proof.
  intros Hs. unfold hmacSigner. destruct (hmacCache s) eqn:Ec; cbn [negb]; [|by exists s].
  destruct (mget key (hmacSigners s)) as [signer|] eqn:E.
  - destruct (Hs key signer E) as [_ ->]. exists s. repeat split; try done.
    + destruct (Hs _ _ H). by right.
    + by destruct (Hs _ _ H).
  - eexists. split; [done|]. split; [done|]. split; [done|]. intros k signer. cbn [hmacSigners mem].
    destruct (decide (k = key)) as [->|Hk].
    + rewrite mget_mset_eq. intros [= <-]. split; [by left|done].
    + rewrite mget_mset_ne by done. intros Hg. destruct (Hs _ _ Hg) as [? ->]. split; [by right|done].
Qed.

Lemma hmac_step ffi o os used s : signers_ok used s → keys_settled (hmacCache s) used (mem s) (o :: os) →
  ∃ s' used', run_hmac ffi o s = (Ok (hmac_spec (mem s) o).1, s') ∧ mem s' = (hmac_spec (mem s) o).2 ∧
    signers_ok used' s' ∧ keys_settled (hmacCache s') used' (mem s') os.
Proof.
  intros Hs Hset.
  assert (Hkey : ∀ key, ∃ s', hmacSigner key s = (Ok (default [] (mem s !! key)), s') ∧ mem s' = mem s ∧
    hmacCache s' = hmacCache s ∧ signers_ok (if hmacCache s then key :: used else used) s')
    by (intros key; by apply signer_run).
  assert (Hmore : ∀ key, signers_ok (if hmacCache s then key :: used else used) s).
  { intros key k signer Hg. destruct (Hs _ _ Hg). split; [|done]. destruct (hmacCache s); [by right|done]. }
  destruct o as [key data|key data sig|cache|key bytes]; cbn [run_hmac hmac_spec fst snd keys_settled] in *.
  - destruct ffi; [by exists s, (if hmacCache s then key :: used else used)|].
    destruct (Hkey key) as (s' & E & Hm & Hc & Hok). exists s', (if hmacCache s then key :: used else used).
    unfold hmacSha256. rewrite (se_bind_Ok (_ ← _; _) _ s (hmac (default [] (mem s !! key)) data) s')
      by (by rewrite (se_bind_Ok _ _ _ _ _ E)). by rewrite Hm, Hc.
  - destruct ffi; [by exists s, (if hmacCache s then key :: used else used)|].
    destruct (Hkey key) as (s' & E & Hm & Hc & Hok). exists s', (if hmacCache s then key :: used else used).
    unfold hmacSha256Verify. rewrite (se_bind_Ok (_ ← _; _) _ s (hmac_verify (default [] (mem s !! key)) data sig) s')
      by (by rewrite (se_bind_Ok _ _ _ _ _ E)). by rewrite Hm, Hc.
  - eexists _, used. split; [done|]. by split.
  - destruct Hset as [Hw Hset]. eexists _, used. split; [done|]. split; [done|]. split; [|done].
    intros k signer Hg. destruct (Hs k signer Hg) as [Hin ->]. split; [done|]. cbn [mem].
    destruct (decide (k = key)) as [->|Hne]; [|by rewrite list_lookup_insert_ne].
    specialize (Hw Hin). rewrite Hw. by rewrite (list_insert_id _ _ _ Hw), Hw.
Qed.

(** Keeping signers does not show as long as no key buffer is overwritten with other
    bytes after its use: over any sequence of signing, verifying, toggling and writing, with
    either binding, each result is computed with the key the buffer holds at the call. *)
Theorem hmac_signers_exact (ffi : bool) (m : list (list Z)) (cache : bool) (os : list hmac_op) :
  keys_settled cache [] m os →
  (attempts (run_hmac ffi <$> os) (HState m cache [])).1 = hmac_specs m os.
Proof.
  intros Hset. assert (Hs : signers_ok [] (HState m cache [])) by done.
  change m with (mem (HState m cache [])) at 2. change m with (mem (HState m cache [])) in Hset.
  change cache with (hmacCache (HState m cache [])) in Hset at 1.
  revert Hs Hset. generalize (HState m cache []), (@nil nat). clear m cache.
  induction os as [|o os IH]; intros s used Hs Hset; [done|].
  destruct (hmac_step ffi o os used s Hs Hset) as (s' & used' & E & Hm & Hs' & Hset').
  cbn [fmap list_fmap attempts hmac_specs]. rewrite E. specialize (IH s' used' Hs' Hset').
  destruct (attempts (run_hmac ffi <$> os) s') as [rs s2]. cbn [fst] in *. rewrite IH, Hm.
  by destruct (hmac_spec (mem s) o).
Qed.

(** Overwriting a key in place, to rotate or erase it, has no effect without bun:ffi: the
    old key goes on signing and its tags stay valid. *)
Lemma hmac_stale_key k k' data :
  (attempts (run_hmac false <$> [Sign 0 data; Write 0 k'; Sign 0 data; Verify 0 data (hmac k data)]) (HState [k] true [])).1 =
    [Ok (inl (hmac k data)); Ok (inr true); Ok (inl (hmac k data)); Ok (inr (hmac_verify k data (hmac k data)))].
Proof. done. Qed.

End signers.

(** ** The thread pool

    A number of threads that is absent or not finite is [None].  [max_threads] and
    [preferred] are what the native core reads from its environment, and [built] is whether
    the operating system gives the threads. *)

Definition positive (n : option Q) : option Q :=
  match n with Some q => if Qle_bool q 0 then None else Some q | None => None end.

Definition resolveRayonThreads (cores : Z) (env explicit : option Q) : Z :=
  match positive explicit with
  | Some q => Z.max 1 (Z.min cores (Qfloor q))
  | None =>
      match positive env with
      | Some q => Z.max 1 (Z.min cores (Qfloor q))
      | None => Z.max 1 (cores - 1)
      end
  end.

(** Process-wide: the [OnceLock] of the pool, with its threads and whether they could be
    built, and the resolved functions; per context: the flag and the intent. *)
Record pool_context := PContext { poolInitialized : bool; pendingThreads : option Q }.
Record pool_world := PWorld {
  pool : option (Z * bool); nativeFnCache : list string; contexts : list pool_context }.

Section pools.
Context (cores : Z) (env : option Q) (max_threads preferred : Z) (built : Z → bool).

(** threadpool.rs: [init_thread_pool]. *)
Definition init_thread_pool (rayon_threads : option Z) : SE pool_world unit := λ w,
  let '(p, w) := match pool w with
                 | Some p => (p, w)
                 | None =>
                     let threads := Z.min (Z.max (default preferred rayon_threads) 1) (Z.max max_threads 1) in
                     let p := (threads, built threads) in
                     (p, PWorld (Some p) (nativeFnCache w) (contexts w))
                 end in
  if p.2 : bool then (Ok tt, w) else (Throw (js_Error "thread pool"), w).

Definition set_context (i : nat) (c : pool_context) : SE pool_world unit :=
  modify (λ w, PWorld (pool w) (nativeFnCache w) (<[i := c]> (contexts w))).

Definition context (i : nat) (w : pool_world) : pool_context :=
  default (PContext false None) (contexts w !! i).

(** context.ts: [createContext], [ensurePool] and the accessors.  The functions that are
    resolved exist: one that does not is looked up again at every call. *)
Definition createContext (rayonThreads : option Q) : SE pool_world unit :=
  modify (λ w, PWorld (pool w) (nativeFnCache w) (contexts w ++ [PContext false rayonThreads])).

Definition ensurePool (i : nat) : SE pool_world unit :=
  c ← gets (context i);
  if poolInitialized c then mret tt
  else
    set_context i (PContext true (pendingThreads c)) ;;
    init_thread_pool (Some (resolveRayonThreads cores env (pendingThreads c))).

Definition resolvePoolNative (i : nat) (name : string) : SE pool_world unit :=
  cache ← gets nativeFnCache;
  if decide (name ∈ cache) then mret tt
  else ensurePool i ;; modify (λ w, PWorld (pool w) (name :: nativeFnCache w) (contexts w)).

(** client.ts: [configure]; factories.ts: [initThreadPool]. *)
Definition configure (i : nat) (rayonThreads : option (option Q)) : SE pool_world unit :=
  c ← gets (context i);
  match rayonThreads with
  | Some n => if poolInitialized c then mret tt else set_context i (PContext (poolInitialized c) n)
  | None => mret tt
  end.

Definition initThreadPool (i : nat) (threads : option Z) : SE pool_world unit :=
  c ← gets (context i);
  set_context i (PContext true (match threads with Some t => Some (inject_Z t) | None => pendingThreads c end)) ;;
  init_thread_pool threads.

Inductive pool_op :=
  | Create (rayonThreads : option Q)
  | Reconfigure (i : nat) (rayonThreads : option (option Q))
  | Init (i : nat) (threads : option Z)
  | UsePool (i : nat) (name : string).

Definition run_pool (o : pool_op) : SE pool_world unit :=
  match o with
  | Create n => createContext n
  | Reconfigure i n => configure i n
  | Init i t => initThreadPool i t
  | UsePool i name => resolvePoolNative i name
  end.

Definition new_world : pool_world := PWorld None [] [].

(** Every resolved pool function, and every context that says so, finds the pool set up;
    and the number of threads is within its bounds. *)
Record pool_inv (w : pool_world) : Prop := {
  inv_resolved : nativeFnCache w ≠ [] → is_Some (pool w);
  inv_flag : ∀ i c, contexts w !! i = Some c → poolInitialized c = true → is_Some (pool w);
  inv_bounds : ∀ p, pool w = Some p → 1 ≤ p.1 ≤ Z.max max_threads 1 ∧ p.2 = built p.1 }.

Definition pool_kept (w w' : pool_world) : Prop := ∀ p, pool w = Some p → pool w' = Some p.

(** [init_thread_pool] sets the pool up if nothing did so before. *)
Lemma init_runs n w : ∃ p w', init_thread_pool n w = (if p.2 : bool then Ok tt else Throw (js_Error "thread pool"), w') ∧
  pool w' = Some p ∧ pool_kept w w' ∧ contexts w' = contexts w ∧ nativeFnCache w' = nativeFnCache w ∧
  (pool w = None → p.1 = Z.min (Z.max (default preferred n) 1) (Z.max max_threads 1) ∧ p.2 = built p.1).
Proof.
  destruct w as [[[t b]|] cache cs].
  - exists (t, b), (PWorld (Some (t, b)) cache cs). split; [by destruct b|]. by split; [|split; [intros ?|]].
  - set (t := Z.min (Z.max (default preferred n) 1) (Z.max max_threads 1)).
    exists (t, built t), (PWorld (Some (t, built t)) cache cs). split.
    + unfold init_thread_pool. cbn [pool nativeFnCache contexts]. fold t. cbn [snd]. by destruct (built t).
    + by split; [|split; [intros ?|]].
Qed.

Lemma pool_init_inv n w : (∀ p, pool w = Some p → 1 ≤ p.1 ≤ Z.max max_threads 1 ∧ p.2 = built p.1) →
  ∃ r w', init_thread_pool n w = (r, w') ∧ pool_inv w' ∧ pool_kept w w' ∧ is_Some (pool w').
Proof.
  intros Hb. destruct (init_runs n w) as (p & w' & E & Hp & Hk & Hc & Hn & Hnew).
  eexists _, w'. split; [exact E|]. split; [|split; [done|by rewrite Hp]]. split; rewrite ?Hp; [by eauto..|].
  intros ? [= <-]. destruct (pool w) as [q|] eqn:Eq.
  - pose proof (Hk q Eq) as Hq. rewrite Hp in Hq. injection Hq as ->. by apply Hb.
  - destruct (Hnew eq_refl) as [H1 H2]. split; [rewrite H1; lia|done].
Qed.

Lemma set_inv w i c : pool_inv w → (poolInitialized c = true → is_Some (pool w)) →
  pool_inv (PWorld (pool w) (nativeFnCache w) (<[i := c]> (contexts w))).
Proof.
  intros [Hr Hf Hb] Hc. split; [done| |done]. cbn. intros j c' Hl Hp.
  apply list_lookup_insert_Some in Hl as [(-> & -> & _)|[_ Hl]]; [by apply Hc|by eapply Hf].
Qed.

Lemma context_flag i w : pool_inv w → poolInitialized (context i w) = true → is_Some (pool w).
Proof.
  intros [_ Hf _]. unfold context. destruct (contexts w !! i) as [c|] eqn:E; [by apply (Hf i)|done].
Qed.

Lemma ensure_step i w : pool_inv w →
  ∃ r w', ensurePool i w = (r, w') ∧ pool_inv w' ∧ pool_kept w w' ∧ is_Some (pool w').
Proof.
  intros Hw. unfold ensurePool, gets, mbind, SE_bind.
  destruct (poolInitialized (context i w)) eqn:E.
  - exists (Ok tt), w. split; [done|]. split; [done|]. split; [by intros ?|]. by eapply context_flag.
  - destruct (pool_init_inv (Some (resolveRayonThreads cores env (pendingThreads (context i w))))
      (PWorld (pool w) (nativeFnCache w) (<[i := PContext true (pendingThreads (context i w))]> (contexts w))))
      as (r & w' & E' & Hi & Hk & Hp); [apply Hw|]. by exists r, w'.
Qed.

Lemma pool_step o w : pool_inv w →
  ∃ r w', run_pool o w = (r, w') ∧ pool_inv w' ∧ pool_kept w w' ∧
    match o with Init _ _ | UsePool _ _ => is_Some (pool w') | _ => True end.
Proof.
  intros Hw. assert (Hk : pool_kept w w) by by intros ?.
  destruct o as [n|i n|i t|i name]; cbn [run_pool].
  - eexists _, _. split; [done|]. split; [|by split]. destruct Hw as [Hr Hf Hb]. split; [done| |done]. cbn.
    intros i c [Hl|[_ Hl]]%lookup_app_Some Hp; [by eapply Hf|].
    apply list_lookup_singleton_Some in Hl as [_ <-]. done.
  - unfold configure, gets, mbind, SE_bind. destruct n as [n|]; [|by exists (Ok tt), w].
    destruct (poolInitialized (context i w)) eqn:E; [by exists (Ok tt), w|].
    eexists _, _. split; [done|]. split; [|by split]. apply set_inv; [done|]. done.
  - unfold initThreadPool, gets, set_context, modify, mbind, SE_bind.
    destruct (pool_init_inv t (PWorld (pool w) (nativeFnCache w)
      (<[i := PContext true (match t with Some t => Some (inject_Z t) | None => pendingThreads (context i w) end)]> (contexts w))))
      as (r & w' & E' & Hi & Hk' & Hp); [apply Hw|]. by exists r, w'.
  - unfold resolvePoolNative. rewrite (se_bind_Ok (gets nativeFnCache) _ w (nativeFnCache w) w eq_refl).
    case_decide as Hin.
    { exists (Ok tt), w. split; [done|]. split; [done|]. split; [done|]. apply Hw. intros E. rewrite E in Hin. by apply elem_of_nil in Hin. }
    destruct (ensure_step i w Hw) as (r & w' & E & Hi & Hk' & Hp).
    destruct r as [[]|e].
    + rewrite (se_bind_Ok _ _ _ _ _ E). eexists _, _. split; [done|]. split; [|by split].
      destruct Hi as [Hr Hf Hb]. by split.
    + rewrite (se_bind_Throw _ _ _ _ _ E). by exists (Throw e), w'.
Qed.

Lemma attempts_app {S A} (ms ms' : list (SE S A)) (s : S) :
  attempts (ms ++ ms') s =
    let '(rs, s1) := attempts ms s in let '(rs', s2) := attempts ms' s1 in (rs ++ rs', s2).
Proof.
  revert s. induction ms as [|m ms IH]; intros s; cbn [attempts app]; [by destruct (attempts ms' s)|].
  destruct (m s) as [r s1]. rewrite IH. destruct (attempts ms s1) as [rs s2]. by destruct (attempts ms' s2).
Qed.

Lemma pool_steps os : ∀ w, pool_inv w →
  pool_inv (attempts (run_pool <$> os) w).2 ∧ pool_kept w (attempts (run_pool <$> os) w).2.
Proof.
  induction os as [|o os IH]; intros w Hw; [by split; [|intros ?]|].
  destruct (pool_step o w Hw) as (r & w1 & E & Hi & Hk & _). destruct (IH w1 Hi) as [Hi' Hk'].
  cbn [fmap list_fmap attempts]. rewrite E. destruct (attempts (run_pool <$> os) w1) as [rs w2]. cbn in *.
  split; [done|]. intros p Hp. by apply Hk', Hk.
Qed.

Lemma new_world_inv : pool_inv new_world.
Proof. by split. Qed.

(** Configuring a client that has not used the pool. *)
Lemma configure_run i ns : ∀ w c, contexts w !! i = Some c → poolInitialized c = false →
  (attempts (run_pool <$> ((λ n, Reconfigure i (Some n)) <$> ns)) w).2 =
  PWorld (pool w) (nativeFnCache w) (<[i := PContext false (default (pendingThreads c) (last ns))]> (contexts w)).
Proof.
  induction ns as [|n ns IH]; intros w c Hc Hp.
  - destruct w as [p cache cs], c as [b pt]. cbn in *. subst. by rewrite list_insert_id.
  - cbn [fmap list_fmap attempts run_pool]. unfold configure at 1, gets at 1, mbind at 1, SE_bind at 1.
    unfold context. rewrite Hc. cbn [default from_option id]. rewrite Hp. unfold set_context, modify.
    specialize (IH (PWorld (pool w) (nativeFnCache w) (<[i := PContext false n]> (contexts w))) (PContext false n)).
    destruct (attempts _ _) as [rs w'] eqn:E. cbn [snd] in *. rewrite IH.
    + cbn. rewrite list_insert_insert_eq, last_cons. by destruct (last ns).
    + cbn. apply list_lookup_insert_eq. by eapply lookup_lt_Some.
    + done.
Qed.

(** The pool, over any history of clients being made, configured and used, with
    exceptions for threads that could not be started: it is set up when the first function
    that needs it is resolved or when asked for, whichever client does it; from then on
    nothing changes it; it has between one and the maximal number of threads; and for a
    client that is the first to use it, configured any number of times before, the last
    number given decides. *)
Theorem pool_set_once (os later : list pool_op) (first : pool_op)
    (i : nat) (n0 : option Q) (ns : list (option Q)) (name : string) :
  let w := (attempts (run_pool <$> os) new_world).2 in
  let w1 := (run_pool first w).2 in
  let w2 := (attempts (run_pool <$> later) w1).2 in
  (match first with Init _ _ | UsePool _ _ => is_Some (pool w1) | _ => True end) ∧
  (∀ p, pool w1 = Some p → pool w2 = Some p ∧ 1 ≤ p.1 ≤ Z.max max_threads 1) ∧
  (i = length (contexts w) → pool w = None →
   let fresh := (attempts (run_pool <$> Create n0 :: ((λ n, Reconfigure i (Some n)) <$> ns) ++ [UsePool i name]) w).2 in
   ∃ p, pool fresh = Some p ∧
     p.1 = Z.min (Z.max (resolveRayonThreads cores env (default n0 (last ns))) 1) (Z.max max_threads 1)).
Proof.
  intros w w1 w2. pose proof (pool_steps os new_world new_world_inv) as [Hw _]. fold w in Hw.
  destruct (pool_step first w Hw) as (r & w1' & E & Hi & Hk & Hf).
  assert (E1 : w1 = w1') by (subst w1; by rewrite E). rewrite <-E1 in *. clear E1.
  destruct (pool_steps later w1 Hi) as [_ Hk2]. split; [done|]. split.
  { intros p Hp. split; [by apply Hk2|]. by apply (inv_bounds _ Hi). }
  intros Hlen Hnone fresh.
  assert (Hcache : nativeFnCache w = []).
  { destruct (nativeFnCache w) eqn:Ec; [done|]. destruct (inv_resolved _ Hw) as [p Hp]; [by rewrite Ec|]. congruence. }
  subst fresh. cbn [fmap list_fmap attempts run_pool]. unfold createContext, modify at 1.
  rewrite fmap_app, attempts_app.
  set (w3 := PWorld (pool w) (nativeFnCache w) (contexts w ++ [PContext false n0])).
  assert (Hi3 : contexts w3 !! i = Some (PContext false n0)) by (subst i; by apply list_lookup_middle).
  pose proof (configure_run i ns w3 (PContext false n0) Hi3 eq_refl) as Hc.
  destruct (attempts _ w3) as [rs w4]. cbn [snd] in Hc. subst w4. cbn [fmap list_fmap attempts run_pool].
  unfold resolvePoolNative, ensurePool, gets, mbind, SE_bind. cbn [pool nativeFnCache contexts w3].
  rewrite Hcache. rewrite decide_False by apply not_elem_of_nil. unfold context. cbn [contexts].
  rewrite list_lookup_insert_eq by by eapply lookup_lt_Some. cbn [default from_option id poolInitialized pendingThreads].
  unfold set_context, modify. cbn [pool nativeFnCache contexts].
  match goal with |- context [init_thread_pool ?n ?w5] => destruct (init_runs n w5) as (p & w6 & -> & Hp & _ & _ & _ & Hnew) end.
  destruct (Hnew Hnone) as [Ht _]. exists p. split; [|exact Ht]. by destruct (p.2).
Qed.

End pools.

(** ** Witnesses *)

Lemma mime_lookups_exact_witness :
  (attempts (@run_lookup node_codec plain_host <$>
     [Lookup true false true (js "JS"); Lookup false true true (js "..html"); Lookup false false true (js ".js")])
     (MimeCaches [] [])).1 = [Ok (js "text/javascript"); Ok (js "text/html"); Ok (js "text/javascript")].
Proof.
  destruct (@mime_lookups_exact node_codec plain_host (λ _, ltac:(apply (bool_decide_unpack _); vm_compute; exact I))
    [Lookup true false true (js "JS"); Lookup false true true (js "..html"); Lookup false false true (js ".js")])
    as (c & E & _).
  - repeat apply Forall_cons_2; try apply Forall_nil_2; apply (bool_decide_unpack _); vm_compute; exact I.
  - exact (f_equal fst E).
Defined.

Lemma hmac_signers_exact_witness :
  (attempts (run_hmac app (λ k d s, bool_decide (s = k ++ d)) false <$>
     [Sign 0 [7]; Configure false; Write 1 [9]; Verify 1 [7] [9; 7]]) (HState [[1]; [2]] true [])).1 =
    [Ok (inl [1; 7]); Ok (inr true); Ok (inr true); Ok (inr true)].
Proof.
  transitivity (hmac_specs app (λ k d s, bool_decide (s = k ++ d)) [[1]; [2]]
    [Sign 0 [7]; Configure false; Write 1 [9]; Verify 1 [7] [9; 7]]); [|vm_compute; reflexivity].
  apply (hmac_signers_exact app (λ k d s, bool_decide (s = k ++ d)) false [[1]; [2]] true
    [Sign 0 [7]; Configure false; Write 1 [9]; Verify 1 [7] [9; 7]]).
  cbn. split; [|done]. intros Hin%list_elem_of_singleton. done.
Defined.

Lemma pool_set_once_witness :
  ∃ p, pool (attempts (run_pool 8 None 16 7 (λ _, true) <$>
      [Create None; Reconfigure 0 (Some (Some (3 # 1))); UsePool 0 "crc32BatchPacked"]) new_world).2 = Some p ∧ p.1 = 3.
Proof.
  exact (proj2 (proj2 (pool_set_once 8 None 16 7 (λ _, true) [] [] (Create None) 0 None [Some (3 # 1)] "crc32BatchPacked"))
    eq_refl eq_refl).
Defined.
