(* ===== verification/FormText.v ===== *)
(** What the query parser means in JavaScript: on text, the native form decoder and its
    splits are [decodeURIComponent] with a catch clause over [split] and [indexOf], which
    rust/util/bytes.rs states as its contract. *)

From stdpp Require Import base list strings.
From S2P Require Import Prelude.
From S2P Require Import Utf8.
From S2P Require Import JsObject.
From S2P Require Import JsString.
From S2P Require Import Wire.
From S2P Require Import StateErr.
From S2P Require Import FfiBuffer.
From S2P Require Import FfiCodecs.
From S2P Require Import PackedParsers.

(** ** The reference *)

(** [try { decodeURIComponent(s.replace(/\+/g, " ")) } catch { return s }]. *)
Definition plus_to_space (s : list Z) : list Z := (λ u, if decide (u = 43) then 32 else u) <$> s.
Definition js_component (s : list Z) : list Z :=
  match decodeURIComponent (plus_to_space s) with Ok t => t | Throw _ => s end.

(** Segments between [&], empty ones skipped, split at the first [=]. *)
Definition js_pair (segment : list Z) : option (list Z * list Z) :=
  if decide (segment = []) then None
  else let '(key, value) := split_eq segment in Some (js_component key, js_component value).
Definition js_pairs (q : list Z) : list (list Z * list Z) := omap js_pair (split 38 q).

(** ** Scalars as units and as bytes *)

Definition units (cs : list Z) : list Z := cs ≫= units_of_scalar.
Definition octets (cs : list Z) : list Z := cs ≫= utf8_of_scalar.

(** A bound state of the decoder: the range of the next octet is one of continuations. *)
Definition bound (st : Utf8.pending) : Prop :=
  match st with Some (_, need, lo, hi) => 128 ≤ lo ∧ hi ≤ 191 ∧ 1 ≤ need | None => True end.

Fixpoint strict (st : Utf8.pending) (bytes : list Z) : option (list Z) :=
  match bytes with
  | [] => match st with None => Some [] | Some _ => None end
  | b :: bytes =>
      match uri_octet st b with Some (out, st) => (out ++.) <$> strict st bytes | None => None end
  end.

Lemma valid_strict st b : valid_run st b = bool_decide (is_Some (strict st b)).
Proof.
  revert st. induction b as [|x b IH]; intros st; cbn [valid_run strict].
  - destruct st; [by rewrite !bool_decide_eq_false_2 by (try done; by intros [? ?])|].
    by rewrite !bool_decide_eq_true_2 by (try done; by eexists).
  - destruct (uri_octet st x) as [[o st']|]; [|by rewrite bool_decide_eq_false_2 by (by intros [? ?])].
    rewrite IH. apply bool_decide_ext. destruct (strict st' b); cbn; split; intros [? ?]; by eauto.
Qed.

Lemma start_out b out p : dec_start b = (out, Some p) → out = [] ∧ bound (Some p).
Proof.
  unfold dec_start. repeat case_decide; intros [= <- <-]; (split; [done|]); cbn; lia.
Qed.

Lemma start_none b out : b < 128 → dec_start b = (out, None) → out = [b].
Proof. intros Hb. unfold dec_start. rewrite decide_True by done. by intros [= <-]. Qed.

(** The strict decoder agrees with the replacing one where it succeeds. *)
Lemma strict_decodes b : ∀ st t, strict st b = Some t → dec_run st b ≫= units_of_scalar = t.
Proof.
  induction b as [|x b IH]; intros st t; cbn [strict dec_run].
  - destruct st; [done|]. by intros [= <-].
  - destruct st as [[[[cp need] lo] hi]|]; cbn [uri_octet].
    + case_decide; [|done]. case_decide; cbn [mbind].
      * destruct (strict None b) as [t'|] eqn:E; [|done]. intros [= <-].
        rewrite bind_cons. by rewrite (IH None t').
      * destruct (strict _ b) as [t'|] eqn:E; [|done]. intros [= <-]. cbn [app]. by apply IH.
    + destruct (dec_start x) as [o [p|]] eqn:Ed.
      * destruct (start_out x o p Ed) as [-> _]. destruct (strict (Some p) b) as [t'|] eqn:E; [|done].
        intros [= <-]. cbn [app]. by apply IH.
      * case_decide as Hx; [|done]. rewrite (start_none x o Hx Ed).
        destruct (strict None b) as [t'|] eqn:E; [|done]. intros [= <-].
        rewrite bind_app. rewrite (IH None t') by done. f_equal. cbn.
        unfold units_of_scalar. by rewrite decide_True by lia.
Qed.

Lemma fmap_app_nil (o : option (list Z)) : ([] ++.) <$> o = o.
Proof. by destruct o. Qed.

Lemma str_lead b p bs : dec_start b = ([], Some p) → strict None (b :: bs) = strict (Some p) bs.
Proof. intros Hb. cbn [strict uri_octet]. rewrite Hb. apply fmap_app_nil. Qed.

Lemma str_cont cp need lo hi b bs : lo ≤ b ≤ hi →
  strict (Some (cp, need, lo, hi)) (b :: bs) =
    if decide (need = 1) then (units_of_scalar (cp * 64 + (b - 0x80)) ++.) <$> strict None bs
    else strict (Some (cp * 64 + (b - 0x80), need - 1, 0x80, 0xBF)) bs.
Proof.
  intros Hb. cbn [strict uri_octet]. rewrite (decide_True (P := lo ≤ b ≤ hi)) by done.
  case_decide; [done|]. apply fmap_app_nil.
Qed.

Lemma str_scalar c bs : is_scalar c →
  strict None (utf8_of_scalar c ++ bs) = (units_of_scalar c ++.) <$> strict None bs.
Proof.
  unfold is_scalar, utf8_of_scalar. intros Hc. repeat case_decide; cbn [app].
  - cbn [strict uri_octet]. unfold dec_start. rewrite !(decide_True (P := c < 128)) by done.
    unfold units_of_scalar. by rewrite decide_True by lia.
  - rewrite (str_lead _ (c / 64, 1, 0x80, 0xBF)).
    + rewrite str_cont by zdm. rewrite decide_True by done. do 3 f_equal. zdm.
    + unfold dec_start. rewrite decide_False by zdm. rewrite decide_True by zdm. repeat f_equal; zdm.
  - set (lo := if decide (c / 4096 = 0) then 0xA0 else 0x80).
    set (hi := if decide (c / 4096 = 13) then 0x9F else 0xBF).
    rewrite (str_lead _ (c / 4096, 2, lo, hi)).
    + rewrite str_cont by (unfold lo, hi; repeat case_decide; zdm).
      rewrite decide_False by lia. rewrite str_cont by zdm. rewrite decide_True by lia. do 3 f_equal. zdm.
    + unfold dec_start, lo, hi. repeat case_decide; try (exfalso; zdm); repeat f_equal; zdm.
  - set (lo := if decide (c / 262144 = 0) then 0x90 else 0x80).
    set (hi := if decide (c / 262144 = 4) then 0x8F else 0xBF).
    rewrite (str_lead _ (c / 262144, 3, lo, hi)).
    + rewrite str_cont by (unfold lo, hi; repeat case_decide; zdm).
      do 2 (rewrite decide_False by lia; rewrite str_cont by zdm). rewrite decide_True by lia. do 3 f_equal. zdm.
    + unfold dec_start, lo, hi. repeat case_decide; try (exfalso; zdm); repeat f_equal; zdm.
Qed.

Lemma utf8_back cs : Forall is_scalar cs → utf8_toString (octets cs) = units cs.
Proof. intros Hcs. unfold utf8_toString, octets. by rewrite dec_scalars. Qed.

(** Scalars above ASCII: no unit and no byte of them has a meaning of its own. *)
Lemma units_high c : is_scalar c → 128 ≤ c → Forall (λ u, 128 ≤ u) (units_of_scalar c) ∧ units_of_scalar c ≠ [].
Proof.
  intros Hc Hh. unfold units_of_scalar, is_scalar in *.
  case_decide; (split; [repeat constructor; zdm|done]).
Qed.

Lemma octets_high c : is_scalar c → 128 ≤ c →
  ∃ b bs, utf8_of_scalar c = b :: bs ∧ 192 ≤ b ∧ Forall (λ b, 128 ≤ b) bs ∧ bs ≠ [].
Proof.
  intros Hc Hh. unfold utf8_of_scalar, is_scalar in *. rewrite decide_False by lia.
  repeat case_decide; eexists _, _; (split; [reflexivity|]); (split; [zdm|]); (split; [repeat constructor; zdm|done]).
Qed.

Lemma hex_val_high u : 128 ≤ u → hex_val u = None.
Proof. intros Hu. unfold hex_val. by rewrite !decide_False by lia. Qed.

Lemma plus_high u : Forall (λ u, 128 ≤ u) u → plus_to_space u = u.
Proof.
  unfold plus_to_space. induction 1 as [|x u Hx _ IH]; [done|]. cbn. rewrite decide_False by lia. by f_equal.
Qed.

Lemma dec_uri_high u s : Forall (λ u, 128 ≤ u) u → dec_uri None (u ++ s) = (u ++.) <$> dec_uri None s.
Proof.
  induction 1 as [|x u Hx _ IH]; [symmetry; apply fmap_app_nil|]. cbn [app dec_uri].
  rewrite decide_False by lia. rewrite IH. by destruct (dec_uri None s).
Qed.

Lemma unform_high b s : Forall (λ b, 128 ≤ b) b → unform (b ++ s) = (b ++.) <$> unform s.
Proof.
  induction 1 as [|x b Hx _ IH]; [symmetry; apply fmap_app_nil|]. cbn [app unform].
  rewrite !decide_False by lia. rewrite IH. by destruct (unform s).
Qed.

(** A literal octet ends no pending sequence. *)
Lemma octet_breaks st p b bs : bound st → st = Some p → b < 128 ∨ 192 ≤ b → strict st (b :: bs) = None.
Proof.
  intros Hb -> Hr. destruct p as [[[cp need] lo] hi]. cbn in Hb. cbn [strict uri_octet].
  by rewrite decide_False by lia.
Qed.

Lemma octet_bound st b o st' : bound st → uri_octet st b = Some (o, st') → bound st'.
Proof.
  intros Hb. destruct st as [[[[cp need] lo] hi]|]; cbn [uri_octet].
  - case_decide; [|done]. case_decide; intros [= <- <-]; cbn in *; lia.
  - destruct (dec_start b) as [out [p|]] eqn:Ed; [|case_decide; intros [= <- <-]; done].
    intros [= <- <-]. by destruct (start_out b out p Ed).
Qed.

Lemma units_cons c cs : units (c :: cs) = units_of_scalar c ++ units cs.
Proof. apply bind_cons. Qed.
Lemma octets_cons c cs : octets (c :: cs) = utf8_of_scalar c ++ octets cs.
Proof. apply bind_cons. Qed.
Lemma units_ascii c : c < 128 → units_of_scalar c = [c].
Proof. intros Hc. unfold units_of_scalar. by rewrite decide_True by lia. Qed.
Lemma octets_ascii c : c < 128 → utf8_of_scalar c = [c].
Proof. intros Hc. unfold utf8_of_scalar. by rewrite decide_True by lia. Qed.
Lemma plus_app s t : plus_to_space (s ++ t) = plus_to_space s ++ plus_to_space t.
Proof. apply fmap_app. Qed.

(** The first unit and the first octet of a text agree on being a hexadecimal digit. *)
Lemma first_hex c cs : is_scalar c →
  ∃ u us b bs, plus_to_space (units (c :: cs)) = u :: us ∧ octets (c :: cs) = b :: bs ∧
    hex_val u = hex_val b ∧
    (hex_val b ≠ None → us = plus_to_space (units cs) ∧ bs = octets cs).
Proof.
  intros Hc. rewrite units_cons, octets_cons, plus_app. destruct (decide (c < 128)) as [Ha|Ha].
  - rewrite units_ascii, octets_ascii by done. cbn. eexists _, _, _, _. split_and!; [done|done| |done].
    case_decide; [subst|]; done.
  - destruct (units_high c Hc ltac:(lia)) as [Hu Hne]. rewrite plus_high by done.
    destruct (octets_high c Hc ltac:(lia)) as (b & bs & -> & Hb & _).
    destruct (units_of_scalar c) as [|u us]; [done|]. inversion_clear Hu.
    eexists _, _, _, _. split_and!; [done|done| |]; rewrite !hex_val_high by lia; done.
Qed.

Lemma hex_pair_val hi lo : hex_pair hi lo =
  match hex_val hi, hex_val lo with Some a, Some b => Some (a * 16 + b) | _, _ => None end.
Proof.
  unfold hex_pair. destruct (hex_val hi) as [a|]; [|done]. cbn [mbind option_bind].
  destruct (hex_val lo) as [b|] eqn:E; [|done]. cbn [mbind option_bind]. f_equal.
  assert (0 ≤ b < 2 ^ 4) by (unfold hex_val in E; repeat case_decide; simplify_eq; lia).
  rewrite Z.lor_comm, lor_shift by lia. lia.
Qed.

Lemma bind_fmap_cons (o : option (list Z)) x st :
  ((x ::.) <$> o) ≫= strict st = match uri_octet st x with
    | Some (out, st') => (out ++.) <$> (o ≫= strict st') | None => None end.
Proof.
  destruct o as [b|]; cbn [fmap option_fmap option_map mbind option_bind strict]; [done|].
  by destruct (uri_octet st x) as [[? ?]|].
Qed.

(** The percent decoder of a string is the strict UTF-8 decoder of the percent-decoded
    bytes of its encoding, pluses included. *)
Lemma uri_run n : ∀ cs st, (length cs ≤ n)%nat → Forall is_scalar cs → bound st →
  dec_uri st (plus_to_space (units cs)) = unform (octets cs) ≫= strict st.
Proof.
  induction n as [|n IH]; intros cs st Hn Hcs Hst.
  { destruct cs; [by destruct st|cbn in Hn; lia]. }
  destruct Hcs as [|c cs Hc Hcs]; [by destruct st|]. rewrite length_cons in Hn.
  rewrite units_cons, octets_cons, plus_app.
  destruct (decide (c < 128)) as [Ha|Ha]; cycle 1.
  { destruct (units_high c Hc ltac:(lia)) as [Hu Hne].
    destruct (octets_high c Hc ltac:(lia)) as (b & bs & Eb & Hb & Hbs & Hbne).
    rewrite plus_high by done.
    assert (Hall : Forall (λ b, 128 ≤ b) (utf8_of_scalar c)) by (rewrite Eb; constructor; [lia|done]).
    rewrite unform_high by done. destruct st as [p|].
    - destruct (units_of_scalar c) as [|u us]; [done|]. inversion_clear Hu. cbn [app dec_uri].
      rewrite decide_False by lia. destruct (unform (octets cs)) as [b'|]; [|done].
      cbn [fmap option_fmap option_map mbind option_bind]. rewrite Eb. cbn [app].
      by rewrite (octet_breaks (Some p) p) by (try done; lia).
    - rewrite dec_uri_high, IH by (done || lia). destruct (unform (octets cs)) as [b'|]; [|done].
      cbn [fmap option_fmap option_map mbind option_bind]. by rewrite str_scalar. }
  rewrite units_ascii, octets_ascii by done. cbn [plus_to_space fmap list_fmap app].
  destruct (decide (c = 37)) as [->|H37].
  - rewrite decide_False by lia. cbn [dec_uri unform]. rewrite (decide_True (P := 37 = 37)) by done.
    rewrite (decide_False (P := 37 = 43)), (decide_True (P := 37 = 37)) by lia.
    destruct Hcs as [|d cs Hd Hcs]; [by destruct st|].
    destruct (first_hex d cs Hd) as (u & us & b & bs & Eu & Eb & Eh & Er). fold (plus_to_space (units (d :: cs))).
    rewrite Eu, Eb. destruct (hex_val b) as [vd|] eqn:Ed.
    2: { destruct us; destruct bs; rewrite ?hex_pair_val, ?Eh, ?Ed; done. }
    destruct Er as [-> ->]; [done|].
    destruct Hcs as [|e cs He Hcs]; [done|].
    destruct (first_hex e cs He) as (u2 & us2 & b2 & bs2 & Eu2 & Eb2 & Eh2 & Er2).
    rewrite Eu2, Eb2, Eh, Eh2, hex_pair_val, Ed. destruct (hex_val b2) as [ve|] eqn:Ee; [|done].
    destruct Er2 as [-> ->]; [done|]. rewrite bind_fmap_cons. rewrite !length_cons in Hn.
    destruct (uri_octet st (vd * 16 + ve)) as [[out st']|] eqn:Eo; [|done].
    by rewrite IH by (done || lia || by eapply octet_bound).
  - set (x := if decide (c = 43) then 32 else c).
    assert (Hx : x < 128 ∧ x ≠ 37) by (subst x; case_decide; lia).
    assert (Eu : unform (c :: octets cs) = (x ::.) <$> unform (octets cs)).
    { cbn [unform]. subst x. case_decide; [done|]. by rewrite decide_False by done. }
    rewrite Eu. cbn [dec_uri]. rewrite decide_False by lia. rewrite bind_fmap_cons.
    destruct st as [[[[cp need] lo] hi]|]; cbn [uri_octet].
    + cbn in Hst. by rewrite decide_False by lia.
    + unfold dec_start. rewrite !(decide_True (P := x < 128)) by lia.
      fold (plus_to_space (units cs)). rewrite IH by (done || lia).
      by destruct (unform (octets cs) ≫= strict None).
Qed.

(** ** Components and pairs *)

Lemma component_text cs : Forall is_scalar cs →
  utf8_toString (component (octets cs)) = js_component (units cs).
Proof.
  intros Hcs. unfold component, js_component, decodeURIComponent.
  rewrite (uri_run (length cs) cs None) by done. pose proof (unform_run (octets cs)) as Hrun.
  destruct (unform (octets cs)) as [b|] eqn:Eu; cbn [mbind option_bind]; [|by apply utf8_back].
  unfold is_valid_utf8. rewrite valid_strict. destruct (strict None b) as [t|] eqn:Es.
  - rewrite (bool_decide_eq_true_2 (is_Some _)) by done. rewrite orb_true_r. by apply strict_decodes.
  - rewrite (bool_decide_eq_false_2 (is_Some _)) by (by intros [? ?]). rewrite orb_false_r.
    destruct (memchr2 (octets cs)) as [rel|]; [|injection Hrun as ->; rewrite bool_decide_eq_true_2 by done];
      by apply utf8_back.
Qed.

(** Separators are visible in both forms. *)
Definition transparent (sep : Z) (f : Z → list Z) (c : Z) : Prop :=
  (c = sep → f c = [sep]) ∧ (c ≠ sep → sep ∉ f c ∧ f c ≠ []).

Lemma units_transparent sep c : sep < 128 → is_scalar c → transparent sep units_of_scalar c.
Proof.
  intros Hs Hc. split; [intros ->; by apply units_ascii|]. intros Hne. destruct (decide (c < 128)).
  - rewrite units_ascii by done. split; [rewrite list_elem_of_singleton; congruence|done].
  - destruct (units_high c Hc ltac:(lia)) as [Hu Hn]. split; [|done]. intros Hin.
    pose proof (proj1 (Forall_forall _ _) Hu sep Hin) as Hge. cbv beta in Hge. lia.
Qed.

Lemma octets_transparent sep c : sep < 128 → is_scalar c → transparent sep utf8_of_scalar c.
Proof.
  intros Hs Hc. split; [intros ->; by apply octets_ascii|]. intros Hne. destruct (decide (c < 128)).
  - rewrite octets_ascii by done. split; [rewrite list_elem_of_singleton; congruence|done].
  - destruct (octets_high c Hc ltac:(lia)) as (b & bs & -> & Hb & Hbs & _). split; [|done].
    rewrite elem_of_cons. intros [?|Hin]; [lia|]. pose proof (proj1 (Forall_forall _ _) Hbs sep Hin) as Hge. cbv beta in Hge. lia.
Qed.

Section flat.
Context (f : Z → list Z) (sep : Z).

Lemma split_flat cs : Forall (transparent sep f) cs → split sep (cs ≫= f) = (λ seg, seg ≫= f) <$> split sep cs.
Proof using.
  induction 1 as [|c cs [Heq Hne] _ IH]; [done|]. rewrite bind_cons. cbn [split]. case_decide as Hc.
  - rewrite Heq by done. cbn [app split fmap list_fmap]. rewrite decide_True by done. by rewrite IH.
  - destruct (Hne Hc) as [Hnot _]. destruct (split sep cs) as [|seg segs] eqn:Es; [by apply split_nonempty in Es|].
    cbn [fmap list_fmap] in *. rewrite (split_app_free sep (f c) (cs ≫= f) _ _ Hnot IH). by rewrite bind_cons.
Qed.

End flat.

Lemma split_eq_free p s : 61 ∉ p → split_eq (p ++ s) = (p ++ (split_eq s).1, (split_eq s).2).
Proof.
  induction p as [|x p IH]; intros Hp; [cbn [app]; by destruct (split_eq s)|].
  rewrite not_elem_of_cons in Hp. destruct Hp as [Hx Hp]. cbn [app split_eq].
  rewrite decide_False by congruence. by rewrite IH.
Qed.

Lemma split_eq_flat f cs : Forall (transparent 61 f) cs →
  split_eq (cs ≫= f) = ((split_eq cs).1 ≫= f, (split_eq cs).2 ≫= f).
Proof.
  induction 1 as [|c cs [Heq Hne] _ IH]; [done|]. rewrite bind_cons. cbn [split_eq]. case_decide as Hc.
  - rewrite Heq by done. cbn [app split_eq]. by rewrite decide_True.
  - rewrite split_eq_free by (by apply Hne). rewrite IH. destruct (split_eq cs) as [k v]. cbn [fst snd].
    by rewrite bind_cons.
Qed.

Lemma flat_nil (f : Z → list Z) (cs : list Z) : (∀ c, c ∈ cs → f c ≠ []) → (cs ≫= f = [] ↔ cs = []).
Proof.
  intros Hf. split; [|by intros ->]. destruct cs as [|c cs]; [done|]. rewrite bind_cons. intros [E _]%app_nil.
  by destruct (Hf c (list_elem_of_here c cs)).
Qed.

Lemma Forall_split_eq (P : Z → Prop) s : Forall P s → Forall P (split_eq s).1 ∧ Forall P (split_eq s).2.
Proof.
  induction 1 as [|c s Hc Hs IH]; [done|]. cbn [split_eq]. case_decide; [done|].
  destruct (split_eq s) as [k v]. destruct IH. cbn [fst snd] in *. split; [by constructor|done].
Qed.

Lemma Forall_split (P : Z → Prop) sep s : Forall P s → Forall (Forall P) (split sep s).
Proof.
  induction 1 as [|c s Hc Hs IH]; cbn [split]; [by repeat apply Forall_cons_2|].
  case_decide; [by apply Forall_cons_2|]. destruct IH as [|seg segs Hseg Hsegs];
    repeat apply Forall_cons_2; try apply Forall_nil_2; done.
Qed.

Lemma js_pair_text cs : Forall is_scalar cs →
  (λ p, (utf8_toString p.1, utf8_toString p.2)) <$> query_pair (octets cs) = js_pair (units cs).
Proof.
  intros Hcs. unfold query_pair, js_pair.
  assert (Hu : units cs = [] ↔ cs = []).
  { apply flat_nil. intros c Hin. pose proof (proj1 (Forall_forall _ _) Hcs c Hin) as Hc.
    unfold units_of_scalar. by case_decide. }
  assert (Ho : octets cs = [] ↔ cs = []).
  { apply flat_nil. intros c Hin. unfold utf8_of_scalar. by repeat case_decide. }
  destruct (decide (cs = [])) as [->|Hne]; [done|]. rewrite !decide_False by tauto.
  unfold octets, units. rewrite !split_eq_flat
    by (eapply Forall_impl; [exact Hcs|]; intros c Hc; first [by apply octets_transparent|by apply units_transparent]).
  destruct (Forall_split_eq is_scalar cs Hcs) as [Hk Hv]. cbn [fst snd fmap option_fmap option_map].
  f_equal. f_equal; by apply component_text.
Qed.

Lemma bun_toString b : @decodeUtf8 bun_codec b = utf8_toString b.
Proof. cbn. unfold bunDecodeUtf8. case_decide as Hz; [by rewrite (zlen_0 _ Hz)|done]. Qed.

(** C20. On text, the native query parser is the JavaScript one: splitting the UTF-8 bytes
    at [&] and [=] and decoding with the native form decoder gives, pair by pair, what
    [decodeURIComponent] with its catch clause gives on the string itself - malformed
    escapes and escapes that are not UTF-8 leave the component as it is, pluses included.
    parseQueryString on Bun is the object of those pairs, from every state and transport. *)
Theorem query_is_javascript getBunFFI q c :
  Forall is_unit q → toWellFormed q = q → zlen (encodeUtf8 q) * 9 + 16 < U32 →
  (λ p, (utf8_toString p.1, utf8_toString p.2)) <$> query_pairs (encodeUtf8 q) = js_pairs q ∧
  ∃ c', @parseQueryString bun_codec getBunFFI q c = (Ok (pairsToObject (js_pairs q)), c').
Proof.
  intros Hq Hw Hsize.
  assert (Hpairs : (λ p, (utf8_toString p.1, utf8_toString p.2)) <$> query_pairs (encodeUtf8 q) = js_pairs q).
  { unfold query_pairs, js_pairs. rewrite <-Hw at 2. unfold encodeUtf8, toWellFormed.
    pose proof (scalars_ok q Hq) as Hcs. generalize dependent (scalars q). clear. intros cs Hcs.
    rewrite !split_flat by (eapply Forall_impl; [exact Hcs|]; intros c Hc;
      first [by apply octets_transparent|by apply units_transparent]).
    pose proof (Forall_split is_scalar 38 cs Hcs) as Hsegs. induction Hsegs as [|seg segs Hseg _ IH]; [done|].
    cbn [fmap list_fmap omap list_omap]. pose proof (js_pair_text seg Hseg) as E. unfold octets, units in E.
    rewrite <-E. destruct (query_pair (seg ≫= utf8_of_scalar)) as [p|]; cbn [fmap option_fmap option_map];
      [cbn [fmap list_fmap]; f_equal; exact IH|exact IH]. }
  split; [exact Hpairs|]. unfold parseQueryString.
  destruct (@parsers_run bun_codec getBunFFI query (encodeUtf8 q) c Hsize) as (c' & E & _). exists c'.
  etransitivity; [exact E|]. do 3 f_equal. cbn [pairs_of]. rewrite <-Hpairs. unfold text_pairs.
  apply list_fmap_ext. intros _ p _. by rewrite !bun_toString.
Qed.

Lemma query_is_javascript_witness :
  ∃ c', @parseQueryString bun_codec true (js "a=%41+b&&e=%C3%A9&z=1+%zz") (λ _, Some [7])
    = (Ok (pairsToObject [(js "a", js "A b"); (js "e", [0xE9]); (js "z", js "1+%zz")]), c').
Proof.
  destruct (query_is_javascript true (js "a=%41+b&&e=%C3%A9&z=1+%zz") (λ _, Some [7])) as [_ [c' E]].
  - apply js_unit.
  - vm_compute. reflexivity.
  - vm_compute. reflexivity.
  - exists c'. rewrite E. vm_compute. reflexivity.
Defined.
