(* ===== verification/Sse.v ===== *)
(** Server-sent events: the encoder of the native core (rust/payload/sse.rs), its C ABI
    (rust/ffi/payload.rs), the Bun methods with their memo (native/ffi/build/parse.ts), the
    public wrappers (rust-ffi/scalar/payload.ts), the JavaScript encoder
    (baseline/tasks/streaming.ts), and a reader of event streams as browsers have it.

    Sizes are unbounded integers where the native core has [usize]: an event is data in
    memory.  An output buffer is written at a cursor; a write outside it is a panic. *)

From stdpp Require Import base list strings pretty.
From S2P Require Import Prelude.
From S2P Require Import Utf8.
From S2P Require Import JsString.
From S2P Require Import Wire.
From S2P Require Import StateErr.
From S2P Require Import FfiBuffer.
From S2P Require Import FfiCodecs.
From S2P Require Import PackedParsers.
From S2P Require Import FormText.

(** ** sse.rs *)

(** The memchr crate: the positions of a byte, in order. *)
Fixpoint positions (b : Z) (data : list Z) : list nat :=
  match data with
  | [] => []
  | x :: data => (if decide (x = b) then [0%nat] else []) ++ (S <$> positions b data)
  end.

Class Memchr := {
  memchr_iter : Z → list Z → list nat;
  memchr_iter_spec : ∀ b data, memchr_iter b data = positions b data;
}.

(** [while n >= 10]; a [u64] has at most twenty digits. *)
Fixpoint u64_digits_loop (fuel : nat) (n c : Z) : Z :=
  match fuel with
  | O => c
  | S fuel => if decide (10 ≤ n) then u64_digits_loop fuel (n / 10) (c + 1) else c
  end.
Definition u64_digits (n : Z) : Z := u64_digits_loop 20 n 1.

(** [out[w..w + bytes.len()].copy_from_slice(bytes); w += bytes.len()]. *)
Definition cursor : Type := option (list Z * Z).
Definition put (bytes : list Z) (c : cursor) : cursor :=
  '(out, w) ← c;
  if decide (w + zlen bytes ≤ zlen out) then Some (splice out w bytes, w + zlen bytes) else None.

(** The digits stored so far, the last one first to be printed; an index outside
    [digits: [u8; 20]] is a panic. *)
Fixpoint digits_loop (fuel : nat) (n : Z) (digits : list Z) : option (list Z) :=
  match fuel with
  | O => None
  | S fuel =>
      let digits := digits ++ [48 + n mod 10] in
      if decide (n / 10 = 0) then Some digits else digits_loop fuel (n / 10) digits
  end.

Definition put_retry (retry : Z) (c : cursor) : cursor :=
  let c := put (js "retry: ") c in
  digits ← digits_loop 20 retry [];
  put [10] (foldl (λ c d, put [d] c) c (reverse digits)).

Definition put_line (line : list Z) (c : cursor) : cursor := put [10] (put line (put (js "data: ") c)).

(** [for sep in memchr_iter(..)] and the tail. *)
Fixpoint lines_loop (seps : list nat) (line_start : nat) (data : list Z) (c : cursor) : cursor :=
  match seps with
  | [] => put_line (drop line_start data) c
  | sep :: seps => lines_loop seps (S sep) data (put_line (drop line_start (take sep data)) c)
  end.

Section native_core.
Context `{Memchr}.

Definition encode_event_size (event : option (list Z)) (data : list Z) (id : option (list Z))
    (retry : option Z) : Z :=
  let need := 0 in
  let need := need + match id with Some id => 5 + zlen id | None => 0 end in
  let need := need + match event with Some event => 8 + zlen event | None => 0 end in
  let need := need + match retry with Some retry => 8 + u64_digits retry | None => 0 end in
  let line_count := zlen (memchr_iter 10 data) + 1 in
  need + line_count * 7 + zlen data - (line_count - 1) + 1.

(** The writes. *)
Definition encode_event_writes (event : option (list Z)) (data : list Z) (id : option (list Z))
    (retry : option Z) (c : cursor) : cursor :=
  let c := match id with Some id => put [10] (put id (put (js "id: ") c)) | None => c end in
  let c := match event with Some event => put [10] (put event (put (js "event: ") c)) | None => c end in
  let c := match retry with Some retry => put_retry retry c | None => c end in
  put [10] (lines_loop (memchr_iter 10 data) 0 data c).

(** [Ok(w)] or [Err(..)] with the buffer on exit; [None] is a panic. *)
Definition encode_event_into_slice (event : option (list Z)) (data : list Z) (id : option (list Z))
    (retry : option Z) (out : list Z) : option (option Z * list Z) :=
  let need := encode_event_size event data id retry in
  if decide (zlen out < need) then Some (None, out)
  else '(out, w) ← encode_event_writes event data id retry (Some (out, 0)); Some (Some w, out).

(** [.expect(..)] panics on an error. *)
Definition encode_event (event : option (list Z)) (data : list Z) (id : option (list Z))
    (retry : option Z) : option (list Z) :=
  '(w, out) ← encode_event_into_slice event data id retry
                (new_u8 (encode_event_size event data id retry));
  w ← w; Some (take (Z.to_nat w) out).

(** ** The C ABI *)

(** [Some(str::from_utf8(..).ok()?)] when the flag is set. *)
Definition text_opt (set_ : bool) (bytes : list Z) : option (option (list Z)) :=
  if set_ then if is_valid_utf8 bytes then Some (Some bytes) else None else Some None.

(** A panic is answered with 0; the guards on null pointers have no counterpart here. *)
Definition castrum_sse_encode_into (event data id : list Z) (flags retry : Z) : writer := λ out,
  match text_opt (Z.testbit flags 0) event, text_opt (Z.testbit flags 1) id with
  | Some event_opt, Some id_opt =>
      let retry_opt := if Z.testbit flags 2 then Some retry else None in
      match encode_event_into_slice event_opt data id_opt retry_opt out with
      | Some (Some w, out) => (w, out)
      | Some (None, out) => (encode_event_size event_opt data id_opt retry_opt, out)
      | None => (0, out)
      end
  | _, _ => (0, out)
  end.

(** ** parse.ts *)

(** A memo slot. *)
Record sse_slot := Slot { str : option (list Z); bytes : list Z }.
Record sse_memo := Memo { sseMemoEvent : sse_slot; sseMemoId : sse_slot }.
Definition EMPTY_VIEW : list Z := [].
Definition new_memo : sse_memo := Memo (Slot None EMPTY_VIEW) (Slot None EMPTY_VIEW).

Definition sseMemoEncode (slot : sse_slot) (s : list Z) : list Z * sse_slot :=
  if decide (Some s = str slot) then (bytes slot, slot)
  else let bytes := encodeUtf8 s in (bytes, Slot (Some s) bytes).

(** [event === null ? EMPTY_VIEW : sseMemoEncode(..)], for the two slots. *)
Definition memo_event (event : option (list Z)) : SE sse_memo (list Z) := λ m,
  match event with
  | None => (Ok EMPTY_VIEW, m)
  | Some s => let '(b, slot) := sseMemoEncode (sseMemoEvent m) s in (Ok b, Memo slot (sseMemoId m))
  end.
Definition memo_id (id : option (list Z)) : SE sse_memo (list Z) := λ m,
  match id with
  | None => (Ok EMPTY_VIEW, m)
  | Some s => let '(b, slot) := sseMemoEncode (sseMemoId m) s in (Ok b, Memo (sseMemoEvent m) slot)
  end.

Definition absent {A} (o : option A) (bit : Z) : Z := match o with None => 0 | Some _ => bit end.
Definition sse_flags (event id : option (list Z)) (retry : option Z) : Z :=
  Z.lor (Z.lor (absent event 1) (absent id 2)) (absent retry 4).

Definition too_small : string := "sse encode: output buffer too small".

Definition ffi_sseEncodeEvent `{Alloc} (event : option (list Z)) (data : list Z)
    (id : option (list Z)) (retry : option Z) : SE sse_memo (list Z) :=
  ev ← memo_event event;
  idv ← memo_id id;
  growExact (native (castrum_sse_encode_into ev data idv (sse_flags event id retry) (default 0 retry)))
    (zlen data + 64) (Z.shiftl 1 20) too_small.

(** The caller's buffer is the first component of the state. *)
Definition ffi_sseEncodeEventInto (event : option (list Z)) (data : list Z)
    (id : option (list Z)) (retry : option Z) : SE (list Z * sse_memo) Z := λ '(output, m),
  match (ev ← memo_event event; idv ← memo_id id; mret (ev, idv)) m with
  | (Throw e, m) => (Throw e, (output, m))
  | (Ok (ev, idv), m) =>
      let '(w, output) :=
        castrum_sse_encode_into ev data idv (sse_flags event id retry) (default 0 retry) output in
      (if decide (w = 0) then Throw (js_Error "sse encode: invalid UTF-8 in event/id")
       else if decide (zlen output < w) then Throw (js_Error too_small)
       else Ok w, (output, m))
  end.

(** ** payload.ts and the addon *)

(** [sse_encode_event]: N-API hands the strings over in UTF-8; a panic is an exception. *)
Definition addon_sseEncodeEvent (event : option (list Z)) (data : list Z) (id : option (list Z))
    (retry : option Z) : result (list Z) :=
  match encode_event (encodeUtf8 <$> event) data (encodeUtf8 <$> id) retry with
  | Some b => Ok b
  | None => Throw (js_Error "panic")
  end.

Definition sseEncodeEvent `{Alloc} (ffi : bool) (event : option (list Z)) (data : list Z)
    (id : option (list Z)) (retry : option Z) : SE sse_memo (list Z) :=
  if ffi then ffi_sseEncodeEvent event data id retry
  else lift (addon_sseEncodeEvent event data id retry).

Definition sseEncodeEventInto (ffi : bool) (event : option (list Z)) (data : list Z)
    (id : option (list Z)) (retry : option Z) : SE (list Z * sse_memo) Z :=
  if ffi then ffi_sseEncodeEventInto event data id retry
  else λ '(output, m),
    match addon_sseEncodeEvent event data id retry with
    | Throw e => (Throw e, (output, m))
    | Ok bytes =>
        if decide (zlen output < zlen bytes) then (Throw (js_Error too_small), (output, m))
        else (Ok (zlen bytes), (splice output 0 bytes, m))
    end.

End native_core.

(** ** baseline/tasks/streaming.ts *)

Definition push_line {A} (name : string) (show : A → list Z) (o : option A) : list (list Z) :=
  match o with Some x => [js name ++ show x] | None => [] end.

Definition nativeSseEncodeEvent `{Codec} (event : option (list Z)) (data : list Z)
    (id : option (list Z)) (retry : option Z) : list Z :=
  let lines := push_line "id: " (λ s, s) id ++ push_line "event: " (λ s, s) event ++
               push_line "retry: " dec retry in
  let text := decodeUtf8 data in
  let lines := lines ++ ((λ line, js "data: " ++ line) <$> split 10 text) in
  encodeUtf8 (join [10] lines ++ [10; 10]).

(** ** What an event is encoded to *)

(** The bytes in the order they appear; [event] and [id] are UTF-8. *)
Definition event_bytes (event : option (list Z)) (data : list Z) (id : option (list Z))
    (retry : option Z) : list Z :=
  (match id with Some id => js "id: " ++ id ++ [10] | None => [] end) ++
  (match event with Some event => js "event: " ++ event ++ [10] | None => [] end) ++
  (match retry with Some retry => js "retry: " ++ dec retry ++ [10] | None => [] end) ++
  (split 10 data ≫= λ line, js "data: " ++ line ++ [10]) ++ [10].

(** ** Decimal digits *)

Lemma js_inv (s : string) a : js (String a s) = Z.of_nat (Ascii.nat_of_ascii a) :: js s.
Proof. done. Qed.

Lemma digit_char (d : N) : (d < 10)%N → Z.of_nat (Ascii.nat_of_ascii (pretty_N_char d)) = 48 + Z.of_N d.
Proof.
  intros Hd. assert (d = 0 ∨ d = 1 ∨ d = 2 ∨ d = 3 ∨ d = 4 ∨ d = 5 ∨ d = 6 ∨ d = 7 ∨ d = 8 ∨ d = 9)%N as Hc by lia.
  naive_solver.
Qed.

(** The loop stores the digits [dec] prints, and both stop after at most [fuel] of them. *)
Lemma digits_go fuel : ∀ n digits s, 0 < n < 10 ^ Z.of_nat fuel →
  ∃ ds, digits_loop fuel n digits = Some (digits ++ ds) ∧
        js (pretty_N_go (Z.to_N n) s) = reverse ds ++ js s ∧
        ∀ c, u64_digits_loop fuel n c = c + zlen ds - 1.
Proof.
  induction fuel as [|fuel IH]; intros n digits s Hn; [simpl in Hn; lia|].
  assert (Hp : 10 ^ Z.of_nat (S fuel) = 10 * 10 ^ Z.of_nat fuel) by (rewrite Nat2Z.inj_succ, Z.pow_succ_r; lia).
  rewrite pretty_N_go_step by lia. cbn [digits_loop u64_digits_loop].
  replace (Z.to_N n `div` 10)%N with (Z.to_N (n / 10)) by (rewrite Z2N.inj_div by lia; done).
  assert (Hd : Z.of_nat (Ascii.nat_of_ascii (pretty_N_char (Z.to_N n `mod` 10)%N)) = 48 + n mod 10).
  { rewrite digit_char by (apply N.mod_lt; done). rewrite N2Z.inj_mod, Z2N.id by lia. done. }
  case_decide as Hz.
  - exists [48 + n mod 10]. rewrite Hz. split; [done|]. cbn [Z.to_N]. rewrite pretty_N_go_0, js_inv, Hd.
    split; [done|]. intros c. rewrite decide_False by (intros ?; zdm). zlia.
  - assert (H10 : 10 ≤ n) by zdm.
    destruct (IH (n / 10) (digits ++ [48 + n mod 10])
                (String (pretty_N_char (Z.to_N n `mod` 10)%N) s)) as (ds & E1 & E2 & E3).
    { rewrite Hp in Hn. split; [zdm|]. apply Z.div_lt_upper_bound; lia. }
    exists ((48 + n mod 10) :: ds). rewrite E1, E2, <-app_assoc. split; [done|]. split.
    + rewrite js_inv, Hd, reverse_cons, <-app_assoc. done.
    + intros c. rewrite decide_True by done. rewrite E3. zlia.
Qed.

Definition is_u32 (n : Z) : Prop := 0 ≤ n < U32.

Lemma digits_dec n : is_u32 n →
  ∃ ds, digits_loop 20 n [] = Some ds ∧ dec n = reverse ds ∧ u64_digits n = zlen ds.
Proof.
  unfold is_u32, U32. intros Hn. destruct (decide (n = 0)) as [->|Hz]; [by exists [48]|].
  destruct (digits_go 20 n [] EmptyString ltac:(change (10 ^ Z.of_nat 20) with 100000000000000000000; lia)) as (ds & E1 & E2 & E3).
  exists ds. split; [done|]. unfold u64_digits. rewrite E3. split; [|lia].
  unfold dec. destruct n as [|p|p]; [done| |lia].
  cbn [js app] in E2. rewrite app_nil_r in E2. rewrite <-E2. done.
Qed.

(** ** The writer at its frontier *)

Definition writes (k : cursor → cursor) (b : list Z) : Prop := ∀ pre rest,
  zlen b ≤ zlen rest →
  k (Some (pre ++ rest, zlen pre)) = Some ((pre ++ b) ++ drop (length b) rest, zlen (pre ++ b)).

Lemma put_writes b : writes (put b) b.
Proof.
  intros pre rest Hb. unfold put. cbn. rewrite decide_True by zlia.
  rewrite splice_frontier by done. rewrite <-app_assoc. f_equal. f_equal. zlia.
Qed.

Lemma writes_nil : writes (λ c, c) [].
Proof. intros pre rest _. by rewrite app_nil_r. Qed.

Lemma writes_app k1 k2 b1 b2 : writes k1 b1 → writes k2 b2 → writes (λ c, k2 (k1 c)) (b1 ++ b2).
Proof.
  intros H1 H2 pre rest Hb. assert (Hd : zlen (drop (length b1) rest) = zlen rest - zlen b1).
  { rewrite zlen_app in Hb. unfold zlen in *. rewrite length_drop. lia. }
  rewrite zlen_app in Hb. pose proof (zlen_nonneg b2).
  rewrite H1 by lia. rewrite H2 by lia. rewrite drop_drop, length_app, <-!app_assoc. done.
Qed.

Lemma field_writes name value : writes (λ c, put [10] (put value (put (js name) c))) (js name ++ value ++ [10]).
Proof.
  rewrite app_assoc.
  exact (writes_app (λ c, put value (put (js name) c)) (put [10]) _ _
    (writes_app (put (js name)) (put value) _ _ (put_writes _) (put_writes _)) (put_writes _)).
Qed.

Lemma digits_writes ds : writes (λ c, foldl (λ c d, put [d] c) c ds) ds.
Proof.
  induction ds as [|d ds IH]; [apply writes_nil|]. exact (writes_app (put [d]) (λ c, foldl (λ c d, put [d] c) c ds) [d] ds (put_writes [d]) IH).
Qed.

Lemma retry_writes n : is_u32 n → writes (put_retry n) (js "retry: " ++ dec n ++ [10]).
Proof.
  intros Hn. destruct (digits_dec n Hn) as (ds & E & -> & _).
  assert (Hw : writes (λ c, put [10] (foldl (λ c d, put [d] c) (put (js "retry: ") c) (reverse ds)))
                 ((js "retry: " ++ reverse ds) ++ [10])).
  { refine (writes_app (λ c, foldl (λ c d, put [d] c) (put (js "retry: ") c) (reverse ds)) (put [10]) _ _ _ (put_writes _)).
    exact (writes_app (put (js "retry: ")) (λ c, foldl (λ c d, put [d] c) c (reverse ds)) _ _ (put_writes _) (digits_writes _)). }
  rewrite <-app_assoc in Hw. intros pre rest Hb. unfold put_retry. rewrite E. cbn [mbind option_bind]. by apply Hw.
Qed.

(** The segments between the positions are those of [split]. *)
Fixpoint segments (seps : list nat) (line_start : nat) (data : list Z) : list (list Z) :=
  match seps with
  | [] => [drop line_start data]
  | sep :: seps => drop line_start (take sep data) :: segments seps (S sep) data
  end.

Lemma segments_split rest : ∀ done cur, 
  segments ((λ p, (p + length (done ++ cur))%nat) <$> positions 10 rest) (length done) (done ++ cur ++ rest) =
  match split 10 rest with seg :: segs => (cur ++ seg) :: segs | [] => [] end.
Proof.
  induction rest as [|x rest IH]; intros done cur; cbn [positions split].
  - cbn. by rewrite app_nil_r, drop_app_length.
  - case_decide as Hx.
    + cbn [app fmap list_fmap segments]. rewrite <-list_fmap_compose. f_equal.
      * rewrite app_assoc. cbn [plus]. rewrite take_app_length, drop_app_length. by rewrite app_nil_r.
      * specialize (IH (done ++ cur ++ [x]) []).
        rewrite app_nil_l in IH. rewrite <-!app_assoc in IH. cbn [app] in IH.
        replace (length (done ++ cur ++ [x] ++ [])) with (length (done ++ cur ++ [x])) in IH by by rewrite app_nil_r.
        rewrite !length_app in IH. cbn [length] in IH.
        destruct (split 10 rest) as [|seg segs] eqn:Es; [by apply split_nonempty in Es|].
        cbn [app] in IH. rewrite <-IH. cbn [app]. rewrite length_app.
        replace (S (0 + (length done + length cur))) with (length done + (length cur + 1))%nat by lia.
        f_equal. apply list_fmap_ext. intros _ p _. cbn. lia.
    + cbn [app]. rewrite <-list_fmap_compose. specialize (IH done (cur ++ [x])).
      rewrite <-!app_assoc in IH. cbn [app] in IH.
      destruct (split 10 rest) as [|seg segs] eqn:Es; [by apply split_nonempty in Es|].
      rewrite <-app_assoc in IH. cbn [app] in IH. rewrite <-IH. f_equal.
      apply list_fmap_ext. intros _ p _. cbn. rewrite !length_app. cbn. lia.
Qed.

Lemma positions_split data : segments (positions 10 data) 0 data = split 10 data.
Proof.
  pose proof (segments_split data [] []) as E. cbn [length app] in E.
  destruct (split 10 data) as [|seg segs] eqn:Es; [by apply split_nonempty in Es|].
  cbn [app] in E. rewrite <-E. f_equal. rewrite <-(list_fmap_id (positions 10 data)) at 1.
  apply list_fmap_ext. intros _ p _. cbn. lia.
Qed.

Definition line_bytes (line : list Z) : list Z := js "data: " ++ line ++ [10].

Lemma lines_writes seps : ∀ start data,
  writes (lines_loop seps start data) (segments seps start data ≫= line_bytes).
Proof.
  induction seps as [|sep seps IH]; intros start data; cbn [lines_loop segments mbind list_bind].
  - rewrite app_nil_r. apply field_writes.
  - exact (writes_app (put_line (drop start (take sep data))) (lines_loop seps (S sep) data) _ _ (field_writes "data: " _) (IH _ _)).
Qed.

Lemma split_count c data : zlen (split c data) = zlen (positions c data) + 1 ∧
  zlen (split c data ≫= λ l, l) = zlen data - zlen (positions c data).
Proof.
  induction data as [|x data IH]; [done|]. cbn [split positions].
  destruct (split c data) as [|seg segs] eqn:Es; [by apply split_nonempty in Es|].
  cbn [mbind list_bind] in IH. case_decide; cbn [app mbind list_bind]; zlia.
Qed.

Lemma lines_size ls : zlen (ls ≫= line_bytes) = 7 * zlen ls + zlen (ls ≫= λ l, l).
Proof.
  induction ls as [|l ls IH]; [done|]. cbn [mbind list_bind]. unfold line_bytes at 1.
  rewrite !zlen_app, IH, !zlen_cons. change (zlen (js "data: ")) with 6. zlia.
Qed.

(** ** The encoder *)

Definition retry_ok (retry : option Z) : Prop := match retry with Some n => is_u32 n | None => True end.

Lemma encode_valid s : Forall is_unit s → is_valid_utf8 (encodeUtf8 s) = true.
Proof.
  intros Hs%scalars_ok. unfold is_valid_utf8. rewrite valid_strict. apply bool_decide_eq_true.
  unfold encodeUtf8. induction Hs as [|c cs Hc Hcs [t IH]]; [by exists []|].
  cbn [mbind list_bind]. rewrite str_scalar by done. rewrite IH. eauto.
Qed.

Section encoder.
Context `{Memchr}.

(** The reported size is the size of the result. *)
Lemma size_exact event data id retry : retry_ok retry →
  encode_event_size event data id retry = zlen (event_bytes event data id retry).
Proof.
  intros Hr. unfold encode_event_size, event_bytes. rewrite memchr_iter_spec.
  rewrite !zlen_app. fold line_bytes.
  change (λ line, js "data: " ++ line ++ [10]) with line_bytes. rewrite lines_size.
  destruct (split_count 10 data) as [-> ->].
  assert (Hre : zlen (match retry with Some n => js "retry: " ++ dec n ++ [10] | None => [] end) =
                match retry with Some n => 8 + u64_digits n | None => 0 end).
  { destruct retry as [n|]; [|done]. destruct (digits_dec n Hr) as (ds & _ & -> & ->).
    rewrite !zlen_app. change (zlen (js "retry: ")) with 7. unfold zlen. rewrite length_reverse. cbn. lia. }
  rewrite Hre. change (zlen [10]) with 1.
  assert (He : ∀ name o, zlen (match o with Some s => js name ++ s ++ [10] | None => [] end) =
                 match o with Some s => zlen (js name) + 1 + zlen s | None => 0 end).
  { intros name [s|]; [rewrite !zlen_app; change (zlen [10]) with 1; lia|done]. }
  rewrite !He. change (zlen (js "id: ")) with 4. change (zlen (js "event: ")) with 7.
  destruct id, event, retry; lia.
Qed.

Lemma event_writes event data id retry : retry_ok retry →
  writes (encode_event_writes event data id retry) (event_bytes event data id retry).
Proof.
  intros Hr. unfold encode_event_writes, event_bytes. rewrite memchr_iter_spec.
  rewrite <-(positions_split data). rewrite !app_assoc.
  set (kid := λ c : cursor, match id with Some id => put [10] (put id (put (js "id: ") c)) | None => c end).
  set (kev := λ c : cursor, match event with Some event => put [10] (put event (put (js "event: ") c)) | None => c end).
  set (kre := λ c : cursor, match retry with Some retry => put_retry retry c | None => c end).
  refine (writes_app (λ c, lines_loop (positions 10 data) 0 data (kre (kev (kid c)))) (put [10]) _ _ _ (put_writes _)).
  refine (writes_app (λ c, kre (kev (kid c))) (lines_loop (positions 10 data) 0 data) _ _ _ (lines_writes _ _ _)).
  refine (writes_app (λ c, kev (kid c)) kre _ _ (writes_app kid kev _ _ _ _) _); unfold kid, kev, kre.
  - destruct id; [exact (field_writes "id: " _)|apply writes_nil].
  - destruct event; [exact (field_writes "event: " _)|apply writes_nil].
  - destruct retry; [by apply retry_writes|apply writes_nil].
Qed.

(** The slice encoder: the event at the front of a buffer that has room, an untouched
    buffer otherwise; it never panics. *)
Lemma into_slice_exact event data id retry out : retry_ok retry →
  let b := event_bytes event data id retry in
  encode_event_into_slice event data id retry out =
    Some (if decide (zlen b ≤ zlen out) then (Some (zlen b), fill b out) else (None, out)).
Proof.
  intros Hr b. unfold encode_event_into_slice. rewrite size_exact by done. fold b.
  case_decide; [by rewrite decide_False by lia|]. rewrite decide_True by lia.
  pose proof (event_writes event data id retry Hr [] out ltac:(fold b; lia)) as E. fold b in E.
  cbn [app] in E. change (zlen (@nil Z)) with 0 in E. rewrite E. done.
Qed.

Lemma encode_event_exact event data id retry : retry_ok retry →
  encode_event event data id retry = Some (event_bytes event data id retry).
Proof.
  intros Hr. unfold encode_event. rewrite into_slice_exact, size_exact by done.
  set (b := event_bytes event data id retry). assert (Hl : zlen (new_u8 (zlen b)) = zlen b) by (unfold new_u8; zlia).
  rewrite decide_True by lia. cbn. unfold zlen. rewrite Nat2Z.id. by rewrite take_fill.
Qed.

(** The C ABI is the canonical native of the needed-size convention. *)
Lemma sse_writer event data id retry out : retry_ok retry →
  Forall is_unit (default [] event) → Forall is_unit (default [] id) →
  castrum_sse_encode_into (encodeUtf8 (default [] event)) data (encodeUtf8 (default [] id))
    (sse_flags event id retry) (default 0 retry) out =
  needed_writer (Some (event_bytes (encodeUtf8 <$> event) data (encodeUtf8 <$> id) retry)) out.
Proof.
  intros Hr He Hi. unfold castrum_sse_encode_into.
  assert (Ht : ∀ s b, Forall is_unit s → text_opt b (encodeUtf8 s) = Some (if b then Some (encodeUtf8 s) else None)).
  { intros s [] Hs; [|done]. unfold text_opt. by rewrite encode_valid. }
  rewrite !Ht by done.
  replace (if Z.testbit _ 0 then Some (encodeUtf8 (default [] event)) else None) with (encodeUtf8 <$> event)
    by (destruct event, id, retry; reflexivity).
  replace (if Z.testbit _ 1 then Some (encodeUtf8 (default [] id)) else None) with (encodeUtf8 <$> id)
    by (destruct event, id, retry; reflexivity).
  replace (if Z.testbit _ 2 then Some (default 0 retry) else None) with retry
    by (destruct event, id, retry; reflexivity).
  rewrite into_slice_exact, size_exact by done. unfold needed_writer. by case_decide.
Qed.

Lemma sse_needed event data id retry : retry_ok retry →
  Forall is_unit (default [] event) → Forall is_unit (default [] id) →
  needed (castrum_sse_encode_into (encodeUtf8 (default [] event)) data (encodeUtf8 (default [] id))
            (sse_flags event id retry) (default 0 retry))
    (Some (event_bytes (encodeUtf8 <$> event) data (encodeUtf8 <$> id) retry)).
Proof.
  intros Hr He Hi.
  destruct (needed_writer_needed (Some (event_bytes (encodeUtf8 <$> event) data (encodeUtf8 <$> id) retry))) as [H1 H2 H3].
  split; intros out; rewrite sse_writer by done; auto.
Qed.

End encoder.

(** ** The methods *)

Record sse_event := Ev {
  e_event : option (list Z); e_data : list Z; e_id : option (list Z); e_retry : option Z }.

Definition ev_bytes (e : sse_event) : list Z :=
  event_bytes (encodeUtf8 <$> e_event e) (e_data e) (encodeUtf8 <$> e_id e) (e_retry e).

Definition ev_ok (e : sse_event) : Prop :=
  Forall is_unit (default [] (e_event e)) ∧ Forall is_unit (default [] (e_id e)) ∧ retry_ok (e_retry e).

Definition slot_ok (slot : sse_slot) : Prop := ∀ s, str slot = Some s → bytes slot = encodeUtf8 s.
Definition memo_ok (m : sse_memo) : Prop := slot_ok (sseMemoEvent m) ∧ slot_ok (sseMemoId m).

Lemma new_memo_ok : memo_ok new_memo.
Proof. by split. Qed.

Lemma memo_slot slot s b slot' : slot_ok slot → sseMemoEncode slot s = (b, slot') → b = encodeUtf8 s ∧ slot_ok slot'.
Proof.
  unfold sseMemoEncode. intros Hs. case_decide as Hd; intros [= <- <-].
  - split; [by apply Hs|done].
  - split; [done|]. by intros ? [= <-].
Qed.

Lemma memo_event_ok m o : memo_ok m → ∃ m', memo_event o m = (Ok (encodeUtf8 (default [] o)), m') ∧ memo_ok m'.
Proof.
  intros [He Hi]. destruct o as [s|]; [|by exists m]. unfold memo_event.
  destruct (sseMemoEncode _ s) as [b slot'] eqn:E. apply memo_slot in E as [-> ?]; [|done].
  eexists. split; [done|]. by split.
Qed.

Lemma memo_id_ok m o : memo_ok m → ∃ m', memo_id o m = (Ok (encodeUtf8 (default [] o)), m') ∧ memo_ok m'.
Proof.
  intros [He Hi]. destruct o as [s|]; [|by exists m]. unfold memo_id.
  destruct (sseMemoEncode _ s) as [b slot'] eqn:E. apply memo_slot in E as [-> ?]; [|done].
  eexists. split; [done|]. by split.
Qed.

Lemma ev_bytes_pos e : 0 < zlen (ev_bytes e).
Proof. unfold ev_bytes, event_bytes. rewrite !zlen_app. change (zlen [10]) with 1. zlia. Qed.

(** Under Bun an event is at most a mebibyte. *)
Definition sse_result (ffi : bool) (b : list Z) : result (list Z) :=
  if ffi && bool_decide (1048576 < zlen b) then Throw (js_Error too_small) else Ok b.

Definition sse_into_result (b output : list Z) : result Z * list Z :=
  if decide (zlen b ≤ zlen output) then (Ok (zlen b), splice output 0 b) else (Throw (js_Error too_small), output).

Section methods.
Context `{Memchr} `{Alloc}.

Definition encode_call (c : bool * sse_event) : SE sse_memo (list Z) :=
  sseEncodeEvent c.1 (e_event c.2) (e_data c.2) (e_id c.2) (e_retry c.2).
Definition encode_into_call (c : bool * sse_event) : SE (list Z * sse_memo) Z :=
  sseEncodeEventInto c.1 (e_event c.2) (e_data c.2) (e_id c.2) (e_retry c.2).

Lemma encode_call_run c m : memo_ok m → ev_ok c.2 →
  ∃ m', encode_call c m = (sse_result c.1 (ev_bytes c.2), m') ∧ memo_ok m'.
Proof.
  destruct c as [ffi [event data id retry]]. intros Hm (He & Hi & Hr). unfold encode_call, sseEncodeEvent. cbn in *.
  pose proof (ev_bytes_pos (Ev event data id retry)) as Hpos.
  destruct ffi; cbn.
  - unfold ffi_sseEncodeEvent.
    destruct (memo_event_ok m event Hm) as (m1 & E1 & Hm1).
    destruct (memo_id_ok m1 id Hm1) as (m2 & E2 & Hm2).
    rewrite (se_bind_Ok _ _ _ _ _ E1), (se_bind_Ok _ _ _ _ _ E2). exists m2. split; [|done].
    change (Z.shiftl 1 20) with 1048576.
    rewrite (growExact_native _ _ _ _ _ _ (sse_needed event data id retry Hr He Hi)) by lia.
    change (event_bytes _ _ _ _) with (ev_bytes (Ev event data id retry)).
    unfold grow_result, sse_result. f_equal. cbn [fst snd andb].
    case_bool_decide; [by rewrite decide_True by (by right)|].
    rewrite decide_False; [done|]. intros [Hz|?]; [|done]. rewrite Hz in Hpos. done.
  - exists m. split; [|done]. unfold lift, addon_sseEncodeEvent. by rewrite encode_event_exact.
Qed.

Lemma encode_into_run c output m : memo_ok m → ev_ok c.2 →
  ∃ m', encode_into_call c (output, m) =
    ((sse_into_result (ev_bytes c.2) output).1, ((sse_into_result (ev_bytes c.2) output).2, m')) ∧ memo_ok m'.
Proof.
  destruct c as [ffi [event data id retry]]. intros Hm (He & Hi & Hr). unfold encode_into_call, sseEncodeEventInto.
  cbn [fst snd e_event e_data e_id e_retry] in *.
  pose proof (ev_bytes_pos (Ev event data id retry)) as Hpos. unfold sse_into_result.
  pose proof (λ out, sse_writer event data id retry out Hr He Hi) as Hwr.
  pose proof (encode_event_exact (encodeUtf8 <$> event) data (encodeUtf8 <$> id) retry Hr) as Hre.
  change (event_bytes (encodeUtf8 <$> event) data (encodeUtf8 <$> id) retry) with (ev_bytes (Ev event data id retry)) in *.
  generalize dependent (ev_bytes (Ev event data id retry)). intros b Hpos Hwr Hre. destruct ffi; cbn.
  - destruct (memo_event_ok m event Hm) as (m1 & E1 & Hm1).
    destruct (memo_id_ok m1 id Hm1) as (m2 & E2 & Hm2).
    rewrite (se_bind_Ok _ _ _ _ _ E1), (se_bind_Ok _ _ _ _ _ E2). cbn.
    rewrite Hwr. exists m2. split; [|done]. cbn. destruct (decide (zlen b ≤ zlen output)) as [Hd|Hd].
    + pose proof (fill_length _ _ Hd). by rewrite !decide_False by lia.
    + by rewrite decide_False, decide_True by lia.
  - exists m. split; [|done]. unfold addon_sseEncodeEvent. rewrite Hre.
    case_decide; [by rewrite decide_False by lia|by rewrite decide_True by lia].
Qed.

(** C17. Encoding an event, by any sequence of calls over the two bindings and their shared
    memo: every call returns the id, event and retry lines that are present, one data line
    per line of the data and a blank line, and through Bun it throws when that is more
    than a mebibyte; the Into form leaves exactly these bytes at the front of a buffer that
    has room and throws, leaving it alone, otherwise; and the size the native core computes
    is the size of the result. *)
Theorem sse_encode_exact (calls : list (bool * sse_event)) (last : bool * sse_event) (output : list Z) :
  Forall (λ c, ev_ok c.2) (calls ++ [last]) →
  ∃ m m', attempts (encode_call <$> calls) new_memo = ((λ c, sse_result c.1 (ev_bytes c.2)) <$> calls, m) ∧
    encode_into_call last (output, m) =
      ((sse_into_result (ev_bytes last.2) output).1, ((sse_into_result (ev_bytes last.2) output).2, m')) ∧
    encode_event_size (encodeUtf8 <$> e_event last.2) (e_data last.2) (encodeUtf8 <$> e_id last.2) (e_retry last.2)
      = zlen (ev_bytes last.2).
Proof.
  intros [Hc Hl]%Forall_app. apply Forall_cons in Hl as [Hl _].
  assert (Hrun : ∀ m0, memo_ok m0 → ∃ m, attempts (encode_call <$> calls) m0 =
            ((λ c, sse_result c.1 (ev_bytes c.2)) <$> calls, m) ∧ memo_ok m).
  { induction Hc as [|c calls Hok Hc IH]; intros m0 Hm0; [by exists m0|].
    destruct (encode_call_run c m0 Hm0 Hok) as (m1 & E1 & Hm1). destruct (IH m1 Hm1) as (m2 & E2 & Hm2).
    exists m2. split; [|done]. cbn [fmap list_fmap attempts]. by rewrite E1, E2. }
  destruct (Hrun new_memo new_memo_ok) as (m & E & Hm).
  destruct (encode_into_run last output m Hm Hl) as (m' & E' & _).
  exists m, m'. split; [done|]. split; [done|]. apply size_exact. apply Hl.
Qed.

End methods.

(** ** The JavaScript encoder *)

(** An ASCII unit separates what is encoded before and after it. *)
Lemma scalars_break a c b : c < 128 → scalars (a ++ c :: b) = scalars a ++ c :: scalars b.
Proof.
  intros Hc. assert (Hn : is_high c = false ∧ is_low c = false).
  { unfold is_high, is_low. by rewrite !bool_decide_eq_false_2 by lia. }
  destruct Hn as [Hh Hl]. remember (length a) as n eqn:Hn. revert a Hn.
  induction n as [n IH] using lt_wf_ind. intros [|u a] Hn; cbn [app scalars].
  - by rewrite Hh, Hl.
  - destruct (is_high u).
    + destruct a as [|l a]; cbn [app].
      * rewrite Hl. cbn [scalars]. by rewrite Hh, Hl.
      * destruct (is_low l).
        -- rewrite (IH (length a)) by (done || (cbn in Hn; lia)). done.
        -- pose proof (IH (length (l :: a)) ltac:(cbn in *; lia) (l :: a) eq_refl) as E.
           change (l :: a ++ c :: b) with ((l :: a) ++ c :: b). by rewrite E.
    + rewrite (IH (length a)) by (done || (cbn in Hn; lia)). by destruct (is_low u).
Qed.

Lemma encode_break a c b : c < 128 → encodeUtf8 (a ++ c :: b) = encodeUtf8 a ++ c :: encodeUtf8 b.
Proof.
  intros Hc. unfold encodeUtf8. rewrite scalars_break by done. rewrite bind_app. cbn [mbind list_bind].
  by rewrite octets_ascii.
Qed.

Lemma encode_prefix a b : Forall (λ u, u < 128) a → encodeUtf8 (a ++ b) = a ++ encodeUtf8 b.
Proof.
  induction 1 as [|c a Hc _ IH]; [done|]. pose proof (encode_break [] c (a ++ b) Hc) as E. cbn [app] in *.
  by rewrite E, IH.
Qed.

Lemma encode_lines ls tl : encodeUtf8 ((ls ≫= λ l, l ++ [10]) ++ tl) =
  (ls ≫= λ l, encodeUtf8 l ++ [10]) ++ encodeUtf8 tl.
Proof.
  induction ls as [|l ls IH]; [done|]. cbn [mbind list_bind]. rewrite <-!app_assoc. cbn [app].
  rewrite encode_break by done. by rewrite IH.
Qed.

Lemma join_lines l ls : join [10] (l :: ls) ++ [10] = (l :: ls) ≫= λ l, l ++ [10].
Proof.
  revert l. induction ls as [|l' ls IH]; intros l; [cbn; by rewrite app_nil_r|].
  change (join [10] (l :: l' :: ls)) with (l ++ [10] ++ join [10] (l' :: ls)).
  rewrite <-!app_assoc. rewrite IH. cbn [mbind list_bind]. by rewrite <-!app_assoc.
Qed.

Lemma split_break c a b : c ∉ a → split c (a ++ c :: b) = a :: split c b.
Proof.
  intros Ha. rewrite (split_app_free c a (c :: b) [] (split c b)); [by rewrite app_nil_r|done|].
  cbn. by rewrite decide_True.
Qed.

(** A unit below the surrogates comes from itself only. *)
Lemma scalars_elem c s : c < 55296 → c ∈ scalars s → c ∈ s.
Proof.
  intros Hc. remember (length s) as n eqn:Hn. revert s Hn.
  induction n as [n IH] using lt_wf_ind. intros [|u s] Hn; [done|]. cbn [scalars].
  assert (IH' : c ∈ scalars s → c ∈ s) by (apply (IH (length s)); [cbn in Hn; lia|done]).
  unfold is_high, is_low, REPLACEMENT. case_bool_decide; [destruct s as [|v s]|].
  - intros ->%list_elem_of_singleton. lia.
  - case_bool_decide; intros [->|Hin]%elem_of_cons; [lia| |lia|right; by apply IH'].
    right. right. apply (IH (length s)); [cbn in Hn; lia|done|done].
  - case_bool_decide; intros [->|Hin]%elem_of_cons; [lia|by right; apply IH'|by left|by right; apply IH'].
Qed.

Lemma encode_elem c s : c < 128 → Forall is_unit s → c ∈ encodeUtf8 s → c ∈ s.
Proof.
  intros Hc Hs (x & Hin & Hx)%list_elem_of_bind. apply scalars_elem; [lia|].
  assert (Hsc : is_scalar x) by (eapply Forall_forall; [by apply scalars_ok|done]).
  destruct (decide (x < 128)) as [Hlt|Hge].
  - rewrite octets_ascii in Hin by done. by apply list_elem_of_singleton in Hin as ->.
  - destruct (octets_high x Hsc ltac:(lia)) as (b & bs & E & Hb & Hbs & _). rewrite E in Hin.
    apply elem_of_cons in Hin as [->|Hin]; [lia|]. rewrite Forall_forall in Hbs. specialize (Hbs c Hin). cbn in Hbs. lia.
Qed.

(** Splitting into lines commutes with the encoding. *)
Lemma split_scalars s : split 10 (scalars s) = scalars <$> split 10 s.
Proof.
  rewrite <-(join_split 10 s) at 1. assert (Hf : Forall (λ l, 10 ∉ l) (split 10 s)).
  { clear. induction s as [|x s IH]; cbn; [by repeat constructor; apply not_elem_of_nil|].
    case_decide; [constructor; [apply not_elem_of_nil|done]|].
    destruct (split 10 s) as [|seg segs]; [by repeat constructor; set_solver|].
    apply Forall_cons in IH as [? ?]. constructor; [set_solver|done]. }
  assert (Hs : ∀ l, 10 ∉ l → 10 ∉ scalars l) by (intros l Hl Hin; by apply Hl, scalars_elem).
  pose proof (split_nonempty 10 s) as Hne. destruct (split 10 s) as [|l ls]; [done|]. clear Hne.
  revert l Hf. induction ls as [|l' ls IH]; intros l [Hl Hf]%Forall_cons.
  - cbn [join fmap list_fmap]. by rewrite split_free by auto.
  - change (join [10] (l :: l' :: ls)) with (l ++ 10 :: join [10] (l' :: ls)).
    rewrite scalars_break by lia. rewrite split_break by auto. by rewrite IH by done.
Qed.

Lemma split_encode s : Forall is_unit s → split 10 (encodeUtf8 s) = encodeUtf8 <$> split 10 s.
Proof.
  intros Hs%scalars_ok. unfold encodeUtf8. rewrite split_flat, split_scalars.
  - by rewrite <-list_fmap_compose.
  - eapply Forall_impl; [exact Hs|]. intros c Hc. by apply octets_transparent.
Qed.

Lemma dec_ascii n : is_u32 n → Forall (λ u, u < 128) (dec n) ∧ Forall (λ u, 48 ≤ u ≤ 57) (dec n).
Proof.
  intros Hn. assert (Hd : Forall (λ u, 48 ≤ u ≤ 57) (dec n)).
  { destruct (digits_dec n Hn) as (ds & E & -> & _). apply Forall_reverse.
    assert (Hg : ∀ fuel n acc, Forall (λ u, 48 ≤ u ≤ 57) acc → digits_loop fuel n acc = Some ds →
               Forall (λ u, 48 ≤ u ≤ 57) ds).
    { clear. induction fuel as [|fuel IH]; intros n acc Ha; [done|]. cbn.
      assert (Forall (λ u, 48 ≤ u ≤ 57) (acc ++ [48 + n mod 10])).
      { apply Forall_app. split; [done|]. apply Forall_singleton. zdm. }
      case_decide; [by intros [= <-]|by apply IH]. }
    by eapply Hg; [|exact E]. }
  split; [|done]. eapply Forall_impl; [exact Hd|]. intros u Hu. cbn in Hu. lia.
Qed.

(** The two encoders agree: for text that a decoder gives back (well formed, no
    byte-order mark in front) the JavaScript encoder returns the bytes of the native one. *)
Theorem sse_encoders_agree `{Memchr} `{Codec} (event : option (list Z)) (text : list Z)
    (id : option (list Z)) (retry : option Z) :
  text_ok text → retry_ok retry →
  addon_sseEncodeEvent event (encodeUtf8 text) id retry =
    Ok (nativeSseEncodeEvent event (encodeUtf8 text) id retry).
Proof.
  intros Ht Hr. unfold addon_sseEncodeEvent. rewrite encode_event_exact by done. f_equal.
  unfold nativeSseEncodeEvent. rewrite decode_encode by done.
  set (heads := push_line "id: " _ id ++ push_line "event: " _ event ++ push_line "retry: " dec retry).
  set (datas := (λ line, js "data: " ++ line) <$> split 10 text).
  assert (Hne : heads ++ datas ≠ []).
  { intros [_ E]%app_eq_nil. apply fmap_nil_inv in E. by apply split_nonempty in E. }
  assert (E : join [10] (heads ++ datas) ++ [10; 10] = ((heads ++ datas) ≫= λ l, l ++ [10]) ++ [10]).
  { destruct (heads ++ datas) as [|l ls]; [done|]. rewrite <-join_lines, <-app_assoc. done. }
  rewrite E, encode_lines, bind_app, <-app_assoc.
  assert (Ha : ∀ a b c d e : list Z, a ++ b ++ c ++ d ++ e = (a ++ b ++ c) ++ d ++ e)
    by (intros; by rewrite <-!app_assoc).
  unfold event_bytes. rewrite Ha. f_equal; [|f_equal].
  - unfold heads. rewrite !bind_app. f_equal; [|f_equal].
    + destruct id as [s|]; [|done]. cbn [fmap option_fmap option_map push_line mbind list_bind].
      by rewrite encode_prefix, app_nil_r, <-app_assoc by (repeat constructor).
    + destruct event as [s|]; [|done]. cbn [fmap option_fmap option_map push_line mbind list_bind].
      by rewrite encode_prefix, app_nil_r, <-app_assoc by (repeat constructor).
    + destruct retry as [n|]; [|done]. cbn [push_line mbind list_bind].
      rewrite encode_prefix, app_nil_r, <-app_assoc by (repeat constructor).
      rewrite <-(app_nil_r (dec n)) at 2. rewrite encode_prefix by apply (dec_ascii n Hr).
      by rewrite app_nil_r.
  - rewrite split_encode by apply Ht. unfold datas. rewrite !list_fmap_bind.
    generalize (split 10 text). induction l as [|line l IH]; [done|]. cbn [mbind list_bind].
    rewrite IH. by f_equal.
Qed.

(** ** Witnesses *)

Definition std_memchr : Memchr.
Proof. refine {| memchr_iter := positions |}. done. Defined.

Definition sample_event : sse_event :=
  Ev (Some (js "up")) (js "a" ++ [10] ++ js "b") (Some (js "1")) (Some 1500).

Lemma sample_event_ok : ev_ok sample_event.
Proof.
  repeat split; try (by apply (bool_decide_unpack _); vm_compute);
    repeat (apply Forall_cons_2; [unfold is_unit; vm_compute; intuition congruence|]); apply Forall_nil_2.
Qed.

Lemma sse_encode_exact_witness :
  ∃ m, attempts (@encode_call std_memchr sevens <$> [(true, sample_event); (false, sample_event)]) new_memo =
    ([Ok (js "id: 1" ++ [10] ++ js "event: up" ++ [10] ++ js "retry: 1500" ++ [10] ++
          js "data: a" ++ [10] ++ js "data: b" ++ [10; 10]);
      Ok (js "id: 1" ++ [10] ++ js "event: up" ++ [10] ++ js "retry: 1500" ++ [10] ++
          js "data: a" ++ [10] ++ js "data: b" ++ [10; 10])], m).
Proof.
  destruct (@sse_encode_exact std_memchr sevens [(true, sample_event); (false, sample_event)] (true, sample_event) [])
    as (m & _ & E & _).
  - repeat apply Forall_cons_2; try apply sample_event_ok. apply Forall_nil_2.
  - exists m. exact E.
Defined.

Lemma sse_encoders_agree_witness :
  @addon_sseEncodeEvent std_memchr (Some (js "up")) (encodeUtf8 (js "a" ++ [10])) None (Some 7) =
    Ok (@nativeSseEncodeEvent bun_codec (Some (js "up")) (encodeUtf8 (js "a" ++ [10])) None (Some 7)).
Proof.
  apply (@sse_encoders_agree std_memchr bun_codec).
  - apply ascii_text_ok. apply (bool_decide_unpack _). vm_compute. exact I.
  - apply (bool_decide_unpack _). vm_compute. exact I.
Defined.
