(* ===== verification/SseStream.v ===== *)
(** Event streams: the SSE response helper (integration/streaming.ts) over the stream
    controller of the platform, and what a browser reads from the bytes.

    The reader of the body and the source of the events act in any order: a schedule says
    what the reader does before each step of the source. *)

From stdpp Require Import base list strings.
From S2P Require Import Prelude.
From S2P Require Import JsMap.
From S2P Require Import Utf8.
From S2P Require Import JsObject.
From S2P Require Import JsString.
From S2P Require Import Wire.
From S2P Require Import HeaderTemplates.
From S2P Require Import StateErr.
From S2P Require Import FfiBuffer.
From S2P Require Import PackedParsers.
From S2P Require Import FormText.
From S2P Require Import Sse.

(** ** The browser's event source

    The interpretation of an event stream in the HTML standard, on bytes: lines end at LF,
    CR or CRLF, an empty line dispatches, and a field is what stands before the first
    colon. *)

Record message := Msg { m_type : list Z; m_data : list Z; m_id : list Z }.

Record source := Source {
  s_line : list Z; s_cr : bool;                (* the current line; a CR was just read *)
  s_data : list Z; s_type : list Z;            (* the buffers *)
  s_id : list Z; s_retry : option Z;
  s_out : list message }.

Definition new_source : source := Source [] false [] [] [] None [].

Fixpoint cut_colon (line : list Z) : list Z * option (list Z) :=
  match line with
  | [] => ([], None)
  | c :: line => if decide (c = 58) then ([], Some line) else let '(f, v) := cut_colon line in (c :: f, v)
  end.

Definition field_value (v : option (list Z)) : list Z :=
  match v with Some (32 :: v) => v | Some v => v | None => [] end.

Definition digits_val (l : list Z) : Z := foldl (λ n d, 10 * n + (d - 48)) 0 l.

Definition set_field (field value : list Z) (s : source) : source :=
  let '(Source line cr data type id retry out) := s in
  if decide (field = js "event") then Source line cr data value id retry out
  else if decide (field = js "data") then Source line cr (data ++ value ++ [10]) type id retry out
  else if decide (field = js "id") then
    if decide (0 ∈ value) then s else Source line cr data type value retry out
  else if decide (field = js "retry") then
    if decide (Forall (λ u, 48 ≤ u ≤ 57) value) then Source line cr data type id (Some (digits_val value)) out
    else s
  else s.

Definition dispatch (s : source) : source :=
  let '(Source line cr data type id retry out) := s in
  if decide (data = []) then Source line cr [] [] id retry out
  else Source line cr [] [] id retry
         (out ++ [Msg (if decide (type = []) then js "message" else type) (take (pred (length data)) data) id]).

Definition end_line (cr : bool) (s : source) : source :=
  let line := s_line s in
  let s := Source [] cr (s_data s) (s_type s) (s_id s) (s_retry s) (s_out s) in
  if decide (line = []) then dispatch s
  else let '(f, v) := cut_colon line in set_field f (field_value v) s.

Definition read_byte (s : source) (b : Z) : source :=
  if decide (b = 10 ∧ s_cr s = true) then
    Source (s_line s) false (s_data s) (s_type s) (s_id s) (s_retry s) (s_out s)
  else if decide (b = 10) then end_line false s
  else if decide (b = 13) then end_line true s
  else Source (s_line s ++ [b]) false (s_data s) (s_type s) (s_id s) (s_retry s) (s_out s).

Definition read_stream (s : source) (bs : list Z) : source := foldl read_byte s bs.

(** Between events. *)
Definition idle (s : source) : Prop := s_line s = [] ∧ s_cr s = false ∧ s_data s = [] ∧ s_type s = [].

(** ** Reading what was encoded *)

Definition one_line (l : list Z) : Prop := 10 ∉ l ∧ 13 ∉ l.

Lemma read_app s a b : read_stream s (a ++ b) = read_stream (read_stream s a) b.
Proof. apply foldl_app. Qed.

Lemma read_text l : ∀ s, one_line l → s_cr s = false →
  read_stream s l = Source (s_line s ++ l) false (s_data s) (s_type s) (s_id s) (s_retry s) (s_out s).
Proof.
  induction l as [|b l IH]; intros s [H10 H13] Hcr.
  - destruct s. cbn in *. by rewrite app_nil_r, Hcr.
  - apply not_elem_of_cons in H10 as [? H10]. apply not_elem_of_cons in H13 as [? H13].
    change (read_stream s (b :: l)) with (read_stream (read_byte s b) l).
    unfold read_byte. rewrite !decide_False by intuition congruence.
    rewrite IH by done. cbn. by rewrite <-app_assoc.
Qed.

(** A whole line, read from the start of a line. *)
Lemma read_line l s : one_line l → s_line s = [] → s_cr s = false →
  read_stream s (l ++ [10]) =
    if decide (l = []) then dispatch s else let '(f, v) := cut_colon l in set_field f (field_value v) s.
Proof.
  intros Hl Hs Hcr. rewrite read_app, (read_text l s Hl Hcr), Hs. cbn [read_stream foldl app]. unfold read_byte. cbn [s_cr]. rewrite (decide_False (P := 10 = 10 ∧ false = true)) by (by intros [_ ?]).
  rewrite (decide_True (P := 10 = 10)) by done. unfold end_line. cbn [s_line s_data s_type s_id s_retry s_out].
  replace (Source [] false (s_data s) (s_type s) (s_id s) (s_retry s) (s_out s)) with s; [done|].
  destruct s. cbn in *. by subst.
Qed.

Lemma cut_field (name : string) v : 58 ∉ js name → cut_colon (js name ++ 58 :: v) = (js name, Some v).
Proof.
  generalize (js name). induction l as [|c l IH]; intros Hl; cbn; [done|].
  apply not_elem_of_cons in Hl as [? Hl]. rewrite decide_False by congruence. by rewrite IH.
Qed.

(** A field line as the encoder writes it. *)
Lemma read_field (name : string) v s :
  one_line v → bool_decide (one_line (js name) ∧ 58 ∉ js name) = true → s_line s = [] → s_cr s = false →
  read_stream s ((js name ++ 58 :: 32 :: v) ++ [10]) = set_field (js name) v s.
Proof.
  intros [H10 H13] [[N10 N13] N58]%bool_decide_eq_true Hs Hcr. rewrite read_line; [|split|done|done].
  - rewrite decide_False by (by intros [_ [=]]%app_nil). by rewrite cut_field.
  - apply not_elem_of_app. split; [done|]. repeat (apply not_elem_of_cons; split; [lia|]). done.
  - apply not_elem_of_app. split; [done|]. repeat (apply not_elem_of_cons; split; [lia|]). done.
Qed.

(** What the source is after the lines that are present. *)
Definition after_id (id : option (list Z)) (last : list Z) : list Z :=
  match id with Some id => if decide (0 ∈ id) then last else id | None => last end.
Definition after_retry (retry last : option Z) : option Z := match retry with Some n => Some n | None => last end.

Lemma data_lines ls : ∀ s, Forall one_line ls → s_line s = [] → s_cr s = false →
  read_stream s (ls ≫= line_bytes) =
    Source [] false (s_data s ++ (ls ≫= λ l, l ++ [10])) (s_type s) (s_id s) (s_retry s) (s_out s).
Proof.
  induction ls as [|l ls IH]; intros s Hls Hs Hcr.
  - cbn. rewrite app_nil_r. destruct s. cbn in *. by subst.
  - apply Forall_cons in Hls as [Hl Hls]. cbn [mbind list_bind]. rewrite read_app.
    change (line_bytes l) with ((js "data" ++ 58 :: 32 :: l) ++ [10]).
    rewrite (read_field "data" l _ Hl eq_refl) by done.
    destruct s as [line cr data type id retry out]. cbn in Hs, Hcr. subst.
    unfold set_field. rewrite decide_False by (by vm_compute). rewrite decide_True by done.
    rewrite IH by done. cbn. by rewrite <-!app_assoc.
Qed.

Lemma split_lines data : 13 ∉ data → Forall one_line (split 10 data).
Proof.
  intros H13. induction data as [|x data IH]; cbn [split].
  - repeat constructor; apply not_elem_of_nil.
  - apply not_elem_of_cons in H13 as [Hx H13]. specialize (IH H13). case_decide.
    + constructor; [|done]. split; apply not_elem_of_nil.
    + destruct (split 10 data) as [|seg segs]; [repeat constructor; apply not_elem_of_cons; split; (congruence || apply not_elem_of_nil)|].
      apply Forall_cons in IH as [[H1 H2] IH]. constructor; [|done].
      split; apply not_elem_of_cons; (split; [congruence|done]).
Qed.

Lemma digits_val_dec n : is_u32 n → digits_val (dec n) = n.
Proof.
  intros Hn. destruct (digits_dec n Hn) as (ds & E & -> & _).
  assert (Hg : ∀ fuel n acc, 0 ≤ n → digits_loop fuel n acc = Some ds →
    ∃ ds', ds = acc ++ ds' ∧ ∀ m, foldl (λ n d, 10 * n + (d - 48)) m (reverse ds') = m * 10 ^ zlen ds' + n).
  { clear. induction fuel as [|fuel IH]; intros n acc Hn; [done|]. cbn. case_decide as Hz.
    - intros [= <-]. exists [48 + n mod 10]. split; [done|]. intros m. cbn. change (zlen [_]) with 1. zdm.
    - intros E. apply IH in E as (ds' & -> & E); [|zdm]. exists ((48 + n mod 10) :: ds').
      rewrite <-app_assoc. split; [done|]. intros m. rewrite reverse_cons, foldl_app, E. cbn [foldl].
      rewrite zlen_cons, Z.pow_add_r by zlia. change (10 ^ 1) with 10.
      pose proof (Z.div_mod n 10). nia. }
  destruct (Hg 20%nat n [] ltac:(unfold is_u32 in Hn; lia) E) as (ds' & -> & E').
  unfold digits_val. rewrite app_nil_l, E'. lia.
Qed.

(** ** Events *)

Definition message_type (event : option (list Z)) : list Z :=
  match event with Some t => if decide (t = []) then js "message" else t | None => js "message" end.

Lemma lines_total data : (split 10 data ≫= λ l, l ++ [10]) = data ++ [10].
Proof.
  rewrite <-(join_split 10 data) at 2. destruct (split 10 data) as [|l ls] eqn:E; [by apply split_nonempty in E|].
  by rewrite join_lines.
Qed.

(** One event of the encoder, read between events, is one message. *)
Lemma read_event event data id retry s : idle s →
  one_line (default [] event) → one_line (default [] id) → 13 ∉ data → retry_ok retry →
  read_stream s (event_bytes event data id retry) =
    Source [] false [] [] (after_id id (s_id s)) (after_retry retry (s_retry s))
      (s_out s ++ [Msg (message_type event) data (after_id id (s_id s))]).
Proof.
  destruct s as [line cr dat type lid lretry out]. intros (Hs & Hcr & Hd & Ht) He Hi H13 Hr.
  cbn in Hs, Hcr, Hd, Ht. subst. unfold event_bytes. rewrite !read_app.
  assert (E1 : read_stream (Source [] false [] [] lid lretry out)
                 (match id with Some id => js "id: " ++ id ++ [10] | None => [] end) =
               Source [] false [] [] (after_id id lid) lretry out).
  { destruct id as [id|]; [|done]. change (one_line id) in Hi. change (js "id: " ++ id ++ [10]) with ((js "id" ++ 58 :: 32 :: id) ++ [10]).
    rewrite (read_field "id" id (Source [] false [] [] lid lretry out) Hi eq_refl eq_refl eq_refl).
    unfold set_field. rewrite !decide_False by (by vm_compute). rewrite decide_True by done.
    unfold after_id. by case_decide. }
  rewrite E1. clear E1.
  assert (E2 : ∀ i, read_stream (Source [] false [] [] i lretry out)
                 (match event with Some event => js "event: " ++ event ++ [10] | None => [] end) =
               Source [] false [] (default [] event) i lretry out).
  { intros i. destruct event as [t|]; [|done]. change (one_line t) in He. change (js "event: " ++ t ++ [10]) with ((js "event" ++ 58 :: 32 :: t) ++ [10]).
    rewrite (read_field "event" t (Source [] false [] [] i lretry out) He eq_refl eq_refl eq_refl).
    unfold set_field. by rewrite decide_True by done. }
  rewrite E2. clear E2.
  assert (E3 : ∀ t i, read_stream (Source [] false [] t i lretry out)
                 (match retry with Some n => js "retry: " ++ dec n ++ [10] | None => [] end) =
               Source [] false [] t i (after_retry retry lretry) out).
  { intros t i. destruct retry as [n|]; [|done]. destruct (dec_ascii n Hr) as [_ Hdg].
    change (js "retry: " ++ dec n ++ [10]) with ((js "retry" ++ 58 :: 32 :: dec n) ++ [10]).
    assert (Hl : one_line (dec n)).
    { rewrite Forall_forall in Hdg. split; intros Hin%Hdg; cbn in Hin; lia. }
    rewrite (read_field "retry" (dec n) (Source [] false [] t i lretry out) Hl eq_refl eq_refl eq_refl).
    unfold set_field. rewrite !decide_False by (by vm_compute). rewrite decide_True by done.
    rewrite decide_True by done. by rewrite digits_val_dec. }
  rewrite E3. clear E3.
  change (λ line, js "data: " ++ line ++ [10]) with line_bytes.
  rewrite data_lines by (done || by apply split_lines). cbn [s_data s_type s_id s_retry s_out app].
  rewrite lines_total. change (read_stream ?x [10]) with (dispatch x). unfold dispatch. rewrite decide_False by (by intros [_ [=]]%app_nil).
  rewrite length_app, Nat.add_1_r. cbn [pred]. rewrite take_app_length.
  unfold message_type. by destruct event as [t|].
Qed.

(** The messages of a stream of events, each with the id in force. *)
Fixpoint messages (last : list Z) (evs : list sse_event) : list message :=
  match evs with
  | [] => []
  | e :: evs =>
      let last := after_id (encodeUtf8 <$> e_id e) last in
      Msg (message_type (encodeUtf8 <$> e_event e)) (e_data e) last :: messages last evs
  end.

Definition readable (e : sse_event) : Prop :=
  ev_ok e ∧ one_line (default [] (e_event e)) ∧ one_line (default [] (e_id e)) ∧ 13 ∉ e_data e.

Lemma one_line_encode o : Forall is_unit (default [] o) → one_line (default [] o) →
  one_line (default [] (encodeUtf8 <$> o)).
Proof.
  destruct o as [s|]; [|done]. cbn. intros Hu [H1 H2].
  split; intros Hin; apply encode_elem in Hin; done || lia.
Qed.

(** A whole stream. *)
Lemma read_events (evs : list sse_event) (s : source) :
  Forall readable evs → idle s →
  let s' := read_stream s (evs ≫= ev_bytes) in
  idle s' ∧ s_out s' = s_out s ++ messages (s_id s) evs ∧
  s_retry s' = foldl (λ last e, after_retry (e_retry e) last) (s_retry s) evs.
Proof.
  intros Hevs. revert s. induction Hevs as [|e evs (Hok & He & Hi & H13) Hevs IH]; intros s Hs; cbn zeta.
  { cbn. by rewrite app_nil_r. }
  cbn [mbind list_bind messages foldl]. rewrite read_app. destruct Hok as (Hue & Hui & Hr).
  pose proof (read_event (encodeUtf8 <$> e_event e) (e_data e) (encodeUtf8 <$> e_id e) (e_retry e) s Hs
    (one_line_encode _ Hue He) (one_line_encode _ Hui Hi) H13 Hr) as E.
  change (event_bytes _ _ _ _) with (ev_bytes e) in E. rewrite E.
  destruct (IH (Source [] false [] [] (after_id (encodeUtf8 <$> e_id e) (s_id s)) (after_retry (e_retry e) (s_retry s))
    (s_out s ++ [Msg (message_type (encodeUtf8 <$> e_event e)) (e_data e) (after_id (encodeUtf8 <$> e_id e) (s_id s))])))
    as (H1 & H2 & H3); [done|].
  split; [exact H1|]. split; [|exact H3]. etransitivity; [exact H2|]. cbn [s_out s_id]. by rewrite <-app_assoc.
Qed.

Lemma read_chunks chunks : ∀ s, foldl read_stream s chunks = read_stream s (mjoin chunks).
Proof.
  induction chunks as [|c chunks IH]; intros s; [done|]. cbn [foldl mjoin list_join]. by rewrite read_app, IH.
Qed.

Section sent.
Context `{Memchr} `{Alloc}.

(** The calls of the public [sseEncodeEvent] over the two bindings and their memo return
    the events' bytes, those through Bun as long as they fit its mebibyte. *)
Lemma encode_calls_run (calls : list (bool * sse_event)) : ∀ m, memo_ok m →
  Forall (λ c, ev_ok c.2 ∧ (c.1 = true → zlen (ev_bytes c.2) ≤ 1048576)) calls →
  ∃ m', attempts (encode_call <$> calls) m = (Ok <$> ((λ c, ev_bytes c.2) <$> calls), m').
Proof.
  induction calls as [|c calls IH]; intros m Hm Hc; [by exists m|].
  apply Forall_cons in Hc as [[Hok Hsize] Hc].
  destruct (encode_call_run c m Hm Hok) as (m1 & E1 & Hm1). destruct (IH m1 Hm1 Hc) as (m2 & E2).
  exists m2. cbn [fmap list_fmap attempts] in *. rewrite E1, E2. unfold sse_result.
  destruct c.1; [|done]. by rewrite bool_decide_eq_false_2 by (specialize (Hsize eq_refl); lia).
Qed.

(** C18. Events encoded by any sequence of calls of [sseEncodeEvent], over the two bindings
    and their shared memo, each within Bun's mebibyte when it goes through Bun: every call
    returns, and what a browser reads from the returned bytes sent one after the other,
    however the network cuts them into chunks, is one message per event, in order, with its
    type, its data unchanged and the id in force, and it is between events afterwards;
    provided that no name or id holds a line break and no data a carriage return. *)
Theorem sse_stream_roundtrip (calls : list (bool * sse_event)) :
  Forall (λ c, readable c.2 ∧ (c.1 = true → zlen (ev_bytes c.2) ≤ 1048576)) calls →
  ∃ sent m, attempts (encode_call <$> calls) new_memo = (Ok <$> sent, m) ∧
    ∀ chunks s, mjoin chunks = mjoin sent → idle s →
      let s' := foldl read_stream s chunks in
      idle s' ∧ s_out s' = s_out s ++ messages (s_id s) calls.*2 ∧
      s_retry s' = foldl (λ last e, after_retry (e_retry e) last) (s_retry s) calls.*2.
Proof.
  intros Hc. destruct (encode_calls_run calls new_memo new_memo_ok) as (m & E).
  { eapply Forall_impl; [exact Hc|]. by intros c [[Hok _] Hsize]. }
  exists ((λ c, ev_bytes c.2) <$> calls), m. split; [exact E|]. intros chunks s Hj Hs s'. subst s'.
  rewrite read_chunks, Hj. replace (mjoin _) with (calls.*2 ≫= ev_bytes).
  - apply read_events; [|done]. apply Forall_fmap. eapply Forall_impl; [exact Hc|]. by intros c [Hr _].
  - clear. induction calls as [|c calls IH]; [done|]. cbn [fmap list_fmap mbind list_bind mjoin list_join]. by f_equal.
Qed.

End sent.

(** A line break in a name, or a carriage return in the data, is a field of its own: the
    text of one becomes fields of another event. *)
Lemma sse_injection :
  s_out (read_stream new_source (ev_bytes (Ev (Some (js "a" ++ [10] ++ js "data: forged" ++ [10; 10])) (js "x") None None))) =
    [Msg (js "a") (js "forged") []; Msg (js "message") (js "x") []] ∧
  s_out (read_stream new_source (ev_bytes (Ev None (js "x" ++ [13] ++ js "id: 7") None None))) =
    [Msg (js "message") (js "x") (js "7")].
Proof. split; vm_compute; reflexivity. Qed.

(** ** The stream and its controller

    The parts of the Streams standard the helper meets: a chunk goes to a waiting read or
    into the queue, [close] waits for the queue to be read, an error drops it. *)

Inductive rs_state := Readable | Closed | Errored (e : js_error).

Record stream := Stream {
  rs : rs_state; queue : list (list Z); closeRequested : bool;
  reads : nat;                       (* reads that wait for a chunk *)
  chunks : list (list Z) }.          (* what reads were given *)

Definition new_stream : stream := Stream Readable [] false 0 [].

Definition canCloseOrEnqueue (s : stream) : bool :=
  match rs s with Readable => negb (closeRequested s) | _ => false end.

Definition not_open : js_error := TypeError "Controller is already closed".

(** [controller.enqueue], [controller.close] and the error of a rejected [start]. *)
Definition enqueue (chunk : list Z) : SE stream unit := λ s,
  if negb (canCloseOrEnqueue s) then (Throw not_open, s)
  else (Ok tt, match reads s with
               | O => Stream (rs s) (queue s ++ [chunk]) (closeRequested s) 0 (chunks s)
               | S n => Stream (rs s) (queue s) (closeRequested s) n (chunks s ++ [chunk])
               end).

Definition close : SE stream unit := λ s,
  if negb (canCloseOrEnqueue s) then (Throw not_open, s)
  else (Ok tt, match queue s with
               | [] => Stream Closed [] true 0 (chunks s)
               | _ => Stream (rs s) (queue s) true (reads s) (chunks s)
               end).

Definition error_ (e : js_error) (s : stream) : stream :=
  match rs s with
  | Readable => Stream (Errored e) [] (closeRequested s) 0 (chunks s)
  | _ => s
  end.

(** What the reader of the body does. *)
Inductive act := Read | Cancel.

Definition react (s : stream) (a : act) : stream :=
  match a, rs s with
  | Read, Readable =>
      match queue s with
      | [] => Stream Readable [] (closeRequested s) (S (reads s)) (chunks s)
      | c :: q =>
          let st := match q with [] => if closeRequested s then Closed else Readable | _ => Readable end in
          Stream st q (closeRequested s) (reads s) (chunks s ++ [c])
      end
  | Cancel, Readable => Stream Closed [] (closeRequested s) 0 (chunks s)
  | _, _ => s
  end.

(** ** sseResponse *)

Record SseEvent := {
  v_event : option (list Z); v_id : option (list Z); v_retry : option Z;
  v_data : list Z + list Z }.          (* a string or bytes *)

Definition event_of (v : SseEvent) : sse_event :=
  Ev (v_event v) (match v_data v with inl s => encodeUtf8 s | inr b => b end) (v_id v) (v_retry v).

(** How a turn of [for await] goes. *)
Inductive turn := Event (v : SseEvent) | Done | Failed (e : js_error).
Inductive loop_end := Waiting | Exhausted.

Section response.
Context `{Memchr} `{Alloc} (ffi : bool).

Fixpoint event_loop (w : list (list act * turn)) : SE (stream * sse_memo) loop_end := λ '(s, m),
  match w with
  | [] => (Ok Waiting, (s, m))
  | (acts, t) :: w =>
      let s := foldl react s acts in
      match t with
      | Done => (Ok Exhausted, (s, m))
      | Failed e => (Throw e, (s, m))
      | Event v =>
          let ev := event_of v in
          match sseEncodeEvent ffi (e_event ev) (e_data ev) (e_id ev) (e_retry ev) m with
          | (Throw e, m) => (Throw e, (s, m))
          | (Ok bytes, m) =>
              match enqueue bytes s with
              | (Throw e, s) => (Throw e, (s, m))
              | (Ok _, s) => event_loop w (s, m)
              end
          end
      end
  end.

(** [start]: the loop, [finally { controller.close() }], and the rejection of the promise,
    which the stream sees after [late]. *)
Definition start (w : list (list act * turn)) (late : list act) (m : sse_memo) : stream :=
  match event_loop w (new_stream, m) with
  | (Ok Waiting, (s, _)) => s
  | (r, (s, _)) =>
      match close s, r with
      | (Throw e, s), _ | (Ok _, s), Throw e => error_ e (foldl react s late)
      | (Ok _, s), Ok _ => s
      end
  end.

End response.

(** The merged headers; whichever form [init.headers] has, it is its entries that are
    assigned to a plain object. *)
Definition sse_header_record (provided : list header) : jsobj :=
  let merged := foldl (λ o p, obj_set o p.1 (JStr p.2)) empty_obj provided in
  let merged := obj_set merged (js "content-type") (JStr (js "text/event-stream")) in
  let merged := obj_set merged (js "cache-control") (JStr (js "no-cache")) in
  obj_set merged (js "connection") (JStr (js "keep-alive")).

Definition sse_headers (provided : list header) : Headers :=
  new_Headers (omap (λ p, match p.2 with JStr v => Some (p.1, v) | _ => None end) (own (sse_header_record provided))).

(** ** Proofs *)

(** The state after [R] reads and the chunks [all], before and after [close]. *)
Definition open_at (all : list (list Z)) (R : nat) : stream :=
  Stream Readable (drop R all) false (R - length all) (take R all).
Definition closing_at (all : list (list Z)) (R : nat) : stream :=
  if decide (length all ≤ R)%nat then Stream Closed [] true 0 all
  else Stream Readable (drop R all) true 0 (take R all).

Lemma open_read all R : react (open_at all R) Read = open_at all (S R).
Proof.
  unfold open_at, react. cbn [rs queue closeRequested reads chunks].
  destruct (drop R all) as [|c q] eqn:E.
  - apply (f_equal length) in E as El. rewrite length_drop in El. cbn in El.
    rewrite (drop_ge all (S R)), !take_ge by lia. f_equal. lia.
  - apply (f_equal length) in E as El. rewrite length_drop in El. cbn in El.
    assert (Hc : all !! R = Some c) by (rewrite <-(Nat.add_0_r R), <-lookup_drop, E; done).
    rewrite (take_S_r _ _ _ Hc).
    replace (drop (S R) all) with q by (rewrite <-Nat.add_1_r, <-drop_drop, E; done).
    f_equal; [by destruct q|lia].
Qed.

Lemma open_reads all acts : ∀ R, Forall (eq Read) acts →
  foldl react (open_at all R) acts = open_at all (R + length acts).
Proof.
  induction acts as [|a acts IH]; intros R Ha; cbn [foldl length]; [by rewrite Nat.add_0_r|].
  apply Forall_cons in Ha as [<- Ha]. rewrite open_read, IH by done. f_equal. lia.
Qed.

Lemma open_enqueue all R chunk : enqueue chunk (open_at all R) = (Ok tt, open_at (all ++ [chunk]) R).
Proof.
  unfold enqueue, open_at. cbn. f_equal. rewrite length_app. cbn [length].
  destruct (R - length all)%nat as [|n] eqn:E.
  - rewrite drop_app_le, take_app_le by lia. f_equal. lia.
  - rewrite !drop_ge, !take_ge by (rewrite ?length_app; cbn; lia). f_equal. lia.
Qed.

Lemma open_close all R : close (open_at all R) = (Ok tt, closing_at all R).
Proof.
  unfold close, open_at, closing_at. cbn. f_equal. case_decide as Hd.
  - by rewrite drop_ge, take_ge by lia.
  - destruct (drop R all) as [|c q] eqn:E; [apply (f_equal length) in E; rewrite length_drop in E; cbn in E; lia|].
    f_equal. lia.
Qed.

Lemma closing_read all R : react (closing_at all R) Read = closing_at all (S R).
Proof.
  unfold closing_at. case_decide as Hd; [by rewrite decide_True by lia|].
  unfold react. cbn [rs queue closeRequested reads chunks].
  destruct (drop R all) as [|c q] eqn:E; apply (f_equal length) in E as El; rewrite length_drop in El; cbn in El; [lia|].
  assert (Hc : all !! R = Some c) by (rewrite <-(Nat.add_0_r R), <-lookup_drop, E; done).
  assert (Hq : drop (S R) all = q) by (rewrite <-Nat.add_1_r, <-drop_drop, E; done).
  rewrite <-(take_S_r _ _ _ Hc). destruct q as [|c' q]; cbn in El.
  - rewrite decide_True by lia. rewrite take_ge by lia. done.
  - rewrite decide_False by lia. by rewrite Hq.
Qed.

Lemma closing_reads all acts : ∀ R, Forall (eq Read) acts →
  foldl react (closing_at all R) acts = closing_at all (R + length acts).
Proof.
  induction acts as [|a acts IH]; intros R Ha; cbn [foldl length]; [by rewrite Nat.add_0_r|].
  apply Forall_cons in Ha as [<- Ha]. rewrite closing_read, IH by done. f_equal. lia.
Qed.

Section outcome.
Context `{Memchr} `{Alloc} (ffi : bool).

(** Events the binding can encode. *)
Definition sendable (v : SseEvent) : Prop :=
  ev_ok (event_of v) ∧ (ffi = true → zlen (ev_bytes (event_of v)) ≤ 1048576).

Definition events (w : list (list act * SseEvent)) : list (list act * turn) := (λ p, (p.1, Event p.2)) <$> w.
Definition encoded (w : list (list act * SseEvent)) : list (list Z) := (λ p, ev_bytes (event_of p.2)) <$> w.
Definition reads_of (acts : list (list act)) : nat := length (mjoin acts).

Lemma loop_events (w : list (list act * SseEvent)) tl : ∀ all R m, memo_ok m →
  Forall (λ p, Forall (eq Read) p.1 ∧ sendable p.2) w →
  ∃ m', memo_ok m' ∧ event_loop ffi (events w ++ tl) (open_at all R, m) =
    event_loop ffi tl (open_at (all ++ encoded w) (R + reads_of w.*1), m').
Proof.
  induction w as [|[acts v] w IH]; intros all R m Hm Hw.
  { exists m. split; [done|]. unfold events, encoded, reads_of. cbn [fmap list_fmap app mjoin list_join length].
    by rewrite app_nil_r, Nat.add_0_r. }
  apply Forall_cons in Hw as [[Hr [Hok Hsize]] Hw]. cbn [fst snd] in *.
  unfold events. cbn [fmap list_fmap app event_loop fst snd].
  rewrite open_reads by done.
  destruct (encode_call_run (ffi, event_of v) m Hm Hok) as (m1 & E & Hm1).
  unfold encode_call in E. cbn [fst snd] in E. rewrite E. unfold sse_result.
  assert (Hb : ffi && bool_decide (1048576 < zlen (ev_bytes (event_of v))) = false).
  { destruct ffi; [|done]. cbn [andb]. apply bool_decide_eq_false. specialize (Hsize eq_refl). lia. }
  rewrite Hb, open_enqueue. destruct (IH (all ++ [ev_bytes (event_of v)]) (R + length acts)%nat m1 Hm1 Hw) as (m' & Hm' & E').
  exists m'. split; [done|]. unfold events in E'. rewrite E'. f_equal. f_equal. unfold encoded, reads_of.
  cbn [fmap list_fmap fst snd mjoin list_join]. rewrite <-app_assoc, length_app, Nat.add_assoc. done.
Qed.

(** C19. A response over events that can be encoded, for every interleaving of the source
    with a reader that does not cancel, [R] reads in all.  A source that ends: the reader
    is given the first [R] encoded events in order and the stream closes once it has read
    all of them, and then a browser has read one message per event.  A source that fails:
    if the reader has asked for every event so far by the time [start] rejects, the stream
    is closed and complete as if the source had ended, and the failure is lost; otherwise
    it fails, and the events that were not read yet are lost. *)
Theorem sse_response_outcome (w : list (list act * SseEvent)) (last late : list act) (e : js_error) :
  Forall (λ p, Forall (eq Read) p.1 ∧ sendable p.2) w → Forall (eq Read) last → Forall (eq Read) late →
  let all := encoded w in
  let R := reads_of (w.*1 ++ [last]) in
  foldl react (start ffi (events w ++ [(last, Done)]) [] new_memo) late = closing_at all (R + length late) ∧
  (Forall (λ p, readable (event_of p.2)) w → (length all ≤ R)%nat →
     s_out (read_stream new_source (mjoin (chunks (start ffi (events w ++ [(last, Done)]) [] new_memo)))) =
     messages [] ((λ p, event_of p.2) <$> w)) ∧
  start ffi (events w ++ [(last, Failed e)]) late new_memo =
    (if decide (length all ≤ R + length late)%nat then Stream Closed [] true 0 all
     else Stream (Errored e) [] true 0 (take (R + length late) all)).
Proof.
  intros Hw Hlast Hlate all R.
  assert (HR : (0 + reads_of w.*1 + length last)%nat = R).
  { unfold R, reads_of. rewrite join_app, length_app. cbn. rewrite app_nil_r. done. }
  assert (Hrun : ∀ t, ∃ m', event_loop ffi (events w ++ [(last, t)]) (new_stream, new_memo) =
            event_loop ffi [(last, t)] (open_at all (0 + reads_of w.*1), m')).
  { intros t. destruct (loop_events w [(last, t)] [] 0 new_memo new_memo_ok Hw) as (m' & _ & E). by exists m'. }
  assert (Hdone : start ffi (events w ++ [(last, Done)]) [] new_memo = closing_at all R).
  { destruct (Hrun Done) as (m' & E). unfold start. rewrite E. cbn [event_loop].
    rewrite open_reads, HR by done. by rewrite open_close. }
  rewrite Hdone. split; [by apply closing_reads|]. split.
  - intros Hread HallR. unfold closing_at. rewrite decide_True by done. cbn [chunks].
    replace (mjoin all) with (((λ p, event_of p.2) <$> w) ≫= ev_bytes)
      by (unfold all, encoded; clear; induction w as [|p w IH]; [done|by cbn [fmap list_fmap mbind list_bind mjoin list_join]; f_equal]).
    destruct (read_events ((λ p, event_of p.2) <$> w) new_source) as (_ & -> & _); [by apply Forall_fmap|done|done].
  - destruct (Hrun (Failed e)) as (m' & E). unfold start. rewrite E. cbn [event_loop].
    rewrite open_reads, HR by done. rewrite open_close, closing_reads by done. unfold closing_at.
    by case_decide.
Qed.

End outcome.

(** ** Headers *)

(** A forced header replaces the caller's when the name is written in lower case; another
    spelling is a second entry, and the values are joined. *)
Lemma sse_content_type_joined :
  sse_headers [(js "Content-Type", js "text/plain")] !! js "content-type" = Some (js "text/plain, text/event-stream") ∧
  sse_headers [(js "content-type", js "text/plain")] !! js "content-type" = Some (js "text/event-stream").
Proof. split; vm_compute; reflexivity. Qed.

(** ** Witnesses *)

Definition hello : SseEvent := {| v_event := Some (js "up"); v_id := Some (js "1"); v_retry := Some 1500; v_data := inl (js "a" ++ [10] ++ js "b") |}.
Definition bare : SseEvent := {| v_event := None; v_id := None; v_retry := None; v_data := inr [120] |}.

Lemma hello_readable : readable (event_of hello).
Proof.
  split_and!; [repeat constructor; (unfold is_unit, is_u32; vm_compute; intuition congruence)|..];
    repeat split; apply (bool_decide_unpack _); vm_compute; exact I.
Qed.

Lemma bare_readable : readable (event_of bare).
Proof.
  split_and!; [repeat constructor|..]; repeat split; apply (bool_decide_unpack _); vm_compute; exact I.
Qed.

Lemma sse_stream_roundtrip_witness :
  ∃ sent m, attempts (@encode_call std_memchr sevens <$> [(true, event_of hello); (false, event_of bare)]) new_memo =
              (Ok <$> sent, m) ∧
    s_out (foldl read_stream new_source [take 7 (mjoin sent); drop 7 (mjoin sent)]) =
      [Msg (js "up") (js "a" ++ [10] ++ js "b") (js "1"); Msg (js "message") [120] (js "1")].
Proof.
  destruct (@sse_stream_roundtrip std_memchr sevens [(true, event_of hello); (false, event_of bare)])
    as (sent & m & E & Hread).
  - apply Forall_cons_2; [|apply Forall_cons_2; [|apply Forall_nil_2]].
    + split; [apply hello_readable|]. intros _. apply (bool_decide_unpack _). vm_compute. exact I.
    + split; [apply bare_readable|]. done.
  - exists sent, m. split; [exact E|]. destruct (Hread [take 7 (mjoin sent); drop 7 (mjoin sent)] new_source) as (_ & Eo & _).
    + cbn [mjoin list_join]. by rewrite app_nil_r, take_drop.
    + exact (conj eq_refl (conj eq_refl (conj eq_refl eq_refl))).
    + exact Eo.
Defined.

Lemma sse_response_outcome_witness :
  start (H := std_memchr) (H0 := sevens) true (events [([Read; Read], hello)] ++ [([], Failed (js_Error "down"))]) [] new_memo =
    Stream Closed [] true 0 [ev_bytes (event_of hello)].
Proof.
  destruct (@sse_response_outcome std_memchr sevens true [([Read; Read], hello)] [] [] (js_Error "down")) as (_ & _ & E).
  - apply Forall_cons_2; [|apply Forall_nil_2]. split; [by repeat constructor|].
    split; [apply hello_readable|]. intros _. apply (bool_decide_unpack _). vm_compute. exact I.
  - constructor.
  - constructor.
  - exact E.
Defined.
