(* ===== verification/Pipeline.v ===== *)
(** The framework-agnostic pipeline (integration/pipeline.ts) and the WebSocket handshake
    helper (integration/websocket.ts with rust-ffi/text.ts).

    The pipeline is a client of the handler interface of Routes; how the body read ends
    (Body) and the request id (RequestId) are arguments.  [locals], an empty map made for
    the application, is not represented.  Subprotocols are ASCII tokens. *)

From stdpp Require Import base list strings.
From S2P Require Import Prelude.
From S2P Require Import Utf8.
From S2P Require Import JsString.
From S2P Require Import Wire.
From S2P Require Import Decode.
From S2P Require Import HeaderTemplates.
From S2P Require Import ResponseBuilders.
From S2P Require Import RouteWire.
From S2P Require Import Body.
From S2P Require Import Handler.
From S2P Require Import StateErr.
From S2P Require Import FfiBuffer.
From S2P Require Import FfiCodecs.
From S2P Require Import Routes.
From S2P Require Import RoutesSpec.
Open Scope Z_scope.

(** ** pipeline.ts *)

Record PipelineResult := PResult {
  r_ok : bool; r_status : Z; r_errorCode : Z; r_terminal : bool; r_rateLimited : bool;
  r_bodyValidJson : bool; r_schemaValid : bool; r_bodyTruncated : bool;
  r_requestId : list Z; r_body : list Z; r_metadataJson : list Z }.

Record PipelineContext := PContext { c_requestId : list Z; c_ip : option (list Z) }.

Record PreprocessOutcome := Outcome {
  o_terminal : bool; o_response : option Resp; o_result : option PipelineResult; o_ctx : PipelineContext }.

Definition snapshotResult (r : IngressResultBase) (requestId : list Z) : PipelineResult :=
  PResult (ok r) (status r) (Decode.errorCode r) (terminal r) (rateLimited r) (bodyValidJson r)
    (schemaValid r) (bodyTruncated r) requestId (body r) (bodyJson r true).

(** What a request meets: whether it has a body and how reading it ends. *)
Record PipelineWorld := { p_has_body : bool; p_read : body_value + body_error }.

Section pipeline.
Context {S : Type} (I : OptimizedIngressHandler S).

Definition bodyErrorResponse (rq : Handler.Request) (requestId : list Z) (err : body_error) : SE S Resp :=
  let ctx := BCtx (Some requestId) (headers rq "origin") in
  if decide (err_code err = Some (js "BODY_TOO_LARGE")) then
    ig_errorResponse I None 413 (js "body_too_large") (js "Request body is too large") ctx
  else if decide (err_code err = Some (js "REQUEST_TIMEOUT")) then
    ig_errorResponse I None 408 (js "request_timeout") (js "Request body read timed out") ctx
  else ig_errorResponse I None 400 (js "bad_request") (js "Bad request") ctx.

(** The callback of [ingress.run]. *)
Definition preprocess_callback (requestId : list Z) (ctx : PipelineContext)
    (r : IngressResultBase) (ingressCtx : BakedContext) : SE S PreprocessOutcome :=
  if terminal r then t ← ig_terminalResponse I r ingressCtx; mret (Outcome true t None ctx)
  else mret (Outcome false None (Some (snapshotResult r requestId)) ctx).

Definition preprocess (readBodyEnabled : bool) (requestId : list Z) (rq : Handler.Request)
    (ip : option (list Z)) (w : PipelineWorld) : SE S PreprocessOutcome :=
  let ctx := PContext requestId ip in
  if readBodyEnabled && p_has_body w then
    match p_read w with
    | inr err =>
        if isAbortError err then mret (Outcome true (Some abortResponse) None ctx)
        else t ← bodyErrorResponse rq requestId err; mret (Outcome true (Some t) None ctx)
    | inl bytes => ig_run I rq ip (Some bytes) (preprocess_callback requestId ctx)
    end
  else ig_run I rq ip None (preprocess_callback requestId ctx).

(** [new Response(body, { status, headers })]: a status outside 200..599, or one that may
    not have a body, is an exception. *)
Definition NULL_BODY_STATUS : list Z := [101; 204; 205; 304].
Definition new_Response (st : Z) (h : Headers) (b : list Z) : result Resp :=
  if decide (200 ≤ st ≤ 599) then
    if decide (st ∈ NULL_BODY_STATUS) then Throw (TypeError "Response with null body status cannot have body")
    else Ok (MkResp st h (RBytes b))
  else Throw (RangeError "The status provided must be 101 or in the range of 200 to 599").

(** The default renderer; [result.requestId] of [null] is an exception. *)
Definition default_render (r : option PipelineResult) (ctx : PipelineContext) : SE S Resp :=
  match r with
  | None => throw (TypeError "null is not an object")
  | Some r =>
      lift (new_Response (r_status r)
        (new_Headers [(CONTENT_TYPE, js "application/json; charset=utf-8")])
        (encodeUtf8 (json_object [json_member (js "ok") (js "true");
                                  json_member (js "requestId") (json_string (r_requestId r))])))
  end.

(** [render] takes [outcome.result as PipelineResult], which may be null. *)
Definition handleRequest (render : option PipelineResult → PipelineContext → SE S Resp)
    (readBodyEnabled : bool) (requestId : list Z) (rq : Handler.Request)
    (ip : option (list Z)) (w : PipelineWorld) : SE S Resp :=
  outcome ← preprocess readBodyEnabled requestId rq ip w;
  match o_terminal outcome, o_response outcome with
  | true, Some t => mret t
  | _, _ => render (o_result outcome) (o_ctx outcome)
  end.

(** ** The gate *)

Context (decided : Handler.Request → option (list Z) → option body_value → IngressResultBase → Prop).
Context {LI : IngressLaws I decided}.

(** What the core is handed, when it is called at all. *)
Definition body_for (readBodyEnabled : bool) (w : PipelineWorld) : option body_value + body_error :=
  if readBodyEnabled && p_has_body w then
    match p_read w with inl bytes => inl (Some bytes) | inr e => inr e end
  else inl None.

Definition read_error_status (e : body_error) : Z :=
  match e with Aborted => 499 | TooLarge => 413 | TimedOut => 408 | Other _ => 400 end.

Lemma body_error_status rq rid e s t s' : isAbortError e = false →
  bodyErrorResponse rq rid e s = (Ok t, s') → p_status t = read_error_status e.
Proof.
  unfold bodyErrorResponse. intros Ha.
  destruct e; try (by vm_compute in Ha);
    repeat (case_decide as Hd; vm_compute in Hd; try congruence); intros Ht; by apply law_error in Ht as ->.
Qed.

Lemma callback_inv rid ctx r ictx s o s' :
  preprocess_callback rid ctx r ictx s = (Ok o, s') → o_ctx o = ctx ∧
  if terminal r then ∃ t, o = Outcome true (Some t) None ctx ∧ refusal t
  else o = Outcome false None (Some (snapshotResult r rid)) ctx ∧ s' = s.
Proof.
  unfold preprocess_callback. destruct (terminal r) eqn:Et; intros Ho.
  - invs Ho. apply law_terminal in H1. invs Ho. destruct x as [t|]; [|congruence].
    split; [done|]. exists t. split; [done|]. destruct H1 as [_ []]; [by left|by right].
  - by invs Ho.
Qed.

(** An outcome of the first stage. *)
Lemma preprocess_inv enabled rid rq ip w s o s' :
  preprocess enabled rid rq ip w s = (Ok o, s') →
  o_ctx o = PContext rid ip ∧
  match body_for enabled w with
  | inr e => ∃ t, o = Outcome true (Some t) None (PContext rid ip) ∧ p_status t = read_error_status e
  | inl bodyv => ∃ r, decided rq ip bodyv r ∧
      if terminal r then ∃ t, o = Outcome true (Some t) None (PContext rid ip) ∧ refusal t
      else o = Outcome false None (Some (snapshotResult r rid)) (PContext rid ip)
  end.
Proof.
  unfold preprocess, body_for. intros Ho.
  assert (Hrun : ∀ b, ig_run I rq ip b (preprocess_callback rid (PContext rid ip)) s = (Ok o, s') →
    o_ctx o = PContext rid ip ∧ ∃ r, decided rq ip b r ∧
      if terminal r then ∃ t, o = Outcome true (Some t) None (PContext rid ip) ∧ refusal t
      else o = Outcome false None (Some (snapshotResult r rid)) (PContext rid ip)).
  { intros b Hr. apply law_run in Hr as (r & ictx & s1 & s2 & Hd & [Hctx Hc]%callback_inv).
    split; [done|]. exists r. split; [done|]. destruct (terminal r); [done|by destruct Hc]. }
  destruct (enabled && p_has_body w); [|by apply Hrun].
  destruct (p_read w) as [bytes|e]; [by apply Hrun|].
  destruct (isAbortError e) eqn:Ea.
  - apply ret_inv in Ho as [-> _]. split; [done|]. eexists. split; [done|].
    destruct e; [done..|]; done.
  - apply bind_inv in Ho as (t & s1 & Ht & Ho). apply ret_inv in Ho as [-> _]. split; [done|].
    exists t. split; [done|]. by eapply body_error_status.
Qed.

(** C12. The pipeline is a gate, for every renderer: an answer is either one of the
    pipeline's own (204 or an error status), or what the renderer returned for a request
    the native core let through, called once with the values of that decision.  A body
    that could not be read is answered with the status of its failure, and neither the
    core nor the renderer sees the request.  The renderer is never given null. *)
Theorem pipeline_gate (render : option PipelineResult → PipelineContext → SE S Resp)
    (enabled : bool) (rid : list Z) (rq : Handler.Request) (ip : option (list Z))
    (w : PipelineWorld) (s : S) (t : Resp) (s' : S) :
  handleRequest render enabled rid rq ip w s = (Ok t, s') →
  match body_for enabled w with
  | inr e => p_status t = read_error_status e ∧ 400 ≤ p_status t ≤ 499
  | inl bodyv => ∃ r, decided rq ip bodyv r ∧
      if terminal r then refusal t
      else ∃ s1, render (Some (snapshotResult r rid)) (PContext rid ip) s1 = (Ok t, s')
  end.
Proof.
  unfold handleRequest. intros Ht. apply bind_inv in Ht as (o & s1 & Ho & Ht).
  apply preprocess_inv in Ho as [Hctx Ho]. destruct (body_for enabled w) as [bodyv|e].
  - destruct Ho as (r & Hd & Hr). exists r. split; [done|]. destruct (terminal r).
    + destruct Hr as (t' & -> & Href). by apply ret_inv in Ht as [-> _].
    + subst o. by exists s1.
  - destruct Ho as (t' & -> & Hst). apply ret_inv in Ht as [-> _]. rewrite Hst. split; [done|]. by destruct e.
Qed.

End pipeline.

(** What the default renderer answers to a request the core accepted with status 200. *)
Lemma default_render_ok {S} (r : IngressResultBase) (rid : list Z) (ctx : PipelineContext) (s : S) :
  status r = 200 →
  default_render (Some (snapshotResult r rid)) ctx s =
    (Ok (MkResp 200 (new_Headers [(CONTENT_TYPE, js "application/json; charset=utf-8")])
      (RBytes (encodeUtf8 (json_object [json_member (js "ok") (js "true");
                                        json_member (js "requestId") (json_string rid)])))), s).
Proof. intros Hs. unfold default_render, lift, new_Response. cbn [r_status snapshotResult]. by rewrite Hs. Qed.

(** ** websocket.ts *)

Record WebSocketUpgradeResult := Upgrade {
  u_response : Resp; u_key : list Z; u_protocol : option (list Z) }.

(** [offered.find(p => wanted.some(w => ...))]. *)
Definition negotiate (offered : list (list Z)) (requested : list Z) : option (list Z) :=
  let wanted := filter (λ s : list Z, s ≠ []) (trim <$> split 44 requested) in
  find (λ p, existsb (λ w, bool_decide (toLowerCase w = toLowerCase p)) wanted) offered.

Definition falsy (s : option (list Z)) : bool := match s with None | Some [] => true | _ => false end.

(** [rust.text.wsAcceptKey] over bun:ffi; [WS_ACCEPT_OUT] is the first component. *)
Definition text_wsAcceptKey `{Codec} (N : CodecSyms) (key : list Z) : SE (list Z * ffi_state) (list Z) :=
  λ '(scratch, s),
  if negb (hasNul key) then let '(r, s) := wsAcceptKey N key s in (r, (scratch, s))
  else
    match wsAcceptKeyInto N (encodeUtf8 key) scratch with
    | (Throw e, scratch) => (Throw e, (scratch, s))
    | (Ok w, scratch) =>
        (Ok (if bool_decide (0 < w) && bool_decide (w ≤ zlen scratch)
             then decodeUtf8 (subarray scratch 0 w) else []), (scratch, s))
    end.

Section upgrade.
Context {S : Type} (accept_key : list Z → SE S (list Z)) (isBun : bool).

Definition createWebSocketUpgrade (rq : Handler.Request) (protocols : option (list (list Z)))
    : SE S (option WebSocketUpgradeResult) :=
  let key := headers rq "sec-websocket-key" in
  if falsy key then mret None
  else
    let key := default [] key in
    accept ← accept_key key;
    let offered := default [] protocols in
    let requested := headers rq "sec-websocket-protocol" in
    let protocol :=
      if negb (falsy requested) && bool_decide (0 < zlen offered)
      then negotiate offered (default [] requested) else None in
    if negb isBun then throw (js_Error "createWebSocketUpgrade is Bun-only")
    else
      let hs := (js "sec-websocket-accept", accept) ::
                (if falsy protocol then [] else [(js "sec-websocket-protocol", default [] protocol)]) in
      mret (Some (Upgrade (MkResp 101 (new_Headers hs) RNull) key protocol)).

(** The subprotocols a client names. *)
Definition asked (rq : Handler.Request) : list (list Z) :=
  filter (λ s : list Z, s ≠ []) (trim <$> split 44 (default [] (headers rq "sec-websocket-protocol"))).
Definition asks_for (rq : Handler.Request) (p : list Z) : Prop :=
  ∃ w, w ∈ asked rq ∧ toLowerCase w = toLowerCase p.

Lemma find_first {A} (f : A → bool) l : match find f l with
  | Some x => f x = true ∧ ∃ l1 l2, l = l1 ++ x :: l2 ∧ Forall (λ y, f y = false) l1
  | None => Forall (λ y, f y = false) l
  end.
Proof.
  induction l as [|y l IH]; cbn; [done|]. destruct (f y) eqn:E.
  - split; [done|]. by exists [], l.
  - destruct (find f l) as [x|].
    + destruct IH as (Hx & l1 & l2 & -> & Hl). split; [done|]. exists (y :: l1), l2. auto.
    + auto.
Qed.

Lemma wanted_spec rq p :
  existsb (λ w, bool_decide (toLowerCase w = toLowerCase p)) (asked rq) = true ↔ asks_for rq p.
Proof.
  rewrite existsb_exists. unfold asks_for. split; intros (w & Hin & Hw); exists w.
  - split; [by apply list_elem_of_In|by apply bool_decide_eq_true in Hw].
  - split; [by apply list_elem_of_In|by apply bool_decide_eq_true].
Qed.

(** The negotiated protocol: the first of the server's own list that the client names,
    whatever the order in the request. *)
Lemma negotiate_first rq offered : falsy (headers rq "sec-websocket-protocol") = false →
  match negotiate offered (default [] (headers rq "sec-websocket-protocol")) with
  | Some p => asks_for rq p ∧ ∃ l1 l2, offered = l1 ++ p :: l2 ∧ Forall (λ q, ¬ asks_for rq q) l1
  | None => Forall (λ q, ¬ asks_for rq q) offered
  end.
Proof.
  intros _. unfold negotiate. fold (asked rq).
  pose proof (find_first (λ p, existsb (λ w, bool_decide (toLowerCase w = toLowerCase p)) (asked rq)) offered) as Hf.
  assert (Hn : ∀ l, Forall (λ p, existsb (λ w, bool_decide (toLowerCase w = toLowerCase p)) (asked rq) = false) l →
            Forall (λ q, ¬ asks_for rq q) l).
  { intros l Hl. eapply Forall_impl; [exact Hl|]. cbn. intros p Hp Ha%wanted_spec. congruence. }
  destruct (find _ offered) as [p|]; [|by apply Hn].
  destruct Hf as (Hp%wanted_spec & l1 & l2 & E & Hl). split; [done|]. exists l1, l2. auto.
Qed.

(** The handshake: under Bun every request with a key is answered with status 101, no
    body and the accept value of that key; the protocol is the first of the server's list
    that the client names, up to case, with the server's spelling, and is in the answer's
    header exactly when there is one; without a key there is no handshake and nothing is
    computed, and under another runtime there is only the exception. *)
Theorem websocket_upgrade_exact (rq : Handler.Request) (protocols : option (list (list Z)))
    (accept : list Z) (s s1 : S) :
  accept_key (default [] (headers rq "sec-websocket-key")) s = (Ok accept, s1) →
  Forall (λ p, p ≠ []) (default [] protocols) →
  let res := createWebSocketUpgrade rq protocols s in
  (falsy (headers rq "sec-websocket-key") = true → res = (Ok None, s)) ∧
  (falsy (headers rq "sec-websocket-key") = false →
     if isBun then
       ∃ t p, res = (Ok (Some (Upgrade t (default [] (headers rq "sec-websocket-key")) p)), s1) ∧
         p_status t = 101 ∧ p_body t = RNull ∧
         p_headers t !! js "sec-websocket-accept" = Some accept ∧
         p_headers t !! js "sec-websocket-protocol" = p ∧
         (∀ q, p = Some q → asks_for rq q ∧
            ∃ l1 l2, default [] protocols = l1 ++ q :: l2 ∧ Forall (λ q, ¬ asks_for rq q) l1) ∧
         (p = None → Forall (λ q, ¬ asks_for rq q) (default [] protocols))
     else res = (Throw (js_Error "createWebSocketUpgrade is Bun-only"), s1)).
Proof.
  intros Hacc Hne res. subst res. unfold createWebSocketUpgrade. split; intros Hk; rewrite Hk; [done|].
  rewrite (se_bind_Ok _ _ _ _ _ Hacc). destruct isBun; cbn [negb]; [|done].
  set (offered := default [] protocols) in *. set (protocol := if _ && _ then _ else _).
  assert (Hp : (∀ q, protocol = Some q → asks_for rq q ∧
            ∃ l1 l2, offered = l1 ++ q :: l2 ∧ Forall (λ q, ¬ asks_for rq q) l1) ∧
         (protocol = None → Forall (λ q, ¬ asks_for rq q) offered)).
  { subst protocol. destruct (falsy (headers rq "sec-websocket-protocol")) eqn:Ef; cbn [negb andb].
    - split; [done|]. intros _. apply Forall_forall. intros q _ (w & Hw & _).
      unfold asked in Hw. apply list_elem_of_filter in Hw as [Hw Hin].
      destruct (headers rq "sec-websocket-protocol") as [[|? ?]|]; [|done|];
        cbn in Hin; apply list_elem_of_singleton in Hin as ->; by apply Hw.
    - case_bool_decide as Ho.
      + pose proof (negotiate_first rq offered Ef) as Hn. destruct (negotiate _ _) as [p|]; [|by split].
        split; [|done]. by intros ? [= <-].
      + split; [done|]. intros _. destruct offered; [constructor|zlia]. }
  destruct Hp as [Hs Hn]. eexists _, protocol. split; [done|]. cbn [p_status p_body p_headers].
  split; [done|]. split; [done|].
  assert (Hf : falsy protocol = false ∨ protocol = None).
  { destruct protocol as [[|? ?]|] eqn:E; [|by left|by right]. exfalso.
    destruct (Hs [] eq_refl) as (_ & l1 & l2 & E2 & _). rewrite E2 in Hne.
    apply Forall_app in Hne as [_ Hne]. by apply Forall_cons in Hne as [Hne _]. }
  assert (Hlow : toLowerCase (js "sec-websocket-accept") = js "sec-websocket-accept" ∧
    toLowerCase (js "sec-websocket-protocol") = js "sec-websocket-protocol" ∧
    js "sec-websocket-accept" ≠ js "sec-websocket-protocol").
  { repeat split; [vm_compute; reflexivity..|]. apply (bool_decide_unpack _). vm_compute. exact I. }
  destruct Hlow as (L1 & L2 & Lne). split; [|split; [|by split]].
  - destruct Hf as [-> | ->]; cbn [falsy]; rewrite <-L1 at 2;
      refine (new_Headers_unique [] _ (js "sec-websocket-accept") accept _ _); [constructor| |constructor|constructor].
    apply Forall_singleton. cbn [fst]. congruence.
  - destruct Hf as [Hf | ->].
    + rewrite Hf. destruct protocol as [p|]; [|done]. cbn [default from_option id]. rewrite <-L2 at 2.
      refine (new_Headers_unique [(js "sec-websocket-accept", accept)] [] (js "sec-websocket-protocol") p _ _); [|constructor].
      apply Forall_singleton. cbn [fst]. congruence.
    + cbn [falsy]. unfold new_Headers. cbn [foldl]. rewrite h_append_ne by (cbn [fst]; congruence). apply lookup_empty.
Qed.

End upgrade.

(** ** The order that decides

    The server's order, not the client's, and the server's spelling. *)
Definition handshake (protocols : string) : Handler.Request :=
  {| method := js "GET"; url := js "/";
     headers := λ n, if decide (n = "sec-websocket-key"%string) then Some (js "k")
                     else if decide (n = "sec-websocket-protocol"%string) then Some (js protocols) else None |}.

Lemma server_order_wins :
  negotiate [js "chat"; js "superchat"] (js "superchat, Chat") = Some (js "chat").
Proof. vm_compute. reflexivity. Qed.

(** ** Witnesses *)

Lemma pipeline_gate_witness : ∃ t s',
  handleRequest demo default_render true (js "id") (post "a/b") None
    {| p_has_body := true; p_read := inl (VBytes [1]) |} 0%nat = (Ok t, s') ∧
  p_status t = 200 ∧ ∃ r, demo_decided (post "a/b") None (Some (VBytes [1])) r.
Proof.
  eexists _, _. split; [reflexivity|]. split; [vm_compute; reflexivity|].
  destruct (@pipeline_gate nat demo demo_decided (reference_laws _ _ _ _ demo_types) default_render true (js "id") (post "a/b") None
    {| p_has_body := true; p_read := inl (VBytes [1]) |} 0%nat _ _ eq_refl) as (r & Hd & _).
  by exists r.
Defined.

Lemma websocket_upgrade_exact_witness : ∃ t p,
  createWebSocketUpgrade (λ k s, (Ok (k ++ js "!"), S s)) true (handshake "b, A") (Some [js "x"; js "a"]) 0%nat =
    (Ok (Some (Upgrade t (js "k") p)), 1%nat) ∧
  p_headers t !! js "sec-websocket-accept" = Some (js "k!").
Proof.
  destruct (@websocket_upgrade_exact nat (λ k s, (Ok (k ++ js "!"), S s)) true (handshake "b, A") (Some [js "x"; js "a"])
    (js "k!") 0%nat 1%nat) as [_ Hk].
  - reflexivity.
  - repeat constructor; discriminate.
  - destruct (Hk eq_refl) as (t & p & E & _ & _ & Ha & _). exists t, p. split; [exact E|exact Ha].
Defined.
