(* ===== verification/TaskOp.v ===== *)
(** Wire formats of the off-thread task runtime: the packed arguments of each op
    (src/task/op.ts), the way the native dispatcher splits them
    (rust/task/ops.rs), and the completion ring's drain layout
    (rust/task/completion.rs). *)

From S2P Require Import Prelude.

(** ** Op ids and statuses *)

Definition OP_gzipDecompress : Z := 1.
Definition OP_pbkdf2Sha256 : Z := 2.
Definition OP_gzipDecompressInto : Z := 3.
Definition OP_argon2Verify : Z := 4.
Definition OP_brotliDecompress : Z := 5.
Definition OP_brotliDecompressInto : Z := 6.
Definition OP_gzipCompress : Z := 7.

Definition TASK_STATUS_OK : Z := 0.
Definition TASK_STATUS_ERROR : Z := 1.
Definition TASK_STATUS_CANCELLED : Z := 2.
Definition TASK_STATUS_TOO_SMALL : Z := 3.
Definition TASK_STATUS_UNSUPPORTED : Z := 4.

(** ** Argument packing *)

(** The packed arguments, and the destination they are a view of. *)
Definition packHeaderAndBytes (header : Z) (data : list Z) (out : option (list Z))
    : result (list Z * list Z) :=
  let need := 4 + zlen data in
  let dest := match out with
              | Some o => if decide (need ≤ zlen o) then o else new_u8 need
              | None => new_u8 need
              end in
  dest ← dv_set 4 dest 0 (to_u32 header);
  dest ← ta_set dest data 4;
  mret (subarray dest 0 need, dest).

Definition encodeGzipDecompressArgs (data : list Z) (maxDecompressed : option Z) (out : option (list Z)) :=
  packHeaderAndBytes (default 0 maxDecompressed) data out.
Definition encodeBrotliDecompressArgs (data : list Z) (maxDecompressed : option Z) (out : option (list Z)) :=
  packHeaderAndBytes (default 0 maxDecompressed) data out.
Definition encodeGzipCompressHeader (level : Z) (out : option (list Z)) :=
  packHeaderAndBytes level [] out.

Definition encodeArgon2VerifyArgs (password phc : list Z) : result (list Z) :=
  let out := new_u8 (8 + zlen password + zlen phc) in
  out ← dv_set 4 out 0 (to_u32 (zlen password));
  out ← dv_set 4 out 4 (to_u32 (zlen phc));
  out ← ta_set out password 8;
  ta_set out phc (8 + zlen password).

Definition encodePbkdf2Args (password salt : list Z) (rounds : Z) (dkLen : option Z) : result (list Z) :=
  let out := new_u8 (12 + zlen salt + zlen password) in
  out ← dv_set 4 out 0 (to_u32 rounds);
  out ← dv_set 4 out 4 (to_u32 (default 32 dkLen));
  out ← dv_set 4 out 8 (to_u32 (zlen salt));
  out ← ta_set out salt 12;
  ta_set out password (12 + zlen salt).

Definition gzipCompressUpperBound (n : Z) : Z := n + 5 * ((n + 16383) / 16384 + 1) + 18.
Definition brotliCapacityGuess (compressedLen : Z) : Z := Z.max (64 * 1024) (compressedLen * 8).

(** ** The native dispatcher's view of the arguments *)

Definition header_len (op : Z) : Z :=
  if decide (op ∈ [OP_gzipDecompress; OP_gzipDecompressInto; OP_brotliDecompress;
                   OP_brotliDecompressInto; OP_gzipCompress]) then 4
  else if decide (op = OP_argon2Verify) then 8
  else if decide (op = OP_pbkdf2Sha256) then 12
  else 0.

(** [args.split_at(header_len(op).min(args.len()))]. *)
Definition split_args (op : Z) (args : list Z) : list Z * list Z :=
  let n := Z.to_nat (Z.min (header_len op) (zlen args)) in (take n args, drop n args).

(** [hdr_u32]: a header field, absent when the header is short. *)
Definition hdr_u32 (hdr : list Z) (off : Z) : option Z :=
  match dv_get 4 hdr off with Ok v => Some v | Throw _ => None end.

(** ** The completion ring's frame *)

Record Completion := Compl { c_id : Z; c_status : Z; c_body : list Z }.

Definition completion_entry (c : Completion) : list Z :=
  le_bytes 8 (c_id c) ++ le_bytes 4 (c_status c) ++ le_bytes 4 (zlen (c_body c)) ++ c_body c.

Definition drain_frame (q : list Completion) : list Z :=
  le_bytes 4 (zlen q) ++ (q ≫= completion_entry).

Definition drain_needed (q : list Completion) : Z :=
  foldr (λ c n, n + (16 + zlen (c_body c))) 4 q.

(** [drain(out)]: the byte count to report, the buffer and the ring afterwards. *)
Definition drain (q : list Completion) (out : list Z) : Z * list Z * list Completion :=
  if decide (q = []) then (0, out, q)
  else if decide (zlen out < drain_needed q) then (drain_needed q, out, q)
  else (drain_needed q, splice out 0 (drain_frame q), []).

(** ** Facts *)

#[export] Instance Completion_eq_dec : EqDecision Completion.
Proof. solve_decision. Defined.

Lemma zlen_completion_entry c : zlen (completion_entry c) = 16 + zlen (c_body c).
Proof. unfold completion_entry. zlia. Qed.

Lemma zlen_drain_frame q : zlen (drain_frame q) = drain_needed q.
Proof.
  unfold drain_frame. rewrite zlen_app, zlen_le_bytes.
  induction q as [|c q IH]; [done|]. cbn [mbind list_bind drain_needed foldr].
  rewrite zlen_app, zlen_completion_entry. unfold drain_needed in IH. lia.
Qed.

Lemma drain_needed_bound q : q ≠ [] → 20 ≤ drain_needed q.
Proof.
  intros Hq. destruct q as [|c q]; [done|]. cbn [drain_needed foldr].
  assert (H : 4 ≤ foldr (λ c n, n + (16 + zlen (c_body c))) 4 q).
  { clear. induction q; simpl; zlia. }
  zlia.
Qed.

(** The packed header is what the native side reads back, whatever the scratch held. *)
Lemma packHeaderAndBytes_ok h data out :
  ∃ dest, packHeaderAndBytes h data out = Ok (le_bytes 4 (to_u32 h) ++ data, dest) ∧
    4 + zlen data ≤ zlen dest ∧
    (∀ o, out = Some o → 4 + zlen data ≤ zlen o → zlen dest = zlen o).
Proof.
  unfold packHeaderAndBytes. set (dest := match out with Some _ => _ | None => _ end).
  assert (Hd : 4 + zlen data ≤ zlen dest ∧
    (∀ o, out = Some o → 4 + zlen data ≤ zlen o → zlen dest = zlen o)).
  { subst dest. unfold new_u8. destruct out as [o|]; [case_decide|].
    - split; [done|]. by intros ? [= <-].
    - split; [zlia|]. intros ? [= <-]. lia.
    - split; [zlia|done]. }
  destruct Hd as [Hd Hs]. clearbody dest.
  rewrite (dv_set_frontier 4 [] dest) by zlia. cbn [mbind result_bind app].
  rewrite (ta_set_frontier (le_bytes 4 (to_u32 h)) (drop 4 dest)).
  2: by rewrite zlen_le_bytes. 2: { change 4%nat with (Z.to_nat 4). rewrite zlen_drop; zlia. }
  cbn [mbind result_bind mret result_ret]. eexists. split; [|split].
  - do 2 f_equal. rewrite app_assoc.
    replace (4 + zlen data) with (zlen (le_bytes 4 (to_u32 h) ++ data)) by zlia.
    by rewrite subarray_prefix.
  - zlia.
  - intros o Ho Hle. rewrite <-(Hs o Ho Hle). rewrite !zlen_app, zlen_le_bytes.
    unfold zlen in *. rewrite !length_drop. lia.
Qed.

Lemma split_args_app op hdr data :
  zlen hdr = header_len op → split_args op (hdr ++ data) = (hdr, data).
Proof.
  intros Hh. unfold split_args. rewrite <-Hh, zlen_app, Z.min_l by zlia.
  unfold zlen. by rewrite Nat2Z.id, take_app_length, drop_app_length.
Qed.

Lemma hdr_u32_field pre v post :
  0 ≤ v < U32 → hdr_u32 (pre ++ le_bytes 4 v ++ post) (zlen pre) = Some v.
Proof. intros Hv. unfold hdr_u32. by rewrite dv_get_app. Qed.

Lemma to_u32_range x : 0 ≤ to_u32 x < U32.
Proof. apply Z.mod_pos_bound. done. Qed.
Lemma to_u32_id x : 0 ≤ x < U32 → to_u32 x = x.
Proof. apply Z.mod_small. Qed.

Lemma new_u8_zlen n : 0 ≤ n → zlen (new_u8 n) = n.
Proof. intros. unfold new_u8. zlia. Qed.

(** Filling a fresh buffer front to back, word by word and block by block. *)
Lemma fill_word n pre rest v :
  Z.of_nat n ≤ zlen rest →
  ∃ rest', dv_set n (pre ++ rest) (zlen pre) v = Ok ((pre ++ le_bytes n v) ++ rest') ∧
    zlen rest' = zlen rest - Z.of_nat n.
Proof.
  intros Hn. rewrite dv_set_frontier by done. eexists. rewrite <-app_assoc.
  split; [done|]. unfold zlen in *. rewrite length_drop. lia.
Qed.
Lemma fill_block pre rest src :
  zlen src ≤ zlen rest →
  ∃ rest', ta_set (pre ++ rest) src (zlen pre) = Ok ((pre ++ src) ++ rest') ∧
    zlen rest' = zlen rest - zlen src.
Proof.
  intros Hn. rewrite ta_set_frontier by done. eexists. rewrite <-app_assoc.
  split; [done|]. unfold zlen in *. rewrite length_drop. lia.
Qed.

Lemma zlen_word v : zlen (le_bytes 4 v) = 4.
Proof. apply zlen_le_bytes. Qed.

Lemma encodeArgon2VerifyArgs_eq pw phc :
  encodeArgon2VerifyArgs pw phc =
    Ok ((le_bytes 4 (to_u32 (zlen pw)) ++ le_bytes 4 (to_u32 (zlen phc))) ++ pw ++ phc).
Proof.
  unfold encodeArgon2VerifyArgs.
  assert (Hz : zlen (new_u8 (8 + zlen pw + zlen phc)) = 8 + zlen pw + zlen phc)
    by (apply new_u8_zlen; zlia).
  destruct (fill_word 4 [] (new_u8 (8 + zlen pw + zlen phc)) (to_u32 (zlen pw))) as (r1 & E1 & H1); [zlia|].
  cbn [app] in E1. change (zlen []) with 0 in E1. rewrite E1. cbn [mbind result_bind].
  destruct (fill_word 4 (le_bytes 4 (to_u32 (zlen pw))) r1 (to_u32 (zlen phc))) as (r2 & E2 & H2); [zlia|].
  rewrite zlen_word in E2. rewrite E2. cbn [mbind result_bind].
  edestruct (fill_block (le_bytes 4 (to_u32 (zlen pw)) ++ le_bytes 4 (to_u32 (zlen phc))) r2 pw)
    as (r3 & E3 & H3); [zlia|].
  rewrite zlen_app, !zlen_word in E3. change (4 + 4) with 8 in E3. rewrite E3. cbn [mbind result_bind].
  edestruct (fill_block ((le_bytes 4 (to_u32 (zlen pw)) ++ le_bytes 4 (to_u32 (zlen phc))) ++ pw) r3 phc)
    as (r4 & E4 & H4); [zlia|].
  rewrite !zlen_app, !zlen_word in E4. change (4 + 4) with 8 in E4. rewrite E4.
  rewrite (zlen_0 r4), app_nil_r by zlia. by rewrite <-!app_assoc.
Qed.

Lemma encodePbkdf2Args_eq pw salt rounds dk :
  encodePbkdf2Args pw salt rounds dk =
    Ok ((le_bytes 4 (to_u32 rounds) ++ le_bytes 4 (to_u32 (default 32 dk)) ++
         le_bytes 4 (to_u32 (zlen salt))) ++ salt ++ pw).
Proof.
  unfold encodePbkdf2Args.
  set (a := le_bytes 4 (to_u32 rounds)). set (b := le_bytes 4 (to_u32 (default 32 dk))).
  set (c := le_bytes 4 (to_u32 (zlen salt))).
  assert (La : zlen a = 4) by apply zlen_le_bytes. assert (Lb : zlen b = 4) by apply zlen_le_bytes.
  assert (Lc : zlen c = 4) by apply zlen_le_bytes.
  assert (Hz : zlen (new_u8 (12 + zlen salt + zlen pw)) = 12 + zlen salt + zlen pw)
    by (apply new_u8_zlen; zlia).
  destruct (fill_word 4 [] (new_u8 (12 + zlen salt + zlen pw)) (to_u32 rounds)) as (r1 & E1 & H1); [zlia|].
  cbn [app] in E1. change (zlen []) with 0 in E1. rewrite E1. cbn [mbind result_bind]. fold a in E1 |- *.
  destruct (fill_word 4 a r1 (to_u32 (default 32 dk))) as (r2 & E2 & H2); [zlia|].
  rewrite La in E2. rewrite E2. cbn [mbind result_bind]. fold b.
  destruct (fill_word 4 (a ++ b) r2 (to_u32 (zlen salt))) as (r3 & E3 & H3); [zlia|].
  rewrite zlen_app, La, Lb in E3. change (4 + 4) with 8 in E3. rewrite E3. cbn [mbind result_bind]. fold c.
  destruct (fill_block ((a ++ b) ++ c) r3 salt) as (r4 & E4 & H4); [zlia|].
  rewrite !zlen_app, La, Lb, Lc in E4. change (4 + 4 + 4) with 12 in E4. rewrite E4. cbn [mbind result_bind].
  destruct (fill_block (((a ++ b) ++ c) ++ salt) r4 pw) as (r5 & E5 & H5); [zlia|].
  rewrite !zlen_app, La, Lb, Lc in E5. change (4 + 4 + 4) with 12 in E5. rewrite E5.
  rewrite (zlen_0 r5), app_nil_r by zlia. by rewrite <-!app_assoc.
Qed.

(** What the packers write is what the native dispatcher reads: for every
    op it finds each header field and the payload, the two parts of a composite
    payload split at the packed length; the packed cap and level do not depend on
    what the scratch destination held before. *)
Theorem task_args_read data pw phc salt rounds dk h out op :
  op ∈ [OP_gzipDecompress; OP_gzipDecompressInto; OP_brotliDecompress;
        OP_brotliDecompressInto; OP_gzipCompress] →
  zlen pw < U32 → zlen phc < U32 → zlen salt < U32 →
  (∃ args dest, packHeaderAndBytes h data out = Ok (args, dest) ∧
     (split_args op args).2 = data ∧ hdr_u32 (split_args op args).1 0 = Some (to_u32 h)) ∧
  (∃ args, encodeArgon2VerifyArgs pw phc = Ok args ∧
     let '(hdr, payload) := split_args OP_argon2Verify args in
     hdr_u32 hdr 0 = Some (zlen pw) ∧ hdr_u32 hdr 4 = Some (zlen phc) ∧
     take (length pw) payload = pw ∧ drop (length pw) payload = phc) ∧
  (∃ args, encodePbkdf2Args pw salt rounds dk = Ok args ∧
     let '(hdr, payload) := split_args OP_pbkdf2Sha256 args in
     hdr_u32 hdr 0 = Some (to_u32 rounds) ∧ hdr_u32 hdr 4 = Some (to_u32 (default 32 dk)) ∧
     hdr_u32 hdr 8 = Some (zlen salt) ∧
     take (length salt) payload = salt ∧ drop (length salt) payload = pw).
Proof.
  intros Hop Hpw Hphc Hsalt. pose proof (zlen_nonneg pw). pose proof (zlen_nonneg phc).
  pose proof (zlen_nonneg salt). split; [|split].
  - destruct (packHeaderAndBytes_ok h data out) as (dest & E & _). eexists _, dest. split; [done|].
    rewrite split_args_app.
    2: { unfold header_len. rewrite decide_True by done. apply zlen_le_bytes. }
    split; [done|]. apply (hdr_u32_field [] _ []), to_u32_range.
  - eexists. rewrite encodeArgon2VerifyArgs_eq, !to_u32_id by done. split; [done|].
    rewrite split_args_app by (by rewrite zlen_app, !zlen_le_bytes).
    rewrite take_app_length, drop_app_length.
    split; [by apply (hdr_u32_field [])|]. split; [|done].
    pose proof (hdr_u32_field (le_bytes 4 (zlen pw)) (zlen phc) []) as Hf.
    rewrite app_nil_r, zlen_word in Hf. by apply Hf.
  - eexists. rewrite encodePbkdf2Args_eq, (to_u32_id (zlen salt)) by done. split; [done|].
    rewrite split_args_app by (by rewrite !zlen_app, !zlen_le_bytes).
    rewrite take_app_length, drop_app_length.
    split; [apply (hdr_u32_field []), to_u32_range|]. split; [|split; [|done]].
    + pose proof (hdr_u32_field (le_bytes 4 (to_u32 rounds)) (to_u32 (default 32 dk)) (le_bytes 4 (zlen salt))) as Hf.
      rewrite zlen_word in Hf. apply Hf, to_u32_range.
    + pose proof (hdr_u32_field (le_bytes 4 (to_u32 rounds) ++ le_bytes 4 (to_u32 (default 32 dk))) (zlen salt) []) as Hf.
      rewrite app_nil_r, zlen_app, !zlen_word, <-app_assoc in Hf. by apply Hf.
Qed.

Lemma task_args_read_witness :
  (∃ args dest, packHeaderAndBytes 6 [1; 2] (Some [9; 9; 9; 9; 9; 9; 9]) = Ok (args, dest) ∧
     (split_args OP_gzipCompress args).2 = [1; 2] ∧
     hdr_u32 (split_args OP_gzipCompress args).1 0 = Some 6) ∧
  ∃ args, encodeArgon2VerifyArgs [7] [8; 8] = Ok args.
Proof.
  destruct (task_args_read [1; 2] [7] [8; 8] [5] 1000 None 6 (Some [9; 9; 9; 9; 9; 9; 9]) OP_gzipCompress)
    as (H1 & (args & H2 & _) & _).
  - set_solver.
  - reflexivity.
  - reflexivity.
  - reflexivity.
  - split; [exact H1|]. exists args. exact H2.
Defined.
