(* ===== verification/Task.v ===== *)
(** The off-thread task runtime (src/task/runtime.ts) over the native pool and
    completion ring it drives (rust/task/runtime.rs, completion.rs, ops.rs).

    Worker threads pop batches from the front of the queue, run the popped jobs in any
    order and push a completion to the ring; the first push of an armed window rings a doorbell, a call that
    the host marshals to the JavaScript thread ([bells] counts those not yet run).
    The JavaScript thread drains the ring in [drainNow] and settles promises.
    Workers run concurrently with it, so [drainNow] takes the worker steps that
    happen at each point of it as an argument, [wenv].

    Memory that matters is explicit: drain buffers and zero-copy destinations live
    in [bufs] and a settled value may be a view of one of them.  A promise is an
    index into [promises]; the [.catch] handlers of the two decompression calls
    are the [stage] of a submission and run as microtasks.  The codecs of the native
    ops are parameters.  [readU64At] adds two doubles, which is exact for the ids
    and byte counts below 2^53. *)

From S2P Require Import Prelude.
From S2P Require Import JsMap.
From S2P Require Import Utf8.
From S2P Require Import TaskOp.

Definition ZERO_COPY_MIN : Z := 64 * 1024.
Definition MAX_POOLED_DRAIN : Z := 256 * 1024.

(** ** Errors and values *)

Inductive task_error :=
  | ETooSmall (needed : Z)
  | EUnsupported
  | ECancelled
  | EOverloaded
  | ERejected
  | EMessage (m : list Z).

(** A settled byte array: its own bytes, or a view of a buffer. *)
Inductive value := Bytes (bs : list Z) | View (buf : nat) (off end_ : Z).

Inductive pstate := Pending | Fulfilled (v : value) | Rejected (e : task_error).

#[export] Instance task_error_eq_dec : EqDecision task_error.
Proof. solve_decision. Defined.
#[export] Instance value_eq_dec : EqDecision value.
Proof. solve_decision. Defined.
#[export] Instance pstate_eq_dec : EqDecision pstate.
Proof. solve_decision. Defined.

Definition TASK_SUBMIT_ACCEPTED : Z := 1.
Definition TASK_SUBMIT_OVERLOADED : Z := 2.

Definition taskSubmitError (code : Z) : option task_error :=
  if decide (code = TASK_SUBMIT_ACCEPTED) then None
  else if decide (code = TASK_SUBMIT_OVERLOADED) then Some EOverloaded
  else Some ERejected.

(** ** State *)

(** A task on the native side: its op, copied arguments, in-place payload
    (zero-copy input) and destination buffer (zero-copy output). *)
Record Job := MkJob {
  j_id : Z; j_op : Z; j_args : list Z; j_data : option (list Z); j_out : option nat }.

(** A job being run, with the completion it will push and what it leaves in its
    destination. *)
Record Running := Run { r_job : Job; r_status : Z; r_body : list Z; r_dest : option (list Z) }.

(** [queue] holds the accepted jobs no worker has started; the first [taken] of them
    are popped, in the batch of some worker. *)
Record NativePool := NP {
  queue : list Job; taken : nat; running : list Running;
  ring : list Completion; armed : bool;
  bell_addr : bool;                        (* DOORBELL ≠ 0 *)
  bells : nat;
  cancelled : list Z }.

(** What hangs on a submission's rejection: nothing, the last [.catch(() =>
    copyPath())], or both handlers of a zero-copy decompression. *)
Record chain := Chain { z_op : Z; z_opInto : Z; z_args : list Z; z_signal : option nat }.
Inductive stage := Final | LastCatch (z : chain) | BothCatches (z : chain).

Record Deferred := Def {
  d_out : option nat; d_keep : option (list Z); d_promise : nat; d_stage : stage }.

Inductive microtask :=
  | DrainNow
  | Catch1 (z : chain) (p : nat) (e : task_error)
  | Catch2 (z : chain) (p : nat).

Record Counters := Cnt { drains : Z; completed : Z; maxBatch : Z; tooSmallRetries : Z }.

Record TaskState := TS {
  native : NativePool;
  bufs : list (list Z);
  inflight : list (Z * Deferred);
  nextId : Z;
  drainBuf : nat;
  scheduled : bool;
  argScratch : list Z;
  counters : Counters;
  doorbell : bool;
  keepAlive : bool;
  promises : list pstate;
  microtasks : list microtask;
  listeners : list (nat * Z);
  aborted : list nat }.

Definition set_native (x : NativePool) (s : TaskState) : TaskState :=
  TS x (bufs s) (inflight s) (nextId s) (drainBuf s) (scheduled s) (argScratch s) (counters s) (doorbell s) (keepAlive s) (promises s) (microtasks s) (listeners s) (aborted s).
Definition set_bufs (x : list (list Z)) (s : TaskState) : TaskState :=
  TS (native s) x (inflight s) (nextId s) (drainBuf s) (scheduled s) (argScratch s) (counters s) (doorbell s) (keepAlive s) (promises s) (microtasks s) (listeners s) (aborted s).
Definition set_inflight (x : list (Z * Deferred)) (s : TaskState) : TaskState :=
  TS (native s) (bufs s) x (nextId s) (drainBuf s) (scheduled s) (argScratch s) (counters s) (doorbell s) (keepAlive s) (promises s) (microtasks s) (listeners s) (aborted s).
Definition set_nextId (x : Z) (s : TaskState) : TaskState :=
  TS (native s) (bufs s) (inflight s) x (drainBuf s) (scheduled s) (argScratch s) (counters s) (doorbell s) (keepAlive s) (promises s) (microtasks s) (listeners s) (aborted s).
Definition set_drainBuf (x : nat) (s : TaskState) : TaskState :=
  TS (native s) (bufs s) (inflight s) (nextId s) x (scheduled s) (argScratch s) (counters s) (doorbell s) (keepAlive s) (promises s) (microtasks s) (listeners s) (aborted s).
Definition set_scheduled (x : bool) (s : TaskState) : TaskState :=
  TS (native s) (bufs s) (inflight s) (nextId s) (drainBuf s) x (argScratch s) (counters s) (doorbell s) (keepAlive s) (promises s) (microtasks s) (listeners s) (aborted s).
Definition set_argScratch (x : list Z) (s : TaskState) : TaskState :=
  TS (native s) (bufs s) (inflight s) (nextId s) (drainBuf s) (scheduled s) x (counters s) (doorbell s) (keepAlive s) (promises s) (microtasks s) (listeners s) (aborted s).
Definition set_counters (x : Counters) (s : TaskState) : TaskState :=
  TS (native s) (bufs s) (inflight s) (nextId s) (drainBuf s) (scheduled s) (argScratch s) x (doorbell s) (keepAlive s) (promises s) (microtasks s) (listeners s) (aborted s).
Definition set_doorbell (x : bool) (s : TaskState) : TaskState :=
  TS (native s) (bufs s) (inflight s) (nextId s) (drainBuf s) (scheduled s) (argScratch s) (counters s) x (keepAlive s) (promises s) (microtasks s) (listeners s) (aborted s).
Definition set_keepAlive (x : bool) (s : TaskState) : TaskState :=
  TS (native s) (bufs s) (inflight s) (nextId s) (drainBuf s) (scheduled s) (argScratch s) (counters s) (doorbell s) x (promises s) (microtasks s) (listeners s) (aborted s).
Definition set_promises (x : list pstate) (s : TaskState) : TaskState :=
  TS (native s) (bufs s) (inflight s) (nextId s) (drainBuf s) (scheduled s) (argScratch s) (counters s) (doorbell s) (keepAlive s) x (microtasks s) (listeners s) (aborted s).
Definition set_microtasks (x : list microtask) (s : TaskState) : TaskState :=
  TS (native s) (bufs s) (inflight s) (nextId s) (drainBuf s) (scheduled s) (argScratch s) (counters s) (doorbell s) (keepAlive s) (promises s) x (listeners s) (aborted s).
Definition set_listeners (x : list (nat * Z)) (s : TaskState) : TaskState :=
  TS (native s) (bufs s) (inflight s) (nextId s) (drainBuf s) (scheduled s) (argScratch s) (counters s) (doorbell s) (keepAlive s) (promises s) (microtasks s) x (aborted s).
Definition set_aborted (x : list nat) (s : TaskState) : TaskState :=
  TS (native s) (bufs s) (inflight s) (nextId s) (drainBuf s) (scheduled s) (argScratch s) (counters s) (doorbell s) (keepAlive s) (promises s) (microtasks s) (listeners s) x.

Definition content (s : TaskState) (b : nat) : list Z := default [] (bufs s !! b).

(** What a reader of a settled value sees. *)
Definition read_value (s : TaskState) (v : value) : list Z :=
  match v with Bytes bs => bs | View b o e => subarray (content s b) o e end.

Section runtime.

(** The codecs of the native ops: [run_op] answers a body or an error message,
    [run_into] a written length or a status and body, with what it leaves in the
    destination. *)
Context (run_op : Z → list Z → list Z → list Z + list Z).
Context (run_into : Z → list Z → list Z → list Z → (Z + Z * list Z) * list Z).
Context (queue_max : Z).
(** [gzipIsize], and the bytes [Buffer.allocUnsafe] happens to return. *)
Context (gzipIsize : list Z → Z) (junk : nat → Z).

Implicit Types s : TaskState.

(** ** The native side *)

Definition on_native (f : NativePool → NativePool) s : TaskState := set_native (f (native s)) s.

(** [push]: ring the doorbell once per armed window. *)
Definition push (c : Completion) (n : NativePool) : NativePool :=
  NP (queue n) (taken n) (running n) (ring n ++ [c]) true (bell_addr n)
     (if negb (armed n) && bell_addr n then S (bells n) else bells n) (cancelled n).

(** A job as a worker starts it: the cancellation check, then the op. *)
Definition execute (j : Job) (s : TaskState) : Running :=
  if decide (j_id j ∈ cancelled (native s)) then Run j TASK_STATUS_CANCELLED [] None
  else
    let '(hdr, data) := match j_data j with
                        | Some d => (j_args j, d)
                        | None => split_args (j_op j) (j_args j)
                        end in
    match j_out j with
    | None =>
        match run_op (j_op j) hdr data with
        | inl body => Run j TASK_STATUS_OK body None
        | inr msg => Run j TASK_STATUS_ERROR msg None
        end
    | Some o =>
        match run_into (j_op j) hdr data (content s o) with
        | (inl written, dest) => Run j TASK_STATUS_OK (le_bytes 8 written) (Some dest)
        | (inr (st, body), dest) => Run j st body (Some dest)
        end
    end.

(** A worker pops a batch of [n] jobs, starts a popped job, ends a running one. *)
Inductive wevent := WPop (n : nat) | WStart (i : nat) | WFinish (i : nat).

(** The batch a worker pops under the lock: one job, or up to [BATCH_POP] when many
    are left (the thread count that decides it is the environment's). *)
Definition BATCH_POP : nat := 16.
Definition wpop (n : nat) s : TaskState :=
  on_native (λ m, NP (queue m) (Nat.min (length (queue m)) (taken m + Nat.min n BATCH_POP)) (running m)
                     (ring m) (armed m) (bell_addr m) (bells m) (cancelled m)) s.

Definition wstart (i : nat) s : TaskState :=
  match queue (native s) !! i with
  | None => s
  | Some j =>
      if decide (taken (native s) ≤ i)%nat then s
      else on_native (λ n, NP (delete i (queue n)) (pred (taken n)) (running n ++ [execute j s])
                              (ring n) (armed n) (bell_addr n) (bells n) (cancelled n)) s
  end.

(** The job's end: its destination is written, its cancellation mark cleared, its
    completion pushed. *)
Definition wfinish (i : nat) s : TaskState :=
  match running (native s) !! i with
  | None => s
  | Some r =>
      let id := j_id (r_job r) in
      let s := match j_out (r_job r), r_dest r with
               | Some o, Some dest => set_bufs (<[o := dest]> (bufs s)) s
               | _, _ => s
               end in
      on_native (λ n, push (Compl id (r_status r) (r_body r))
        (NP (queue n) (taken n) (delete i (running n)) (ring n) (armed n) (bell_addr n) (bells n)
            (filter (λ x, x ≠ id) (cancelled n)))) s
  end.

Definition wstep s (w : wevent) : TaskState :=
  match w with WPop n => wpop n s | WStart i => wstart i s | WFinish i => wfinish i s end.
Definition wsteps (ws : list wevent) s : TaskState := foldl wstep s ws.

(** The worker steps at each point of a call of [drainNow]. *)
Notation wenv := (nat → list wevent).

(** The submit entry points and [castrum_task_cancel]: [1] accepted, [2]
    overloaded, [0] refused. *)
Definition enqueue (j : Job) s : Z * TaskState :=
  if decide (queue_max ≤ zlen (queue (native s)) - Z.of_nat (taken (native s))) then (2, s)
  else (1, on_native (λ n, NP (queue n ++ [j]) (taken n) (running n) (ring n) (armed n) (bell_addr n)
                              (bells n) (cancelled n)) s).

Definition taskSubmit (op : Z) (args : list Z) (id : Z) s : Z * TaskState :=
  enqueue (MkJob id op args None None) s.
Definition taskSubmitOut (op : Z) (args : list Z) (id : Z) (output : nat) s : Z * TaskState :=
  if decide (zlen (content s output) = 0) then (0, s)
  else enqueue (MkJob id op args None (Some output)) s.
Definition taskSubmitSlice (op : Z) (hdr data : list Z) (id : Z) s : Z * TaskState :=
  enqueue (MkJob id op hdr (Some data) None) s.

Definition taskCancel (id : Z) s : TaskState :=
  on_native (λ n, NP (queue n) (taken n) (running n) (ring n) (armed n) (bell_addr n) (bells n)
    (if decide (id ∈ cancelled n) then cancelled n else cancelled n ++ [id])) s.

Definition taskSetDoorbell (b : bool) s : TaskState :=
  on_native (λ n, NP (queue n) (taken n) (running n) (ring n) (armed n) b (bells n) (cancelled n)) s.

(** [castrum_task_shutdown]: queued and running jobs still complete. *)
Definition taskShutdown s : TaskState :=
  on_native (λ n, NP (queue n) (taken n) (running n) [] false false (bells n) (cancelled n)) s.

Definition disarm s : TaskState :=
  on_native (λ n, NP (queue n) (taken n) (running n) (ring n) false (bell_addr n) (bells n) (cancelled n)) s.

(** [taskDrain(buf)]: disarm, then drain under the lock; workers may push between
    the two and after. *)
Definition taskDrain (env : wenv) (k : nat) (b : nat) s : Z * TaskState :=
  let s := wsteps (env k) (disarm s) in
  let '(written, out, q) := drain (ring (native s)) (content s b) in
  let s := set_bufs (<[b := out]> (bufs s)) s in
  let s := on_native (λ n, NP (queue n) (taken n) (running n) q (armed n) (bell_addr n) (bells n) (cancelled n)) s in
  (written, wsteps (env (S k)) s).

(** ** Settling *)

Definition settle (p : nat) (r : pstate) s : TaskState := set_promises (<[p := r]> (promises s)) s.
Definition queueMicrotask (m : microtask) s : TaskState := set_microtasks (microtasks s ++ [m]) s.

Definition resolve (d : Deferred) (v : value) s : TaskState := settle (d_promise d) (Fulfilled v) s.

(** A rejection reaches the caller or the next handler of the chain. *)
Definition reject (d : Deferred) (e : task_error) s : TaskState :=
  match d_stage d with
  | Final => settle (d_promise d) (Rejected e) s
  | BothCatches z => queueMicrotask (Catch1 z (d_promise d) e) s
  | LastCatch z => queueMicrotask (Catch2 z (d_promise d)) s
  end.

Definition retain s : TaskState := set_keepAlive true s.
Definition release s : TaskState := set_keepAlive false s.
Definition release_if_idle s : TaskState :=
  if decide (msize (inflight s) = 0) then release s else s.

(** ** [drainNow] *)

Definition readU64At (view : list Z) (off : Z) : result Z :=
  lo ← dv_get 4 view off;
  hi ← dv_get 4 view (off + 4);
  mret (round_double (lo + hi * 4294967296)).

Definition bodyOf (s : TaskState) (buf : nat) (off len : Z) (pooled : bool) : value :=
  if pooled then Bytes (subarray (content s buf) off (off + len)) else View buf off (off + len).

Definition bump_tooSmall s : TaskState :=
  let c := counters s in
  set_counters (Cnt (drains c) (completed c) (maxBatch c) (tooSmallRetries c + 1)) s.
Definition bump_completed s : TaskState :=
  let c := counters s in
  set_counters (Cnt (drains c) (completed c + 1) (maxBatch c) (tooSmallRetries c)) s.
Definition note_drain (count : Z) s : TaskState :=
  let c := counters s in
  set_counters (Cnt (drains c + 1) (completed c)
    (if decide (maxBatch c < count) then count else maxBatch c) (tooSmallRetries c)) s.

(** The outcome of one completion whose deferred was found and removed. *)
Definition complete (view : list Z) (buf : nat) (pooled : bool) (bodyOff status len : Z)
    (d : Deferred) s : result unit * TaskState :=
  let u64_or (other : Z) := if decide (8 ≤ len) then readU64At view bodyOff else Ok other in
  if decide (status = TASK_STATUS_OK) then
    match d_out d with
    | Some o =>
        match u64_or len with
        | Ok n => (Ok tt, resolve d (View o 0 n) s)
        | Throw e => (Throw e, s)
        end
    | None => (Ok tt, resolve d (bodyOf s buf bodyOff len pooled) s)
    end
  else if decide (status = TASK_STATUS_TOO_SMALL) then
    let s := bump_tooSmall s in
    match u64_or 0 with
    | Ok n => (Ok tt, reject d (ETooSmall n) s)
    | Throw e => (Throw e, s)
    end
  else if decide (status = TASK_STATUS_UNSUPPORTED) then (Ok tt, reject d EUnsupported s)
  else if decide (status = TASK_STATUS_CANCELLED) then (Ok tt, reject d ECancelled s)
  else
    let msg := bunDecodeUtf8 (read_value s (bodyOf s buf bodyOff len pooled)) in
    (Ok tt, reject d (EMessage (if decide (msg = []) then js "task failed" else msg)) s).

(** The loop over the completions of one drain. *)
Fixpoint deliver (count : nat) (view : list Z) (buf : nat) (pooled : bool) (off : Z) s
    : result unit * TaskState :=
  match count with
  | O => (Ok tt, s)
  | S count =>
      match (id ← readU64At view off;
             status ← dv_get 4 view (off + 8);
             len ← dv_get 4 view (off + 12);
             mret (id, status, len)) with
      | Throw e => (Throw e, s)
      | Ok (id, status, len) =>
          let bodyOff := off + 16 in
          let off := bodyOff + len in
          match mget id (inflight s) with
          | None => deliver count view buf pooled off s
          | Some d =>
              let s := set_inflight (mdel id (inflight s)) s in
              match complete view buf pooled bodyOff status len d s with
              | (Throw e, s) => (Throw e, s)
              | (Ok _, s) => deliver count view buf pooled off (bump_completed s)
              end
          end
      end
  end.

Definition alloc (b : list Z) s : nat * TaskState := (length (bufs s), set_bufs (bufs s ++ [b]) s).

(** One iteration's buffer: the pooled one, or a bigger one when it does not fit.
    [None] leaves the loop, [Some None] retries it. *)
Definition drain_buffer (env : wenv) (k : nat) s : option (option (nat * bool * Z)) * TaskState :=
  let buf := drainBuf s in
  let '(written, s) := taskDrain env k buf s in
  if decide (written < 4) then (None, s)
  else if decide (zlen (content s buf) < written) then
    let '(nb, s) := alloc (new_u8 written) s in
    let pooled := bool_decide (written ≤ MAX_POOLED_DRAIN) in
    let s := if pooled then set_drainBuf nb s else s in
    let '(written2, s) := taskDrain env (k + 2) nb s in
    if decide (written2 < 4) then (None, s)
    else if decide (zlen (content s nb) < written2) then (Some None, s)
    else (Some (Some (nb, pooled, written2)), s)
  else (Some (Some (buf, true, written)), s).

Fixpoint drain_rounds (guard : nat) (env : wenv) (k : nat) s : result unit * TaskState :=
  match guard with
  | O => (Ok tt, s)
  | S guard =>
      match drain_buffer env k s with
      | (None, s) => (Ok tt, s)
      | (Some None, s) => drain_rounds guard env (k + 4) s
      | (Some (Some (buf, pooled, written)), s) =>
          let view := take (Z.to_nat written) (content s buf) in
          match dv_get 4 view 0 with
          | Throw e => (Throw e, s)
          | Ok count =>
              match deliver (Z.to_nat count) view buf pooled 4 (note_drain count s) with
              | (Throw e, s) => (Throw e, s)
              | (Ok _, s) => drain_rounds guard env (k + 4) s
              end
          end
      end
  end.

Definition drainNow (env : wenv) s : TaskState :=
  match drain_rounds 1024 env 0 (set_scheduled false s) with
  | (Throw _, s) => s
  | (Ok _, s) => release_if_idle s
  end.

Definition schedule s : TaskState :=
  if scheduled s then s else queueMicrotask DrainNow (set_scheduled true s).

Definition ensureDoorbell s : TaskState :=
  if doorbell s then s else taskSetDoorbell true (set_doorbell true s).

(** ** Submission *)

(** The executor shared by the three submit functions: register, submit, undo on
    a refusal, wire the abort signal. *)
Definition submission (d : Deferred) (signal : option nat)
    (ffi : Z → TaskState → Z * TaskState) s : TaskState :=
  let s := ensureDoorbell s in
  let id := nextId s in
  let s := set_nextId (id + 1) s in
  let s := retain (set_inflight (mset id d (inflight s)) s) in
  let '(code, s) := ffi id s in
  match taskSubmitError code with
  | Some rejected =>
      reject d rejected (release_if_idle (set_inflight (mdel id (inflight s)) s))
  | None =>
      match signal with
      | None => s
      | Some sig =>
          if decide (sig ∈ aborted s) then taskCancel id s
          else set_listeners (listeners s ++ [(sig, id)]) s
      end
  end.

Definition submit (op : Z) (args : list Z) (signal : option nat) (p : nat) (st : stage) s : TaskState :=
  submission (Def None None p st) signal (taskSubmit op args) s.
Definition submitInto (op : Z) (args : list Z) (output : nat) (signal : option nat) (p : nat)
    (st : stage) s : TaskState :=
  submission (Def (Some output) None p st) signal (λ id, taskSubmitOut op args id output) s.
Definition submitSlice (op : Z) (hdr data : list Z) (signal : option nat) (p : nat) (st : stage) s
    : TaskState :=
  submission (Def None (Some data) p st) signal (taskSubmitSlice op hdr data) s.

Definition copyPath (z : chain) (p : nat) (st : stage) s : TaskState :=
  submit (z_op z) (z_args z) (z_signal z) p st s.

(** [Buffer.allocUnsafe(cap)]: uninitialised bytes. *)
Definition allocUnsafe (cap : Z) s : nat * TaskState := alloc (junk <$> seq 0 (Z.to_nat cap)) s.

Definition zeroCopyOnce (z : chain) (cap : Z) (p : nat) (st : stage) s : TaskState :=
  let '(output, s) := allocUnsafe cap s in
  submitInto (z_opInto z) (z_args z) output (z_signal z) p st s.

Definition run_microtask (env : wenv) (m : microtask) s : TaskState :=
  match m with
  | DrainNow => drainNow env s
  | Catch1 z p (ETooSmall needed) => zeroCopyOnce z needed p (LastCatch z) s
  | Catch1 z p _ => copyPath z p (LastCatch z) s
  | Catch2 z p => copyPath z p Final s
  end.

(** ** The runtime's methods *)

Inductive call :=
  | GzipDecompress (data : list Z) (maxDecompressed : option Z) (signal : option nat)
  | BrotliDecompress (data : list Z) (maxDecompressed : option Z) (signal : option nat)
  | GzipCompress (data : list Z) (level : option Z) (signal : option nat)
  | Argon2Verify (password phc : list Z) (signal : option nat)
  | Pbkdf2Sha256 (password salt : list Z) (rounds : Z) (dkLen : option Z) (signal : option nat).

(** [scratch(need)]. *)
Definition scratch (need : Z) s : TaskState :=
  if decide (zlen (argScratch s) < need) then set_argScratch (new_u8 need) s else s.

(** Pack into the shared scratch and go on with the packed arguments. *)
Definition with_scratch (need : Z) (pack : option (list Z) → result (list Z * list Z))
    (k : list Z → TaskState → TaskState) s : TaskState :=
  let s := scratch need s in
  match pack (Some (argScratch s)) with
  | Ok (args, dest) => k args (set_argScratch dest s)
  | Throw _ => s
  end.

Definition gzipDecompress data maxDecompressed signal p s : TaskState :=
  let size := gzipIsize data in
  if decide (size < ZERO_COPY_MIN) then
    with_scratch (4 + zlen data) (encodeGzipDecompressArgs data maxDecompressed)
      (λ args, submit OP_gzipDecompress args signal p Final) s
  else
    match encodeGzipDecompressArgs data maxDecompressed None with
    | Ok (args, _) =>
        let z := Chain OP_gzipDecompress OP_gzipDecompressInto args signal in
        zeroCopyOnce z size p (BothCatches z) s
    | Throw _ => s
    end.

Definition brotliDecompress data maxDecompressed signal p s : TaskState :=
  match encodeBrotliDecompressArgs data maxDecompressed None with
  | Ok (args, _) =>
      let z := Chain OP_brotliDecompress OP_brotliDecompressInto args signal in
      zeroCopyOnce z (brotliCapacityGuess (zlen data)) p (BothCatches z) s
  | Throw _ => s
  end.

Definition gzipCompress data level signal p s : TaskState :=
  with_scratch 4 (encodeGzipCompressHeader (default 6 level))
    (λ hdr, submitSlice OP_gzipCompress hdr data signal p Final) s.

Definition argon2Verify password phc signal p s : TaskState :=
  match encodeArgon2VerifyArgs password phc with
  | Ok args => submit OP_argon2Verify args signal p Final s
  | Throw _ => s
  end.

Definition pbkdf2Sha256 password salt rounds dkLen signal p s : TaskState :=
  match encodePbkdf2Args password salt rounds dkLen with
  | Ok args => submit OP_pbkdf2Sha256 args signal p Final s
  | Throw _ => s
  end.

(** A call returns a new promise, the next index. *)
Definition run_call (c : call) s : TaskState :=
  let p := length (promises s) in
  let s := set_promises (promises s ++ [Pending]) s in
  match c with
  | GzipDecompress data m sig => gzipDecompress data m sig p s
  | BrotliDecompress data m sig => brotliDecompress data m sig p s
  | GzipCompress data l sig => gzipCompress data l sig p s
  | Argon2Verify pw phc sig => argon2Verify pw phc sig p s
  | Pbkdf2Sha256 pw salt r dk sig => pbkdf2Sha256 pw salt r dk sig p s
  end.

Definition shutdown s : TaskState :=
  let s := foldl (λ s e, reject e.2 ECancelled (taskCancel e.1 s)) s (inflight s) in
  let s := set_inflight [] s in
  let s := taskShutdown (taskSetDoorbell false s) in
  set_doorbell false (release s).

(** ** The process *)

Inductive event :=
  | Call (c : call)
  | Worker (w : wevent)
  | Bell (env : wenv)
  | Microtask (env : wenv)
  | Abort (sig : nat)
  | Tick
  | Shutdown.

(** [signal.abort()]: the listeners fire once. *)
Definition abort (sig : nat) s : TaskState :=
  if decide (sig ∈ aborted s) then s
  else
    let s := set_aborted (sig :: aborted s) s in
    let fired := filter (λ l, l.1 = sig) (listeners s) in
    foldl (λ s l, taskCancel l.2 s) (set_listeners (filter (λ l, l.1 ≠ sig) (listeners s)) s) fired.

Definition bell (env : wenv) s : TaskState :=
  match bells (native s) with
  | O => s
  | S n =>
      drainNow env (on_native (λ m, NP (queue m) (taken m) (running m) (ring m) (armed m) (bell_addr m) n (cancelled m)) s)
  end.

Definition microtask_step (env : wenv) s : TaskState :=
  match microtasks s with
  | [] => s
  | m :: ms => run_microtask env m (set_microtasks ms s)
  end.

Definition t_step s (e : event) : TaskState :=
  match e with
  | Call c => run_call c s
  | Worker w => wstep s w
  | Bell env => bell env s
  | Microtask env => microtask_step env s
  | Abort sig => abort sig s
  | Tick => release_if_idle s
  | Shutdown => shutdown s
  end.

(** [createTaskRuntime] on a fresh process. *)
Definition createTaskRuntime : TaskState :=
  schedule (ensureDoorbell
    (TS (NP [] 0 [] [] false false 0 []) [new_u8 (64 * 1024)] [] 1 0 false (new_u8 256)
        (Cnt 0 0 0 0) false false [] [] [] [])).

End runtime.
