(* ===== verification/TaskSpec.v ===== *)
(** Correctness of the off-thread task runtime (the model is Task.v).

    The invariant [Inv] ties the runtime's in-flight map to what the native side
    holds (queued jobs, running jobs, completions in the ring), each promise to the
    one place that will settle it, each zero-copy buffer to its task, and each
    settled promise to the answer of its call.  [extra] completions and [busy]
    promises are those the code in progress has in hand: a drained batch, the
    microtask being run. *)

From S2P Require Import Prelude.
From S2P Require Import JsMap.
From S2P Require Import Utf8.
From S2P Require Import TaskOp.
From S2P Require Import Task.

(** ** Generic facts *)

Lemma mdel_perm {V} (id : Z) (d : V) m : mget id m = Some d → m ≡ₚ (id, d) :: mdel id m.
Proof.
  induction m as [|[k v] m IH]; simpl; [done|]. case_decide as Hk; [by intros [= ->]; subst|].
  intros Hm. rewrite (IH Hm) at 1. apply Permutation_swap.
Qed.

Lemma delete_perm {A} (l : list A) i x : l !! i = Some x → l ≡ₚ x :: delete i l.
Proof. apply delete_Permutation. Qed.

Lemma fmap_delete_perm {A B} (f : A → B) (l : list A) i x :
  l !! i = Some x → f <$> l ≡ₚ f x :: (f <$> delete i l).
Proof. intros Hx. by rewrite (delete_perm l i x Hx) at 1. Qed.

Lemma NoDup_fmap_eq {A B} (f : A → B) (l : list A) x y :
  NoDup (f <$> l) → x ∈ l → y ∈ l → f x = f y → x = y.
Proof.
  intros Hnd [i Hi]%list_elem_of_lookup [j Hj]%list_elem_of_lookup E.
  assert (i = j) as ->; [|congruence].
  eapply (NoDup_lookup (f <$> l)); [done| |].
  - by rewrite list_lookup_fmap, Hi.
  - rewrite list_lookup_fmap, Hj. simpl. by rewrite E.
Qed.

Lemma Forall_filter {A} (P Q : A → Prop) `{∀ x, Decision (Q x)} l : Forall P l → Forall P (filter Q l).
Proof. rewrite !Forall_forall. intros HP x [_ Hx]%list_elem_of_filter. auto. Qed.

Lemma Forall_perm {A} (P : A → Prop) l k : l ≡ₚ k → Forall P l → Forall P k.
Proof. intros E. by rewrite E. Qed.

Lemma subarray_splice (b src : list Z) :
  zlen src ≤ zlen b → subarray (splice b 0 src) 0 (zlen src) = src.
Proof.
  intros Hle. unfold splice. change (take (Z.to_nat 0) b) with (@nil Z). cbn [app].
  apply subarray_prefix.
Qed.

Lemma take_splice (b src : list Z) :
  zlen src ≤ zlen b → take (Z.to_nat (zlen src)) (splice b 0 src) = src.
Proof.
  intros Hle. unfold splice. change (take (Z.to_nat 0) b) with (@nil Z). cbn [app]. apply take_zlen_app.
Qed.

Lemma le_bytes_app n m z : le_bytes (n + m) z = le_bytes n z ++ le_bytes m (z / 256 ^ Z.of_nat n).
Proof.
  revert z. induction n as [|n IH]; intros z; [by rewrite Z.div_1_r|].
  cbn [Nat.add le_bytes app]. f_equal. rewrite IH. f_equal. f_equal.
  rewrite Nat2Z.inj_succ, Z.pow_succ_r, Z.div_div by lia. done.
Qed.

Lemma task_le_bytes_mod n z : le_bytes n z = le_bytes n (z mod 256 ^ Z.of_nat n).
Proof.
  revert z. induction n as [|n IH]; intros z; [done|]. cbn [le_bytes].
  rewrite Nat2Z.inj_succ, Z.pow_succ_r by lia. f_equal.
  - rewrite Z.rem_mul_r by lia. rewrite Z.mul_comm, Z.mod_add, Z.mod_mod by lia. done.
  - rewrite (IH (z / 256)). f_equal. rewrite Z.rem_mul_r by lia.
    rewrite Z.mul_comm, Z.div_add, (Z.div_small (z mod 256)), Z.add_0_l by (try lia; apply Z.mod_pos_bound; lia).
    done.
Qed.

(** [readU64At] reads a little-endian u64 in two words. *)
Lemma readU64At_app pre post v :
  0 ≤ v < U53 → readU64At (pre ++ le_bytes 8 v ++ post) (zlen pre) = Ok v.
Proof.
  intros Hv. unfold readU64At. pose proof (round_double_exact v) as Hrd. unfold U53 in *.
  pose proof (Z.mod_pos_bound v 4294967296 eq_refl) as Hm.
  pose proof (Z.div_mod v 4294967296 ltac:(lia)) as Hdm.
  assert (Hq : 0 ≤ v / 4294967296 < 4294967296).
  { split; [apply Z.div_pos; lia|apply Z.div_lt_upper_bound; lia]. }
  rewrite (le_bytes_app 4 4), (task_le_bytes_mod 4 v). change (256 ^ Z.of_nat 4) with 4294967296.
  rewrite <-!app_assoc. rewrite (dv_get_app 4 pre _ (zlen pre) _ eq_refl Hm). cbn [mbind result_bind].
  rewrite (app_assoc pre). replace (zlen pre + 4) with (zlen (pre ++ le_bytes 4 (v mod 4294967296)))
    by (rewrite zlen_app, zlen_word; done).
  rewrite (dv_get_app 4 _ post _ _ eq_refl Hq). cbn [mbind result_bind mret result_ret]. f_equal.
  rewrite <-Hrd at 3 by lia. f_equal. lia.
Qed.

Lemma readU64At_total b off : 0 ≤ off → off + 8 ≤ zlen b → ∃ v, readU64At b off = Ok v.
Proof.
  intros H0 H8. unfold readU64At.
  destruct (dv_get_total 4 b off) as [lo ->]; [done|lia|].
  destruct (dv_get_total 4 b (off + 4)) as [hi ->]; [lia|lia|]. by eexists.
Qed.

Section spec.
Context (run_op : Z → list Z → list Z → list Z + list Z).
Context (run_into : Z → list Z → list Z → list Z → (Z + Z * list Z) * list Z).
Implicit Types s : TaskState.

(** ** The contract of the native ops *)

(** The op whose answer a zero-copy op writes. *)
Definition copy_op (op : Z) : Z :=
  if decide (op = OP_gzipDecompressInto) then OP_gzipDecompress
  else if decide (op = OP_brotliDecompressInto) then OP_brotliDecompress
  else op.

(** A completion body fits its u32 length field and a written length is exact as a
    double; a zero-copy op writes the front of its destination, the bytes its copying
    form answers, or fails with one of the documented statuses (rust/task/ops.rs, [run_into]). *)
Record CodecOk : Prop := {
  op_len op hdr data b :
    run_op op hdr data = inl b ∨ run_op op hdr data = inr b → zlen b < U32;
  into_ok op hdr data dest w dest' :
    run_into op hdr data dest = (inl w, dest') →
    zlen dest' = zlen dest ∧ 0 ≤ w ≤ zlen dest ∧ w < U53 ∧
    run_op (copy_op op) hdr data = inl (take (Z.to_nat w) dest');
  into_err op hdr data dest st b dest' :
    run_into op hdr data dest = (inr (st, b), dest') →
    zlen dest' = zlen dest ∧ zlen b < U32 ∧
    st ∈ [TASK_STATUS_ERROR; TASK_STATUS_TOO_SMALL; TASK_STATUS_UNSUPPORTED] }.

(** ** What a call is owed *)

Definition call_signal (c : call) : option nat :=
  match c with
  | GzipDecompress _ _ sig | BrotliDecompress _ _ sig | GzipCompress _ _ sig
  | Argon2Verify _ _ sig | Pbkdf2Sha256 _ _ _ _ sig => sig
  end.

(** The native answer to the call, computed on its own arguments. *)
Definition answer (c : call) : list Z + list Z :=
  match c with
  | GzipDecompress data m _ => run_op OP_gzipDecompress (le_bytes 4 (to_u32 (default 0 m))) data
  | BrotliDecompress data m _ => run_op OP_brotliDecompress (le_bytes 4 (to_u32 (default 0 m))) data
  | GzipCompress data l _ => run_op OP_gzipCompress (le_bytes 4 (to_u32 (default 6 l))) data
  | Argon2Verify pw phc _ =>
      run_op OP_argon2Verify (le_bytes 4 (to_u32 (zlen pw)) ++ le_bytes 4 (to_u32 (zlen phc))) (pw ++ phc)
  | Pbkdf2Sha256 pw salt r dk _ =>
      run_op OP_pbkdf2Sha256
        (le_bytes 4 (to_u32 r) ++ le_bytes 4 (to_u32 (default 32 dk)) ++ le_bytes 4 (to_u32 (zlen salt)))
        (salt ++ pw)
  end.

Definition message (b : list Z) : list Z :=
  let m := bunDecodeUtf8 b in if decide (m = []) then js "task failed" else m.

(** [signal] has been aborted. *)
Definition is_aborted s (c : call) : Prop := ∃ sig, call_signal c = Some sig ∧ sig ∈ aborted s.

(** ** The invariant *)

Definition outs s : list nat := omap (λ e, d_out e.2) (inflight s).
Definition viewed s (b : nat) : Prop := ∃ p o e, promises s !! p = Some (Fulfilled (View b o e)).
(** A buffer that only the drain loop uses. *)
Definition target s (b : nat) : Prop := (b < length (bufs s))%nat ∧ b ∉ outs s ∧ ¬ viewed s b.

Definition job_input (j : Job) : list Z * list Z :=
  match j_data j with Some d => (j_args j, d) | None => split_args (j_op j) (j_args j) end.
Definition job_answer (j : Job) : list Z + list Z :=
  run_op (copy_op (j_op j)) (job_input j).1 (job_input j).2.

Definition mt_promise (m : microtask) : option nat :=
  match m with DrainNow => None | Catch1 _ p _ => Some p | Catch2 _ p => Some p end.

Definition holders s (busy : list nat) : list nat :=
  ((λ e, d_promise e.2) <$> inflight s) ++ omap mt_promise (microtasks s) ++ busy.

Definition native_ids s (extra : list Completion) : list Z :=
  (j_id <$> queue (native s)) ++ ((λ r, j_id (r_job r)) <$> running (native s)) ++
  (c_id <$> ring (native s) ++ extra).

Context (calls : list call) (owner : gmap Z nat).

Definition chain_ok (c : call) (z : chain) : Prop :=
  copy_op (z_op z) = z_op z ∧ copy_op (z_opInto z) = z_op z ∧
  header_len (z_opInto z) = header_len (z_op z) ∧
  (let '(hdr, data) := split_args (z_op z) (z_args z) in run_op (z_op z) hdr data = answer c) ∧
  z_signal z = call_signal c.

Definition defer_ok (id : Z) (d : Deferred) : Prop :=
  owner !! id = Some (d_promise d) ∧
  ∃ c, calls !! d_promise d = Some c ∧
    match d_stage d with Final => d_out d = None | LastCatch z | BothCatches z => chain_ok c z end.

Definition job_ok s (j : Job) : Prop :=
  ∃ d c, mget (j_id j) (inflight s) = Some d ∧ calls !! d_promise d = Some c ∧
    j_out j = d_out d ∧ j_data j = d_keep d ∧ job_answer j = answer c ∧
    (j_out j = None → copy_op (j_op j) = j_op j).

(** The completion [(st, body)] of the task of [d], whose destination holds [dest],
    answers the call [c]. *)
Definition outcome_ok s (c : call) (d : Deferred) (dest : nat → list Z) (st : Z) (body : list Z) : Prop :=
  0 ≤ st < U32 ∧ zlen body < U32 ∧
  (st = TASK_STATUS_OK →
     match d_out d with
     | None => answer c = inl body
     | Some o => ∃ w, body = le_bytes 8 w ∧ 0 ≤ w ≤ zlen (dest o) ∧ w < U53 ∧
                      answer c = inl (take (Z.to_nat w) (dest o))
     end) ∧
  (st = TASK_STATUS_CANCELLED → is_aborted s c) ∧
  (d_out d = None → st ∈ [TASK_STATUS_OK; TASK_STATUS_ERROR; TASK_STATUS_CANCELLED]) ∧
  (st = TASK_STATUS_ERROR → d_out d = None → answer c = inr body).

Definition compl_ok s (k : Completion) : Prop :=
  ∃ d c, mget (c_id k) (inflight s) = Some d ∧ calls !! d_promise d = Some c ∧
    outcome_ok s c d (content s) (c_status k) (c_body k).

Definition run_ok s (r : Running) : Prop :=
  ∃ d c, mget (j_id (r_job r)) (inflight s) = Some d ∧ calls !! d_promise d = Some c ∧
    j_out (r_job r) = d_out d ∧ j_data (r_job r) = d_keep d ∧
    outcome_ok s c d (λ o, default (content s o) (r_dest r)) (r_status r) (r_body r).

Definition settled_ok s (c : call) (r : pstate) : Prop :=
  match r with
  | Pending => True
  | Fulfilled v =>
      answer c = inl (read_value s v) ∧
      match v with Bytes _ => True | View b _ _ => (b < length (bufs s))%nat ∧ b ∉ outs s end
  | Rejected (EMessage m) => ∃ b, answer c = inr b ∧ m = message b
  | Rejected ECancelled => is_aborted s c
  | Rejected EOverloaded => True
  | Rejected _ => False
  end.

Definition mt_ok (m : microtask) : Prop :=
  match m with
  | DrainNow => True
  | Catch1 z p _ | Catch2 z p => ∃ c, calls !! p = Some c ∧ chain_ok c z
  end.

(** The task [id] belongs to a call with this abort signal. *)
Definition signal_of (id : Z) (sig : nat) : Prop :=
  ∃ p c, owner !! id = Some p ∧ calls !! p = Some c ∧ call_signal c = Some sig.

Record Inv (extra : list Completion) (busy : list nat) s : Prop := {
  inv_ids : mkeys (inflight s) ≡ₚ native_ids s extra;
  inv_wf : wf (inflight s);
  inv_owner id p : owner !! id = Some p → 1 ≤ id < nextId s;
  inv_next : 1 ≤ nextId s;
  inv_defer : Forall (λ e, defer_ok e.1 e.2) (inflight s);
  inv_queue : Forall (job_ok s) (queue (native s));
  inv_running : Forall (run_ok s) (running (native s));
  inv_ring : Forall (compl_ok s) (ring (native s) ++ extra);
  inv_outs : NoDup (outs s);
  inv_outs_lt : Forall (λ o, o < length (bufs s))%nat (outs s);
  inv_drain : target s (drainBuf s);
  inv_len : length (promises s) = length calls;
  inv_holders : NoDup (holders s busy);
  inv_pending p : promises s !! p = Some Pending ↔ p ∈ holders s busy;
  inv_settled p c r : calls !! p = Some c → promises s !! p = Some r → settled_ok s c r;
  inv_mts : Forall mt_ok (microtasks s);
  inv_listeners : Forall (λ l, signal_of l.2 l.1) (listeners s);
  inv_cancelled : Forall (λ id, ∃ sig, signal_of id sig ∧ sig ∈ aborted s) (cancelled (native s)) }.

Hypothesis codec : CodecOk.

(** ** Worker steps *)

Lemma inv_defer_get extra busy s id d :
  Inv extra busy s → mget id (inflight s) = Some d → defer_ok id d.
Proof.
  intros HI Hd. pose proof (inv_defer _ _ _ HI) as HF. rewrite Forall_forall in HF.
  by apply (HF (id, d)), mget_Some_elem.
Qed.

Lemma owned_signal extra busy s id d c sig :
  Inv extra busy s → mget id (inflight s) = Some d → calls !! d_promise d = Some c →
  signal_of id sig → call_signal c = Some sig.
Proof.
  intros HI Hd Hc (p & c' & Hp & Hc' & Hs).
  destruct (inv_defer_get _ _ _ _ _ HI Hd) as (Ho & _). by simplify_eq.
Qed.

Lemma cancelled_aborted extra busy s id d c :
  Inv extra busy s → mget id (inflight s) = Some d → calls !! d_promise d = Some c →
  id ∈ cancelled (native s) → is_aborted s c.
Proof.
  intros HI Hd Hc Hin. pose proof (inv_cancelled _ _ _ HI) as HF. rewrite Forall_forall in HF.
  destruct (HF _ Hin) as (sig & Hs & Ha). exists sig. split; [|done]. by eapply owned_signal.
Qed.

(** The parts of [outcome_ok] that the status settles. *)
Ltac outcome :=
  unfold outcome_ok; repeat match goal with |- _ ∧ _ => split end;
  try done; try (by intros ?; simplify_eq); try (by intros ? ?; simplify_eq); try set_solver.

Lemma execute_ok extra busy s j :
  Inv extra busy s → job_ok s j → run_ok s (execute run_op run_into j s).
Proof.
  intros HI (d & c & Hd & Hc & Ho & Hk & Ha & Hcp). exists d, c.
  unfold execute. case_decide as Hcan.
  { simpl. repeat (split; [done|]). outcome. intros _. by eapply cancelled_aborted. }
  unfold job_answer in Ha. unfold job_input in Ha.
  destruct (match j_data j with Some _ => _ | None => _ end) as [hdr data] eqn:Ei. cbn [fst snd] in Ha.
  destruct (j_out j) as [o|] eqn:Eo.
  - destruct (run_into (j_op j) hdr data (content s o)) as [[w|[st b]] dest] eqn:Er; simpl;
      rewrite Eo; repeat (split; [done|]); unfold outcome_ok; rewrite <-Ho.
    + apply (into_ok codec) in Er as (Hz & Hw & Hw64 & Hop). rewrite Ha in Hop. outcome.
      intros _. exists w. by rewrite Hz.
    + apply (into_err codec) in Er as (Hz & Hb & Hst).
      assert (st = 1 ∨ st = 3 ∨ st = 4) as [-> | [-> | ->]] by (set_solver); outcome.
  - rewrite Hcp in Ha by done.
    destruct (run_op (j_op j) hdr data) as [b|b] eqn:Er; simpl;
      rewrite Eo; repeat (split; [done|]); unfold outcome_ok; rewrite <-Ho; outcome;
      apply (op_len codec (j_op j) hdr data); auto.
Qed.

Lemma execute_job j s : r_job (execute run_op run_into j s) = j.
Proof. unfold execute. repeat case_match; done. Qed.

Lemma wstart_inv extra busy s i : Inv extra busy s → Inv extra busy (wstart run_op run_into i s).
Proof.
  intros HI. unfold wstart. destruct (queue (native s) !! i) as [j|] eqn:Ej; [|done].
  case_decide; [done|]. pose proof (inv_queue _ _ _ HI) as HQ.
  assert (Hj : job_ok s j) by (rewrite Forall_forall in HQ; by apply HQ, list_elem_of_lookup_2 with i).
  pose proof (execute_ok _ _ _ _ HI Hj) as Hr. pose proof (execute_job j s) as Hid.
  set (r := execute run_op run_into j s) in *. clearbody r.
  destruct HI. constructor; try done; simpl.
  - rewrite inv_ids0. unfold native_ids. simpl. rewrite (fmap_delete_perm j_id _ _ _ Ej).
    rewrite !fmap_app. simpl. rewrite Hid. solve_Permutation.
  - apply Forall_delete. exact HQ.
  - apply Forall_app. split; [exact inv_running0|]. constructor; [exact Hr|constructor].
Qed.

(** A popped batch changes no job. *)
Lemma wpop_inv extra busy s n : Inv extra busy s → Inv extra busy (wpop n s).
Proof. intros []. by constructor. Qed.

Lemma content_insert s o x b :
  (o < length (bufs s))%nat →
  content (set_bufs (<[o := x]> (bufs s)) s) b = if decide (b = o) then x else content s b.
Proof.
  intros Ho. unfold content. simpl. case_decide as Hb.
  - subst. by rewrite list_lookup_insert_eq.
  - by rewrite list_lookup_insert_ne.
Qed.

Lemma outs_elem s id d o : mget id (inflight s) = Some d → d_out d = Some o → o ∈ outs s.
Proof.
  intros Hd Ho. unfold outs. apply list_elem_of_omap. exists (id, d). split; [by apply mget_Some_elem|done].
Qed.

Lemma outs_inj m id1 d1 id2 d2 o :
  NoDup (omap (λ e : Z * Deferred, d_out e.2) m) → mget id1 m = Some d1 → mget id2 m = Some d2 →
  d_out d1 = Some o → d_out d2 = Some o → id1 = id2.
Proof.
  clear codec.
  intros Hnd H1 H2 Ho1 Ho2. apply mget_Some_elem in H1, H2. revert Hnd H1 H2.
  induction m as [|[k d] m IH]; [by set_solver|]. intros Hnd H1 H2. simpl in Hnd.
  assert (Hm : ∀ id d', (id, d') ∈ m → d_out d' = Some o → o ∈ omap (λ e : Z * Deferred, d_out e.2) m).
  { intros id d' Hin Hd'. apply list_elem_of_omap. by exists (id, d'). }
  assert (Htl : NoDup (omap (λ e : Z * Deferred, d_out e.2) m)).
  { destruct (d_out d); [by inversion_clear Hnd|done]. }
  apply elem_of_cons in H1 as [[= -> ->]|H1]; apply elem_of_cons in H2 as [[= -> ->]|H2]; [done| | |by auto].
  - rewrite Ho1 in Hnd. apply NoDup_cons in Hnd as [Hn _]. exfalso. eauto.
  - rewrite Ho2 in Hnd. apply NoDup_cons in Hnd as [Hn _]. exfalso. eauto.
Qed.

Lemma native_ids_NoDup extra busy s : Inv extra busy s → NoDup (native_ids s extra).
Proof. intros HI. rewrite <-(inv_ids _ _ _ HI). exact (inv_wf _ _ _ HI). Qed.

Lemma outcome_dest s c d f g st b :
  (∀ o, d_out d = Some o → f o = g o) → outcome_ok s c d f st b → outcome_ok s c d g st b.
Proof.
  intros Hfg (H1 & H2 & H3 & H4). split; [done|]. split; [done|]. split; [|done].
  intros Hs. specialize (H3 Hs). destruct (d_out d) as [o|]; [|done]. by rewrite <-Hfg.
Qed.

(** Changing the contents of buffers that no settled value views and whose tasks
    still know what they answer. *)
Lemma bufs_inv extra busy s bs :
  Inv extra busy s → length bs = length (bufs s) →
  (∀ b, b ∉ outs s → viewed s b → default [] (bs !! b) = content s b) →
  Forall (run_ok (set_bufs bs s)) (running (native s)) →
  Forall (compl_ok (set_bufs bs s)) (ring (native s) ++ extra) →
  Inv extra busy (set_bufs bs s).
Proof.
  intros HI Hl Hv Hr Hk. destruct HI. constructor; try done; simpl.
  - eapply Forall_impl; [exact inv_outs_lt0|]. simpl. intros. by rewrite Hl.
  - destruct inv_drain0 as (?&?&?). split; [|done]. simpl. by rewrite Hl.
  - intros p c r Hc Hp. specialize (inv_settled0 p c r Hc Hp).
    destruct r as [|[bs'|b o e]|[]]; try done. simpl in *. destruct inv_settled0 as (Ha & Hlt & Ho).
    unfold content at 1. simpl. rewrite Hv; [by rewrite Hl|done|]. by exists p, o, e.
Qed.

Lemma dest_write_inv extra busy s i r o dest :
  Inv extra busy s → running (native s) !! i = Some r → j_out (r_job r) = Some o →
  r_dest r = Some dest → Inv extra busy (set_bufs (<[o := dest]> (bufs s)) s).
Proof.
  intros HI Hi Ho Hd. pose proof (native_ids_NoDup _ _ _ HI) as Hnd.
  pose proof (inv_running _ _ _ HI) as HR. rewrite Forall_forall in HR.
  destruct (HR r) as (d & c & Hg & Hc & Hjo & _ & Hout); [by eapply list_elem_of_lookup_2|].
  assert (Hdo : d_out d = Some o) by congruence.
  assert (Hlt : (o < length (bufs s))%nat).
  { pose proof (inv_outs_lt _ _ _ HI) as HF. rewrite Forall_forall in HF. apply HF. by eapply outs_elem. }
  (* another task's destination is another buffer *)
  assert (Hother : ∀ id d', mget id (inflight s) = Some d' → id ≠ j_id (r_job r) →
            ∀ o', d_out d' = Some o' → content s o' = content (set_bufs (<[o := dest]> (bufs s)) s) o').
  { intros id d' Hd' Hne o' Ho'. rewrite content_insert by done. case_decide; [|done]. subst o'.
    destruct Hne. eapply outs_inj; [exact (inv_outs _ _ _ HI)|done..]. }
  apply bufs_inv; [done|by rewrite length_insert| | |].
  - intros b Hb _. change (content (set_bufs (<[o := dest]> (bufs s)) s) b = content s b).
    rewrite content_insert by done. case_decide; [|done]. subst. destruct Hb. by eapply outs_elem.
  - rewrite Forall_forall. intros r' Hr'. destruct (HR r' Hr') as (d' & c' & Hg' & Hc' & Hjo' & Hk' & Hout').
    exists d', c'. repeat (split; [done|]). eapply outcome_dest; [|exact Hout'].
    intros o' Ho'. cbn beta. destruct (decide (j_id (r_job r') = j_id (r_job r))) as [E|Hne].
    + unfold native_ids in Hnd. apply NoDup_app in Hnd as (_ & _ & Hnd). apply NoDup_app in Hnd as (Hnd & _).
      assert (r' = r) as ->; [|by rewrite Hd].
      eapply NoDup_fmap_eq; [exact Hnd|done|by eapply list_elem_of_lookup_2|done].
    + by rewrite (Hother _ _ Hg' Hne o' Ho').
  - pose proof (inv_ring _ _ _ HI) as HK. rewrite Forall_forall in HK |- *. intros k Hk.
    destruct (HK k Hk) as (d' & c' & Hg' & Hc' & Hout'). exists d', c'. repeat (split; [done|]).
    eapply outcome_dest; [|exact Hout']. intros o' Ho'. apply (Hother _ _ Hg'); [|done].
    intros E. unfold native_ids in Hnd. apply NoDup_app in Hnd as (_ & _ & Hnd).
    apply NoDup_app in Hnd as (_ & Hdis & _). apply (Hdis (j_id (r_job r))).
    + apply list_elem_of_fmap. exists r. split; [done|]. by eapply list_elem_of_lookup_2.
    + rewrite <-E. apply list_elem_of_fmap. by exists k.
Qed.

Lemma finish_native_inv extra busy s i r :
  Inv extra busy s → running (native s) !! i = Some r →
  (∀ o dest, j_out (r_job r) = Some o → r_dest r = Some dest → content s o = dest) →
  let id := j_id (r_job r) in
  Inv extra busy (on_native (λ n, push (Compl id (r_status r) (r_body r))
    (NP (queue n) (taken n) (delete i (running n)) (ring n) (armed n) (bell_addr n) (bells n)
        (filter (λ x, x ≠ id) (cancelled n)))) s).
Proof.
  intros HI Hi Hdest. pose proof (inv_running _ _ _ HI) as HR.
  assert (Hr : run_ok s r).
  { rewrite Forall_forall in HR. apply HR. by eapply list_elem_of_lookup_2. }
  destruct HI. constructor; try done; simpl.
  - rewrite inv_ids0. unfold native_ids. simpl. rewrite !fmap_app. simpl.
    rewrite (fmap_delete_perm (λ r, j_id (r_job r)) _ _ _ Hi). solve_Permutation.
  - by apply Forall_delete.
  - rewrite <-app_assoc. apply Forall_app in inv_ring0 as [Hk1 Hk2]. apply Forall_app. split; [exact Hk1|].
    apply Forall_app. split; [|exact Hk2]. constructor; [|constructor].
    destruct Hr as (d & c & Hg & Hc & Hjo & _ & Hout). exists d, c. repeat (split; [done|]). simpl.
    eapply outcome_dest; [|exact Hout]. intros o Ho. cbn beta.
    destruct (r_dest r) as [dest|] eqn:Ed; [|done]. simpl. symmetry. apply (Hdest o dest); [congruence|done].
  - by apply Forall_filter.
Qed.

Lemma wfinish_inv extra busy s i : Inv extra busy s → Inv extra busy (wfinish i s).
Proof.
  intros HI. unfold wfinish. destruct (running (native s) !! i) as [r|] eqn:Ei; [|done].
  destruct (j_out (r_job r)) as [o|] eqn:Eo.
  2: { apply finish_native_inv; [done|done|]. intros o dest Ho _. congruence. }
  destruct (r_dest r) as [dest|] eqn:Ed.
  2: { apply finish_native_inv; [done|done|]. intros o' dest _ Hd. congruence. }
  pose proof (dest_write_inv _ _ _ _ _ _ _ HI Ei Eo Ed) as HI2.
  refine (finish_native_inv _ _ _ i r HI2 Ei _). intros o' dest' Ho' Hd'. simplify_eq.
  rewrite content_insert, decide_True; [done|done|].
  pose proof (inv_running _ _ _ HI) as HR. rewrite Forall_forall in HR.
  destruct (HR r) as (d & c & Hg & Hc & Hjo & _); [by eapply list_elem_of_lookup_2|].
  pose proof (inv_outs_lt _ _ _ HI) as HF. rewrite Forall_forall in HF. apply HF.
  eapply outs_elem; [done|congruence].
Qed.

Lemma wsteps_inv extra busy ws s : Inv extra busy s → Inv extra busy (wsteps run_op run_into ws s).
Proof.
  revert s. induction ws as [|[n|i|i] ws IH]; intros s HI; [done| | |]; simpl; apply IH; simpl.
  - by apply wpop_inv.
  - by apply wstart_inv.
  - by apply wfinish_inv.
Qed.

(** ** Draining *)

(** Fields the worker steps and the drain calls leave alone. *)
Definition js_side (s s' : TaskState) : Prop :=
  inflight s' = inflight s ∧ nextId s' = nextId s ∧ drainBuf s' = drainBuf s ∧
  promises s' = promises s ∧ microtasks s' = microtasks s ∧ length (bufs s') = length (bufs s).

Lemma js_side_refl s : js_side s s.
Proof. by repeat split. Qed.
Lemma js_side_trans s1 s2 s3 : js_side s1 s2 → js_side s2 s3 → js_side s1 s3.
Proof. intros (?&?&?&?&?&?) (?&?&?&?&?&?). repeat split; by etrans. Qed.

Lemma wsteps_js ws s : js_side s (wsteps run_op run_into ws s).
Proof.
  revert s. induction ws as [|w ws IH]; intros s; [apply js_side_refl|]. simpl.
  eapply js_side_trans; [|apply IH]. destruct w as [n|i|i]; simpl.
  - repeat split.
  - unfold wstart. repeat case_match; repeat split.
  - unfold wfinish. case_match; [|repeat split].
    repeat case_match; repeat split; simpl; by rewrite length_insert.
Qed.

(** Workers write only to the destinations of running tasks. *)
Lemma wsteps_content extra busy ws s b :
  Inv extra busy s → b ∉ outs s → content (wsteps run_op run_into ws s) b = content s b.
Proof.
  revert s. induction ws as [|w ws IH]; intros s HI Hb; [done|]. simpl.
  assert (Hw : Inv extra busy (wstep run_op run_into s w)) by exact (wsteps_inv extra busy [w] s HI).
  pose proof (wsteps_js [w] s) as (Hin & _). simpl in Hin.
  rewrite IH; [|done|by unfold outs; rewrite Hin]. destruct w as [n|i|i]; simpl.
  - done.
  - unfold wstart. by repeat case_match.
  - unfold wfinish. destruct (running (native s) !! i) as [r|] eqn:Ei; [|done].
    destruct (j_out (r_job r)) as [o|] eqn:Eo; [|done]. destruct (r_dest r) as [dest|]; [|done].
    unfold content. simpl. rewrite list_lookup_insert_ne; [done|]. intros ->. apply Hb.
    pose proof (inv_running _ _ _ HI) as HR. rewrite Forall_forall in HR.
    destruct (HR r) as (d & c & Hg & Hc & Hjo & _); [by eapply list_elem_of_lookup_2|].
    eapply outs_elem; [done|congruence].
Qed.

(** Taking a completed task out of the map leaves its promise in hand. *)
Definition retire (id : Z) s : TaskState := set_inflight (mdel id (inflight s)) s.

Lemma outs_retire s id d :
  mget id (inflight s) = Some d → outs s ≡ₚ option_list (d_out d) ++ outs (retire id s).
Proof.
  intros Hd. unfold outs at 1. rewrite (mdel_perm _ _ _ Hd). simpl. by destruct (d_out d).
Qed.

Lemma outs_retire_sub s id o : o ∈ outs (retire id s) → o ∈ outs s.
Proof.
  unfold outs. rewrite !list_elem_of_omap. intros ([k d] & Hin & Ho). exists (k, d). split; [|done].
  clear Ho. unfold retire in Hin. simpl in Hin. revert Hin. generalize (inflight s).
  intros m. induction m as [|[k' d'] m IH]; simpl; [done|]. case_decide; set_solver.
Qed.

Lemma settled_ok_retire s id c r : settled_ok s c r → settled_ok (retire id s) c r.
Proof.
  destruct r as [|[bs|b o e]|[]]; try done. intros (Ha & Hl & Ho). split; [done|]. split; [done|].
  intros Hin. by apply Ho, (outs_retire_sub s id).
Qed.

Lemma holders_retire s busy id d :
  mget id (inflight s) = Some d → holders s busy ≡ₚ holders (retire id s) (d_promise d :: busy).
Proof.
  intros Hd. unfold holders. rewrite (mdel_perm _ _ _ Hd) at 1. simpl. solve_Permutation.
Qed.

Lemma retire_inv k q busy s d :
  Inv (k :: q) busy s → mget (c_id k) (inflight s) = Some d →
  Inv q (d_promise d :: busy) (retire (c_id k) s).
Proof.
  intros HI Hd. pose proof (native_ids_NoDup _ _ _ HI) as Hnd.
  assert (Hperm : native_ids s (k :: q) ≡ₚ c_id k :: native_ids s q).
  { unfold native_ids. rewrite !fmap_app. simpl. solve_Permutation. }
  assert (Hne : ∀ id, id ∈ native_ids s q → mget id (mdel (c_id k) (inflight s)) = mget id (inflight s)).
  { intros id Hin. apply mget_mdel_ne. rewrite Hperm in Hnd. apply NoDup_cons in Hnd as [Hn _]. by intros ->. }
  destruct HI. constructor; try done; simpl.
  - rewrite Hperm in inv_ids0. unfold mkeys in *. rewrite (mdel_perm _ _ _ Hd) in inv_ids0. simpl in inv_ids0.
    by apply Permutation_cons_inv in inv_ids0.
  - by apply wf_mdel.
  - by apply Forall_mdel.
  - rewrite Forall_forall in inv_queue0 |- *. intros j Hj. destruct (inv_queue0 j Hj) as (d' & c & Hg & Hrest).
    exists d', c. split; [|done]. simpl. rewrite Hne; [done|].
    unfold native_ids. apply elem_of_app. left. apply list_elem_of_fmap. eauto.
  - rewrite Forall_forall in inv_running0 |- *. intros r Hr. destruct (inv_running0 r Hr) as (d' & c & Hg & Hrest).
    exists d', c. split; [|done]. simpl. rewrite Hne; [done|].
    unfold native_ids. apply elem_of_app. right. apply elem_of_app. left. apply list_elem_of_fmap. eauto.
  - assert (HF : Forall (compl_ok s) (ring (native s) ++ q)).
    { apply Forall_app in inv_ring0 as [H1 H2]. apply Forall_app. split; [done|]. by inversion_clear H2. }
    rewrite Forall_forall in HF |- *. intros k' Hk'. destruct (HF k' Hk') as (d' & c & Hg & Hrest).
    exists d', c. split; [|done]. simpl. rewrite Hne; [done|].
    unfold native_ids. apply elem_of_app. right. apply elem_of_app. right. apply list_elem_of_fmap. eauto.
  - rewrite (outs_retire s _ _ Hd) in inv_outs0. apply NoDup_app in inv_outs0. by destruct inv_outs0 as (?&?&?).
  - rewrite (outs_retire s _ _ Hd) in inv_outs_lt0. by apply Forall_app in inv_outs_lt0 as [_ ?].
  - destruct inv_drain0 as (?&Hn&?). split; [done|]. split; [|done]. intros Hin. by apply Hn, (outs_retire_sub s (c_id k)).
  - by rewrite <-(holders_retire s busy _ _ Hd).
  - intros p. rewrite <-(holders_retire s busy _ _ Hd). apply inv_pending0.
  - intros p c r Hc Hp. apply (settled_ok_retire s). by eapply inv_settled0.
Qed.

(** Settling a promise in hand. *)
Lemma settle_inv q busy s p c r :
  Inv q (p :: busy) s → calls !! p = Some c → r ≠ Pending → settled_ok s c r →
  (∀ b o e, r = Fulfilled (View b o e) → b ≠ drainBuf s) →
  Inv q busy (settle p r s).
Proof.
  intros HI Hc Hr Hok Hdb. destruct HI.
  assert (Hp : p ∈ holders s (p :: busy)) by (unfold holders; rewrite !elem_of_app; set_solver).
  assert (Hlt : (p < length (promises s))%nat) by (rewrite inv_len0; by eapply lookup_lt_Some).
  assert (Hperm : holders s (p :: busy) ≡ₚ p :: holders s busy) by (unfold holders; solve_Permutation).
  rewrite Hperm in inv_holders0. apply NoDup_cons in inv_holders0 as [Hnin Hnd].
  constructor; try done; simpl.
  - destruct inv_drain0 as (?&?&Hv). split; [done|]. split; [done|]. intros (p' & o & e & Hp').
    simpl in Hp'. apply list_lookup_insert_Some in Hp' as [(-> & E & _)|(_ & Hp')]; [by eapply Hdb|].
    apply Hv. by exists p', o, e.
  - by rewrite length_insert.
  - intros p'. destruct (decide (p' = p)) as [->|Hne].
    + rewrite list_lookup_insert_eq by done. split; [congruence|done].
    + rewrite list_lookup_insert_ne, inv_pending0, Hperm by done. rewrite elem_of_cons. naive_solver.
  - intros p' c' r' Hc' Hp'. apply list_lookup_insert_Some in Hp' as [(-> & <- & _)|(Hne & Hp')].
    + by simplify_eq.
    + by apply (inv_settled0 p' c' r').
Qed.

(** Handing a promise to a microtask. *)
Lemma queue_mt_inv q busy s m p :
  Inv q (p :: busy) s → mt_promise m = Some p → mt_ok m → Inv q busy (queueMicrotask m s).
Proof.
  intros HI Hm Hok. destruct HI.
  assert (Hperm : holders s (p :: busy) ≡ₚ holders (queueMicrotask m s) busy).
  { unfold holders. simpl. rewrite omap_app. simpl. rewrite Hm. solve_Permutation. }
  constructor; try done; simpl.
  - by rewrite <-Hperm.
  - intros p'. rewrite <-Hperm. apply inv_pending0.
  - apply Forall_app. split; [exact inv_mts0|]. by constructor.
Qed.

Lemma reject_inv q busy s id d c e :
  Inv q (d_promise d :: busy) s → defer_ok id d → calls !! d_promise d = Some c →
  (d_stage d = Final → settled_ok s c (Rejected e)) → Inv q busy (reject d e s).
Proof.
  intros HI (_ & c' & Hc' & Hst) Hc Hok. assert (c' = c) as -> by congruence. unfold reject.
  destruct (d_stage d) as [|z|z].
  - eapply settle_inv; [done|done|done|by apply Hok|done].
  - eapply queue_mt_inv; [done|done|]. exists c. done.
  - eapply queue_mt_inv; [done|done|]. exists c. done.
Qed.

Lemma counters_inv extra busy s c : Inv extra busy s → Inv extra busy (set_counters c s).
Proof. intros []. by constructor. Qed.

(** What a step that only settles leaves alone. *)
Definition settles_only s s' : Prop :=
  native s' = native s ∧ bufs s' = bufs s ∧ nextId s' = nextId s ∧ drainBuf s' = drainBuf s ∧
  (∀ o, o ∈ outs s' → o ∈ outs s).

Lemma settles_only_refl s : settles_only s s.
Proof. done. Qed.
Lemma settles_only_trans s1 s2 s3 : settles_only s1 s2 → settles_only s2 s3 → settles_only s1 s3.
Proof. intros (?&?&?&?&?) (?&?&?&?&?). repeat split; try (by etrans). auto. Qed.
Lemma settles_only_reject d e s s1 : settles_only s s1 → settles_only s (reject d e s1).
Proof. unfold reject. by case_match. Qed.

(** A buffer that the bodies of this drain may be views of. *)
Definition view_ok s (buf : nat) (pooled : bool) : Prop :=
  pooled = true ∨ ((buf < length (bufs s))%nat ∧ buf ∉ outs s ∧ buf ≠ drainBuf s).

Lemma view_ok_settles s s' buf pooled : settles_only s s' → view_ok s buf pooled → view_ok s' buf pooled.
Proof.
  intros (_ & E2 & _ & E4 & Hsub) [?|(?&?&?)]; [by left|right]. rewrite E2, E4. naive_solver.
Qed.

Lemma read_bodyOf s buf pooled pre b post off :
  content s buf = pre ++ b ++ post → off = zlen pre →
  read_value s (bodyOf s buf off (zlen b) pooled) = b.
Proof.
  intros E ->. unfold bodyOf. destruct pooled; simpl; rewrite E; by apply subarray_app.
Qed.

Lemma complete_inv k q busy s d view buf pooled pre post tail :
  Inv (k :: q) busy s → mget (c_id k) (inflight s) = Some d →
  content s buf = view ++ tail → view = pre ++ c_body k ++ post → view_ok s buf pooled →
  ∃ s', complete view buf pooled (zlen pre) (c_status k) (zlen (c_body k)) d (retire (c_id k) s) = (Ok tt, s') ∧
        Inv q busy s' ∧ settles_only s s'.
Proof.
  intros HI Hd Hcont Hview Hbuf.
  assert (HK : compl_ok s k).
  { pose proof (inv_ring _ _ _ HI) as HK. rewrite Forall_forall in HK. apply HK. set_solver. }
  destruct HK as (d' & c & Hd' & Hc & Hst & Hlen & Hok & Hcan & Hnone & Herr).
  assert (d' = d) as -> by congruence.
  pose proof (inv_defer_get _ _ _ _ _ HI Hd) as Hdef.
  pose proof (retire_inv _ _ _ _ _ HI Hd) as HR.
  assert (Hso : settles_only s (retire (c_id k) s)).
  { repeat split. intros o. apply outs_retire_sub. }
  assert (Hread : read_value (retire (c_id k) s) (bodyOf (retire (c_id k) s) buf (zlen pre) (zlen (c_body k)) pooled) = c_body k).
  { eapply (read_bodyOf _ _ _ pre _ (post ++ tail)); [|done]. change (content s buf = pre ++ c_body k ++ post ++ tail).
    by rewrite Hcont, Hview, <-!app_assoc. }
  assert (Hfinal : d_stage d = Final → d_out d = None).
  { intros E. destruct Hdef as (_ & c' & Hc' & Hs). by rewrite E in Hs. }
  assert (H64 : 8 ≤ zlen (c_body k) → ∃ v, readU64At view (zlen pre) = Ok v).
  { intros H8. apply readU64At_total; [zlia|]. rewrite Hview, !zlen_app. zlia. }
  unfold complete. case_decide as E0.
  { (* delivered *)
    specialize (Hok E0). destruct (d_out d) as [o|] eqn:Eo.
    - destruct Hok as (w & Hb & Hw & Hw64 & Ha).
      assert (Hol : (o < length (bufs s))%nat).
      { pose proof (inv_outs_lt _ _ _ HI) as HF. rewrite Forall_forall in HF. apply HF. by eapply outs_elem. }
      rewrite decide_True by (rewrite Hb, zlen_le_bytes; done).
      rewrite Hview, Hb, readU64At_app by lia. eexists. split; [done|]. split; [|exact Hso].
      eapply settle_inv; [exact HR|exact Hc|done| |].
      + split; [|split; [exact Hol|]].
        * rewrite Ha. f_equal. simpl. change (content (retire (c_id k) s) o) with (content s o).
          unfold subarray, rel_index. guards. rewrite !Z.min_l by lia. simpl. by rewrite Z.sub_0_r.
        * intros Hin. pose proof (inv_outs _ _ _ HI) as Hn. rewrite (outs_retire s _ _ Hd), Eo in Hn.
          apply NoDup_app in Hn as (_ & Hn & _). apply (Hn o); [set_solver|done].
      + intros b o' e [= <- _ _]. intros ->. destruct (inv_drain _ _ _ HI) as (_ & Hn & _). apply Hn.
        by eapply outs_elem.
    - eexists. split; [done|]. split; [|exact Hso]. eapply settle_inv; [exact HR|exact Hc|done| |].
      + split; [by rewrite Hread|]. unfold bodyOf. destruct pooled; [done|].
        destruct Hbuf as [?|(?&Hn&?)]; [done|]. split; [done|]. intros Hin. by apply Hn, (outs_retire_sub s (c_id k)).
      + intros b o e [=]. unfold bodyOf in *. destruct pooled; [done|]. simplify_eq.
        destruct Hbuf as [?|(?&?&?)]; done. }
  case_decide as E3.
  { (* the destination was too small *)
    assert (Hrej : ∀ n, ∃ s', (Ok tt, reject d (ETooSmall n) (bump_tooSmall (retire (c_id k) s))) = (Ok tt, s') ∧
              Inv q busy s' ∧ settles_only s s').
    { intros n. eexists. split; [done|]. split; [|by apply settles_only_reject].
      eapply reject_inv; [by apply counters_inv|exact Hdef|exact Hc|].
      intros Hf. specialize (Hnone (Hfinal Hf)). rewrite E3 in Hnone. by set_solver. }
    destruct (decide (8 ≤ zlen (c_body k))) as [H8|H8].
    - destruct (H64 H8) as [v ->]. apply Hrej.
    - apply Hrej. }
  case_decide as E4.
  { eexists. split; [done|]. split; [|by apply settles_only_reject].
    eapply reject_inv; [exact HR|exact Hdef|exact Hc|]. intros Hf. specialize (Hnone (Hfinal Hf)).
    rewrite E4 in Hnone. by set_solver. }
  case_decide as E2.
  { eexists. split; [done|]. split; [|by apply settles_only_reject].
    eapply reject_inv; [exact HR|exact Hdef|exact Hc|]. intros Hf. by apply Hcan. }
  eexists. split; [done|]. split; [|by apply settles_only_reject].
  eapply reject_inv; [exact HR|exact Hdef|exact Hc|]. intros Hf. simpl. rewrite Hread.
  exists (c_body k). split; [|done]. apply Herr; [|by apply Hfinal].
  specialize (Hnone (Hfinal Hf)). unfold TASK_STATUS_OK, TASK_STATUS_CANCELLED in *. set_solver.
Qed.

(** A completion's header, read at its offset. *)
Lemma read_header k pre post :
  0 ≤ c_id k < U53 → 0 ≤ c_status k < U32 → zlen (c_body k) < U32 →
  (id ← readU64At (pre ++ completion_entry k ++ post) (zlen pre);
   status ← dv_get 4 (pre ++ completion_entry k ++ post) (zlen pre + 8);
   len ← dv_get 4 (pre ++ completion_entry k ++ post) (zlen pre + 12);
   mret (id, status, len)) = Ok (c_id k, c_status k, zlen (c_body k)).
Proof.
  intros Hid Hst Hlen. unfold completion_entry. pose proof (zlen_nonneg (c_body k)) as Hnn.
  rewrite <-!app_assoc. rewrite readU64At_app by done. cbn [mbind result_bind].
  rewrite (app_assoc pre).
  replace (zlen pre + 8) with (zlen (pre ++ le_bytes 8 (c_id k))) by (rewrite zlen_app, zlen_le_bytes; done).
  rewrite (dv_get_app 4 (pre ++ le_bytes 8 (c_id k)) _ _ _ eq_refl Hst). cbn [mbind result_bind].
  rewrite (app_assoc (pre ++ le_bytes 8 (c_id k))).
  replace (zlen pre + 12) with (zlen ((pre ++ le_bytes 8 (c_id k)) ++ le_bytes 4 (c_status k)))
    by (rewrite !zlen_app, !zlen_le_bytes; lia).
  by rewrite dv_get_app by done.
Qed.

Lemma id_bound extra busy s k :
  Inv extra busy s → nextId s ≤ U32 → k ∈ ring (native s) ++ extra →
  0 ≤ c_id k < U53 ∧ 0 ≤ c_status k < U32 ∧ zlen (c_body k) < U32 ∧
  ∃ d, mget (c_id k) (inflight s) = Some d.
Proof.
  intros HI Hn Hk. pose proof (inv_ring _ _ _ HI) as HK. rewrite Forall_forall in HK.
  destruct (HK k Hk) as (d & c & Hd & Hc & Hst & Hlen & _).
  destruct (inv_defer_get _ _ _ _ _ HI Hd) as (Ho & _). pose proof (inv_owner _ _ _ HI _ _ Ho).
  unfold U32, U53 in *. split; [lia|]. split; [lia|]. split; [lia|]. by exists d.
Qed.

Lemma deliver_inv q busy view buf pooled tail pre s :
  Inv q busy s → nextId s ≤ U32 → content s buf = view ++ tail →
  view = pre ++ (q ≫= completion_entry) → view_ok s buf pooled →
  ∃ s', deliver (length q) view buf pooled (zlen pre) s = (Ok tt, s') ∧ Inv [] busy s' ∧ settles_only s s'.
Proof.
  revert s pre. induction q as [|k q IH]; intros s pre HI Hn Hcont Hview Hbuf; [by exists s|].
  cbn [mbind list_bind] in Hview. cbn [length deliver].
  destruct (id_bound _ _ _ k HI Hn) as (Hid & Hst & Hlen & d & Hd); [set_solver|].
  pose proof (read_header k pre (q ≫= completion_entry) Hid Hst Hlen) as RH.
  change (mbind completion_entry q) with (q ≫= completion_entry) in Hview.
  rewrite <-Hview in RH. rewrite RH. clear RH. rewrite Hd.
  set (hdr := le_bytes 8 (c_id k) ++ le_bytes 4 (c_status k) ++ le_bytes 4 (zlen (c_body k))).
  assert (Hh : zlen hdr = 16) by (unfold hdr; rewrite !zlen_app, !zlen_le_bytes; done).
  assert (He : completion_entry k = hdr ++ c_body k) by (unfold hdr; by rewrite <-!app_assoc).
  destruct (complete_inv k q busy s d view buf pooled (pre ++ hdr) (q ≫= completion_entry) tail)
    as (s1 & E & H1 & Hso); [done|done|done| |done|].
  { by rewrite Hview, He, <-!app_assoc. }
  rewrite zlen_app, Hh in E. unfold retire in E. rewrite E. clear E.
  destruct (IH (bump_completed s1) (pre ++ completion_entry k)) as (s2 & E & H2 & Hso2).
  - by apply counters_inv.
  - destruct Hso as (_ & _ & En & _). simpl. by rewrite En.
  - destruct Hso as (_ & Eb & _). unfold content. simpl. by rewrite Eb.
  - by rewrite Hview, <-app_assoc.
  - by apply (view_ok_settles s).
  - exists s2. split; [|split; [done|]].
    + rewrite <-E. f_equal. rewrite zlen_app, zlen_completion_entry. lia.
    + eapply settles_only_trans; [exact Hso|exact Hso2].
Qed.

(** ** One drain call *)

Lemma target_write_inv extra busy s b x :
  Inv extra busy s → target s b → Inv extra busy (set_bufs (<[b := x]> (bufs s)) s).
Proof.
  intros HI (Hlt & Hout & Hview).
  assert (Hsame : ∀ id d o, mget id (inflight s) = Some d → d_out d = Some o →
            content s o = content (set_bufs (<[b := x]> (bufs s)) s) o).
  { intros id d o Hd Ho. rewrite content_insert by done. case_decide; [|done]. subst. destruct Hout.
    by eapply outs_elem. }
  apply bufs_inv; [done|by rewrite length_insert| | |].
  - intros b' _ Hv. change (content (set_bufs (<[b := x]> (bufs s)) s) b' = content s b').
    rewrite content_insert by done. case_decide; [|done]. by subst.
  - eapply Forall_impl; [exact (inv_running _ _ _ HI)|].
    intros r (d & c & Hd & Hc & Hjo & Hk & Hok). exists d, c. repeat (split; [done|]).
    eapply outcome_dest; [|exact Hok]. intros o Ho. cbn beta. by rewrite (Hsame _ _ _ Hd Ho).
  - eapply Forall_impl; [exact (inv_ring _ _ _ HI)|].
    intros k (d & c & Hd & Hc & Hok). exists d, c. repeat (split; [done|]).
    eapply outcome_dest; [|exact Hok]. intros o Ho. by apply (Hsame _ _ _ Hd Ho).
Qed.

Lemma target_js s s' b : js_side s s' → target s b → target s' b.
Proof.
  intros (E1 & _ & _ & E4 & _ & E6) (Hlt & Ho & Hv). unfold target, outs, viewed.
  rewrite E1, E4, E6. done.
Qed.

(** The ring is emptied into the batch in hand. *)
Definition take_ring s : TaskState :=
  on_native (λ n, NP (queue n) (taken n) (running n) [] (armed n) (bell_addr n) (bells n) (cancelled n)) s.

Lemma take_ring_inv busy s : Inv [] busy s → Inv (ring (native s)) busy (take_ring s).
Proof.
  intros []. rewrite app_nil_r in inv_ring0. constructor; try done.
  rewrite inv_ids0. unfold native_ids. simpl. by rewrite app_nil_r.
Qed.

Lemma set_bufs_same s b : (b < length (bufs s))%nat → set_bufs (<[b := content s b]> (bufs s)) s = s.
Proof.
  intros Hb. destruct (lookup_lt_is_Some_2 _ _ Hb) as [x Hx]. unfold content. rewrite Hx. simpl.
  rewrite list_insert_id by done. by destruct s.
Qed.

Lemma on_native_ring s :
  on_native (λ n, NP (queue n) (taken n) (running n) (ring (native s)) (armed n) (bell_addr n) (bells n) (cancelled n)) s = s.
Proof. destruct s as [[]]. done. Qed.

(** What a drain call leaves: nothing pending, a size to grow to, or a batch in
    hand whose frame is in the buffer. *)
Definition drained (q : list Completion) (w : Z) (len : Z) (b : list Z) : Prop :=
  (q = [] ∧ (w < 4 ∨ len < w)) ∨
  (w = drain_needed q ∧ 4 ≤ w ≤ len ∧ ∃ tail, b = drain_frame q ++ tail).

Lemma disarm_inv extra busy s : Inv extra busy s → Inv extra busy (disarm s).
Proof. intros []. by constructor. Qed.

Lemma taskDrain_inv busy env k b s w s' :
  Inv [] busy s → target s b → taskDrain run_op run_into env k b s = (w, s') →
  ∃ q, Inv q busy s' ∧ js_side s s' ∧ drained q w (zlen (content s b)) (content s' b) ∧
       zlen (content s' b) = zlen (content s b).
Proof.
  intros HI Ht. unfold taskDrain.
  set (s1 := wsteps run_op run_into (env k) (disarm s)).
  assert (H1 : Inv [] busy s1) by (apply wsteps_inv; by apply disarm_inv).
  assert (Hj1 : js_side s s1) by (exact (wsteps_js (env k) (disarm s))).
  pose proof (target_js _ _ _ Hj1 Ht) as Ht1.
  assert (Hc1 : content s1 b = content s b).
  { unfold s1. erewrite wsteps_content; [done|by apply disarm_inv|]. by destruct Ht as (_ & ? & _). }
  clearbody s1. unfold drain. destruct Ht1 as (Hlt & Hnout & Hnv).
  assert (Hkeep : ∀ w0 s0, js_side s1 s0 → Inv [] busy s0 → content s0 b = content s1 b →
            (w0 < 4 ∨ zlen (content s1 b) < w0) → (w0, wsteps run_op run_into (env (S k)) s0) = (w, s') →
            ∃ q, Inv q busy s' ∧ js_side s s' ∧ drained q w (zlen (content s b)) (content s' b) ∧
                 zlen (content s' b) = zlen (content s b)).
  { intros w0 s0 Hj Hi Hc Hw [= <- <-]. exists []. pose proof (wsteps_inv _ _ (env (S k)) _ Hi) as Hi'.
    assert (Hb : content (wsteps run_op run_into (env (S k)) s0) b = content s b).
    { erewrite wsteps_content; [congruence|done|]. destruct Hj as (E & _). unfold outs. by rewrite E. }
    rewrite Hb, <-Hc1. split; [done|]. split; [|split; [left; done|done]].
    eapply js_side_trans; [exact Hj1|]. eapply js_side_trans; [exact Hj|apply wsteps_js]. }
  case_decide as Hq.
  { rewrite set_bufs_same, on_native_ring by done. apply Hkeep; [apply js_side_refl|done|done|lia]. }
  case_decide as Hsz.
  { rewrite set_bufs_same, on_native_ring by done. apply Hkeep; [apply js_side_refl|done|done|by right]. }
  intros [= <- <-]. exists (ring (native s1)).
  set (frame := splice (content s1 b) 0 (drain_frame (ring (native s1)))).
  set (s2 := set_bufs (<[b := frame]> (bufs s1)) s1).
  assert (H2 : Inv [] busy s2) by (by apply target_write_inv).
  pose proof (take_ring_inv _ _ H2) as H3. change (ring (native s2)) with (ring (native s1)) in H3.
  change (on_native _ s2) with (take_ring s2).
  assert (Hfr : zlen (drain_frame (ring (native s1))) ≤ zlen (content s1 b)) by (rewrite zlen_drain_frame; lia).
  assert (Hb : content (wsteps run_op run_into (env (S k)) (take_ring s2)) b = frame).
  { erewrite wsteps_content; [|exact H3|done].
    change (content s2 b = frame). unfold s2. rewrite content_insert by done. by rewrite decide_True. }
  split; [by apply wsteps_inv|]. split; [|split].
  - eapply js_side_trans; [exact Hj1|]. eapply js_side_trans; [|apply wsteps_js].
    repeat split. simpl. by rewrite length_insert.
  - right. rewrite Hb, <-Hc1. pose proof (drain_needed_bound _ Hq). split; [done|]. split; [lia|].
    exists (drop (length (drain_frame (ring (native s1)))) (content s1 b)). unfold frame.
    exact (splice_frontier [] (content s1 b) (drain_frame (ring (native s1))) 0 eq_refl Hfr).
  - rewrite Hb, <-Hc1. unfold frame. rewrite zlen_splice; [done|lia|lia].
Qed.

(** ** The drain loop *)

Lemma viewed_lt extra busy s b : Inv extra busy s → viewed s b → (b < length (bufs s))%nat.
Proof.
  intros HI (p & o & e & Hp). apply lookup_lt_Some in Hp as Hlt. rewrite (inv_len _ _ _ HI) in Hlt.
  apply lookup_lt_is_Some_2 in Hlt as [c Hc]. by destruct (inv_settled _ _ _ HI _ _ _ Hc Hp) as (_ & ? & _).
Qed.

Lemma content_alloc_old s x b : (b < length (bufs s))%nat → content (alloc x s).2 b = content s b.
Proof. intros Hb. unfold content. simpl. by rewrite lookup_app_l. Qed.
Lemma content_alloc_new s x : content (alloc x s).2 (length (bufs s)) = x.
Proof. unfold content. simpl. by rewrite lookup_app_r, Nat.sub_diag. Qed.

Lemma alloc_inv extra busy s x : Inv extra busy s → Inv extra busy (alloc x s).2.
Proof.
  intros HI. pose proof (inv_outs_lt _ _ _ HI) as HF. rewrite Forall_forall in HF.
  assert (Hout : ∀ id d o, mget id (inflight s) = Some d → d_out d = Some o →
            content s o = content (alloc x s).2 o).
  { intros id d o Hd Ho. symmetry. apply content_alloc_old, HF. by eapply outs_elem. }
  destruct HI. constructor; try done; simpl.
  - eapply Forall_impl; [exact inv_running0|].
    intros r (d & c & Hd & Hc & Hjo & Hk & Hok). exists d, c. repeat (split; [done|]).
    eapply outcome_dest; [|exact Hok]. intros o Ho. cbn beta. by rewrite (Hout _ _ _ Hd Ho).
  - eapply Forall_impl; [exact inv_ring0|].
    intros k (d & c & Hd & Hc & Hok). exists d, c. repeat (split; [done|]).
    eapply outcome_dest; [|exact Hok]. intros o Ho. by apply (Hout _ _ _ Hd Ho).
  - rewrite Forall_forall. intros o Ho. rewrite length_app. specialize (HF o Ho). simpl in *. lia.
  - destruct inv_drain0 as (?&?&?). split; [|done]. simpl. rewrite length_app. lia.
  - intros p c r Hc Hp. specialize (inv_settled0 p c r Hc Hp).
    destruct r as [|[bs'|b o e]|[]]; try done. destruct inv_settled0 as (Ha & Hlt & Ho).
    split; [|split; [|done]]; simpl.
    + change (answer c = inl (subarray (content (alloc x s).2 b) o e)).
      rewrite content_alloc_old by done. exact Ha.
    + rewrite length_app. lia.
Qed.

Lemma alloc_target extra busy s x : Inv extra busy s → target (alloc x s).2 (length (bufs s)).
Proof.
  intros HI. split; [simpl; rewrite length_app; simpl; lia|]. split.
  - intros Hin. pose proof (inv_outs_lt _ _ _ HI) as HF. rewrite Forall_forall in HF.
    specialize (HF _ Hin). simpl in HF. lia.
  - intros Hv. assert (length (bufs s) < length (bufs s))%nat; [|lia]. by eapply viewed_lt.
Qed.

Lemma set_drainBuf_inv extra busy s b : Inv extra busy s → target s b → Inv extra busy (set_drainBuf b s).
Proof. intros [] Ht. by constructor. Qed.

(** What one iteration of the loop obtains. *)
Definition batch_ok busy s (r : option (option (nat * bool * Z))) : Prop :=
  match r with
  | None | Some None => Inv [] busy s
  | Some (Some (buf, pooled, w)) =>
      ∃ q tail, Inv q busy s ∧ view_ok s buf pooled ∧ w = drain_needed q ∧
        4 ≤ w ≤ zlen (content s buf) ∧ content s buf = drain_frame q ++ tail
  end.

Lemma drain_buffer_inv busy env k s r s' :
  Inv [] busy s → drain_buffer run_op run_into env k s = (r, s') →
  batch_ok busy s' r ∧ nextId s' = nextId s.
Proof.
  intros HI. unfold drain_buffer.
  destruct (taskDrain run_op run_into env k (drainBuf s) s) as [w s1] eqn:E1.
  destruct (taskDrain_inv _ _ _ _ _ _ _ HI (inv_drain _ _ _ HI) E1) as (q & H1 & Hj & Hd & Hz).
  pose proof Hj as (_ & En & _).
  destruct (decide (w < 4)) as [Hw|Hw].
  { intros [= <- <-]. split; [|done]. destruct Hd as [(-> & _)|(_ & ? & _)]; [done|lia]. }
  rewrite Hz. destruct (decide (zlen (content s (drainBuf s)) < w)) as [Hbig|Hfit].
  2: { intros [= <- <-]. split; [|done]. destruct Hd as [(-> & [?|?])|(-> & Hb & tail & Hc)]; [lia|lia|].
       exists q, tail. rewrite Hz. split; [done|]. by split; [left|]. }
  destruct Hd as [(-> & _)|(_ & ? & _)]; [|lia]. cbn [alloc].
  change (set_bufs (bufs s1 ++ [new_u8 w]) s1) with (alloc (new_u8 w) s1).2.
  set (s2 := if bool_decide (w ≤ MAX_POOLED_DRAIN)
             then set_drainBuf (length (bufs s1)) (alloc (new_u8 w) s1).2 else (alloc (new_u8 w) s1).2).
  pose proof (alloc_target _ _ _ (new_u8 w) H1) as Ht.
  assert (H2 : Inv [] busy s2 ∧ target s2 (length (bufs s1)) ∧ nextId s2 = nextId s1 ∧
           content s2 (length (bufs s1)) = new_u8 w ∧
           view_ok s2 (length (bufs s1)) (bool_decide (w ≤ MAX_POOLED_DRAIN))).
  { pose proof (alloc_inv _ _ _ (new_u8 w) H1) as Ha. pose proof (content_alloc_new s1 (new_u8 w)) as Hc.
    subst s2. case_bool_decide.
    - split; [by apply set_drainBuf_inv|]. split; [exact Ht|]. split; [done|]. split; [exact Hc|by left].
    - split; [done|]. split; [exact Ht|]. split; [done|]. split; [exact Hc|]. right.
      destruct Ht as (?&?&?). split; [done|]. split; [done|]. simpl.
      destruct (inv_drain _ _ _ H1) as (?&_). lia. }
  clearbody s2. destruct H2 as (H2 & Ht2 & En2 & Hc2 & Hv2).
  destruct (taskDrain run_op run_into env (k + 2) (length (bufs s1)) s2) as [w2 s3] eqn:E2.
  destruct (taskDrain_inv _ _ _ _ _ _ _ H2 Ht2 E2) as (q & H3 & Hj3 & Hd & Hz3).
  pose proof Hj3 as (E31 & En3 & E33 & E34 & E35 & E36).
  destruct (decide (w2 < 4)) as [Hw2|Hw2].
  { intros [= <- <-]. split; [|congruence]. destruct Hd as [(-> & _)|(_ & ? & _)]; [done|lia]. }
  rewrite Hz3. destruct (decide (zlen (content s2 (length (bufs s1))) < w2)) as [Hbig2|Hfit2].
  { intros [= <- <-]. split; [|congruence]. destruct Hd as [(-> & _)|(_ & ? & _)]; [done|lia]. }
  intros [= <- <-]. split; [|congruence]. destruct Hd as [(-> & [?|?])|(-> & Hb & tail & Hc)]; [lia|lia|].
  exists q, tail. rewrite Hz3. split; [done|]. split; [|done].
  unfold view_ok, outs in *. by rewrite E31, E33, E36.
Qed.

Lemma batch_size extra busy s : Inv extra busy s → zlen extra < nextId s.
Proof.
  intros HI. pose proof (native_ids_NoDup _ _ _ HI) as Hnd.
  assert (Hsub : ∀ id, id ∈ native_ids s extra → 1 ≤ id < nextId s).
  { intros id Hid. rewrite <-(inv_ids _ _ _ HI) in Hid. apply list_elem_of_fmap in Hid as ([id' d] & -> & Hin).
    pose proof (inv_defer _ _ _ HI) as HF. rewrite Forall_forall in HF.
    destruct (HF _ Hin) as (Ho & _). by apply (inv_owner _ _ _ HI) in Ho. }
  assert (Hle : (length (native_ids s extra) ≤ length (seqZ 1 (nextId s - 1)))%nat).
  { apply submseteq_length, NoDup_submseteq; [done|]. intros id Hid. apply elem_of_seqZ.
    specialize (Hsub id Hid). lia. }
  rewrite length_seqZ in Hle. unfold native_ids in Hle. rewrite !length_app, !length_fmap, length_app in Hle.
  pose proof (inv_next _ _ _ HI). unfold zlen. lia.
Qed.

(** The batch in the buffer is parsed and settled. *)
Lemma round_inv busy s buf pooled w :
  batch_ok busy s (Some (Some (buf, pooled, w))) → nextId s ≤ U32 →
  let view := take (Z.to_nat w) (content s buf) in
  ∃ count s', dv_get 4 view 0 = Ok count ∧
    deliver (Z.to_nat count) view buf pooled 4 (note_drain count s) = (Ok tt, s') ∧
    Inv [] busy s' ∧ settles_only s s'.
Proof.
  intros (q & tail & Hq & Hv & Hw & Hwb & Hc) Hn. cbv zeta.
  assert (Hview : take (Z.to_nat w) (content s buf) = drain_frame q).
  { rewrite Hc, Hw, <-zlen_drain_frame. apply take_zlen_app. }
  rewrite Hview. pose proof (batch_size _ _ _ Hq) as Hsz. pose proof (zlen_nonneg q) as Hq0.
  destruct (deliver_inv q busy (drain_frame q) buf pooled tail (le_bytes 4 (zlen q)) (note_drain (zlen q) s))
    as (s2 & Ed & H2 & Hso); [by apply counters_inv|done|exact Hc|done|exact Hv|].
  exists (zlen q), s2. split; [|split; [|split; [done|exact Hso]]].
  - unfold drain_frame. apply (dv_get_app 4 []); [done|]. change (256 ^ Z.of_nat 4) with U32. lia.
  - rewrite zlen_word in Ed. by replace (Z.to_nat (zlen q)) with (length q) by (unfold zlen; lia).
Qed.

Lemma drain_rounds_inv busy guard env k s r s' :
  Inv [] busy s → nextId s ≤ U32 → drain_rounds run_op run_into guard env k s = (r, s') →
  r = Ok tt ∧ Inv [] busy s' ∧ nextId s' = nextId s.
Proof.
  revert k s. induction guard as [|guard IH]; intros k s HI Hn; [by intros [= <- <-]|].
  cbn [drain_rounds]. destruct (drain_buffer run_op run_into env k s) as [o s1] eqn:E.
  destruct (drain_buffer_inv _ _ _ _ _ _ HI E) as (Hb & En).
  destruct o as [[[[buf pooled] w]|]|]; [|rewrite <-En; apply IH; [done|lia]|by intros [= <- <-]].
  destruct (round_inv _ _ _ _ _ Hb) as (count & s2 & -> & -> & H2 & (_ & _ & En2 & _)); [lia|].
  intros Hrest. apply IH in Hrest as (-> & H3 & En3); [|done|lia]. split_and!; [done|done|congruence].
Qed.

Lemma scheduled_inv extra busy s b : Inv extra busy s → Inv extra busy (set_scheduled b s).
Proof. intros []. by constructor. Qed.
Lemma keepAlive_inv extra busy s b : Inv extra busy s → Inv extra busy (set_keepAlive b s).
Proof. intros []. by constructor. Qed.

Lemma release_if_idle_inv extra busy s : Inv extra busy s → Inv extra busy (release_if_idle s).
Proof. intros HI. unfold release_if_idle. case_decide; [|done]. by apply keepAlive_inv. Qed.

Lemma drainNow_inv busy env s :
  Inv [] busy s → nextId s ≤ U32 →
  Inv [] busy (drainNow run_op run_into env s) ∧ nextId (drainNow run_op run_into env s) = nextId s.
Proof.
  intros HI Hn. unfold drainNow.
  destruct (drain_rounds run_op run_into 1024 env 0 (set_scheduled false s)) as [r s'] eqn:E.
  apply drain_rounds_inv with (busy := busy) in E as (-> & H1 & En);
    [|by apply scheduled_inv|done].
  split; [by apply release_if_idle_inv|]. unfold release_if_idle. by case_decide.
Qed.
End spec.

Section runtime_spec.
Context (run_op : Z → list Z → list Z → list Z + list Z).
Context (run_into : Z → list Z → list Z → list Z → (Z + Z * list Z) * list Z).
Context (queue_max : Z) (gzipIsize : list Z → Z) (junk : nat → Z).
Hypothesis codec : CodecOk run_op run_into.
Implicit Types s : TaskState.
Notation Inv := (Inv run_op).
Notation answer := (answer run_op).
Notation chain_ok := (chain_ok run_op).

(** ** Submission *)

Lemma signal_of_mono calls owner owner' id sig :
  owner ⊆ owner' → signal_of calls owner id sig → signal_of calls owner' id sig.
Proof. intros Hsub (p & c & Hp & Hc & Hs). exists p, c. split; [by eapply lookup_weaken|done]. Qed.

Lemma defer_ok_mono calls owner owner' id d :
  owner ⊆ owner' → defer_ok run_op calls owner id d → defer_ok run_op calls owner' id d.
Proof. intros Hsub (Ho & Hrest). split; [by eapply lookup_weaken|done]. Qed.

(** What a native submit function may answer for the task of [d]. *)
Definition ffi_ok (c : call) (d : Deferred) (ffi : Z → TaskState → Z * TaskState) : Prop :=
  ∀ id s,
    (∃ code, ffi id s = (code, s) ∧ (code = 2 ∨ code = 0 ∧ d_stage d ≠ Final)) ∨
    (∃ j, ffi id s = (1, on_native (λ n, NP (queue n ++ [j]) (taken n) (running n) (ring n) (armed n)
                                          (bell_addr n) (bells n) (cancelled n)) s) ∧
          j_id j = id ∧ j_out j = d_out d ∧ j_data j = d_keep d ∧
          job_answer run_op j = answer c ∧ (j_out j = None → copy_op (j_op j) = j_op j)).

Definition fresh_out s (d : Deferred) : Prop :=
  ∀ o, d_out d = Some o →
    (o < length (bufs s))%nat ∧ o ∉ outs s ∧ ¬ viewed s o ∧ o ≠ drainBuf s.

Definition stage_ok (c : call) (d : Deferred) : Prop :=
  match d_stage d with Final => d_out d = None | LastCatch z | BothCatches z => chain_ok c z end.

(** The state after an accepted submission. *)
Definition accepted (d : Deferred) (j : Job) s : TaskState :=
  on_native (λ n, NP (queue n ++ [j]) (taken n) (running n) (ring n) (armed n) (bell_addr n) (bells n) (cancelled n))
    (set_inflight (inflight s ++ [(nextId s, d)]) (set_nextId (nextId s + 1) s)).

Lemma next_fresh calls owner extra busy s : Inv calls owner extra busy s → nextId s ∉ mkeys (inflight s).
Proof.
  intros HI Hin. apply list_elem_of_fmap in Hin as ([id d] & E & Hin).
  pose proof (inv_defer _ _ _ _ _ _ HI) as HF. rewrite Forall_forall in HF.
  destruct (HF _ Hin) as (Ho & _). apply (inv_owner _ _ _ _ _ _ HI) in Ho. simpl in *. lia.
Qed.

Lemma mget_app_l {V} id (m l : list (Z * V)) d : mget id m = Some d → mget id (m ++ l) = Some d.
Proof. induction m as [|[k v] m IH]; simpl; [done|]. case_decide; auto. Qed.

Lemma accepted_inv calls owner busy s d j c :
  Inv calls owner [] (d_promise d :: busy) s → calls !! d_promise d = Some c → stage_ok c d →
  fresh_out s d → j_id j = nextId s → j_out j = d_out d → j_data j = d_keep d →
  job_answer run_op j = answer c → (j_out j = None → copy_op (j_op j) = j_op j) →
  Inv calls (<[nextId s := d_promise d]> owner) [] busy (accepted d j s).
Proof.
  intros HI Hc Hst Hfo Hid Hjo Hjd Hja Hjc. pose proof (next_fresh _ _ _ _ _ HI) as Hfresh.
  assert (Hsub : owner ⊆ <[nextId s := d_promise d]> owner).
  { apply insert_subseteq. destruct (owner !! nextId s) as [p'|] eqn:E; [|done].
    apply (inv_owner _ _ _ _ _ _ HI) in E. lia. }
  assert (Houts : outs (accepted d j s) = outs s ++ option_list (d_out d)).
  { unfold outs. simpl. rewrite omap_app. simpl. by destruct (d_out d). }
  assert (Hnout : ∀ o, o ∈ outs (accepted d j s) → o ∈ outs s ∨ d_out d = Some o).
  { intros o. rewrite Houts, elem_of_app. destruct (d_out d); set_solver. }
  assert (Hh : holders s (d_promise d :: busy) ≡ₚ holders (accepted d j s) busy).
  { unfold holders. simpl. rewrite fmap_app. simpl. solve_Permutation. }
  destruct HI. constructor; simpl; try done.
  - unfold native_ids in *. simpl. unfold mkeys in *. rewrite !fmap_app in *. simpl. rewrite inv_ids0, Hid.
    solve_Permutation.
  - unfold wf, mkeys in *. rewrite fmap_app. simpl. apply NoDup_app. split; [done|].
    split; [|by apply NoDup_singleton]. intros x Hx ->%list_elem_of_singleton. by apply Hfresh.
  - intros id p. rewrite lookup_insert_Some. intros [(<- & _)|(_ & Hp)]; [lia|]. apply inv_owner0 in Hp. lia.
  - lia.
  - apply Forall_app. split.
    + eapply Forall_impl; [exact inv_defer0|]. intros e. by apply defer_ok_mono.
    + constructor; [|constructor]. split; [by rewrite lookup_insert_eq|]. by exists c.
  - apply Forall_app. split.
    + eapply Forall_impl; [exact inv_queue0|]. intros j' (d' & c' & Hg & Hrest). exists d', c'.
      split; [by apply mget_app_l|done].
    + constructor; [|constructor]. exists d, c. split; [|done]. rewrite Hid. simpl.
      rewrite <-mset_new by done. apply mget_mset_eq.
  - eapply Forall_impl; [exact inv_running0|]. intros r (d' & c' & Hg & Hrest). exists d', c'.
    split; [by apply mget_app_l|done].
  - eapply Forall_impl; [exact inv_ring0|]. intros k (d' & c' & Hg & Hrest). exists d', c'.
    split; [by apply mget_app_l|done].
  - rewrite Houts. apply NoDup_app. split; [done|]. split; [|destruct (d_out d); [apply NoDup_singleton|constructor]].
    intros o Ho. destruct (d_out d) as [o'|] eqn:E; [|set_solver]. destruct (Hfo o' E) as (_ & Hn & _). set_solver.
  - rewrite Houts. apply Forall_app. split; [done|]. destruct (d_out d) as [o|] eqn:E; [|constructor].
    constructor; [|constructor]. by apply (Hfo o E).
  - destruct inv_drain0 as (?&Hn&Hv). split; [done|]. split; [|done].
    intros [Hin|E]%Hnout; [done|]. by destruct (Hfo _ E) as (_&_&_&?).
  - by rewrite <-Hh.
  - intros p. rewrite <-Hh. apply inv_pending0.
  - intros p c' r Hc' Hp. specialize (inv_settled0 p c' r Hc' Hp).
    destruct r as [|[bs'|b o e]|[]]; try done. destruct inv_settled0 as (Ha & Hlt & Hn).
    split; [done|]. split; [done|]. intros [Hin|E]%Hnout; [done|].
    destruct (Hfo _ E) as (_&_&Hv&_). apply Hv. by exists p, o, e.
  - eapply Forall_impl; [exact inv_listeners0|]. intros l. by apply signal_of_mono.
  - eapply Forall_impl; [exact inv_cancelled0|]. intros id (sig & Hs & Ha). exists sig.
    split; [by eapply signal_of_mono|done].
Qed.

Lemma mdel_mset_new {V} (id : Z) (d : V) m : id ∉ mkeys m → mdel id (mset id d m) = m.
Proof.
  induction m as [|[k v] m IH]; simpl; intros Hn; [by rewrite decide_True|].
  case_decide as Hk; [set_solver|]. simpl. rewrite decide_False by done. f_equal. apply IH. set_solver.
Qed.

Lemma ensureDoorbell_inv calls owner extra busy s :
  Inv calls owner extra busy s → Inv calls owner extra busy (ensureDoorbell s).
Proof. intros HI. unfold ensureDoorbell. case_match; [done|]. destruct HI. by constructor. Qed.

Lemma nextId_inv calls owner extra busy s :
  Inv calls owner extra busy s → Inv calls owner extra busy (set_nextId (nextId s + 1) s).
Proof.
  intros []. constructor; try done; simpl; [|lia]. intros id p Hp. apply inv_owner0 in Hp. lia.
Qed.

Lemma taskCancel_inv calls owner extra busy s id sig :
  Inv calls owner extra busy s → signal_of calls owner id sig → sig ∈ aborted s →
  Inv calls owner extra busy (taskCancel id s).
Proof.
  intros [] Hs Ha. constructor; try done. simpl. case_decide; [done|]. apply Forall_app. split; [done|].
  constructor; [|constructor]. by exists sig.
Qed.

Lemma listener_inv calls owner extra busy s id sig :
  Inv calls owner extra busy s → signal_of calls owner id sig →
  Inv calls owner extra busy (set_listeners (listeners s ++ [(sig, id)]) s).
Proof.
  intros [] Hs. constructor; try done. simpl. apply Forall_app. split; [done|]. by constructor.
Qed.

(** The abort wiring of an accepted task. *)
Lemma wire_inv calls owner busy s id c :
  Inv calls owner [] busy s → (∃ p, owner !! id = Some p ∧ calls !! p = Some c) →
  Inv calls owner [] busy
    (match call_signal c with
     | None => s
     | Some sig => if decide (sig ∈ aborted s) then taskCancel id s
                   else set_listeners (listeners s ++ [(sig, id)]) s
     end).
Proof.
  intros HI (p & Hp & Hc). destruct (call_signal c) as [sig|] eqn:Es; [|done].
  assert (Hs : signal_of calls owner id sig) by (by exists p, c).
  case_decide; [by eapply taskCancel_inv|by apply listener_inv].
Qed.

Lemma submission_inv calls owner busy s d ffi c :
  Inv calls owner [] (d_promise d :: busy) s → calls !! d_promise d = Some c → stage_ok c d →
  fresh_out s d → ffi_ok c d ffi →
  ∃ owner', Inv calls owner' [] busy (submission d (call_signal c) ffi s).
Proof.
  intros HI Hc Hst Hfo Hffi. unfold submission.
  apply ensureDoorbell_inv in HI.
  assert (Hfo0 : fresh_out (ensureDoorbell s) d) by (unfold ensureDoorbell; by case_match).
  generalize dependent (ensureDoorbell s). intros s0 HI Hfo0.
  pose proof (next_fresh _ _ _ _ _ HI) as Hfresh. cbv zeta.
  change (inflight (set_nextId (nextId s0 + 1) s0)) with (inflight s0). rewrite (mset_new (nextId s0) d) by done.
  set (s1 := retain (set_inflight (inflight s0 ++ [(nextId s0, d)]) (set_nextId (nextId s0 + 1) s0))).
  destruct (Hffi (nextId s0) s1) as [(code & -> & Hcode)|(j & -> & Hid & Hjo & Hjd & Hja & Hjc)].
  - (* refused: the registration is undone *)
    exists owner.
    assert (Hs1 : set_inflight (mdel (nextId s0) (inflight s1)) s1 = retain (set_nextId (nextId s0 + 1) s0)).
    { unfold s1. simpl. rewrite <-mset_new, mdel_mset_new by done. by destruct s0. }
    rewrite Hs1.
    assert (H2 : Inv calls owner [] (d_promise d :: busy) (release_if_idle (retain (set_nextId (nextId s0 + 1) s0)))).
    { apply release_if_idle_inv, keepAlive_inv, nextId_inv, HI. }
    assert (∃ e, taskSubmitError code = Some e ∧ (d_stage d = Final → e = EOverloaded)) as (e & -> & He).
    { destruct Hcode as [->|(-> & Hne)]; [by exists EOverloaded|]. exists ERejected. done. }
    unfold reject, stage_ok in *. destruct (d_stage d) as [|z|z].
    + rewrite He by done. by eapply settle_inv.
    + eapply queue_mt_inv; [done|done|]. by exists c.
    + eapply queue_mt_inv; [done|done|]. by exists c.
  - exists (<[nextId s0 := d_promise d]> owner). simpl taskSubmitError. cbv iota.
    apply wire_inv; [|exists (d_promise d); by rewrite lookup_insert_eq].
    apply (keepAlive_inv _ _ _ _ _ _ true) in HI as HI'.
    change (on_native _ s1) with (set_keepAlive true (accepted d j s0)).
    apply keepAlive_inv. by eapply accepted_inv.
Qed.

(** ** Calls and microtasks *)

Lemma enqueue_cases j s :
  enqueue queue_max j s = (2, s) ∨
  enqueue queue_max j s =
    (1, on_native (λ n, NP (queue n ++ [j]) (taken n) (running n) (ring n) (armed n) (bell_addr n) (bells n) (cancelled n)) s).
Proof. unfold enqueue. case_decide; auto. Qed.

Lemma ffi_ok_enqueue c d (mk : Z → Job) :
  (∀ id, j_id (mk id) = id ∧ j_out (mk id) = d_out d ∧ j_data (mk id) = d_keep d ∧
         job_answer run_op (mk id) = answer c ∧ (j_out (mk id) = None → copy_op (j_op (mk id)) = j_op (mk id))) →
  ffi_ok c d (λ id s, enqueue queue_max (mk id) s).
Proof.
  intros Hmk id s. destruct (enqueue_cases (mk id) s) as [->| ->].
  - left. exists 2. auto.
  - right. exists (mk id). split; [done|]. apply Hmk.
Qed.

Lemma submit_inv calls owner busy s op args p st c :
  Inv calls owner [] (p :: busy) s → calls !! p = Some c → stage_ok c (Def None None p st) →
  (let '(hdr, data) := split_args op args in run_op op hdr data = answer c) → copy_op op = op →
  ∃ owner', Inv calls owner' [] busy (submit queue_max op args (call_signal c) p st s).
Proof.
  intros HI Hc Hst Ha Hop. unfold submit. eapply submission_inv; [exact HI|exact Hc|exact Hst| |].
  { intros o Ho. discriminate Ho. }
  apply (ffi_ok_enqueue c _ (λ id, MkJob id op args None None)). intros id. split_and!; try done.
  unfold job_answer, job_input. cbn [j_data j_args j_op]. rewrite Hop. revert Ha. by destruct (split_args op args).
Qed.

Lemma copyPath_inv calls owner busy s z p st c :
  Inv calls owner [] (p :: busy) s → calls !! p = Some c → chain_ok c z →
  (st = Final ∨ ∃ z', chain_ok c z' ∧ (st = LastCatch z' ∨ st = BothCatches z')) →
  ∃ owner', Inv calls owner' [] busy (copyPath queue_max z p st s).
Proof.
  intros HI Hc (H1 & H2 & H3 & H4 & H5) Hst. unfold copyPath. rewrite H5. eapply submit_inv; [exact HI|exact Hc| |exact H4|exact H1].
  destruct Hst as [->|(z' & Hz' & [->| ->])]; [exact eq_refl|exact Hz'|exact Hz'].
Qed.

Lemma zeroCopy_inv calls owner busy s z cap p st c :
  Inv calls owner [] (p :: busy) s → calls !! p = Some c → chain_ok c z →
  (st = LastCatch z ∨ st = BothCatches z) →
  ∃ owner', Inv calls owner' [] busy (zeroCopyOnce queue_max junk z cap p st s).
Proof.
  intros HI Hc Hz Hst. pose proof Hz as (H1 & H2 & H3 & H4 & H5). unfold zeroCopyOnce, allocUnsafe. cbn [alloc].
  set (x := junk <$> seq 0 (Z.to_nat cap)). change (set_bufs (bufs s ++ [x]) s) with (alloc x s).2.
  pose proof (alloc_target _ _ _ _ _ _ x HI) as Ht. rewrite H5. unfold submitInto.
  eapply submission_inv.
  - by apply alloc_inv.
  - exact Hc.
  - destruct Hst as [->| ->]; exact Hz.
  - intros o [= <-]. destruct Ht as (?&?&?). split_and!; [done|done|done|].
    destruct (inv_drain _ _ _ _ _ _ HI) as (?&_). simpl. lia.
  - intros id s'. unfold taskSubmitOut. case_decide.
    + left. exists 0. split; [done|]. right. split; [done|]. by destruct Hst as [->| ->].
    + apply (ffi_ok_enqueue c (Def (Some (length (bufs s))) None p st)
               (λ id, MkJob id (z_opInto z) (z_args z) None (Some (length (bufs s))))).
      intros id'. split_and!; try done. unfold job_answer, job_input. cbn [j_data j_args j_op]. rewrite H2.
      unfold split_args in *. rewrite H3. exact H4.
Qed.

Lemma pop_microtask_inv calls owner busy s m ms :
  Inv calls owner [] busy s → microtasks s = m :: ms →
  Inv calls owner [] (option_list (mt_promise m) ++ busy) (set_microtasks ms s) ∧ mt_ok run_op calls m.
Proof.
  intros [] Hm. rewrite Hm in inv_mts0. inversion_clear inv_mts0 as [|?? Hok Hoks]. split; [|done].
  assert (Hh : holders s busy ≡ₚ holders (set_microtasks ms s) (option_list (mt_promise m) ++ busy)).
  { unfold holders. rewrite Hm. simpl. destruct (mt_promise m); simpl; solve_Permutation. }
  constructor; try done; simpl.
  - by rewrite <-Hh.
  - intros p. rewrite <-Hh. apply inv_pending0.
Qed.

Lemma run_microtask_inv calls owner busy s env m :
  Inv calls owner [] (option_list (mt_promise m) ++ busy) s → mt_ok run_op calls m → nextId s ≤ U32 →
  ∃ owner', Inv calls owner' [] busy (run_microtask run_op run_into queue_max junk env m s).
Proof.
  intros HI Hok Hn. destruct m as [|z p e|z p]; simpl in *.
  - exists owner. by apply drainNow_inv.
  - destruct Hok as (c & Hc & Hz).
    destruct e; try (eapply copyPath_inv; [done|done|done|right; exists z; auto]).
    eapply zeroCopy_inv; [done|done|done|by left].
  - destruct Hok as (c & Hc & Hz). eapply copyPath_inv; [done|done|done|by left].
Qed.

Lemma argScratch_inv calls owner extra busy s x :
  Inv calls owner extra busy s → Inv calls owner extra busy (set_argScratch x s).
Proof. intros []. by constructor. Qed.

(** The shared scratch never shows in the packed arguments. *)
Lemma with_scratch_inv calls owner busy s need h data (k : list Z → TaskState → TaskState) :
  Inv calls owner [] busy s →
  (∀ s', Inv calls owner [] busy s' →
     ∃ owner', Inv calls owner' [] (tail busy) (k (le_bytes 4 (to_u32 h) ++ data) s')) →
  ∃ owner', Inv calls owner' [] (tail busy) (with_scratch need (packHeaderAndBytes h data) k s).
Proof.
  intros HI Hk. unfold with_scratch.
  destruct (packHeaderAndBytes_ok h data (Some (argScratch (scratch need s)))) as (dest & -> & _).
  apply Hk, argScratch_inv. unfold scratch. case_decide; [by apply argScratch_inv|done].
Qed.

Lemma split_packed op h data :
  header_len op = 4 → split_args op (le_bytes 4 (to_u32 h) ++ data) = (le_bytes 4 (to_u32 h), data).
Proof. intros Hh. by rewrite split_args_app by (by rewrite zlen_word). Qed.

Lemma run_call_inv calls owner s c :
  (∃ p, p = length (promises s) ∧
    Inv (calls ++ [c]) owner [] [p] (set_promises (promises s ++ [Pending]) s) ∧
    (calls ++ [c]) !! p = Some c) →
  ∃ owner', Inv (calls ++ [c]) owner' [] [] (run_call queue_max gzipIsize junk c s).
Proof.
  intros (p & Hp & HI & Hc). unfold run_call. rewrite <-Hp. clear Hp.
  generalize dependent (set_promises (promises s ++ [Pending]) s). clear s. intros s HI.
  assert (Hz : ∀ op opI data m sig, copy_op op = op → copy_op opI = op → header_len opI = 4 → header_len op = 4 →
    run_op op (le_bytes 4 (to_u32 m)) data = answer c → sig = call_signal c →
    chain_ok c (Chain op opI (le_bytes 4 (to_u32 m) ++ data) sig)).
  { intros op opI data m sig H1 H2 H3 H4 H5 H6. split; [done|]. split; [done|].
    split; [cbn [z_op z_opInto]; congruence|]. split; [|done]. cbn [z_op z_args]. by rewrite split_packed. }
  destruct c as [data m sig|data m sig|data l sig|pw phc sig|pw salt r dk sig]; simpl.
  - unfold gzipDecompress. case_decide.
    + apply (with_scratch_inv _ _ _ _ _ (default 0 m) data) with (1 := HI). intros s' Hs'.
      apply (submit_inv _ _ [] s' _ _ p Final (GzipDecompress data m sig) Hs' Hc); [done| |done].
      by rewrite split_packed.
    + unfold encodeGzipDecompressArgs.
      destruct (packHeaderAndBytes_ok (default 0 m) data None) as (dest & -> & _).
      eapply zeroCopy_inv; [exact HI|exact Hc|by apply Hz|by right].
  - unfold brotliDecompress, encodeBrotliDecompressArgs.
    destruct (packHeaderAndBytes_ok (default 0 m) data None) as (dest & -> & _).
    eapply zeroCopy_inv; [exact HI|exact Hc|by apply Hz|by right].
  - unfold gzipCompress. apply (with_scratch_inv _ _ _ _ _ (default 6 l) []) with (1 := HI). intros s' Hs'.
    rewrite app_nil_r. unfold submitSlice.
    apply (submission_inv _ _ [] s' (Def None (Some data) p Final) _ (GzipCompress data l sig) Hs' Hc);
      [done|intros o Ho; discriminate Ho|].
    by apply (ffi_ok_enqueue _ _ (λ id, MkJob id OP_gzipCompress (le_bytes 4 (to_u32 (default 6 l))) (Some data) None)).
  - unfold argon2Verify. rewrite encodeArgon2VerifyArgs_eq.
    apply (submit_inv _ _ [] s _ _ p Final (Argon2Verify pw phc sig) HI Hc); [done| |done].
    by rewrite split_args_app by (by rewrite zlen_app, !zlen_word).
  - unfold pbkdf2Sha256. rewrite encodePbkdf2Args_eq.
    apply (submit_inv _ _ [] s _ _ p Final (Pbkdf2Sha256 pw salt r dk sig) HI Hc); [done| |done].
    by rewrite split_args_app by (by rewrite !zlen_app, !zlen_word).
Qed.

(** A new promise for a new call. *)
Lemma new_promise_inv calls owner s c :
  Inv calls owner [] [] s →
  Inv (calls ++ [c]) owner [] [length (promises s)] (set_promises (promises s ++ [Pending]) s).
Proof.
  intros HI. assert (Hw : ∀ p c', calls !! p = Some c' → (calls ++ [c]) !! p = Some c')
    by (intros; by apply lookup_app_l_Some).
  assert (Hlt : ∀ p, p ∈ holders s [] → (p < length (promises s))%nat).
  { intros p Hp. apply (inv_pending _ _ _ _ _ _ HI) in Hp. by eapply lookup_lt_Some. }
  assert (Hh : holders (set_promises (promises s ++ [Pending]) s) [length (promises s)] ≡ₚ
               length (promises s) :: holders s []).
  { unfold holders. simpl. rewrite app_nil_r. solve_Permutation. }
  assert (Hsig : ∀ id sig, signal_of calls owner id sig → signal_of (calls ++ [c]) owner id sig).
  { intros id sig (p & c' & Hp & Hc' & Hs). exists p, c'. auto. }
  destruct HI. constructor; try done; simpl.
  - eapply Forall_impl; [exact inv_defer0|]. intros e (Ho & c' & Hc' & Hst). split; [done|].
    exists c'. split; [by apply Hw|done].
  - eapply Forall_impl; [exact inv_queue0|]. intros j (d & c' & Hg & Hc' & Hrest). exists d, c'. split; [done|]. auto.
  - eapply Forall_impl; [exact inv_running0|]. intros r (d & c' & Hg & Hc' & Hrest). exists d, c'. split; [done|]. auto.
  - eapply Forall_impl; [exact inv_ring0|]. intros k (d & c' & Hg & Hc' & Hrest). exists d, c'. split; [done|]. auto.
  - destruct inv_drain0 as (?&?&Hv). split; [done|]. split; [done|]. intros (p & o & e & Hp). simpl in Hp.
    apply lookup_app_Some in Hp as [Hp|(_ & Hp)]; [apply Hv; by exists p, o, e|].
    by apply list_lookup_singleton_Some in Hp as [_ ?].
  - rewrite !length_app. simpl. by rewrite inv_len0.
  - rewrite Hh. apply NoDup_cons. split; [|done]. intros Hin%Hlt. lia.
  - intros p. rewrite Hh, elem_of_cons, <-inv_pending0. rewrite lookup_app_Some, list_lookup_singleton_Some.
    split; [|intros [->|?]; [right; split; [lia|split; [lia|done]]|by left]].
    intros [?|(?&?&_)]; [by right|left; lia].
  - intros p c' r Hc' Hp. apply lookup_app_Some in Hp as [Hp|(_ & Hp)].
    + assert (Hcc : calls !! p = Some c').
      { apply lookup_lt_Some in Hp. rewrite inv_len0 in Hp. by rewrite lookup_app_l in Hc'. }
      by apply (inv_settled0 p c' r).
    + by apply list_lookup_singleton_Some in Hp as [_ <-].
  - eapply Forall_impl; [exact inv_mts0|]. intros [|z p e|z p]; simpl; [done| |]; intros (c' & Hc' & Hz); exists c'; auto.
  - eapply Forall_impl; [exact inv_listeners0|]. intros l. apply Hsig.
  - eapply Forall_impl; [exact inv_cancelled0|]. intros id (sig & Hs & Ha). exists sig. auto.
Qed.

Lemma cancel_all_inv calls owner sig (l : list (nat * Z)) s :
  Inv calls owner [] [] s → sig ∈ aborted s → Forall (λ e, signal_of calls owner e.2 sig) l →
  Inv calls owner [] [] (foldl (λ s e, taskCancel e.2 s) s l).
Proof.
  intros HI Ha Hl. revert s HI Ha. induction Hl as [|[sig' id] l Hs Hl IH]; intros s HI Ha; [done|].
  simpl. apply IH; [by eapply taskCancel_inv|done].
Qed.

Lemma aborted_inv calls owner s sig x :
  Inv calls owner [] [] s → Forall (λ l, signal_of calls owner l.2 l.1) x →
  Inv calls owner [] [] (set_listeners x (set_aborted (sig :: aborted s) s)).
Proof.
  intros [] Hx.
  assert (Hab : ∀ c, is_aborted s c → is_aborted (set_listeners x (set_aborted (sig :: aborted s) s)) c).
  { intros c (sg & Hs & Hin). exists sg. split; [done|]. simpl. set_solver. }
  assert (Hout : ∀ c d dest st b, outcome_ok run_op s c d dest st b →
            outcome_ok run_op (set_listeners x (set_aborted (sig :: aborted s) s)) c d dest st b).
  { intros c d dest st b (H1 & H2 & H3 & H4 & H5). do 3 (split; [done|]). split; [auto|done]. }
  constructor; try done; simpl.
  - eapply Forall_impl; [exact inv_running0|]. intros r (d & c & Hg & Hc & Hjo & Hk & Hok). exists d, c. repeat (split; [done|]). by apply Hout.
  - eapply Forall_impl; [exact inv_ring0|]. intros k (d & c & Hg & Hc & Hok). exists d, c. repeat (split; [done|]). by apply Hout.
  - intros p c r Hc Hp. specialize (inv_settled0 p c r Hc Hp). destruct r as [|[]|[]]; first [exact inv_settled0|by apply Hab].
  - eapply Forall_impl; [exact inv_cancelled0|]. intros id (sg & Hs & Hin). exists sg. split; [done|]. set_solver.
Qed.

Lemma abort_inv calls owner s sig : Inv calls owner [] [] s → Inv calls owner [] [] (abort sig s).
Proof.
  intros HI. unfold abort. case_decide; [done|]. pose proof (inv_listeners _ _ _ _ _ _ HI) as HL.
  apply cancel_all_inv with sig.
  - apply (aborted_inv _ _ s sig); [done|]. by apply Forall_filter.
  - simpl. set_solver.
  - rewrite Forall_forall in HL |- *. intros l [Hl Hin]%list_elem_of_filter. rewrite <-Hl. by apply HL.
Qed.

(** A [shutdown] is called while no task is in flight. *)
Definition calm s (e : event) : Prop := match e with Shutdown => inflight s = [] | _ => True end.
Definition is_shutdown (e : event) : bool := match e with Shutdown => true | _ => false end.
Definition call_of (e : event) : option call := match e with Call c => Some c | _ => None end.
Notation step := (t_step run_op run_into queue_max gzipIsize junk).

(** With no task in flight the native side holds no job and no completion. *)
Lemma idle_native calls owner s :
  Inv calls owner [] [] s → inflight s = [] →
  queue (native s) = [] ∧ running (native s) = [] ∧ ring (native s) = [].
Proof.
  intros HI Hi. pose proof (inv_ids _ _ _ _ _ _ HI) as Hids. rewrite Hi in Hids. unfold native_ids in Hids.
  symmetry in Hids. apply Permutation_nil_r in Hids. rewrite app_nil_r in Hids.
  apply app_eq_nil in Hids as [Hq [Hr Hk]%app_eq_nil]. split_and!; by eapply fmap_nil_inv.
Qed.

Lemma step_inv calls owner s e :
  Inv calls owner [] [] s → nextId s ≤ U32 → calm s e →
  ∃ owner', Inv (calls ++ option_list (call_of e)) owner' [] [] (step s e).
Proof.
  intros HI Hn He. destruct e as [c|w|env|env|sig| |]; try done; simpl; rewrite ?app_nil_r.
  - apply (run_call_inv _ owner). exists (length (promises s)). split; [done|]. split; [by apply (new_promise_inv _ owner)|].
    rewrite (inv_len _ _ _ _ _ _ HI). by rewrite lookup_app_r, Nat.sub_diag.
  - exists owner. exact (wsteps_inv run_op run_into calls owner codec [] [] [w] s HI).
  - exists owner. unfold bell. destruct (bells (native s)); [done|]. eapply drainNow_inv; try done.
    destruct HI. by constructor.
  - unfold microtask_step. destruct (microtasks s) as [|m ms] eqn:Em; [by exists owner|].
    destruct (pop_microtask_inv _ _ _ _ _ _ HI Em) as [Hp Hok]. by eapply run_microtask_inv.
  - exists owner. by apply abort_inv.
  - exists owner. by apply release_if_idle_inv.
  - exists owner. simpl in He. destruct (idle_native _ _ _ HI He) as (Hq & Hr & Hk).
    assert (Hs : set_inflight [] s = s) by (destruct s; simpl in *; by subst).
    unfold shutdown. rewrite He. cbn [foldl]. rewrite Hs. destruct HI.
    constructor; try done; unfold native_ids in *; simpl in *; by rewrite Hk in *.
Qed.

Lemma create_inv : Inv [] ∅ [] [] createTaskRuntime.
Proof.
  assert (Hno : ∀ A (x : A) n, ([] : list A) !! n = Some x → False) by (intros ? ? []; done).
  constructor; try done; simpl.
  - constructor.
  - constructor.
  - split; [simpl; lia|]. split; [apply not_elem_of_nil|]. intros (p & o & e & Hp). by apply Hno in Hp.
  - by constructor.
  - intros p. rewrite lookup_nil. split; [done|]. intros Hp. by apply not_elem_of_nil in Hp.
  - by repeat constructor.
Qed.
End runtime_spec.
