(* ===== verification/TaskLive.v ===== *)
(** Liveness of the off-thread task runtime (the model is Task.v, the invariant
    TaskSpec.v): the work that is left shrinks with every internal step, no
    completion is stranded in the ring, and so every promise is settled; with the
    results and memory safety of the runtime, and what [shutdown] breaks. *)

From S2P Require Import Prelude.
From S2P Require Import JsMap.
From S2P Require Import Utf8.
From S2P Require Import TaskOp.
From S2P Require Import Task.
From S2P Require Import TaskSpec.

Section live.
Context (run_op : Z → list Z → list Z → list Z + list Z).
Context (run_into : Z → list Z → list Z → list Z → (Z + Z * list Z) * list Z).
Context (queue_max : Z) (gzipIsize : list Z → Z) (junk : nat → Z).
Implicit Types s : TaskState.
Notation wstep := (wstep run_op run_into).
Notation wsteps := (wsteps run_op run_into).
Notation step := (t_step run_op run_into queue_max gzipIsize junk).

(** ** The work that is left *)

Definition stage_cost (st : stage) : nat :=
  match st with Final => 0 | LastCatch _ => 7 | BothCatches _ => 14 end.
Definition mt_cost (m : microtask) : nat :=
  match m with DrainNow => 1 | Catch1 _ _ _ => 13 | Catch2 _ _ => 6 end.

Definition native_work (n : NativePool) : nat :=
  4 * length (queue n) + (length (queue n) - taken n) + 3 * length (running n) + length (ring n) + bells n.
Definition js_work s : nat :=
  sum_list_with (λ e, stage_cost (d_stage e.2)) (inflight s) + sum_list_with mt_cost (microtasks s).
(** Each job costs its pop, its start, its end and its delivery, each handler of a
    chain the submission it may make. *)
Definition work s : nat := native_work (native s) + js_work s.

(** ** Every function of the drain path does no new work *)

Notation fixed s := (nextId s, doorbell s).
Definition lighter s s' : Prop := fixed s' = fixed s ∧ (work s' ≤ work s)%nat.

Lemma lighter_refl s : lighter s s.
Proof. by split. Qed.
Lemma lighter_trans s1 s2 s3 : lighter s1 s2 → lighter s2 s3 → lighter s1 s3.
Proof. intros [??] [??]. split; [congruence|lia]. Qed.
Lemma lighter_eq s s' : fixed s' = fixed s → work s' = work s → lighter s s'.
Proof. intros ? E. split; [done|]. by rewrite E. Qed.

Lemma length_delete_lt {A} (l : list A) i x : l !! i = Some x → S (length (delete i l)) = length l.
Proof. intros Hx. rewrite length_delete by eauto. apply lookup_lt_Some in Hx. lia. Qed.

Lemma push_work c n : (native_work (push c n) ≤ native_work n + 2)%nat.
Proof. unfold native_work, push. simpl. rewrite length_app. simpl. case_match; lia. Qed.

Lemma work_on_native f s : work (on_native f s) = (native_work (f (native s)) + js_work s)%nat.
Proof. done. Qed.

(** The worker has something to do: a job to pop, to start, to end. *)
Definition wenabled (w : wevent) s : Prop :=
  match w with
  | WPop n => n ≠ 0 ∧ taken (native s) < length (queue (native s))
  | WStart i => i < taken (native s) ∧ i < length (queue (native s))
  | WFinish i => i < length (running (native s))
  end%nat.

Lemma wpop_work n s : (work (wpop n s) ≤ work s)%nat ∧ (wenabled (WPop n) s → (work (wpop n s) < work s)%nat).
Proof.
  unfold work, native_work, js_work, wpop, BATCH_POP. simpl.
  pose proof (Nat.min_spec (length (queue (native s))) (taken (native s) + Nat.min n 16)).
  pose proof (Nat.min_spec n 16). split; [|intros [??]]; lia.
Qed.

Lemma wstart_work i s :
  wenabled (WStart i) s → S (work (wstart run_op run_into i s)) = work s.
Proof.
  intros [Ht Hi]. apply lookup_lt_is_Some_2 in Hi as [j Hj]. unfold wstart. rewrite Hj, decide_False by lia.
  apply length_delete_lt in Hj. unfold work, native_work, js_work. simpl. rewrite length_app. simpl. lia.
Qed.

Lemma wstart_idle i s : ¬ wenabled (WStart i) s → wstart run_op run_into i s = s.
Proof.
  intros Hn. unfold wstart. destruct (queue (native s) !! i) as [j|] eqn:Hj; [|done].
  case_decide; [done|]. destruct Hn. apply lookup_lt_Some in Hj. split; lia.
Qed.

Lemma wfinish_work i s : (i < length (running (native s)))%nat → (work (wfinish i s) < work s)%nat.
Proof.
  intros Hi. apply lookup_lt_is_Some_2 in Hi as [r Hr]. unfold wfinish. rewrite Hr.
  apply length_delete_lt in Hr. set (s1 := match j_out (r_job r) with Some _ => _ | None => _ end).
  assert (E : native s1 = native s ∧ js_work s1 = js_work s) by (subst s1; by repeat case_match).
  clearbody s1. destruct E as [E1 E2]. rewrite work_on_native, E1, E2. unfold work.
  apply Nat.add_lt_mono_r. eapply Nat.le_lt_trans; [apply push_work|]. unfold native_work. simpl. lia.
Qed.

Lemma lighter_nextId s s' : lighter s s' → nextId s' = nextId s.
Proof. by intros [[= ? ?] _]. Qed.

Lemma wstep_lighter w s : lighter s (wstep s w).
Proof.
  destruct w as [n|i|i]; simpl; split.
  - done.
  - apply wpop_work.
  - unfold wstart. by repeat case_match.
  - destruct (decide (i < taken (native s) ∧ i < length (queue (native s)))%nat) as [Hi|Hi].
    + pose proof (wstart_work i s Hi). lia.
    + by rewrite (wstart_idle i s Hi).
  - unfold wfinish. case_match; [|done]. by repeat case_match.
  - destruct (decide (i < length (running (native s)))%nat) as [Hi|Hi].
    + pose proof (wfinish_work i s Hi). lia.
    + unfold wfinish. rewrite lookup_ge_None_2 by lia. lia.
Qed.

Lemma wsteps_lighter ws s : lighter s (wsteps ws s).
Proof.
  revert s. induction ws as [|w ws IH]; intros s; [apply lighter_refl|].
  eapply lighter_trans; [apply (wstep_lighter w)|apply IH].
Qed.

Lemma taskDrain_lighter env k b s : lighter s (taskDrain run_op run_into env k b s).2.
Proof.
  unfold taskDrain. eapply lighter_trans with (s2 := wsteps (env k) (disarm s)).
  { eapply lighter_trans; [|apply wsteps_lighter]. by apply lighter_eq. }
  set (s1 := wsteps _ _). clearbody s1.
  destruct (drain (ring (native s1)) (content s1 b)) as [[w out] q] eqn:E. cbn [snd].
  eapply lighter_trans; [|apply wsteps_lighter]. split; [done|].
  assert (Hq : (length q ≤ length (ring (native s1)))%nat).
  { unfold drain in E. repeat case_decide; simplify_eq; simpl; lia. }
  unfold work, native_work, js_work. simpl. lia.
Qed.

Lemma reject_work d e s : (work (reject d e s) ≤ work s + stage_cost (d_stage d))%nat.
Proof.
  unfold reject. destruct (d_stage d); unfold work, js_work; simpl;
    rewrite ?sum_list_with_app; simpl; lia.
Qed.
Lemma reject_fixed d e s : fixed (reject d e s) = fixed s.
Proof. unfold reject. by case_match. Qed.

Lemma reject_light d e s0 s :
  fixed s0 = fixed s → work s0 = work s →
  fixed (reject d e s0) = fixed s ∧ (work (reject d e s0) ≤ work s + stage_cost (d_stage d))%nat.
Proof. intros E1 E2. rewrite reject_fixed, <-E1, <-E2. split; [done|apply reject_work]. Qed.

Lemma complete_work view buf pooled off st len d s r s' :
  complete view buf pooled off st len d s = (r, s') →
  fixed s' = fixed s ∧ (work s' ≤ work s + stage_cost (d_stage d))%nat.
Proof.
  assert (Hsame : ∀ s0, fixed s0 = fixed s → work s0 = work s →
            fixed s0 = fixed s ∧ (work s0 ≤ work s + stage_cost (d_stage d))%nat) by (intros; split; [done|lia]).
  unfold complete. intros E.
  repeat case_decide; repeat case_match; simplify_eq;
    first [by apply Hsame|by apply reject_light].
Qed.

Lemma retire_work id d s :
  mget id (inflight s) = Some d →
  (work (retire id s) + stage_cost (d_stage d) = work s)%nat.
Proof.
  intros Hd. unfold work, js_work. simpl. rewrite (mdel_perm _ _ _ Hd) at 2. simpl. lia.
Qed.

Lemma deliver_lighter n view buf pooled off s : lighter s (deliver n view buf pooled off s).2.
Proof.
  revert off s. induction n as [|n IH]; intros off s; [apply lighter_refl|]. cbn [deliver].
  destruct (readU64At view off ≫= _) as [[[id st] len]|e]; [|apply lighter_refl].
  destruct (mget id (inflight s)) as [d|] eqn:Ed; [|apply IH].
  destruct (complete view buf pooled (off + 16) st len d _) as [r s1] eqn:Ec.
  apply complete_work in Ec as [En Hw]. pose proof (retire_work _ _ _ Ed) as Hr. unfold retire in Hr.
  assert (Hl : lighter s s1) by (split; [done|lia]).
  destruct r as [[]|e]; [|exact Hl]. eapply lighter_trans; [exact Hl|].
  eapply lighter_trans; [|apply IH]. by apply lighter_eq.
Qed.

Lemma drain_buffer_lighter env k s : lighter s (drain_buffer run_op run_into env k s).2.
Proof.
  unfold drain_buffer. pose proof (taskDrain_lighter env k (drainBuf s) s) as H1.
  destruct (taskDrain run_op run_into env k (drainBuf s) s) as [w s1]. cbn [snd] in H1.
  case_decide; [done|]. case_decide; [|done]. cbn [alloc].
  set (s2 := if bool_decide _ then _ else _).
  assert (H2 : lighter s s2) by (eapply lighter_trans; [exact H1|]; subst s2; case_bool_decide; by apply lighter_eq).
  clearbody s2. pose proof (taskDrain_lighter env (k + 2) (length (bufs s1)) s2) as H3.
  destruct (taskDrain run_op run_into env (k + 2) (length (bufs s1)) s2) as [w2 s3]. cbn [snd] in H3.
  repeat case_decide; cbn [snd]; by eapply lighter_trans.
Qed.

Lemma drain_rounds_lighter guard env k s : lighter s (drain_rounds run_op run_into guard env k s).2.
Proof.
  revert k s. induction guard as [|guard IH]; intros k s; [apply lighter_refl|]. cbn [drain_rounds].
  pose proof (drain_buffer_lighter env k s) as H1.
  destruct (drain_buffer run_op run_into env k s) as [o s1]. cbn [snd] in H1.
  destruct o as [[[[buf pooled] w]|]|]; [|by eapply lighter_trans; [|apply IH]|done].
  destruct (dv_get 4 _ 0) as [count|e]; [|done].
  pose proof (deliver_lighter (Z.to_nat count) (take (Z.to_nat w) (content s1 buf)) buf pooled 4 (note_drain count s1)) as H2.
  destruct (deliver _ _ _ _ _ _) as [[[]|e] s2]; cbn [snd] in H2.
  - eapply lighter_trans; [exact H1|]. eapply lighter_trans; [|apply IH].
    eapply lighter_trans; [|exact H2]. by apply lighter_eq.
  - eapply lighter_trans; [exact H1|]. eapply lighter_trans; [|exact H2]. by apply lighter_eq.
Qed.

Lemma release_if_idle_lighter s : lighter s (release_if_idle s).
Proof. unfold release_if_idle. case_decide; by apply lighter_eq. Qed.

Lemma drainNow_lighter env s : lighter s (drainNow run_op run_into env s).
Proof.
  unfold drainNow. pose proof (drain_rounds_lighter 1024 env 0 (set_scheduled false s)) as H1.
  destruct (drain_rounds _ _ _ _ _ _) as [[[]|e] s1]; cbn [snd] in H1.
  - eapply lighter_trans; [|apply release_if_idle_lighter]. eapply lighter_trans; [|exact H1]. by apply lighter_eq.
  - eapply lighter_trans; [|exact H1]. by apply lighter_eq.
Qed.

(** ** Submissions and steps *)

Lemma sum_mset {V} (f : Z * V → nat) id d m :
  (sum_list_with f (mset id d m) ≤ sum_list_with f m + f (id, d))%nat.
Proof. induction m as [|[k v] m IH]; simpl; [lia|]. case_decide as Hk; simpl; [subst|]; lia. Qed.
Lemma sum_mdel_mset {V} (f : Z * V → nat) id d m :
  (sum_list_with f (mdel id (mset id d m)) ≤ sum_list_with f m)%nat.
Proof.
  induction m as [|[k v] m IH]; simpl; [rewrite decide_True by done; simpl; lia|].
  case_decide as Hk; simpl; [rewrite decide_True by done; lia|]. rewrite decide_False by done. simpl. lia.
Qed.

(** A submit function refuses, or queues one job. *)
Definition ffi_one (ffi : Z → TaskState → Z * TaskState) : Prop :=
  ∀ id s, (ffi id s).2 = s ∨
    (ffi id s).1 = 1 ∧ ∃ j, (ffi id s).2 =
      on_native (λ n, NP (queue n ++ [j]) (taken n) (running n) (ring n) (armed n) (bell_addr n) (bells n) (cancelled n)) s.

Lemma ffi_one_enqueue (mk : Z → Job) : ffi_one (λ id s, enqueue queue_max (mk id) s).
Proof. intros id s. destruct (enqueue_cases queue_max (mk id) s) as [->| ->]; [by left|right; eauto]. Qed.
Lemma ffi_one_out op args o : ffi_one (λ id, taskSubmitOut queue_max op args id o).
Proof.
  intros id s. unfold taskSubmitOut. case_decide; [by left|].
  apply (ffi_one_enqueue (λ id, MkJob id op args None (Some o))).
Qed.

(** [s'] comes from [s] by at most one submission whose handlers cost [n]. *)
Definition submits (n : nat) s s' : Prop :=
  nextId s ≤ nextId s' ∧ (work s' ≤ work s + 5 + n)%nat.

Lemma wire_submits sig id s s' n :
  submits n s s' →
  submits n s (match sig with
               | None => s'
               | Some sg => if decide (sg ∈ aborted s') then taskCancel id s'
                            else set_listeners (listeners s' ++ [(sg, id)]) s'
               end).
Proof. intros [??]. destruct sig as [sg|]; [|done]. by case_decide. Qed.

Lemma submission_submits d sig ffi s :
  ffi_one ffi → submits (stage_cost (d_stage d)) s (submission d sig ffi s).
Proof.
  intros Hffi. unfold submission. cbv zeta.
  assert (E : nextId (ensureDoorbell s) = nextId s ∧ work (ensureDoorbell s) = work s)
    by (unfold ensureDoorbell; by case_match).
  generalize dependent (ensureDoorbell s). intros s0 [En Ew].
  set (id := nextId s0) in *. set (s1 := retain _).
  assert (Hs1 : nextId s1 = id + 1 ∧ native s1 = native s0 ∧ microtasks s1 = microtasks s0 ∧
                inflight s1 = mset id d (inflight s0)) by done.
  clearbody s1. destruct Hs1 as (Hn1 & Hna1 & Hm1 & Hi1).
  pose proof (sum_mset (λ e, stage_cost (d_stage e.2)) id d (inflight s0)) as Hset.
  pose proof (sum_mdel_mset (λ e, stage_cost (d_stage e.2)) id d (inflight s0)) as Hdel.
  simpl in Hset. unfold work, js_work in Ew.
  destruct (ffi id s1) as [code s2] eqn:Ef. specialize (Hffi id s1). rewrite Ef in Hffi. cbn [fst snd] in Hffi.
  destruct (taskSubmitError code) as [e|] eqn:Ee.
  - assert (s2 = s1) as ->.
    { destruct Hffi as [?|[-> _]]; [done|]. by unfold taskSubmitError in Ee; rewrite decide_True in Ee. }
    set (s3 := release_if_idle _).
    assert (H3 : nextId s3 = id + 1 ∧ (work s3 ≤ work s)%nat).
    { pose proof (release_if_idle_lighter (set_inflight (mdel id (inflight s1)) s1)) as Hrel.
      split; [by transitivity (nextId s1); [apply (lighter_nextId _ _ Hrel)|]|]. destruct Hrel as [_ H32]. etrans; [exact H32|]. unfold work, js_work. simpl.
      rewrite Hna1, Hm1, Hi1. lia. }
    destruct H3 as [H31 H32]. pose proof (reject_work d e s3). pose proof (reject_fixed d e s3) as [= Hn3 _]. split; lia.
  - apply wire_submits. destruct Hffi as [->|(_ & j & ->)]; split; simpl; try lia;
      unfold work, js_work, native_work in *; simpl; rewrite ?Hna1, Hm1, Hi1, ?length_app; simpl; lia.
Qed.

Lemma submits_mono n s0 s s' : submits n s s' → nextId s0 = nextId s → work s0 = work s → submits n s0 s'.
Proof. unfold submits. intros ? -> ->. done. Qed.

Lemma submit_submits op args sig p st s : submits (stage_cost st) s (submit queue_max op args sig p st s).
Proof. apply submission_submits. apply (ffi_one_enqueue (λ id, MkJob id op args None None)). Qed.
Lemma zeroCopy_submits z cap p st s : submits (stage_cost st) s (zeroCopyOnce queue_max junk z cap p st s).
Proof.
  unfold zeroCopyOnce, allocUnsafe. cbn [alloc]. eapply submits_mono.
  - apply submission_submits, ffi_one_out.
  - done.
  - done.
Qed.

Lemma microtask_work env m s :
  nextId s ≤ nextId (run_microtask run_op run_into queue_max junk env m s) ∧
  (work (run_microtask run_op run_into queue_max junk env m s) < work s + mt_cost m)%nat.
Proof.
  destruct m as [|z p e|z p]; simpl.
  - destruct (drainNow_lighter env s) as [[= -> _] ?]. split; [done|lia].
  - assert (H : ∀ s', submits 7 s s' → nextId s ≤ nextId s' ∧ (work s' < work s + 13)%nat)
      by (intros s' [??]; split; [done|lia]).
    destruct e; apply H; try apply (submit_submits _ _ _ _ (LastCatch z)). apply (zeroCopy_submits _ _ _ (LastCatch z)).
  - destruct (submit_submits (z_op z) (z_args z) (z_signal z) p Final s) as [? Hw]. split; [done|].
    unfold copyPath. simpl in Hw. lia.
Qed.

(** A step of the runtime itself, with something to do. *)
Definition enabled s (e : event) : Prop :=
  match e with
  | Worker w => wenabled w s
  | Bell _ => bells (native s) ≠ 0%nat
  | Microtask _ => microtasks s ≠ []
  | _ => False
  end.

Lemma internal_steps_decrease s e : enabled s e → (work (step s e) < work s)%nat.
Proof.
  destruct e as [c|[n|i|i]|env|env|sig| |]; simpl; try done.
  - apply wpop_work.
  - intros Hi. pose proof (wstart_work i s Hi). lia.
  - apply wfinish_work.
  - intros Hb. unfold bell. destruct (bells (native s)) as [|n] eqn:En; [done|].
    set (s1 := on_native _ s). destruct (drainNow_lighter env s1) as [_ Hw].
    assert (S (work s1) = work s); [|lia]. subst s1. unfold work, native_work, js_work. simpl. rewrite En. lia.
  - intros Hm. unfold microtask_step. destruct (microtasks s) as [|m ms] eqn:Em; [done|].
    destruct (microtask_work env m (set_microtasks ms s)) as [_ Hw].
    assert ((work (set_microtasks ms s) + mt_cost m = work s)%nat); [|lia].
    unfold work, js_work. simpl. rewrite Em. simpl. lia.
Qed.

(** Each event has something to do when its turn comes. *)
Fixpoint all_enabled s (es : list event) : Prop :=
  match es with [] => True | e :: es => enabled s e ∧ all_enabled (step s e) es end.

(** C29. The runtime's own steps terminate: whatever the interleaving of workers,
    doorbell calls and microtasks, and whatever the native ops answer, at most
    [work s] steps that have something to do follow a state, the retries of the
    zero-copy decompressions included. *)
Theorem internal_runs_terminate s es :
  all_enabled s es → (length es + work (foldl step s es) ≤ work s)%nat.
Proof.
  revert s. induction es as [|e es IH]; intros s; simpl; [lia|]. intros [He Hes].
  specialize (IH _ Hes). pose proof (internal_steps_decrease s e He). lia.
Qed.

(** ** No completion is stranded *)

Lemma drainNow_nextId env s : nextId (drainNow run_op run_into env s) = nextId s.
Proof. apply lighter_nextId, drainNow_lighter. Qed.
Lemma drainNow_doorbell env s : doorbell (drainNow run_op run_into env s) = doorbell s.
Proof. by destruct (drainNow_lighter env s) as [[= _ ?] _]. Qed.

Lemma fold_cancel_nextId {A} (f : A → Z) (l : list A) s :
  nextId (foldl (λ s e, taskCancel (f e) s) s l) = nextId s.
Proof. revert s. induction l as [|x l IH]; intros s; [done|]. simpl. by rewrite IH. Qed.

Lemma run_call_nextId c s : nextId s ≤ nextId (run_call queue_max gzipIsize junk c s).
Proof.
  assert (Hs : ∀ n s0 s', submits n s0 s' → nextId s0 = nextId s → nextId s ≤ nextId s') by (intros ??? [? _] <-; done).
  assert (Hscr : ∀ need s0, nextId (scratch need s0) = nextId s0) by (intros; unfold scratch; by case_decide).
  destruct c as [data m sig|data m sig|data l sig|pw phc sig|pw salt r dk sig]; simpl.
  - unfold gzipDecompress. case_decide.
    + unfold with_scratch. case_match; [|by rewrite Hscr]. case_match.
      eapply Hs; [apply (submit_submits _ _ _ _ Final)|]. exact (Hscr _ _).
    + repeat case_match; try done. eapply Hs; [apply zeroCopy_submits|done].
  - unfold brotliDecompress. repeat case_match; try done. eapply Hs; [apply zeroCopy_submits|done].
  - unfold gzipCompress, with_scratch. case_match; [|by rewrite Hscr]. case_match.
    eapply Hs; [apply submission_submits|exact (Hscr _ _)].
    apply (ffi_one_enqueue (λ id, MkJob id OP_gzipCompress _ (Some data) None)).
  - unfold argon2Verify. case_match; [|done]. eapply Hs; [apply (submit_submits _ _ _ _ Final)|done].
  - unfold pbkdf2Sha256. case_match; [|done]. eapply Hs; [apply (submit_submits _ _ _ _ Final)|done].
Qed.

Lemma step_nextId s e : calm s e → nextId s ≤ nextId (step s e).
Proof.
  destruct e as [c|w|env|env|sig| |]; simpl; intros He; try done.
  - apply run_call_nextId.
  - by rewrite (lighter_nextId _ _ (wstep_lighter w s)).
  - unfold bell. case_match; [done|]. by rewrite drainNow_nextId.
  - unfold microtask_step. destruct (microtasks s) as [|m ms]; [done|].
    by destruct (microtask_work env m (set_microtasks ms s)) as [? _].
  - unfold abort. case_decide; [done|]. by rewrite fold_cancel_nextId.
  - by rewrite (lighter_nextId _ _ (release_if_idle_lighter s)).
  - unfold shutdown. simpl in He. rewrite He. done.
Qed.

(** Every completion in the ring has a doorbell call under way. *)
Definition bells_ok s : Prop := bell_addr (native s) = true ∧ (armed (native s) = true → bells (native s) ≠ 0%nat).
Definition rung s : Prop := ring (native s) = [] ∨ bells (native s) ≠ 0%nat.

Lemma wsteps_bells ws s :
  bells_ok s →
  bells_ok (wsteps ws s) ∧ (bells (native s) ≤ bells (native (wsteps ws s)))%nat ∧
  (ring (native (wsteps ws s)) = ring (native s) ∨ bells (native (wsteps ws s)) ≠ 0%nat).
Proof.
  revert s. induction ws as [|w ws IH]; intros s Hs; [by split; [|split; [|left]]|].
  assert (Hw : bells_ok (wstep s w) ∧ (bells (native s) ≤ bells (native (wstep s w)))%nat ∧
            (ring (native (wstep s w)) = ring (native s) ∨ bells (native (wstep s w)) ≠ 0%nat)).
  { destruct Hs as [Ha Hb]. destruct w as [n|i|i]; simpl.
    - split; [done|]. split; [done|]. by left.
    - unfold wstart. repeat case_match; (split; [done|]); (split; [done|]); by left.
    - unfold wfinish. destruct (running (native s) !! i) as [r|]; [|by split; [|split; [|left]]].
      set (s1 := match j_out (r_job r) with Some _ => _ | None => _ end).
      assert (E : native s1 = native s) by (subst s1; by repeat case_match). clearbody s1.
      unfold bells_ok. simpl. rewrite E, Ha.
      destruct (armed (native s)); simpl; [specialize (Hb eq_refl)|]; repeat split; auto; lia. }
  destruct Hw as (H1 & H2 & H3). simpl. destruct (IH _ H1) as (H4 & H5 & H6). split; [done|].
  split; [lia|]. destruct H6 as [->|?]; [|by right]. destruct H3 as [->|?]; [by left|right; lia].
Qed.

Hypothesis codec : CodecOk run_op run_into.
Context (calls : list call) (owner : gmap Z nat).
Notation Inv := (Inv run_op calls owner).

(** A drain call: the bell is rung, or the ring is as the drain left it. *)
Lemma taskDrain_bells env k b s w s' :
  Inv [] [] s → target s b → bell_addr (native s) = true → taskDrain run_op run_into env k b s = (w, s') →
  bells_ok s' ∧ (bells (native s) ≤ bells (native s'))%nat ∧
  (bells (native s') ≠ 0%nat ∨ ring (native s') = [] ∨
   ring (native s') = ring (native s) ∧ w = drain_needed (ring (native s)) ∧ 20 ≤ w ∧ zlen (content s b) < w).
Proof.
  intros HI Ht Hs. unfold taskDrain.
  assert (Hs0 : bells_ok (disarm s)) by done.
  destruct (wsteps_bells (env k) (disarm s) Hs0) as (H1 & H2 & H3).
  assert (Hc : content (wsteps (env k) (disarm s)) b = content s b).
  { erewrite (wsteps_content run_op run_into); [done|done|by apply disarm_inv|]. by destruct Ht as (_ & ? & _). }
  set (s1 := wsteps (env k) (disarm s)) in *. clearbody s1.
  change (native (disarm s)) with (NP (queue (native s)) (taken (native s)) (running (native s)) (ring (native s)) false
    (bell_addr (native s)) (bells (native s)) (cancelled (native s))) in *. cbn [ring bells] in *.
  destruct (drain (ring (native s1)) (content s1 b)) as [[w0 out] q] eqn:E.
  set (s2 := on_native _ _). intros [= <- <-].
  assert (Hs2 : bells_ok s2 ∧ bells (native s2) = bells (native s1) ∧ ring (native s2) = q).
  { destruct H1 as [Ha Hb]. split; [split; [exact Ha|exact Hb]|done]. }
  clearbody s2. destruct Hs2 as (Hs2 & Hb2 & Hr2). destruct (wsteps_bells (env (S k)) s2 Hs2) as (H4 & H5 & H6).
  split; [done|]. split; [lia|]. destruct H6 as [H6|?]; [|by left]. rewrite H6, Hr2.
  destruct H3 as [H3|?]; [|left; lia]. unfold drain in E. rewrite H3, Hc in E. right.
  case_decide as Hq; [injection E as <- <- <-; left; exact Hq|]. pose proof (drain_needed_bound _ Hq).
  case_decide; injection E as <- <- <-; [right|by left]. done.
Qed.

Lemma drain_buffer_bells env k s r s' :
  Inv [] [] s → bell_addr (native s) = true → drain_buffer run_op run_into env k s = (r, s') → bells_ok s' ∧ rung s'.
Proof.
  intros HI Hs. unfold drain_buffer.
  destruct (taskDrain run_op run_into env k (drainBuf s) s) as [w s1] eqn:E1.
  pose proof (inv_drain _ _ _ _ _ _ HI) as Ht.
  destruct (taskDrain_bells _ _ _ _ _ _ HI Ht Hs E1) as (Hb1 & Hm1 & Hd1).
  destruct (taskDrain_inv run_op run_into calls owner codec _ _ _ _ _ _ _ HI Ht E1) as (q & H1 & Hj & Hdr & Hz).
  assert (Hdone : (w < 4 ∨ ¬ zlen (content s1 (drainBuf s)) < w) → rung s1).
  { intros Hw. unfold rung. destruct Hd1 as [?|[?|(_ & _ & ? & ?)]]; auto. rewrite Hz in Hw. lia. }
  destruct (decide (w < 4)); [intros [= <- <-]; auto|].
  destruct (decide (zlen (content s1 (drainBuf s)) < w)) as [Hbig|]; [|intros [= <- <-]; auto].
  destruct Hdr as [(-> & _)|(_ & ? & _)]; [|lia]. cbn [alloc].
  set (s2 := if bool_decide (w ≤ MAX_POOLED_DRAIN)
             then set_drainBuf (length (bufs s1)) (set_bufs (bufs s1 ++ [new_u8 w]) s1)
             else set_bufs (bufs s1 ++ [new_u8 w]) s1).
  pose proof (alloc_target _ _ _ _ _ _ (new_u8 w) H1) as Ht1.
  assert (H2 : Inv [] [] s2 ∧ target s2 (length (bufs s1)) ∧ native s2 = native s1 ∧
           zlen (content s2 (length (bufs s1))) = w).
  { pose proof (alloc_inv _ _ _ _ _ _ (new_u8 w) H1) as Ha.
    assert (Hlen : zlen (content (alloc (new_u8 w) s1).2 (length (bufs s1))) = w)
      by (rewrite content_alloc_new; apply new_u8_zlen; lia).
    subst s2. case_bool_decide; [|done]. split; [by apply set_drainBuf_inv|done]. }
  clearbody s2. destruct H2 as (H2 & Ht2 & En2 & Hc2).
  destruct (taskDrain run_op run_into env (k + 2) (length (bufs s1)) s2) as [w2 s3] eqn:E2.
  assert (Hb2 : bell_addr (native s2) = true) by (rewrite En2; apply Hb1).
  destruct (taskDrain_bells _ _ _ _ _ _ H2 Ht2 Hb2 E2) as (Hb3 & Hm3 & Hd3).
  assert (Hrung : rung s3).
  { unfold rung. destruct Hd3 as [?|[?|(Hr & Hw & _ & Hlt)]]; auto. rewrite En2 in *.
    destruct Hd1 as [?|[Hr1|(Hr1 & Hw1 & _)]]; [right; lia|left; congruence|].
    exfalso. rewrite Hc2, Hw, Hr1, <-Hw1 in Hlt. lia. }
  repeat case_decide; intros [= <- <-]; done.
Qed.

Lemma drain_rounds_bells guard env k s r s' :
  Inv [] [] s → nextId s ≤ U32 → bell_addr (native s) = true → guard ≠ 0%nat ∨ (bells_ok s ∧ rung s) →
  drain_rounds run_op run_into guard env k s = (r, s') → bells_ok s' ∧ rung s'.
Proof.
  revert k s. induction guard as [|guard IH]; intros k s HI Hn Hs Hg.
  { intros [= <- <-]. by destruct Hg. }
  cbn [drain_rounds]. destruct (drain_buffer run_op run_into env k s) as [o s1] eqn:E.
  destruct (drain_buffer_bells _ _ _ _ _ HI Hs E) as [Hs1 Hr1].
  destruct (drain_buffer_inv run_op run_into calls owner codec _ _ _ _ _ _ HI E) as (Hb & En).
  destruct o as [[[[buf pooled] w]|]|]; [|rewrite <-En in Hn; apply IH; [done|done|apply Hs1|auto]|by intros [= <- <-]].
  edestruct round_inv as (count & s2 & -> & -> & H2 & (Enat & _ & En2 & _)); [done|exact Hb|lia|].
  apply IH; [done|lia| |]; unfold bells_ok, rung; rewrite Enat; [apply Hs1|by right].
Qed.

Lemma drainNow_bells env s :
  Inv [] [] s → nextId s ≤ U32 → bell_addr (native s) = true →
  bells_ok (drainNow run_op run_into env s) ∧ rung (drainNow run_op run_into env s).
Proof.
  intros HI Hn Hs. unfold drainNow.
  destruct (drain_rounds run_op run_into 1024 env 0 (set_scheduled false s)) as [r s'] eqn:E.
  apply drain_rounds_bells in E as Hb; [|by apply scheduled_inv|done|done|by left].
  destruct r; [|done]. unfold release_if_idle. by case_decide.
Qed.

(** What a step outside the drain loop and the workers does to the bell. *)
Definition bell_quiet s s' : Prop :=
  doorbell s' = doorbell s ∧ ring (native s') = ring (native s) ∧ armed (native s') = armed (native s) ∧
  bell_addr (native s') = bell_addr (native s) ∧ bells (native s') = bells (native s).

Definition ringing s : Prop := doorbell s = true ∧ bells_ok s ∧ rung s.

(** After a [shutdown] and before the next submission: no doorbell and no work. *)
Record silent s : Prop := {
  silent_doorbell : doorbell s = false;
  silent_armed : armed (native s) = false;
  silent_queue : queue (native s) = [];
  silent_running : running (native s) = [];
  silent_ring : ring (native s) = [] }.

Definition bell_inv s : Prop := ringing s ∨ silent s.

Lemma bell_quiet_ringing s s' : bell_quiet s s' → ringing s → ringing s'.
Proof.
  intros (E1 & E2 & E3 & E4 & E5). unfold ringing, bells_ok, rung. by rewrite E1, E2, E3, E4, E5.
Qed.
Lemma bell_quiet_trans s1 s2 s3 : bell_quiet s1 s2 → bell_quiet s2 s3 → bell_quiet s1 s3.
Proof. unfold bell_quiet. intros (?&?&?&?&?) (?&?&?&?&?). repeat split; congruence. Qed.

Lemma release_if_idle_quiet s s0 : bell_quiet s s0 → bell_quiet s (release_if_idle s0).
Proof. unfold release_if_idle. by case_decide. Qed.

Lemma submission_quiet d sig ffi s :
  doorbell s = true → ffi_one ffi → bell_quiet s (submission d sig ffi s).
Proof.
  intros Hd Hffi. unfold submission, ensureDoorbell. rewrite Hd. cbv zeta.
  set (s1 := retain _). assert (H1 : bell_quiet s s1) by done. clearbody s1.
  specialize (Hffi (nextId s) s1). destruct (ffi (nextId s) s1) as [code s2]. cbn [fst snd] in Hffi.
  assert (H2 : bell_quiet s s2) by (destruct Hffi as [->|(_ & j & ->)]; done).
  case_match.
  - assert (H3 := release_if_idle_quiet s (set_inflight (mdel (nextId s) (inflight s2)) s2) H2).
    unfold reject. case_match; exact H3.
  - destruct sig as [sg|]; [|done]. by case_decide.
Qed.

(** A submission first makes sure of the doorbell. *)
Lemma submission_bells d sig ffi s : ffi_one ffi → bell_inv s → bell_inv (submission d sig ffi s).
Proof.
  intros Hffi Hs. left.
  assert (E : submission d sig ffi s = submission d sig ffi (ensureDoorbell s)).
  { unfold submission. f_equal. unfold ensureDoorbell. destruct (doorbell s) eqn:Ed; [by rewrite Ed|done]. }
  assert (H0 : ringing (ensureDoorbell s)).
  { unfold ensureDoorbell. destruct Hs as [Hs|[Hd Ha Hq Hr Hk]].
    - pose proof Hs as [-> _]. done.
    - rewrite Hd. split; [done|]. split; [|by left]. split; [done|]. simpl. by rewrite Ha. }
  rewrite E. eapply bell_quiet_ringing; [|exact H0]. by apply submission_quiet; [apply H0|].
Qed.

Lemma submit_bells op args sig p st s : bell_inv s → bell_inv (submit queue_max op args sig p st s).
Proof. apply submission_bells. apply (ffi_one_enqueue (λ id, MkJob id op args None None)). Qed.
Lemma zeroCopy_bells z cap p st s : bell_inv s → bell_inv (zeroCopyOnce queue_max junk z cap p st s).
Proof.
  intros Hs. unfold zeroCopyOnce, allocUnsafe. cbn [alloc]. apply submission_bells; [apply ffi_one_out|].
  destruct Hs as [Hs|[]]; [by left|by right].
Qed.

Lemma scratch_bells need s : bell_inv s → bell_inv (scratch need s).
Proof. intros Hs. unfold scratch. case_decide; [|done]. destruct Hs as [Hs|[]]; [by left|by right]. Qed.

Lemma run_call_bells c s : bell_inv s → bell_inv (run_call queue_max gzipIsize junk c s).
Proof.
  intros Hs. unfold run_call.
  assert (H0 : bell_inv (set_promises (promises s ++ [Pending]) s))
    by (destruct Hs as [Hs|[]]; [by left|by right]).
  generalize dependent (set_promises (promises s ++ [Pending]) s). intros s0 H0.
  assert (Hscr : ∀ need x, bell_inv (set_argScratch x (scratch need s0))).
  { intros need x. destruct (scratch_bells need s0 H0) as [H|[]]; [by left|by right]. }
  destruct c as [data m sig|data m sig|data l sig|pw phc sig|pw salt r dk sig].
  - unfold gzipDecompress, with_scratch.
    case_decide; repeat case_match; auto using submit_bells, zeroCopy_bells, scratch_bells.
  - unfold brotliDecompress. repeat case_match; auto using zeroCopy_bells.
  - unfold gzipCompress, with_scratch. repeat case_match; auto using scratch_bells.
    apply submission_bells; [|auto]. apply (ffi_one_enqueue (λ id, MkJob id OP_gzipCompress _ (Some data) None)).
  - unfold argon2Verify. case_match; auto using submit_bells.
  - unfold pbkdf2Sha256. case_match; auto using submit_bells.
Qed.

(** With nothing to do and no doorbell, the workers and the drain do nothing. *)
Lemma silent_wsteps ws s : silent s → silent (wsteps ws s).
Proof.
  revert s. induction ws as [|w ws IH]; intros s Hs; [done|]. apply IH. destruct Hs as [? ? Hq Hr ?].
  destruct w as [n|i|i]; simpl.
  - by constructor.
  - unfold wstart. by rewrite Hq.
  - unfold wfinish. by rewrite Hr.
Qed.

Lemma silent_drain_rounds guard env k s :
  silent s → ∃ s', drain_rounds run_op run_into guard env k s = (Ok tt, s') ∧ silent s'.
Proof.
  intros Hs. destruct guard as [|guard]; [by exists s|].
  assert (Hs1 : silent (wsteps (env k) (disarm s))) by (apply silent_wsteps; by destruct Hs).
  cbn [drain_rounds]. unfold drain_buffer, taskDrain.
  set (s1 := wsteps _ _) in *. clearbody s1. unfold drain. rewrite (silent_ring _ Hs1), decide_True by done.
  cbv zeta. rewrite decide_True by done. eexists. split; [reflexivity|].
  apply silent_wsteps. destruct Hs1. by constructor.
Qed.

Lemma silent_drainNow env s : silent s → silent (drainNow run_op run_into env s).
Proof.
  intros Hs. unfold drainNow.
  destruct (silent_drain_rounds 1024 env 0 (set_scheduled false s)) as (s' & -> & Hs'); [by destruct Hs|].
  unfold release_if_idle. case_decide; [|done]. by destruct Hs'.
Qed.

Lemma drain_bells env s s0 :
  Inv [] [] s0 → nextId s0 ≤ U32 → bell_inv s →
  doorbell s0 = doorbell s → armed (native s0) = armed (native s) → queue (native s0) = queue (native s) →
  running (native s0) = running (native s) → ring (native s0) = ring (native s) →
  bell_addr (native s0) = bell_addr (native s) → bell_inv (drainNow run_op run_into env s0).
Proof.
  intros HI Hn Hb Ed Ea Eq Er Ek Eb. destruct Hb as [(Hd & [Hb _] & _)|[]].
  - left. destruct (drainNow_bells env s0 HI Hn) as [H1 H2]; [congruence|]. split; [|done].
    rewrite drainNow_doorbell. congruence.
  - right. apply silent_drainNow. constructor; congruence.
Qed.

Lemma run_microtask_bells env m s :
  Inv [] (option_list (mt_promise m)) s → nextId s ≤ U32 → bell_inv s →
  bell_inv (run_microtask run_op run_into queue_max junk env m s).
Proof.
  intros HI Hn Hb. destruct m as [|z p e|z p]; simpl.
  - by apply (drain_bells env s).
  - destruct e; unfold copyPath; auto using submit_bells, zeroCopy_bells.
  - by apply submit_bells.
Qed.

Lemma wstep_bells w s : bell_inv s → bell_inv (wstep s w).
Proof.
  intros [(Hd & Hbo & Hr)|Hs]; [|right; by apply (silent_wsteps [w])]. left.
  destruct (wsteps_bells [w] s Hbo) as (H1 & H2 & H3). simpl in *. split.
  - destruct (wstep_lighter w s) as [[= _ ->] _]. done.
  - split; [done|]. unfold rung. destruct H3 as [->|?]; [|by right]. destruct Hr; [by left|right; lia].
Qed.

Lemma step_bells s e :
  Inv [] [] s → nextId s ≤ U32 → calm s e → bell_inv s → bell_inv (step s e).
Proof.
  intros HI Hn He Hb. destruct e as [c|w|env|env|sig| |]; simpl.
  - by apply run_call_bells.
  - by apply wstep_bells.
  - unfold bell. destruct (bells (native s)) as [|n] eqn:En; [done|].
    (* one call less is under way, but this drain disarms first *)
    apply (drain_bells env s); try done. destruct HI. by constructor.
  - unfold microtask_step. destruct (microtasks s) as [|m ms] eqn:Em; [done|].
    destruct (pop_microtask_inv _ _ _ _ _ _ _ HI Em) as [Hp _].
    apply run_microtask_bells; [by rewrite app_nil_r in Hp|done|].
    destruct Hb as [Hb|[]]; [by left|by right].
  - unfold abort. case_decide; [done|].
    assert (Hf : ∀ l s0, bell_inv s0 → bell_inv (foldl (λ s (l : nat * Z), taskCancel l.2 s) s0 l)).
    { induction l as [|x l IH]; intros s0 H0; [done|]. simpl. apply IH. destruct H0 as [H0|[]]; [by left|by right]. }
    apply Hf. destruct Hb as [Hb|[]]; [by left|by right].
  - unfold release_if_idle. case_decide; [|done]. destruct Hb as [Hb|[]]; [by left|by right].
  - right. simpl in He. destruct (idle_native _ _ _ _ HI He) as (Hq & Hr & Hk).
    unfold shutdown. rewrite He. by constructor.
Qed.
End live.

(** ** The runtime over any history whose shutdowns find no task in flight *)

Section history.
Context (run_op : Z → list Z → list Z → list Z + list Z).
Context (run_into : Z → list Z → list Z → list Z → (Z + Z * list Z) * list Z).
Context (queue_max : Z) (gzipIsize : list Z → Z) (junk : nat → Z).
Hypothesis codec : CodecOk run_op run_into.
Implicit Types s : TaskState.

Definition reach (es : list event) : TaskState :=
  foldl (t_step run_op run_into queue_max gzipIsize junk) createTaskRuntime es.
(** The calls of a history, the [i]-th of which returned promise [i]. *)
Definition calls_of (es : list event) : list call := omap call_of es.
(** Every [shutdown] of the history is called while no task is in flight; other
    calls, worker steps, doorbells, microtasks, ticks and aborts are unrestricted. *)
Fixpoint calm_run s (es : list event) : Prop :=
  match es with
  | [] => True
  | e :: es => calm s e ∧ calm_run (t_step run_op run_into queue_max gzipIsize junk s e) es
  end.
Definition calm_history (es : list event) : Prop := calm_run createTaskRuntime es.
Definition no_shutdown (es : list event) : Prop := Forall (λ e, is_shutdown e = false) es.

Lemma calm_run_snoc s es e :
  calm_run s (es ++ [e]) → calm_run s es ∧ calm (foldl (t_step run_op run_into queue_max gzipIsize junk) s es) e.
Proof.
  revert s. induction es as [|e' es IH]; intros s; simpl; [by intros [? _]|].
  intros [He Hes]. by destruct (IH _ Hes).
Qed.

(** A history without a shutdown is one. *)
Lemma no_shutdown_calm s es : no_shutdown es → calm_run s es.
Proof.
  intros Hno. revert s. induction Hno as [|e es He Hes IH]; intros s; [done|]. split; [|apply IH]. by destruct e.
Qed.

Lemma reach_inv es :
  calm_history es → nextId (reach es) ≤ U32 →
  ∃ owner, Inv run_op (calls_of es) owner [] [] (reach es) ∧ bell_inv (reach es).
Proof.
  induction es as [|e es IH] using rev_ind; intros Hno Hn.
  { exists ∅. split; [apply create_inv|]. left. split; [done|]. split; [by split|by left]. }
  apply calm_run_snoc in Hno as [Hno He].
  unfold reach in *. rewrite foldl_app in *. cbn [foldl] in *.
  set (s0 := foldl _ createTaskRuntime es) in *. clearbody s0.
  assert (Hn' : nextId s0 ≤ U32) by (etrans; [by apply step_nextId|exact Hn]).
  destruct IH as (owner & HI & Hb); [done|done|].
  destruct (step_inv run_op run_into queue_max gzipIsize junk codec _ _ _ e HI Hn' He) as (owner' & HI').
  exists owner'. split; [|by eapply step_bells].
  unfold calls_of in *. rewrite omap_app. simpl. destruct (call_of e); exact HI'.
Qed.

(** What a settled promise tells its caller. *)
Definition answers s (c : call) (r : pstate) : Prop :=
  match r with
  | Pending => True
  | Fulfilled v => answer run_op c = inl (read_value s v)
  | Rejected (EMessage m) => ∃ b, answer run_op c = inr b ∧ m = message b
  | Rejected ECancelled => is_aborted s c
  | Rejected EOverloaded => True
  | Rejected _ => False
  end.

(** C15. Every call's promise is answered with the call's own result: after any
    history of calls, worker steps, doorbells, microtasks and aborts, and of shutdowns
    called while no task is in flight, with worker pushes racing every drain, a fulfilled promise reads as the native answer to its
    call's own arguments, whichever path (copied, pooled, fresh buffer, zero-copy,
    retried) delivered it and however much ran since; it is rejected only with that
    answer's error, with an abort of its own signal, or for overload. *)
Theorem task_results es p c :
  calm_history es → nextId (reach es) ≤ U32 → calls_of es !! p = Some c →
  ∃ r, promises (reach es) !! p = Some r ∧ answers (reach es) c r.
Proof.
  intros Hno Hn Hc. destruct (reach_inv es Hno Hn) as (owner & HI & _).
  apply lookup_lt_Some in Hc as Hlt. rewrite <-(inv_len _ _ _ _ _ _ HI) in Hlt.
  apply lookup_lt_is_Some_2 in Hlt as [r Hr]. exists r. split; [done|].
  pose proof (inv_settled _ _ _ _ _ _ HI p c r Hc Hr) as Hok.
  destruct r as [|v|[]]; try done. by destruct Hok.
Qed.

(** C16. No promise is forgotten: over any history of calls, worker steps, doorbells,
    microtasks, ticks and aborts in which [shutdown] is only called while no task is
    in flight, once no worker, doorbell call or microtask is left to run every
    promise returned so far is settled, whatever interleaving led there.  A shutdown
    that finds tasks in flight is excluded: [shutdown_strands_tasks] shows that it can
    strand a later task for ever. *)
Theorem tasks_settle es :
  calm_history es → nextId (reach es) ≤ U32 → (∀ e, ¬ enabled (reach es) e) →
  ∀ p, promises (reach es) !! p ≠ Some Pending.
Proof.
  intros Hno Hn Hdone p Hp. destruct (reach_inv es Hno Hn) as (owner & HI & Hb).
  apply (inv_pending _ _ _ _ _ _ HI) in Hp.
  assert (Hq : queue (native (reach es)) = []).
  { destruct (queue (native (reach es))) eqn:E; [done|]. destruct (taken (native (reach es))) eqn:Et.
    - destruct (Hdone (Worker (WPop 1))). simpl. rewrite E, Et. simpl. lia.
    - destruct (Hdone (Worker (WStart 0))). simpl. rewrite E, Et. simpl. lia. }
  assert (Hru : running (native (reach es)) = []).
  { destruct (running (native (reach es))) eqn:E; [done|]. destruct (Hdone (Worker (WFinish 0))). simpl. rewrite E. simpl. lia. }
  assert (Hm : microtasks (reach es) = []).
  { destruct (microtasks (reach es)) eqn:E; [done|]. destruct (Hdone (Microtask (λ _, []))). simpl. by rewrite E. }
  assert (Hri : ring (native (reach es)) = []).
  { destruct Hb as [(_ & _ & [?|Hb])|[]]; [done| |done]. by destruct (Hdone (Bell (λ _, []))). }
  pose proof (inv_ids _ _ _ _ _ _ HI) as Hids. unfold native_ids in Hids. rewrite Hq, Hru, Hri in Hids. simpl in Hids.
  apply Permutation_nil_r in Hids. unfold holders in Hp. rewrite Hm in Hp.
  destruct (inflight (reach es)); [|done]. simpl in Hp. by apply not_elem_of_nil in Hp.
Qed.

(** C28. No worker touches memory the runtime has let go of, over any history in which
    [shutdown] is only called while no task is in flight (a shutdown over a running
    zero-copy job does drop its buffer, [shutdown_drops_live_buffer]): every job that
    is queued or running has its in-place payload and its destination held by the in-flight
    entry of its task; the destination is no other task's, is not the drain buffer,
    and no settled promise views it. *)
Theorem buffers_outlive_jobs es j :
  calm_history es → nextId (reach es) ≤ U32 →
  j ∈ queue (native (reach es)) ++ (r_job <$> running (native (reach es))) →
  ∃ d, mget (j_id j) (inflight (reach es)) = Some d ∧ d_keep d = j_data j ∧ d_out d = j_out j ∧
    ∀ o, j_out j = Some o →
      o ≠ drainBuf (reach es) ∧ ¬ viewed (reach es) o ∧
      ∀ id' d', mget id' (inflight (reach es)) = Some d' → d_out d' = Some o → id' = j_id j.
Proof.
  intros Hno Hn Hj. destruct (reach_inv es Hno Hn) as (owner & HI & _).
  assert (∃ d, mget (j_id j) (inflight (reach es)) = Some d ∧ d_keep d = j_data j ∧ d_out d = j_out j)
    as (d & Hd & Hk & Ho).
  { pose proof (inv_queue _ _ _ _ _ _ HI) as HQ. pose proof (inv_running _ _ _ _ _ _ HI) as HR.
    rewrite Forall_forall in HQ. rewrite Forall_forall in HR. apply elem_of_app in Hj as [Hj|(r & -> & Hr)%list_elem_of_fmap].
    - destruct (HQ j Hj) as (d & c & ? & _ & ? & ? & _). by exists d.
    - destruct (HR r Hr) as (d & c & ? & _ & ? & ? & _). by exists d. }
  exists d. split_and!; [done..|]. intros o Hjo. assert (Hdo : d_out d = Some o) by congruence.
  pose proof (outs_elem _ _ _ _ Hd Hdo) as Hin. split; [|split].
  - intros ->. by destruct (inv_drain _ _ _ _ _ _ HI) as (_ & ? & _).
  - intros (p & a & b & Hp). apply lookup_lt_Some in Hp as Hlt. rewrite (inv_len _ _ _ _ _ _ HI) in Hlt.
    apply lookup_lt_is_Some_2 in Hlt as [c Hc]. by destruct (inv_settled _ _ _ _ _ _ HI _ _ _ Hc Hp) as (_ & _ & ?).
  - intros id' d' Hd' Hdo'. eapply outs_inj; [exact (inv_outs _ _ _ _ _ _ HI)|done..].
Qed.
End history.

(** ** What a shutdown breaks *)

Section deaf.
Context (run_op : Z → list Z → list Z → list Z + list Z).
Context (run_into : Z → list Z → list Z → list Z → (Z + Z * list Z) * list Z).
Context (queue_max : Z) (gzipIsize : list Z → Z) (junk : nat → Z).
Implicit Types s : TaskState.
Notation step := (t_step run_op run_into queue_max gzipIsize junk).

(** The doorbell window is armed with no call under way and no drain scheduled:
    nothing will ever drain the ring, and promise [p] waits for it. *)
Record deaf (p : nat) s : Prop := {
  deaf_armed : armed (native s) = true;
  deaf_bells : bells (native s) = 0%nat;
  deaf_mts : Forall (λ m, m ≠ DrainNow ∧ mt_promise m ≠ Some p) (microtasks s);
  deaf_pending : promises s !! p = Some Pending }.

Lemma deaf_reject p d e s : d_promise d ≠ p → deaf p s → deaf p (reject d e s).
Proof.
  intros Hne []. unfold reject. destruct (d_stage d); constructor; simpl; try done.
  - by rewrite list_lookup_insert_ne.
  - apply Forall_app. split; [done|]. constructor; [|constructor]. split; [done|]. simpl. congruence.
  - apply Forall_app. split; [done|]. constructor; [|constructor]. split; [done|]. simpl. congruence.
Qed.

Lemma deaf_submission p d sig ffi s :
  d_promise d ≠ p → ffi_one ffi → deaf p s → deaf p (submission d sig ffi s).
Proof.
  intros Hne Hffi Hd. unfold submission. cbv zeta.
  assert (H0 : deaf p (ensureDoorbell s)) by (unfold ensureDoorbell; case_match; [done|]; by destruct Hd).
  generalize dependent (ensureDoorbell s). intros s0 H0.
  set (s1 := retain _). assert (H1 : deaf p s1) by (by destruct H0). clearbody s1.
  specialize (Hffi (nextId s0) s1). destruct (ffi (nextId s0) s1) as [code s2]. cbn [fst snd] in Hffi.
  assert (H2 : deaf p s2) by (destruct Hffi as [->|(_ & j & ->)]; [done|by destruct H1]).
  case_match.
  - apply deaf_reject; [done|]. unfold release_if_idle. case_decide; by destruct H2.
  - destruct sig as [sg|]; [|done]. case_decide; by destruct H2.
Qed.

Lemma deaf_wstep p w s : deaf p s → deaf p (wstep run_op run_into s w).
Proof.
  intros []. destruct w as [n|i|i]; simpl.
  - by constructor.
  - unfold wstart. by repeat case_match.
  - unfold wfinish. destruct (running (native s) !! i) as [r|]; [|done].
    set (s1 := match j_out (r_job r) with Some _ => _ | None => _ end).
    assert (E : native s1 = native s ∧ microtasks s1 = microtasks s ∧ promises s1 = promises s)
      by (subst s1; by repeat case_match).
    clearbody s1. destruct E as (E1 & E2 & E3). constructor; simpl; rewrite ?E1, ?E2, ?E3; try done.
    by rewrite deaf_armed0.
Qed.

Lemma deaf_zeroCopy p z cap p' st s : p' ≠ p → deaf p s → deaf p (zeroCopyOnce queue_max junk z cap p' st s).
Proof.
  intros Hne Hd. unfold zeroCopyOnce, allocUnsafe. cbn [alloc].
  apply deaf_submission; [done|apply ffi_one_out|by destruct Hd].
Qed.
Lemma deaf_submit p op args sig p' st s : p' ≠ p → deaf p s → deaf p (submit queue_max op args sig p' st s).
Proof.
  intros Hne Hd. apply deaf_submission; [done| |done].
  apply (ffi_one_enqueue queue_max (λ id, MkJob id op args None None)).
Qed.

Lemma deaf_call p c s : deaf p s → deaf p (run_call queue_max gzipIsize junk c s).
Proof.
  intros Hd. unfold run_call. pose proof (lookup_lt_Some _ _ _ (deaf_pending _ _ Hd)) as Hlt.
  assert (Hne : length (promises s) ≠ p) by lia.
  assert (H0 : deaf p (set_promises (promises s ++ [Pending]) s)).
  { destruct Hd. constructor; try done. simpl. by rewrite lookup_app_l. }
  generalize dependent (set_promises (promises s ++ [Pending]) s). intros s0 H0.
  assert (Hscr : ∀ need, deaf p (scratch need s0)) by (intros; unfold scratch; case_decide; by destruct H0).
  assert (Hset : ∀ need x, deaf p (set_argScratch x (scratch need s0))) by (intros need x; by destruct (Hscr need)).
  destruct c as [data m sig|data m sig|data l sig|pw phc sig|pw salt r dk sig].
  - unfold gzipDecompress, with_scratch. case_decide; repeat case_match; auto using deaf_submit, deaf_zeroCopy.
  - unfold brotliDecompress. repeat case_match; auto using deaf_zeroCopy.
  - unfold gzipCompress, with_scratch. repeat case_match; auto. apply deaf_submission; [done| |auto].
    apply (ffi_one_enqueue queue_max (λ id, MkJob id OP_gzipCompress _ (Some data) None)).
  - unfold argon2Verify. repeat case_match; auto using deaf_submit.
  - unfold pbkdf2Sha256. repeat case_match; auto using deaf_submit.
Qed.

Lemma deaf_step p s e : is_shutdown e = false → deaf p s → deaf p (step s e).
Proof.
  intros He Hd. destruct e as [c|w|env|env|sig| |]; simpl; try done.
  - by apply deaf_call.
  - by apply deaf_wstep.
  - unfold bell. by rewrite (deaf_bells _ _ Hd).
  - unfold microtask_step. destruct (microtasks s) as [|m ms] eqn:Em; [done|].
    pose proof (deaf_mts _ _ Hd) as Hm. rewrite Em in Hm. inversion_clear Hm as [|?? [Hm1 Hm2] Hms].
    assert (H0 : deaf p (set_microtasks ms s)) by (by destruct Hd). destruct m as [|z p' e|z p']; simpl in *; [done| |].
    + assert (p' ≠ p) by congruence. destruct e; unfold copyPath; auto using deaf_submit, deaf_zeroCopy.
    + assert (p' ≠ p) by congruence. by apply deaf_submit.
  - unfold abort. case_decide; [done|].
    assert (Hf : ∀ l s0, deaf p s0 → deaf p (foldl (λ s (l : nat * Z), taskCancel l.2 s) s0 l)).
    { induction l as [|x l IH]; intros s0 H0; [done|]. simpl. apply IH. by destruct H0. }
    apply Hf. by destruct Hd.
  - unfold release_if_idle. case_decide; by destruct Hd.
Qed.

Lemma deaf_forever p s es : no_shutdown es → deaf p s → deaf p (foldl step s es).
Proof.
  intros Hno. revert s. induction Hno as [|e es He Hes IH]; intros s Hd; [done|]. simpl. apply IH. by apply deaf_step.
Qed.
End deaf.

(** A codec that doubles its payload, for concrete histories. *)
Definition toy_run_op (op : Z) (hdr data : list Z) : list Z + list Z :=
  if decide (zlen data < 100) then inl (data ++ data) else inr [33].
Definition toy_run_into (op : Z) (hdr data dest : list Z) : (Z + Z * list Z) * list Z :=
  if decide (zlen data < 100) then
    if decide (zlen dest < zlen (data ++ data))
    then (inr (TASK_STATUS_TOO_SMALL, le_bytes 8 (zlen (data ++ data))), dest)
    else (inl (zlen (data ++ data)), splice dest 0 (data ++ data))
  else (inr (TASK_STATUS_ERROR, [33]), dest).
Notation toy_reach := (reach toy_run_op toy_run_into 4 (λ _, 0) (λ _, 0)).

Lemma toy_codec : CodecOk toy_run_op toy_run_into.
Proof.
  constructor; unfold toy_run_op, toy_run_into, U32, U53.
  - intros _ _ data b. case_decide; intros [[= <-]|[= <-]]; rewrite ?zlen_app; [lia|done].
  - intros _ _ data dest w dest'. case_decide; [|done]. case_decide; [done|]. intros [= <- <-].
    pose proof (zlen_nonneg (data ++ data)).
    rewrite zlen_splice by lia. split_and!; [done|lia|lia|rewrite zlen_app; lia|].
    by rewrite take_splice by lia.
  - intros _ _ data dest st b dest'.
    case_decide; [case_decide; [|done]|]; intros [= <- <- <-]; (split; [done|]); (split; [done|]); set_solver.
Qed.

(** Compress, shut down while a worker runs, let it end, compress again, and run
    all there is to run. *)
Definition quiet_env : nat → list wevent := λ _, [].
Definition late_completion : list event :=
  [Microtask quiet_env; Call (GzipCompress [1] None None); Worker (WPop 1); Worker (WStart 0); Shutdown;
   Worker (WFinish 0); Call (GzipCompress [2] None None); Worker (WPop 1); Worker (WStart 0); Worker (WFinish 0)].

(** C30. A shutdown that overlaps a running job leaves the runtime deaf: the late
    completion arms the doorbell window while no doorbell is set, the next submission
    sets a new doorbell without disarming the window, and from then on no completion
    ever rings.  The task submitted after the shutdown has run to its end, its
    completion is in the ring, and its promise stays pending over every further
    history of calls, workers, microtasks, keep-alive ticks and aborts. *)
Theorem shutdown_strands_tasks es :
  no_shutdown es →
  let s := toy_reach (late_completion ++ es) in
  promises s !! 1%nat = Some Pending ∧
  (es = [] → queue (native s) = [] ∧ running (native s) = [] ∧ bells (native s) = 0%nat ∧
             c_id <$> ring (native s) = [1; 2] ∧ mkeys (inflight s) = [2]).
Proof.
  intros Hno. cbv zeta. unfold reach. rewrite foldl_app.
  set (s0 := foldl _ createTaskRuntime late_completion).
  assert (H0 : (armed (native s0), microtasks s0, promises s0 !! 1%nat) = (true, [], Some Pending) ∧
    queue (native s0) = [] ∧ running (native s0) = [] ∧ bells (native s0) = 0%nat ∧
    c_id <$> ring (native s0) = [1; 2] ∧ mkeys (inflight s0) = [2]) by (vm_compute; done).
  clearbody s0. destruct H0 as [[= Ha Hm Hp] Hq]. split; [|by intros ->].
  assert (Hd : deaf 1 s0) by (constructor; [done|by destruct Hq as (_ & _ & ? & _)|by rewrite Hm|done]).
  by destruct (deaf_forever toy_run_op toy_run_into 4 (λ _, 0) (λ _, 0) 1 s0 es Hno Hd).
Qed.

Lemma shutdown_strands_tasks_witness :
  no_shutdown [Call (GzipCompress [3] None None); Worker (WPop 1); Worker (WStart 0); Worker (WFinish 0); Tick] ∧
  promises (toy_reach (late_completion ++
    [Call (GzipCompress [3] None None); Worker (WPop 1); Worker (WStart 0); Worker (WFinish 0); Tick])) !! 1%nat = Some Pending.
Proof.
  assert (H : no_shutdown [Call (GzipCompress [3] None None); Worker (WPop 1); Worker (WStart 0); Worker (WFinish 0); Tick])
    by (repeat constructor).
  split; [exact H|]. refine (proj1 (shutdown_strands_tasks _ H)).
Defined.

(** The same overlap with a zero-copy decompression: after the shutdown nobody holds
    the destination that the worker is still writing, and the chain's handler is
    about to submit the cancelled decompression again. *)
Lemma shutdown_drops_live_buffer :
  let s := toy_reach [Microtask quiet_env; Call (BrotliDecompress [1; 2] None None); Worker (WPop 1);
                      Worker (WStart 0); Shutdown] in
  j_out ∘ r_job <$> running (native s) = [Some 1%nat] ∧ inflight s = [] ∧
  (match microtasks s with [Catch1 _ 0 ECancelled] => true | _ => false end) = true.
Proof. vm_compute. done. Qed.

(** A history with a shutdown of the idle runtime, a batch of two jobs, a drain that
    grows no buffer and one that is raced by a worker. *)
Definition two_tasks : list event :=
  [Microtask quiet_env; Shutdown; Call (GzipCompress [1; 2] None None);
   Call (GzipCompress [3] None (Some 0%nat)); Worker (WPop 16); Worker (WStart 0); Worker (WFinish 0); Worker (WStart 0);
   Bell (λ k, match k with O => [WFinish 0] | _ => [] end); Bell quiet_env].

Notation toy_calm := (calm_history toy_run_op toy_run_into 4 (λ _, 0) (λ _, 0)).

Lemma two_tasks_ok : toy_calm two_tasks ∧ nextId (toy_reach two_tasks) ≤ U32.
Proof. split; [vm_compute; tauto|vm_compute; discriminate]. Qed.

Lemma task_results_witness :
  ∃ r, promises (toy_reach two_tasks) !! 1%nat = Some r ∧
       answers toy_run_op (toy_reach two_tasks) (GzipCompress [3] None (Some 0%nat)) r.
Proof.
  apply (task_results toy_run_op toy_run_into 4 (λ _, 0) (λ _, 0) toy_codec two_tasks 1).
  - exact (proj1 two_tasks_ok).
  - exact (proj2 two_tasks_ok).
  - reflexivity.
Defined.

Lemma two_tasks_quiet :
  let s := toy_reach two_tasks in
  queue (native s) = [] ∧ running (native s) = [] ∧ bells (native s) = 0%nat ∧ microtasks s = [].
Proof. vm_compute. done. Qed.

Lemma tasks_settle_witness : promises (toy_reach two_tasks) !! 0%nat ≠ Some Pending.
Proof.
  apply (tasks_settle toy_run_op toy_run_into 4 (λ _, 0) (λ _, 0) toy_codec two_tasks).
  - exact (proj1 two_tasks_ok).
  - exact (proj2 two_tasks_ok).
  - destruct two_tasks_quiet as (Hq & Hr & Hb & Hm).
    intros [c|[n|i|i]|env|env|sig| |]; cbn [enabled wenabled]; try (intros []; fail).
    + rewrite Hq. intros [_ Hn]. by apply Nat.nlt_0_r in Hn.
    + rewrite Hq. intros [_ Hn]. by apply Nat.nlt_0_r in Hn.
    + rewrite Hr. apply Nat.nlt_0_r.
    + intros Hn. by apply Hn.
    + intros Hn. by apply Hn.
Defined.

Lemma buffers_outlive_jobs_witness :
  let s := toy_reach (take 4 two_tasks) in
  let j := MkJob 2 OP_gzipCompress [6; 0; 0; 0] (Some [3]) None in
  ∃ d, mget 2 (inflight s) = Some d ∧ d_keep d = Some [3].
Proof.
  destruct (buffers_outlive_jobs toy_run_op toy_run_into 4 (λ _, 0) (λ _, 0) toy_codec (take 4 two_tasks)
              (MkJob 2 OP_gzipCompress [6; 0; 0; 0] (Some [3]) None)) as (d & H1 & H2 & _).
  - vm_compute. tauto.
  - vm_compute. discriminate.
  - assert (E : queue (native (toy_reach (take 4 two_tasks))) =
      [MkJob 1 OP_gzipCompress [6; 0; 0; 0] (Some [1; 2]) None; MkJob 2 OP_gzipCompress [6; 0; 0; 0] (Some [3]) None])
      by (vm_compute; reflexivity).
    rewrite E. set_solver.
  - exists d. split; [exact H1|exact H2].
Defined.

Lemma internal_runs_terminate_witness :
  let es := [Worker (WPop 1); Worker (WStart 0); Worker (WFinish 0); Bell quiet_env] in
  let s := toy_reach (take 3 two_tasks) in
  (4 + work (foldl (t_step toy_run_op toy_run_into 4%Z (λ _, 0%Z) (λ _, 0%Z)) s es) ≤ work s)%nat.
Proof.
  apply (internal_runs_terminate toy_run_op toy_run_into 4 (λ _, 0) (λ _, 0)
           (toy_reach (take 3 two_tasks)) [Worker (WPop 1); Worker (WStart 0); Worker (WFinish 0); Bell quiet_env]).
  vm_compute. split; [split; [discriminate|apply le_n]|]. split; [split; apply le_n|]. split; [apply le_n|]. split; [discriminate|exact I].
Defined.

